(* ===== verification/_CoqProject ===== *)
-Q . S2P
Prelude.v
BTree.v
Crc32.v
Storage.v
StorageFacts.v
Sha256.v
Hmac.v
Blake2b.v
ChaCha20.v
Poly1305.v
X25519.v
X25519Facts.v
Keccak.v
KeccakFacts.v
Ntt.v
Mlkem.v
MlkemFacts.v
MlkemKem.v
MlkemCorrect.v
Mldsa.v
MldsaFacts.v
MldsaRound.v
MldsaCodec.v
MldsaSample.v
MldsaAlgebra.v
MldsaCorrect.v
Hybrid.v
Aead.v
Argon2.v
Float.v
SqlAst.v
SqlLexer.v
SqlParser.v
SqlFacts.v
SqlRoundtrip.v
Migrate.v
MigrateFacts.v
Values.v
Codec.v
CodecFacts.v
Store.v
Sort.v
Exprs.v
ExprFacts.v
AuditChain.v
AuditFacts.v
MerkleFacts.v
Aggregate.v
AggregateFacts.v
KeyParams.v
Wire.v
Server.v
ReplicaFacts.v
RemoteFacts.v
Handshake.v
EngineState.v
Ddl.v
Query.v
Dml.v
Exec.v
EngineFacts.v
EngineAudit.v
EngineTxn.v
EngineGuarantees.v
EngineOpen.v
Rotate.v
RotateFacts.v
Restart.v
Signing.v
Errors.v
Json.v
FloatFacts.v
Ffi.v
FfiFacts.v
Cli.v
CliFacts.v
Serve.v
ServerMain.v
