(* ===== verification/Prelude.v ===== *)
(** * Ciphra: a verified model of an encrypted SQL database

    Ciphra is a zero-dependency encrypted database in Rust: SQL text is lexed
    and parsed, an engine executes it on rows sealed with
    ChaCha20-Poly1305, the sealed records live in a log-structured key-value
    store (in a local file or behind an encrypted channel to a server), and
    every change extends a hash-chained audit log. This library models that
    code file by file and proves what makes it correct.

    ** Reading guide

    A Rust [&[u8]], [Vec<u8>] or [String] is a [list byte]; a w-bit integer
    is a [Z] with its wrap-around written out ([wrap], [wadd], [wmul]); an
    [f64] is its 64-bit pattern, and its arithmetic is that of the Standard
    Library's [SpecFloat] ([Float]); a [BTreeMap] is a [gmap] listed in key
    order ([BTree]); a [Result] is [result], with [?] as its bind; a [&mut]
    engine is a state monad ([EngineState.EngineM]); randomness and the clock
    are streams in a [World] that the engine carries; the outcome of each
    file write is an argument ([Storage.IoOutcome]).

    - storage (ciphra-storage/src/lib.rs): [BTree], [Crc32], [Storage] and
      [StorageFacts]. The write-ahead log as bytes, replay, batches,
      snapshots and compaction. The store refines a finite map
      ([storage_refines_map]); a crash that cuts a commit anywhere recovers
      to before or after it ([commit_crash_atomic]); replay rebuilds the
      state ([reachable_reopens]); one-byte damage is detected
      ([corrupted_record_rejected]).
    - cryptography (ciphra-crypto/src): [Sha256], [Hmac], [Blake2b],
      [ChaCha20], [Poly1305], [X25519], [Keccak], [Aead] and [Argon2], a file
      each for sha256.rs, hmac.rs, blake2b.rs, chacha20.rs, poly1305.rs,
      x25519.rs, keccak.rs, aead.rs with the [CipherKey] of lib.rs, and
      argon2.rs. The streaming hashes and the sponge equal their
      specifications however the input is cut; the limb arithmetic of
      Poly1305 equals the polynomial of RFC 8439, and that of X25519 the
      ladder of RFC 7748 modulo 2^255 - 19 ([X25519Facts]);
      opening an envelope succeeds exactly on sealings; Argon2id's references
      are in bounds and already computed. No hardness assumption is made: where a
      theorem needs one, it says "absent a collision between these inputs".
    - the lattice schemes: [Ntt] is the theory of the layered number-theoretic
      transform that both share; [Mlkem] is ml_kem.rs, and [MlkemFacts],
      [MlkemKem] and [MlkemCorrect] show that its transform multiplies
      polynomials and that decapsulation recovers the secret; [Mldsa] is
      ml_dsa.rs, and [MldsaFacts], [MldsaRound] (rounding and hints),
      [MldsaCodec] (packings), [MldsaSample] (samplers), [MldsaAlgebra] and
      [MldsaCorrect] show that every signature verifies. The hash functions
      are an interface ([Mlkem.KemHash], [Mldsa.Xof]) that [Keccak]
      implements, and the theorems need only its output lengths.
    - the key exchange (hybrid.rs, and the handshakes of ciphra-net):
      [Hybrid] and [Handshake]. An undisturbed handshake connects, and the
      keys of the two sides come from transcripts that differ in the two
      X25519 agreements at most (that X25519 commutes is not proved); channels
      that meet were set up over the same messages
      ([handshake_binds_transcript]).
    - SQL (ciphra-sql/src): [SqlAst] (lib.rs), [SqlLexer] (lexer.rs),
      [SqlParser] (parser.rs), with [SqlFacts] and [SqlRoundtrip]. Every
      parse ends, yields well-formed statements, and a displayed WHERE clause
      without REAL and VECTOR literals is read back unchanged.
    - codecs (ciphra-engine/src/codec.rs and the record formats of lib.rs):
      [Values], [Codec], [CodecFacts] and [KeyParams]. Exact: a buffer
      decodes to a row if and only if it is that row's encoding.
    - the engine (ciphra-engine/src/lib.rs), by concern: [Store] is the
      transactional overlay over any [Backend]; [Sort] and [Exprs] are
      ordering, coercion, three-valued predicates and access-path choice;
      [Aggregate] is grouping and HAVING; [AuditChain] is the audit log and
      its Merkle proofs; [EngineState] is the engine record, the catalog,
      sealing and the audited commit; [Ddl], [Dml], [Query] and [Exec] are
      the statement handlers, [open_store] and [audit_verify].
      [ExprFacts], [AggregateFacts], [AuditFacts] and [MerkleFacts] prove the
      parts; [EngineFacts], [EngineAudit] and [EngineTxn] carry an invariant
      through every handler; [EngineGuarantees] and [EngineOpen] state what
      follows for whole sessions: as long as the backend refuses no COMMIT
      ([commits_accepted]) the audit log verifies and only grows, ROLLBACK
      restores the database exactly, and a failed statement changes nothing;
      a refused COMMIT leaves an audit head that does not verify
      ([failed_commit_strands_audit_head]). On a disk that takes every write
      no COMMIT is refused ([disk_commits_accepted]). [Signing] is the ML-DSA signature of the
      audit root: it names the verified history, and a receipt under it is
      about an entry of that history. [Rotate] and [RotateFacts] are the data
      directory: opening, restoring and rotating the key, which either leaves
      the log untouched or keeps every table and the whole history. [Restart]:
      the log of a session on such a disk replays, so that a directory opened
      again with its passphrase holds exactly the committed history.
    - the wire (ciphra-net/src/lib.rs): [Wire] has the frames and message
      codecs, [Server] the sealed channel, the request handler, replication
      and the remote client, over a TCP stream that can be lost at any byte.
      [RemoteFacts]: the client over the network refines calls on one table. [ReplicaFacts]: a follower converges to the
      leader. [Serve] has the loops of whole connections, over the bytes that
      arrive: wherever the network cuts them, a replica holds a state that
      its leader had.
    - migration (ciphra-migrate/src/lib.rs): [Migrate] and [MigrateFacts]. No
      statement can be injected by the text of a MySQL dump.
    - the programs around the engine. The C interface (ciphra-ffi/src/lib.rs):
      [Errors] has the texts of errors, [Ffi] the JSON encoder and the calls
      over a memory of handles, strings and caller's buffers; [Json] is a
      reader of RFC 8259 and [FloatFacts] the text of numbers. [FfiFacts]: a
      driver's session is a session of the engine, and its JSON reads back to
      the results. The command line (ciphra/src/main.rs): [Cli] and
      [CliFacts]: an import runs every statement and counts what happened, the REPL
      runs its input batch by batch, tables are aligned. The server
      (ciphra-server/src/main.rs): [ServerMain], arguments and identity.

    ** Interfaces

    [Store.Backend] has the operations of the storage back end;
    [Store.BackendLaws] says that they act on a table, and
    [Store.StrictBackend] that reads never fail and failed writes change
    nothing. The engine's theorems are proved against these classes; the local
    store is an instance of all of them, and [RemoteFacts] gives the remote
    one its contract: a failed write may have been applied.

    ** Fuel

    Loops that are not structural take fuel computed from their input: the
    length of the text for the lexer and the log, [parser_fuel] (five times the
    number of tokens, plus ten) for the parser. [parse_statements_total] and
    the specifications of the loops prove that it does not run out.

    ** Not modelled

    - [Engine::open_remote]: it is [Handshake.connect] followed by
      [open_store], both modelled, but the engine is not run over the remote
      client, whose reads change the connection and can fail, where
      [Store.Backend] has reads that only look.
    - the accept loop and threads of the server: requests reach the handler
      one at a time, as the lock around the state makes them.
    - rand.rs and zeroize.rs (system randomness, volatile writes), the
      benchmark and the test helpers.

    This file is the shared prelude: results and their loops, slices, little-
    and big-endian integers, words, and the tactics the other files use. *)

From Stdlib Require Export ZArith Lia String.
From coqutil Require Export Byte.
From coqutil Require Import Word.LittleEndianList.
Export LittleEndianList.
From stdpp Require Export base list gmap sorting option.

#[global] Open Scope Z_scope.
#[global] Open Scope list_scope.

(** ** Scope and notations of the development *)

Declare Scope ciphra_scope.
Delimit Scope ciphra_scope with ciphra.

(** Rust [&[u8]], [Vec<u8>], [&str] and [String] are byte sequences; a
    string is additionally valid UTF-8 where the code checks it. *)
Abbreviation bytes := (list byte).

(** ASCII literals of the source ([b"..."] and ["..."]). *)
Definition bs (s : string) : bytes := list_byte_of_string s.

(** ** Instances on bytes *)

#[export] Instance byte_eq_dec : EqDecision byte := Byte.byte_eq_dec.
#[export] Instance byte_countable : Countable byte :=
  inj_countable Byte.to_N Byte.of_N Byte.of_to_N.
#[export] Instance byte_inhabited : Inhabited byte := populate Byte.x00.

(** ** Results: the [?] operator of the source is the bind below *)

Inductive result (E A : Type) : Type :=
| Ok (a : A)
| Err (e : E).
Arguments Ok {E A} a.
Arguments Err {E A} e.

#[export] Instance result_ret {E} : MRet (result E) := λ A a, Ok a.
#[export] Instance result_bind {E} : MBind (result E) := λ A B f r,
  match r with Ok a => f a | Err e => Err e end.
#[export] Instance result_fmap {E} : FMap (result E) := λ A B f r,
  match r with Ok a => Ok (f a) | Err e => Err e end.

Lemma ok_inj {E A} (x y : A) : @Ok E A x = Ok y → x = y.
Proof. by intros [= ->]. Qed.

Definition ok_or {E A} (e : E) (o : option A) : result E A :=
  match o with Some a => Ok a | None => Err e end.

Definition map_err {E F A} (f : E → F) (r : result E A) : result F A :=
  match r with Ok a => Ok a | Err e => Err (f e) end.

Definition is_ok {E A} (r : result E A) : bool :=
  match r with Ok _ => true | Err _ => false end.

(** [iter().map(f).collect::<Result<_>>()]: the first error wins. *)
Fixpoint mapR {E A B} (f : A → result E B) (l : list A) : result E (list B) :=
  match l with
  | [] => Ok []
  | x :: l' => y ← f x; ys ← mapR f l'; Ok (y :: ys)
  end.

(** A [for] loop that threads an accumulator and may return early. *)
Fixpoint foldR {E A B} (f : A → B → result E A) (a : A) (l : list B) : result E A :=
  match l with
  | [] => Ok a
  | x :: l' => a' ← f a x; foldR f a' l'
  end.

#[export] Instance result_eq_dec {E A} `{EqDecision E, EqDecision A} :
  EqDecision (result E A).
Proof. solve_decision. Defined.

(** ** Machine integers *)

Definition wrap (w z : Z) : Z := z mod 2 ^ w.
Definition wadd (w a b : Z) : Z := wrap w (a + b).
Definition wsub (w a b : Z) : Z := wrap w (a - b).
Definition wmul (w a b : Z) : Z := wrap w (a * b).
Definition wnot (w a : Z) : Z := Z.lxor a (Z.ones w).
Definition rotr (w x n : Z) : Z := Z.lor (Z.shiftr x n) (wrap w (Z.shiftl x (w - n))).
Definition rotl (w x n : Z) : Z := Z.lor (wrap w (Z.shiftl x n)) (Z.shiftr x (w - n)).

(** Two's complement reading of a [w]-bit pattern. *)
Definition to_signed (w z : Z) : Z := if z <? 2 ^ (w - 1) then z else z - 2 ^ w.
Definition in_i64 (z : Z) : Prop := - 2 ^ 63 ≤ z < 2 ^ 63.
Definition in_u (w z : Z) : Prop := 0 ≤ z < 2 ^ w.

(** [to_le_bytes], [from_le_bytes] and their big-endian forms; [n] is the
    width in bytes. *)
Definition le_bytes (n : nat) (z : Z) : bytes := le_split n z.
Definition from_le (b : bytes) : Z := le_combine b.
Definition be_bytes (n : nat) (z : Z) : bytes := reverse (le_split n z).
Definition from_be (b : bytes) : Z := le_combine (reverse b).

(** [buf[a..b]] on an in-range slice, and [buf.get(a..b)]. *)
Definition slice {A} (a b : nat) (l : list A) : list A := take (b - a) (drop a l).
Definition get_range {A} (a b : nat) (l : list A) : option (list A) :=
  if decide (a ≤ b ∧ b ≤ length l)%nat then Some (slice a b l) else None.

(** [iter().position(f)], [iter().take_while(f)], [iter().skip_while(f)]. *)
Fixpoint position {A} (f : A → bool) (l : list A) : option nat :=
  match l with
  | [] => None
  | x :: l' => if f x then Some 0%nat else S <$> position f l'
  end.

Fixpoint take_while {A} (f : A → bool) (l : list A) : list A :=
  match l with
  | [] => []
  | x :: l' => if f x then x :: take_while f l' else []
  end.

Fixpoint drop_while {A} (f : A → bool) (l : list A) : list A :=
  match l with
  | [] => []
  | x :: l' => if f x then drop_while f l' else l
  end.

(** [chunks_exact(n)] / [chunks(n)] ([fuel] bounds the number of chunks). *)
Fixpoint chunks_fuel {A} (fuel n : nat) (l : list A) : list (list A) :=
  match fuel, l with
  | O, _ => []
  | _, [] => []
  | S f, _ => take n l :: chunks_fuel f n (drop n l)
  end.
Definition chunks {A} (n : nat) (l : list A) : list (list A) :=
  chunks_fuel (length l) n l.

(** Pointwise xor of two byte sequences ([iter().zip()]). *)
Definition xor_bytes (a b : bytes) : bytes := zip_with byte.xor a b.

(** [slice.starts_with(prefix)]. *)
Fixpoint starts_with (p k : bytes) : bool :=
  match p, k with
  | [], _ => true
  | x :: p', y :: k' => if decide (x = y) then starts_with p' k' else false
  | _ :: _, [] => false
  end.

(** ** Tactics and hint databases *)

(** [len]: lengths of byte sequences; [le]: reading back what was written. *)
Create HintDb len discriminated.
Create HintDb le discriminated.

Ltac len_simpl := autorewrite with len in *; cbn [length fst snd] in *.
Ltac len_solve := len_simpl; lia.

(** Case analysis on the scrutinee of the first match or test of the goal. *)
Ltac case_first :=
  match goal with
  | |- context [decide ?P] => destruct (decide P)
  | |- context [if ?b then _ else _] => let E := fresh "E" in destruct b eqn:E
  | |- context [match ?x with _ => _ end] => let E := fresh "E" in destruct x eqn:E
  end.

(** Same in a hypothesis, closing the impossible branches. *)
Ltac case_hyp H :=
  match type of H with
  | context [decide ?P] => destruct (decide P); simplify_eq H
  | context [if ?b then _ else _] => let E := fresh "E" in destruct b eqn:E; try discriminate H
  | context [match ?x with _ => _ end] => let E := fresh "E" in destruct x eqn:E; try discriminate H
  end.

(** Reduce a bind whose first action is known. *)
Ltac result_simpl := cbn [mbind result_bind mret result_ret fmap result_fmap ok_or map_err
                          option_bind option_ret option_fmap] in *.

(** ** Lemmas on results *)

Lemma mapR_ok_length {E A B} (f : A → result E B) (l : list A) (k : list B) :
  mapR f l = Ok k → length k = length l.
Proof.
  revert k. induction l as [|x l IH]; intros k; cbn; [by intros [= <-]|].
  destruct (f x); [|done]. destruct (mapR f l); [|done].
  intros [= <-]. cbn. by rewrite (IH _ eq_refl).
Qed.

Lemma mapR_app {E A B} (f : A → result E B) (l k : list A) :
  mapR f (l ++ k) = (xs ← mapR f l; ys ← mapR f k; Ok (xs ++ ys)).
Proof.
  induction l as [|x l IH]; cbn.
  - by destruct (mapR f k).
  - destruct (f x); cbn; [|done]. rewrite IH.
    destruct (mapR f l); cbn; [|done]. by destruct (mapR f k).
Qed.

Lemma mapR_map_ok {E A B} (f : A → result E B) (g : A → B) (l : list A) :
  (∀ x, x ∈ l → f x = Ok (g x)) → mapR f l = Ok (map g l).
Proof.
  induction l as [|x l IH]; intros Hf; cbn; [done|].
  rewrite (Hf x) by set_solver. cbn. by rewrite IH by set_solver.
Qed.

Lemma mapR_ok_Forall2 {E A B} (f : A → result E B) (l : list A) (k : list B) :
  mapR f l = Ok k ↔ Forall2 (λ x y, f x = Ok y) l k.
Proof.
  revert k. induction l as [|x l IH]; intros k; cbn; split.
  - intros [= <-]. constructor.
  - by intros ->%Forall2_nil_inv_l.
  - destruct (f x) eqn:Hx; cbn; [|done]. destruct (mapR f l) eqn:Hl; cbn; [|done].
    intros [= <-]. constructor; [done|]. by apply IH.
  - intros (y & ys & Hy & Hys & ->)%Forall2_cons_inv_l. rewrite Hy. cbn.
    by rewrite (proj2 (IH ys) Hys).
Qed.

Lemma foldR_app {E A B} (f : A → B → result E A) (a : A) (l k : list B) :
  foldR f a (l ++ k) = (a' ← foldR f a l; foldR f a' k).
Proof.
  revert a. induction l as [|x l IH]; intros a; cbn; [done|].
  by destruct (f a x); cbn.
Qed.

(** ** Lemmas on filters *)

Lemma filter_all_false {A} (P : A → Prop) `{∀ x, Decision (P x)} (l : list A) :
  (∀ x, x ∈ l → ¬ P x) → filter P l = [].
Proof.
  induction l as [|x l IH]; intros Hl; [done|].
  rewrite filter_cons_False by (apply Hl; set_solver). apply IH. set_solver.
Qed.

(** ** Lemmas on slices *)

Lemma length_bytes_le n z : length (le_bytes n z) = n.
Proof. apply length_le_split. Qed.

Lemma length_bytes_be n z : length (be_bytes n z) = n.
Proof. unfold be_bytes. rewrite length_reverse. apply length_le_split. Qed.

#[export] Hint Rewrite @length_app @length_take @length_drop @length_map
  length_bytes_le length_bytes_be @length_replicate @length_reverse @length_zip_with : len.

Lemma get_range_ok {A} (a b : nat) (l : list A) :
  (a ≤ b)%nat → (b ≤ length l)%nat → get_range a b l = Some (slice a b l).
Proof. intros. unfold get_range. by rewrite decide_True. Qed.

Lemma get_range_none {A} (a b : nat) (l : list A) :
  (a ≤ b)%nat → (length l < b)%nat → get_range a b l = None.
Proof. intros. unfold get_range. rewrite decide_False; [done|lia]. Qed.

Lemma get_range_Some {A} (a b : nat) (l k : list A) :
  get_range a b l = Some k → k = slice a b l ∧ (a ≤ b)%nat ∧ (b ≤ length l)%nat.
Proof. unfold get_range. case_decide; [|done]. by intros [= <-]. Qed.

Lemma length_slice {A} (a b : nat) (l : list A) :
  (b ≤ length l)%nat → length (slice a b l) = (b - a)%nat.
Proof. intros. unfold slice. rewrite length_take, length_drop. lia. Qed.

(** [slice] of a concatenation, by the position of its piece. *)
Lemma slice_app_at {A} (pre mid post : list A) (a b : nat) :
  a = length pre → b = (length pre + length mid)%nat →
  slice a b (pre ++ mid ++ post) = mid.
Proof.
  intros -> ->. unfold slice. rewrite drop_app_length.
  by rewrite take_app_length' by lia.
Qed.

Lemma get_range_app_at {A} (pre mid post : list A) (a b : nat) :
  a = length pre → b = (length pre + length mid)%nat →
  get_range a b (pre ++ mid ++ post) = Some mid.
Proof.
  intros -> ->. rewrite get_range_ok; [|lia|rewrite !length_app; lia].
  f_equal. by apply slice_app_at.
Qed.

(** ** Lemmas on little- and big-endian integers *)

Lemma from_le_bytes n z : from_le (le_bytes n z) = z mod 2 ^ (8 * Z.of_nat n).
Proof. unfold from_le, le_bytes. rewrite le_combine_split. f_equal. f_equal. lia. Qed.

Lemma from_le_small n z : 0 ≤ z < 2 ^ (8 * Z.of_nat n) → from_le (le_bytes n z) = z.
Proof. intros. rewrite from_le_bytes. by apply Z.mod_small. Qed.

Lemma from_le_bound b : 0 ≤ from_le b < 2 ^ (8 * Z.of_nat (length b)).
Proof. apply le_combine_bound. Qed.

Lemma le_bytes_from_le n b : length b = n → le_bytes n (from_le b) = b.
Proof. intros. by apply split_le_combine'. Qed.

Lemma le_bytes_inj n a b : 0 ≤ a < 2 ^ (8 * Z.of_nat n) → 0 ≤ b < 2 ^ (8 * Z.of_nat n) →
  le_bytes n a = le_bytes n b → a = b.
Proof. intros Ha Hb H. rewrite <- (from_le_small n a), <- (from_le_small n b) by done. by f_equal. Qed.

Lemma from_be_small n z : 0 ≤ z < 2 ^ (8 * Z.of_nat n) → from_be (be_bytes n z) = z.
Proof. intros. unfold from_be, be_bytes. rewrite reverse_involutive. by apply from_le_small. Qed.

Lemma be_bytes_inj n a b : 0 ≤ a < 2 ^ (8 * Z.of_nat n) → 0 ≤ b < 2 ^ (8 * Z.of_nat n) →
  be_bytes n a = be_bytes n b → a = b.
Proof. intros Ha Hb H. rewrite <- (from_be_small n a), <- (from_be_small n b) by done. by f_equal. Qed.

Lemma be_bytes_from_be n b : length b = n → be_bytes n (from_be b) = b.
Proof.
  intros H. unfold be_bytes, from_be.
  rewrite split_le_combine'; [|by rewrite length_reverse]. apply reverse_involutive.
Qed.

(** ** Lemmas on bounded words *)

Lemma in_u_land w x : 0 ≤ w → in_u w x ↔ Z.land x (Z.ones w) = x.
Proof.
  intros Hw. rewrite Z.land_ones by done. unfold in_u. split.
  - intros H. by apply Z.mod_small.
  - intros <-. apply Z.mod_pos_bound. lia.
Qed.

Lemma in_u_wrap w x : 0 ≤ w → in_u w (wrap w x).
Proof. intros. unfold in_u, wrap. apply Z.mod_pos_bound. lia. Qed.

Lemma wrap_small w x : in_u w x → wrap w x = x.
Proof. apply Z.mod_small. Qed.

Lemma in_u_lxor w a b : 0 ≤ w → in_u w a → in_u w b → in_u w (Z.lxor a b).
Proof.
  intros Hw. rewrite !in_u_land by done. intros Ha Hb.
  rewrite <- Ha, <- Hb at 2. apply Z.bits_inj'. intros n Hn.
  rewrite !Z.land_spec, !Z.lxor_spec, !Z.land_spec.
  by destruct (Z.testbit a n), (Z.testbit b n), (Z.testbit (Z.ones w) n).
Qed.

Lemma in_u_lor w a b : 0 ≤ w → in_u w a → in_u w b → in_u w (Z.lor a b).
Proof.
  intros Hw. rewrite !in_u_land by done. intros Ha Hb.
  by rewrite Z.land_lor_distr_l, Ha, Hb.
Qed.

Lemma in_u_land_l w a b : 0 ≤ w → in_u w a → in_u w (Z.land a b).
Proof.
  intros Hw. rewrite !in_u_land by done. intros Ha.
  by rewrite <- Z.land_assoc, (Z.land_comm b), Z.land_assoc, Ha.
Qed.

Lemma in_u_shiftr w c n : 0 ≤ n → in_u w c → in_u w (Z.shiftr c n).
Proof.
  unfold in_u. intros Hn Hc. rewrite Z.shiftr_div_pow2 by done. split.
  - apply Z.div_pos; lia.
  - apply Z.le_lt_trans with c; [|lia]. apply Z.div_le_upper_bound; nia.
Qed.

Lemma byte_in_u w b : 8 ≤ w → in_u w (byte.unsigned b).
Proof.
  intros Hw. pose proof (byte.unsigned_range b). unfold in_u.
  assert (2 ^ 8 ≤ 2 ^ w) by (apply Z.pow_le_mono_r; lia). lia.
Qed.

Lemma lxor_cancel_l a b c : Z.lxor a b = Z.lxor a c → b = c.
Proof.
  intros H. apply (f_equal (Z.lxor a)) in H.
  by rewrite <- !Z.lxor_assoc, Z.lxor_nilpotent, !Z.lxor_0_l in H.
Qed.

Lemma lxor_cancel_r a b c : Z.lxor b a = Z.lxor c a → b = c.
Proof. rewrite !(Z.lxor_comm _ a). apply lxor_cancel_l. Qed.

(** ** Reading fields out of a concatenation

    [slice_simpl] walks a [slice] over an append-structured buffer to the
    piece it denotes. *)

Lemma slice_app_skip {A} (a b : nat) (pre l : list A) :
  (length pre ≤ a)%nat → slice a b (pre ++ l) = slice (a - length pre) (b - length pre) l.
Proof.
  intros H. unfold slice. rewrite drop_app_ge by done. f_equal. lia.
Qed.

Lemma slice_app_head {A} (a b : nat) (l r : list A) :
  a = 0%nat → b = length l → slice a b (l ++ r) = l.
Proof. intros -> ->. unfold slice. by rewrite drop_0, take_app_length' by lia. Qed.

Lemma slice_all {A} (a b : nat) (l : list A) : a = 0%nat → b = length l → slice a b l = l.
Proof. intros -> ->. unfold slice. rewrite drop_0, take_ge; [done|lia]. Qed.

Lemma drop_app_skip {A} (a : nat) (pre l : list A) :
  (length pre ≤ a)%nat → drop a (pre ++ l) = drop (a - length pre) l.
Proof. intros. by rewrite drop_app_ge. Qed.

Ltac slice_simpl :=
  repeat first
    [ rewrite slice_app_head by len_solve
    | rewrite slice_all by len_solve
    | rewrite slice_app_skip by len_solve ].

Lemma cons_app_one {A} (x : A) (l : list A) : x :: l = [x] ++ l.
Proof. done. Qed.

Lemma slice_take {A} (a b n : nat) (l : list A) :
  (b ≤ n)%nat → slice a b (take n l) = slice a b l.
Proof.
  intros H. unfold slice. rewrite skipn_firstn_comm, take_take. f_equal. lia.
Qed.

Lemma slice_take_app {A} (a b c : nat) (l rest : list A) :
  (b ≤ c)%nat → (c ≤ length l)%nat → slice a b (take c l ++ rest) = slice a b l.
Proof.
  intros Hb Hc. rewrite <- (slice_take a b c (_ ++ _)) by done.
  by rewrite take_app_length', slice_take by len_solve.
Qed.

(** Equal blocks, concatenated. *)
Lemma length_concat_const {A} (l : list (list A)) n :
  Forall (λ x, length x = n) l → length (concat l) = (n * length l)%nat.
Proof. induction 1 as [|x l Hx Hl IH]; cbn [concat length]; [lia|]. rewrite length_app. lia. Qed.

(** ** Chunking *)

Section chunking.
Context {A : Type} (n : nat) (Hn : (0 < n)%nat).

Lemma chunks_fuel_more fuel fuel' (l : list A) :
  (length l ≤ fuel)%nat → (length l ≤ fuel')%nat → chunks_fuel fuel n l = chunks_fuel fuel' n l.
Proof using Hn.
  revert fuel' l. induction fuel as [|fuel IH]; intros fuel' l H H'.
  - destruct l; [by destruct fuel'|cbn in H; lia].
  - destruct l as [|x l]; [by destruct fuel'|]. destruct fuel' as [|fuel']; [cbn in H'; lia|].
    cbn [chunks_fuel]. f_equal. cbn [length] in *. apply IH; rewrite length_drop; cbn [length]; lia.
Qed.

Lemma chunks_step (l : list A) : l ≠ [] → chunks n l = take n l :: chunks n (drop n l).
Proof using Hn.
  intros Hl. unfold chunks. destruct l as [|x l]; [done|]. cbn [length chunks_fuel]. f_equal.
  apply chunks_fuel_more; rewrite ?length_drop; cbn [length]; lia.
Qed.

(** Induction on a list, one chunk at a time. *)
Lemma chunk_ind (P : list A → Prop) :
  P [] → (∀ l, l ≠ [] → P (drop n l) → P l) → ∀ l, P l.
Proof using Hn.
  intros H0 Hs l. remember (length l) as k eqn:Hk. revert l Hk.
  induction k as [k IH] using lt_wf_ind. intros l ->. destruct l as [|x l]; [done|].
  apply Hs; [done|]. eapply IH; [|reflexivity]. rewrite length_drop. cbn [length]. lia.
Qed.

End chunking.

(** Bits put above a number are added to it. *)
Lemma lor_shiftl a b n : 0 ≤ n → 0 ≤ a < 2 ^ n → Z.lor a (Z.shiftl b n) = a + b * 2 ^ n.
Proof.
  intros Hn Ha. rewrite <- Z.shiftl_mul_pow2 by done.
  assert (Hd : Z.land a (Z.shiftl b n) = 0).
  { apply Z.bits_inj'. intros i Hi. rewrite Z.land_spec, Z.bits_0, Z.shiftl_spec by done.
    destruct (Z.ltb_spec i n); [rewrite (Z.testbit_neg_r b) by lia; apply andb_false_r|].
    rewrite <- (Z.mod_small a (2 ^ n)) by done. by rewrite Z.mod_pow2_bits_high by lia. }
  pose proof (Z.add_lor_land a (Z.shiftl b n)) as H. rewrite Hd in H. lia.
Qed.
