(* ===== verification/BTree.v ===== *)
(** * Ordered byte-keyed maps

    [BTreeMap<Vec<u8>, V>] of the storage layer and of the transaction
    overlay: a [gmap] for its contents (extensional, so equal contents are
    equal maps) and [btree_iter] for its iteration, which the code relies on
    being in ascending lexicographic key order. *)

From S2P Require Import Prelude.

(** ** The order of [Vec<u8>]: lexicographic *)

Fixpoint bytes_cmp (a b : bytes) : comparison :=
  match a, b with
  | [], [] => Eq
  | [], _ :: _ => Lt
  | _ :: _, [] => Gt
  | x :: a', y :: b' =>
      match byte.unsigned x ?= byte.unsigned y with
      | Eq => bytes_cmp a' b'
      | c => c
      end
  end.

Definition bytes_le (a b : bytes) : Prop := bytes_cmp a b ≠ Gt.
Definition bytes_ltb (a b : bytes) : bool :=
  match bytes_cmp a b with Lt => true | _ => false end.

#[export] Instance bytes_le_dec a b : Decision (bytes_le a b).
Proof. unfold bytes_le. apply _. Defined.

(** ** [BTreeMap<Vec<u8>, V>]: a finite map whose iteration is key order *)

Definition key_le {V} (x y : bytes * V) : Prop := bytes_le x.1 y.1.
#[export] Instance key_le_dec {V} (x y : bytes * V) : Decision (key_le x y).
Proof. unfold key_le. apply _. Defined.

Definition btree_iter {V} (m : gmap bytes V) : list (bytes * V) :=
  merge_sort key_le (map_to_list m).

(** [self.map.range(prefix.to_vec()..).take_while(|(k, _)| k.starts_with(prefix))]. *)
Definition scan_range {V} (prefix : bytes) (l : list (bytes * V)) : list (bytes * V) :=
  take_while (λ kv, starts_with prefix kv.1)
    (drop_while (λ kv, bytes_ltb kv.1 prefix) l).

(** ** The order is total *)

Lemma bytes_cmp_refl a : bytes_cmp a a = Eq.
Proof. induction a as [|x a IH]; cbn; [done|]. by rewrite Z.compare_refl. Qed.

Lemma bytes_cmp_eq a b : bytes_cmp a b = Eq → a = b.
Proof.
  revert b. induction a as [|x a IH]; intros [|y b]; cbn; try done.
  destruct (byte.unsigned x ?= byte.unsigned y) eqn:E; try done.
  intros H. apply Z.compare_eq, byte.unsigned_inj in E as ->. by rewrite (IH b).
Qed.

Lemma bytes_cmp_antisym a b : bytes_cmp b a = CompOpp (bytes_cmp a b).
Proof.
  revert b. induction a as [|x a IH]; intros [|y b]; cbn; try done.
  rewrite (Z.compare_antisym (byte.unsigned x)).
  by destruct (byte.unsigned x ?= byte.unsigned y); cbn.
Qed.

Lemma bytes_cmp_lt_trans a b c :
  bytes_cmp a b = Lt → bytes_cmp b c = Lt → bytes_cmp a c = Lt.
Proof.
  revert b c. induction a as [|x a IH]; intros [|y b] [|z c]; cbn; try done.
  destruct (Z.compare_spec (byte.unsigned x) (byte.unsigned y)) as [E|E|E]; try done;
  destruct (Z.compare_spec (byte.unsigned y) (byte.unsigned z)) as [F|F|F]; try done; intros H1 H2.
  - rewrite E, F, Z.compare_refl. eauto.
  - rewrite E. by apply Z.compare_lt_iff in F as ->.
  - rewrite <- F. by apply Z.compare_lt_iff in E as ->.
  - assert (byte.unsigned x < byte.unsigned z) as G by lia. by apply Z.compare_lt_iff in G as ->.
Qed.

#[export] Instance bytes_le_preorder : PreOrder bytes_le.
Proof.
  split.
  - intros a. unfold bytes_le. by rewrite bytes_cmp_refl.
  - intros a b c. unfold bytes_le. intros Hab Hbc Hac.
    destruct (bytes_cmp a b) eqn:E; [apply bytes_cmp_eq in E as ->; done| |done].
    destruct (bytes_cmp b c) eqn:F; [apply bytes_cmp_eq in F as ->; congruence| |done].
    by rewrite (bytes_cmp_lt_trans a b c) in Hac.
Qed.

#[export] Instance bytes_le_antisymm : AntiSymm (=) bytes_le.
Proof.
  intros a b. unfold bytes_le. rewrite (bytes_cmp_antisym a b).
  destruct (bytes_cmp a b) eqn:E; cbn; try done. intros _ _. by apply bytes_cmp_eq.
Qed.

#[export] Instance bytes_le_total : Total bytes_le.
Proof.
  intros a b. unfold bytes_le. rewrite (bytes_cmp_antisym a b).
  destruct (bytes_cmp a b); cbn; auto.
Qed.

#[export] Instance key_le_total {V} : Total (@key_le V).
Proof. intros x y. apply (total bytes_le). Qed.

#[export] Instance key_le_trans {V} : Transitive (@key_le V).
Proof. intros x y z. unfold key_le. by etrans. Qed.

Lemma bytes_ltb_le a b : bytes_ltb a b = false ↔ bytes_le b a.
Proof.
  unfold bytes_ltb, bytes_le. rewrite (bytes_cmp_antisym a b).
  by destruct (bytes_cmp a b); cbn.
Qed.

(** ** Prefixes are contiguous in key order *)

Lemma starts_with_app p k : starts_with p k = true ↔ ∃ r, k = p ++ r.
Proof.
  revert k. induction p as [|x p IH]; intros k; cbn.
  - split; [by exists k|done].
  - destruct k as [|y k]; [by split; [|intros []]|].
    case_decide as Hxy; subst.
    + rewrite IH. split; intros [r Hr]; exists r; by simplify_eq/=.
    + split; [done|]. intros [r Hr]. by simplify_eq/=.
Qed.

Lemma starts_with_le p k : starts_with p k = true → bytes_le p k.
Proof.
  intros [r ->]%starts_with_app. unfold bytes_le.
  induction p as [|x p IH]; cbn; [by destruct r|]. by rewrite Z.compare_refl.
Qed.

Lemma prefix_contiguous p k k' :
  bytes_le p k → bytes_le k k' → starts_with p k' = true → starts_with p k = true.
Proof.
  unfold bytes_le. revert k k'. induction p as [|x p IH]; intros k k'; cbn; [done|].
  destruct k' as [|z k']; [done|]. case_decide; [subst|done].
  destruct k as [|y k]; cbn; [done|].
  destruct (Z.compare_spec (byte.unsigned z) (byte.unsigned y)) as [E|E|E]; try done;
  destruct (Z.compare_spec (byte.unsigned y) (byte.unsigned z)) as [F|F|F]; try done; try lia.
  intros H1 H2 H3. rewrite decide_True; [|by apply byte.unsigned_inj]. by eapply IH.
Qed.

(** ** Iteration *)

Section iteration.
Context {V : Type}.
Implicit Types (m : gmap bytes V) (l : list (bytes * V)).

Lemma btree_iter_perm m : btree_iter m ≡ₚ map_to_list m.
Proof. apply merge_sort_Permutation. Qed.

Lemma elem_of_btree_iter m k v : (k, v) ∈ btree_iter m ↔ m !! k = Some v.
Proof. rewrite btree_iter_perm. apply elem_of_map_to_list. Qed.

Lemma btree_iter_sorted m : StronglySorted key_le (btree_iter m).
Proof. apply (StronglySorted_merge_sort key_le). Qed.

Lemma btree_iter_nodup m : NoDup (btree_iter m).*1.
Proof. rewrite btree_iter_perm. apply NoDup_fst_map_to_list. Qed.

Lemma list_to_map_btree_iter m : list_to_map (btree_iter m) = m.
Proof.
  rewrite <- (list_to_map_to_list m) at 2. apply list_to_map_proper.
  - apply btree_iter_nodup.
  - apply btree_iter_perm.
Qed.

Lemma length_btree_iter m : length (btree_iter m) = size m.
Proof. rewrite btree_iter_perm. by rewrite length_map_to_list. Qed.

Lemma take_while_filter {A} (R : relation A) (f : A → bool) (l : list A) :
  StronglySorted R l →
  (∀ x y, x ∈ l → R x y → f y = true → f x = true) →
  take_while f l = filter (λ x, f x = true) l.
Proof.
  induction 1 as [|x l Hs IH Hall]; intros Hf; [done|]. cbn [take_while].
  destruct (f x) eqn:Hx.
  - rewrite filter_cons_True by done. f_equal. apply IH.
    intros y z Hy. apply (Hf y z). by apply list_elem_of_further.
  - rewrite filter_cons_False by congruence. symmetry. apply filter_all_false.
    intros y Hy Hfy. rewrite list.Forall_forall in Hall.
    rewrite (Hf x y) in Hx; [done|by apply list_elem_of_here|by apply Hall|done].
Qed.

Lemma scan_range_filter p l :
  StronglySorted key_le l →
  scan_range p l = filter (λ kv, starts_with p kv.1 = true) l.
Proof.
  unfold scan_range. intros Hs. pose proof Hs as Hs'.
  induction Hs as [|x l Hs IH Hall]; [done|]; cbn [drop_while].
  destruct (bytes_ltb x.1 p) eqn:Hlt.
  - rewrite IH, filter_cons_False; [done| |done].
    intros Hp%starts_with_le%bytes_ltb_le. congruence.
  - apply bytes_ltb_le in Hlt. apply (take_while_filter key_le); [done|].
    intros y z Hy Hyz Hz. apply (prefix_contiguous p y.1 z.1); [|done|done].
    apply elem_of_cons in Hy as [->|Hy]; [done|].
    rewrite list.Forall_forall in Hall. trans x.1; [done|by apply Hall].
Qed.

(** Two sorted listings of the same map coincide. *)
Lemma sorted_keys_unique l l' :
  StronglySorted key_le l → StronglySorted key_le l' →
  NoDup l.*1 → l ≡ₚ l' → l = l'.
Proof.
  intros Hs Hs' Hnd Hp. revert l' Hs' Hp.
  induction Hs as [|x l Hs IH Hall]; intros l' Hs' Hp.
  { by apply Permutation_nil_l in Hp as ->. }
  destruct l' as [|y l']; [by apply Permutation_nil_r in Hp|].
  apply StronglySorted_inv in Hs' as [Hs' Hall'].
  assert (x = y) as ->.
  { assert (x ∈ y :: l') as Hx by (rewrite <- Hp; set_solver).
    assert (y ∈ x :: l) as Hy by (rewrite Hp; set_solver).
    rewrite list.Forall_forall in Hall, Hall'.
    apply elem_of_cons in Hx as [?|Hx]; [done|]. apply elem_of_cons in Hy as [?|Hy]; [done|].
    assert (x.1 = y.1) as Hk.
    { apply (anti_symm bytes_le); [by apply Hall|by apply Hall']. }
    cbn in Hnd. apply list.NoDup_cons in Hnd as [Hnot _]. exfalso. apply Hnot.
    rewrite Hk. by apply list_elem_of_fmap_2. }
  f_equal. cbn in Hnd. apply list.NoDup_cons in Hnd as [_ Hnd].
  apply IH; [done|done|]. by apply (inj (cons y)) in Hp.
Qed.

Lemma btree_iter_unique m l :
  StronglySorted key_le l → NoDup l.*1 → list_to_map l = m → btree_iter m = l.
Proof.
  intros Hs Hnd <-. apply sorted_keys_unique; [apply btree_iter_sorted|done|apply btree_iter_nodup|].
  rewrite btree_iter_perm. by apply map_to_list_to_map.
Qed.
End iteration.

(** A list whose keys increase with the position, as a map's listing. *)
Lemma strongly_sorted_lookup {A} (R : relation A) (l : list A) :
  (∀ i j x y, l !! i = Some x → l !! j = Some y → (i < j)%nat → R x y) → StronglySorted R l.
Proof.
  induction l as [|x l IH]; intros H; constructor.
  - apply IH. intros i j y z Hi Hj Hij. apply (H (S i) (S j) y z Hi Hj). lia.
  - apply list.Forall_forall. intros y [j Hj]%list_elem_of_lookup.
    apply (H 0%nat (S j) x y eq_refl Hj). lia.
Qed.

Lemma increasing_listing {V} (m : gmap bytes V) (l : list (bytes * V)) :
  (∀ i j x y, l !! i = Some x → l !! j = Some y → (i < j)%nat → bytes_cmp x.1 y.1 = Lt) →
  (∀ k v, (k, v) ∈ l ↔ m !! k = Some v) → btree_iter m = l.
Proof.
  intros Hlt Hm.
  assert (NoDup l.*1) as Hnd.
  { apply NoDup_alt. intros i j k. rewrite !list_lookup_fmap. intros Hi Hj.
    destruct (l !! i) as [x|] eqn:Ei; [|done]. destruct (l !! j) as [y|] eqn:Ej; [|done].
    injection Hi as <-. injection Hj as Hk. destruct (Nat.lt_trichotomy i j) as [H|[H|H]]; [|done|].
    - pose proof (Hlt _ _ _ _ Ei Ej H) as Hc. by rewrite Hk, bytes_cmp_refl in Hc.
    - pose proof (Hlt _ _ _ _ Ej Ei H) as Hc. by rewrite Hk, bytes_cmp_refl in Hc. }
  apply btree_iter_unique; [|done|].
  - apply strongly_sorted_lookup. intros i j x y Hi Hj Hij. unfold key_le, bytes_le.
    by rewrite (Hlt i j x y).
  - apply map_eq. intros k. apply option_eq. intros v.
    by rewrite <- elem_of_list_to_map, Hm by done.
Qed.

(** ** The contract of a prefix scan: the listing of the submap *)

Lemma nodup_keys_filter {K V} (P : K * V → Prop) `{∀ x, Decision (P x)} (l : list (K * V)) :
  NoDup l.*1 → NoDup (filter P l).*1.
Proof.
  induction l as [|[k v] l IH]; intros Hl; [done|].
  apply list.NoDup_cons in Hl as [Hk Hl]. rewrite filter_cons. case_decide; [|by apply IH].
  apply list.NoDup_cons. split; [|by apply IH]. intros ([k' v'] & Heq & Hin)%list_elem_of_fmap.
  apply list_elem_of_filter in Hin as [_ Hin]. apply Hk. rewrite Heq.
  by apply list_elem_of_fmap_2.
Qed.

Lemma scan_btree {V} (m : gmap bytes V) (p : bytes) :
  scan_range p (btree_iter m) = btree_iter (filter (λ kv, starts_with p kv.1 = true) m).
Proof.
  rewrite scan_range_filter by apply btree_iter_sorted. symmetry.
  apply btree_iter_unique.
  - pose proof (btree_iter_sorted m) as Hs. induction Hs as [|x l Hs IH Hall]; [constructor|].
    rewrite filter_cons. case_decide; [|done]. constructor; [done|].
    rewrite list.Forall_forall in *. intros y Hy. apply Hall.
    by apply list_elem_of_filter in Hy as [_ ?].
  - apply nodup_keys_filter, btree_iter_nodup.
  - apply map_eq. intros k. apply option_eq. intros v.
    rewrite map_lookup_filter_Some. rewrite <- elem_of_list_to_map.
    + rewrite list_elem_of_filter, elem_of_btree_iter. cbn. tauto.
    + apply nodup_keys_filter, btree_iter_nodup.
Qed.
