(* ===== verification/Crc32.v ===== *)
(** * CRC-32 of the write-ahead log

    [crc_table] and [crc32] of crates/ciphra-storage/src/lib.rs: the
    table-driven form is what the code runs; [crc32_bitwise] is the
    shift-register definition of IEEE 802.3 it has to agree with. *)

From S2P Require Import Prelude.

(** One iteration of the inner loop of [crc_table]. *)
Definition crc_step (c : Z) : Z :=
  if Z.eqb (Z.land c 1) 0 then Z.shiftr c 1
  else Z.lxor 0xEDB88320 (Z.shiftr c 1).

Definition crc_entry (i : Z) : Z := Nat.iter 8 crc_step i.

Definition crc_table : list Z := map (λ i, crc_entry (Z.of_nat i)) (seq 0 256).

Definition crc_update (c : Z) (b : byte) : Z :=
  Z.lxor (nth (Z.to_nat (Z.land (Z.lxor c (byte.unsigned b)) 0xFF)) crc_table 0)
         (Z.shiftr c 8).

Definition crc32 (data : bytes) : Z :=
  Z.lxor (fold_left crc_update data 0xFFFFFFFF) 0xFFFFFFFF.

(** Reference: the register shifted bit by bit, no table. *)
Definition crc_update_bitwise (c : Z) (b : byte) : Z :=
  Nat.iter 8 crc_step (Z.lxor c (byte.unsigned b)).

Definition crc32_bitwise (data : bytes) : Z :=
  Z.lxor (fold_left crc_update_bitwise data 0xFFFFFFFF) 0xFFFFFFFF.

Example crc32_check_value : crc32 (bs "123456789") = 0xCBF43926.
Proof. vm_compute. reflexivity. Qed.

(** ** The register step is linear over xor *)

Lemma land_1_testbit c : Z.eqb (Z.land c 1) 0 = negb (Z.testbit c 0).
Proof.
  rewrite Z.bit0_odd. change 1 with (Z.ones 1). rewrite Z.land_ones by lia.
  change (2 ^ 1) with 2. rewrite Zmod_odd. by destruct (Z.odd c).
Qed.

Lemma crc_step_xor a b : crc_step (Z.lxor a b) = Z.lxor (crc_step a) (crc_step b).
Proof.
  unfold crc_step. rewrite !land_1_testbit, Z.lxor_spec, Z.shiftr_lxor.
  set (p := 0xEDB88320).
  destruct (Z.testbit a 0), (Z.testbit b 0); cbn [xorb negb];
    apply Z.bits_inj'; intros n Hn; rewrite ?Z.lxor_spec;
    repeat match goal with |- context [Z.testbit ?x n] => destruct (Z.testbit x n) end; done.
Qed.

Lemma crc_iter_xor n a b :
  Nat.iter n crc_step (Z.lxor a b) = Z.lxor (Nat.iter n crc_step a) (Nat.iter n crc_step b).
Proof. induction n as [|n IH]; [done|]. by rewrite !Nat.iter_succ, IH, crc_step_xor. Qed.

Lemma crc_step_shift c : crc_step (Z.shiftl c 1) = c.
Proof.
  unfold crc_step. rewrite land_1_testbit, Z.shiftl_spec_low by lia. cbn [negb].
  rewrite Z.shiftr_shiftl_l by lia. apply Z.shiftl_0_r.
Qed.

Lemma crc_iter_shift n c : Nat.iter n crc_step (Z.shiftl c (Z.of_nat n)) = c.
Proof.
  revert c. induction n as [|n IH]; intros c; [apply Z.shiftl_0_r|].
  rewrite Nat.iter_succ_r, Nat2Z.inj_succ, <- Z.add_1_r, <- Z.shiftl_shiftl by lia.
  by rewrite crc_step_shift.
Qed.

Lemma split_low8 c : c = Z.lxor (Z.land c 0xFF) (Z.shiftl (Z.shiftr c 8) 8).
Proof.
  apply Z.bits_inj'. intros n Hn. change 0xFF with (Z.ones 8).
  rewrite Z.lxor_spec, Z.land_spec, Z.testbit_ones_nonneg by lia.
  destruct (Z.ltb_spec n 8).
  - rewrite Z.shiftl_spec_low, andb_true_r, xorb_false_r by lia. done.
  - rewrite Z.shiftl_spec_high, Z.shiftr_spec by lia.
    rewrite andb_false_r, xorb_false_l. f_equal. lia.
Qed.

Lemma crc_table_nth i : 0 ≤ i < 256 → nth (Z.to_nat i) crc_table 0 = crc_entry i.
Proof.
  intros Hi. unfold crc_table.
  rewrite (nth_indep _ 0 (crc_entry (Z.of_nat 0))) by (rewrite length_map, length_seq; lia).
  rewrite (map_nth (λ i, crc_entry (Z.of_nat i))), seq_nth by lia. f_equal. lia.
Qed.

Lemma land_255_range c : 0 ≤ Z.land c 0xFF < 256.
Proof.
  change 0xFF with (Z.ones 8). rewrite Z.land_ones by lia. apply Z.mod_pos_bound. lia.
Qed.

Lemma crc_update_bitwise_eq c b : crc_update c b = crc_update_bitwise c b.
Proof.
  unfold crc_update, crc_update_bitwise.
  rewrite crc_table_nth by apply land_255_range.
  set (x := Z.lxor c (byte.unsigned b)). rewrite (split_low8 x) at 2.
  rewrite crc_iter_xor, (crc_iter_shift 8). unfold crc_entry. f_equal.
  unfold x. rewrite Z.shiftr_lxor. rewrite (Z.shiftr_div_pow2 (byte.unsigned b)) by lia.
  pose proof (byte.unsigned_range b). rewrite Z.div_small by lia. by rewrite Z.lxor_0_r.
Qed.

Lemma crc_fold_bitwise data c :
  fold_left crc_update data c = fold_left crc_update_bitwise data c.
Proof.
  revert c. induction data as [|b data IH]; intros c; cbn; [done|].
  by rewrite IH, crc_update_bitwise_eq.
Qed.

(** ** The register step is injective on 32-bit words *)

Lemma crc_step_range c : in_u 32 c → in_u 32 (crc_step c).
Proof.
  intros Hc. unfold crc_step. assert (in_u 32 (Z.shiftr c 1)) by (apply in_u_shiftr; [lia|done]).
  destruct (_ =? _); [done|]. apply in_u_lxor; [lia|unfold in_u; lia|done].
Qed.

Lemma shiftr1_bit31 c : in_u 32 c → Z.testbit (Z.shiftr c 1) 31 = false.
Proof.
  unfold in_u. intros Hc. rewrite Z.shiftr_spec by lia. change (31 + 1) with 32.
  apply Z.bits_above_log2; [lia|]. destruct (Z.eq_dec c 0) as [->|]; [cbn; lia|].
  apply Z.log2_lt_pow2; lia.
Qed.

Lemma crc_step_inj a b : in_u 32 a → in_u 32 b → crc_step a = crc_step b → a = b.
Proof.
  intros Ha Hb H.
  assert (Z.testbit (crc_step a) 31 = Z.testbit a 0 ∧ Z.testbit (crc_step b) 31 = Z.testbit b 0)
    as [Ea Eb].
  { unfold crc_step. rewrite !land_1_testbit.
    destruct (Z.testbit a 0), (Z.testbit b 0); cbn [negb];
      rewrite ?Z.lxor_spec, ?shiftr1_bit31 by done; done. }
  assert (Z.testbit a 0 = Z.testbit b 0) as H0 by congruence.
  assert (Z.shiftr a 1 = Z.shiftr b 1) as H1.
  { revert H. unfold crc_step. rewrite !land_1_testbit, H0.
    destruct (Z.testbit b 0); cbn [negb]; [|done]. intros H.
    apply (f_equal (Z.lxor 0xEDB88320)) in H. by rewrite <- !Z.lxor_assoc, !Z.lxor_nilpotent in H. }
  apply Z.bits_inj'. intros n Hn. destruct (Z.eq_dec n 0) as [->|]; [done|].
  apply (f_equal (λ z, Z.testbit z (n - 1))) in H1. cbv beta in H1.
  rewrite !Z.shiftr_spec in H1 by lia. by rewrite Z.sub_add in H1.
Qed.

Lemma crc_iter_inj n a b : in_u 32 a → in_u 32 b →
  Nat.iter n crc_step a = Nat.iter n crc_step b → a = b.
Proof.
  revert a b. induction n as [|n IH]; intros a b Ha Hb H; [done|].
  rewrite !Nat.iter_succ_r in H.
  apply IH in H; [|by apply crc_step_range..]. by apply crc_step_inj.
Qed.

Lemma crc_update_bitwise_range c b : in_u 32 c → in_u 32 (crc_update_bitwise c b).
Proof.
  intros Hc. unfold crc_update_bitwise.
  assert (in_u 32 (Z.lxor c (byte.unsigned b))) as H by (apply in_u_lxor; [lia|done|apply byte_in_u; lia]).
  revert H. generalize (Z.lxor c (byte.unsigned b)). clear Hc.
  generalize 8%nat. induction n as [|n IH]; intros z Hz; [done|].
  rewrite Nat.iter_succ_r. by apply IH, crc_step_range.
Qed.

Lemma crc_update_bitwise_inj c c' b b' : in_u 32 c → in_u 32 c' →
  crc_update_bitwise c b = crc_update_bitwise c' b' →
  Z.lxor c (byte.unsigned b) = Z.lxor c' (byte.unsigned b').
Proof.
  intros Hc Hc' H. apply crc_iter_inj in H; [done|..];
    apply in_u_lxor; (lia || done || apply byte_in_u; lia).
Qed.

Lemma crc_fold_inj data c c' : in_u 32 c → in_u 32 c' →
  fold_left crc_update_bitwise data c = fold_left crc_update_bitwise data c' → c = c'.
Proof.
  revert c c'. induction data as [|b data IH]; intros c c' Hc Hc' H; cbn in *; [done|].
  apply IH in H; [|by apply crc_update_bitwise_range..].
  by apply crc_update_bitwise_inj, lxor_cancel_r in H.
Qed.

Lemma crc_fold_range data c : in_u 32 c → in_u 32 (fold_left crc_update_bitwise data c).
Proof.
  revert c. induction data as [|b data IH]; intros c Hc; cbn; [done|].
  by apply IH, crc_update_bitwise_range.
Qed.

Lemma crc32_range data : in_u 32 (crc32 data).
Proof.
  unfold crc32. rewrite crc_fold_bitwise. apply in_u_lxor; [lia| |unfold in_u; lia].
  apply crc_fold_range. unfold in_u; lia.
Qed.

(** Substituting one byte always changes the checksum. *)
Lemma crc32_substitution pre post (b b' : byte) :
  b ≠ b' → crc32 (pre ++ b :: post) ≠ crc32 (pre ++ b' :: post).
Proof.
  intros Hb H. unfold crc32 in H. rewrite !crc_fold_bitwise in H.
  apply lxor_cancel_r in H. rewrite !fold_left_app in H. cbn [fold_left] in H.
  set (c := fold_left crc_update_bitwise pre 0xFFFFFFFF) in *.
  assert (in_u 32 c) by (apply crc_fold_range; unfold in_u; lia).
  apply crc_fold_inj in H; [|by apply crc_update_bitwise_range..].
  apply crc_update_bitwise_inj, lxor_cancel_l, byte.unsigned_inj in H; done.
Qed.

(** The table-driven CRC-32 equals the bit-serial shift register of IEEE 802.3. *)
Theorem crc32_matches_bitwise data : crc32 data = crc32_bitwise data.
Proof. unfold crc32, crc32_bitwise. by rewrite crc_fold_bitwise. Qed.
