(* ===== verification/Storage.v ===== *)
(** * The storage engine: write-ahead log and in-memory table

    crates/ciphra-storage/src/lib.rs.  [Storage] is the ordered map plus the
    bytes of [ciphra.wal]; each operation takes the outcome of its file write
    as an argument ([IoOutcome]), so that failed and torn writes are part of
    the model.  A crash is an append cut after any number of bytes. *)

From S2P Require Import Prelude BTree Crc32.

(** ** Record format *)

Definition OP_PUT : byte := Byte.x01.
Definition OP_DELETE : byte := Byte.x02.
Definition OP_BATCH : byte := Byte.x03.

(** [(u8, Vec<u8>, Vec<u8>)] *)
Abbreviation entry := (byte * bytes * bytes)%type.

Inductive StorageError : Type :=
| StorageIo
| StorageCorrupt (message : bytes).

(** [enum Record] *)
Inductive WalRecord : Type :=
| Single (op : byte) (key value : bytes)
| BatchRec (entries : list entry).

Definition encode_entry (e : entry) : bytes :=
  let '(op, key, value) := e in
  [op] ++ le_bytes 4 (Z.of_nat (length key)) ++ key
       ++ le_bytes 4 (Z.of_nat (length value)) ++ value.

(** The common tail of both encoders: checksum, length, payload. *)
Definition frame (payload : bytes) : bytes :=
  le_bytes 4 (crc32 payload) ++ le_bytes 4 (Z.of_nat (length payload)) ++ payload.

Definition encode_record (op : byte) (key value : bytes) : bytes :=
  frame (encode_entry (op, key, value)).

Definition encode_batch_record (entries : list entry) : bytes :=
  frame ([OP_BATCH] ++ le_bytes 4 (Z.of_nat (length entries))
         ++ concat (map encode_entry entries)).

Definition decode_entry (buf : bytes) : option (entry * nat) :=
  if (length buf <? 9)%nat then None
  else
    op ← head buf;
    let key_len := Z.to_nat (from_le (slice 1 5 buf)) in
    let vstart := (5 + key_len)%nat in
    if (length buf <? vstart + 4)%nat then None
    else
      let key := slice 5 vstart buf in
      let value_len := Z.to_nat (from_le (slice vstart (vstart + 4) buf)) in
      let fin := (vstart + 4 + value_len)%nat in
      if (length buf <? fin)%nat then None
      else
        let value := slice (vstart + 4) fin buf in
        Some ((op, key, value), fin).

(** [for _ in 0..count { ... decode_entry(&payload[pos..])? ... }] *)
Fixpoint decode_entries (count : nat) (payload : bytes) (pos : nat)
  : option (list entry * nat) :=
  match count with
  | O => Some ([], pos)
  | S count' =>
      '(e, advanced) ← decode_entry (drop pos payload);
      '(es, pos') ← decode_entries count' payload (pos + advanced);
      Some (e :: es, pos')
  end.

Definition decode_payload (payload : bytes) : option WalRecord :=
  if decide (head payload = Some OP_BATCH) then
    let count := Z.to_nat (from_le (slice 1 5 payload)) in
    '(entries, pos) ← decode_entries count payload 5;
    if (pos =? length payload)%nat then Some (BatchRec entries) else None
  else
    '((op, key, value), advanced) ← decode_entry payload;
    if (advanced =? length payload)%nat then Some (Single op key value) else None.

Definition decode_record (buf : bytes) : option (nat * WalRecord) :=
  if (length buf <? 8)%nat then None
  else
    let crc := from_le (slice 0 4 buf) in
    let payload_len := Z.to_nat (from_le (slice 4 8 buf)) in
    if ((length buf <? 8 + payload_len) || (payload_len <? 5))%nat then None
    else
      let payload := slice 8 (8 + payload_len) buf in
      if negb (crc32 payload =? crc) then None
      else
        let consumed := (8 + payload_len)%nat in
        r ← decode_payload payload; Some (consumed, r).

(** ** State and operations *)

Abbreviation table := (gmap bytes bytes).

Record Storage : Type := mkStorage { st_map : table; st_wal : bytes }.

(** Outcome of [write_all] followed by [sync_data] on the log. *)
Inductive IoOutcome : Type :=
| IoOk
| IoShortWrite (n : nat)   (** error after [n] bytes reached the file *)
| IoSyncFailed.            (** all bytes written, [sync_data] failed *)

Definition apply_op (m : table) (op : byte) (key value : bytes) : bool * table :=
  if decide (op = OP_PUT) then (true, <[key := value]> m)
  else if decide (op = OP_DELETE) then (true, delete key m)
  else (false, m).

Definition apply_entry (m : table) (e : entry) : table :=
  let '(op, key, value) := e in (apply_op m op key value).2.

Definition apply_entries (m : table) (es : list entry) : table :=
  fold_left apply_entry es m.

(** The replay loop of [open]; each record consumes at least 13 bytes, so
    [length buf] iterations suffice (lemma [replay_fuel]). *)
Fixpoint storage_replay (fuel : nat) (buf : bytes) (m : table) (pos : nat) : table * nat :=
  match fuel with
  | O => (m, pos)
  | S fuel' =>
      if (pos <? length buf)%nat then
        match decode_record (drop pos buf) with
        | Some (consumed, Single op key value) =>
            let '(known, m') := apply_op m op key value in
            if known then storage_replay fuel' buf m' (pos + consumed) else (m, pos)
        | Some (consumed, BatchRec entries) =>
            storage_replay fuel' buf (apply_entries m entries) (pos + consumed)
        | None => (m, pos)
        end
      else (m, pos)
  end.

(** [Storage::open] on a directory whose log holds [buf] (empty when the file
    is created): replay, then [set_len(pos)] when the tail is torn. *)
Definition storage_open (buf : bytes) : Storage :=
  let '(m, pos) := storage_replay (length buf) buf ∅ 0 in
  mkStorage m (if (pos <? length buf)%nat then take pos buf else buf).

(** [write_all] + [sync_data] appended to the log. *)
Definition append_wal (io : IoOutcome) (s : Storage) (rec : bytes)
  : result StorageError unit * Storage :=
  match io with
  | IoOk => (Ok tt, mkStorage (st_map s) (st_wal s ++ rec))
  | IoShortWrite n => (Err StorageIo, mkStorage (st_map s) (st_wal s ++ take n rec))
  | IoSyncFailed => (Err StorageIo, mkStorage (st_map s) (st_wal s ++ rec))
  end.

Definition storage_append (io : IoOutcome) (s : Storage) (op : byte) (key value : bytes) :=
  append_wal io s (encode_record op key value).

(** Continue with the in-memory update only when the append succeeded. *)
Definition then_apply (r : result StorageError unit * Storage) (f : table → table)
  : result StorageError unit * Storage :=
  match r with
  | (Ok _, s) => (Ok tt, mkStorage (f (st_map s)) (st_wal s))
  | (Err e, s) => (Err e, s)
  end.

Definition storage_put (io : IoOutcome) (s : Storage) (key value : bytes) :=
  then_apply (storage_append io s OP_PUT key value) (λ m, <[key := value]> m).

Definition storage_delete (io : IoOutcome) (s : Storage) (key : bytes) :=
  then_apply (storage_append io s OP_DELETE key []) (λ m, base.delete key m).

(** [struct Batch] and its methods. *)
Record Batch : Type := mkBatch { entries : list entry }.
Definition batch_new : Batch := mkBatch [].
Definition batch_put (b : Batch) (key value : bytes) : Batch :=
  mkBatch (entries b ++ [(OP_PUT, key, value)]).
Definition batch_delete (b : Batch) (key : bytes) : Batch :=
  mkBatch (entries b ++ [(OP_DELETE, key, [])]).
Definition batch_is_empty (b : Batch) : bool :=
  match entries b with [] => true | _ => false end.
Definition batch_len (b : Batch) : nat := length (entries b).
(** [Batch::entries]: [(is_delete, key, value)]. *)
Definition batch_entries (b : Batch) : list (bool * bytes * bytes) :=
  map (λ '(op, key, value), (bool_decide (op = OP_DELETE), key, value)) (entries b).

Definition storage_commit (io : IoOutcome) (s : Storage) (b : Batch)
  : result StorageError unit * Storage :=
  match entries b with
  | [] => (Ok tt, s)
  | [(op, key, value)] =>
      then_apply (storage_append io s op key value) (λ m, (apply_op m op key value).2)
  | es => then_apply (append_wal io s (encode_batch_record es)) (λ m, apply_entries m es)
  end.

Definition storage_get (s : Storage) (key : bytes) : option bytes := st_map s !! key.
Definition storage_scan_prefix (s : Storage) (prefix : bytes) : list (bytes * bytes) :=
  scan_range prefix (btree_iter (st_map s)).
Definition storage_len (s : Storage) : nat := size (st_map s).
Definition storage_is_empty (s : Storage) : bool := (size (st_map s) =? 0)%nat.
Definition storage_dump (s : Storage) : list (bytes * bytes) := btree_iter (st_map s).

(** [write_snapshot]: the bytes of the snapshot file. *)
Definition write_snapshot (pairs : list (bytes * bytes)) : bytes :=
  concat (map (λ '(k, v), encode_record OP_PUT k v) pairs).
Definition snapshot_to (s : Storage) : bytes := write_snapshot (btree_iter (st_map s)).

(** [compact]: the log is rebuilt in a scratch file and renamed over the live
    one; any failure before the rename leaves the log as it was. *)
Definition storage_compact (ok_until_rename : bool) (s : Storage)
  : result StorageError unit * Storage :=
  if ok_until_rename
  then (Ok tt, mkStorage (st_map s) (write_snapshot (btree_iter (st_map s))))
  else (Err StorageIo, s).
