(* ===== verification/StorageFacts.v ===== *)
(** * Facts about the write-ahead log

    Round trips of the record format, recovery after a crash, durability of
    the operations, and the ordered-map contract of the store. *)

From S2P Require Import Prelude BTree Crc32 Storage.

Definition fits_u32 (n : nat) : Prop := Z.of_nat n < 2 ^ 32.

Definition entry_fits (e : entry) : Prop := fits_u32 (length e.1.2) ∧ fits_u32 (length e.2).

(** ** Record format *)

Lemma from_le4_length n : fits_u32 n → Z.to_nat (from_le (le_bytes 4 (Z.of_nat n))) = n.
Proof.
  unfold fits_u32. intros H. rewrite from_le_small; [lia|].
  change (8 * Z.of_nat 4) with 32. lia.
Qed.

Lemma length_encode_entry e :
  length (encode_entry e) = (9 + length e.1.2 + length e.2)%nat.
Proof. destruct e as [[op k] v]. unfold encode_entry. len_simpl. lia. Qed.

Lemma length_frame payload : length (frame payload) = (8 + length payload)%nat.
Proof. unfold frame. len_simpl. lia. Qed.
#[export] Hint Rewrite length_encode_entry length_frame : len.

Lemma decode_encode_entry e rest :
  entry_fits e → decode_entry (encode_entry e ++ rest) = Some (e, length (encode_entry e)).
Proof.
  destruct e as [[op k] v]. intros [Hk Hv]; cbn [fst snd] in *.
  unfold decode_entry, encode_entry. rewrite <- !app_assoc.
  match goal with |- context [(length ?b <? 9)%nat] => set (buf := b) end.
  assert (Hlen : length buf = (9 + length k + length v + length rest)%nat)
    by (unfold buf; len_simpl; lia).
  rewrite (proj2 (Nat.ltb_ge _ _)) by lia.
  assert (slice 1 5 buf = le_bytes 4 (Z.of_nat (length k))) as -> by (unfold buf; by slice_simpl).
  rewrite from_le4_length by done. cbn [head mbind option_bind].
  replace (head buf) with (Some op) by done. cbn [mbind option_bind].
  rewrite (proj2 (Nat.ltb_ge _ _)) by lia.
  assert (slice (5 + length k) (5 + length k + 4) buf = le_bytes 4 (Z.of_nat (length v))) as ->
    by (unfold buf; by slice_simpl).
  rewrite from_le4_length by done.
  rewrite (proj2 (Nat.ltb_ge _ _)) by lia.
  assert (slice 5 (5 + length k) buf = k) as -> by (unfold buf; by slice_simpl).
  assert (slice (5 + length k + 4) (5 + length k + 4 + length v) buf = v) as ->
    by (unfold buf; by slice_simpl).
  do 2 f_equal. len_simpl. lia.
Qed.

Lemma decode_encode_entries es pre :
  Forall entry_fits es →
  decode_entries (length es) (pre ++ concat (map encode_entry es)) (length pre)
  = Some (es, (length pre + length (concat (map encode_entry es)))%nat).
Proof.
  intros Hes. revert pre. induction Hes as [|e es He Hes IH]; intros pre; cbn [length decode_entries].
  - cbn. by rewrite Nat.add_0_r.
  - rewrite drop_app_length. cbn [map concat].
    rewrite decode_encode_entry by done. cbn [mbind option_bind].
    specialize (IH (pre ++ encode_entry e)). rewrite <- app_assoc, length_app in IH.
    rewrite IH. cbn [mbind option_bind]. do 2 f_equal. len_simpl. lia.
Qed.

(** The framing layer: whatever decodes as a payload decodes from its frame,
    whatever follows in the file. *)
Lemma decode_frame payload rest r :
  fits_u32 (length payload) → (5 ≤ length payload)%nat → decode_payload payload = Some r →
  decode_record (frame payload ++ rest) = Some (length (frame payload), r).
Proof.
  intros Hp H5 Hr. unfold decode_record, frame. rewrite <- !app_assoc.
  match goal with |- context [(length ?b <? 8)%nat] => set (buf := b) end.
  assert (Hlen : length buf = (8 + length payload + length rest)%nat)
    by (unfold buf; len_simpl; lia).
  rewrite (proj2 (Nat.ltb_ge _ _)) by lia.
  assert (slice 4 8 buf = le_bytes 4 (Z.of_nat (length payload))) as -> by (unfold buf; by slice_simpl).
  rewrite from_le4_length by done.
  rewrite (proj2 (Nat.ltb_ge _ _)), (proj2 (Nat.ltb_ge _ _)) by lia. cbn [orb].
  assert (slice 0 4 buf = le_bytes 4 (crc32 payload)) as -> by (unfold buf; by slice_simpl).
  assert (slice 8 (8 + length payload) buf = payload) as -> by (unfold buf; by slice_simpl).
  rewrite from_le_small by apply crc32_range. rewrite Z.eqb_refl. cbn [negb].
  rewrite Hr. cbn [mbind option_bind]. by rewrite <- length_frame.
Qed.

Lemma decode_payload_single op k v :
  op ≠ OP_BATCH → entry_fits (op, k, v) →
  decode_payload (encode_entry (op, k, v)) = Some (Single op k v).
Proof.
  intros Hop Hfit. unfold decode_payload.
  rewrite decide_False by (cbn; congruence).
  pose proof (decode_encode_entry (op, k, v) [] Hfit) as H.
  rewrite app_nil_r in H. rewrite H. cbn [mbind option_bind].
  by rewrite Nat.eqb_refl.
Qed.

Lemma decode_payload_batch es :
  Forall entry_fits es → fits_u32 (length es) →
  decode_payload ([OP_BATCH] ++ le_bytes 4 (Z.of_nat (length es)) ++ concat (map encode_entry es))
  = Some (BatchRec es).
Proof.
  intros Hes Hn. unfold decode_payload. rewrite decide_True by done.
  assert (slice 1 5 ([OP_BATCH] ++ le_bytes 4 (Z.of_nat (length es)) ++ concat (map encode_entry es))
          = le_bytes 4 (Z.of_nat (length es))) as -> by (by slice_simpl).
  rewrite from_le4_length by done.
  pose proof (decode_encode_entries es ([OP_BATCH] ++ le_bytes 4 (Z.of_nat (length es))) Hes) as H.
  rewrite <- app_assoc in H. replace (length ([OP_BATCH] ++ le_bytes 4 (Z.of_nat (length es))))
    with 5%nat in H by len_solve.
  rewrite H. cbn [mbind option_bind].
  by rewrite (proj2 (Nat.eqb_eq _ _)) by len_solve.
Qed.

(** Sizes for which the [as u32] casts of the encoder are exact. *)
Definition record_fits (e : entry) : Prop := fits_u32 (9 + length e.1.2 + length e.2).
Definition batch_payload_len (es : list entry) : nat :=
  (5 + length (concat (map encode_entry es)))%nat.
Definition batch_fits (es : list entry) : Prop := fits_u32 (batch_payload_len es).

Lemma record_fits_entry e : record_fits e → entry_fits e.
Proof. unfold record_fits, entry_fits, fits_u32. lia. Qed.

Lemma batch_fits_entries es : batch_fits es → Forall entry_fits es ∧ fits_u32 (length es).
Proof.
  unfold batch_fits, batch_payload_len, fits_u32. intros H.
  assert (Hle : (length es ≤ length (concat (map encode_entry es)))%nat ∧
    Forall (λ e, length (encode_entry e) ≤ length (concat (map encode_entry es)))%nat es).
  { clear H. induction es as [|e es [IH1 IH2]]; cbn [map concat]; [by split; [|constructor]|].
    rewrite length_app, length_encode_entry. split; [cbn [length]; lia|].
    constructor; [rewrite length_encode_entry; lia|].
    eapply list.Forall_impl; [exact IH2|]. cbn. lia. }
  destruct Hle as [Hn Hall]. split; [|lia].
  eapply list.Forall_impl; [exact Hall|]. cbn beta. intros e He. rewrite length_encode_entry in He.
  unfold entry_fits, fits_u32. lia.
Qed.

(** ** Records in a log: what a record is does not depend on what follows *)

Definition is_record (b : bytes) (r : WalRecord) : Prop :=
  ∀ rest, decode_record (b ++ rest) = Some (length b, r).

Lemma is_record_single op k v :
  op ≠ OP_BATCH → record_fits (op, k, v) → is_record (encode_record op k v) (Single op k v).
Proof.
  intros Hop Hf rest. apply decode_frame.
  - by rewrite length_encode_entry.
  - rewrite length_encode_entry. lia.
  - apply decode_payload_single; [done|]. by apply record_fits_entry.
Qed.

Lemma is_record_batch es : batch_fits es → is_record (encode_batch_record es) (BatchRec es).
Proof.
  intros Hf rest. apply decode_frame.
  - unfold batch_fits, batch_payload_len in Hf. unfold fits_u32 in *. len_simpl. lia.
  - len_simpl. lia.
  - apply batch_fits_entries in Hf as [? ?]. by apply decode_payload_batch.
Qed.

Lemma decode_record_bounds buf c r :
  decode_record buf = Some (c, r) → (13 ≤ c ≤ length buf)%nat ∧ is_record (take c buf) r.
Proof.
  unfold is_record, decode_record. destruct (Nat.ltb_spec (length buf) 8); [done|].
  set (pl := Z.to_nat (from_le (slice 4 8 buf))).
  destruct (Nat.ltb_spec (length buf) (8 + pl)); [done|].
  destruct (Nat.ltb_spec pl 5); [done|]. cbn [orb].
  destruct (crc32 (slice 8 (8 + pl) buf) =? from_le (slice 0 4 buf)) eqn:Hcrc; [|done].
  cbn [negb]. destruct (decode_payload _) as [r'|] eqn:Hp; [|done].
  cbn [mbind option_bind]. intros [= <- <-]. split; [lia|]. intros rest.
  rewrite (proj2 (Nat.ltb_ge _ _)) by len_solve.
  rewrite !slice_take_app by lia. fold pl.
  rewrite Hcrc. cbn [negb].
  rewrite !(proj2 (Nat.ltb_ge _ _)) by len_solve. cbn [orb].
  rewrite Hp. cbn [mbind option_bind]. do 2 f_equal. len_solve.
Qed.

(** A record cut short never decodes: the length field outlives the bytes. *)
Lemma decode_record_torn b r n :
  is_record b r → (n < length b)%nat → decode_record (take n b) = None.
Proof.
  intros Hr Hn. destruct (decode_record (take n b)) as [[c r']|] eqn:E; [|done]. exfalso.
  apply decode_record_bounds in E as [Hc Hr'].
  assert (c ≤ n)%nat by len_solve.
  specialize (Hr []). rewrite app_nil_r in Hr.
  specialize (Hr' (drop c b)). rewrite take_take, Nat.min_l, take_drop in Hr' by lia.
  rewrite Hr in Hr'. injection Hr' as Hl _. len_solve.
Qed.

Definition apply_record (m : table) (r : WalRecord) : option table :=
  match r with
  | Single op k v => let '(known, m') := apply_op m op k v in if known then Some m' else None
  | BatchRec es => Some (apply_entries m es)
  end.

Inductive wal_log : table → bytes → table → Prop :=
| wal_log_nil m : wal_log m [] m
| wal_log_cons m b r m1 w m2 :
    is_record b r → (0 < length b)%nat → apply_record m r = Some m1 →
    wal_log m1 w m2 → wal_log m (b ++ w) m2.

Lemma wal_log_app m w m1 w' m2 : wal_log m w m1 → wal_log m1 w' m2 → wal_log m (w ++ w') m2.
Proof.
  induction 1 as [|m b r m1 w m3 Hb Hl Hm Hw IH]; intros H'; [done|].
  rewrite <- app_assoc. eapply wal_log_cons; eauto.
Qed.

Lemma wal_log_one m b r m1 :
  is_record b r → (0 < length b)%nat → apply_record m r = Some m1 → wal_log m b m1.
Proof. intros. rewrite <- (app_nil_r b). eapply wal_log_cons; eauto using wal_log. Qed.

(** The replay loop follows a log to its end and stops at a tail that is not
    a record; [length w] iterations are enough. *)
Lemma replay_log m w m' pre tail fuel :
  wal_log m w m' → (tail = [] ∨ decode_record tail = None) → (length w ≤ fuel)%nat →
  storage_replay fuel (pre ++ w ++ tail) m (length pre) = (m', (length pre + length w)%nat).
Proof.
  intros Hw. revert pre fuel. induction Hw as [m|m b r m1 w m2 Hb Hl Hm Hw IH];
    intros pre fuel Ht Hf.
  - cbn [app length]. rewrite Nat.add_0_r. destruct fuel as [|fuel]; cbn [storage_replay]; [done|].
    rewrite drop_app_length. destruct (Nat.ltb_spec (length pre) (length (pre ++ tail))); [|done].
    destruct Ht as [->|Ht]; [len_solve|]. by rewrite Ht.
  - rewrite length_app in Hf. destruct fuel as [|fuel]; [lia|]. cbn [storage_replay].
    rewrite (proj2 (Nat.ltb_lt _ _)) by len_solve.
    rewrite drop_app_length, <- app_assoc, Hb.
    specialize (IH (pre ++ b) fuel Ht). rewrite <- app_assoc, length_app in IH.
    rewrite length_app, Nat.add_assoc, <- IH by lia.
    destruct r as [op k v|es]; cbn in Hm.
    + destruct (apply_op m op k v) as [[] ?]; by simplify_eq.
    + by simplify_eq.
Qed.

Lemma replay_sound fuel buf m pos m' pos' :
  (pos ≤ length buf)%nat → storage_replay fuel buf m pos = (m', pos') →
  (pos ≤ pos' ≤ length buf)%nat ∧ wal_log m (slice pos pos' buf) m'.
Proof.
  revert m pos. induction fuel as [|fuel IH]; intros m pos Hpos; cbn [storage_replay].
  { intros [= <- <-]. split; [lia|]. unfold slice. rewrite Nat.sub_diag. constructor. }
  assert (Hstop : (pos ≤ pos ≤ length buf)%nat ∧ wal_log m (slice pos pos buf) m).
  { split; [lia|]. unfold slice. rewrite Nat.sub_diag. constructor. }
  destruct (Nat.ltb_spec pos (length buf)); [|by intros [= <- <-]].
  destruct (decode_record (drop pos buf)) as [[c r]|] eqn:Hd; [|by intros [= <- <-]].
  apply decode_record_bounds in Hd as [Hc Hr]. rewrite length_drop in Hc.
  assert (Hnext : ∀ m1, apply_record m r = Some m1 →
    storage_replay fuel buf m1 (pos + c) = (m', pos') →
    (pos ≤ pos' ≤ length buf)%nat ∧ wal_log m (slice pos pos' buf) m').
  { intros m1 Hm1 Hrep. apply IH in Hrep as [Hp Hw]; [|lia]. split; [lia|].
    replace (slice pos pos' buf) with (take c (drop pos buf) ++ slice (pos + c) pos' buf).
    { eapply wal_log_cons; [done|len_solve|done|done]. }
    unfold slice. rewrite <- drop_drop.
    replace (pos' - pos)%nat with (c + (pos' - (pos + c)))%nat by lia.
    by rewrite take_take_drop. }
  destruct r as [op k v|es]; cbn in Hnext.
  - destruct (apply_op m op k v) as [[] m1]; [by apply Hnext|by intros [= <- <-]].
  - by apply Hnext.
Qed.

(** ** Durable states *)

(** The log of the state replays to the state's table. *)
Definition durable (s : Storage) : Prop := wal_log ∅ (st_wal s) (st_map s).

Lemma durable_open_app s tail :
  durable s → (tail = [] ∨ decode_record tail = None) → storage_open (st_wal s ++ tail) = s.
Proof.
  intros Hs Ht. unfold storage_open.
  pose proof (replay_log ∅ _ _ [] tail (length (st_wal s ++ tail)) Hs Ht) as Hr.
  cbn [app length] in Hr. rewrite Hr by len_solve. cbn [Nat.add].
  destruct s as [m w]; cbn [st_map st_wal] in *. f_equal.
  destruct (Nat.ltb_spec (length w) (length (w ++ tail))).
  - by rewrite take_app_length.
  - destruct tail; [by rewrite app_nil_r|len_solve].
Qed.

Lemma durable_open s : durable s → storage_open (st_wal s) = s.
Proof.
  intros Hs. pose proof (durable_open_app s [] Hs (or_introl eq_refl)) as H.
  by rewrite app_nil_r in H.
Qed.

Lemma open_durable buf : durable (storage_open buf).
Proof.
  unfold storage_open. destruct (storage_replay _ _ _ _) as [m pos] eqn:E.
  apply replay_sound in E as [Hp Hw]; [|lia]. unfold slice in Hw.
  rewrite drop_0, Nat.sub_0_r in Hw. unfold durable. cbn [st_map st_wal].
  destruct (Nat.ltb_spec pos (length buf)); [done|].
  rewrite take_ge in Hw by lia. done.
Qed.

Lemma durable_append s b r m1 :
  durable s → is_record b r → (0 < length b)%nat → apply_record (st_map s) r = Some m1 →
  durable (mkStorage m1 (st_wal s ++ b)).
Proof. intros. eapply wal_log_app; [done|]. by eapply wal_log_one. Qed.

(** ** The operations as a step relation *)

(** Entries a [Batch] can hold: it is built by [put] and [delete] only. *)
Definition batch_op (op : byte) : Prop := op = OP_PUT ∨ op = OP_DELETE.
Definition batch_wf (b : Batch) : Prop := Forall (λ e, batch_op e.1.1) (entries b).

(** The casts to [u32] of a commit are exact. *)
Definition commit_fits (b : Batch) : Prop :=
  match entries b with [e] => record_fits e | es => batch_fits es end.

Definition kv_fits (key value : bytes) : Prop := record_fits (OP_PUT, key, value).

Lemma batch_op_apply m op k v : batch_op op → apply_op m op k v = (true, (apply_op m op k v).2).
Proof. by intros [->| ->]. Qed.

Lemma batch_op_not_batch op : batch_op op → op ≠ OP_BATCH.
Proof. by intros [->| ->]. Qed.

Definition commit_bytes (b : Batch) : bytes :=
  match entries b with
  | [] => []
  | [(op, key, value)] => encode_record op key value
  | es => encode_batch_record es
  end.

Lemma commit_unfold io s b :
  storage_commit io s b =
    match entries b with
    | [] => (Ok tt, s)
    | _ => then_apply (append_wal io s (commit_bytes b)) (λ m, apply_entries m (entries b))
    end.
Proof.
  unfold storage_commit, commit_bytes. destruct (entries b) as [|[[op k] v] [|e es]]; done.
Qed.

(** The bytes a commit appends are one record that applies the whole batch. *)
Lemma commit_record b :
  batch_wf b → commit_fits b → entries b ≠ [] →
  ∃ r, is_record (commit_bytes b) r ∧ (0 < length (commit_bytes b))%nat ∧
       ∀ m, apply_record m r = Some (apply_entries m (entries b)).
Proof.
  unfold batch_wf, commit_fits, commit_bytes.
  destruct (entries b) as [|[[op k] v] [|e es]]; intros Hwf Hfit Hne; [done| |].
  - apply Forall_inv in Hwf. cbn in Hwf. exists (Single op k v). split_and!.
    + by apply is_record_single; [apply batch_op_not_batch|].
    + unfold encode_record. len_solve.
    + intros m. cbn [apply_record apply_entries fold_left apply_entry].
      by rewrite batch_op_apply.
  - exists (BatchRec ((op, k, v) :: e :: es)). split_and!; [|unfold encode_batch_record; len_solve|done].
    by apply is_record_batch.
Qed.

Inductive storage_step (s : Storage) : Storage → Prop :=
| step_put key value s' : kv_fits key value →
    storage_put IoOk s key value = (Ok tt, s') → storage_step s s'
| step_delete key s' : kv_fits key [] →
    storage_delete IoOk s key = (Ok tt, s') → storage_step s s'
| step_commit b s' : batch_wf b → commit_fits b →
    storage_commit IoOk s b = (Ok tt, s') → storage_step s s'
| step_compact s' : Forall (λ kv, kv_fits kv.1 kv.2) (storage_dump s) →
    storage_compact true s = (Ok tt, s') → storage_step s s'
| step_compact_failed s' : storage_compact false s = (Err StorageIo, s') → storage_step s s'
| step_reopen : storage_step s (storage_open (st_wal s)).

Lemma snapshot_log pairs m :
  Forall (λ kv, kv_fits kv.1 kv.2) pairs →
  wal_log m (write_snapshot pairs) (apply_entries m (map (λ kv, (OP_PUT, kv.1, kv.2)) pairs)).
Proof.
  intros Hf. revert m. induction Hf as [|[k v] pairs Hkv Hf IH]; intros m; cbn; [constructor|].
  eapply wal_log_cons; [by apply is_record_single|unfold encode_record; len_solve|done|].
  apply IH.
Qed.

Lemma apply_entries_app m es es' : apply_entries m (es ++ es') = apply_entries (apply_entries m es) es'.
Proof. apply fold_left_app. Qed.

Lemma apply_puts pairs m :
  NoDup pairs.*1 →
  apply_entries m (map (λ kv, (OP_PUT, kv.1, kv.2)) pairs) = list_to_map pairs ∪ m.
Proof.
  revert m. induction pairs as [|[k v] pairs IH]; intros m Hnd; cbn [map].
  - by rewrite list_to_map_nil, (left_id_L ∅ (∪)).
  - apply list.NoDup_cons in Hnd as [Hk Hnd]. cbn [fst] in Hk.
    change (apply_entries m (?e :: ?es)) with (apply_entries (apply_entry m e) es).
    rewrite IH, list_to_map_cons by done.
    change (apply_entry m _) with (<[k := v]> m). rewrite <- insert_union_l, <- insert_union_r; [done|].
    by apply not_elem_of_list_to_map_1.
Qed.

Lemma snapshot_durable m :
  Forall (λ kv, kv_fits kv.1 kv.2) (btree_iter m) →
  durable (mkStorage m (write_snapshot (btree_iter m))).
Proof.
  intros Hf. pose proof (snapshot_log _ ∅ Hf) as Hw.
  rewrite apply_puts in Hw by apply btree_iter_nodup.
  by rewrite list_to_map_btree_iter, (right_id_L ∅ (∪)) in Hw.
Qed.

Lemma commit_ok s b s' :
  storage_commit IoOk s b = (Ok tt, s') →
  st_map s' = apply_entries (st_map s) (entries b) ∧ st_wal s' = st_wal s ++ commit_bytes b.
Proof.
  rewrite commit_unfold. unfold commit_bytes. destruct (entries b) as [|e es] eqn:E.
  - intros [= <-]. by rewrite app_nil_r.
  - cbn. by intros [= <-].
Qed.

Lemma storage_step_durable s s' : durable s → storage_step s s' → durable s'.
Proof.
  intros Hs [key value s1 Hf H|key s1 Hf H|b s1 Hwf Hf H|s1 Hf H|s1 H|].
  - cbn in H. injection H as <-. eapply durable_append; [done|by apply is_record_single| |done].
    unfold encode_record. len_solve.
  - cbn in H. injection H as <-. eapply durable_append; [done|by apply is_record_single| |done].
    unfold encode_record. len_solve.
  - apply commit_ok in H as [Hm Hw]. destruct s1 as [m1 w1]; cbn in Hm, Hw; subst.
    destruct (decide (entries b = [])) as [He|He].
    + unfold commit_bytes. rewrite He, app_nil_r. by destruct s.
    + destruct (commit_record b Hwf Hf He) as (r & Hr & Hl & Ha). by eapply durable_append.
  - cbn in H. injection H as <-. by apply snapshot_durable.
  - cbn in H. by injection H as <-.
  - apply open_durable.
Qed.

Lemma reachable_durable s s' : durable s → rtc storage_step s s' → durable s'.
Proof. intros Hs Hr. induction Hr; eauto using storage_step_durable. Qed.

(** The log of a durable state, with the first [n] bytes of a commit after it. *)
Lemma torn_commit s b s' n :
  durable s → batch_wf b → commit_fits b → storage_commit IoOk s b = (Ok tt, s') →
  storage_open (st_wal s ++ take n (commit_bytes b))
  = if decide (length (commit_bytes b) ≤ n)%nat then s' else s.
Proof.
  intros Hs Hwf Hfit Hc.
  assert (durable s') as Hs' by (eapply storage_step_durable, step_commit; done).
  apply commit_ok in Hc as [_ Hw]. case_decide as Hn.
  - rewrite take_ge, <- Hw by done. by apply durable_open.
  - apply durable_open_app; [done|].
    destruct (decide (entries b = [])) as [He|He].
    + unfold commit_bytes in Hn. rewrite He in Hn. cbn in Hn. lia.
    + destruct (commit_record b Hwf Hfit He) as (r & Hb & _ & _).
      right. eapply decode_record_torn; [done|lia].
Qed.

(** ** Record round trips and corruption *)

(** A put or delete record decodes to its operation, key and value, whatever follows it in the log. *)
Theorem record_roundtrip op key value rest :
  op ≠ OP_BATCH → record_fits (op, key, value) →
  decode_record (encode_record op key value ++ rest)
  = Some (length (encode_record op key value), Single op key value).
Proof. intros. by apply is_record_single. Qed.

Lemma record_roundtrip_witness :
  decode_record (encode_record OP_PUT (bs "k") (bs "v") ++ bs "tail")
  = Some (19%nat, Single OP_PUT (bs "k") (bs "v")).
Proof. apply (record_roundtrip OP_PUT (bs "k") (bs "v") (bs "tail")); [discriminate|reflexivity]. Defined.

(** A batch record decodes to its entries and its length, whatever follows it in the log. *)
Theorem batch_roundtrip es rest :
  batch_fits es →
  decode_record (encode_batch_record es ++ rest)
  = Some (length (encode_batch_record es), BatchRec es).
Proof. intros. by apply is_record_batch. Qed.

Lemma batch_roundtrip_witness :
  decode_record (encode_batch_record [(OP_PUT, bs "k", bs "v"); (OP_DELETE, bs "j", [])] ++ [])
  = Some (34%nat, BatchRec [(OP_PUT, bs "k", bs "v"); (OP_DELETE, bs "j", [])]).
Proof. apply (batch_roundtrip [(OP_PUT, bs "k", bs "v"); (OP_DELETE, bs "j", [])] []). reflexivity. Defined.

(** The checksum comparison of [decode_record], for any framed header. *)
Lemma decode_record_bad_crc c payload rest :
  in_u 32 c → fits_u32 (length payload) → c ≠ crc32 payload →
  decode_record (le_bytes 4 c ++ le_bytes 4 (Z.of_nat (length payload)) ++ payload ++ rest) = None.
Proof.
  intros Hc Hp Hne. unfold decode_record.
  match goal with |- context [(length ?b <? 8)%nat] => set (buf := b) end.
  destruct (_ <? 8)%nat; [done|].
  assert (slice 4 8 buf = le_bytes 4 (Z.of_nat (length payload))) as -> by (unfold buf; by slice_simpl).
  rewrite from_le4_length by done. destruct (_ || _)%nat; [done|].
  assert (slice 0 4 buf = le_bytes 4 c) as -> by (unfold buf; by slice_simpl).
  assert (slice 8 (8 + length payload) buf = payload) as -> by (unfold buf; by slice_simpl).
  rewrite from_le_small by done. by rewrite (proj2 (Z.eqb_neq _ _)) by done.
Qed.

Lemma insert_app_mid {A} (pre post : list A) (x y : A) :
  <[length pre := y]> (pre ++ x :: post) = pre ++ y :: post.
Proof. by rewrite insert_app_r_alt, Nat.sub_diag by lia. Qed.

(** Any one-byte substitution outside the length field of a record, in the
    checksum or in the payload, makes the record undecodable. *)
Lemma frame_substitution payload i b b' rest :
  fits_u32 (length payload) → frame payload !! i = Some b → b ≠ b' →
  (i < 4 ∨ 8 ≤ i)%nat → decode_record (<[i := b']> (frame payload) ++ rest) = None.
Proof.
  intros Hp Hi Hb Hrange. unfold frame in *.
  destruct (decide (i < 4)%nat) as [H4|H4].
  - rewrite lookup_app_l in Hi by len_solve. rewrite insert_app_l by len_solve.
    set (c' := <[i := b']> (le_bytes 4 (crc32 payload))).
    assert (length c' = 4%nat) as Hc' by (unfold c'; rewrite length_insert; len_solve).
    rewrite <- (le_bytes_from_le 4 c') by done. rewrite <- !app_assoc.
    apply decode_record_bad_crc; [|done|].
    + pose proof (from_le_bound c') as Hb'. rewrite Hc' in Hb'. done.
    + intros Heq. apply Hb. apply (f_equal (λ z, le_bytes 4 z !! i)) in Heq. cbv beta in Heq.
      rewrite le_bytes_from_le in Heq by done. rewrite Hi in Heq. unfold c' in Heq.
      rewrite list_lookup_insert_eq in Heq by len_solve. by simplify_eq.
  - destruct Hrange as [?|H8]; [lia|]. rewrite app_assoc in *.
    rewrite lookup_app_r in Hi by len_solve. rewrite insert_app_r_alt by len_solve.
    set (j := (i - _)%nat) in *. apply list_elem_of_split_length in Hi as (p1 & p2 & Hpay & Hj).
    rewrite Hj, Hpay, insert_app_mid. rewrite Hpay in Hp.
    assert (Hne : crc32 (p1 ++ b :: p2) ≠ crc32 (p1 ++ b' :: p2)) by by apply crc32_substitution.
    assert (Hlen : length (p1 ++ b :: p2) = length (p1 ++ b' :: p2)) by len_solve.
    rewrite Hlen in *. set (pay' := p1 ++ b' :: p2) in *. rewrite <- !app_assoc.
    apply decode_record_bad_crc; [apply crc32_range|done|done].
Qed.

(** C25: Changing any one byte of a record outside its length field makes the record undecodable: CRC-32 detects every one-byte substitution. *)
Theorem corrupted_record_rejected op key value i b b' rest :
  record_fits (op, key, value) → encode_record op key value !! i = Some b → b ≠ b' →
  (i < 4 ∨ 8 ≤ i)%nat →
  decode_record (<[i := b']> (encode_record op key value) ++ rest) = None.
Proof. intros Hf. apply frame_substitution. by rewrite length_encode_entry. Qed.

Lemma corrupted_record_rejected_witness :
  decode_record (<[13%nat := Byte.x6c]> (encode_record OP_PUT (bs "k") (bs "v")) ++ []) = None.
Proof.
  apply (corrupted_record_rejected OP_PUT (bs "k") (bs "v") 13 Byte.x6b Byte.x6c []);
    [reflexivity|vm_compute; reflexivity|discriminate|right; lia].
Defined.

(** ** Recovery *)

(** C24: In every state reachable by successful operations, replaying the log file rebuilds exactly the in-memory state. *)
Theorem reachable_reopens file s :
  rtc storage_step (storage_open file) s → storage_open (st_wal s) = s.
Proof. intros H. eapply durable_open, reachable_durable; [apply open_durable|done]. Qed.

Lemma reachable_reopens_witness :
  let s := mkStorage {[ bs "k" := bs "v" ]} (encode_record OP_PUT (bs "k") (bs "v")) in
  storage_open (st_wal s) = s.
Proof.
  apply (reachable_reopens []). eapply rtc_l; [|apply rtc_refl].
  apply (step_put _ (bs "k") (bs "v")); [reflexivity|vm_compute; reflexivity].
Defined.

(** C6: A crash that cuts the append of a commit after [n] bytes recovers to the
    state before it, or after it once all bytes are there; never in between. *)
Theorem commit_crash_atomic file s b s' n :
  rtc storage_step (storage_open file) s → batch_wf b → commit_fits b →
  storage_commit IoOk s b = (Ok tt, s') →
  storage_open (st_wal s ++ take n (commit_bytes b))
  = if decide (length (commit_bytes b) ≤ n)%nat then s' else s.
Proof.
  intros Hr Hwf Hfit Hc. apply torn_commit; [|done..].
  eapply reachable_durable; [apply open_durable|done].
Qed.

Lemma commit_crash_atomic_witness :
  let b := mkBatch [(OP_PUT, bs "a", bs "1"); (OP_PUT, bs "b", bs "2")] in
  let s := storage_open [] in
  storage_open (st_wal s ++ take 20 (commit_bytes b)) = s.
Proof.
  apply (commit_crash_atomic [] (storage_open [])
           (mkBatch [(OP_PUT, bs "a", bs "1"); (OP_PUT, bs "b", bs "2")])
           (storage_commit IoOk (storage_open [])
              (mkBatch [(OP_PUT, bs "a", bs "1"); (OP_PUT, bs "b", bs "2")])).2 20).
  - apply rtc_refl.
  - repeat constructor.
  - reflexivity.
  - vm_compute. reflexivity.
Defined.

(** A backup file opens to exactly the table it was taken from. *)
Theorem snapshot_restores s :
  Forall (λ kv, kv_fits kv.1 kv.2) (storage_dump s) →
  st_map (storage_open (snapshot_to s)) = st_map s.
Proof.
  intros Hf. unfold snapshot_to. apply snapshot_durable, durable_open in Hf.
  cbn [st_wal] in Hf. by rewrite Hf.
Qed.

Lemma snapshot_restores_witness :
  let s := mkStorage {[ bs "k" := bs "v" ]} [] in st_map (storage_open (snapshot_to s)) = st_map s.
Proof. apply snapshot_restores. repeat constructor. Defined.

(** ** Refinement: the store implements an ordered map

    The specification is a bare finite map: a commit is the sequence of its
    puts and deletes, a prefix scan is the ordered listing of the submap, and
    neither compaction nor reopening changes anything. *)

Inductive kv_op : Type :=
| KPut (key value : bytes)
| KDelete (key : bytes)
| KCommit (b : Batch)
| KGet (key : bytes)
| KScan (prefix : bytes)
| KDump
| KLen
| KCompact
| KReopen.

Inductive kv_obs : Type :=
| ODone
| OError
| OGet (v : option bytes)
| OList (l : list (bytes * bytes))
| OLen (n : nat).

Definition kv_spec (m : table) (op : kv_op) : kv_obs * table :=
  match op with
  | KPut k v => (ODone, <[k := v]> m)
  | KDelete k => (ODone, base.delete k m)
  | KCommit b =>
      (ODone, fold_left (λ m '(is_delete, k, v),
                 if (is_delete : bool) then base.delete k m else <[k := v]> m)
               (batch_entries b) m)
  | KGet k => (OGet (m !! k), m)
  | KScan p => (OList (btree_iter (filter (λ kv, starts_with p kv.1 = true) m)), m)
  | KDump => (OList (btree_iter m), m)
  | KLen => (OLen (size m), m)
  | KCompact | KReopen => (ODone, m)
  end.

Definition obs_of (r : result StorageError unit * Storage) : kv_obs * Storage :=
  (match r.1 with Ok _ => ODone | Err _ => OError end, r.2).

Definition kv_impl (s : Storage) (op : kv_op) : kv_obs * Storage :=
  match op with
  | KPut k v => obs_of (storage_put IoOk s k v)
  | KDelete k => obs_of (storage_delete IoOk s k)
  | KCommit b => obs_of (storage_commit IoOk s b)
  | KGet k => (OGet (storage_get s k), s)
  | KScan p => (OList (storage_scan_prefix s p), s)
  | KDump => (OList (storage_dump s), s)
  | KLen => (OLen (storage_len s), s)
  | KCompact => obs_of (storage_compact true s)
  | KReopen => (ODone, storage_open (st_wal s))
  end.

Fixpoint kv_run {S} (step : S → kv_op → kv_obs * S) (s : S) (ops : list kv_op) : list kv_obs :=
  match ops with
  | [] => []
  | op :: ops' => let '(o, s') := step s op in o :: kv_run step s' ops'
  end.

(** Sizes stay below the 32-bit length fields. *)
Definition op_fits (op : kv_op) : Prop :=
  match op with
  | KPut k v => kv_fits k v
  | KDelete k => kv_fits k []
  | KCommit b => batch_wf b ∧ commit_fits b ∧ Forall (λ e, kv_fits e.1.2 e.2) (entries b)
  | _ => True
  end.

Definition table_fits (m : table) : Prop := map_Forall kv_fits m.

Lemma apply_entries_batch b m :
  batch_wf b →
  apply_entries m (entries b)
  = fold_left (λ m '(is_delete, k, v),
       if (is_delete : bool) then base.delete k m else <[k := v]> m) (batch_entries b) m.
Proof.
  unfold batch_wf, batch_entries, apply_entries. intros Hwf. revert m.
  induction Hwf as [|[[op k] v] es Hop Hwf IH]; intros m; cbn [map fold_left]; [done|].
  rewrite IH. f_equal. cbn in Hop. by destruct Hop as [-> | ->].
Qed.

Lemma apply_entries_fits es m :
  Forall (λ e, kv_fits e.1.2 e.2) es → table_fits m → table_fits (apply_entries m es).
Proof.
  intros Hes. revert m. induction Hes as [|[[op k] v] es He Hes IH]; intros m Hm; [done|].
  apply IH. cbn in He |- *. unfold apply_op. repeat case_decide; cbn; [| |done].
  - by apply map_Forall_insert_2.
  - by apply map_Forall_delete.
Qed.

Lemma table_fits_dump m : table_fits m → Forall (λ kv, kv_fits kv.1 kv.2) (btree_iter m).
Proof.
  intros Hm. apply list.Forall_forall. intros [k v] Hkv%elem_of_btree_iter. by apply Hm.
Qed.

Lemma kv_simulation s op :
  durable s → table_fits (st_map s) → op_fits op →
  (kv_impl s op).1 = (kv_spec (st_map s) op).1 ∧
  st_map (kv_impl s op).2 = (kv_spec (st_map s) op).2 ∧
  durable (kv_impl s op).2 ∧ table_fits (st_map (kv_impl s op).2).
Proof.
  intros Hs Hm Hop. destruct op as [k v|k|b|k|p| | | |]; cbn [kv_impl kv_spec fst snd].
  - split_and!; [done|done| |by apply map_Forall_insert_2].
    eapply storage_step_durable; [done|by eapply (step_put _ k v)].
  - split_and!; [done|done| |by apply map_Forall_delete].
    eapply storage_step_durable; [done|by eapply (step_delete _ k)].
  - destruct Hop as (Hwf & Hfit & Hes).
    assert (∃ s', storage_commit IoOk s b = (Ok tt, s')) as [s' Hc].
    { rewrite commit_unfold. destruct (entries b); cbn; eauto. }
    rewrite Hc. cbn [obs_of fst snd]. pose proof Hc as Hc'.
    apply commit_ok in Hc' as [Hm' _]. rewrite Hm'. split_and!; [done| | |].
    + by apply apply_entries_batch.
    + by eapply storage_step_durable, step_commit.
    + by apply apply_entries_fits.
  - done.
  - unfold storage_scan_prefix. by rewrite scan_btree.
  - done.
  - done.
  - split_and!; [done|done| |done].
    eapply storage_step_durable; [done|by eapply step_compact; [apply table_fits_dump|]].
  - rewrite durable_open by done. done.
Qed.

Lemma kv_run_refines ops s :
  durable s → table_fits (st_map s) → Forall op_fits ops →
  kv_run kv_impl s ops = kv_run kv_spec (st_map s) ops.
Proof.
  intros Hs Hm Hops. revert s Hs Hm. induction Hops as [|op ops Hop Hops IH]; intros s Hs Hm; [done|].
  destruct (kv_simulation s op Hs Hm Hop) as (Ho & Hst & Hs' & Hm').
  cbn [kv_run]. destruct (kv_impl s op) as [o s'], (kv_spec (st_map s) op) as [o' m'].
  cbn in *. subst. f_equal. by apply IH.
Qed.

(** C7: Every sequence of puts, deletes, batch commits, reads, prefix scans, dumps, compactions and reopenings of the log-backed store gives the observations of a plain finite map. *)
Theorem storage_refines_map ops :
  Forall op_fits ops → kv_run kv_impl (storage_open []) ops = kv_run kv_spec ∅ ops.
Proof.
  intros H. apply (kv_run_refines ops (storage_open [])); [apply open_durable| |done].
  apply map_Forall_empty.
Qed.

Lemma storage_refines_map_witness :
  let ops := [KPut (bs "b") (bs "2"); KCommit (mkBatch [(OP_PUT, bs "a", bs "1"); (OP_DELETE, bs "b", [])]);
              KReopen; KScan (bs "a"); KGet (bs "b")] in
  kv_run kv_impl (storage_open []) ops = kv_run kv_spec ∅ ops ∧
  kv_run kv_spec ∅ ops = [ODone; ODone; ODone; OList [(bs "a", bs "1")]; OGet None].
Proof.
  split; [|vm_compute; reflexivity].
  apply (storage_refines_map [KPut (bs "b") (bs "2");
    KCommit (mkBatch [(OP_PUT, bs "a", bs "1"); (OP_DELETE, bs "b", [])]);
    KReopen; KScan (bs "a"); KGet (bs "b")]).
  repeat first [by left | by right | reflexivity | constructor].
Defined.

(** ** A failed append poisons the log

    [append] does not truncate after a short write: the torn bytes stay in
    the middle of the file, so a later [put] that returns [Ok] is cut away
    with them when the log is replayed. *)
(** After a failed append leaves torn bytes in the log, a later put that returns Ok is lost when the log is replayed. *)
Theorem failed_append_loses_later_put :
  ∃ (s1 s2 : Storage),
    storage_put (IoShortWrite 9) (storage_open []) (bs "a") (bs "1") = (Err StorageIo, s1) ∧
    storage_put IoOk s1 (bs "b") (bs "2") = (Ok tt, s2) ∧
    storage_get s2 (bs "b") = Some (bs "2") ∧
    kv_run kv_impl s2 [KReopen; KGet (bs "b")] = [ODone; OGet None].
Proof.
  exists (storage_put (IoShortWrite 9) (storage_open []) (bs "a") (bs "1")).2,
    (storage_put IoOk (storage_put (IoShortWrite 9) (storage_open []) (bs "a") (bs "1")).2 (bs "b") (bs "2")).2.
  vm_compute. split_and!; reflexivity.
Qed.
