(* ===== verification/Sha256.v ===== *)
(** * SHA-256 ([ciphra-crypto/src/sha256.rs])

    The streaming implementation with its 64-byte buffer, and its
    equivalence to FIPS 180-4: padding the message and folding the
    compression function over its blocks. *)

From S2P Require Import Prelude.

Definition K : list Z :=
  [0x428a_2f98; 0x7137_4491; 0xb5c0_fbcf; 0xe9b5_dba5; 0x3956_c25b; 0x59f1_11f1;
   0x923f_82a4; 0xab1c_5ed5; 0xd807_aa98; 0x1283_5b01; 0x2431_85be; 0x550c_7dc3;
   0x72be_5d74; 0x80de_b1fe; 0x9bdc_06a7; 0xc19b_f174; 0xe49b_69c1; 0xefbe_4786;
   0x0fc1_9dc6; 0x240c_a1cc; 0x2de9_2c6f; 0x4a74_84aa; 0x5cb0_a9dc; 0x76f9_88da;
   0x983e_5152; 0xa831_c66d; 0xb003_27c8; 0xbf59_7fc7; 0xc6e0_0bf3; 0xd5a7_9147;
   0x06ca_6351; 0x1429_2967; 0x27b7_0a85; 0x2e1b_2138; 0x4d2c_6dfc; 0x5338_0d13;
   0x650a_7354; 0x766a_0abb; 0x81c2_c92e; 0x9272_2c85; 0xa2bf_e8a1; 0xa81a_664b;
   0xc24b_8b70; 0xc76c_51a3; 0xd192_e819; 0xd699_0624; 0xf40e_3585; 0x106a_a070;
   0x19a4_c116; 0x1e37_6c08; 0x2748_774c; 0x34b0_bcb5; 0x391c_0cb3; 0x4ed8_aa4a;
   0x5b9c_ca4f; 0x682e_6ff3; 0x748f_82ee; 0x78a5_636f; 0x84c8_7814; 0x8cc7_0208;
   0x90be_fffa; 0xa450_6ceb; 0xbef9_a3f7; 0xc671_78f2].

Definition H0 : list Z :=
  [0x6a09_e667; 0xbb67_ae85; 0x3c6e_f372; 0xa54f_f53a; 0x510e_527f; 0x9b05_688c; 0x1f83_d9ab; 0x5be0_cd19].

(** The streaming state: [total_len] is a [u64], [buffer] has 64 bytes of
    which [buffered] are in use. *)
Record Sha256 : Type := mkSha256 {
  sha_state : list Z;
  sha_buffer : bytes;
  sha_buffered : nat;
  sha_total_len : Z;
}.

Definition sha256_new : Sha256 := mkSha256 H0 (replicate 64 Byte.x00) 0 0.

(** ** The compression function *)

Definition small_sigma0 (x : Z) : Z := Z.lxor (Z.lxor (rotr 32 x 7) (rotr 32 x 18)) (Z.shiftr x 3).
Definition small_sigma1 (x : Z) : Z := Z.lxor (Z.lxor (rotr 32 x 17) (rotr 32 x 19)) (Z.shiftr x 10).

(** [w[i]] for [16 <= i < 64], from the earlier words. *)
Definition schedule_step (w : list Z) (i : nat) : list Z :=
  let s0 := small_sigma0 (w !!! (i - 15)%nat) in
  let s1 := small_sigma1 (w !!! (i - 2)%nat) in
  <[i := wadd 32 (wadd 32 (wadd 32 (w !!! (i - 16)%nat) s0) (w !!! (i - 7)%nat)) s1]> w.

Definition schedule (block : bytes) : list Z :=
  let w := map from_be (chunks 4 block) ++ replicate 48 0 in
  fold_left schedule_step (seq 16 48) w.

(** The working variables [a .. h]. *)
Definition vars : Type := Z * Z * Z * Z * Z * Z * Z * Z.

Definition sha_round (v : vars) (kw : Z * Z) : vars :=
  let '(a, b, c, d, e, f, g, h) := v in
  let s1 := Z.lxor (Z.lxor (rotr 32 e 6) (rotr 32 e 11)) (rotr 32 e 25) in
  let ch := Z.lxor (Z.land e f) (Z.land (wnot 32 e) g) in
  let temp1 := wadd 32 (wadd 32 (wadd 32 (wadd 32 h s1) ch) kw.1) kw.2 in
  let s0 := Z.lxor (Z.lxor (rotr 32 a 2) (rotr 32 a 13)) (rotr 32 a 22) in
  let maj := Z.lxor (Z.lxor (Z.land a b) (Z.land a c)) (Z.land b c) in
  let temp2 := wadd 32 s0 maj in
  (wadd 32 temp1 temp2, a, b, c, wadd 32 d temp1, e, f, g).

Definition compress (state : list Z) (block : bytes) : list Z :=
  match state with
  | [a; b; c; d; e; f; g; h] =>
      let '(a', b', c', d', e', f', g', h') :=
        fold_left sha_round (zip K (schedule block)) (a, b, c, d, e, f, g, h) in
      zip_with (wadd 32) state [a'; b'; c'; d'; e'; f'; g'; h']
  | _ => state
  end.

Lemma length_compress state block : length state = 8%nat → length (compress state block) = 8%nat.
Proof.
  intros H. unfold compress. do 8 (destruct state as [|? state]; [done|]). destruct state; [|done].
  by destruct (fold_left _ _ _) as [[[[[[[? ?] ?] ?] ?] ?] ?] ?].
Qed.

#[global] Opaque compress.

(** ** Streaming *)

(** [self.compress(&self.buffer); self.buffered = 0] when the buffer is full. *)
Definition flush_full (s : Sha256) : Sha256 :=
  if (sha_buffered s =? 64)%nat then
    mkSha256 (compress (sha_state s) (sha_buffer s)) (sha_buffer s) 0 (sha_total_len s)
  else s.

(** [buffer[at..at + data.len()].copy_from_slice(data)] *)
Definition copy_at (buffer : bytes) (at_ : nat) (data : bytes) : bytes :=
  take at_ buffer ++ data ++ drop (at_ + length data) buffer.

(** [while data.len() >= 64]: the new state and what is left of the data. *)
Fixpoint absorb_blocks (fuel : nat) (state : list Z) (data : bytes) : list Z * bytes :=
  match fuel with
  | O => (state, data)
  | S fuel' =>
      if (64 <=? length data)%nat then
        absorb_blocks fuel' (compress state (take 64 data)) (drop 64 data)
      else (state, data)
  end.

Definition sha256_update (s : Sha256) (data : bytes) : Sha256 :=
  let total_len := wadd 64 (sha_total_len s) (wrap 64 (Z.of_nat (length data))) in
  let s := mkSha256 (sha_state s) (sha_buffer s) (sha_buffered s) total_len in
  let '(s, data) :=
    if (0 <? sha_buffered s)%nat then
      let n := Nat.min (length data) (64 - sha_buffered s) in
      (flush_full (mkSha256 (sha_state s)
         (copy_at (sha_buffer s) (sha_buffered s) (take n data))
         (sha_buffered s + n) total_len), drop n data)
    else (s, data) in
  let '(state, data) := absorb_blocks (length data) (sha_state s) data in
  match data with
  | [] => mkSha256 state (sha_buffer s) (sha_buffered s) total_len
  | _ => mkSha256 state (copy_at (sha_buffer s) 0 data) (length data) total_len
  end.

(** [while self.buffered != 56]: zero bytes, one at a time. *)
Fixpoint pad_zeros (fuel : nat) (s : Sha256) : Sha256 :=
  match fuel with
  | O => s
  | S fuel' =>
      if (sha_buffered s =? 56)%nat then s
      else
        pad_zeros fuel' (flush_full (mkSha256 (sha_state s)
          (copy_at (sha_buffer s) (sha_buffered s) [Byte.x00])
          (sha_buffered s + 1) (sha_total_len s)))
  end.

Definition sha256_finalize (s : Sha256) : bytes :=
  let bit_len := wmul 64 (sha_total_len s) 8 in
  let s := pad_zeros 64 (sha256_update s [Byte.x80]) in
  let block := copy_at (sha_buffer s) 56 (be_bytes 8 bit_len) in
  concat (map (be_bytes 4) (compress (sha_state s) block)).

Definition sha256 (data : bytes) : bytes := sha256_finalize (sha256_update sha256_new data).

Example sha256_abc :
  map byte.unsigned (take 4 (sha256 (bs "abc"))) = [0xba; 0x78; 0x16; 0xbf].
Proof. vm_compute. reflexivity. Qed.

(** ** The standard: padding, then a fold over 64-byte blocks *)

Definition sha_pad (m : bytes) : bytes :=
  m ++ [Byte.x80] ++ replicate (Z.to_nat ((55 - Z.of_nat (length m)) mod 64)) Byte.x00 ++
  be_bytes 8 (wrap 64 (8 * Z.of_nat (length m))).

Definition sha256_spec (m : bytes) : bytes :=
  concat (map (be_bytes 4) (fold_left compress (chunks 64 (sha_pad m)) H0)).

(** ** The buffer holds the unabsorbed tail of the message *)

Record absorbed (state : list Z) (buffer : bytes) (buffered : nat) (m : bytes) : Prop := {
  abs_blocks : ∃ blocks, Forall (λ b, length b = 64%nat) blocks ∧
    state = fold_left compress blocks H0 ∧ m = concat blocks ++ take buffered buffer;
  abs_buffer : length buffer = 64%nat;
  abs_buffered : (buffered < 64)%nat;
}.

Definition streams (s : Sha256) (m : bytes) : Prop :=
  absorbed (sha_state s) (sha_buffer s) (sha_buffered s) m.

Lemma length_copy_at buffer k data :
  (k + length data ≤ length buffer)%nat → length (copy_at buffer k data) = length buffer.
Proof. intros H. unfold copy_at. len_solve. Qed.

Lemma take_copy_at buffer k data :
  (k ≤ length buffer)%nat → take (k + length data) (copy_at buffer k data) = take k buffer ++ data.
Proof.
  intros H. unfold copy_at. rewrite app_assoc. apply take_app_length'. len_solve.
Qed.

(** Writing [data] into the free part of the buffer, flushing when full. *)
Lemma streams_fill s m data :
  streams s m → (sha_buffered s + length data ≤ 64)%nat →
  streams (flush_full (mkSha256 (sha_state s) (copy_at (sha_buffer s) (sha_buffered s) data)
            (sha_buffered s + length data) (sha_total_len s))) (m ++ data).
Proof.
  intros [(blocks & Hb & Hst & Hm) Hl Hn] Hd. unfold flush_full, streams. cbn [sha_buffered].
  destruct (Nat.eqb_spec (sha_buffered s + length data) 64) as [He|He]; cbn; split;
    try (rewrite length_copy_at; lia); try lia.
  - exists (blocks ++ [copy_at (sha_buffer s) (sha_buffered s) data]). repeat split.
    + apply list.Forall_app; split; [done|]. constructor; [|done]. rewrite length_copy_at; lia.
    + by rewrite fold_left_app, Hst.
    + rewrite Hm, concat_app. cbn. rewrite !app_nil_r, <- app_assoc. f_equal.
      rewrite <- take_copy_at by lia. apply take_ge. rewrite length_copy_at; lia.
  - exists blocks. repeat split; [done..|]. rewrite take_copy_at by lia.
    by rewrite app_assoc, <- Hm.
Qed.

Lemma absorb_blocks_spec fuel state data :
  (length data ≤ fuel)%nat →
  ∃ blocks, Forall (λ b, length b = 64%nat) blocks ∧
    (absorb_blocks fuel state data).1 = fold_left compress blocks state ∧
    data = concat blocks ++ (absorb_blocks fuel state data).2 ∧
    (length (absorb_blocks fuel state data).2 < 64)%nat.
Proof.
  revert state data. induction fuel as [|fuel IH]; intros state data Hf; cbn [absorb_blocks].
  - exists []. destruct data; [|cbn in Hf; lia]. repeat split; try constructor. cbn. lia.
  - destruct (Nat.leb_spec 64 (length data)).
    + destruct (IH (compress state (take 64 data)) (drop 64 data)) as (blocks & Hb & H1 & H2 & H3).
      { rewrite length_drop. lia. }
      exists (take 64 data :: blocks). repeat split; [|done| |done].
      * constructor; [|done]. rewrite length_take. lia.
      * cbn [concat]. rewrite <- app_assoc, <- H2. by rewrite take_drop.
    + exists []. by repeat split.
Qed.

(** Absorbing whole blocks when the buffer is empty, and keeping the rest. *)
Lemma streams_absorb state buffer m data total :
  absorbed state buffer 0 m →
  streams (let '(state, data) := absorb_blocks (length data) state data in
           match data with
           | [] => mkSha256 state buffer 0 total
           | _ => mkSha256 state (copy_at buffer 0 data) (length data) total
           end) (m ++ data).
Proof.
  intros [(blocks & Hb & Hst & Hm) Hl Hn].
  destruct (absorb_blocks_spec (length data) state data) as (more & Hm1 & Hm2 & Hm3 & Hm4); [lia|].
  destruct (absorb_blocks (length data) state data) as [state' rest]. cbn [fst snd] in *.
  assert (Heq : m ++ data = concat (blocks ++ more) ++ rest).
  { rewrite Hm3, Hm, concat_app. cbn [take]. by rewrite app_nil_r, <- app_assoc. }
  assert (Hbs : Forall (λ b, length b = 64%nat) (blocks ++ more)) by (by apply list.Forall_app).
  assert (Hst' : state' = fold_left compress (blocks ++ more) H0) by (by rewrite fold_left_app, <- Hst).
  destruct rest as [|x rest].
  - split; [|done|done]. exists (blocks ++ more). repeat split; [done..|]. by rewrite Heq.
  - split; cbn -[length]; [|rewrite length_copy_at; [done|lia]|done].
    exists (blocks ++ more). repeat split; [done..|]. rewrite Heq. f_equal.
    symmetry. pose proof (take_copy_at buffer 0 (x :: rest) ltac:(lia)) as Ht.
    by rewrite take_0 in Ht.
Qed.

Lemma sha256_update_streams s m data : streams s m → streams (sha256_update s data) (m ++ data).
Proof.
  intros Hs. unfold sha256_update. cbv zeta. cbn [sha_buffered sha_state sha_buffer].
  destruct (Nat.ltb_spec 0 (sha_buffered s)) as [Hpos|Hz].
  - set (n := Nat.min _ _). pose proof (abs_buffered _ _ _ _ Hs) as Hlt.
    pose proof (streams_fill (mkSha256 (sha_state s) (sha_buffer s) (sha_buffered s)
      (wadd 64 (sha_total_len s) (wrap 64 (Z.of_nat (length data))))) m (take n data) Hs) as Hfill.
    cbn [sha_state sha_buffer sha_buffered sha_total_len] in Hfill.
    assert (Hn : length (take n data) = n) by (rewrite length_take; unfold n; lia).
    rewrite Hn in Hfill. specialize (Hfill ltac:(unfold n; lia)).
    set (s1 := flush_full _) in *.
    replace (m ++ data) with ((m ++ take n data) ++ drop n data)
      by (by rewrite <- app_assoc, take_drop).
    destruct (drop n data) as [|x rest] eqn:Hd.
    + cbn. rewrite app_nil_r. exact Hfill.
    + assert (sha_buffered s1 = 0%nat) as H0'.
      { assert (length (x :: rest) = (length data - n)%nat) by (rewrite <- Hd; apply length_drop).
        unfold s1, flush_full. cbn [sha_buffered] in *.
        destruct (Nat.eqb_spec (sha_buffered s + n) 64); [done|]. cbn in *. unfold n in *. lia. }
      unfold streams in Hfill. rewrite H0' in *. rewrite <- Hd in *.
      apply (streams_absorb _ _ _ (drop n data)
        (wadd 64 (sha_total_len s) (wrap 64 (Z.of_nat (length data)))) Hfill).
  - assert (H0' : sha_buffered s = 0%nat) by lia. unfold streams in Hs. rewrite H0' in *.
    by apply streams_absorb.
Qed.

(** ** Finalization *)

Lemma absorbed_length state buffer n m :
  absorbed state buffer n m → Z.of_nat n = Z.of_nat (length m) mod 64.
Proof.
  intros [(blocks & Hb & _ & ->) Hl Hn]. rewrite length_app, length_take, Nat.min_l by lia.
  assert (Hc : Z.of_nat (length (concat blocks)) = 64 * Z.of_nat (length blocks)).
  { clear - Hb. induction Hb as [|b bl H Hb IH]; [done|]. cbn [concat length]. rewrite length_app. lia. }
  rewrite Nat2Z.inj_add, Hc, Z.add_comm, Z.mul_comm, Z.mod_add by lia. symmetry. apply Z.mod_small. lia.
Qed.

(** The zero bytes of the padding. *)
Lemma pad_zeros_streams fuel s m :
  streams s m → (Z.to_nat ((56 - Z.of_nat (length m)) mod 64) < fuel)%nat →
  streams (pad_zeros fuel s) (m ++ replicate (Z.to_nat ((56 - Z.of_nat (length m)) mod 64)) Byte.x00) ∧
  sha_buffered (pad_zeros fuel s) = 56%nat.
Proof.
  revert s m. induction fuel as [|fuel IH]; intros s m Hs Hf; [lia|]. cbn [pad_zeros].
  pose proof (absorbed_length _ _ _ _ Hs) as Hlen. pose proof (abs_buffered _ _ _ _ Hs) as Hlt.
  set (L := Z.of_nat (length m)) in *.
  assert (Hmod : (56 - L) mod 64 = (56 - Z.of_nat (sha_buffered s)) mod 64).
  { rewrite Hlen. by rewrite Zminus_mod_idemp_r. }
  destruct (Nat.eqb_spec (sha_buffered s) 56) as [He|He].
  - rewrite Hmod, He. cbn. by rewrite app_nil_r.
  - pose proof (streams_fill s m [Byte.x00] Hs ltac:(cbn; lia)) as H1. cbn [length] in H1.
    assert (Hnext : (56 - Z.of_nat (length (m ++ [Byte.x00]))) mod 64 = (56 - L) mod 64 - 1).
    { rewrite length_app. cbn [length]. rewrite Nat2Z.inj_add. fold L.
      replace (56 - (L + Z.of_nat 1)) with ((56 - L) - 1) by lia.
      rewrite <- Zminus_mod_idemp_l, Hmod.
      assert ((56 - Z.of_nat (sha_buffered s)) mod 64 ≠ 0).
      { intros H0%Z.mod_divide; [|lia]. destruct H0 as [k Hk]. lia. }
      pose proof (Z.mod_pos_bound (56 - Z.of_nat (sha_buffered s)) 64 ltac:(lia)).
      apply Z.mod_small. lia. }
    assert (Hpos : 1 ≤ (56 - L) mod 64).
    { pose proof (Z.mod_pos_bound (56 - Z.of_nat (length (m ++ [Byte.x00]))) 64 ltac:(lia)). lia. }
    destruct (IH _ _ H1) as [H2 H3]; [rewrite Hnext; lia|]. split; [|done].
    rewrite Hnext in H2.
    replace (Z.to_nat ((56 - L) mod 64)) with (S (Z.to_nat ((56 - L) mod 64 - 1))) by lia.
    cbn [replicate]. by rewrite <- app_assoc in H2.
Qed.

Lemma chunks_concat (n : nat) (blocks : list bytes) : (0 < n)%nat →
  Forall (λ b, length b = n) blocks → chunks n (concat blocks) = blocks.
Proof.
  intros Hn Hb. unfold chunks.
  assert (H : ∀ fuel, (length blocks ≤ fuel)%nat → chunks_fuel fuel n (concat blocks) = blocks).
  { induction Hb as [|b bl Hlen Hb IH]; intros fuel Hf; [by destruct fuel|].
    destruct fuel as [|fuel]; cbn in Hf; [lia|]. cbn [concat chunks_fuel].
    destruct b as [|x b]; [cbn in Hlen; lia|]. cbn [app]. change (x :: b ++ concat bl) with ((x :: b) ++ concat bl).
    rewrite take_app_length', drop_app_length' by done. f_equal. apply IH. lia. }
  apply H. clear H. induction Hb as [|b bl Hlen Hb IH]; cbn [concat length]; [lia|].
  rewrite length_app. lia.
Qed.

Lemma total_len_update s data :
  sha_total_len (sha256_update s data) = wadd 64 (sha_total_len s) (wrap 64 (Z.of_nat (length data))).
Proof. unfold sha256_update. repeat case_match; reflexivity. Qed.

Lemma sha256_finalize_spec s m :
  streams s m → sha_total_len s = wrap 64 (Z.of_nat (length m)) →
  sha256_finalize s = sha256_spec m.
Proof.
  intros Hs Hlen. unfold sha256_finalize, sha256_spec. do 2 f_equal.
  pose proof (sha256_update_streams s m [Byte.x80] Hs) as H1.
  set (m1 := m ++ [Byte.x80]) in *.
  destruct (pad_zeros_streams 64 _ _ H1) as [[(blocks & Hb & Hst & Hm) Hl Hn] H56].
  { pose proof (Z.mod_pos_bound (56 - Z.of_nat (length m1)) 64 ltac:(lia)). lia. }
  set (s2 := pad_zeros 64 (sha256_update s [Byte.x80])) in *. rewrite H56 in *.
  assert (Hpad : sha_pad m = concat (blocks ++ [copy_at (sha_buffer s2) 56 (be_bytes 8 (wmul 64 (sha_total_len s) 8))])).
  { unfold sha_pad. rewrite concat_app. cbn [concat]. rewrite app_nil_r. unfold copy_at.
    rewrite length_bytes_be, (drop_ge (sha_buffer s2)) by lia. rewrite app_nil_r, !app_assoc. f_equal.
    - rewrite <- Hm. unfold m1. do 3 f_equal. rewrite length_app. cbn [length]. f_equal. lia.
    - f_equal. rewrite Hlen. unfold wmul, wrap. rewrite Zmult_mod_idemp_l. f_equal. lia. }
  rewrite Hpad, chunks_concat; [|lia|].
  - rewrite fold_left_app, <- Hst. cbn [fold_left]. reflexivity.
  - apply list.Forall_app. split; [done|]. constructor; [|done].
    rewrite length_copy_at; [done|]. rewrite length_bytes_be. lia.
Qed.

(** ** The streaming interface computes the standard, however it is fed *)

Definition sha256_stream (pieces : list bytes) : bytes :=
  sha256_finalize (fold_left sha256_update pieces sha256_new).

Lemma streams_fold pieces s m :
  streams s m → sha_total_len s = wrap 64 (Z.of_nat (length m)) →
  streams (fold_left sha256_update pieces s) (m ++ concat pieces) ∧
  sha_total_len (fold_left sha256_update pieces s) = wrap 64 (Z.of_nat (length (m ++ concat pieces))).
Proof.
  revert s m. induction pieces as [|p pieces IH]; intros s m Hs Hl; cbn.
  - by rewrite app_nil_r.
  - rewrite app_assoc. apply IH; [by apply sha256_update_streams|].
    rewrite total_len_update, Hl. unfold wadd, wrap. rewrite <- Zplus_mod. f_equal.
    rewrite length_app. lia.
Qed.

Lemma streams_new : streams sha256_new [].
Proof. split; [|done|cbn; lia]. exists []. by repeat split. Qed.

Lemma sha256_stream_eq pieces : sha256_stream pieces = sha256_spec (concat pieces).
Proof.
  destruct (streams_fold pieces sha256_new [] streams_new eq_refl) as [H1 H2].
  unfold sha256_stream. rewrite (sha256_finalize_spec _ _ H1 H2). reflexivity.
Qed.

Lemma sha256_eq data : sha256 data = sha256_spec data.
Proof.
  change (sha256 data) with (sha256_stream [data]). rewrite sha256_stream_eq. cbn. by rewrite app_nil_r.
Qed.

(** However a message is cut into pieces, the streaming SHA-256 with its 64-byte buffer equals the padded block fold of FIPS 180-4. *)
Theorem sha256_streaming_matches_spec pieces :
  sha256_stream pieces = sha256_spec (concat pieces) ∧ sha256_stream pieces = sha256 (concat pieces).
Proof. by rewrite sha256_eq, sha256_stream_eq. Qed.

(** ** Digests have 32 bytes *)

Lemma length_concat_map_be (l : list Z) : length (concat (map (be_bytes 4) l)) = (4 * length l)%nat.
Proof. induction l as [|x l IH]; [done|]. cbn [map concat length]. rewrite length_app, length_bytes_be. lia. Qed.

Lemma length_sha256_spec m : length (sha256_spec m) = 32%nat.
Proof.
  unfold sha256_spec. rewrite length_concat_map_be.
  assert (H : ∀ blocks st, length st = 8%nat → length (fold_left compress blocks st) = 8%nat).
  { intros blocks. induction blocks as [|b blocks IH]; intros st Hst; [done|]. by apply IH, length_compress. }
  by rewrite H.
Qed.

Lemma length_sha256 data : length (sha256 data) = 32%nat.
Proof. rewrite sha256_eq. apply length_sha256_spec. Qed.
#[export] Hint Rewrite length_sha256 length_sha256_spec : len.
