(* ===== verification/Hmac.v ===== *)
(** * HMAC, HKDF and PBKDF2 ([ciphra-crypto/src/hmac.rs])

    [HmacSha256] caches the states of the two pads; [mac] resumes them.  The
    theorem is RFC 2104's definition.  [counter] and [block_index] are the
    source's [u8] and [u32] counters with wrap-around. *)

From S2P Require Import Prelude Sha256.

Definition HMAC_BLOCK_LEN : nat := 64.
Definition MAC_LEN : nat := 32.

Record HmacSha256 : Type := mkHmac {
  hmac_inner : Sha256;
  hmac_outer : Sha256;
}.

(** The zero-padded key, or its zero-padded digest when it is too long. *)
Definition key_block (key : bytes) : bytes :=
  let zeros := replicate HMAC_BLOCK_LEN Byte.x00 in
  if (HMAC_BLOCK_LEN <? length key)%nat then copy_at zeros 0 (sha256 key)
  else copy_at zeros 0 key.

Definition pad_with (b : byte) (key : bytes) : bytes :=
  xor_bytes (replicate HMAC_BLOCK_LEN b) (key_block key).

Definition hmac_new (key : bytes) : HmacSha256 :=
  mkHmac (sha256_update sha256_new (pad_with Byte.x36 key))
         (sha256_update sha256_new (pad_with Byte.x5c key)).

Definition hmac_mac (h : HmacSha256) (message : bytes) : bytes :=
  let inner := sha256_update (hmac_inner h) message in
  let outer := sha256_update (hmac_outer h) (sha256_finalize inner) in
  sha256_finalize outer.

Definition hmac_sha256 (key message : bytes) : bytes := hmac_mac (hmac_new key) message.

Definition hkdf_extract (salt ikm : bytes) : bytes := hmac_sha256 salt ikm.

(** [while written < out.len()]; [t] is the previous block. *)
Fixpoint hkdf_loop (fuel : nat) (hmac : HmacSha256) (info t : bytes) (counter : Z)
    (out : bytes) (out_len : nat) : bytes :=
  match fuel with
  | O => out
  | S fuel' =>
      if (length out <? out_len)%nat then
        let block := hmac_mac hmac (t ++ info ++ [byte.of_Z counter]) in
        let n := Nat.min (out_len - length out) MAC_LEN in
        hkdf_loop fuel' hmac info block (wadd 8 counter 1) (out ++ take n block) out_len
      else out
  end.

(** [None] is the assertion on the output length. *)
Definition hkdf_expand (prk info : bytes) (out_len : nat) : option bytes :=
  if (out_len <=? 255 * MAC_LEN)%nat then
    Some (hkdf_loop (S out_len) (hmac_new prk) info [] 1 [] out_len)
  else None.

(** [for _ in 1..iterations]: [u] is re-hashed and folded into [acc]. *)
Fixpoint pbkdf2_iter (n : nat) (hmac : HmacSha256) (u acc : bytes) : bytes :=
  match n with
  | O => acc
  | S n' => let u := hmac_mac hmac u in pbkdf2_iter n' hmac u (xor_bytes acc u)
  end.

Fixpoint pbkdf2_loop (fuel : nat) (hmac : HmacSha256) (salt : bytes) (iterations : nat)
    (block_index : Z) (out : bytes) (out_len : nat) : bytes :=
  match fuel with
  | O => out
  | S fuel' =>
      if (length out <? out_len)%nat then
        let u := hmac_mac hmac (salt ++ be_bytes 4 block_index) in
        let acc := pbkdf2_iter (iterations - 1) hmac u u in
        let n := Nat.min (out_len - length out) MAC_LEN in
        pbkdf2_loop fuel' hmac salt iterations (wadd 32 block_index 1) (out ++ take n acc) out_len
      else out
  end.

(** [None] is the assertion on the iteration count. *)
Definition pbkdf2_sha256 (password salt : bytes) (iterations : Z) (out_len : nat) : option bytes :=
  if 0 <? iterations then
    Some (pbkdf2_loop (S out_len) (hmac_new password) salt (Z.to_nat iterations) 1 [] out_len)
  else None.

(** RFC 4231 test case 2, RFC 5869 test case 1 and a PBKDF2 vector (first bytes). *)
Example hmac_rfc4231 :
  map byte.unsigned (take 4 (hmac_sha256 (bs "Jefe") (bs "what do ya want for nothing?")))
  = [0x5b; 0xdc; 0xc1; 0x46].
Proof. vm_compute. reflexivity. Qed.
Example hkdf_rfc5869 :
  (λ o, map byte.unsigned (take 4 o)) <$>
    hkdf_expand (hkdf_extract (map byte.of_Z [0;1;2;3;4;5;6;7;8;9;10;11;12]) (replicate 22 Byte.x0b))
      (map byte.of_Z [0xf0;0xf1;0xf2;0xf3;0xf4;0xf5;0xf6;0xf7;0xf8;0xf9]) 42
  = Some [0x3c; 0xb2; 0x5f; 0x25].
Proof. vm_compute. reflexivity. Qed.
Example pbkdf2_two_iterations :
  (λ o, map byte.unsigned (take 4 o)) <$> pbkdf2_sha256 (bs "password") (bs "salt") 2 32
  = Some [0xae; 0x4d; 0x0c; 0x95].
Proof. vm_compute. reflexivity. Qed.

(** ** RFC 2104: H(K xor opad, H(K xor ipad, text)) *)

Definition hmac_spec (key message : bytes) : bytes :=
  let k := if (64 <? length key)%nat then sha256_spec key else key in
  let k := k ++ replicate (64 - length k) Byte.x00 in
  sha256_spec (xor_bytes (replicate 64 Byte.x5c) k ++
    sha256_spec (xor_bytes (replicate 64 Byte.x36) k ++ message)).

Lemma key_block_spec key :
  key_block key =
  (let k := if (64 <? length key)%nat then sha256_spec key else key in
   k ++ replicate (64 - length k) Byte.x00).
Proof.
  unfold key_block, HMAC_BLOCK_LEN, copy_at.
  destruct (Nat.ltb_spec 64 (length key)).
  - rewrite take_0, sha256_eq, drop_replicate. reflexivity.
  - rewrite take_0, drop_replicate. reflexivity.
Qed.

Lemma resumed_update p m :
  sha256_finalize (sha256_update (sha256_update sha256_new p) m) = sha256_spec (p ++ m).
Proof.
  change (sha256_stream [p; m] = sha256_spec (p ++ m)). rewrite sha256_stream_eq.
  cbn [concat]. by rewrite app_nil_r.
Qed.

Lemma hmac_eq key message : hmac_sha256 key message = hmac_spec key message.
Proof.
  unfold hmac_sha256, hmac_mac, hmac_new. cbn [hmac_inner hmac_outer].
  rewrite !resumed_update. unfold pad_with. by rewrite key_block_spec.
Qed.

(** HMAC with cached pad states equals the definition of RFC 2104. *)
Theorem hmac_matches_rfc2104 key message : hmac_sha256 key message = hmac_spec key message.
Proof. apply hmac_eq. Qed.

Lemma length_hmac key m : length (hmac_sha256 key m) = 32%nat.
Proof. rewrite hmac_eq. apply length_sha256_spec. Qed.
#[export] Hint Rewrite length_hmac : len.

(** ** RFC 5869: T(i) = HMAC(PRK, T(i-1) || info || i) *)

Fixpoint hkdf_blocks (n : nat) (prk info t : bytes) (i : Z) : bytes :=
  match n with
  | O => []
  | S n' =>
      let block := hmac_spec prk (t ++ info ++ [byte.of_Z i]) in
      block ++ hkdf_blocks n' prk info block (i + 1)
  end.

Lemma byte_of_Z_wrap z : byte.of_Z (wrap 8 z) = byte.of_Z z.
Proof.
  apply byte.unsigned_inj. rewrite !byte.unsigned_of_Z. unfold byte.wrap, wrap. by rewrite Zmod_mod.
Qed.

(** Appending the next block and cutting at the requested length. *)
Lemma take_next_block (out block rest : bytes) (L : nat) :
  length block = 32%nat → (length out < L)%nat →
  out ++ take (L - length out) (block ++ rest) =
  (out ++ take (Nat.min (L - length out) MAC_LEN) block) ++
  take (L - length (out ++ take (Nat.min (L - length out) MAC_LEN) block)) rest.
Proof.
  intros Hb Hl. unfold MAC_LEN. rewrite <- app_assoc. f_equal. rewrite take_app.
  rewrite length_app, length_take. rewrite Hb.
  replace (take (L - length out) block) with (take ((L - length out) `min` 32) block).
  - f_equal. f_equal. lia.
  - destruct (Nat.le_ge_cases (L - length out) 32); [by rewrite Nat.min_l|].
    rewrite Nat.min_r by done. by rewrite !take_ge by lia.
Qed.

Lemma hkdf_loop_spec fuel prk info t c c' out L m :
  byte.of_Z c = byte.of_Z c' →
  (L - length out < fuel)%nat → (L - length out ≤ 32 * m)%nat → (length out ≤ L)%nat →
  hkdf_loop fuel (hmac_new prk) info t c out L =
  out ++ take (L - length out) (hkdf_blocks m prk info t c').
Proof.
  revert t c c' out m. induction fuel as [|fuel IH]; intros t c c' out m Hc Hf Hm Hl; [lia|].
  cbn [hkdf_loop]. destruct (Nat.ltb_spec (length out) L) as [Hlt|Hge].
  - destruct m as [|m]; [lia|]. cbn [hkdf_blocks]. fold (hmac_sha256 prk (t ++ info ++ [byte.of_Z c])).
    rewrite hmac_eq, Hc. set (block := hmac_spec _ _).
    assert (Hb : length block = 32%nat) by apply length_sha256_spec.
    rewrite take_next_block by done. apply IH.
    + unfold wadd. rewrite byte_of_Z_wrap. apply byte.unsigned_inj.
      apply (f_equal byte.unsigned) in Hc. rewrite !byte.unsigned_of_Z in *. unfold byte.wrap in *.
      rewrite <- Zplus_mod_idemp_l, Hc, Zplus_mod_idemp_l. done.
    + rewrite length_app, length_take, Hb. unfold MAC_LEN. lia.
    + rewrite length_app, length_take, Hb. unfold MAC_LEN. lia.
    + rewrite length_app, length_take, Hb. unfold MAC_LEN. lia.
  - replace (L - length out)%nat with 0%nat by lia. by rewrite take_0, app_nil_r.
Qed.

Lemma hkdf_expand_eq prk info L m : (L ≤ 255 * 32)%nat → (L ≤ 32 * m)%nat →
  hkdf_expand prk info L = Some (take L (hkdf_blocks m prk info [] 1)).
Proof.
  intros HL Hm. unfold hkdf_expand. destruct (Nat.leb_spec L (255 * MAC_LEN)); [|unfold MAC_LEN in *; lia].
  f_equal. rewrite (hkdf_loop_spec _ _ _ _ _ 1 _ _ m) by (cbn [length]; done || lia).
  cbn [app length]. by rewrite Nat.sub_0_r.
Qed.

Lemma length_hkdf_blocks n prk info t i : length (hkdf_blocks n prk info t i) = (32 * n)%nat.
Proof.
  revert t i. induction n as [|n IH]; intros t i; [done|]. cbn [hkdf_blocks].
  rewrite length_app, IH. unfold hmac_spec. rewrite length_sha256_spec. lia.
Qed.

Lemma hkdf_expand_32 prk info :
  hkdf_expand prk info 32 = Some (hmac_spec prk (info ++ [Byte.x01])).
Proof.
  rewrite (hkdf_expand_eq _ _ _ 1) by lia. cbn [hkdf_blocks app]. rewrite app_nil_r, take_ge; [done|].
  unfold hmac_spec. by rewrite length_sha256_spec.
Qed.

(** ** RFC 8018: T(i) is the xor of the iterates *)

(** [U_1 xor ... xor U_c] with [U_1 = u]. *)
Fixpoint pbkdf2_F (n : nat) (password u : bytes) : bytes :=
  match n with
  | O => u
  | S n' => xor_bytes u (pbkdf2_F n' password (hmac_spec password u))
  end.

Fixpoint pbkdf2_blocks (n : nat) (password salt : bytes) (c : nat) (i : Z) : bytes :=
  match n with
  | O => []
  | S n' => pbkdf2_F (c - 1) password (hmac_spec password (salt ++ be_bytes 4 i)) ++
            pbkdf2_blocks n' password salt c (i + 1)
  end.

Lemma xor_bytes_assoc a b c : xor_bytes (xor_bytes a b) c = xor_bytes a (xor_bytes b c).
Proof.
  unfold xor_bytes. revert b c. induction a as [|x a IH]; intros [|y b] [|z c]; try done. cbn. f_equal; [|apply IH].
  apply byte.unsigned_inj. unfold byte.xor.
  assert (Hx : ∀ u v, byte.unsigned (byte.of_Z (Z.lxor (byte.unsigned u) (byte.unsigned v))) = Z.lxor (byte.unsigned u) (byte.unsigned v)).
  { intros u v. rewrite byte.unsigned_of_Z. apply wrap_small. apply in_u_lxor; [lia|by apply byte_in_u..]. }
  by rewrite !Hx, Z.lxor_assoc.
Qed.

Lemma pbkdf2_iter_spec n password u acc :
  pbkdf2_iter n (hmac_new password) u acc =
  match n with O => acc | S n' => xor_bytes acc (pbkdf2_F n' password (hmac_spec password u)) end.
Proof.
  revert u acc. induction n as [|n IH]; intros u acc; [done|]. cbn [pbkdf2_iter].
  fold (hmac_sha256 password u). rewrite hmac_eq, IH. destruct n as [|n]; [done|].
  cbn [pbkdf2_F]. by rewrite xor_bytes_assoc.
Qed.

Lemma length_pbkdf2_F n password u : length u = 32%nat → length (pbkdf2_F n password u) = 32%nat.
Proof.
  revert u. induction n as [|n IH]; intros u Hu; [done|]. cbn [pbkdf2_F]. unfold xor_bytes.
  rewrite length_zip_with, IH, Hu; [done|]. apply length_sha256_spec.
Qed.

Lemma be_bytes_wrap w z : be_bytes w (wrap (8 * Z.of_nat w) z) = be_bytes w z.
Proof.
  unfold be_bytes, wrap. f_equal. rewrite (le_split_mod z). f_equal. f_equal. f_equal. lia.
Qed.

Lemma pbkdf2_loop_spec fuel password salt c i i' out L m :
  i mod 2 ^ 32 = i' mod 2 ^ 32 → (1 ≤ c)%nat →
  (L - length out < fuel)%nat → (L - length out ≤ 32 * m)%nat → (length out ≤ L)%nat →
  pbkdf2_loop fuel (hmac_new password) salt c i out L =
  out ++ take (L - length out) (pbkdf2_blocks m password salt c i').
Proof.
  intros Hi Hc. revert i i' Hi out m. induction fuel as [|fuel IH]; intros i i' Hi out m Hf Hm Hl; [lia|].
  cbn [pbkdf2_loop]. destruct (Nat.ltb_spec (length out) L) as [Hlt|Hge].
  - destruct m as [|m]; [lia|]. cbn [pbkdf2_blocks]. fold (hmac_sha256 password (salt ++ be_bytes 4 i)).
    rewrite hmac_eq. assert (be_bytes 4 i = be_bytes 4 i') as ->.
    { rewrite <- (be_bytes_wrap 4 i), <- (be_bytes_wrap 4 i'). f_equal. exact Hi. }
    set (u := hmac_spec password (salt ++ be_bytes 4 i')).
    assert (Hu : length u = 32%nat) by apply length_sha256_spec.
    assert (Hacc : pbkdf2_iter (c - 1) (hmac_new password) u u = pbkdf2_F (c - 1) password u).
    { rewrite pbkdf2_iter_spec. by destruct (c - 1)%nat. }
    rewrite Hacc. pose proof (length_pbkdf2_F (c - 1) password u Hu) as Hb.
    set (block := pbkdf2_F _ _ _) in *.
    rewrite take_next_block by done. apply IH.
    + unfold wadd, wrap. rewrite Zmod_mod. rewrite <- Zplus_mod_idemp_l, Hi, Zplus_mod_idemp_l. done.
    + rewrite length_app, length_take, Hb. unfold MAC_LEN. lia.
    + rewrite length_app, length_take, Hb. unfold MAC_LEN. lia.
    + rewrite length_app, length_take, Hb. unfold MAC_LEN. lia.
  - replace (L - length out)%nat with 0%nat by lia. by rewrite take_0, app_nil_r.
Qed.

Lemma pbkdf2_eq password salt c L m : 1 ≤ c → (L ≤ 32 * m)%nat →
  pbkdf2_sha256 password salt c L = Some (take L (pbkdf2_blocks m password salt (Z.to_nat c) 1)).
Proof.
  intros Hc Hm. unfold pbkdf2_sha256. destruct (Z.ltb_spec 0 c); [|lia]. f_equal.
  rewrite (pbkdf2_loop_spec _ _ _ _ _ 1 _ _ m) by (cbn [length]; done || lia).
  cbn [app length]. by rewrite Nat.sub_0_r.
Qed.

(** The two key-derivation loops compute their RFCs' block formulas, for
    every output length the assertions allow. *)
Theorem kdfs_match_rfcs :
  (∀ prk info L m, (L ≤ 255 * 32)%nat → (L ≤ 32 * m)%nat →
    hkdf_expand prk info L = Some (take L (hkdf_blocks m prk info [] 1))) ∧
  (∀ password salt c L m, 1 ≤ c → (L ≤ 32 * m)%nat →
    pbkdf2_sha256 password salt c L = Some (take L (pbkdf2_blocks m password salt (Z.to_nat c) 1))).
Proof. split; [apply hkdf_expand_eq|apply pbkdf2_eq]. Qed.

Lemma kdfs_match_rfcs_witness :
  hkdf_expand (bs "prk") (bs "info") 42 = Some (take 42 (hkdf_blocks 2 (bs "prk") (bs "info") [] 1)) ∧
  pbkdf2_sha256 (bs "pw") (bs "salt") 3 32 = Some (take 32 (pbkdf2_blocks 1 (bs "pw") (bs "salt") 3 1)).
Proof.
  split.
  - apply (proj1 kdfs_match_rfcs); apply Nat.leb_le; reflexivity.
  - apply (proj2 kdfs_match_rfcs (bs "pw") (bs "salt") 3 32%nat 1%nat); [lia|apply Nat.leb_le; reflexivity].
Defined.
