(* ===== verification/Blake2b.v ===== *)
(** * BLAKE2b

    ciphra-crypto/src/blake2b.rs: the streaming hasher, which keeps a full
    buffer back until more input follows, and the fold of RFC 7693 over the
    message that it computes. *)

From S2P Require Import Prelude Sha256.

Definition IV : list Z :=
  [0x6a09_e667_f3bc_c908; 0xbb67_ae85_84ca_a73b; 0x3c6e_f372_fe94_f82b; 0xa54f_f53a_5f1d_36f1;
   0x510e_527f_ade6_82d1; 0x9b05_688c_2b3e_6c1f; 0x1f83_d9ab_fb41_bd6b; 0x5be0_cd19_137e_2179].

Definition BLAKE_SIGMA : list (list nat) :=
  ([[0; 1; 2; 3; 4; 5; 6; 7; 8; 9; 10; 11; 12; 13; 14; 15];
    [14; 10; 4; 8; 9; 15; 13; 6; 1; 12; 0; 2; 11; 7; 5; 3];
    [11; 8; 12; 0; 5; 2; 15; 13; 10; 14; 3; 6; 7; 1; 9; 4];
    [7; 9; 3; 1; 13; 12; 11; 14; 2; 6; 5; 10; 4; 0; 15; 8];
    [9; 0; 5; 7; 2; 4; 10; 15; 14; 1; 11; 12; 6; 8; 3; 13];
    [2; 12; 6; 10; 0; 11; 8; 3; 4; 13; 7; 5; 15; 14; 1; 9];
    [12; 5; 1; 15; 14; 13; 4; 10; 0; 7; 6; 3; 9; 2; 8; 11];
    [13; 11; 7; 14; 12; 1; 3; 9; 5; 0; 15; 4; 8; 6; 2; 10];
    [6; 15; 14; 9; 11; 3; 0; 8; 12; 2; 13; 7; 1; 4; 10; 5];
    [10; 2; 8; 4; 7; 6; 1; 5; 15; 11; 9; 14; 3; 12; 13; 0]])%nat.

Record Blake2b : Type := mkBlake2b {
  bl_h : list Z;
  bl_t : Z;
  bl_buffer : bytes;
  bl_buffered : nat;
  bl_out_len : nat;
}.

(** ** Compression *)

(** [g]: one quarter of a round on the words at [a], [b], [c], [d]. *)
Definition blake_g (v : list Z) (a b c d : nat) (x y : Z) : list Z :=
  let v := <[a := wadd 64 (wadd 64 (v !!! a) (v !!! b)) x]> v in
  let v := <[d := rotr 64 (Z.lxor (v !!! d) (v !!! a)) 32]> v in
  let v := <[c := wadd 64 (v !!! c) (v !!! d)]> v in
  let v := <[b := rotr 64 (Z.lxor (v !!! b) (v !!! c)) 24]> v in
  let v := <[a := wadd 64 (wadd 64 (v !!! a) (v !!! b)) y]> v in
  let v := <[d := rotr 64 (Z.lxor (v !!! d) (v !!! a)) 16]> v in
  let v := <[c := wadd 64 (v !!! c) (v !!! d)]> v in
  <[b := rotr 64 (Z.lxor (v !!! b) (v !!! c)) 63]> v.

Definition blake_round (m : list Z) (v : list Z) (round : nat) : list Z :=
  let s := BLAKE_SIGMA !!! (round mod 10)%nat in
  let w i := m !!! (s !!! i) in
  let v := blake_g v 0 4 8 12 (w 0%nat) (w 1%nat) in
  let v := blake_g v 1 5 9 13 (w 2%nat) (w 3%nat) in
  let v := blake_g v 2 6 10 14 (w 4%nat) (w 5%nat) in
  let v := blake_g v 3 7 11 15 (w 6%nat) (w 7%nat) in
  let v := blake_g v 0 5 10 15 (w 8%nat) (w 9%nat) in
  let v := blake_g v 1 6 11 12 (w 10%nat) (w 11%nat) in
  let v := blake_g v 2 7 8 13 (w 12%nat) (w 13%nat) in
  blake_g v 3 4 9 14 (w 14%nat) (w 15%nat).

Definition blake_compress (h : list Z) (t : Z) (block : bytes) (last : bool) : list Z :=
  let m := map from_le (chunks 8 block) in
  let v := h ++ IV in
  let v := <[12%nat := Z.lxor (v !!! 12%nat) (wrap 64 t)]> v in
  let v := <[13%nat := Z.lxor (v !!! 13%nat) (wrap 64 (Z.shiftr t 64))]> v in
  let v := if last then <[14%nat := wnot 64 (v !!! 14%nat)]> v else v in
  let v := fold_left (blake_round m) (seq 0 12) v in
  imap (λ i w, Z.lxor w (Z.lxor (v !!! i) (v !!! (i + 8)%nat))) h.

Lemma length_blake_compress h t block last : length (blake_compress h t block last) = length h.
Proof. unfold blake_compress. by rewrite length_imap. Qed.

(** ** Streaming *)

(** [Blake2b::new]; [out_len] is asserted to be in 1..=64. *)
Definition blake_new (out_len : nat) : Blake2b :=
  mkBlake2b (<[0%nat := Z.lxor (IV !!! 0%nat) (Z.lxor 0x0101_0000 (Z.of_nat out_len))]> IV) 0
    (replicate 128 Byte.x00) 0 out_len.

(** The loop of [update]; each round takes at least one byte. *)
Fixpoint blake_update_loop (fuel : nat) (s : Blake2b) (data : bytes) : Blake2b :=
  match fuel, data with
  | O, _ | _, [] => s
  | S fuel', _ =>
      let s :=
        if (bl_buffered s =? 128)%nat then
          mkBlake2b (blake_compress (bl_h s) (bl_t s + 128) (bl_buffer s) false) (bl_t s + 128)
            (bl_buffer s) 0 (bl_out_len s)
        else s in
      let n := Nat.min (128 - bl_buffered s) (length data) in
      blake_update_loop fuel'
        (mkBlake2b (bl_h s) (bl_t s) (copy_at (bl_buffer s) (bl_buffered s) (take n data))
           (bl_buffered s + n) (bl_out_len s))
        (drop n data)
  end.

Definition blake_update (s : Blake2b) (data : bytes) : Blake2b := blake_update_loop (length data) s data.

Definition blake_finalize (s : Blake2b) : bytes :=
  let block := take (bl_buffered s) (bl_buffer s) ++ replicate (128 - bl_buffered s) Byte.x00 in
  let h := blake_compress (bl_h s) (bl_t s + Z.of_nat (bl_buffered s)) block true in
  take (bl_out_len s) (concat (map (le_bytes 8) h)).

Definition blake2b (out_len : nat) (data : bytes) : bytes :=
  blake_finalize (blake_update (blake_new out_len) data).

Example blake2b_abc :
  map byte.unsigned (take 4 (blake2b 64 (bs "abc"))) = [0xba; 0x80; 0xa5; 0x3f].
Proof. vm_compute. reflexivity. Qed.

Example blake2b_empty :
  map byte.unsigned (take 4 (blake2b 64 [])) = [0x78; 0x6a; 0x02; 0xf7].
Proof. vm_compute. reflexivity. Qed.

#[global] Opaque blake_compress.

(** ** The specification: RFC 7693, section 3.3 *)

(** All blocks but the last, counting bytes; the last one padded with zeros
    and flagged, also when it is full or empty. *)
Fixpoint blake_fold (fuel : nat) (h : list Z) (t : Z) (data : bytes) : list Z :=
  match fuel with
  | O => h
  | S fuel' =>
      if (length data <=? 128)%nat then
        blake_compress h (t + Z.of_nat (length data))
          (data ++ replicate (128 - length data) Byte.x00) true
      else blake_fold fuel' (blake_compress h (t + 128) (take 128 data) false) (t + 128) (drop 128 data)
  end.

Definition blake2b_spec (out_len : nat) (data : bytes) : bytes :=
  take out_len (concat (map (le_bytes 8)
    (blake_fold (S (length data)) (bl_h (blake_new out_len)) 0 data))).

Abbreviation bfold h t data := (blake_fold (S (length data)) h t data).

Lemma blake_fold_fuel n m h t data :
  (length data < n)%nat → (length data < m)%nat → blake_fold n h t data = blake_fold m h t data.
Proof.
  revert m h t data. induction n as [|n IH]; intros [|m] h t data Hn Hm; try lia. cbn [blake_fold].
  destruct (Nat.leb_spec (length data) 128); [done|]. apply IH; rewrite length_drop; lia.
Qed.

Lemma bfold_last h t data :
  (length data ≤ 128)%nat →
  bfold h t data = blake_compress h (t + Z.of_nat (length data))
                     (data ++ replicate (128 - length data) Byte.x00) true.
Proof. intros Hd. cbn [blake_fold]. by rewrite (proj2 (Nat.leb_le _ _)). Qed.

Lemma bfold_block h t block data :
  length block = 128%nat → data ≠ [] →
  bfold h t (block ++ data) = bfold (blake_compress h (t + 128) block false) (t + 128) data.
Proof.
  intros Hb Hd. assert (0 < length data)%nat by (destruct data; [done|cbn; lia]).
  rewrite (blake_fold_fuel (S (length data)) (length (block ++ data))) by (rewrite ?length_app; lia).
  cbn [blake_fold]. rewrite (proj2 (Nat.leb_gt _ _)) by (rewrite length_app; lia).
  by rewrite take_app_length', drop_app_length'.
Qed.

(** ** Streaming computes the fold *)

(** What is left of the message once the hasher has taken [d]: the buffer, and
    whatever follows.  A full buffer is not compressed before more follows. *)
Record blake_absorbed (s0 s : Blake2b) (d : bytes) : Prop := {
  ba_len : length (bl_buffer s) = 128%nat;
  ba_room : (bl_buffered s ≤ 128)%nat;
  ba_some : bl_buffered s = 0%nat → d = [];
  ba_out : bl_out_len s = bl_out_len s0;
  ba_fold more : bfold (bl_h s0) 0 (d ++ more)
    = bfold (bl_h s) (bl_t s) (take (bl_buffered s) (bl_buffer s) ++ more);
}.

Lemma blake_absorbed_new out_len : blake_absorbed (blake_new out_len) (blake_new out_len) [].
Proof. by split; cbn; try lia. Qed.

Lemma take_copy_at_app (buffer : bytes) at_ data :
  (at_ + length data ≤ length buffer)%nat →
  take (at_ + length data) (copy_at buffer at_ data) = take at_ buffer ++ data.
Proof.
  intros Hl. unfold copy_at. rewrite app_assoc. apply take_app_length'.
  rewrite length_app, length_take. lia.
Qed.

Lemma blake_step_absorbed s0 s d x :
  blake_absorbed s0 s d → x ≠ [] → (bl_buffered s + length x ≤ 128)%nat →
  blake_absorbed s0 (mkBlake2b (bl_h s) (bl_t s) (copy_at (bl_buffer s) (bl_buffered s) x)
    (bl_buffered s + length x) (bl_out_len s)) (d ++ x).
Proof.
  intros [Hlen Hroom _ Hout Hfold] Hx Hfit. assert (0 < length x)%nat by (destruct x; [done|cbn; lia]).
  split; cbn [bl_buffer bl_buffered bl_out_len bl_h bl_t]; [by rewrite length_copy_at by lia| |lia|done|].
  - lia.
  - intros more. rewrite <- app_assoc, Hfold, take_copy_at_app by lia. by rewrite <- app_assoc.
Qed.

(** Flushing a full buffer, with the input [x] that is about to follow. *)
Lemma blake_flush_absorbed s0 s d x :
  blake_absorbed s0 s d → bl_buffered s = 128%nat → x ≠ [] → (length x ≤ 128)%nat →
  blake_absorbed s0 (mkBlake2b (blake_compress (bl_h s) (bl_t s + 128) (bl_buffer s) false) (bl_t s + 128)
    (copy_at (bl_buffer s) 0 x) (length x) (bl_out_len s)) (d ++ x).
Proof.
  intros [Hlen Hroom _ Hout Hfold] Hfull Hx Hfit. assert (0 < length x)%nat by (destruct x; [done|cbn; lia]).
  split; cbn [bl_buffer bl_buffered bl_out_len bl_h bl_t]; [by rewrite length_copy_at by lia| |lia|done|].
  - lia.
  - intros more. rewrite <- app_assoc, Hfold, Hfull, take_ge by lia.
    rewrite bfold_block by (done || by destruct x).
    pose proof (take_copy_at_app (bl_buffer s) 0 x ltac:(lia)) as Ht. rewrite take_0 in Ht.
    cbn [Nat.add app] in Ht. by rewrite Ht.
Qed.

Lemma blake_loop_absorbed s0 fuel s d data :
  blake_absorbed s0 s d → (length data ≤ fuel)%nat →
  blake_absorbed s0 (blake_update_loop fuel s data) (d ++ data).
Proof.
  revert s d data. induction fuel as [|fuel IH]; intros s d data Hs Hf.
  { destruct data; [by rewrite app_nil_r|cbn in Hf; lia]. }
  destruct data as [|b data']; [by rewrite app_nil_r|]. set (data := b :: data') in *.
  assert (0 < length data)%nat as Hpos by (cbn; lia).
  change (blake_absorbed s0 (blake_update_loop (S fuel) s data) (d ++ data)).
  cbn [blake_update_loop]. fold data. unfold data at 1.
  destruct (Nat.eqb_spec (bl_buffered s) 128) as [Hfull|Hfree]; cbn [bl_buffered bl_buffer bl_h bl_t bl_out_len].
  - set (n := Nat.min (128 - 0) (length data)).
    replace (d ++ data) with ((d ++ take n data) ++ drop n data) by (by rewrite <- app_assoc, take_drop).
    assert (Hn : length (take n data) = n) by (rewrite length_take; lia).
    apply IH; [|rewrite length_drop; lia].
    assert (Hx : take n data ≠ []) by (intros E; rewrite E in Hn; cbn in Hn; lia).
    pose proof (blake_flush_absorbed s0 s d (take n data) Hs Hfull Hx ltac:(lia)) as Hb.
    rewrite Hn in Hb. exact Hb.
  - set (n := Nat.min (128 - bl_buffered s) (length data)).
    replace (d ++ data) with ((d ++ take n data) ++ drop n data) by (by rewrite <- app_assoc, take_drop). pose proof (ba_room _ _ _ Hs).
    assert (Hn : length (take n data) = n) by (rewrite length_take; lia).
    apply IH; [|rewrite length_drop; lia].
    assert (Hx : take n data ≠ []) by (intros E; rewrite E in Hn; cbn in Hn; lia).
    pose proof (blake_step_absorbed s0 s d (take n data) Hs Hx ltac:(lia)) as Hb.
    rewrite Hn in Hb. exact Hb.
Qed.

Lemma blake_update_absorbed s0 s d data :
  blake_absorbed s0 s d → blake_absorbed s0 (blake_update s data) (d ++ data).
Proof. intros Hs. by apply blake_loop_absorbed. Qed.

Lemma blake_finalize_absorbed s0 s d :
  blake_absorbed s0 s d →
  blake_finalize s = take (bl_out_len s0) (concat (map (le_bytes 8) (bfold (bl_h s0) 0 d))).
Proof.
  intros [Hlen Hroom _ Hout Hfold]. unfold blake_finalize. rewrite Hout.
  specialize (Hfold []). rewrite !app_nil_r in Hfold. rewrite Hfold.
  assert (Hl : length (take (bl_buffered s) (bl_buffer s)) = bl_buffered s) by (rewrite length_take; lia).
  rewrite bfold_last by lia. by rewrite Hl.
Qed.

Lemma blake_pieces_absorbed s0 s d pieces :
  blake_absorbed s0 s d → blake_absorbed s0 (fold_left blake_update pieces s) (d ++ concat pieces).
Proof.
  revert s d. induction pieces as [|x pieces IH]; intros s d Hs; cbn [fold_left concat]; [by rewrite app_nil_r|].
  rewrite app_assoc. apply IH. by apply blake_update_absorbed.
Qed.

Lemma blake2b_eq out_len data : blake2b out_len data = blake2b_spec out_len data.
Proof.
  exact (blake_finalize_absorbed _ _ _ (blake_update_absorbed _ _ [] data (blake_absorbed_new out_len))).
Qed.

(** However a message is cut into pieces, the streaming hasher, which holds a
    full buffer back until more input follows, computes the block fold of
    RFC 7693 over the whole message. *)
Theorem blake2b_streaming_matches_spec out_len pieces :
  blake_finalize (fold_left blake_update pieces (blake_new out_len)) = blake2b_spec out_len (concat pieces).
Proof. exact (blake_finalize_absorbed _ _ _ (blake_pieces_absorbed _ _ [] pieces (blake_absorbed_new out_len))). Qed.

Lemma length_blake_fold fuel h t data : length (blake_fold fuel h t data) = length h.
Proof.
  revert h t data. induction fuel as [|fuel IH]; intros h t data; cbn [blake_fold]; [done|].
  destruct (length data <=? 128)%nat; [apply length_blake_compress|]. rewrite IH. apply length_blake_compress.
Qed.

Lemma length_words64 (l : list Z) : length (concat (map (le_bytes 8) l)) = (8 * length l)%nat.
Proof. induction l as [|x l IH]; [done|]. cbn [map concat length]. rewrite length_app, length_bytes_le. lia. Qed.

Lemma length_blake2b out_len data : (out_len ≤ 64)%nat → length (blake2b out_len data) = out_len.
Proof.
  intros Ho. rewrite blake2b_eq. unfold blake2b_spec.
  rewrite length_take, length_words64, length_blake_fold. cbn [blake_new bl_h]. rewrite length_insert.
  change (length IV) with 8%nat. lia.
Qed.
