(* ===== verification/ChaCha20.v ===== *)
(** * The ChaCha20 stream cipher ([ciphra-crypto/src/chacha20.rs])

    The 16-word state is a list; [quarter_round] updates it by index.  The
    keystream xor is an involution that keeps the length, and enciphers
    every position with the keystream byte of its block. *)

From S2P Require Import Prelude.

Definition CHACHA_BLOCK_LEN : nat := 64.
Definition SIGMA : list Z := [0x61707865; 0x3320646e; 0x79622d32; 0x6b206574].

Definition quarter_round (a b c d : nat) (state : list Z) : list Z :=
  let state := <[a := wadd 32 (state !!! a) (state !!! b)]> state in
  let state := <[d := rotl 32 (Z.lxor (state !!! d) (state !!! a)) 16]> state in
  let state := <[c := wadd 32 (state !!! c) (state !!! d)]> state in
  let state := <[b := rotl 32 (Z.lxor (state !!! b) (state !!! c)) 12]> state in
  let state := <[a := wadd 32 (state !!! a) (state !!! b)]> state in
  let state := <[d := rotl 32 (Z.lxor (state !!! d) (state !!! a)) 8]> state in
  let state := <[c := wadd 32 (state !!! c) (state !!! d)]> state in
  <[b := rotl 32 (Z.lxor (state !!! b) (state !!! c)) 7]> state.

Definition double_round (working : list Z) : list Z :=
  let working := quarter_round 0 4 8 12 working in
  let working := quarter_round 1 5 9 13 working in
  let working := quarter_round 2 6 10 14 working in
  let working := quarter_round 3 7 11 15 working in
  let working := quarter_round 0 5 10 15 working in
  let working := quarter_round 1 6 11 12 working in
  let working := quarter_round 2 7 8 13 working in
  quarter_round 3 4 9 14 working.

(** The initial state: constants, key, counter, nonce. *)
Definition chacha_init (key : bytes) (counter : Z) (nonce : bytes) : list Z :=
  SIGMA ++ map from_le (chunks 4 key) ++ [counter] ++ map from_le (chunks 4 nonce).

(** One 64-byte keystream block. *)
Definition chacha_block (key : bytes) (counter : Z) (nonce : bytes) : bytes :=
  let state := chacha_init key counter nonce in
  let working := Nat.iter 10 double_round state in
  concat (zip_with (λ w s, le_bytes 4 (wadd 32 w s)) working state).

(** [data.chunks_mut(64).enumerate()]: chunk [i] is xored with block
    [counter + i]. *)
Definition xor_stream (key nonce : bytes) (counter : Z) (data : bytes) : bytes :=
  concat (imap (λ i chunk,
    xor_bytes chunk (chacha_block key (wadd 32 counter (wrap 32 (Z.of_nat i))) nonce))
    (chunks CHACHA_BLOCK_LEN data)).

(** RFC 8439, 2.3.2. *)
Example chacha_block_rfc8439 :
  map byte.unsigned (take 8 (chacha_block (map (λ n, byte.of_Z (Z.of_nat n)) (seq 0 32)) 1
    (map byte.of_Z [0; 0; 0; 9; 0; 0; 0; 0x4a; 0; 0; 0; 0])))
  = [0x10; 0xf1; 0xe7; 0xe4; 0xd1; 0x3b; 0x59; 0x15].
Proof. vm_compute. reflexivity. Qed.

(** ** The keystream xor *)

Lemma length_quarter_round a b c d s : length (quarter_round a b c d s) = length s.
Proof. unfold quarter_round. by rewrite !length_insert. Qed.

Lemma length_double_round s : length (double_round s) = length s.
Proof. unfold double_round. by rewrite !length_quarter_round. Qed.

Lemma length_iter_double_round k s : length (Nat.iter k double_round s) = length s.
Proof. induction k as [|k IH]; [done|]. by rewrite Nat.iter_succ, length_double_round. Qed.

Lemma length_chunks4 (l : bytes) k : length l = (4 * k)%nat → length (chunks 4 l) = k.
Proof.
  revert l. induction k as [|k IH]; intros l Hl; [by destruct l|].
  rewrite chunks_step by (lia || (intros ->; cbn in Hl; lia)). cbn [length].
  rewrite IH; [done|]. rewrite length_drop. lia.
Qed.

(** A key of 32 bytes and a nonce of 12 give blocks of 64. *)
Definition wf_key (key nonce : bytes) : Prop := length key = 32%nat ∧ length nonce = 12%nat.

Lemma length_chacha_block key counter nonce :
  wf_key key nonce → length (chacha_block key counter nonce) = 64%nat.
Proof.
  intros [Hk Hn]. unfold chacha_block. rewrite (length_concat_const _ 4).
  - rewrite length_zip_with, length_iter_double_round. unfold chacha_init.
    rewrite !length_app, !length_map, (length_chunks4 key 8), (length_chunks4 nonce 3) by done. done.
  - apply list.Forall_forall. intros x Hx. apply list_elem_of_lookup in Hx as [i Hi].
    apply lookup_zip_with_Some in Hi as (w & s & -> & _). apply length_bytes_le.
Qed.

Lemma byte_xor_unsigned a b : byte.unsigned (byte.xor a b) = Z.lxor (byte.unsigned a) (byte.unsigned b).
Proof.
  unfold byte.xor. rewrite byte.unsigned_of_Z. apply wrap_small.
  apply in_u_lxor; [lia|by apply byte_in_u..].
Qed.

Lemma xor_bytes_cancel (a k : bytes) : (length a ≤ length k)%nat → xor_bytes (xor_bytes a k) k = a.
Proof.
  unfold xor_bytes. revert k. induction a as [|x a IH]; intros [|y k] Hl; cbn in *; try lia; try done.
  f_equal; [|apply IH; lia]. apply byte.unsigned_inj.
  rewrite !byte_xor_unsigned, Z.lxor_assoc, Z.lxor_nilpotent. apply Z.lxor_0_r.
Qed.

(** The keystream from block [i] on, as a function of the data alone. *)
Section stream.
Context (ks : nat → bytes) (Hks : ∀ i, length (ks i) = 64%nat).

Definition stream_from (i : nat) (data : bytes) : bytes :=
  concat (imap (λ j chunk, xor_bytes chunk (ks (i + j)%nat)) (chunks CHACHA_BLOCK_LEN data)).

Lemma stream_from_step i data : data ≠ [] →
  stream_from i data = xor_bytes (take 64 data) (ks i) ++ stream_from (S i) (drop 64 data).
Proof using.
  intros Hd. unfold stream_from at 1. rewrite chunks_step by (done || unfold CHACHA_BLOCK_LEN; lia).
  cbn [imap concat]. rewrite Nat.add_0_r. f_equal. unfold stream_from. f_equal.
  apply imap_ext. intros j c _. cbn. f_equal. f_equal. lia.
Qed.

Lemma length_xor_take data i : length (xor_bytes (take 64 data) (ks i)) = Nat.min 64 (length data).
Proof using Hks. unfold xor_bytes. rewrite length_zip_with, length_take, Hks. lia. Qed.

Lemma length_stream_from i data : length (stream_from i data) = length data.
Proof using Hks.
  revert i. induction data as [|data Hd IH] using (chunk_ind 64 ltac:(lia)); intros i; [done|].
  rewrite stream_from_step by done. rewrite length_app, length_xor_take, IH, length_drop. lia.
Qed.

Lemma stream_from_involutive i data : stream_from i (stream_from i data) = data.
Proof using Hks.
  revert i. induction data as [|data Hd IH] using (chunk_ind 64 ltac:(lia)); intros i; [done|].
  assert (Hne : stream_from i data ≠ []).
  { intros H. apply (f_equal length) in H. rewrite length_stream_from in H. by destruct data. }
  rewrite stream_from_step by done.
  destruct (Nat.le_gt_cases (length data) 64) as [Hle|Hgt].
  - assert (Hs : stream_from i data = xor_bytes data (ks i)).
    { rewrite stream_from_step by done. rewrite take_ge, drop_ge by lia. by rewrite app_nil_r. }
    assert (Hl : length (xor_bytes data (ks i)) = length data).
    { rewrite <- Hs. apply length_stream_from. }
    rewrite Hs, take_ge, drop_ge by lia. cbn. rewrite app_nil_r.
    apply xor_bytes_cancel. rewrite Hks. lia.
  - rewrite (stream_from_step i data) by done.
    assert (Hl : length (xor_bytes (take 64 data) (ks i)) = 64%nat) by (rewrite length_xor_take; lia).
    rewrite take_app_length', drop_app_length' by done. rewrite IH.
    rewrite xor_bytes_cancel by (rewrite length_take, Hks; lia). apply take_drop.
Qed.

(** Position [p] is enciphered with byte [p mod 64] of block [i + p / 64]. *)
Lemma stream_from_lookup i data p x : data !! p = Some x →
  stream_from i data !! p = Some (byte.xor x (ks (i + p / 64)%nat !!! (p mod 64)%nat)).
Proof using Hks.
  revert i p. induction data as [|data Hd IH] using (chunk_ind 64 ltac:(lia)); intros i p Hp; [done|].
  rewrite stream_from_step by done. pose proof (lookup_lt_Some _ _ _ Hp) as Hlt.
  destruct (Nat.lt_ge_cases p 64) as [Hs|Hl].
  - rewrite lookup_app_l by (rewrite length_xor_take; lia).
    rewrite Nat.div_small, Nat.mod_small, Nat.add_0_r by done. unfold xor_bytes.
    rewrite lookup_zip_with, lookup_take_lt by done. rewrite Hp. cbn.
    destruct (lookup_lt_is_Some_2 (ks i) p) as [k Hk]; [by rewrite Hks|].
    rewrite Hk. cbn. by rewrite (list_lookup_total_correct _ _ _ Hk).
  - rewrite lookup_app_r by (rewrite length_xor_take; lia). rewrite length_xor_take.
    replace (Nat.min 64 (length data)) with 64%nat by lia. rewrite (IH (S i) (p - 64)%nat).
    + replace p with ((p - 64) + 1 * 64)%nat at 3 4 by lia.
      rewrite Nat.div_add, Nat.Div0.mod_add by lia. do 4 f_equal. lia.
    + rewrite lookup_drop. rewrite <- Hp. f_equal. lia.
Qed.

End stream.

Lemma xor_stream_from key nonce counter data :
  xor_stream key nonce counter data =
  stream_from (λ i, chacha_block key (wadd 32 counter (wrap 32 (Z.of_nat i))) nonce) 0 data.
Proof. reflexivity. Qed.

Lemma length_xor_stream key nonce counter data :
  wf_key key nonce → length (xor_stream key nonce counter data) = length data.
Proof. intros H. rewrite xor_stream_from. apply length_stream_from. intros i. by apply length_chacha_block. Qed.

Lemma xor_stream_cancel key nonce counter data :
  wf_key key nonce → xor_stream key nonce counter (xor_stream key nonce counter data) = data.
Proof.
  intros H. rewrite !xor_stream_from. apply stream_from_involutive. intros i. by apply length_chacha_block.
Qed.

(** The stream xor is its own inverse, keeps the length, and enciphers byte
    [p] with byte [p mod 64] of the block numbered [counter + p / 64]. *)
Theorem xor_stream_correct key nonce counter data :
  wf_key key nonce →
  xor_stream key nonce counter (xor_stream key nonce counter data) = data ∧
  length (xor_stream key nonce counter data) = length data ∧
  ∀ p x, data !! p = Some x →
    xor_stream key nonce counter data !! p =
      Some (byte.xor x (chacha_block key (wadd 32 counter (wrap 32 (Z.of_nat (p / 64)))) nonce !!! (p mod 64)%nat)).
Proof.
  intros H. split; [by apply xor_stream_cancel|]. split; [by apply length_xor_stream|].
  intros p x Hp. rewrite xor_stream_from.
  apply (stream_from_lookup (λ i, chacha_block key (wadd 32 counter (wrap 32 (Z.of_nat i))) nonce)); [|done].
  intros i. by apply length_chacha_block.
Qed.

Lemma xor_stream_correct_witness :
  let key := replicate 32 Byte.x07 in
  let nonce := replicate 12 Byte.x01 in
  xor_stream key nonce 1 (xor_stream key nonce 1 (bs "attack at dawn")) = bs "attack at dawn".
Proof. exact (proj1 (xor_stream_correct (replicate 32 Byte.x07) (replicate 12 Byte.x01) 1 (bs "attack at dawn") (conj eq_refl eq_refl))). Defined.
