(* ===== verification/Poly1305.v ===== *)
(** * The Poly1305 authenticator ([ciphra-crypto/src/poly1305.rs])

    Seventeen 8-bit limbs held in [u32]s: addition with carries, the
    product with its two partial reductions, the final freeze, and the
    theorem that all of it computes RFC 8439's polynomial modulo
    [2^130 - 5]. *)

From S2P Require Import Prelude.

Definition limb (l : list Z) (i : nat) : Z := l !!! i.

(** ** The code *)

(** One limb of a carry chain: the limb kept and the carry passed on. *)
Fixpoint carry_limbs (carry : Z) (l : list Z) : list Z * Z :=
  match l with
  | [] => ([], carry)
  | x :: l' =>
      let carry := wadd 32 carry x in
      let '(rest, out) := carry_limbs (Z.shiftr carry 8) l' in
      (Z.land carry 255 :: rest, out)
  end.

(** [add(h, c)]: the carry chain over the limbwise sums. *)
Definition poly_add (h c : list Z) : list Z := (carry_limbs 0 (zip_with (wadd 32) h c)).1.

(** [sum] of the inner loop, for limb [i] of the product. *)
Definition mul_sum (h r : list Z) (i : nat) : Z :=
  fold_left (λ sum j,
    wadd 32 sum (wmul 32 (limb h j)
      (if (j <=? i)%nat then limb r (i - j) else wmul 32 320 (limb r (i + 17 - j)))))
    (seq 0 17) 0.

(** One partial reduction: carries into limb 16, whose bits above 2 come
    back multiplied by 5 at limb 0. *)
Definition reduce_pass (x : list Z) : list Z :=
  let '(low, carry) := carry_limbs 0 (take 16 x) in
  let carry := wadd 32 carry (limb x 16) in
  let top := Z.land carry 3 in
  let carry := wmul 32 5 (Z.shiftr carry 2) in
  match low with
  | x0 :: low' => wadd 32 x0 carry :: low' ++ [top]
  | [] => [top]
  end.

Definition mul_mod (h r : list Z) : list Z :=
  let x := map (mul_sum h r) (seq 0 17) in
  let x := reduce_pass (reduce_pass x) in
  (carry_limbs 0 x).1.

(** The clamped [r]: 17 limbs. *)
Definition poly_r (key : bytes) : list Z :=
  let r := map byte.unsigned (take 16 key) ++ [0] in
  let mask i m r := <[i := Z.land (limb r i) m]> r in
  mask 15%nat 15 (mask 12%nat 252 (mask 11%nat 15 (mask 8%nat 252
    (mask 7%nat 15 (mask 4%nat 252 (mask 3%nat 15 r)))))).

(** A block of at most 16 bytes and the 0x01 appended to it. *)
Definition poly_block (b : bytes) : list Z :=
  map byte.unsigned b ++ [1] ++ replicate (16 - length b) 0.

Fixpoint poly_loop (fuel : nat) (r h : list Z) (rest : bytes) : list Z :=
  match fuel, rest with
  | _, [] => h
  | O, _ => h
  | S fuel', _ =>
      let n := Nat.min (length rest) 16 in
      poly_loop fuel' r (mul_mod (poly_add h (poly_block (take n rest))) r) (drop n rest)
  end.

Definition MINUS_P : list Z := [5; 0; 0; 0; 0; 0; 0; 0; 0; 0; 0; 0; 0; 0; 0; 0; 252].

(** [wrapping_neg] of the borrow bit: all ones when [h < p]. *)
Definition freeze (h : list Z) : list Z :=
  let g := h in
  let h := poly_add h MINUS_P in
  let mask := wsub 32 0 (Z.shiftr (limb h 16) 7) in
  zip_with (λ hi gi, Z.lxor hi (Z.land mask (Z.lxor gi hi))) h g.

Definition poly1305 (message key : bytes) : bytes :=
  let h := poly_loop (length message) (poly_r key) (replicate 17 0) message in
  let h := freeze h in
  let s := map byte.unsigned (take 16 (drop 16 key)) ++ [0] in
  map byte.of_Z (take 16 (poly_add h s)).

(** [tags_equal]: no early exit. *)
Definition tags_equal (a b : bytes) : bool :=
  fold_left Z.lor (zip_with (λ x y, Z.lxor (byte.unsigned x) (byte.unsigned y)) a b) 0 =? 0.

Example poly_rfc8439 :
  map byte.unsigned (poly1305 (bs "Cryptographic Forum Research Group")
    (map byte.of_Z [0x85;0xd6;0xbe;0x78;0x57;0x55;0x6d;0x33;0x7f;0x44;0x52;0xfe;0x42;0xd5;0x06;0xa8;
                    0x01;0x03;0x80;0x8a;0xfb;0x0d;0xb2;0xfd;0x4a;0xbf;0xf6;0xaf;0x41;0x49;0xf5;0x1b]))
  = [0xa8;0x06;0x1d;0xc1;0x30;0x51;0x36;0xc6;0xc2;0x2b;0x8b;0xaf;0x0c;0x01;0x27;0xa9].
Proof. vm_compute. reflexivity. Qed.

(** ** RFC 8439, 2.5 *)

Definition P1305 : Z := 2 ^ 130 - 5.

(** The accumulator after the message's 16-byte blocks. *)
Fixpoint poly_acc (fuel : nat) (r acc : Z) (rest : bytes) : Z :=
  match fuel, rest with
  | _, [] => acc
  | O, _ => acc
  | S fuel', _ =>
      let b := take 16 rest in
      poly_acc fuel' r (((acc + (from_le b + 2 ^ (8 * Z.of_nat (length b)))) * r) mod P1305)
        (drop 16 rest)
  end.

Definition clamp (r : Z) : Z := Z.land r 0x0ffffffc0ffffffc0ffffffc0fffffff.

Definition poly1305_spec (message key : bytes) : bytes :=
  let r := clamp (from_le (take 16 key)) in
  let s := from_le (take 16 (drop 16 key)) in
  le_bytes 16 (poly_acc (length message) r 0 message + s).

(** ** Values of limb vectors *)

Fixpoint limbs_val (l : list Z) : Z :=
  match l with
  | [] => 0
  | x :: l' => x + 256 * limbs_val l'
  end.

Definition small_limbs (l : list Z) : Prop := Forall (λ x, 0 ≤ x < 256) l.

Lemma limbs_val_app l k : limbs_val (l ++ k) = limbs_val l + 256 ^ Z.of_nat (length l) * limbs_val k.
Proof.
  induction l as [|x l IH]; cbn [app limbs_val length]; [lia|].
  rewrite IH, Nat2Z.inj_succ, Z.pow_succ_r by lia. ring.
Qed.

Lemma limbs_val_bound l : small_limbs l → 0 ≤ limbs_val l < 256 ^ Z.of_nat (length l).
Proof.
  induction 1 as [|x l Hx Hl IH]; cbn [limbs_val length]; [lia|].
  rewrite Nat2Z.inj_succ, Z.pow_succ_r by lia. lia.
Qed.

Lemma limbs_val_bytes (b : bytes) : limbs_val (map byte.unsigned b) = from_le b.
Proof.
  unfold from_le. induction b as [|x b IH]; [done|]. cbn [map limbs_val LittleEndianList.le_combine].
  assert (Hdisj : Z.land (byte.unsigned x) (Z.shiftl (LittleEndianList.le_combine b) 8) = 0).
  { apply Z.bits_inj'. intros i Hi. rewrite Z.land_spec, Z.bits_0, Z.shiftl_spec by lia.
    destruct (Z.ltb_spec i 8).
    - rewrite (Z.testbit_neg_r _ (i - 8)) by lia. apply andb_false_r.
    - rewrite <- (byte.wrap_unsigned x). unfold byte.wrap. by rewrite Z.mod_pow2_bits_high by lia. }
  pose proof (Z.add_lor_land (byte.unsigned x) (Z.shiftl (LittleEndianList.le_combine b) 8)) as Ha.
  change (LittleEndianList.le_combine (x :: b))
    with (Z.lor (byte.unsigned x) (Z.shiftl (LittleEndianList.le_combine b) 8)).
  rewrite Hdisj, Z.add_0_r in Ha. rewrite Ha, IH, Z.shiftl_mul_pow2 by lia. lia.
Qed.

Lemma limbs_val_zip_add h c : length h = length c →
  limbs_val (zip_with Z.add h c) = limbs_val h + limbs_val c.
Proof.
  revert c. induction h as [|x h IH]; intros [|y c] Hl; try done. cbn in *. rewrite IH by lia. lia.
Qed.

Lemma land_255 x : Z.land x 255 = x mod 256.
Proof. change 255 with (Z.ones 8). by rewrite Z.land_ones by lia. Qed.

Lemma land_3 x : Z.land x 3 = x mod 4.
Proof. change 3 with (Z.ones 2). by rewrite Z.land_ones by lia. Qed.

Lemma shiftr_8 x : Z.shiftr x 8 = x / 256.
Proof. by rewrite Z.shiftr_div_pow2 by lia. Qed.

Lemma shiftr_2 x : Z.shiftr x 2 = x / 4.
Proof. by rewrite Z.shiftr_div_pow2 by lia. Qed.

(** The carry chain keeps the value, makes the limbs small, and its carry is
    bounded by the limbs' bound; [B] leaves room for the carries in a [u32]. *)
Lemma carry_limbs_spec l carry B :
  0 ≤ carry ≤ B → Forall (λ x, 0 ≤ x ≤ B) l → 2 * B < 2 ^ 32 →
  limbs_val (carry_limbs carry l).1 + 256 ^ Z.of_nat (length l) * (carry_limbs carry l).2
    = carry + limbs_val l ∧
  small_limbs (carry_limbs carry l).1 ∧ length (carry_limbs carry l).1 = length l ∧
  0 ≤ (carry_limbs carry l).2 ≤ B.
Proof.
  intros Hc Hl HB. revert carry Hc. induction Hl as [|x l Hx Hl IH]; intros carry Hc; cbn [carry_limbs].
  - cbn. repeat split; try constructor; lia.
  - assert (Hw : wadd 32 carry x = carry + x) by (apply wrap_small; split; lia). rewrite Hw.
    rewrite shiftr_8, land_255. set (t := carry + x).
    assert (Ht : 0 ≤ t ≤ 2 * B) by lia.
    pose proof (Z.div_mod t 256 ltac:(lia)) as Hdm. pose proof (Z.mod_pos_bound t 256 ltac:(lia)) as Hm.
    assert (Hq : 0 ≤ t / 256 ≤ B).
    { split; [apply Z.div_pos; lia|]. apply Z.div_le_upper_bound; lia. }
    destruct (IH (t / 256) Hq) as (H1 & H2 & H3 & H4).
    destruct (carry_limbs (t / 256) l) as [rest out]. cbn [fst snd limbs_val length] in *.
    split; [|split; [by constructor; [lia|]|lia]].
    rewrite Nat2Z.inj_succ, Z.pow_succ_r by lia. lia.
Qed.

(** With no carry out, the value is exact. *)
Lemma carry_limbs_exact l B :
  Forall (λ x, 0 ≤ x ≤ B) l → 0 ≤ B → 2 * B < 2 ^ 32 → limbs_val l < 256 ^ Z.of_nat (length l) →
  limbs_val (carry_limbs 0 l).1 = limbs_val l.
Proof.
  intros Hl HB0 HB Hv. destruct (carry_limbs_spec l 0 B ltac:(lia) Hl HB) as (H1 & H2 & H3 & H4).
  pose proof (limbs_val_bound _ H2) as Hb. rewrite H3 in Hb.
  revert H1 H4 Hb Hv. generalize (256 ^ Z.of_nat (length l)) as M, (carry_limbs 0 l).2 as c.
  intros M c H1 H4 Hb Hv. assert (c = 0) by nia. subst. lia.
Qed.

Lemma zip_wadd_small h c :
  small_limbs h → small_limbs c → zip_with (wadd 32) h c = zip_with Z.add h c ∧
  Forall (λ x, 0 ≤ x ≤ 510) (zip_with Z.add h c).
Proof.
  intros Hh. revert c. induction Hh as [|x h Hx Hh IH]; intros c Hc; [by split; [|constructor]|].
  destruct c as [|y c]; [by split; [|constructor]|]. apply list.Forall_cons in Hc as [Hy Hc].
  destruct (IH c Hc) as [IH1 IH2]. cbn. rewrite IH1. split.
  - f_equal. apply wrap_small. split; lia.
  - constructor; [lia|done].
Qed.

(** Addition is exact up to the 17 limbs. *)
Lemma poly_add_spec h c :
  small_limbs h → small_limbs c → length h = 17%nat → length c = 17%nat →
  small_limbs (poly_add h c) ∧ length (poly_add h c) = 17%nat ∧
  limbs_val (poly_add h c) = (limbs_val h + limbs_val c) mod 256 ^ 17.
Proof.
  intros Hh Hc Lh Lc. unfold poly_add. destruct (zip_wadd_small h c Hh Hc) as [-> Hs].
  destruct (carry_limbs_spec _ 0 510 ltac:(lia) Hs ltac:(lia)) as (H1 & H2 & H3 & H4).
  assert (Hz : length (zip_with Z.add h c) = 17%nat) by (rewrite length_zip_with; lia).
  rewrite Hz in *. split; [done|]. split; [done|].
  rewrite limbs_val_zip_add in H1 by lia. change (Z.of_nat 17) with 17 in H1.
  pose proof (limbs_val_bound _ H2) as Hb. rewrite H3 in Hb. change (Z.of_nat 17) with 17 in Hb.
  apply Z.mod_unique with (carry_limbs 0 (zip_with Z.add h c)).2; [by left|lia].
Qed.

(** ** The product *)

(** The two parts of limb [i]: products landing in it, and those that
    overflow limb 16 and come back multiplied by 320. *)
Definition sum_over (f : nat → Z) (l : list nat) : Z := fold_right (λ j acc, f j + acc) 0 l.
Definition lo_sum (h r : list Z) (i : nat) : Z :=
  sum_over (λ j, if (j <=? i)%nat then limb h j * limb r (i - j) else 0) (seq 0 17).
Definition hi_sum (h r : list Z) (i : nat) : Z :=
  sum_over (λ j, if (j <=? i)%nat then 0 else limb h j * limb r (i + 17 - j)) (seq 0 17).

Definition mul_bound : Z := 17 * (255 * (320 * 255)).

Lemma limb_small l i : small_limbs l → 0 ≤ limb l i ≤ 255.
Proof.
  intros H. unfold limb. destruct (l !! i) as [x|] eqn:Hi.
  - rewrite (list_lookup_total_correct _ _ _ Hi). apply (Forall_lookup_1 _ _ _ _ H) in Hi. lia.
  - rewrite list_lookup_total_alt, Hi. cbn. lia.
Qed.

(** A sum of bounded terms does not wrap. *)
Lemma fold_wadd_exact (f g : nat → Z) (T : Z) (l : list nat) (a : Z) :
  (∀ j, j ∈ l → 0 ≤ f j ≤ T ∧ g j = f j) → 0 ≤ a → 0 ≤ T →
  a + T * Z.of_nat (length l) < 2 ^ 32 →
  fold_left (λ s j, wadd 32 s (g j)) l a = a + sum_over f l ∧
  0 ≤ sum_over f l ≤ T * Z.of_nat (length l).
Proof.
  intros Hf Ha HT. revert a Ha. induction l as [|j l IH]; intros a Ha Hb; [cbn; lia|].
  destruct (Hf j ltac:(set_solver)) as [Hj Hg]. cbn [fold_left length] in *.
  assert (Hw : wadd 32 a (g j) = a + f j) by (rewrite Hg; apply wrap_small; split; nia).
  rewrite Hw. destruct (IH ltac:(set_solver) (a + f j) ltac:(lia) ltac:(nia)) as [H1 H2].
  rewrite H1. unfold sum_over in *. cbn [fold_right]. split; nia.
Qed.

Lemma sum_over_plus (f g : nat → Z) l : sum_over (λ j, f j + g j) l = sum_over f l + sum_over g l.
Proof. unfold sum_over. induction l as [|j l IH]; cbn; lia. Qed.

Lemma sum_over_scale (c : Z) (f : nat → Z) l : sum_over (λ j, c * f j) l = c * sum_over f l.
Proof. unfold sum_over. induction l as [|j l IH]; cbn; lia. Qed.

Lemma sum_over_ext (f g : nat → Z) l : (∀ j, f j = g j) → sum_over f l = sum_over g l.
Proof. intros H. unfold sum_over. induction l as [|j l IH]; cbn; [done|]. by rewrite H, IH. Qed.

Lemma mul_sum_spec h r i :
  small_limbs h → small_limbs r →
  mul_sum h r i = lo_sum h r i + 320 * hi_sum h r i ∧ 0 ≤ mul_sum h r i ≤ mul_bound.
Proof.
  intros Hh Hr. unfold mul_sum.
  set (f j := limb h j * (if (j <=? i)%nat then limb r (i - j) else 320 * limb r (i + 17 - j))).
  destruct (fold_wadd_exact f (λ j, wmul 32 (limb h j)
      (if (j <=? i)%nat then limb r (i - j) else wmul 32 320 (limb r (i + 17 - j))))
      (255 * (320 * 255)) (seq 0 17) 0) as [H1 H2]; [|lia|lia|cbn; lia|].
  - intros j _. unfold f. pose proof (limb_small h j Hh). pose proof (limb_small r (i - j) Hr).
    pose proof (limb_small r (i + 17 - j) Hr).
    destruct (j <=? i)%nat; (split; [nia|]).
    + apply wrap_small. split; nia.
    + unfold wmul. rewrite (wrap_small 32 (320 * _)) by (split; nia). apply wrap_small. split; nia.
  - cbv beta in H1. rewrite H1, Z.add_0_l. split; [|exact H2].
    unfold lo_sum, hi_sum. rewrite <- sum_over_scale, <- sum_over_plus. apply sum_over_ext.
    intros j. unfold f. destruct (j <=? i)%nat; ring.
Qed.

(** Schoolbook multiplication of 17-limb numbers. *)
Lemma schoolbook h r : length h = 17%nat → length r = 17%nat →
  limbs_val (map (lo_sum h r) (seq 0 17)) + 256 ^ 17 * limbs_val (map (hi_sum h r) (seq 0 17))
  = limbs_val h * limbs_val r.
Proof.
  intros Hh Hr.
  do 17 (destruct h as [|? h]; [discriminate Hh|]). destruct h; [|discriminate Hh].
  do 17 (destruct r as [|? r]; [discriminate Hr|]). destruct r; [|discriminate Hr].
  cbv [seq map lo_sum hi_sum sum_over fold_right Nat.leb Nat.sub Nat.add limb limbs_val
       lookup_total list_lookup_total].
  ring.
Qed.

Lemma P1305_wrap : 256 ^ 17 = 320 + 64 * P1305.
Proof. reflexivity. Qed.

Lemma mul_sums_spec h r :
  small_limbs h → small_limbs r → length h = 17%nat → length r = 17%nat →
  let x := map (mul_sum h r) (seq 0 17) in
  limbs_val x mod P1305 = (limbs_val h * limbs_val r) mod P1305 ∧
  Forall (λ y, 0 ≤ y ≤ mul_bound) x ∧ length x = 17%nat.
Proof.
  intros Hh Hr Lh Lr x. split; [|split; [|done]].
  - rewrite <- schoolbook by done.
    assert (Hx : limbs_val x = limbs_val (map (lo_sum h r) (seq 0 17)) + 320 * limbs_val (map (hi_sum h r) (seq 0 17))).
    { unfold x. clear - Hh Hr. induction (seq 0 17) as [|i l IH]; [done|]. cbn [map limbs_val].
      rewrite IH, (proj1 (mul_sum_spec h r i Hh Hr)). ring. }
    rewrite Hx, P1305_wrap. rewrite Z.mul_add_distr_r, Z.add_assoc, <- (Z.mul_assoc 64), (Z.mul_comm 64).
    rewrite <- Z.mul_assoc, (Z.mul_comm P1305). by rewrite Z.mod_add by done.
  - unfold x. apply Forall_map, list.Forall_forall. intros i _. by apply mul_sum_spec.
Qed.

(** ** The reductions *)

(** One pass on 17 limbs: [carry] is what leaves limb 15, [t] what reaches
    limb 16; the value drops by [P1305] times the overflow. *)
Lemma reduce_pass_spec x B C :
  length x = 17%nat → Forall (λ y, 0 ≤ y ≤ B) x → 4 * B < 2 ^ 32 → 255 ≤ B →
  limbs_val (take 16 x) < (C + 1) * 256 ^ 16 → limb x 16 + C ≤ 2 * B → 0 ≤ C →
  let q := (limb x 16 + C) / 4 in
  length (reduce_pass x) = 17%nat ∧
  limbs_val (reduce_pass x) mod P1305 = limbs_val x mod P1305 ∧
  0 ≤ limb (reduce_pass x) 0 ≤ 255 + 5 * q ∧
  Forall (λ y, 0 ≤ y ≤ 255) (tail (reduce_pass x)) ∧
  0 ≤ limb (reduce_pass x) 16 ≤ 3.
Proof.
  intros Lx Hx HB HB255 HC HC2 HC0 q. unfold reduce_pass.
  assert (Hsplit : x = take 16 x ++ [limb x 16]).
  { rewrite <- (take_drop 16 x) at 1. f_equal.
    assert (length (drop 16 x) = 1%nat) by (rewrite length_drop; lia).
    unfold limb. destruct (drop 16 x) as [|y [|]] eqn:Hd; try done.
    f_equal. assert (x !! 16%nat = Some y) as Hy by (by rewrite <- (Nat.add_0_r 16), <- lookup_drop, Hd).
    by rewrite (list_lookup_total_correct _ _ _ Hy). }
  assert (Ht : Forall (λ y, 0 ≤ y ≤ B) (take 16 x)) by (by apply Forall_take).
  assert (Hx16 : 0 ≤ limb x 16 ≤ B) by (rewrite Hsplit in Hx; apply list.Forall_app in Hx as [_ Hx];
    by apply list.Forall_cons in Hx as [? _]).
  destruct (carry_limbs_spec (take 16 x) 0 B ltac:(lia) Ht ltac:(lia)) as (H1 & H2 & H3 & H4).
  assert (Lt : length (take 16 x) = 16%nat) by (rewrite length_take; lia). rewrite Lt in *.
  destruct (carry_limbs 0 (take 16 x)) as [low carry]. cbn [fst snd] in *.
  change (Z.of_nat 16) with 16 in *.
  pose proof (limbs_val_bound _ H2) as Hlow. rewrite H3 in Hlow. change (Z.of_nat 16) with 16 in Hlow.
  assert (HcC : carry ≤ C) by nia.
  assert (Hw : wadd 32 carry (limb x 16) = carry + limb x 16) by (apply wrap_small; split; lia).
  rewrite Hw, land_3, shiftr_2. set (t := carry + limb x 16).
  pose proof (Z.div_mod t 4 ltac:(lia)) as Hdm. pose proof (Z.mod_pos_bound t 4 ltac:(lia)) as Hm.
  assert (Hq : 0 ≤ t / 4 ≤ q).
  { split; [apply Z.div_pos; lia|]. apply Z.div_le_mono; lia. }
  assert (HqB : q ≤ B / 2).
  { unfold q. transitivity (2 * B / 4); [apply Z.div_le_mono; lia|].
    replace (2 * B) with (B * 2) by lia. change 4 with (2 * 2). rewrite Z.div_mul_cancel_r by lia. lia. }
  assert (HB2 : 2 * (B / 2) ≤ B) by (apply Z.mul_div_le; lia).
  assert (Hmul : wmul 32 5 (t / 4) = 5 * (t / 4)) by (apply wrap_small; split; lia). rewrite Hmul.
  destruct low as [|x0 low]; [discriminate H3|]. apply list.Forall_cons in H2 as [Hx0 H2].
  assert (Hadd : wadd 32 x0 (5 * (t / 4)) = x0 + 5 * (t / 4)) by (apply wrap_small; split; lia).
  rewrite Hadd. cbn [length] in H3.
  assert (Ltop : (x0 + 5 * (t / 4) :: low ++ [t mod 4]) !! 16%nat = Some (t mod 4)).
  { change ((low ++ [t mod 4]) !! 15%nat = Some (t mod 4)). rewrite lookup_app_r by lia.
    by replace (15 - length low)%nat with 0%nat by lia. }
  split; [cbn [length]; rewrite length_app; cbn; lia|]. split.
  - rewrite Hsplit at 1. rewrite limbs_val_app, Lt. change (Z.of_nat 16) with 16.
    cbn [limbs_val] in *. rewrite limbs_val_app. replace (length low) with 15%nat by lia.
    change (Z.of_nat 15) with 15. cbn [limbs_val].
    replace (x0 + 5 * (t / 4) + 256 * (limbs_val low + 256 ^ 15 * (t mod 4 + 256 * 0)))
      with ((limbs_val (take 16 x) + 256 ^ 16 * (limb x 16 + 256 * 0)) + (- (t / 4)) * P1305).
    { by rewrite Z.mod_add by done. }
    unfold P1305. change (2 ^ 130) with (4 * 256 ^ 16). change (256 ^ 16) with (256 * 256 ^ 15) in *. lia.
  - split; [unfold limb; cbn; lia|]. split.
    + cbn [tail]. apply list.Forall_app. split.
      * eapply list.Forall_impl; [exact H2|]. cbv beta. intros. lia.
      * constructor; [lia|done].
    + unfold limb. rewrite (list_lookup_total_correct _ _ _ Ltop). lia.
Qed.

(** Values of 17 limbs bounded limb by limb. *)
Lemma limbs_val_le x0 l b :
  Forall (λ y, 0 ≤ y ≤ 255) l → 0 ≤ x0 ≤ b →
  0 ≤ limbs_val (x0 :: l) ≤ b + (256 ^ Z.of_nat (S (length l)) - 256).
Proof.
  intros Hl Hx. cbn [limbs_val].
  assert (small_limbs l) as Hs by (eapply list.Forall_impl; [exact Hl|]; cbv beta; intros; lia).
  pose proof (limbs_val_bound l Hs). rewrite Nat2Z.inj_succ, Z.pow_succ_r by lia. lia.
Qed.

(** What limb 0 can hold after the first pass. *)
Definition mul_bound2 : Z := 5 * (mul_bound / 2) + 255.

Lemma mul_mod_spec h r :
  small_limbs h → small_limbs r → length h = 17%nat → length r = 17%nat →
  small_limbs (mul_mod h r) ∧ length (mul_mod h r) = 17%nat ∧
  limbs_val (mul_mod h r) mod P1305 = (limbs_val h * limbs_val r) mod P1305 ∧
  0 ≤ limbs_val (mul_mod h r) ≤ P1305 + 9.
Proof.
  intros Hh Hr Lh Lr. unfold mul_mod.
  destruct (mul_sums_spec h r Hh Hr Lh Lr) as (Hv & Hx & Lx).
  set (x := map (mul_sum h r) (seq 0 17)) in *. cbv zeta in Hv.
  (* first pass *)
  assert (Hc : limbs_val (take 16 x) < (mul_bound + 1) * 256 ^ 16).
  { assert (Ht : Forall (λ y, 0 ≤ y ≤ mul_bound) (take 16 x)) by (by apply Forall_take).
    destruct (carry_limbs_spec (take 16 x) 0 mul_bound ltac:(unfold mul_bound; lia) Ht ltac:(unfold mul_bound; lia)) as (H1 & H2 & H3 & H4).
    pose proof (limbs_val_bound _ H2) as Hb. rewrite H3 in Hb.
    assert (Lt : length (take 16 x) = 16%nat) by (rewrite length_take; lia). rewrite Lt in *.
    change (Z.of_nat 16) with 16 in *. unfold mul_bound in *. lia. }
  assert (Hx16 : 0 ≤ limb x 16 ≤ mul_bound).
  { unfold limb. destruct (lookup_lt_is_Some_2 x 16) as [y Hy]; [lia|].
    rewrite (list_lookup_total_correct _ _ _ Hy). by apply (Forall_lookup_1 _ _ _ _ Hx Hy). }
  destruct (reduce_pass_spec x mul_bound mul_bound Lx Hx) as (L1 & V1 & B1 & T1 & X1);
    [unfold mul_bound in *; lia..|].
  set (y := reduce_pass x) in *.
  assert (Hq1 : (limb x 16 + mul_bound) / 4 ≤ mul_bound / 2).
  { change (mul_bound / 2) with (2 * mul_bound / 4). apply Z.div_le_mono; lia. }
  (* second pass *)
  destruct y as [|y0 y'] eqn:Ey; [discriminate L1|]. cbn [tail] in T1.
  change (limb (y0 :: y') 0) with y0 in B1.
  assert (Hy0 : 0 ≤ y0 ≤ mul_bound2) by (unfold mul_bound in *; change (17 * (255 * (320 * 255)) / 2) with 176868000 in Hq1; change mul_bound2 with 884340255; lia).
  assert (Hy : Forall (λ z, 0 ≤ z ≤ mul_bound2) (y0 :: y')).
  { constructor; [done|]. eapply list.Forall_impl; [exact T1|]. cbv beta. intros z Hz.
    change (mul_bound2) with 884340255. lia. }
  assert (Hc2 : limbs_val (take 16 (y0 :: y')) < (1 + 1) * 256 ^ 16).
  { cbn [take]. assert (Ht : Forall (λ z, 0 ≤ z ≤ 255) (take 15 y')) by (by apply Forall_take).
    pose proof (limbs_val_le y0 (take 15 y') _ Ht Hy0) as Hb.
    cbn [length] in L1. rewrite length_take, Nat.min_l in Hb by lia.
    change (mul_bound2) with 884340255 in Hb. change (Z.of_nat 16) with 16 in Hb. lia. }
  destruct (reduce_pass_spec (y0 :: y') (mul_bound2) 1 L1 Hy) as (L2 & V2 & B2 & T2 & X2);
    try (change (mul_bound2) with 884340255; lia).
  assert (Hq2 : (limb (y0 :: y') 16 + 1) / 4 ≤ 1).
  { change 1 with (4 / 4) at 2. apply Z.div_le_mono; lia. }
  set (z := reduce_pass (y0 :: y')) in *.
  destruct z as [|z0 z'] eqn:Ez; [discriminate L2|]. cbn [tail] in T2.
  change (limb (z0 :: z') 0) with z0 in B2.
  (* the final carries *)
  assert (Hz : Forall (λ w, 0 ≤ w ≤ 260) (z0 :: z')).
  { constructor; [lia|]. eapply list.Forall_impl; [exact T2|]. cbv beta. intros. lia. }
  assert (Hzv : 0 ≤ limbs_val (z0 :: z') ≤ P1305 + 9).
  { cbn [length] in L2. destruct (z' !! 15%nat) as [top|] eqn:Htop.
    2: { apply lookup_ge_None in Htop. lia. }
    assert (Hz' : z' = take 15 z' ++ [top]).
    { rewrite <- (take_drop_middle z' 15 top Htop) at 1. rewrite (drop_ge z' 16) by lia. done. }
    assert (Htop3 : 0 ≤ top ≤ 3).
    { unfold limb in X2. rewrite (list_lookup_total_correct (z0 :: z') 16 top) in X2 by done. lia. }
    assert (Ht : Forall (λ z, 0 ≤ z ≤ 255) (take 15 z')) by (by apply Forall_take).
    pose proof (limbs_val_le z0 (take 15 z') 260 Ht ltac:(lia)) as Hb.
    rewrite length_take, Nat.min_l in Hb by lia. change (Z.of_nat 16) with 16 in Hb.
    rewrite Hz'. change (z0 :: take 15 z' ++ [top]) with ((z0 :: take 15 z') ++ [top]).
    rewrite limbs_val_app. cbn [length]. rewrite length_take, Nat.min_l by lia.
    change (Z.of_nat 16) with 16. cbn [limbs_val] in *. unfold P1305. change (2 ^ 130) with (4 * 256 ^ 16). lia. }
  destruct (carry_limbs_spec (z0 :: z') 0 260 ltac:(lia) Hz ltac:(lia)) as (H1 & H2 & H3 & H4).
  rewrite L2 in H3.
  pose proof (carry_limbs_exact (z0 :: z') 260 Hz ltac:(lia) ltac:(lia)) as He.
  rewrite L2 in He. change (Z.of_nat 17) with 17 in He.
  rewrite He by (unfold P1305 in Hzv; lia).
  split; [done|]. split; [done|]. split; [|done]. by rewrite V2, V1.
Qed.

(** ** Freeze *)

Lemma limbs_val_top l n : length l = S n →
  limbs_val l = limbs_val (take n l) + 256 ^ Z.of_nat n * limb l n.
Proof.
  intros Hl. destruct (lookup_lt_is_Some_2 l n) as [x Hx]; [lia|].
  rewrite <- (take_drop_middle l n x Hx) at 1. rewrite drop_ge by lia.
  rewrite limbs_val_app, length_take, Nat.min_l by lia. cbn [limbs_val].
  unfold limb. rewrite (list_lookup_total_correct _ _ _ Hx). lia.
Qed.

Lemma zip_with_keep (f : Z → Z → Z) (h g : list Z) :
  length h = length g → Forall2 (λ x y, f x y = x) h g → zip_with f h g = h.
Proof. intros _ H. induction H as [|x y h g Hxy H IH]; cbn; [done|]. by rewrite Hxy, IH. Qed.

Lemma zip_with_take_other (f : Z → Z → Z) (h g : list Z) :
  length h = length g → Forall2 (λ x y, f x y = y) h g → zip_with f h g = g.
Proof. intros _ H. induction H as [|x y h g Hxy H IH]; cbn; [done|]. by rewrite Hxy, IH. Qed.

Lemma MINUS_P_val : limbs_val MINUS_P = 256 ^ 17 - P1305.
Proof. reflexivity. Qed.

Lemma freeze_spec h :
  small_limbs h → length h = 17%nat → limbs_val h < 2 * P1305 →
  small_limbs (freeze h) ∧ length (freeze h) = 17%nat ∧ limbs_val (freeze h) = limbs_val h mod P1305.
Proof.
  intros Hh Lh Hv. unfold freeze.
  assert (HM : small_limbs MINUS_P) by (repeat constructor; lia).
  destruct (poly_add_spec h MINUS_P Hh HM Lh eq_refl) as (Hs & Ls & Vs).
  set (h' := poly_add h MINUS_P) in *. rewrite MINUS_P_val in Vs.
  pose proof (limbs_val_bound h Hh) as Hb. pose proof (limbs_val_top h' 16 Ls) as Htop.
  pose proof (limbs_val_bound (take 16 h') ltac:(by apply Forall_take)) as Hlow.
  rewrite length_take, Nat.min_l in Hlow by lia. change (Z.of_nat 16) with 16 in *.
  pose proof (limb_small h' 16 Hs) as Hl16.
  assert (HP : P1305 = 4 * 256 ^ 16 - 5) by reflexivity.
  assert (HP0 : 0 < P1305) by reflexivity.
  rewrite Z.shiftr_div_pow2 by lia. change (2 ^ 7) with 128.
  destruct (Z.ltb_spec (limbs_val h) P1305) as [Hlt|Hge].
  - assert (limbs_val h' = limbs_val h + (256 ^ 17 - P1305)) as Hv'.
    { rewrite Vs. apply Z.mod_small. change (256 ^ 17) with (256 * 256 ^ 16). lia. }
    assert (H252 : 252 ≤ limb h' 16).
    { change (256 ^ 17) with (256 * 256 ^ 16) in Hv'. nia. }
    assert (limb h' 16 / 128 = 1) as -> by (symmetry; apply Z.div_unique_pos with (limb h' 16 - 128); lia).
    change (wsub 32 0 1) with (Z.ones 32).
    rewrite (zip_with_take_other _ h' h); [|lia|].
    + split; [done|]. split; [done|]. symmetry. apply Z.mod_small. lia.
    + apply Forall2_same_length_lookup_2; [lia|]. intros i x y Hx Hy.
      apply (Forall_lookup_1 _ _ _ _ Hs) in Hx. apply (Forall_lookup_1 _ _ _ _ Hh) in Hy.
      rewrite (Z.land_comm (Z.ones 32)).
      rewrite (proj1 (in_u_land 32 (Z.lxor y x) ltac:(lia))) by (apply in_u_lxor; [lia|split; lia..]).
      by rewrite (Z.lxor_comm y x), <- Z.lxor_assoc, Z.lxor_nilpotent, Z.lxor_0_l.
  - assert (limbs_val h' = limbs_val h - P1305) as Hv'.
    { rewrite Vs. symmetry. apply Z.mod_unique_pos with 1; [|lia].
      change (256 ^ 17) with (256 * 256 ^ 16). lia. }
    assert (Hsmall : limb h' 16 < 4) by nia.
    assert (limb h' 16 / 128 = 0) as -> by (apply Z.div_small; lia).
    change (wsub 32 0 0) with 0.
    rewrite (zip_with_keep _ h' h); [|lia|].
    + split; [done|]. split; [done|]. rewrite Hv'. apply Z.mod_unique_pos with 1; lia.
    + apply Forall2_same_length_lookup_2; [lia|]. intros i x y Hx Hy. by rewrite Z.land_0_l, Z.lxor_0_r.
Qed.

(** ** Blocks, the key, and the loop *)

Lemma small_bytes (b : bytes) : small_limbs (map byte.unsigned b).
Proof. apply Forall_map, list.Forall_forall. intros x _. apply byte.unsigned_range. Qed.

Lemma poly_block_spec b : (length b ≤ 16)%nat →
  small_limbs (poly_block b) ∧ length (poly_block b) = 17%nat ∧
  limbs_val (poly_block b) = from_le b + 2 ^ (8 * Z.of_nat (length b)).
Proof.
  intros Hb. unfold poly_block. split; [|split].
  - apply list.Forall_app. split; [apply small_bytes|]. constructor; [lia|]. by apply Forall_replicate.
  - rewrite !length_app, length_map, length_replicate. cbn. lia.
  - rewrite !limbs_val_app, length_map, limbs_val_bytes. cbn [limbs_val length].
    assert (Hz : ∀ k, limbs_val (replicate k 0) = 0) by (induction k as [|k IH]; cbn; lia).
    rewrite Hz. change 256 with (2 ^ 8). rewrite <- Z.pow_mul_r by lia. lia.
Qed.

(** Bitwise and, limb by limb. *)
Lemma land_limbs x y u v : 0 ≤ x < 256 → 0 ≤ y < 256 →
  Z.land (x + 256 * u) (y + 256 * v) = Z.land x y + 256 * Z.land u v.
Proof.
  intros Hx Hy. set (z := Z.land (x + 256 * u) (y + 256 * v)).
  assert (Hdiv : ∀ a b, 0 ≤ a < 256 → (a + 256 * b) / 256 = b).
  { intros a b Ha. symmetry. apply Z.div_unique_pos with a; lia. }
  assert (Hmod : ∀ a b, 0 ≤ a < 256 → (a + 256 * b) mod 256 = a).
  { intros a b Ha. symmetry. apply Z.mod_unique_pos with b; lia. }
  rewrite (Z.div_mod z 256) by lia. rewrite Z.add_comm. f_equal.
  - rewrite <- land_255. unfold z.
    transitivity (Z.land (Z.land (x + 256 * u) 255) (Z.land (y + 256 * v) 255)).
    + apply Z.bits_inj'. intros n _. rewrite !Z.land_spec.
      by destruct (Z.testbit (x + 256 * u) n), (Z.testbit (y + 256 * v) n), (Z.testbit 255 n).
    + by rewrite !land_255, !Hmod.
  - f_equal. rewrite <- shiftr_8. unfold z. rewrite Z.shiftr_land, !shiftr_8, !Hdiv by done. done.
Qed.

Definition r_masks : list Z :=
  [255; 255; 255; 15; 252; 255; 255; 15; 252; 255; 255; 15; 252; 255; 255; 15; 0].

Lemma limbs_val_land l m : small_limbs l → small_limbs m → length l = length m →
  limbs_val (zip_with Z.land l m) = Z.land (limbs_val l) (limbs_val m).
Proof.
  intros Hl. revert m. induction Hl as [|x l Hx Hl IH]; intros [|y m] Hm Hlen; try done.
  apply list.Forall_cons in Hm as [Hy Hm]. cbn [zip_with limbs_val].
  rewrite IH by (done || (cbn in Hlen; lia)). by rewrite land_limbs.
Qed.

Lemma poly_r_masks key : length key = 32%nat →
  poly_r key = zip_with Z.land (map byte.unsigned (take 16 key) ++ [0]) r_masks.
Proof.
  assert (H255 : ∀ b, Z.land (byte.unsigned b) 255 = byte.unsigned b).
  { intros b. rewrite land_255. apply Z.mod_small, byte.unsigned_range. }
  intros Hk. do 32 (destruct key as [|? key]; [discriminate Hk|]). destruct key; [|discriminate Hk].
  cbv [poly_r r_masks take map app zip_with limb lookup_total list_lookup_total insert list_insert alter].
  rewrite !H255. by rewrite Z.land_0_r.
Qed.

Lemma poly_r_spec key : length key = 32%nat →
  small_limbs (poly_r key) ∧ length (poly_r key) = 17%nat ∧
  limbs_val (poly_r key) = clamp (from_le (take 16 key)).
Proof.
  intros Hk. rewrite poly_r_masks by done.
  assert (Hs : small_limbs (map byte.unsigned (take 16 key) ++ [0])).
  { apply list.Forall_app. split; [apply small_bytes|]. by repeat constructor. }
  assert (Hm : small_limbs r_masks) by (repeat constructor; lia).
  assert (Hl : length (map byte.unsigned (take 16 key) ++ [0]) = 17%nat).
  { rewrite length_app, length_map, length_take, Hk. done. }
  split; [|split].
  - revert Hs Hm. clear. generalize (map byte.unsigned (take 16 key) ++ [0]) as l, r_masks as m.
    intros l m Hl. revert m. induction Hl as [|x l Hx Hl IH]; intros m Hm; [constructor|].
    destruct Hm as [|y m Hy Hm]; [constructor|]. cbn. constructor; [|by apply IH].
    destruct (in_u_land_l 8 x y ltac:(lia) ltac:(by split; lia)). split; [done|]. done.
  - by rewrite length_zip_with, Hl.
  - rewrite limbs_val_land by (done || by rewrite Hl). rewrite limbs_val_app, limbs_val_bytes.
    cbn [limbs_val]. unfold clamp. f_equal; ring.
Qed.

Lemma poly_loop_step fuel r h rest : rest ≠ [] →
  poly_loop (S fuel) r h rest =
  poly_loop fuel r (mul_mod (poly_add h (poly_block (take 16 rest))) r) (drop 16 rest).
Proof.
  intros Hne. destruct rest as [|b rest]; [done|]. cbn [poly_loop].
  destruct (Nat.le_gt_cases (length (b :: rest)) 16).
  - rewrite Nat.min_l by done. by rewrite !(take_ge (b :: rest)), !(drop_ge (b :: rest)) by lia.
  - by rewrite Nat.min_r by lia.
Qed.

Lemma poly_acc_step fuel r acc rest : rest ≠ [] →
  poly_acc (S fuel) r acc rest =
  poly_acc fuel r (((acc + (from_le (take 16 rest) + 2 ^ (8 * Z.of_nat (length (take 16 rest))))) * r) mod P1305)
    (drop 16 rest).
Proof. by destruct rest. Qed.

(** What the accumulator is between blocks, against the specification's. *)
Record accumulates (h : list Z) (acc : Z) : Prop := {
  acc_small : small_limbs h;
  acc_length : length h = 17%nat;
  acc_bound : limbs_val h ≤ P1305 + 9;
  acc_mod : limbs_val h mod P1305 = acc mod P1305;
}.

Lemma accumulates_block h acc r b :
  small_limbs r → length r = 17%nat → (length b ≤ 16)%nat → accumulates h acc →
  accumulates (mul_mod (poly_add h (poly_block b)) r)
    (((acc + (from_le b + 2 ^ (8 * Z.of_nat (length b)))) * limbs_val r) mod P1305).
Proof.
  intros Hr Lr Hb [Hh Lh Bh Vh]. destruct (poly_block_spec b Hb) as (Hc & Lc & Vc).
  destruct (poly_add_spec h _ Hh Hc Lh Lc) as (Ha & La & Va).
  destruct (mul_mod_spec _ r Ha Hr La Lr) as (Hm & Lm & Vm & Bm).
  split; [done|done|lia|]. rewrite Vm, Zmod_mod, Va, Vc.
  pose proof (limbs_val_bound _ Hh) as Hhb. pose proof (limbs_val_bound _ Hc) as Hcb.
  assert (from_le b + 2 ^ (8 * Z.of_nat (length b)) ≤ 2 * 2 ^ 128).
  { pose proof (from_le_bound b).
    assert (2 ^ (8 * Z.of_nat (length b)) ≤ 2 ^ 128) by (apply Z.pow_le_mono_r; lia). lia. }
  rewrite (Z.mod_small _ (256 ^ 17)) by (unfold P1305 in Bh; rewrite Vc in Hcb; lia).
  rewrite <- Zmult_mod_idemp_l, <- Zplus_mod_idemp_l, Vh.
  by rewrite Zplus_mod_idemp_l, Zmult_mod_idemp_l.
Qed.

Lemma poly_loop_spec fuel r h rest acc :
  (length rest ≤ fuel)%nat → small_limbs r → length r = 17%nat → accumulates h acc →
  accumulates (poly_loop fuel r h rest) (poly_acc fuel (limbs_val r) acc rest).
Proof.
  intros Hf Hr Lr. revert h rest acc Hf. induction fuel as [|fuel IH]; intros h rest acc Hf Hacc.
  { by destruct rest; [|cbn in Hf; lia]. }
  destruct (decide (rest = [])) as [->|Hne]; [done|].
  rewrite poly_loop_step, poly_acc_step by done. apply IH.
  - rewrite length_drop. destruct rest; [done|cbn in *; lia].
  - apply accumulates_block; [done|done| |done]. rewrite length_take. lia.
Qed.

(** ** Serialization and the whole authenticator *)

Lemma limbs_to_bytes l n : small_limbs l → (n ≤ length l)%nat →
  map byte.of_Z (take n l) = le_bytes n (limbs_val l).
Proof.
  intros Hl. revert n. induction Hl as [|x l Hx Hl IH]; intros [|n] Hn; try done; [cbn in Hn; lia|].
  cbn [take map limbs_val]. rewrite IH by (cbn in Hn; lia).
  change (le_bytes (S n) ?z) with (byte.of_Z z :: le_bytes n (Z.shiftr z 8)). f_equal.
  - apply byte.unsigned_inj. rewrite !byte.unsigned_of_Z. unfold byte.wrap. change (2 ^ 8) with 256.
    rewrite (Z.mul_comm 256), Z.mod_add by lia. done.
  - f_equal. rewrite shiftr_8. apply Z.div_unique_pos with x; lia.
Qed.

Lemma poly_acc_mod fuel r acc rest : 0 ≤ acc < P1305 → 0 ≤ poly_acc fuel r acc rest < P1305.
Proof.
  revert acc rest. induction fuel as [|fuel IH]; intros acc [|b rest] Ha; try done.
  cbn [poly_acc]. apply IH, Z.mod_pos_bound. reflexivity.
Qed.

Lemma poly1305_eq message key : length key = 32%nat → poly1305 message key = poly1305_spec message key.
Proof.
  intros Hk. unfold poly1305, poly1305_spec.
  destruct (poly_r_spec key Hk) as (Hr & Lr & Vr).
  assert (H0 : accumulates (replicate 17 0) 0).
  { split; [by apply Forall_replicate|done|by vm_compute|done]. }
  pose proof (poly_loop_spec (length message) _ _ message 0 ltac:(lia) Hr Lr H0) as [Hh Lh Bh Vh].
  rewrite Vr in Vh.
  destruct (freeze_spec _ Hh Lh) as (Hf & Lf & Vf); [unfold P1305 in *; lia|].
  rewrite Vh in Vf. rewrite (Z.mod_small (poly_acc _ _ _ _)) in Vf by (by apply poly_acc_mod).
  set (s := map byte.unsigned (take 16 (drop 16 key)) ++ [0]).
  assert (Hs : small_limbs s) by (apply list.Forall_app; split; [apply small_bytes|by repeat constructor]).
  assert (Ls : length s = 17%nat).
  { unfold s. rewrite length_app, length_map, length_take, length_drop, Hk. done. }
  assert (Vs : limbs_val s = from_le (take 16 (drop 16 key))).
  { unfold s. rewrite limbs_val_app, limbs_val_bytes. cbn [limbs_val]. lia. }
  destruct (poly_add_spec _ s Hf Hs Lf Ls) as (Ha & La & Va).
  rewrite limbs_to_bytes by (done || lia). f_equal. rewrite Va, Vf, Vs. apply Z.mod_small.
  pose proof (poly_acc_mod (length message) (clamp (from_le (take 16 key))) 0 message ltac:(by split)).
  pose proof (from_le_bound (take 16 (drop 16 key))) as Hsb.
  rewrite length_take, length_drop, Hk in Hsb. change (8 * Z.of_nat (16 `min` (32 - 16))) with 128 in Hsb.
  unfold P1305 in *. lia.
Qed.

(** C38: The 17-limb Poly1305, with its carries, partial reductions and freeze,
    computes the polynomial of RFC 8439 modulo 2^130 - 5: on every message and
    every 32-byte key the tag on limbs is the tag of the RFC. *)
Theorem poly1305_matches_rfc8439 message key :
  length key = 32%nat → poly1305 message key = poly1305_spec message key.
Proof. apply poly1305_eq. Qed.

Lemma poly1305_matches_rfc8439_witness :
  poly1305 (bs "hello") (replicate 32 Byte.x11) = poly1305_spec (bs "hello") (replicate 32 Byte.x11).
Proof. exact (poly1305_matches_rfc8439 (bs "hello") (replicate 32 Byte.x11) eq_refl). Defined.

Lemma length_poly1305 message key : length key = 32%nat → length (poly1305 message key) = 16%nat.
Proof. intros H. rewrite poly1305_eq by done. apply length_bytes_le. Qed.

(** ** Tag comparison *)

Lemma fold_lor_zero l a : 0 ≤ a → Forall (λ x, 0 ≤ x) l →
  fold_left Z.lor l a = 0 ↔ a = 0 ∧ Forall (λ x, x = 0) l.
Proof.
  intros Ha Hl. revert a Ha. induction Hl as [|x l Hx Hl IH]; intros a Ha; cbn.
  - split; [by intros ->|by intros [-> _]].
  - rewrite IH by (by apply Z.lor_nonneg). rewrite Z.lor_eq_0_iff, list.Forall_cons. tauto.
Qed.

Lemma tags_equal_spec a b : length a = length b → tags_equal a b = true ↔ a = b.
Proof.
  intros Hl. unfold tags_equal. rewrite Z.eqb_eq, fold_lor_zero; [|lia|].
  - split; [|intros ->; split; [done|]].
    + intros [_ H]. revert b Hl H. induction a as [|x a IH]; intros [|y b] Hl H; try done.
      cbn in H. apply list.Forall_cons in H as [Hxy H]. apply Z.lxor_eq in Hxy.
      f_equal; [by apply byte.unsigned_inj|]. apply IH; [by injection Hl|done].
    + clear. induction b as [|y b IH]; cbn; [constructor|]. constructor; [apply Z.lxor_nilpotent|done].
  - clear. revert b. induction a as [|x a IH]; intros [|y b]; cbn; try constructor; [|apply IH].
    apply Z.lxor_nonneg. pose proof (byte.unsigned_range x). pose proof (byte.unsigned_range y). lia.
Qed.
