(* ===== verification/X25519Facts.v ===== *)
(** * X25519 is the function of RFC 7748

    The limb arithmetic refines arithmetic modulo 2^255 - 19: a value carries a
    bound on its limbs and its residue, every operation keeps them, and the
    ladder runs in step with the one of the RFC. *)

From S2P Require Import Prelude Poly1305 X25519.

(** ** RFC 7748, section 5 *)

Definition P25519 : Z := 2 ^ 255 - 19.

Record RfcLadder : Type := mkRfc { rx2 : Z; rz2 : Z; rx3 : Z; rz3 : Z; rswap : bool }.

Definition rfc_cswap (swap : bool) (x y : Z) : Z * Z := if swap then (y, x) else (x, y).

Definition rfc_step (k x_1 : Z) (s : RfcLadder) (t : nat) : RfcLadder :=
  let k_t := Z.testbit k (Z.of_nat t) in
  let swap := xorb (rswap s) k_t in
  let '(x_2, x_3) := rfc_cswap swap (rx2 s) (rx3 s) in
  let '(z_2, z_3) := rfc_cswap swap (rz2 s) (rz3 s) in
  let A := x_2 + z_2 in
  let AA := A * A in
  let B := x_2 - z_2 in
  let BB := B * B in
  let E := AA - BB in
  let C := x_3 + z_3 in
  let D := x_3 - z_3 in
  let DA := D * A in
  let CB := C * B in
  mkRfc ((AA * BB) mod P25519) ((E * (AA + 121665 * E)) mod P25519)
        (((DA + CB) * (DA + CB)) mod P25519) ((x_1 * ((DA - CB) * (DA - CB))) mod P25519) k_t.

(** [X25519(k, u)]: decode, run the ladder, divide, encode. *)
Definition x25519_spec (scalar u : bytes) : bytes :=
  let k := from_le (clamp_scalar scalar) in
  let x_1 := from_le u mod 2 ^ 255 in
  let s := fold_left (rfc_step k x_1) (rev (seq 0 255)) (mkRfc 1 0 x_1 1 false) in
  let '(x_2, _) := rfc_cswap (rswap s) (rx2 s) (rx3 s) in
  let '(z_2, _) := rfc_cswap (rswap s) (rz2 s) (rz3 s) in
  le_bytes 32 ((x_2 * z_2 ^ (P25519 - 2)) mod P25519).

(** ** Residues *)

Definition eqp (a b : Z) : Prop := a mod P25519 = b mod P25519.
Infix "≡p" := eqp (at level 70).

#[export] Instance eqp_equiv : Equivalence eqp.
Proof. unfold eqp. split; [done|by intros ??|by intros ??? ->]. Qed.

#[export] Instance eqp_add : Proper (eqp ==> eqp ==> eqp) Z.add.
Proof. intros a b Ha c d Hc. unfold eqp in *. by rewrite Z.add_mod, Ha, Hc, <- Z.add_mod. Qed.

#[export] Instance eqp_mul : Proper (eqp ==> eqp ==> eqp) Z.mul.
Proof. intros a b Ha c d Hc. unfold eqp in *. by rewrite Z.mul_mod, Ha, Hc, <- Z.mul_mod. Qed.

#[export] Instance eqp_sub : Proper (eqp ==> eqp ==> eqp) Z.sub.
Proof. intros a b Ha c d Hc. unfold eqp in *. by rewrite Zminus_mod, Ha, Hc, <- Zminus_mod. Qed.

Lemma eqp_mod a : a mod P25519 ≡p a.
Proof. unfold eqp. by rewrite Z.mod_mod. Qed.

Lemma eqp_multiple a b k : a = b + k * P25519 → a ≡p b.
Proof. intros ->. unfold eqp. apply Z_mod_plus_full. Qed.

(** ** Words *)

Lemma wadd_small w a b : 0 ≤ a + b < 2 ^ w → wadd w a b = a + b.
Proof. intros H. unfold wadd. by apply wrap_small. Qed.

Lemma wmul_small w a b : 0 ≤ a * b < 2 ^ w → wmul w a b = a * b.
Proof. intros H. unfold wmul. by apply wrap_small. Qed.

Lemma wsub_small w a b : 0 ≤ a - b < 2 ^ w → wsub w a b = a - b.
Proof. intros H. unfold wsub. by apply wrap_small. Qed.

(** A number split at bit 51. *)
Lemma split51 x : x = 2 ^ 51 * Z.shiftr x 51 + mask51 x ∧ 0 ≤ mask51 x < 2 ^ 51.
Proof.
  unfold mask51, MASK51. change (2 ^ 51 - 1) with (Z.ones 51). rewrite Z.land_ones, Z.shiftr_div_pow2 by lia.
  split; [apply Z.div_mod; lia|apply Z.mod_pos_bound; lia].
Qed.

Lemma mask51_wrap x : mask51 (wrap 64 x) = mask51 x.
Proof.
  unfold mask51, MASK51, wrap. change (2 ^ 51 - 1) with (Z.ones 51). rewrite !Z.land_ones by lia.
  change (2 ^ 64) with (2 ^ 51 * 2 ^ 13). rewrite Z.rem_mul_r by lia.
  rewrite Z.mul_comm, Z_mod_plus_full. by rewrite Z.mod_mod by lia.
Qed.

(** ** Limbs *)

Definition fe_val (l : Fe) : Z := f0 l + 2 ^ 51 * f1 l + 2 ^ 102 * f2 l + 2 ^ 153 * f3 l + 2 ^ 204 * f4 l.

Definition fe_below (b : Z) (l : Fe) : Prop :=
  0 ≤ f0 l < b ∧ 0 ≤ f1 l < b ∧ 0 ≤ f2 l < b ∧ 0 ≤ f3 l < b ∧ 0 ≤ f4 l < b.

(** What operations return, and what they take. *)
Definition tight : Fe → Prop := fe_below (2 ^ 52).
Definition loose : Fe → Prop := fe_below (2 ^ 53).

Lemma tight_loose l : tight l → loose l.
Proof. unfold tight, loose, fe_below. lia. Qed.
#[export] Hint Resolve tight_loose : core.

Lemma fe_carry_ok l : fe_below (2 ^ 63) l → tight (fe_carry l) ∧ fe_val (fe_carry l) ≡p fe_val l.
Proof.
  destruct l as [x0 x1 x2 x3 x4]. unfold fe_below, fe_carry. cbn [f0 f1 f2 f3 f4]. intros (H0 & H1 & H2 & H3 & H4).
  destruct (split51 x0) as [E0 B0]. set (c0 := Z.shiftr x0 51) in *.
  rewrite (wadd_small 64 x1 c0) by lia.
  destruct (split51 (x1 + c0)) as [E1 B1]. set (c1 := Z.shiftr (x1 + c0) 51) in *.
  rewrite (wadd_small 64 x2 c1) by lia.
  destruct (split51 (x2 + c1)) as [E2 B2]. set (c2 := Z.shiftr (x2 + c1) 51) in *.
  rewrite (wadd_small 64 x3 c2) by lia.
  destruct (split51 (x3 + c2)) as [E3 B3]. set (c3 := Z.shiftr (x3 + c2) 51) in *.
  rewrite (wadd_small 64 x4 c3) by lia.
  destruct (split51 (x4 + c3)) as [E4 B4]. set (c4 := Z.shiftr (x4 + c3) 51) in *.
  rewrite (wmul_small 64 c4 19) by lia. rewrite wadd_small by lia.
  split; [unfold tight, fe_below; cbn [f0 f1 f2 f3 f4]; lia|].
  symmetry. apply (eqp_multiple _ _ c4). unfold fe_val, P25519. cbn [f0 f1 f2 f3 f4]. lia.
Qed.

Lemma fe_add_ok a b : tight a → tight b → loose (fe_add a b) ∧ fe_val (fe_add a b) = fe_val a + fe_val b.
Proof.
  destruct a as [a0 a1 a2 a3 a4], b as [b0 b1 b2 b3 b4]. unfold tight, loose, fe_below, fe_add, fe_val.
  cbn [f0 f1 f2 f3 f4]. intros Ha Hb. rewrite !wadd_small by lia. lia.
Qed.

Lemma sub_limb K a b : 2 ^ 53 ≤ K < 2 ^ 56 → 0 ≤ a < 2 ^ 53 → 0 ≤ b < 2 ^ 53 →
  wsub 64 (wadd 64 a K) b = a + K - b.
Proof. intros HK Ha Hb. rewrite wadd_small by lia. by rewrite wsub_small by lia. Qed.

Lemma fe_sub_ok a b : loose a → loose b → tight (fe_sub a b) ∧ fe_val (fe_sub a b) ≡p fe_val a - fe_val b.
Proof.
  destruct a as [a0 a1 a2 a3 a4], b as [b0 b1 b2 b3 b4]. unfold loose, fe_below, fe_sub.
  cbn [f0 f1 f2 f3 f4]. intros Ha Hb. rewrite !sub_limb by (unfold SUB0, SUB1; lia).
  match goal with |- tight (fe_carry ?l) ∧ _ => destruct (fe_carry_ok l) as [Ht Hv] end.
  { unfold fe_below, SUB0, SUB1. cbn [f0 f1 f2 f3 f4]. lia. }
  split; [exact Ht|]. rewrite Hv. apply (eqp_multiple _ _ 16). unfold fe_val, P25519, SUB0, SUB1.
  cbn [f0 f1 f2 f3 f4]. lia.
Qed.

(** The columns a product is reduced from. *)
Lemma fe_reduce_wide_ok t0 t1 t2 t3 t4 :
  0 ≤ t0 < 2 ^ 113 → 0 ≤ t1 < 2 ^ 113 → 0 ≤ t2 < 2 ^ 113 → 0 ≤ t3 < 2 ^ 113 → 0 ≤ t4 < 2 ^ 109 →
  tight (fe_reduce_wide t0 t1 t2 t3 t4)
  ∧ fe_val (fe_reduce_wide t0 t1 t2 t3 t4) ≡p t0 + 2 ^ 51 * t1 + 2 ^ 102 * t2 + 2 ^ 153 * t3 + 2 ^ 204 * t4.
Proof.
  intros H0 H1 H2 H3 H4. unfold fe_reduce_wide. cbv zeta. rewrite !mask51_wrap.
  destruct (split51 t0) as [E0 B0]. set (c0 := Z.shiftr t0 51) in *.
  rewrite (wadd_small 128 t1 c0) by lia.
  destruct (split51 (t1 + c0)) as [E1 B1]. set (c1 := Z.shiftr (t1 + c0) 51) in *.
  rewrite (wadd_small 128 t2 c1) by lia.
  destruct (split51 (t2 + c1)) as [E2 B2]. set (c2 := Z.shiftr (t2 + c1) 51) in *.
  rewrite (wadd_small 128 t3 c2) by lia.
  destruct (split51 (t3 + c2)) as [E3 B3]. set (c3 := Z.shiftr (t3 + c2) 51) in *.
  rewrite (wadd_small 128 t4 c3) by lia.
  destruct (split51 (t4 + c3)) as [E4 B4]. set (c4 := Z.shiftr (t4 + c3) 51) in *.
  rewrite (wrap_small 64 c4) by (unfold in_u; lia).
  rewrite (wmul_small 64 c4 19) by lia. rewrite (wadd_small 64 (mask51 t0)) by lia.
  match goal with |- tight (fe_carry ?l) ∧ _ => destruct (fe_carry_ok l) as [Ht Hv] end.
  { unfold fe_below. cbn [f0 f1 f2 f3 f4]. lia. }
  split; [exact Ht|]. rewrite Hv. symmetry. apply (eqp_multiple _ _ c4). unfold fe_val, P25519.
  cbn [f0 f1 f2 f3 f4]. lia.
Qed.

Lemma product_bound a b : 0 ≤ a < 2 ^ 53 → 0 ≤ b < 2 ^ 53 → 0 ≤ a * b < 2 ^ 106.
Proof. intros Ha Hb. nia. Qed.

Lemma product_wide a b : 0 ≤ a < 2 ^ 53 → 0 ≤ b < 2 ^ 53 → 0 ≤ a * b < 19 * 2 ^ 106.
Proof. intros Ha Hb. pose proof (product_bound a b Ha Hb). lia. Qed.

Lemma product19_wide a b : 0 ≤ a < 2 ^ 53 → 0 ≤ b < 2 ^ 53 → 0 ≤ a * (b * 19) < 19 * 2 ^ 106.
Proof. intros Ha Hb. pose proof (product_bound a b Ha Hb). lia. Qed.

Lemma sum_wide x0 x1 x2 x3 x4 :
  0 ≤ x0 < 19 * 2 ^ 106 → 0 ≤ x1 < 19 * 2 ^ 106 → 0 ≤ x2 < 19 * 2 ^ 106 → 0 ≤ x3 < 19 * 2 ^ 106 →
  0 ≤ x4 < 19 * 2 ^ 106 → 0 ≤ x0 + x1 + x2 + x3 + x4 < 2 ^ 113.
Proof. lia. Qed.

Lemma sum_top x0 x1 x2 x3 x4 :
  0 ≤ x0 < 2 ^ 106 → 0 ≤ x1 < 2 ^ 106 → 0 ≤ x2 < 2 ^ 106 → 0 ≤ x3 < 2 ^ 106 → 0 ≤ x4 < 2 ^ 106 →
  0 ≤ x0 + x1 + x2 + x3 + x4 < 2 ^ 109.
Proof. lia. Qed.

(** A column of five products whose right factors are at most 19 limbs. *)
Lemma column_sum_ok p0 q0 p1 q1 p2 q2 p3 q3 p4 q4 :
  0 ≤ p0 * q0 < 19 * 2 ^ 106 → 0 ≤ p1 * q1 < 19 * 2 ^ 106 → 0 ≤ p2 * q2 < 19 * 2 ^ 106 → 0 ≤ p3 * q3 < 19 * 2 ^ 106 →
  0 ≤ p4 * q4 < 19 * 2 ^ 106 →
  column_sum [(p0, q0); (p1, q1); (p2, q2); (p3, q3); (p4, q4)] = p0 * q0 + p1 * q1 + p2 * q2 + p3 * q3 + p4 * q4.
Proof.
  intros H0 H1 H2 H3 H4. unfold column_sum. cbn [map fst snd fold_left].
  rewrite !wmul_small by lia. rewrite (wadd_small 128 (p0 * q0)) by lia.
  rewrite (wadd_small 128 _ (p2 * q2)) by lia. rewrite (wadd_small 128 _ (p3 * q3)) by lia.
  by rewrite wadd_small by lia.
Qed.

Lemma fe_mul_ok a b : loose a → loose b → tight (fe_mul a b) ∧ fe_val (fe_mul a b) ≡p fe_val a * fe_val b.
Proof.
  destruct a as [a0 a1 a2 a3 a4], b as [b0 b1 b2 b3 b4]. unfold loose, fe_below, fe_mul.
  cbn [f0 f1 f2 f3 f4]. intros (A0 & A1 & A2 & A3 & A4) (B0 & B1 & B2 & B3 & B4).
  rewrite !(wmul_small 64 _ 19) by lia.
  rewrite !column_sum_ok by (first [by apply product_wide|by apply product19_wide]).
  match goal with |- tight (fe_reduce_wide ?t0 ?t1 ?t2 ?t3 ?t4) ∧ _ =>
    destruct (fe_reduce_wide_ok t0 t1 t2 t3 t4) as [Ht Hv];
      [apply sum_wide; first [by apply product_wide|by apply product19_wide]..|apply sum_top; by apply product_bound|] end.
  split; [exact Ht|]. rewrite Hv. symmetry.
  apply (eqp_multiple _ _ ((a1 * b4 + a2 * b3 + a3 * b2 + a4 * b1) + 2 ^ 51 * (a2 * b4 + a3 * b3 + a4 * b2)
    + 2 ^ 102 * (a3 * b4 + a4 * b3) + 2 ^ 153 * (a4 * b4))).
  unfold fe_val, P25519. cbn [f0 f1 f2 f3 f4]. ring.
Qed.

Lemma fe_mul_small_ok a k : loose a → 0 ≤ k < 2 ^ 17 →
  tight (fe_mul_small a k) ∧ fe_val (fe_mul_small a k) ≡p k * fe_val a.
Proof.
  destruct a as [a0 a1 a2 a3 a4]. unfold loose, fe_below, fe_mul_small. cbn [f0 f1 f2 f3 f4].
  intros (A0 & A1 & A2 & A3 & A4) Hk.
  assert (Hp : ∀ x, 0 ≤ x < 2 ^ 53 → 0 ≤ x * k < 2 ^ 70) by (intros; nia).
  pose proof (Hp a0 A0). pose proof (Hp a1 A1). pose proof (Hp a2 A2). pose proof (Hp a3 A3). pose proof (Hp a4 A4).
  rewrite !wmul_small by lia.
  destruct (fe_reduce_wide_ok (a0 * k) (a1 * k) (a2 * k) (a3 * k) (a4 * k)) as [Ht Hv]; [lia..|].
  split; [exact Ht|]. rewrite Hv. unfold fe_val. cbn [f0 f1 f2 f3 f4].
  match goal with |- ?x ≡p ?y => replace x with y by ring; reflexivity end.
Qed.

(** ** Elements as residues *)

(** [f] holds the residue of [x], ready for any operation. *)
Definition holds (f : Fe) (x : Z) : Prop := tight f ∧ fe_val f ≡p x.

Lemma holds_mul f g x y : holds f x → holds g y → holds (fe_mul f g) (x * y).
Proof.
  intros [Hf Hx] [Hg Hy]. destruct (fe_mul_ok f g) as [Ht Hv]; [by apply tight_loose..|]. split; [done|]. by rewrite Hv, Hx, Hy.
Qed.

Lemma holds_square f x : holds f x → holds (fe_square f) (x * x).
Proof. intros Hf. exact (holds_mul f f x x Hf Hf). Qed.

Lemma holds_eqp f x y : holds f x → x ≡p y → holds f y.
Proof. intros [Ht Hv] Hxy. split; [done|]. by rewrite Hv. Qed.

(** An unreduced sum is only good as an operand. *)
Definition sums (f : Fe) (x : Z) : Prop := loose f ∧ fe_val f ≡p x.

Lemma holds_sums f x : holds f x → sums f x.
Proof. intros [Ht Hv]. split; [by apply tight_loose|done]. Qed.

Lemma sums_add f g x y : holds f x → holds g y → sums (fe_add f g) (x + y).
Proof. intros [Hf Hx] [Hg Hy]. destruct (fe_add_ok f g Hf Hg) as [Hl Hv]. split; [done|]. by rewrite Hv, Hx, Hy. Qed.

Lemma sums_mul f g x y : sums f x → sums g y → holds (fe_mul f g) (x * y).
Proof. intros [Hf Hx] [Hg Hy]. destruct (fe_mul_ok f g Hf Hg) as [Ht Hv]. split; [done|]. by rewrite Hv, Hx, Hy. Qed.

Lemma sums_sub f g x y : sums f x → sums g y → holds (fe_sub f g) (x - y).
Proof. intros [Hf Hx] [Hg Hy]. destruct (fe_sub_ok f g Hf Hg) as [Ht Hv]. split; [done|]. by rewrite Hv, Hx, Hy. Qed.

Lemma holds_mul_small f x k : holds f x → 0 ≤ k < 2 ^ 17 → holds (fe_mul_small f k) (k * x).
Proof.
  intros [Hf Hx] Hk. destruct (fe_mul_small_ok f k (tight_loose f Hf) Hk) as [Ht Hv]. split; [done|]. by rewrite Hv, Hx.
Qed.

#[local] Hint Resolve holds_sums sums_add sums_mul sums_sub : core.

#[local] Opaque fe_mul fe_sub fe_add fe_mul_small.

(** *** The inverse *)

Lemma holds_squares n f z e : 0 ≤ e → holds f (z ^ e) → holds (fe_squares n f) (z ^ (e * 2 ^ Z.of_nat n)).
Proof.
  revert f e. induction n as [|n IH]; intros f e He Hf; [by rewrite Z.mul_1_r|].
  cbn [fe_squares]. rewrite Nat2Z.inj_succ, Z.pow_succ_r by lia. rewrite Z.mul_assoc.
  apply IH; [lia|]. replace (e * 2) with (e + e) by lia. rewrite Z.pow_add_r by done. by apply holds_square.
Qed.

Lemma holds_pow_mul f g z d e : holds f (z ^ d) → holds g (z ^ e) → 0 ≤ d → 0 ≤ e → holds (fe_mul f g) (z ^ (d + e)).
Proof. intros Hf Hg Hd He. rewrite Z.pow_add_r by done. by apply holds_mul. Qed.

(** Squares and a product, with the exponent they give. *)
Lemma holds_chain n f g z d e r :
  holds f (z ^ d) → holds g (z ^ e) → (0 <=? d) && (0 <=? e) && (d * 2 ^ Z.of_nat n + e =? r) = true →
  holds (fe_mul (fe_squares n f) g) (z ^ r).
Proof.
  intros Hf Hg [[Hd%Z.leb_le He%Z.leb_le]%andb_true_iff <-%Z.eqb_eq]%andb_true_iff.
  apply holds_pow_mul; [by apply holds_squares|done|lia|done].
Qed.

Ltac chain n Hf Hg := eapply (holds_chain n); [exact Hf|exact Hg|reflexivity].
Ltac chain_any Hf Hg := eapply holds_chain; [exact Hf|exact Hg|reflexivity].

Lemma holds_invert f z : holds f z → holds (fe_invert f) (z ^ (P25519 - 2)).
Proof.
  intros Hz. unfold fe_invert.
  assert (H1 : holds f (z ^ 1)) by (by rewrite Z.pow_1_r).
  assert (H2 : holds (fe_square f) (z ^ 2)) by chain 0%nat H1 H1.
  set (z2 := fe_square f) in *.
  assert (H8 : holds (fe_square (fe_square z2)) (z ^ 8)).
  { assert (H4 : holds (fe_square z2) (z ^ 4)) by chain 0%nat H2 H2.
    chain 0%nat H4 H4. }
  set (z8 := fe_square (fe_square z2)) in *.
  assert (H9 : holds (fe_mul f z8) (z ^ 9)) by chain 0%nat H1 H8.
  set (z9 := fe_mul f z8) in *.
  assert (H11 : holds (fe_mul z2 z9) (z ^ 11)) by chain 0%nat H2 H9.
  set (z11 := fe_mul z2 z9) in *.
  assert (H22 : holds (fe_square z11) (z ^ 22)) by chain 0%nat H11 H11.
  assert (H5 : holds (fe_mul z9 (fe_square z11)) (z ^ (2 ^ 5 - 1))) by chain 0%nat H9 H22.
  set (z_5_0 := fe_mul z9 (fe_square z11)) in *.
  assert (H10 : holds (fe_mul (fe_squares 5 z_5_0) z_5_0) (z ^ (2 ^ 10 - 1))) by chain_any H5 H5.
  set (z_10_0 := fe_mul (fe_squares 5 z_5_0) z_5_0) in *.
  assert (H20 : holds (fe_mul (fe_squares 10 z_10_0) z_10_0) (z ^ (2 ^ 20 - 1))) by chain_any H10 H10.
  set (z_20_0 := fe_mul (fe_squares 10 z_10_0) z_10_0) in *.
  assert (H40 : holds (fe_mul (fe_squares 20 z_20_0) z_20_0) (z ^ (2 ^ 40 - 1))) by chain_any H20 H20.
  set (z_40_0 := fe_mul (fe_squares 20 z_20_0) z_20_0) in *.
  assert (H50 : holds (fe_mul (fe_squares 10 z_40_0) z_10_0) (z ^ (2 ^ 50 - 1))) by chain_any H40 H10.
  set (z_50_0 := fe_mul (fe_squares 10 z_40_0) z_10_0) in *.
  assert (H100 : holds (fe_mul (fe_squares 50 z_50_0) z_50_0) (z ^ (2 ^ 100 - 1))) by chain_any H50 H50.
  set (z_100_0 := fe_mul (fe_squares 50 z_50_0) z_50_0) in *.
  assert (H200 : holds (fe_mul (fe_squares 100 z_100_0) z_100_0) (z ^ (2 ^ 200 - 1))) by chain_any H100 H100.
  set (z_200_0 := fe_mul (fe_squares 100 z_100_0) z_100_0) in *.
  assert (H250 : holds (fe_mul (fe_squares 50 z_200_0) z_50_0) (z ^ (2 ^ 250 - 1))) by chain_any H200 H50.
  chain_any H250 H11.
Qed.

(** ** The swap *)

Lemma masked_swap x y (b : bool) : in_u 64 x → in_u 64 y →
  let t := Z.land (wsub 64 0 (Z.b2z b)) (Z.lxor x y) in
  Z.lxor x t = (if b then y else x) ∧ Z.lxor y t = (if b then x else y).
Proof.
  intros Hx Hy t. destruct b; unfold t.
  - change (wsub 64 0 (Z.b2z true)) with (Z.ones 64). rewrite Z.land_comm, Z.land_ones by lia.
    rewrite Z.mod_small by (apply (in_u_lxor 64); done || lia).
    split; [|rewrite (Z.lxor_comm x y)]; by rewrite <- Z.lxor_assoc, Z.lxor_nilpotent, Z.lxor_0_l.
  - change (wsub 64 0 (Z.b2z false)) with 0. by rewrite Z.land_0_l, !Z.lxor_0_r.
Qed.

Lemma tight_words f : tight f → in_u 64 (f0 f) ∧ in_u 64 (f1 f) ∧ in_u 64 (f2 f) ∧ in_u 64 (f3 f) ∧ in_u 64 (f4 f).
Proof. unfold tight, fe_below, in_u. lia. Qed.

Lemma fe_cswap_ok f g (b : bool) : tight f → tight g → fe_cswap f g (Z.b2z b) = if b then (g, f) else (f, g).
Proof.
  intros (F0 & F1 & F2 & F3 & F4)%tight_words (G0 & G1 & G2 & G3 & G4)%tight_words.
  destruct (masked_swap (f0 f) (f0 g) b F0 G0) as [A0 B0], (masked_swap (f1 f) (f1 g) b F1 G1) as [A1 B1],
    (masked_swap (f2 f) (f2 g) b F2 G2) as [A2 B2], (masked_swap (f3 f) (f3 g) b F3 G3) as [A3 B3],
    (masked_swap (f4 f) (f4 g) b F4 G4) as [A4 B4].
  unfold fe_cswap. rewrite A0, A1, A2, A3, A4, B0, B1, B2, B3, B4. destruct f, g. by destruct b.
Qed.

(** ** Decoding *)

Lemma from_le_app b c : from_le (b ++ c) = from_le b + 2 ^ (8 * Z.of_nat (length b)) * from_le c.
Proof.
  rewrite <- !limbs_val_bytes, map_app, limbs_val_app, length_map. f_equal. f_equal.
  change 256 with (2 ^ 8). by rewrite <- Z.pow_mul_r by lia.
Qed.

Lemma from_le_single x : from_le [x] = byte.unsigned x.
Proof. rewrite <- limbs_val_bytes. cbn [map limbs_val]. lia. Qed.

Lemma load_eq b i n : (n ≤ 8)%nat → (i + n ≤ length b)%nat →
  fold_left (λ x k, Z.lor x (wrap 64 (Z.shiftl (byte.unsigned (b !!! (i + k)%nat)) (8 * Z.of_nat k)))) (seq 0 n) 0
  = from_le (take n (drop i b)).
Proof.
  induction n as [|n IH]; intros Hn Hl; [done|].
  rewrite seq_S, fold_left_app, IH by lia. cbn [fold_left Nat.add].
  destruct (lookup_lt_is_Some_2 b (i + n)) as [x Hx]; [lia|].
  rewrite (list_lookup_total_correct _ _ _ Hx). rewrite (take_S_r _ _ x) by (by rewrite lookup_drop).
  rewrite from_le_app, from_le_single, length_take, length_drop.
  replace (n `min` (length b - i))%nat with n by lia.
  pose proof (byte.unsigned_range x). pose proof (from_le_bound (take n (drop i b))) as Hb.
  rewrite length_take, length_drop in Hb. replace (n `min` (length b - i))%nat with n in Hb by lia.
  rewrite wrap_small.
  - rewrite lor_shiftl by lia. lia.
  - unfold in_u. rewrite Z.shiftl_mul_pow2 by lia.
    assert (2 ^ (8 * Z.of_nat n) ≤ 2 ^ 56) by (apply Z.pow_le_mono_r; lia).
    assert (0 < 2 ^ (8 * Z.of_nat n)) by (apply Z.pow_pos_nonneg; lia). nia.
Qed.

Lemma mask51_mod x : mask51 x = x mod 2 ^ 51.
Proof. unfold mask51, MASK51. change (2 ^ 51 - 1) with (Z.ones 51). by rewrite Z.land_ones by lia. Qed.

(** The words joined at [n]: the low bits of the higher one come above. *)
Lemma join_words_eq x n y : 13 ≤ n ≤ 51 → in_u 64 x → in_u 64 y →
  join_words x n y = x / 2 ^ n + 2 ^ (64 - n) * (y mod 2 ^ n).
Proof.
  intros Hn Hx Hy. unfold join_words, wrap. rewrite Z.shiftr_div_pow2 by lia.
  assert (H64 : 2 ^ 64 = 2 ^ (64 - n) * 2 ^ n) by (rewrite <- Z.pow_add_r by lia; f_equal; lia).
  assert (Hp : 0 < 2 ^ n) by (apply Z.pow_pos_nonneg; lia). assert (Hq : 0 < 2 ^ (64 - n)) by (apply Z.pow_pos_nonneg; lia).
  replace (Z.shiftl y (64 - n) mod 2 ^ 64) with (Z.shiftl (y mod 2 ^ n) (64 - n)).
  - rewrite lor_shiftl; [lia|lia|]. split; [apply Z.div_pos; unfold in_u in Hx; lia|].
    apply Z.div_lt_upper_bound; [done|]. unfold in_u in Hx. lia.
  - rewrite !Z.shiftl_mul_pow2 by lia. rewrite H64, (Z.mul_comm (2 ^ (64 - n))). by rewrite Z.mul_mod_distr_r by lia.
Qed.

Lemma mask_join n x y : 13 ≤ n ≤ 51 → in_u 64 x → in_u 64 y →
  mask51 (join_words x n y) = x / 2 ^ n + 2 ^ (64 - n) * (y mod 2 ^ (n - 13)).
Proof.
  intros Hn Hx Hy. rewrite mask51_mod, join_words_eq by done.
  assert (Hd : 0 < 2 ^ (64 - n)) by (apply Z.pow_pos_nonneg; lia).
  assert (Hp : 0 < 2 ^ n) by (apply Z.pow_pos_nonneg; lia).
  assert (He : 0 < 2 ^ (n - 13)) by (apply Z.pow_pos_nonneg; lia).
  assert (Hq : 0 ≤ x / 2 ^ n < 2 ^ (64 - n)).
  { split; [apply Z.div_pos; unfold in_u in Hx; lia|]. apply Z.div_lt_upper_bound; [done|].
    rewrite <- Z.pow_add_r by lia. replace (n + (64 - n)) with 64 by lia. apply Hx. }
  replace (2 ^ 51) with (2 ^ (64 - n) * 2 ^ (n - 13)) by (rewrite <- Z.pow_add_r by lia; f_equal; lia).
  rewrite Z.rem_mul_r by lia. rewrite (Z.mul_comm (2 ^ (64 - n)) (y mod _)), Z_mod_plus_full, Z_div_plus_full by lia.
  rewrite (Z.mod_small (x / _)), (Z.div_small (x / _)) by done. f_equal. f_equal. cbn [Z.add].
  replace (2 ^ n) with (2 ^ (n - 13) * 2 ^ 13) by (rewrite <- Z.pow_add_r by lia; f_equal; lia).
  rewrite Z.rem_mul_r by lia. rewrite Z.add_0_l, (Z.mul_comm (2 ^ (n - 13)) (_ mod 2 ^ 13)), Z_mod_plus_full. by rewrite Z.mod_mod by lia.
Qed.

(** A 32-byte string as four words. *)
Lemma from_le_words u : length u = 32%nat →
  from_le u = load u 0 + 2 ^ 64 * load u 8 + 2 ^ 128 * load u 16 + 2 ^ 192 * load u 24
  ∧ in_u 64 (load u 0) ∧ in_u 64 (load u 8) ∧ in_u 64 (load u 16) ∧ in_u 64 (load u 24).
Proof.
  intros Hu. unfold load. rewrite !load_eq by (rewrite ?Hu; lia). rewrite drop_0.
  assert (Hb : ∀ i, (i + 8 ≤ 32)%nat → in_u 64 (from_le (take 8 (drop i u)))).
  { intros i Hi. pose proof (from_le_bound (take 8 (drop i u))) as Hb. rewrite length_take, length_drop, Hu in Hb.
    by replace (8 `min` (32 - i))%nat with 8%nat in Hb by lia. }
  split; [|pose proof (Hb 0%nat ltac:(lia)) as H0; rewrite drop_0 in H0; split_and!; [exact H0|apply Hb; lia..]].
  assert (Hs : ∀ v, (8 ≤ length v)%nat → from_le v = from_le (take 8 v) + 2 ^ 64 * from_le (drop 8 v)).
  { intros v Hv. rewrite <- (take_drop 8 v) at 1. rewrite from_le_app, length_take.
    by replace (8 `min` length v)%nat with 8%nat by lia. }
  rewrite (Hs u), (Hs (drop 8 u)), (Hs (drop 8 (drop 8 u))) by (rewrite ?length_drop; lia). rewrite !drop_drop.
  rewrite (take_ge (drop 24 u) 8) by (rewrite length_drop; lia). cbn [Nat.add]. lia.
Qed.

Lemma holds_from_bytes u : length u = 32%nat → holds (fe_from_bytes u) (from_le u mod 2 ^ 255).
Proof.
  intros Hu. destruct (from_le_words u Hu) as (Hv & H0 & H1 & H2 & H3). unfold fe_from_bytes.
  set (w0 := load u 0) in *. set (w1 := load u 8) in *. set (w2 := load u 16) in *. set (w3 := load u 24) in *.
  rewrite !mask_join by (done || lia). rewrite !mask51_mod, Z.shiftr_div_pow2 by lia.
  change (2 ^ (51 - 13)) with (2 ^ 38). change (2 ^ (38 - 13)) with (2 ^ 25). change (2 ^ (25 - 13)) with (2 ^ 12).
  change (64 - 51) with 13. change (64 - 38) with 26. change (64 - 25) with 39. unfold in_u in *.
  pose proof (Z.div_mod w0 (2 ^ 51) ltac:(lia)). pose proof (Z.mod_pos_bound w0 (2 ^ 51) ltac:(lia)).
  pose proof (Z.div_mod w1 (2 ^ 38) ltac:(lia)). pose proof (Z.mod_pos_bound w1 (2 ^ 38) ltac:(lia)).
  pose proof (Z.div_mod w2 (2 ^ 25) ltac:(lia)). pose proof (Z.mod_pos_bound w2 (2 ^ 25) ltac:(lia)).
  pose proof (Z.div_mod w3 (2 ^ 12) ltac:(lia)). pose proof (Z.mod_pos_bound w3 (2 ^ 12) ltac:(lia)).
  pose proof (Z.div_mod (w3 / 2 ^ 12) (2 ^ 51) ltac:(lia)). pose proof (Z.mod_pos_bound (w3 / 2 ^ 12) (2 ^ 51) ltac:(lia)).
  split.
  - unfold tight, fe_below. cbn [f0 f1 f2 f3 f4]. lia.
  - assert (Hval : from_le u mod 2 ^ 255 = fe_val (mkFe (w0 mod 2 ^ 51) (w0 / 2 ^ 51 + 2 ^ 13 * (w1 mod 2 ^ 38))
      (w1 / 2 ^ 38 + 2 ^ 26 * (w2 mod 2 ^ 25)) (w2 / 2 ^ 25 + 2 ^ 39 * (w3 mod 2 ^ 12)) ((w3 / 2 ^ 12) mod 2 ^ 51))).
    { symmetry. apply (Z.mod_unique_pos _ _ (w3 / 2 ^ 12 / 2 ^ 51)); unfold fe_val; cbn [f0 f1 f2 f3 f4]; lia. }
    by rewrite Hval.
Qed.

(** ** Encoding *)

(** Two carries bring every limb below 2^51. *)
Lemma two_carries f : tight f → fe_below (2 ^ 51) (fe_carry (fe_carry f)) ∧ fe_val (fe_carry (fe_carry f)) ≡p fe_val f.
Proof.
  intros Hf. destruct (fe_carry_ok f) as [Ht Hv]; [unfold tight, fe_below in *; lia|].
  destruct (fe_carry_ok (fe_carry f)) as [_ Hv']; [unfold tight, fe_below in *; lia|].
  split; [|by rewrite Hv']. clear Ht Hv Hv'. destruct f as [x0 x1 x2 x3 x4].
  unfold tight, fe_below in Hf. cbn [f0 f1 f2 f3 f4] in Hf. destruct Hf as (H0 & H1 & H2 & H3 & H4).
  assert (Hg : let g := fe_carry (mkFe x0 x1 x2 x3 x4) in
    0 ≤ f0 g < 2 ^ 51 + 57 ∧ 0 ≤ f1 g < 2 ^ 51 ∧ 0 ≤ f2 g < 2 ^ 51 ∧ 0 ≤ f3 g < 2 ^ 51 ∧ 0 ≤ f4 g < 2 ^ 51).
  { unfold fe_carry. cbn [f0 f1 f2 f3 f4].
    destruct (split51 x0) as [E0 B0]. rewrite (wadd_small 64 x1) by lia.
    destruct (split51 (x1 + Z.shiftr x0 51)) as [E1 B1]. rewrite (wadd_small 64 x2) by lia.
    destruct (split51 (x2 + Z.shiftr (x1 + Z.shiftr x0 51) 51)) as [E2 B2]. rewrite (wadd_small 64 x3) by lia.
    match goal with |- context [mask51 (x3 + ?c)] => destruct (split51 (x3 + c)) as [E3 B3]; set (c2 := c) in * end.
    rewrite (wadd_small 64 x4) by lia.
    match goal with |- context [mask51 (x4 + ?c)] => destruct (split51 (x4 + c)) as [E4 B4]; set (c3 := c) in * end.
    rewrite wmul_small by lia. rewrite wadd_small by lia. lia. }
  destruct (fe_carry (mkFe x0 x1 x2 x3 x4)) as [y0 y1 y2 y3 y4]. cbn [f0 f1 f2 f3 f4] in Hg.
  destruct Hg as (G0 & G1 & G2 & G3 & G4). unfold fe_below, fe_carry. cbn [f0 f1 f2 f3 f4].
  destruct (split51 y0) as [E0 B0]. set (c0 := Z.shiftr y0 51) in *. rewrite (wadd_small 64 y1) by lia.
  destruct (split51 (y1 + c0)) as [E1 B1]. set (c1 := Z.shiftr (y1 + c0) 51) in *. rewrite (wadd_small 64 y2) by lia.
  destruct (split51 (y2 + c1)) as [E2 B2]. set (c2 := Z.shiftr (y2 + c1) 51) in *. rewrite (wadd_small 64 y3) by lia.
  destruct (split51 (y3 + c2)) as [E3 B3]. set (c3 := Z.shiftr (y3 + c2) 51) in *. rewrite (wadd_small 64 y4) by lia.
  destruct (split51 (y4 + c3)) as [E4 B4]. set (c4 := Z.shiftr (y4 + c3) 51) in *.
  rewrite wmul_small by lia. rewrite wadd_small by lia. lia.
Qed.

Lemma fe_freeze_ok f : tight f → fe_below (2 ^ 51) (fe_freeze f) ∧ fe_val (fe_freeze f) = fe_val f mod P25519.
Proof.
  intros Hf. destruct (two_carries f Hf) as [Hb Hv]. unfold fe_freeze.
  destruct (fe_carry (fe_carry f)) as [h0 h1 h2 h3 h4] eqn:Eh. unfold fe_below in Hb. cbn [f0 f1 f2 f3 f4] in Hb |- *.
  destruct Hb as (B0 & B1 & B2 & B3 & B4).
  rewrite (wadd_small 64 h0 19) by lia. destruct (split51 (h0 + 19)) as [E0 R0]. set (q0 := Z.shiftr (h0 + 19) 51) in *.
  rewrite (wadd_small 64 h1 q0) by lia. destruct (split51 (h1 + q0)) as [E1 R1]. set (q1 := Z.shiftr (h1 + q0) 51) in *.
  rewrite (wadd_small 64 h2 q1) by lia. destruct (split51 (h2 + q1)) as [E2 R2]. set (q2 := Z.shiftr (h2 + q1) 51) in *.
  rewrite (wadd_small 64 h3 q2) by lia. destruct (split51 (h3 + q2)) as [E3 R3]. set (q3 := Z.shiftr (h3 + q2) 51) in *.
  rewrite (wadd_small 64 h4 q3) by lia. destruct (split51 (h4 + q3)) as [E4 R4]. set (q := Z.shiftr (h4 + q3) 51) in *.
  assert (Hq : 0 ≤ q ≤ 1) by lia. rewrite (wmul_small 64 19 q) by lia.
  rewrite (wadd_small 64 h0 (19 * q)) by lia. destruct (split51 (h0 + 19 * q)) as [D0 S0]. set (d0 := Z.shiftr (h0 + 19 * q) 51) in *.
  rewrite (wadd_small 64 h1 d0) by lia. destruct (split51 (h1 + d0)) as [D1 S1]. set (d1 := Z.shiftr (h1 + d0) 51) in *.
  rewrite (wadd_small 64 h2 d1) by lia. destruct (split51 (h2 + d1)) as [D2 S2]. set (d2 := Z.shiftr (h2 + d1) 51) in *.
  rewrite (wadd_small 64 h3 d2) by lia. destruct (split51 (h3 + d2)) as [D3 S3]. set (d3 := Z.shiftr (h3 + d2) 51) in *.
  rewrite (wadd_small 64 h4 d3) by lia. destruct (split51 (h4 + d3)) as [D4 S4]. set (d4 := Z.shiftr (h4 + d3) 51) in *.
  split; [unfold fe_below; cbn [f0 f1 f2 f3 f4]; lia|].
  unfold eqp in Hv. rewrite <- Hv. unfold P25519, fe_val in *. cbn [f0 f1 f2 f3 f4] in *.
  apply (Z.mod_unique_pos _ _ q); lia.
Qed.

Lemma le_bytes_app n m a b : 0 ≤ a < 2 ^ (8 * Z.of_nat n) → 0 ≤ b < 2 ^ (8 * Z.of_nat m) →
  le_bytes n a ++ le_bytes m b = le_bytes (n + m) (a + 2 ^ (8 * Z.of_nat n) * b).
Proof.
  intros Ha Hb. symmetry. rewrite <- (le_bytes_from_le (n + m) (le_bytes n a ++ le_bytes m b)) at 1.
  - by rewrite from_le_app, !from_le_small, length_bytes_le by done.
  - by rewrite length_app, !length_bytes_le.
Qed.

(** A word of the encoding: the rest of one limb below the start of the next. *)
Lemma pack_word k x y : 0 ≤ k ≤ 64 → 0 ≤ x < 2 ^ k →
  Z.lor x (wrap 64 (Z.shiftl y k)) = x + 2 ^ k * (y mod 2 ^ (64 - k)) ∧ 0 ≤ x + 2 ^ k * (y mod 2 ^ (64 - k)) < 2 ^ 64.
Proof.
  intros Hk Hx. assert (Hp : 0 < 2 ^ k) by lia. assert (Hq : 0 < 2 ^ (64 - k)) by (apply Z.pow_pos_nonneg; lia).
  assert (H64 : 2 ^ 64 = 2 ^ (64 - k) * 2 ^ k) by (rewrite <- Z.pow_add_r by lia; f_equal; lia).
  pose proof (Z.mod_pos_bound y (2 ^ (64 - k)) Hq). split; [|nia].
  unfold wrap. rewrite Z.shiftl_mul_pow2, H64, Z.mul_mod_distr_r by lia.
  rewrite <- Z.shiftl_mul_pow2, lor_shiftl by lia. lia.
Qed.

Lemma fe_to_bytes_ok f : tight f → fe_to_bytes f = le_bytes 32 (fe_val f mod P25519).
Proof.
  intros Hf. destruct (fe_freeze_ok f Hf) as [Hb <-]. unfold fe_to_bytes.
  destruct (fe_freeze f) as [l0 l1 l2 l3 l4]. unfold fe_below in Hb. cbn [f0 f1 f2 f3 f4] in Hb |- *.
  destruct Hb as (B0 & B1 & B2 & B3 & B4). rewrite !Z.shiftr_div_pow2 by lia.
  pose proof (Z.div_mod l1 (2 ^ 13) ltac:(lia)). pose proof (Z.mod_pos_bound l1 (2 ^ 13) ltac:(lia)).
  pose proof (Z.div_mod l2 (2 ^ 26) ltac:(lia)). pose proof (Z.mod_pos_bound l2 (2 ^ 26) ltac:(lia)).
  pose proof (Z.div_mod l3 (2 ^ 39) ltac:(lia)). pose proof (Z.mod_pos_bound l3 (2 ^ 39) ltac:(lia)).
  destruct (pack_word 51 l0 l1) as [-> W0]; [lia..|]. destruct (pack_word 38 (l1 / 2 ^ 13) l2) as [-> W1]; [lia..|].
  destruct (pack_word 25 (l2 / 2 ^ 26) l3) as [-> W2]; [lia..|]. destruct (pack_word 12 (l3 / 2 ^ 39) l4) as [-> W3]; [lia..|].
  change (64 - 51) with 13 in *. change (64 - 38) with 26 in *. change (64 - 25) with 39 in *. change (64 - 12) with 52 in *.
  rewrite (Z.mod_small l4) in * by lia.
  rewrite (le_bytes_app 8 8) by (change (8 * Z.of_nat 8) with 64; lia). cbn [Nat.add]. change (8 * Z.of_nat 8) with 64.
  set (w23 := _ + 2 ^ 64 * (l3 / 2 ^ 39 + _)).
  rewrite (le_bytes_app 8 16) by (change (8 * Z.of_nat 8) with 64; change (8 * Z.of_nat 16) with 128; unfold w23; lia).
  rewrite (le_bytes_app 8 24) by (change (8 * Z.of_nat 8) with 64; change (8 * Z.of_nat 24) with 192; unfold w23; lia).
  cbn [Nat.add]. change (8 * Z.of_nat 8) with 64. f_equal. unfold w23, fe_val. cbn [f0 f1 f2 f3 f4]. lia.
Qed.

(** ** The ladder *)

Lemma testbit_from_le k t : (t < 8 * length k)%nat →
  Z.testbit (from_le k) (Z.of_nat t) = Z.testbit (byte.unsigned (k !!! (t / 8)%nat)) (Z.of_nat t mod 8).
Proof.
  revert t. induction k as [|x k IH]; intros t Ht; cbn [length] in Ht; [lia|].
  change (x :: k) with ([x] ++ k) at 1. rewrite from_le_app, from_le_single. change (8 * Z.of_nat (length [x])) with 8.
  pose proof (byte.unsigned_range x) as Hx.
  rewrite Z.mul_comm, <- (lor_shiftl _ _ 8), Z.lor_spec, Z.shiftl_spec by lia.
  destruct (Nat.lt_ge_cases t 8) as [Hlt|Hge].
  - rewrite (Z.testbit_neg_r (from_le k)) by lia. rewrite orb_false_r, Nat.div_small by done.
    by rewrite Z.mod_small by lia.
  - rewrite (Z.bits_above_log2 (byte.unsigned x)) by
      (first [lia|destruct (Z.eq_dec (byte.unsigned x) 0) as [->|]; [cbn; lia|]; apply Z.log2_lt_pow2; [lia|];
              assert (2 ^ 8 ≤ 2 ^ Z.of_nat t) by (apply Z.pow_le_mono_r; lia); lia]).
    cbn [orb]. replace (Z.of_nat t - 8) with (Z.of_nat (t - 8)) by lia. rewrite IH by lia.
    replace (t / 8)%nat with (S ((t - 8) / 8)) by
      (pose proof (Nat.div_add (t - 8) 1 8 ltac:(lia)) as Hd; replace (t - 8 + 1 * 8)%nat with t in Hd by lia; lia).
    f_equal. replace (Z.of_nat t) with (Z.of_nat (t - 8) + 1 * 8) by lia. by rewrite Z_mod_plus_full.
Qed.

Lemma scalar_bit_eq k t : (t < 8 * length k)%nat → scalar_bit k t = Z.b2z (Z.testbit (from_le k) (Z.of_nat t)).
Proof.
  intros Ht. rewrite testbit_from_le by done. unfold scalar_bit. change 1 with (Z.ones 1) at 1. rewrite Z.land_ones by lia.
  rewrite Z.testbit_spec' by (apply Z.mod_pos_bound; lia). rewrite Z.shiftr_div_pow2 by (apply Z.mod_pos_bound; lia).
  by rewrite Z.pow_1_r.
Qed.

Record in_step (s : Ladder) (r : RfcLadder) : Prop := {
  st_x2 : holds (lx2 s) (rx2 r);
  st_z2 : holds (lz2 s) (rz2 r);
  st_x3 : holds (lx3 s) (rx3 r);
  st_z3 : holds (lz3 s) (rz3 r);
  st_swap : lswap s = Z.b2z (rswap r);
}.

Lemma cswap_in_step f g x y (b : bool) : holds f x → holds g y →
  ∃ f' g' x' y', fe_cswap f g (Z.b2z b) = (f', g') ∧ rfc_cswap b x y = (x', y') ∧ holds f' x' ∧ holds g' y'.
Proof.
  intros Hf Hg. rewrite fe_cswap_ok by first [exact (proj1 Hf)|exact (proj1 Hg)].
  destruct b; cbn [rfc_cswap]; eexists _, _, _, _; split_and!; done.
Qed.

Lemma ladder_step_ok k x1 x_1 s r t :
  (t < 8 * length k)%nat → holds x1 x_1 → in_step s r →
  in_step (ladder_step k x1 s t) (rfc_step (from_le k) x_1 r t).
Proof.
  intros Ht Hx1 [Hx2 Hz2 Hx3 Hz3 Hs]. unfold ladder_step, rfc_step. rewrite scalar_bit_eq, Hs by done.
  set (bit := Z.testbit (from_le k) (Z.of_nat t)).
  assert (Hxor : Z.lxor (Z.b2z (rswap r)) (Z.b2z bit) = Z.b2z (xorb (rswap r) bit)) by (by destruct (rswap r), bit).
  rewrite Hxor. set (b := xorb (rswap r) bit).
  destruct (cswap_in_step _ _ _ _ b Hx2 Hx3) as (x2 & x3 & x_2 & x_3 & -> & -> & H2 & H3).
  destruct (cswap_in_step _ _ _ _ b Hz2 Hz3) as (z2 & z3 & z_2 & z_3 & -> & -> & G2 & G3).
  pose proof (sums_add _ _ _ _ H2 G2) as Ha. pose proof (sums_mul _ _ _ _ Ha Ha) as Haa.
  pose proof (sums_sub _ _ _ _ (holds_sums _ _ H2) (holds_sums _ _ G2)) as Hb. pose proof (holds_square _ _ Hb) as Hbb.
  pose proof (sums_sub _ _ _ _ (holds_sums _ _ Haa) (holds_sums _ _ Hbb)) as He.
  pose proof (sums_add _ _ _ _ H3 G3) as Hc.
  pose proof (sums_sub _ _ _ _ (holds_sums _ _ H3) (holds_sums _ _ G3)) as Hd.
  pose proof (sums_mul _ _ _ _ (holds_sums _ _ Hd) Ha) as Hda. pose proof (sums_mul _ _ _ _ Hc (holds_sums _ _ Hb)) as Hcb.
  pose proof (sums_add _ _ _ _ Hda Hcb) as Hsum. pose proof (sums_sub _ _ _ _ (holds_sums _ _ Hda) (holds_sums _ _ Hcb)) as Hdiff.
  pose proof (holds_mul_small _ _ 121665 He ltac:(lia)) as Hem.
  split; cbn [lx2 lz2 lx3 lz3 lswap rx2 rz2 rx3 rz3 rswap]; [..|done];
    eapply holds_eqp; try (symmetry; apply eqp_mod).
  - exact (holds_mul _ _ _ _ Haa Hbb).
  - exact (sums_mul _ _ _ _ (holds_sums _ _ He) (sums_add _ _ _ _ Haa Hem)).
  - exact (sums_mul _ _ _ _ Hsum Hsum).
  - exact (holds_mul _ _ _ _ Hx1 (holds_square _ _ Hdiff)).
Qed.

Lemma ladder_ok k x1 x_1 ts s r :
  Forall (λ t, t < 8 * length k)%nat ts → holds x1 x_1 → in_step s r →
  in_step (fold_left (ladder_step k x1) ts s) (fold_left (rfc_step (from_le k) x_1) ts r).
Proof.
  intros Hts Hx. revert s r. induction Hts as [|t ts Ht Hts IH]; intros s r Hs; [done|].
  cbn [fold_left]. apply IH. by apply ladder_step_ok.
Qed.

Lemma holds_one : holds FE_ONE 1.
Proof. split; [unfold tight, fe_below; cbn; lia|reflexivity]. Qed.

Lemma holds_zero : holds FE_ZERO 0.
Proof. split; [unfold tight, fe_below; cbn; lia|reflexivity]. Qed.

Lemma length_clamp_scalar scalar : length (clamp_scalar scalar) = length scalar.
Proof. unfold clamp_scalar. by rewrite !length_insert. Qed.

(** C39: The scalar multiplication on limbs is the function X25519 of RFC 7748 on
    all 32-byte scalars and points: the carries, the folding of the high limbs,
    the wide reductions, the masked swaps, the inversion chain and the final
    freeze compute the ladder on integers modulo 2^255 - 19. *)
Theorem x25519_matches_rfc7748 scalar u :
  length scalar = 32%nat → length u = 32%nat → scalarmult scalar u = x25519_spec scalar u.
Proof.
  intros Hk Hu. unfold scalarmult, x25519_spec. pose proof (holds_from_bytes u Hu) as Hx1.
  assert (Hts : Forall (λ t, t < 8 * length (clamp_scalar scalar))%nat (rev (seq 0 255))).
  { apply list.Forall_forall. intros t Ht%list_elem_of_In%in_rev%list_elem_of_In%elem_of_seq.
    rewrite length_clamp_scalar. lia. }
  assert (Hinit : in_step (mkLadder FE_ONE FE_ZERO (fe_from_bytes u) FE_ONE 0) (mkRfc 1 0 (from_le u mod 2 ^ 255) 1 false))
    by (split; [apply holds_one|apply holds_zero|exact Hx1|apply holds_one|done]).
  destruct (ladder_ok _ _ _ _ _ _ Hts Hx1 Hinit) as [Hx2 Hz2 Hx3 Hz3 Hs].
  set (s := fold_left (ladder_step _ _) _ _) in *. set (r := fold_left (rfc_step _ _) _ _) in *. rewrite Hs.
  destruct (cswap_in_step _ _ _ _ (rswap r) Hx2 Hx3) as (x2 & x3 & x_2 & x_3 & -> & -> & H2 & _).
  destruct (cswap_in_step _ _ _ _ (rswap r) Hz2 Hz3) as (z2 & z3 & z_2 & z_3 & -> & -> & G2 & _).
  destruct (holds_mul _ _ _ _ H2 (holds_invert _ _ G2)) as [Ht Hv]. rewrite fe_to_bytes_ok by done. unfold eqp in Hv.
  by rewrite Hv.
Qed.

Lemma x25519_matches_rfc7748_witness :
  scalarmult (replicate 32 Byte.x07) BASE_POINT = x25519_spec (replicate 32 Byte.x07) BASE_POINT.
Proof. apply x25519_matches_rfc7748; reflexivity. Defined.
