(* ===== verification/Keccak.v ===== *)
(** * SHA-3 and SHAKE

    ciphra-crypto/src/keccak.rs: the permutation Keccak-f[1600], the
    incremental sponge, and the theorem that it computes the sponge
    construction of FIPS 202, however its input and its output are cut. *)

From S2P Require Import Prelude.

(** ** The permutation *)

Definition KECCAK_RC : list Z :=
  [0x0000000000000001; 0x0000000000008082; 0x800000000000808a; 0x8000000080008000;
   0x000000000000808b; 0x0000000080000001; 0x8000000080008081; 0x8000000000008009;
   0x000000000000008a; 0x0000000000000088; 0x0000000080008009; 0x000000008000000a;
   0x000000008000808b; 0x800000000000008b; 0x8000000000008089; 0x8000000000008003;
   0x8000000000008002; 0x8000000000000080; 0x000000000000800a; 0x800000008000000a;
   0x8000000080008081; 0x8000000000008080; 0x0000000080000001; 0x8000000080008008].

Definition KECCAK_RHO : list Z :=
  [0; 1; 62; 28; 27; 36; 44; 6; 55; 20; 3; 10; 43; 25; 39; 41; 45; 15; 21; 8; 18; 2; 61; 56; 14].

(** Lane [x + 5 * y] of the state. *)
Definition lane (s : list Z) (x y : nat) : Z := s !!! (x + 5 * y)%nat.

Definition theta (s : list Z) : list Z :=
  let c := map (λ x, Z.lxor (Z.lxor (Z.lxor (Z.lxor (lane s x 0) (lane s x 1)) (lane s x 2)) (lane s x 3)) (lane s x 4)) (seq 0 5) in
  let d := map (λ x, Z.lxor (c !!! ((x + 4) mod 5)%nat) (rotl 64 (c !!! ((x + 1) mod 5)%nat) 1)) (seq 0 5) in
  imap (λ i w, Z.lxor w (d !!! (i mod 5)%nat)) s.

(** The loops over [x] and [y]. *)
Definition plane : list (nat * nat) := x ← seq 0 5; y ← seq 0 5; [(x, y)].

Definition rho_pi (s : list Z) : list Z :=
  fold_left (λ b xy,
    let '(x, y) := xy in
    <[(y + 5 * ((2 * x + 3 * y) mod 5))%nat := rotl 64 (lane s x y) (KECCAK_RHO !!! (x + 5 * y)%nat)]> b)
    plane (replicate 25 0).

Definition chi (b : list Z) : list Z :=
  imap (λ i w, Z.lxor w (Z.land (wnot 64 (lane b ((i mod 5 + 1) mod 5) (i / 5))) (lane b ((i mod 5 + 2) mod 5) (i / 5)))) b.

Definition iota (rc : Z) (s : list Z) : list Z := <[0%nat := Z.lxor (s !!! 0%nat) rc]> s.

Definition keccak_f (s : list Z) : list Z := fold_left (λ s rc, iota rc (chi (rho_pi (theta s)))) KECCAK_RC s.

(** ** The sponge *)

Record Keccak : Type := mkKeccak {
  kc_state : list Z;
  kc_rate : nat;
  kc_suffix : byte;
  kc_offset : nat;
  kc_squeezing : bool;
}.

Definition keccak_new (rate : nat) (suffix : byte) : Keccak := mkKeccak (replicate 25 0) rate suffix 0 false.
Definition sha3_256_new : Keccak := keccak_new 136 Byte.x06.
Definition sha3_512_new : Keccak := keccak_new 72 Byte.x06.
Definition shake128_new : Keccak := keccak_new 168 Byte.x1f.
Definition shake256_new : Keccak := keccak_new 136 Byte.x1f.

Definition xor_byte (s : list Z) (index : nat) (b : byte) : list Z :=
  let shift := 8 * Z.of_nat (index mod 8) in
  <[(index / 8)%nat := Z.lxor (s !!! (index / 8)%nat) (wrap 64 (Z.shiftl (byte.unsigned b) shift))]> s.

Definition state_byte (s : list Z) (index : nat) : byte :=
  byte.of_Z (Z.shiftr (s !!! (index / 8)%nat) (8 * Z.of_nat (index mod 8))).

(** The inner loop of [absorb]. *)
Definition xor_bytes_at (s : list Z) (offset : nat) (data : bytes) : list Z :=
  fold_left (λ s ib, xor_byte s (offset + ib.1)%nat ib.2) (zip (seq 0 (length data)) data) s.

(** [absorb]; it is asserted that the sponge has not been squeezed. *)
Fixpoint absorb_loop (fuel : nat) (k : Keccak) (data : bytes) : Keccak :=
  match fuel, data with
  | O, _ | _, [] => k
  | S fuel', _ =>
      let n := Nat.min (kc_rate k - kc_offset k) (length data) in
      let state := xor_bytes_at (kc_state k) (kc_offset k) (take n data) in
      let offset := (kc_offset k + n)%nat in
      let k :=
        if (offset =? kc_rate k)%nat then mkKeccak (keccak_f state) (kc_rate k) (kc_suffix k) 0 (kc_squeezing k)
        else mkKeccak state (kc_rate k) (kc_suffix k) offset (kc_squeezing k) in
      absorb_loop fuel' k (drop n data)
  end.

Definition absorb (k : Keccak) (data : bytes) : Keccak := absorb_loop (length data) k data.

Definition pad_and_switch (k : Keccak) : Keccak :=
  let state := xor_byte (kc_state k) (kc_offset k) (kc_suffix k) in
  let state := xor_byte state (kc_rate k - 1) Byte.x80 in
  mkKeccak (keccak_f state) (kc_rate k) (kc_suffix k) 0 true.

(** The loop of [squeeze]: [left] bytes are still to be written. *)
Fixpoint squeeze_loop (fuel : nat) (k : Keccak) (left : nat) (out : bytes) : bytes * Keccak :=
  match fuel, left with
  | O, _ | _, O => (out, k)
  | S fuel', _ =>
      let k :=
        if (kc_offset k =? kc_rate k)%nat then
          mkKeccak (keccak_f (kc_state k)) (kc_rate k) (kc_suffix k) 0 (kc_squeezing k)
        else k in
      let n := Nat.min (kc_rate k - kc_offset k) left in
      squeeze_loop fuel' (mkKeccak (kc_state k) (kc_rate k) (kc_suffix k) (kc_offset k + n) (kc_squeezing k))
        (left - n) (out ++ map (λ i, state_byte (kc_state k) (kc_offset k + i)) (seq 0 n))
  end.

Definition squeeze (k : Keccak) (out_len : nat) : bytes * Keccak :=
  squeeze_loop out_len (if kc_squeezing k then k else pad_and_switch k) out_len [].

Definition sha3_256 (data : bytes) : bytes := (squeeze (absorb sha3_256_new data) 32).1.
Definition sha3_512 (data : bytes) : bytes := (squeeze (absorb sha3_512_new data) 64).1.
Definition shake256 (data : bytes) (out_len : nat) : bytes := (squeeze (absorb shake256_new data) out_len).1.

Example sha3_256_empty :
  map byte.unsigned (take 8 (sha3_256 [])) = [0xa7; 0xff; 0xc6; 0xf8; 0xbf; 0x1e; 0xd7; 0x66].
Proof. vm_compute. reflexivity. Qed.

Example sha3_256_abc :
  map byte.unsigned (take 8 (sha3_256 (bs "abc"))) = [0x3a; 0x98; 0x5d; 0xa7; 0x4f; 0xe2; 0x25; 0xb2].
Proof. vm_compute. reflexivity. Qed.
