(* ===== verification/KeccakFacts.v ===== *)
(** * The incremental sponge is the sponge of FIPS 202

    Both phases are first shown to work byte by byte; cutting the input or the
    output into pieces then changes nothing. *)

From S2P Require Import Prelude ChaCha20 Keccak.

(** ** FIPS 202, sections 4 and 5.1 *)

(** The suffix bits and the padding, for a message of [len] bytes. *)
Definition sponge_pad (rate : nat) (suffix : byte) (len : nat) : bytes :=
  let free := (rate - len mod rate)%nat in
  if (free =? 1)%nat then [byte.of_Z (Z.lxor (byte.unsigned suffix) 0x80)]
  else suffix :: replicate (free - 2) Byte.x00 ++ [Byte.x80].

Definition sponge_absorb (rate : nat) (padded : bytes) : list Z :=
  fold_left (λ s block, keccak_f (xor_bytes_at s 0 block)) (chunks rate padded) (replicate 25 0).

(** Output byte [i]: byte [i mod rate] of the state after [i / rate] more
    permutations. *)
Definition sponge_byte (rate : nat) (s : list Z) (i : nat) : byte :=
  state_byte (Nat.iter (i / rate) keccak_f s) (i mod rate).

Definition sponge (rate : nat) (suffix : byte) (message : bytes) (out_len : nat) : bytes :=
  map (sponge_byte rate (sponge_absorb rate (message ++ sponge_pad rate suffix (length message)))) (seq 0 out_len).

#[local] Opaque keccak_f.

(** ** Absorbing byte by byte *)

Section sponge.
Context (rate : nat) (Hrate : (0 < rate)%nat).

(** The state and the offset after one more byte. *)
Definition absorb_byte (so : list Z * nat) (b : byte) : list Z * nat :=
  let s := xor_byte so.1 so.2 b in
  if (S so.2 =? rate)%nat then (keccak_f s, 0%nat) else (s, S so.2).

Lemma xor_bytes_at_cons s o b data : xor_bytes_at s o (b :: data) = xor_bytes_at (xor_byte s o b) (S o) data.
Proof.
  unfold xor_bytes_at. cbn [length seq zip_with fold_left fst snd]. rewrite Nat.add_0_r.
  generalize 0%nat (xor_byte s o b). intros k s1. revert k s1. induction data as [|c data IH]; intros k s1; [done|].
  cbn [length seq zip_with fold_left fst snd]. replace (o + S k)%nat with (S o + k)%nat by lia. apply IH.
Qed.

Lemma absorb_bytes_at s o data :
  (o + length data ≤ rate)%nat → data ≠ [] →
  fold_left absorb_byte data (s, o)
  = if (o + length data =? rate)%nat then (keccak_f (xor_bytes_at s o data), 0%nat) else (xor_bytes_at s o data, (o + length data)%nat).
Proof.
  revert s o. induction data as [|b data IH]; intros s o Hl Hne; [done|]. clear Hne. cbn [length fold_left] in *.
  rewrite xor_bytes_at_cons. unfold absorb_byte at 2. cbn [fst snd].
  destruct data as [|c data]; cbn [length] in *.
  - replace (o + 1)%nat with (S o) by lia. destruct (Nat.eqb_spec (S o) rate); done.
  - destruct (Nat.eqb_spec (S o) rate); [lia|]. rewrite IH by (done || cbn; lia). cbn [length].
    by replace (S o + S (length data))%nat with (o + S (S (length data)))%nat by lia.
Qed.

(** A sponge of this rate, as its state and offset. *)
Definition sponge_state (k : Keccak) : list Z * nat := (kc_state k, kc_offset k).

Lemma absorb_loop_bytes fuel k data :
  kc_rate k = rate → (kc_offset k < rate)%nat → (length data ≤ fuel)%nat →
  let k' := absorb_loop fuel k data in
  sponge_state k' = fold_left absorb_byte data (sponge_state k)
  ∧ (kc_offset k' < rate)%nat ∧ kc_rate k' = rate ∧ kc_suffix k' = kc_suffix k ∧ kc_squeezing k' = kc_squeezing k.
Proof.
  revert k data. induction fuel as [|fuel IH]; intros k data Hk Ho Hf.
  { destruct data; [done|cbn in Hf; lia]. }
  destruct data as [|b data]; [done|]. cbn [absorb_loop]. set (d := b :: data) in *.
  set (n := Nat.min (kc_rate k - kc_offset k) (length d)).
  assert (Hn : (0 < n ≤ rate - kc_offset k ∧ n ≤ length d)%nat) by (unfold n, d; cbn [length]; lia).
  assert (Htn : length (take n d) = n) by (rewrite length_take; lia).
  assert (Hne : take n d ≠ []) by (intros E; apply (f_equal length) in E; rewrite Htn in E; cbn [length] in E; lia).
  set (k1 := if (_ =? _)%nat then _ else _).
  assert (Hk1 : sponge_state k1 = fold_left absorb_byte (take n d) (sponge_state k) ∧ (kc_offset k1 < rate)%nat
    ∧ kc_rate k1 = rate ∧ kc_suffix k1 = kc_suffix k ∧ kc_squeezing k1 = kc_squeezing k).
  { unfold sponge_state. rewrite absorb_bytes_at by (rewrite ?Htn; first [lia|exact Hne]).
    rewrite Htn, <- Hk. unfold k1. destruct (Nat.eqb_spec (kc_offset k + n) (kc_rate k)); cbn; split_and!; done || lia. }
  destruct Hk1 as (Hs & Ho1 & Hr1 & Hx1 & Hq1).
  destruct (IH k1 (drop n d) Hr1 Ho1) as (Hs' & Ho' & Hr' & Hx' & Hq'); [rewrite length_drop; unfold d in *; cbn [length] in *; lia|].
  split_and!; try congruence. rewrite Hs', Hs, <- fold_left_app. by rewrite take_drop.
Qed.

Lemma absorb_bytes k data :
  kc_rate k = rate → (kc_offset k < rate)%nat →
  let k' := absorb k data in
  sponge_state k' = fold_left absorb_byte data (sponge_state k)
  ∧ (kc_offset k' < rate)%nat ∧ kc_rate k' = rate ∧ kc_suffix k' = kc_suffix k ∧ kc_squeezing k' = kc_squeezing k.
Proof. intros Hk Ho. by apply absorb_loop_bytes. Qed.

Lemma absorb_pieces k pieces :
  kc_rate k = rate → (kc_offset k < rate)%nat →
  let k' := fold_left absorb pieces k in
  sponge_state k' = fold_left absorb_byte (concat pieces) (sponge_state k)
  ∧ (kc_offset k' < rate)%nat ∧ kc_rate k' = rate ∧ kc_suffix k' = kc_suffix k ∧ kc_squeezing k' = kc_squeezing k.
Proof.
  revert k. induction pieces as [|p pieces IH]; intros k Hk Ho; [done|]. cbn [fold_left concat].
  destruct (absorb_bytes k p Hk Ho) as (Hs & Ho1 & Hr1 & Hx1 & Hq1).
  destruct (IH _ Hr1 Ho1) as (Hs' & Ho' & Hr' & Hx' & Hq'). split_and!; try congruence.
  by rewrite Hs', Hs, fold_left_app.
Qed.

(** *** Whole blocks *)

Lemma absorb_block s block : length block = rate → fold_left absorb_byte block (s, 0%nat) = (keccak_f (xor_bytes_at s 0 block), 0%nat).
Proof.
  intros Hb. rewrite absorb_bytes_at by (try lia; intros ->; cbn in Hb; lia). rewrite Hb. by rewrite Nat.eqb_refl.
Qed.

Lemma absorb_blocks n s data :
  length data = (n * rate)%nat →
  fold_left absorb_byte data (s, 0%nat)
  = (fold_left (λ s block, keccak_f (xor_bytes_at s 0 block)) (chunks rate data) s, 0%nat).
Proof.
  revert s data. induction n as [|n IH]; intros s data Hd; [by destruct data|].
  assert (Hne : data ≠ []) by (intros ->; cbn in Hd; lia).
  rewrite chunks_step by done. cbn [fold_left]. rewrite <- (take_drop rate data) at 1.
  rewrite fold_left_app, absorb_block by (rewrite length_take; lia). apply IH. rewrite length_drop. lia.
Qed.

(** *** The padding *)

Lemma xor_byte_zero s i : xor_byte s i Byte.x00 = s.
Proof.
  unfold xor_byte. change (byte.unsigned Byte.x00) with 0. rewrite Z.shiftl_0_l. unfold wrap. rewrite Z.mod_0_l by lia.
  rewrite Z.lxor_0_r. destruct (decide (i / 8 < length s)%nat) as [Hi|Hi].
  - apply list_insert_id. by apply list_lookup_lookup_total_lt.
  - apply list_insert_ge. lia.
Qed.

Lemma wrap_lxor w a b : 0 ≤ w → wrap w (Z.lxor a b) = Z.lxor (wrap w a) (wrap w b).
Proof.
  intros Hw. unfold wrap. rewrite <- !Z.land_ones by done. apply Z.bits_inj'. intros i Hi.
  rewrite !Z.lxor_spec, !Z.land_spec, Z.lxor_spec. by destruct (Z.testbit a i), (Z.testbit b i), (Z.testbit (Z.ones w) i).
Qed.

Lemma xor_byte_twice s i a b :
  xor_byte (xor_byte s i a) i b = xor_byte s i (byte.of_Z (Z.lxor (byte.unsigned a) (byte.unsigned b))).
Proof.
  unfold xor_byte. destruct (decide (i / 8 < length s)%nat) as [Hi|Hi].
  - rewrite list_lookup_total_insert_eq by done. rewrite list_insert_insert_eq. f_equal.
    rewrite Z.lxor_assoc, <- wrap_lxor, <- Z.shiftl_lxor by lia. do 3 f_equal.
    rewrite byte.unsigned_of_Z. unfold byte.wrap. symmetry. apply Z.mod_small.
    apply (in_u_lxor 8); [lia|apply byte.unsigned_range..].
  - rewrite (list_insert_ge s) by lia. by rewrite !list_insert_ge by lia.
Qed.

Lemma xor_bytes_at_zeros s o n data :
  xor_bytes_at s o (replicate n Byte.x00 ++ data) = xor_bytes_at s (o + n) data.
Proof.
  revert o. induction n as [|n IH]; intros o; [by rewrite Nat.add_0_r|].
  cbn [replicate app]. rewrite xor_bytes_at_cons, xor_byte_zero, IH. f_equal. lia.
Qed.

Definition pad_bytes (suffix : byte) (free : nat) : bytes :=
  if (free =? 1)%nat then [byte.of_Z (Z.lxor (byte.unsigned suffix) 0x80)]
  else suffix :: replicate (free - 2) Byte.x00 ++ [Byte.x80].

Lemma length_pad_bytes suffix free : (0 < free)%nat → length (pad_bytes suffix free) = free.
Proof.
  intros Hf. unfold pad_bytes. destruct (Nat.eqb_spec free 1); [cbn; lia|].
  cbn [length]. rewrite length_app, length_replicate. cbn [length]. lia.
Qed.

(** Padding is absorbing the padding bytes. *)
Lemma absorb_pad s o suffix :
  (o < rate)%nat →
  fold_left absorb_byte (pad_bytes suffix (rate - o)) (s, o)
  = (keccak_f (xor_byte (xor_byte s o suffix) (rate - 1) Byte.x80), 0%nat).
Proof.
  intros Ho. assert (Hl : length (pad_bytes suffix (rate - o)) = (rate - o)%nat) by (apply length_pad_bytes; lia).
  assert (Hne : pad_bytes suffix (rate - o) ≠ []) by (intros E; rewrite E in Hl; cbn [length] in Hl; lia).
  rewrite absorb_bytes_at by (rewrite ?Hl; first [lia|exact Hne]). rewrite Hl.
  destruct (Nat.eqb_spec (o + (rate - o)) rate); [|lia]. do 2 f_equal. unfold pad_bytes.
  destruct (Nat.eqb_spec (rate - o) 1) as [E|E].
  - rewrite xor_bytes_at_cons. replace (rate - 1)%nat with o by lia. by rewrite xor_byte_twice.
  - rewrite xor_bytes_at_cons, xor_bytes_at_zeros, xor_bytes_at_cons.
    by replace (S o + (rate - o - 2))%nat with (rate - 1)%nat by lia.
Qed.

Lemma absorb_offset data s o :
  (o < rate)%nat → (fold_left absorb_byte data (s, o)).2 = ((o + length data) mod rate)%nat.
Proof.
  revert s o. induction data as [|b data IH]; intros s o Ho; cbn [fold_left length].
  { rewrite Nat.add_0_r. by rewrite Nat.mod_small. }
  unfold absorb_byte at 2. cbn [fst snd]. destruct (Nat.eqb_spec (S o) rate) as [E|E].
  - rewrite IH by done. replace (o + S (length data))%nat with (length data + 1 * rate)%nat by lia.
    rewrite Nat.Div0.mod_add. done.
  - rewrite IH by lia. f_equal. lia.
Qed.

(** What the switch to squeezing leaves: the absorbed padded message. *)
Lemma padded_state suffix pieces :
  let k := fold_left absorb pieces (keccak_new rate suffix) in
  let k' := pad_and_switch k in
  kc_state k' = sponge_absorb rate (concat pieces ++ sponge_pad rate suffix (length (concat pieces)))
  ∧ kc_offset k' = 0%nat ∧ kc_rate k' = rate ∧ kc_squeezing k' = true ∧ kc_squeezing k = false.
Proof.
  intros k k'. destruct (absorb_pieces (keccak_new rate suffix) pieces) as (Hs & Ho & Hr & Hx & Hq); [done|done|].
  fold k in Hs, Ho, Hr, Hx, Hq. cbn [kc_suffix kc_squeezing keccak_new] in Hx, Hq.
  unfold k', pad_and_switch. cbn [kc_state kc_offset kc_rate kc_squeezing]. split_and!; [|done..].
  set (data := concat pieces) in *.
  change (sponge_state (keccak_new rate suffix)) with (replicate 25 0, 0%nat) in Hs.
  assert (Hoff : kc_offset k = (length data mod rate)%nat)
    by (pose proof (absorb_offset data (replicate 25 0) 0 Hrate) as Hoff; rewrite <- Hs in Hoff; exact Hoff).
  set (pad := sponge_pad rate suffix (length data)).
  assert (Hpad : pad = pad_bytes suffix (rate - kc_offset k)) by (by rewrite Hoff).
  pose proof (absorb_blocks (length data / rate + 1) (replicate 25 0) (data ++ pad)) as Hb.
  rewrite fold_left_app, <- Hs, Hpad in Hb. unfold sponge_state in Hb. rewrite absorb_pad in Hb by done.
  rewrite Hr, Hx. unfold sponge_absorb. rewrite Hpad.
  assert (Hlen : length (data ++ pad_bytes suffix (rate - kc_offset k)) = ((length data / rate + 1) * rate)%nat).
  { rewrite length_app, length_pad_bytes by lia. rewrite Hoff.
    pose proof (Nat.div_mod_eq (length data) rate). pose proof (Nat.mod_upper_bound (length data) rate ltac:(lia)). nia. }
  apply Hb in Hlen. by injection Hlen.
Qed.

(** ** Squeezing byte by byte *)

(** [k] has given [j] bytes of the stream of [s]. *)
Definition squeezed (s : list Z) (j : nat) (k : Keccak) : Prop :=
  ∃ q, kc_state k = Nat.iter q keccak_f s ∧ j = (q * rate + kc_offset k)%nat
    ∧ (kc_offset k ≤ rate)%nat ∧ kc_rate k = rate ∧ kc_squeezing k = true.

Lemma squeeze_run s q o n :
  (o + n ≤ rate)%nat →
  map (λ i, state_byte (Nat.iter q keccak_f s) (o + i)) (seq 0 n) = map (sponge_byte rate s) (seq (q * rate + o) n).
Proof.
  intros Hn. rewrite <- (Nat.add_0_r (q * rate + o)), <- fmap_add_seq. rewrite map_map.
  apply map_ext_in. intros i Hi%in_seq. unfold sponge_byte.
  rewrite <- Nat.add_assoc, (Nat.add_comm (q * rate)), Nat.div_add, Nat.Div0.mod_add by lia.
  rewrite Nat.div_small, Nat.mod_small by lia. done.
Qed.

Lemma squeeze_loop_spec fuel s j k n out :
  squeezed s j k → (n ≤ fuel)%nat →
  let r := squeeze_loop fuel k n out in
  r.1 = out ++ map (sponge_byte rate s) (seq j n) ∧ squeezed s (j + n) r.2.
Proof.
  revert j k n out. induction fuel as [|fuel IH]; intros j k n out Hk Hf.
  { replace n with 0%nat by lia. cbn. by rewrite app_nil_r, Nat.add_0_r. }
  destruct n as [|n]; [cbn; by rewrite app_nil_r, Nat.add_0_r|]. cbn [squeeze_loop].
  set (k1 := if (_ =? _)%nat then _ else _).
  assert (Hk1 : squeezed s j k1 ∧ (kc_offset k1 < rate)%nat).
  { destruct Hk as (q & Hs & Hj & Ho & Hr & Hq). unfold k1. rewrite Hr.
    destruct (Nat.eqb_spec (kc_offset k) rate) as [E|E]; (split; [|cbn; lia]).
    - exists (S q). cbn. rewrite Hs. split_and!; done || lia.
    - exists q. split_and!; done. }
  clearbody k1. destruct Hk1 as [(q & Hs & Hj & Ho & Hr & Hq) Hlt].
  set (m := Nat.min (kc_rate k1 - kc_offset k1) (S n)). assert (Hm : (0 < m ≤ rate - kc_offset k1 ∧ m ≤ S n)%nat) by lia.
  destruct (IH (j + m)%nat (mkKeccak (kc_state k1) (kc_rate k1) (kc_suffix k1) (kc_offset k1 + m) (kc_squeezing k1))
    (S n - m)%nat (out ++ map (λ i, state_byte (kc_state k1) (kc_offset k1 + i)) (seq 0 m))) as [H1 H2].
  - exists q. cbn. split_and!; done || lia.
  - lia.
  - cbn zeta. rewrite H1. split; [|by replace (j + S n)%nat with (j + m + (S n - m))%nat by lia].
    rewrite Hs, squeeze_run, <- Hj, <- app_assoc, <- map_app, <- seq_app by lia. do 3 f_equal. lia.
Qed.

(** Several squeezes, one after the other. *)
Fixpoint squeezes (k : Keccak) (ns : list nat) : bytes :=
  match ns with
  | [] => []
  | n :: ns' => let '(out, k') := squeeze k n in out ++ squeezes k' ns'
  end.

Lemma squeezes_spec s j k ns :
  squeezed s j k → squeezes k ns = map (sponge_byte rate s) (seq j (sum_list ns)).
Proof.
  revert j k. induction ns as [|n ns IH]; intros j k Hk; [done|]. cbn [squeezes].
  assert (Hsq : kc_squeezing k = true) by (by destruct Hk as (q & ? & ? & ? & ? & ?)).
  unfold squeeze. rewrite Hsq. destruct (squeeze_loop_spec n s j k n [] Hk (le_n _)) as [H1 H2].
  destruct (squeeze_loop n k n []) as [out k']. cbn [fst snd] in H1, H2. rewrite H1, (IH _ _ H2).
  cbn [app]. by rewrite <- map_app, <- seq_app.
Qed.
End sponge.

(** What the code reads of a sponge has the length it asks for. *)
Lemma length_squeeze_loop fuel k n out :
  (0 < kc_rate k)%nat → (kc_offset k ≤ kc_rate k)%nat → (n ≤ fuel)%nat →
  let r := squeeze_loop fuel k n out in
  length r.1 = (length out + n)%nat ∧ kc_rate r.2 = kc_rate k ∧ (kc_offset r.2 ≤ kc_rate r.2)%nat.
Proof.
  revert k n out. induction fuel as [|fuel IH]; intros k n out Hr Ho Hf.
  { cbn. split_and!; done || lia. }
  destruct n as [|n]; [cbn; split_and!; done || lia|]. cbn [squeeze_loop].
  set (k1 := if (_ =? _)%nat then _ else _).
  assert (Hk1 : kc_rate k1 = kc_rate k ∧ (kc_offset k1 < kc_rate k1)%nat).
  { unfold k1. destruct (Nat.eqb_spec (kc_offset k) (kc_rate k)); (split; [done | cbn; lia]). }
  clearbody k1. destruct Hk1 as [Hr1 Ho1]. set (m := Nat.min (kc_rate k1 - kc_offset k1) (S n)).
  destruct (IH (mkKeccak (kc_state k1) (kc_rate k1) (kc_suffix k1) (kc_offset k1 + m) (kc_squeezing k1))
    (S n - m)%nat (out ++ map (λ i, state_byte (kc_state k1) (kc_offset k1 + i)) (seq 0 m))) as (H1 & H2 & H3);
    [cbn; lia.. |].
  cbn zeta. rewrite H1, length_app, length_map, length_seq. cbn in H2, H3. split_and!; [lia | congruence | done].
Qed.

Definition sponge_ok (k : Keccak) : Prop := (0 < kc_rate k)%nat ∧ (kc_offset k ≤ kc_rate k)%nat.

Lemma length_squeeze k n : sponge_ok k → length (squeeze k n).1 = n ∧ sponge_ok (squeeze k n).2.
Proof.
  intros [Hr Ho]. unfold squeeze.
  assert (H : sponge_ok (if kc_squeezing k then k else pad_and_switch k)).
  { destruct (kc_squeezing k); [done|]. split; cbn; lia. }
  destruct H as [Hr' Ho']. destruct (length_squeeze_loop n _ n [] Hr' Ho' (le_n n)) as (H1 & H2 & H3).
  split; [exact H1|]. split; [by rewrite H2 | exact H3].
Qed.

Lemma sponge_ok_absorb k data : sponge_ok k → (kc_offset k < kc_rate k)%nat →
  sponge_ok (absorb k data) ∧ (kc_offset (absorb k data) < kc_rate (absorb k data))%nat.
Proof.
  intros [Hr Ho] Hlt. destruct (absorb_bytes (kc_rate k) Hr k data eq_refl Hlt) as (_ & H1 & H2 & _).
  unfold sponge_ok. rewrite H2. lia.
Qed.

Lemma length_hash r x data n : (0 < r)%nat → length (squeeze (absorb (keccak_new r x) data) n).1 = n.
Proof.
  intros Hr. apply length_squeeze. apply sponge_ok_absorb; [|done]. split; cbn; lia.
Qed.
Lemma length_sha3_256 data : length (sha3_256 data) = 32%nat.
Proof. apply length_hash. lia. Qed.
Lemma length_sha3_512 data : length (sha3_512 data) = 64%nat.
Proof. apply length_hash. lia. Qed.
Lemma length_shake256 data n : length (shake256 data n) = n.
Proof. apply length_hash. lia. Qed.

(** The incremental sponge is the specification, piece by piece. *)
Lemma squeezes_pieces rate suffix pieces n ns :
  (0 < rate)%nat →
  squeezes (fold_left absorb pieces (keccak_new rate suffix)) (n :: ns)
  = sponge rate suffix (concat pieces) (n + sum_list ns).
Proof.
  intros Hrate. destruct (padded_state rate Hrate suffix pieces) as (Hs & Ho & Hr & Hq & Hk).
  set (k := fold_left absorb pieces _) in *. unfold sponge. rewrite <- Hs.
  transitivity (squeezes (pad_and_switch k) (n :: ns)).
  - cbn [squeezes]. unfold squeeze. by rewrite Hk, Hq.
  - apply (squeezes_spec rate Hrate _ 0 (pad_and_switch k) (n :: ns)). exists 0%nat. rewrite Ho, Hr, Hq. split_and!; done || lia.
Qed.
(** Absorbing piece by piece is hashing the concatenation. *)
Lemma squeeze_pieces rate suffix pieces n :
  (0 < rate)%nat →
  (squeeze (fold_left absorb pieces (keccak_new rate suffix)) n).1 = (squeeze (absorb (keccak_new rate suffix) (concat pieces)) n).1.
Proof.
  intros Hrate.
  assert (E : ∀ ps, (squeeze (fold_left absorb ps (keccak_new rate suffix)) n).1 = sponge rate suffix (concat ps) n).
  { intros ps. pose proof (squeezes_pieces rate suffix ps n [] Hrate) as H. cbn [squeezes sum_list] in H.
    destruct (squeeze _ n) as [out k]. by rewrite app_nil_r, Nat.add_0_r in H. }
  rewrite E. rewrite <- (app_nil_r (concat pieces)) at 1. symmetry. exact (E [concat pieces]).
Qed.

(** C40: However a message is cut into pieces for [absorb] and its output into
    pieces for [squeeze], the incremental sponge gives the output of the
    sponge construction of FIPS 202 on the whole message, with the domain
    suffix and the padding, also when the padding is a single byte. *)
Theorem keccak_streaming_matches_spec rate suffix pieces n ns :
  (0 < rate)%nat →
  squeezes (fold_left absorb pieces (keccak_new rate suffix)) (n :: ns)
  = sponge rate suffix (concat pieces) (n + sum_list ns).
Proof. apply squeezes_pieces. Qed.

Lemma keccak_streaming_matches_spec_witness :
  squeezes (fold_left absorb [bs "cip"; bs "hra"] shake128_new) [3; 200]%nat
  = sponge 168 Byte.x1f (concat [bs "cip"; bs "hra"]) (3 + sum_list [200])%nat.
Proof. apply (keccak_streaming_matches_spec 168 Byte.x1f [bs "cip"; bs "hra"] 3 [200]%nat). lia. Defined.
