(* ===== verification/Ntt.v ===== *)
(** * Transforms over Z modulo q

    What the two number-theoretic transforms of the program share: congruence
    modulo [q] and its setoid structure, butterflies on blocks of
    coefficients, layers of butterflies, linear operators on vectors, and the
    inverse of a layer. *)

From S2P Require Import Prelude.

(** ** Congruence modulo q *)

Definition cong (q x y : Z) : Prop := x mod q = y mod q.
Declare Scope ntt_scope.
Notation "x ≡[ q ] y" := (cong q x y) (at level 70, q at level 50, no associativity) : ntt_scope.
#[local] Open Scope ntt_scope.

#[export] Instance cong_equiv q : Equivalence (cong q).
Proof. unfold cong. split; red; intros; congruence. Qed.
#[export] Instance cong_add q : Proper (cong q ==> cong q ==> cong q) Z.add.
Proof. unfold cong. intros a b H c d H'. rewrite (Zplus_mod a c), (Zplus_mod b d), H, H'. reflexivity. Qed.
#[export] Instance cong_mul q : Proper (cong q ==> cong q ==> cong q) Z.mul.
Proof. unfold cong. intros a b H c d H'. rewrite (Zmult_mod a c), (Zmult_mod b d), H, H'. reflexivity. Qed.
#[export] Instance cong_opp q : Proper (cong q ==> cong q) Z.opp.
Proof. intros a b H. rewrite <- (Z.mul_1_l a), <- (Z.mul_1_l b), <- !Z.mul_opp_l. rewrite H. reflexivity. Qed.
#[export] Instance cong_sub q : Proper (cong q ==> cong q ==> cong q) Z.sub.
Proof. intros a b H c d H'. rewrite <- !Z.add_opp_r. rewrite H, H'. reflexivity. Qed.

Lemma cong_of_eq q x y : x = y → x ≡[q] y.
Proof. by intros ->. Qed.
Lemma mod_cong q x : x mod q ≡[q] x.
Proof. apply Zmod_mod. Qed.
Lemma rem_cong q x : Z.rem x q ≡[q] x.
Proof.
  rewrite (Z.quot_rem' x q) at 2. unfold cong.
  rewrite Z.add_comm, Z.mul_comm, Z_mod_plus_full. reflexivity.
Qed.
Lemma cong_plus_mul q x k : x + k * q ≡[q] x.
Proof. unfold cong. apply Z_mod_plus_full. Qed.
#[export] Instance mod_proper q : Proper (cong q ==> cong q) (λ x, x mod q).
Proof. intros a b H. rewrite !mod_cong. exact H. Qed.

Definition congb (q x y : Z) : bool := x mod q =? y mod q.
Lemma congb_true q x y : congb q x y = true → x ≡[q] y.
Proof. intros H. apply Z.eqb_eq. exact H. Qed.
(** Powers [2 ^ k] by squaring, reduced at each step. *)
Definition square_mod (q : Z) (k : nat) (x : Z) : Z := Nat.iter k (λ y, y * y mod q) x.
Lemma square_mod_pow q k x : x ^ 2 ^ Z.of_nat k ≡[q] square_mod q k x.
Proof.
  induction k as [|k IH]; [change (x ^ 1 ≡[q] x); rewrite Z.pow_1_r; reflexivity|].
  rewrite Nat2Z.inj_succ, Z.pow_succ_r, Z.mul_comm, Z.pow_mul_r, Z.pow_2_r by lia.
  change (square_mod q (S k) x) with (square_mod q k x * square_mod q k x mod q).
  rewrite IH. symmetry. apply mod_cong.
Qed.
Lemma forall2_congb {A B} q (f : A → Z) (g : B → Z) xs ys :
  forallb (λ p, congb q (f p.1) (g p.2)) (zip xs ys) = true → length xs = length ys →
  Forall2 (λ x y, f x ≡[q] g y) xs ys.
Proof.
  revert ys. induction xs as [|x xs IH]; intros [|y ys] H Hl; try done; try by constructor.
  revert H Hl. simpl. intros [H1 H2]%andb_prop Hl. constructor; [by apply Z.eqb_eq in H1 | apply IH; [done | lia]].
Qed.

(** ** Vectors *)

Abbreviation vadd := (zip_with Z.add).
Definition vscale (c : Z) (a : list Z) : list Z := map (Z.mul c) a.
Definition lin (c : Z) (a b : list Z) : list Z := zip_with (λ x y, x + c * y) a b.
Definition reduced (q : Z) (a : list Z) : Prop := Forall (λ x, 0 ≤ x < q) a.

(** A congruence between two expressions in [mod] and [Z.rem]. *)
Ltac cong_ring := rewrite ?mod_cong, ?rem_cong; apply cong_of_eq; ring.

Section Modulus.
Context (q : Z).
Abbreviation veq := (Forall2 (cong q)).

Lemma veq_trans a b c : veq a b → veq b c → veq a c.
Proof. intros H1 H2. etransitivity; eauto. Qed.
Lemma veq_reduced a b : reduced q a → reduced q b → veq a b → a = b.
Proof.
  intros Ha Hb H. revert Ha Hb. induction H as [|x y a b Hxy H IH]; [done|].
  intros [Hx Ha]%Forall_cons_1 [Hy Hb]%Forall_cons_1. f_equal; [|auto].
  unfold cong in Hxy. by rewrite !Z.mod_small in Hxy.
Qed.
Lemma lookup_veq a b j : veq a b → a !!! j ≡[q] b !!! j.
Proof.
  intros H. rewrite !list_lookup_total_alt.
  rewrite Forall2_lookup in H. specialize (H j). by destruct H.
Qed.
Lemma length_veq a b : veq a b → length a = length b.
Proof. apply Forall2_length. Qed.
Lemma veq_zip_with (F G : Z → Z → Z) a b :
  (∀ x y, F x y ≡[q] G x y) → veq (zip_with F a b) (zip_with G a b).
Proof. intros H. revert b. induction a as [|x a IH]; intros [|y b]; simpl; try constructor; auto. Qed.
Lemma vscale_veq c p r : veq p r → veq (vscale c p) (vscale c r).
Proof. induction 1 as [|u v p r Huv _ IH]; constructor; [by rewrite Huv | exact IH]. Qed.
Lemma lin_veq c a a' b b' : veq a a' → veq b b' → veq (lin c a b) (lin c a' b').
Proof.
  intros Ha. revert b b'. induction Ha as [|x x' a a' Hx Ha IH]; intros b b' Hb; [constructor|].
  inversion Hb as [|y y' b0 b0' Hy Hb0]; constructor; [by rewrite Hx, Hy | by apply IH].
Qed.
Lemma veq_concat xs ys : Forall2 (λ x y, veq x y) xs ys → veq (concat xs) (concat ys).
Proof. induction 1 as [|x y xs ys H _ IH]; [constructor|]. by apply Forall2_app. Qed.

(** ** Linear operators on vectors of [n] *)

Record linear (n : nat) (T : list Z → list Z) : Prop := {
  linear_length : ∀ a, length a = n → length (T a) = n;
  linear_veq : ∀ a b, length a = n → veq a b → veq (T a) (T b);
  linear_lin : ∀ c a b, length a = n → length b = n → veq (T (lin c a b)) (lin c (T a) (T b));
}.

Lemma length_lin c a b n : length a = n → length b = n → length (lin c a b) = n.
Proof. intros. unfold lin. rewrite length_zip_with. lia. Qed.
Lemma lookup_total_lin c a b n j : length a = n → length b = n → (j < n)%nat →
  lin c a b !!! j = a !!! j + c * b !!! j.
Proof.
  intros Ha Hb Hj. rewrite !list_lookup_total_alt. unfold lin. rewrite lookup_zip_with.
  destruct (lookup_lt_is_Some_2 a j) as [x Hx]; [lia|]. destruct (lookup_lt_is_Some_2 b j) as [y Hy]; [lia|].
  by rewrite Hx, Hy.
Qed.

Lemma insert_lin c a b j x y : lin c (<[j := x]> a) (<[j := y]> b) = <[j := x + c * y]> (lin c a b).
Proof. unfold lin. symmetry. apply (insert_zip_with (λ x y, x + c * y)). Qed.

Lemma linear_id n : linear n (λ a, a).
Proof. split; [done | done | intros; reflexivity]. Qed.
Lemma linear_compose n T U : linear n T → linear n U → linear n (λ a, U (T a)).
Proof.
  intros [Tl Tv Tn] [Ul Uv Un]. split; auto.
  intros c a b Ha Hb. eapply veq_trans; [apply Uv, Tn; auto using length_lin|]. apply Un; auto.
Qed.
Lemma linear_fold {B} n (f : list Z → B → list Z) l : Forall (λ b, linear n (λ a, f a b)) l → linear n (fold_left f l).
Proof.
  induction 1 as [|b l Hb _ IH]; [exact (linear_id n)|].
  exact (linear_compose n _ _ Hb IH).
Qed.
Lemma linear_ext n T U : (∀ a, T a = U a) → linear n T → linear n U.
Proof. intros E [H1 H2 H3]. split; intros; rewrite <- !E; auto. Qed.

Lemma linear_scale n T c a : linear n T → length a = n → veq (T (vscale c a)) (vscale c (T a)).
Proof.
  intros HT Ha. assert (E : ∀ l, vscale c l = lin (c - 1) l l).
  { intros l. unfold vscale, lin. rewrite zip_with_diag. apply map_ext. intros x. ring. }
  rewrite !E. by apply (linear_lin n).
Qed.

(** A pass that threads an index it never takes from the data. *)
Definition tracked (n : nat) (F : nat * list Z → nat * list Z) : Prop :=
  ∀ i, ∃ i' T, linear n T ∧ ∀ a, F (i, a) = (i', T a).

Lemma tracked_fold {B} n (F : nat * list Z → B → nat * list Z) l :
  Forall (λ b, tracked n (λ ia, F ia b)) l → tracked n (λ ia, fold_left F l ia).
Proof.
  induction 1 as [|b l Hb _ IH]; intros i.
  - exists i, (λ a, a). split; [exact (linear_id n) | done].
  - destruct (Hb i) as (i1 & T & HT & E1). destruct (IH i1) as (i2 & U & HU & E2).
    exists i2, (λ a, U (T a)). split; [by apply linear_compose|]. intros a. simpl. by rewrite E1, E2.
Qed.

(** ** Butterflies *)

(** A butterfly replaces the coefficients [len] apart by functions of both. *)
Definition butterfly (F G : Z → Z → Z) (len : nat) (a : list Z) (j : nat) : list Z :=
  let x := a !!! j in
  let y := a !!! (j + len)%nat in
  <[j := F x y]> (<[(j + len)%nat := G x y]> a).

Lemma lookup_total_app_length {A} `{Inhabited A} (l1 l2 : list A) x n :
  n = length l1 → (l1 ++ x :: l2) !!! n = x.
Proof. intros ->. by apply list_lookup_total_middle. Qed.
Lemma insert_app_length {A} (l1 l2 : list A) x y n :
  n = length l1 → <[n := y]> (l1 ++ x :: l2) = l1 ++ y :: l2.
Proof. intros ->. rewrite insert_app_r_alt by lia. by rewrite Nat.sub_diag. Qed.

Lemma butterfly_fold_gen F G len lo : ∀ hi pre mid post,
  length hi = length lo →
  (length mid + length lo = len)%nat →
  fold_left (butterfly F G len) (seq (length pre) (length lo)) (pre ++ lo ++ mid ++ hi ++ post) =
  pre ++ zip_with F lo hi ++ mid ++ zip_with G lo hi ++ post.
Proof.
  induction lo as [|x lo IH]; intros [|y hi] pre mid post Hl Hm; try done. simpl in *.
  assert (E : butterfly F G len (pre ++ x :: lo ++ mid ++ y :: hi ++ post) (length pre) =
              (pre ++ [F x y]) ++ lo ++ (mid ++ [G x y]) ++ hi ++ post).
  { unfold butterfly. rewrite (lookup_total_app_length pre) by done.
    replace (pre ++ x :: lo ++ mid ++ y :: hi ++ post)
      with ((pre ++ x :: lo ++ mid) ++ y :: hi ++ post) by (by rewrite <- !app_assoc, <- app_comm_cons, <- app_assoc).
    rewrite lookup_total_app_length, insert_app_length by (rewrite length_app; simpl; rewrite length_app; lia).
    rewrite <- !app_assoc, <- app_comm_cons, <- app_assoc, insert_app_length by done. done. }
  rewrite E. specialize (IH hi (pre ++ [F x y]) (mid ++ [G x y]) post).
  replace (length (pre ++ [F x y])) with (S (length pre)) in IH by (rewrite length_app; simpl; lia).
  rewrite IH by (rewrite ?length_app; simpl; lia). by rewrite <- !app_assoc.
Qed.

Lemma butterfly_fold F G len lo hi pre post :
  length lo = len → length hi = len →
  fold_left (butterfly F G len) (seq (length pre) len) (pre ++ (lo ++ hi) ++ post) =
  pre ++ (zip_with F lo hi ++ zip_with G lo hi) ++ post.
Proof.
  intros Hl Hh. rewrite <- !app_assoc. rewrite <- Hl at 2.
  apply (butterfly_fold_gen F G len lo hi pre [] post); simpl; lia.
Qed.

(** A butterfly whose two functions are linear. *)
Definition linear2 (F : Z → Z → Z) : Prop := ∃ p r, ∀ x y, F x y ≡[q] p * x + r * y.

Lemma linear_butterfly n F G len j : linear2 F → linear2 G → (j + len < n)%nat →
  linear n (λ a, butterfly F G len a j).
Proof.
  intros (p & r & HF) (p' & r' & HG) Hj. unfold butterfly. split.
  - intros a. by rewrite !length_insert.
  - intros a b _ H. pose proof (lookup_veq a b j H) as E1. pose proof (lookup_veq a b (j + len) H) as E2.
    apply Forall2_insert; [apply Forall2_insert; [done|]|].
    + by rewrite !HG, E1, E2.
    + by rewrite !HF, E1, E2.
  - intros c a b Ha Hb. rewrite !insert_lin.
    rewrite !(lookup_total_lin c a b n) by (auto; lia).
    apply Forall2_insert; [apply Forall2_insert; [reflexivity|]|].
    + rewrite !HG. cong_ring.
    + rewrite !HF. cong_ring.
Qed.

(** The blocks of a layer, one after the other. *)
Lemma layer_fold (F G : nat → Z → Z → Z) (next : nat → nat) len (bs : list (list Z * list Z)) : ∀ i k pre,
  (0 < len)%nat →
  Forall (λ b, length b.1 = len ∧ length b.2 = len) bs →
  length pre = (k * (2 * len))%nat →
  fold_left (λ ia start, (next ia.1, fold_left (butterfly (F ia.1) (G ia.1) len) (seq start len) ia.2))
    (map (λ b, b * (2 * len))%nat (seq k (length bs))) (i, pre ++ concat (map (λ b, b.1 ++ b.2) bs)) =
  (Nat.iter (length bs) next i,
   pre ++ concat (zip_with (λ i b, zip_with (F i) b.1 b.2 ++ zip_with (G i) b.1 b.2)
                    (map (λ n, Nat.iter n next i) (seq 0 (length bs))) bs)).
Proof.
  induction bs as [|[lo hi] bs IH]; intros i k pre Hlen Hbs Hpre; [done|].
  apply list.Forall_cons in Hbs as [[Hlo Hhi] Hbs]. simpl in Hlo, Hhi.
  cbn [length seq map concat fold_left fst snd]. rewrite <- Hpre, (butterfly_fold (F i) (G i)) by done.
  rewrite app_assoc, IH; [|done|done|rewrite !length_app, !length_zip_with; lia].
  f_equal; [by rewrite Nat.iter_succ_r|].
  rewrite <- app_assoc. simpl zip_with. simpl concat. do 2 f_equal.
  rewrite <- seq_shift, map_map. do 2 f_equal. apply map_ext.
  intros n. by rewrite Nat.iter_succ_r.
Qed.

(** A layer on a list of blocks of [2 * len] coefficients. *)
Definition halves (len : nat) (b : list Z) : list Z * list Z := (take len b, drop len b).
Definition map_halves (F G : Z → Z → Z) (len : nat) (b : list Z) : list Z :=
  zip_with F (take len b) (drop len b) ++ zip_with G (take len b) (drop len b).

Lemma length_map_halves F G len b : length b = (2 * len)%nat → length (map_halves F G len b) = (2 * len)%nat.
Proof. intros H. unfold map_halves. rewrite length_app, !length_zip_with, length_take, length_drop. lia. Qed.

Definition layer_op (F G : Z → Z → Z → Z) (len : nat) (zs : list Z) (bs : list (list Z)) : list (list Z) :=
  zip_with (λ z b, map_halves (F z) (G z) len b) zs bs.

(** The loop over the blocks of a layer computes the layer; [zeta] reads the
    table at the running index. *)
Lemma layer_blocks (F G : Z → Z → Z → Z) (zeta : nat → Z) (next : nat → nat) len (bs : list (list Z)) i :
  (0 < len)%nat → Forall (λ b, length b = 2 * len)%nat bs →
  fold_left (λ ia start, (next ia.1,
      fold_left (butterfly (F (zeta ia.1)) (G (zeta ia.1)) len) (seq start len) ia.2))
    (map (λ b, b * (2 * len))%nat (seq 0 (length bs))) (i, concat bs) =
  (Nat.iter (length bs) next i,
   concat (layer_op F G len (map (λ n, zeta (Nat.iter n next i)) (seq 0 (length bs))) bs)).
Proof.
  intros Hlen Hbs.
  pose proof (layer_fold (λ i, F (zeta i)) (λ i, G (zeta i)) next len (map (halves len) bs) i 0 [] Hlen) as E.
  rewrite length_map, map_map, zip_with_fmap_r in E. unfold layer_op.
  rewrite <- (map_map (λ n, Nat.iter n next i) zeta), zip_with_fmap_l.
  replace (concat (map (λ x, (halves len x).1 ++ (halves len x).2) bs)) with (concat bs) in E.
  - apply E; [|done]. apply Forall_fmap. eapply list.Forall_impl; [exact Hbs|].
    intros b Hb. cbn beta in Hb. unfold compose, halves. cbn [fst snd].
    rewrite length_take, length_drop. lia.
  - f_equal. rewrite <- (map_id bs) at 1. apply map_ext. intros b. unfold halves. simpl. by rewrite take_drop.
Qed.

Lemma layer_op_lengths F G len zs bs :
  Forall (λ b, length b = 2 * len)%nat bs → length zs = length bs →
  Forall (λ b, length b = 2 * len)%nat (layer_op F G len zs bs) ∧ length (layer_op F G len zs bs) = length bs.
Proof.
  intros Hbs. revert zs. induction Hbs as [|b bs Hb _ IH]; intros [|k zs] H; try done.
  destruct (IH zs) as [H1 H2]; [simpl in H; lia|]. unfold layer_op. simpl.
  split; [|by f_equal]. constructor; [by apply length_map_halves | exact H1].
Qed.

(** A layer whose butterflies stay in range is linear, whatever its index. *)
Lemma tracked_layer n (F G : nat → Z → Z → Z) (next : nat → nat) len starts :
  (∀ i, linear2 (F i)) → (∀ i, linear2 (G i)) → Forall (λ start, start + 2 * len ≤ n)%nat starts → (0 < len)%nat →
  tracked n (λ ia, fold_left (λ ia start, (next ia.1,
    fold_left (butterfly (F ia.1) (G ia.1) len) (seq start len) ia.2)) starts ia).
Proof.
  intros HF HG Hs Hlen. apply tracked_fold. eapply list.Forall_impl; [exact Hs|].
  intros start Hst i. cbn beta in Hst. simpl.
  eexists _, (fold_left (butterfly (F i) (G i) len) (seq start len)). split; [|done].
  apply linear_fold, Forall_seq. intros j Hj. apply linear_butterfly; auto. lia.
Qed.

(** ** Zetas and tags *)

Definition signs (zs : list Z) : list Z := concat (map (λ z, [z; - z]) zs).

Lemma length_signs zs : length (signs zs) = (2 * length zs)%nat.
Proof. induction zs as [|z zs IH]; simpl; [done|]. fold (signs zs). lia. Qed.

(** The tags of the layers: layer [k] reads [2 ^ k] zetas from [2 ^ k] on. *)
Definition layer_zetas (zeta : nat → Z) (k : nat) : list Z := map (λ n, zeta (n + 2 ^ k)%nat) (seq 0 (2 ^ k)).
Definition tags (zeta : nat → Z) (k : nat) : list Z := match k with O => [-1] | S k => signs (layer_zetas zeta k) end.

Lemma length_layer_zetas zeta k : length (layer_zetas zeta k) = (2 ^ k)%nat.
Proof. unfold layer_zetas. by rewrite length_map, length_seq. Qed.
Lemma length_tags zeta k : length (tags zeta k) = (2 ^ k)%nat.
Proof. destruct k; [done|]. cbn [tags]. rewrite length_signs, length_layer_zetas. simpl. lia. Qed.

(** ** Evaluation

    [E g b] reads a vector modulo [X^st - g]. The law says what folding the
    upper half of a block onto the lower one by [z] keeps. *)
Section Evaluation.
Context {V : Type} (Veq : relation V) `{!Equivalence Veq} (E : Z → list Z → V) (st : nat).
Context (st_pos : (0 < st)%nat).
Context (E_proper : ∀ g a b, veq a b → Veq (E g a) (E g b)).
Context (E_fold : ∀ g z lo hi m, length lo = (st * m)%nat → length hi = (st * m)%nat →
           g ^ Z.of_nat m ≡[q] z → Veq (E g (lo ++ hi)) (E g (lin z lo hi))).
Context (F G : Z → Z → Z → Z).
Context (F_spec : ∀ z x y, F z x y ≡[q] x + z * y) (G_spec : ∀ z x y, G z x y ≡[q] x - z * y).

(** A block of [m] units tagged [c] holds the polynomial modulo X^m - c:
    both agree at every [g] with [g ^ m] congruent to [c]. *)
Definition block_inv (f : list Z) (m : nat) (c : Z) (b : list Z) : Prop :=
  length b = (st * m)%nat ∧ ∀ g, g ^ Z.of_nat m ≡[q] c → Veq (E g b) (E g f).

Lemma block_inv_length f m cs bs :
  Forall2 (block_inv f m) cs bs → Forall (λ b, length b = (st * m)%nat) bs ∧ length bs = length cs.
Proof. induction 1 as [|c b cs bs [H _] _ [IH1 IH2]]; [done|]. split; [by constructor | simpl; lia]. Qed.

Lemma block_inv_tag f m c c' b : c ≡[q] c' → block_inv f m c b → block_inv f m c' b.
Proof. intros Hc [Hl Hev]. split; [done|]. intros g Hg. apply Hev. by rewrite Hc. Qed.

(** One butterfly block: [z] is a square root of the tag. *)
Lemma split_block_ev f m z c b :
  z * z ≡[q] c → block_inv f (2 * m) c b →
  Forall2 (block_inv f m) [z; - z]
    [zip_with (F z) (take (st * m) b) (drop (st * m) b); zip_with (G z) (take (st * m) b) (drop (st * m) b)].
Proof using All.
  intros Hz [Hb Hev].
  assert (Hl : length (take (st * m) b) = (st * m)%nat) by (rewrite length_take; lia).
  assert (Hd : length (drop (st * m) b) = (st * m)%nat) by (rewrite length_drop; lia).
  assert (Key : ∀ H s, s * s ≡[q] c → (∀ x y, H x y ≡[q] x + s * y) →
    block_inv f m s (zip_with H (take (st * m) b) (drop (st * m) b))).
  { intros H s Hs HH. split; [rewrite length_zip_with; lia|]. intros g Hg.
    etransitivity; [apply E_proper, (veq_zip_with _ (λ x y, x + s * y)), HH|].
    etransitivity; [symmetry; by apply (E_fold g s _ _ m)|]. rewrite take_drop. apply Hev.
    replace (2 * m)%nat with (m + m)%nat by lia.
    by rewrite Nat2Z.inj_add, Z.pow_add_r, Hg by lia. }
  constructor; [|constructor; [|constructor]].
  - apply Key; [done|]. intros x y. apply F_spec.
  - apply Key; [rewrite <- Hz; apply cong_of_eq; ring|].
    intros x y. rewrite G_spec. apply cong_of_eq. ring.
Qed.

Lemma layer_op_ev f m zs cs bs :
  Forall2 (λ z c, z * z ≡[q] c) zs cs → Forall2 (block_inv f (2 * m)) cs bs →
  ∃ bs', concat (layer_op F G (st * m) zs bs) = concat bs' ∧ Forall2 (block_inv f m) (signs zs) bs'.
Proof using All.
  intros Hz. revert bs. induction Hz as [|z c zs cs Hz _ IH]; intros bs Hbs; inversion Hbs as [|? b ? bs0 Hb Hbs0].
  - exists []. by split.
  - destruct (IH bs0 Hbs0) as (bs' & E1 & H').
    eexists (_ ++ bs'). split; [|exact (Forall2_app (split_block_ev f m z c b Hz Hb) H')].
    unfold layer_op in *. cbn [zip_with concat]. rewrite E1, concat_app. f_equal.
    unfold map_halves. cbn [concat]. by rewrite app_nil_r.
Qed.

(** The layers [0], [1], ... in turn, on [st * 2 ^ top] coefficients. *)
Context (zeta : nat → Z) (top : nat) (NL : nat → list Z → list Z).
Fixpoint layers (k : nat) (f : list Z) : list Z := match k with O => f | S k => NL k (layers k f) end.

Context (NL_spec : ∀ k bs, (k < top)%nat → Forall (λ b, length b = 2 * (st * 2 ^ (top - S k)))%nat bs →
           length bs = (2 ^ k)%nat → NL k (concat bs) = concat (layer_op F G (st * 2 ^ (top - S k)) (layer_zetas zeta k) bs)).
Context (zeta_square : ∀ k, (k < top)%nat → Forall2 (λ z c, z * z ≡[q] c) (layer_zetas zeta k) (tags zeta k)).

Lemma layers_inv f k : (k ≤ top)%nat → length f = (st * 2 ^ top)%nat →
  ∃ bs, layers k f = concat bs ∧ Forall2 (block_inv f (2 ^ (top - k))) (tags zeta k) bs.
Proof using All.
  intros Hk Hf. induction k as [|k IH].
  - exists [f]. split; [simpl; by rewrite app_nil_r|]. constructor; [|constructor].
    rewrite Nat.sub_0_r. split; [exact Hf|]. intros g _. reflexivity.
  - destruct IH as (bs & E1 & H); [lia|]. cbn [layers].
    assert (E2 : (2 ^ (top - k) = 2 * 2 ^ (top - S k))%nat)
      by (replace (top - k)%nat with (S (top - S k)) by lia; reflexivity).
    rewrite E2 in H. destruct (block_inv_length _ _ _ _ H) as [Hl Hn].
    rewrite E1, NL_spec; [|lia| |by rewrite Hn, length_tags].
    + apply (layer_op_ev f (2 ^ (top - S k)) _ (tags zeta k)); [apply zeta_square; lia | exact H].
    + eapply list.Forall_impl; [exact Hl|]. intros b Hb. cbn beta in Hb. lia.
Qed.

End Evaluation.

(** ** The inverse of a layer *)

Section Inverse.
Context (F G F' G' : Z → Z → Z → Z).
Context (F_spec : ∀ z x y, F z x y ≡[q] x + z * y) (G_spec : ∀ z x y, G z x y ≡[q] x - z * y).
Context (F'_spec : ∀ z x y, F' z x y ≡[q] x + y) (G'_spec : ∀ z x y, G' z x y ≡[q] z * (y - x)).

(** The inverse butterfly undoes the butterfly, up to the factor 2. *)
Lemma merge_split z z' len b :
  z * z' ≡[q] -1 → length b = (2 * len)%nat →
  veq (map_halves (F' z') (G' z') len (map_halves (F z) (G z) len b)) (vscale 2 b).
Proof using All.
  intros Hz Hb.
  assert (Hlo : length (take len b) = len) by (rewrite length_take; lia).
  assert (Hhi : length (drop len b) = len) by (rewrite length_drop; lia).
  pose proof (eq_sym (take_drop len b)) as Eb. revert Hlo Hhi Eb. generalize (take len b) (drop len b).
  intros lo hi Hlo Hhi ->. unfold map_halves. rewrite (take_app_length' lo), (drop_app_length' lo) by lia.
  assert (Hl : length (zip_with (F z) lo hi) = len) by (rewrite length_zip_with; lia).
  rewrite take_app_length', drop_app_length' by lia.
  unfold vscale. rewrite map_app. clear Hl Hb. apply Forall2_app.
  - revert len hi Hlo Hhi. induction lo as [|x lo IH]; intros len [|y hi] Hl Hh; cbn [length] in *; try lia; constructor.
    + rewrite F'_spec, F_spec, G_spec. apply cong_of_eq. ring.
    + apply (IH (pred len)); lia.
  - revert len hi Hlo Hhi. induction lo as [|x lo IH]; intros len [|y hi] Hl Hh; cbn [length] in *; try lia; constructor.
    + rewrite G'_spec, F_spec, G_spec.
      transitivity (z * z' * (-2 * y)); [apply cong_of_eq; ring|]. rewrite Hz. apply cong_of_eq. ring.
    + apply (IH (pred len)); lia.
Qed.

(** And the butterfly undoes the inverse butterfly. *)
Lemma split_merge z z' len b :
  z * z' ≡[q] -1 → length b = (2 * len)%nat →
  veq (map_halves (F z) (G z) len (map_halves (F' z') (G' z') len b)) (vscale 2 b).
Proof using All.
  intros Hz Hb.
  assert (Hlo : length (take len b) = len) by (rewrite length_take; lia).
  assert (Hhi : length (drop len b) = len) by (rewrite length_drop; lia).
  pose proof (eq_sym (take_drop len b)) as Eb. revert Hlo Hhi Eb. generalize (take len b) (drop len b).
  intros lo hi Hlo Hhi ->. unfold map_halves. rewrite (take_app_length' lo), (drop_app_length' lo) by lia.
  assert (Hl : length (zip_with (F' z') lo hi) = len) by (rewrite length_zip_with; lia).
  rewrite take_app_length', drop_app_length' by lia.
  unfold vscale. rewrite map_app. clear Hl Hb. apply Forall2_app.
  - revert len hi Hlo Hhi. induction lo as [|x lo IH]; intros len [|y hi] Hl Hh; cbn [length] in *; try lia; constructor.
    + rewrite F_spec, F'_spec, G'_spec.
      transitivity (x + y + z * z' * (y - x)); [apply cong_of_eq; ring|]. rewrite Hz. apply cong_of_eq. ring.
    + apply (IH (pred len)); lia.
  - revert len hi Hlo Hhi. induction lo as [|x lo IH]; intros len [|y hi] Hl Hh; cbn [length] in *; try lia; constructor.
    + rewrite G_spec, F'_spec, G'_spec.
      transitivity (x + y - z * z' * (y - x)); [apply cong_of_eq; ring|]. rewrite Hz. apply cong_of_eq. ring.
    + apply (IH (pred len)); lia.
Qed.

Lemma layer_op_inverse len zs zs' bs :
  Forall2 (λ z z', z * z' ≡[q] -1) zs zs' → length zs = length bs → Forall (λ b, length b = 2 * len)%nat bs →
  veq (concat (layer_op F' G' len zs' (layer_op F G len zs bs))) (vscale 2 (concat bs)).
Proof using All.
  intros Hz Hl Hbs. unfold vscale. rewrite concat_map. apply veq_concat.
  revert bs Hl Hbs. induction Hz as [|z z' zs zs' Hz _ IH]; intros [|b bs] Hl Hbs; try done; try by constructor.
  apply list.Forall_cons in Hbs as [Hb Hbs]. constructor; [by apply merge_split | apply IH; [by injection Hl | done]].
Qed.

Lemma layer_op_inverse_r len zs zs' bs :
  Forall2 (λ z z', z * z' ≡[q] -1) zs zs' → length zs = length bs → Forall (λ b, length b = 2 * len)%nat bs →
  veq (concat (layer_op F G len zs (layer_op F' G' len zs' bs))) (vscale 2 (concat bs)).
Proof using All.
  intros Hz Hl Hbs. unfold vscale. rewrite concat_map. apply veq_concat.
  revert bs Hl Hbs. induction Hz as [|z z' zs zs' Hz _ IH]; intros [|b bs] Hl Hbs; try done; try by constructor.
  apply list.Forall_cons in Hbs as [Hb Hbs]. constructor; [by apply split_merge | apply IH; [by injection Hl | done]].
Qed.

End Inverse.

Lemma vscale_1 a : vscale 1 a = a.
Proof. unfold vscale. rewrite <- (map_id a) at 2. apply map_ext. intros x. ring. Qed.

(** All the layers undone, the last one first. *)
Section Undo.
Context (n : nat) (NL IL : nat → list Z → list Z) (top : nat).
Context (NL_length : ∀ k a, (k < top)%nat → length a = n → length (NL k a) = n).
Context (IL_linear : ∀ k, (k < top)%nat → linear n (IL k)).
Context (NL_linear : ∀ k, (k < top)%nat → linear n (NL k)).
Context (NL_IL : ∀ k a, (k < top)%nat → length a = n → veq (NL k (IL k a)) (vscale 2 a)).
Context (IL_NL : ∀ k a, (k < top)%nat → length a = n → veq (IL k (NL k a)) (vscale 2 a)).

Fixpoint undo (k : nat) (a : list Z) : list Z := match k with O => a | S k => undo k (IL k a) end.

Lemma length_layers k f : (k ≤ top)%nat → length f = n → length (layers NL k f) = n.
Proof using All. induction k as [|k IH]; intros Hk Hf; [done|]. apply NL_length; [lia | apply IH; [lia | done]]. Qed.

Lemma vscale_vscale c d a : vscale c (vscale d a) = vscale (c * d) a.
Proof. unfold vscale. rewrite map_map. apply map_ext. intros x. ring. Qed.

Lemma undo_layers f k : ∀ c x, (k ≤ top)%nat → length f = n →
  veq x (vscale c (layers NL k f)) → veq (undo k x) (vscale (2 ^ Z.of_nat k * c) f).
Proof using All.
  induction k as [|k IH]; intros c x Hk Hf Hx.
  - change (2 ^ Z.of_nat 0) with 1. by rewrite Z.mul_1_l.
  - cbn [undo]. rewrite Nat2Z.inj_succ, Z.pow_succ_r by lia.
    replace (2 * 2 ^ Z.of_nat k * c) with (2 ^ Z.of_nat k * (2 * c)) by ring.
    apply IH; [lia|done|]. cbn [layers] in Hx.
    assert (Hn : length (layers NL k f) = n) by (apply length_layers; [lia | done]).
    assert (Hn' : length (NL k (layers NL k f)) = n) by (apply NL_length; [lia | done]).
    pose proof (IL_linear k ltac:(lia)) as HL.
    eapply veq_trans; [apply (linear_veq _ _ HL); [|exact Hx]|].
    { rewrite (length_veq _ _ Hx). unfold vscale. by rewrite length_map. }
    eapply veq_trans; [by apply (linear_scale n)|].
    eapply veq_trans; [apply vscale_veq, IL_NL; [lia | done]|].
    rewrite vscale_vscale, (Z.mul_comm c). reflexivity.
Qed.
Lemma linear_layers k : (k ≤ top)%nat → linear n (layers NL k).
Proof using NL_linear.
  induction k as [|k IH]; intros Hk; [apply linear_id|].
  apply (linear_compose n (layers NL k) (NL k)); [apply IH; lia | apply NL_linear; lia].
Qed.
Lemma linear_undo k : (k ≤ top)%nat → linear n (undo k).
Proof using IL_linear.
  induction k as [|k IH]; intros Hk; [apply linear_id|].
  apply (linear_compose n (IL k) (undo k)); [apply IL_linear; lia | apply IH; lia].
Qed.

Lemma layers_undo x k : (k ≤ top)%nat → length x = n →
  veq (layers NL k (undo k x)) (vscale (2 ^ Z.of_nat k) x).
Proof using All.
  revert x. induction k as [|k IH]; intros x Hk Hx; [by rewrite vscale_1|].
  cbn [undo layers]. pose proof (IL_linear k ltac:(lia)) as HI. pose proof (NL_linear k ltac:(lia)) as HN.
  assert (Hl : length (IL k x) = n) by by apply (linear_length _ _ HI).
  eapply veq_trans; [apply (linear_veq _ _ HN); [|apply IH; [lia|done]]|].
  { apply (linear_length _ _ (linear_layers k ltac:(lia))), (linear_length _ _ (linear_undo k ltac:(lia))), Hl. }
  eapply veq_trans; [by apply (linear_scale n)|].
  eapply veq_trans; [apply vscale_veq, NL_IL; [lia | done]|].
  rewrite vscale_vscale, Nat2Z.inj_succ, Z.pow_succ_r, (Z.mul_comm 2) by lia. reflexivity.
Qed.
End Undo.

Lemma vscale_unit c a : c ≡[q] 1 → veq (vscale c a) a.
Proof.
  intros Hc. induction a as [|x a IH]; constructor; [|exact IH]. rewrite Hc. apply cong_of_eq. ring.
Qed.

(** The scaling by [k] that ends the inverse. *)
Lemma linear_map n (f : Z → Z) k : (∀ x, f x ≡[q] x * k) → linear n (map f).
Proof.
  intros Hf. split.
  - intros a. by rewrite length_map.
  - intros a b _ H. induction H as [|x y a b Hxy H IH]; constructor; [|exact IH]. by rewrite !Hf, Hxy.
  - intros c a b _ _. revert b. induction a as [|x a IH]; intros [|y b]; constructor; [|apply IH].
    rewrite !Hf. apply cong_of_eq. ring.
Qed.
Lemma map_scale_veq (f : Z → Z) k c a : (∀ x, f x ≡[q] x * k) → c * k ≡[q] 1 → veq (map f (vscale c a)) a.
Proof.
  intros Hf Hc. unfold vscale. rewrite map_map. induction a as [|x a IH]; constructor; [|exact IH].
  rewrite Hf. transitivity (c * k * x); [apply cong_of_eq; ring|]. rewrite Hc. apply cong_of_eq. ring.
Qed.

End Modulus.

(** ** Cutting a vector in blocks, indices *)

Lemma split_blocks {A} n k : ∀ a : list A, length a = (k * n)%nat →
  ∃ bs, a = concat bs ∧ Forall (λ b, length b = n) bs ∧ length bs = k.
Proof.
  induction k as [|k IH]; intros a Ha.
  - exists []. destruct a; done.
  - destruct (IH (drop n a)) as (bs & E & Hn & Hk); [rewrite length_drop; lia|].
    exists (take n a :: bs). split; [simpl; by rewrite <- E, take_drop|].
    split; [constructor; [rewrite length_take; lia | done] | simpl; lia].
Qed.

Lemma iter_S n i : Nat.iter n S i = (n + i)%nat.
Proof. induction n as [|n IH]; simpl; auto. Qed.
Lemma iter_pred n i : Nat.iter n Nat.pred i = (i - n)%nat.
Proof. induction n as [|n IH]; simpl; [lia|]. rewrite IH. lia. Qed.

Lemma fold_left_ext_all {A B} (f g : A → B → A) (l : list B) : (∀ a b, f a b = g a b) → ∀ a, fold_left f l a = fold_left g l a.
Proof. intros H. induction l as [|b l IH]; intros a; simpl; [done|]. by rewrite H, IH. Qed.

Lemma fold_index {A B} (next : nat → nat) (g : nat * A → B → A) l : ∀ ia,
  (fold_left (λ ia b, (next ia.1, g ia b)) l ia).1 = Nat.iter (length l) next ia.1.
Proof.
  induction l as [|b l IH]; intros ia; [done|]. cbn [fold_left length]. rewrite IH. cbn [fst].
  by rewrite Nat.iter_succ_r.
Qed.

Lemma Forall_map_all {A B} (P : B → Prop) (f : A → B) l : (∀ x, P (f x)) → Forall P (map f l).
Proof. intros H. induction l; constructor; auto. Qed.
Lemma seq_all {P : nat → Prop} n : (∀ i, (i < n)%nat → P i) → Forall P (seq 0 n).
Proof. intros H. apply Forall_seq. intros j Hj. apply H. lia. Qed.
Lemma Forall_lookup_total_lt {A} `{Inhabited A} (P : A → Prop) l i n :
  Forall P l → length l = n → (i < n)%nat → P (l !!! i).
Proof.
  intros Hl Hn Hi. rewrite Forall_lookup in Hl. apply (Hl i), list_lookup_lookup_total_lt. by rewrite Hn.
Qed.

(** ** The negacyclic product

    [a * b] modulo X^n + 1 by Horner's rule: X times b_0, ..., b_{n-1} is
    -b_{n-1}, b_0, ..., b_{n-2}. *)

Definition rot (l : list Z) : list Z := - List.last l 0 :: removelast l.
Fixpoint negamul (a b : list Z) : list Z :=
  match a with
  | [] => map (λ _, 0) b
  | c :: a => zip_with (λ x y, c * x + y) b (rot (negamul a b))
  end.

Lemma snoc_inv {A} (l : list A) n : length l = S n → ∃ m x, l = m ++ [x] ∧ length m = n.
Proof.
  intros H. destruct (exists_last (l := l)) as (m & x & ->); [by intros ->|].
  exists m, x. split; [done|]. rewrite length_app in H. simpl in H. lia.
Qed.
Lemma rot_snoc m x : rot (m ++ [x]) = - x :: m.
Proof. unfold rot. by rewrite List.last_last, removelast_last. Qed.
Lemma length_rot l n : length l = S n → length (rot l) = S n.
Proof. intros H. destruct (snoc_inv l n H) as (m & x & -> & Hm). rewrite rot_snoc. simpl. by rewrite Hm. Qed.
Lemma length_negamul a b n : length b = S n → length (negamul a b) = S n.
Proof.
  intros Hb. induction a as [|c a IH]; cbn [negamul]; [by rewrite length_map|].
  rewrite length_zip_with, (length_rot _ n IH). lia.
Qed.

(** Bounds: a product is at most the sum of the one's absolute values times
    the bound of the other. *)
Definition bounded (k : Z) (l : list Z) : Prop := Forall (λ x, Z.abs x ≤ k) l.
Definition norm1 (l : list Z) : Z := foldr (λ x acc, Z.abs x + acc) 0 l.

Lemma bounded_rot k l n : length l = S n → bounded k l → bounded k (rot l).
Proof.
  intros H Hb. destruct (snoc_inv l n H) as (m & x & -> & _). rewrite rot_snoc.
  apply Forall_app in Hb as [Hm Hx]. apply Forall_cons_1 in Hx as [Hx _]. constructor; [lia | done].
Qed.
Lemma bounded_zip c k k' l l' : bounded k l → bounded k' l' →
  bounded (Z.abs c * k + k') (zip_with (λ x y, c * x + y) l l').
Proof.
  intros Hl. revert l'. induction Hl as [|x l Hx _ IH]; intros [|y l'] Hl'; constructor.
  - apply Forall_cons_1 in Hl' as [Hy _]. nia.
  - apply IH. by apply Forall_cons_1 in Hl' as [_ ?].
Qed.
Lemma bounded_negamul a b n k : length b = S n → bounded k b → bounded (norm1 a * k) (negamul a b).
Proof.
  intros Hb Hk. induction a as [|c a IH]; cbn [negamul norm1 foldr].
  - apply Forall_map_all. intros _. lia.
  - fold (norm1 a). replace ((Z.abs c + norm1 a) * k) with (Z.abs c * k + norm1 a * k) by ring.
    apply bounded_zip; [done|]. apply (bounded_rot _ _ n); [by apply length_negamul | done].
Qed.
