(* ===== verification/Mlkem.v ===== *)
(** * ML-KEM-768

    ciphra-crypto/src/ml_kem.rs (FIPS 203): the number-theoretic transform,
    the codecs, the samplers, K-PKE and the key encapsulation. A polynomial
    is the list of its 256 coefficients; the [i32] arithmetic stays far from
    its bounds, and is written in [Z]. *)

From S2P Require Import Prelude Keccak.

Definition Q : Z := 3329.
Definition N : nat := 256.
Definition K : nat := 3.
Definition ETA1 : nat := 2.
Definition ETA2 : nat := 2.
Definition DU : nat := 10.
Definition DV : nat := 4.
Definition EK_LEN : nat := 384 * K + 32.
Definition CT_LEN : nat := 32 * (DU * K + DV).

Abbreviation Poly := (list Z).
Definition ZERO_POLY : Poly := replicate N 0.

(** [rem_euclid] *)
Definition reduce (x : Z) : Z := x mod Q.

(** Square and multiply; [exp] has at most [fuel] bits. *)
Fixpoint pow_mod_loop (fuel : nat) (result base exp : Z) : Z :=
  match fuel with
  | O => result
  | S fuel' =>
      if exp <=? 0 then result
      else
        let result := if Z.land exp 1 =? 1 then result * base mod Q else result in
        pow_mod_loop fuel' result (base * base mod Q) (Z.shiftr exp 1)
  end.

Definition pow_mod (base exp : Z) : Z := pow_mod_loop 32 1 (base mod Q) exp.

Definition bitrev7 (i : Z) : Z :=
  fold_left (λ r b, Z.lor r (Z.shiftl (Z.land (Z.shiftr i b) 1) (6 - b))) [0; 1; 2; 3; 4; 5; 6] 0.

Definition zetas : list Z := Eval vm_compute in map (λ i, pow_mod 17 (bitrev7 (Z.of_nat i))) (seq 0 128).
Definition gammas : list Z := Eval vm_compute in map (λ i, pow_mod 17 (2 * bitrev7 (Z.of_nat i) + 1)) (seq 0 128).

(** ** The transform *)

Definition ntt_butterfly (zeta : Z) (len : nat) (a : Poly) (j : nat) : Poly :=
  let t := reduce (zeta * (a !!! (j + len)%nat)) in
  let aj := a !!! j in
  <[j := reduce (aj + t)]> (<[(j + len)%nat := reduce (aj - t)]> a).

(** The starts of the blocks of [2 * len] coefficients. *)
Definition block_starts (len : nat) : list nat := map (λ b, b * (2 * len))%nat (seq 0 (N / (2 * len))).

Definition ntt_layer (ia : nat * Poly) (len : nat) : nat * Poly :=
  fold_left (λ ia start,
    (S ia.1, fold_left (ntt_butterfly (zetas !!! ia.1) len) (seq start len) ia.2))
    (block_starts len) ia.

Definition ntt (f : Poly) : Poly := (fold_left ntt_layer [128; 64; 32; 16; 8; 4; 2]%nat (1%nat, f)).2.

Definition intt_butterfly (zeta : Z) (len : nat) (a : Poly) (j : nat) : Poly :=
  let t := a !!! j in
  let b := a !!! (j + len)%nat in
  <[(j + len)%nat := reduce (zeta * (b - t))]> (<[j := reduce (t + b)]> a).

Definition intt_layer (ia : nat * Poly) (len : nat) : nat * Poly :=
  fold_left (λ ia start,
    (Nat.pred ia.1, fold_left (intt_butterfly (zetas !!! ia.1) len) (seq start len) ia.2))
    (block_starts len) ia.

Definition intt (f : Poly) : Poly :=
  map (λ x, reduce (x * 3303)) (fold_left intt_layer [2; 4; 8; 16; 32; 64; 128]%nat (127%nat, f)).2.

(** The products modulo X^2 - gamma. *)
Definition ntt_mul_pair (a b : Poly) (i : nat) : list Z :=
  let gamma := gammas !!! i in
  let a0 := a !!! (2 * i)%nat in
  let a1 := a !!! (2 * i + 1)%nat in
  let b0 := b !!! (2 * i)%nat in
  let b1 := b !!! (2 * i + 1)%nat in
  [reduce (a0 * b0 + Z.rem (a1 * b1) Q * gamma); reduce (a0 * b1 + a1 * b0)].

Definition ntt_mul (a b : Poly) : Poly := concat (map (ntt_mul_pair a b) (seq 0 128)).

(** The schoolbook product modulo X^256 + 1 that the tests compare with. *)
Definition schoolbook (a b : Poly) : Poly :=
  let c := fold_left (λ c i, fold_left (λ c k,
             <[(i + k)%nat := c !!! (i + k)%nat + a !!! i * b !!! k]> c) (seq 0 N) c) (seq 0 N)
             (replicate (2 * N) 0) in
  map (λ i, reduce (c !!! i - c !!! (i + N)%nat)) (seq 0 N).

Definition poly_add (a b : Poly) : Poly := zip_with (λ x y, reduce (x + y)) a b.
Definition poly_sub (a b : Poly) : Poly := zip_with (λ x y, reduce (x - y)) a b.

(** ** Codecs *)

(** The low [d] bits of each coefficient, and eight bits to a byte. *)
Definition bits_of (d : nat) (x : Z) : list bool := map (λ b, Z.testbit x (Z.of_nat b)) (seq 0 d).
Definition byte_of_bits (bits : list bool) : byte :=
  byte.of_Z (foldr (λ (b : bool) acc, Z.b2z b + 2 * acc) 0 bits).

Definition byte_encode (f : Poly) (d : nat) : bytes :=
  map byte_of_bits (chunks 8 (concat (map (bits_of d) f))).

Definition value_of_bits (bits : list bool) : Z := foldr (λ (b : bool) acc, Z.b2z b + 2 * acc) 0 bits.

Definition byte_decode (b : bytes) (d : nat) : Poly :=
  let bits := concat (map (λ x, bits_of 8 (byte.unsigned x)) b) in
  let modulus := if (d <? 12)%nat then 2 ^ Z.of_nat d else Q in
  map (λ i, value_of_bits (take d (drop (i * d) bits)) mod modulus) (seq 0 N).

(** [u32] shifts: [x] is a coefficient below [Q], [d] at most 10. *)
Definition compress (x : Z) (d : nat) : Z :=
  Z.land ((Z.shiftl x (Z.of_nat d) + Q / 2) / Q) (2 ^ Z.of_nat d - 1).
Definition decompress (y : Z) (d : nat) : Z :=
  Z.shiftr (y * Q + 2 ^ (Z.of_nat d - 1)) (Z.of_nat d).

Definition poly_compress (f : Poly) (d : nat) : Poly := map (λ x, compress x d) f.
Definition poly_decompress (f : Poly) (d : nat) : Poly := map (λ y, decompress y d) f.

(** ** Sampling *)

(** [SampleNTT]: three bytes of output give up to two coefficients. The loop
    ends with probability one only; [fuel] bounds it, and no coefficient is
    made up when it runs out. *)
Fixpoint sample_ntt_loop (fuel : nat) (xof : Keccak) (a : Poly) : option Poly :=
  if (N <=? length a)%nat then Some a
  else
    match fuel with
    | O => None
    | S fuel' =>
        let '(buf, xof) := squeeze xof 3 in
        let u i := byte.unsigned (buf !!! i) in
        let d1 := u 0%nat + 256 * Z.land (u 1%nat) 0x0f in
        let d2 := Z.shiftr (u 1%nat) 4 + 16 * u 2%nat in
        let a := if d1 <? Q then a ++ [d1] else a in
        let a := if (d2 <? Q) && (length a <? N)%nat then a ++ [d2] else a in
        sample_ntt_loop fuel' xof a
    end.

Definition sample_ntt (fuel : nat) (rho : bytes) (i j : byte) : option Poly :=
  sample_ntt_loop fuel (absorb (absorb shake128_new rho) [i; j]) [].

(** [SamplePolyCBD] *)
Definition sample_bit (b : bytes) (pos : nat) : Z :=
  Z.land (Z.shiftr (byte.unsigned (b !!! (pos / 8)%nat)) (Z.of_nat (pos mod 8))) 1.

Definition sample_cbd (b : bytes) (eta : nat) : Poly :=
  map (λ i,
    let base := (2 * i * eta)%nat in
    let x := fold_left (λ x k, x + sample_bit b (base + k)) (seq 0 eta) 0 in
    let y := fold_left (λ y k, y + sample_bit b (base + eta + k)) (seq 0 eta) 0 in
    reduce (x - y)) (seq 0 N).

Definition prf (s : bytes) (b : byte) (eta : nat) : bytes := shake256 (s ++ [b]) (64 * eta).

Definition hash_g (input : bytes) : bytes * bytes := let h := sha3_512 input in (take 32 h, drop 32 h).
Definition hash_h (input : bytes) : bytes := sha3_256 input.
Definition hash_j (input : bytes) : bytes := shake256 input 32.

(** What the key encapsulation asks of the hash functions: G, H, J, the PRF
    of the noise and the sampler of the matrix. *)
Class KemHash := {
  kem_g : bytes → bytes * bytes;
  kem_h : bytes → bytes;
  kem_j : bytes → bytes;
  kem_prf : bytes → byte → nat → bytes;
  kem_sample : bytes → byte → byte → option Poly;
}.

Class KemHashLaws `{KemHash} : Prop := {
  kem_g_length : ∀ x, length (kem_g x).1 = 32%nat;
  kem_h_length : ∀ x, length (kem_h x) = 32%nat;
}.

(** The functions of the program. *)
Definition keccak_hash (fuel : nat) : KemHash :=
  {| kem_g := hash_g; kem_h := hash_h; kem_j := hash_j; kem_prf := prf; kem_sample := sample_ntt fuel |}.

Section Kem.
Context `{KemHash}.

(** [gen_matrix]: entry (i, j) from (rho, j, i), or (rho, i, j) transposed. *)
Definition gen_matrix (rho : bytes) (transposed : bool) : option (list (list Poly)) :=
  mapM (λ i, mapM (λ j,
    let bi := byte.of_Z (Z.of_nat i) in
    let bj := byte.of_Z (Z.of_nat j) in
    if transposed then kem_sample rho bi bj else kem_sample rho bj bi) (seq 0 K)) (seq 0 K).

(** ** K-PKE *)

(** [count] noise polynomials from the counter [n] on. *)
Definition sample_vector (seed : bytes) (n count eta : nat) : list Poly :=
  map (λ i, sample_cbd (kem_prf seed (byte.of_Z (Z.of_nat i)) eta) eta) (seq n count).

(** A row times a column, in the transformed domain. *)
Definition dot (a b : list Poly) : Poly :=
  fold_left (λ acc ab, poly_add acc (ntt_mul ab.1 ab.2)) (zip a b) ZERO_POLY.

Definition pke_keygen (d : bytes) : option (bytes * bytes) :=
  let '(rho, sigma) := kem_g (d ++ [byte.of_Z (Z.of_nat K)]) in
  a ← gen_matrix rho false;
  let s := sample_vector sigma 0 K ETA1 in
  let e := sample_vector sigma K K ETA1 in
  let s_hat := map ntt s in
  let e_hat := map ntt e in
  let t_hat := zip_with (λ row e, poly_add (dot row s_hat) e) a e_hat in
  Some (concat (map (λ t, byte_encode t 12) t_hat) ++ rho, concat (map (λ s, byte_encode s 12) s_hat)).

(** The [K] polynomials encoded in 384 bytes each. *)
Definition decode_vector (b : bytes) : list Poly :=
  map (λ i, byte_decode (slice (384 * i) (384 * (i + 1)) b) 12) (seq 0 K).

Definition pke_encrypt (ek m rand : bytes) : option bytes :=
  let t_hat := decode_vector ek in
  let rho := slice (384 * K) (384 * K + 32) ek in
  at_ ← gen_matrix rho true;
  let r := sample_vector rand 0 K ETA1 in
  let e1 := sample_vector rand K K ETA2 in
  let e2 := sample_cbd (kem_prf rand (byte.of_Z (Z.of_nat (2 * K))) ETA2) ETA2 in
  let r_hat := map ntt r in
  let u := zip_with (λ row e, poly_add (intt (dot row r_hat)) e) at_ e1 in
  let mu := poly_decompress (byte_decode m 1) 1 in
  let v := poly_add (poly_add (intt (dot t_hat r_hat)) e2) mu in
  Some (concat (map (λ ui, byte_encode (poly_compress ui DU) DU) u) ++ byte_encode (poly_compress v DV) DV).

Definition pke_decrypt (dk ct : bytes) : bytes :=
  let u := map (λ i, poly_decompress (byte_decode (slice (32 * DU * i) (32 * DU * (i + 1)) ct) DU) DU) (seq 0 K) in
  let v := poly_decompress (byte_decode (drop (32 * DU * K) ct) DV) DV in
  let s_hat := decode_vector dk in
  let w := poly_sub v (intt (dot s_hat (map ntt u))) in
  byte_encode (poly_compress w 1) 1.

(** ** ML-KEM *)

Record KeyPair : Type := mkKeyPair { kp_ek : bytes; kp_dk : bytes }.

Definition keygen_internal (d z : bytes) : option KeyPair :=
  '(ek, dk) ← pke_keygen d;
  Some (mkKeyPair ek (dk ++ ek ++ kem_h ek ++ z)).

Definition encaps_internal (ek m : bytes) : option (bytes * bytes) :=
  let '(shared, r) := kem_g (m ++ kem_h ek) in
  ct ← pke_encrypt ek m r;
  Some (ct, shared).

Definition decapsulate (dk ct : bytes) : option bytes :=
  let dk_pke := take (384 * K) dk in
  let ek_pke := slice (384 * K) (768 * K + 32) dk in
  let hash := slice (768 * K + 32) (768 * K + 64) dk in
  let z := slice (768 * K + 64) (768 * K + 96) dk in
  let m_prime := pke_decrypt dk_pke ct in
  let '(shared, r) := kem_g (m_prime ++ hash) in
  let k_bar := kem_j (z ++ ct) in
  ct_prime ← pke_encrypt ek_pke m_prime r;
  Some (if bool_decide (ct = ct_prime) then shared else k_bar).

End Kem.
