(* ===== verification/MlkemFacts.v ===== *)
(** * The number-theoretic transform of ML-KEM

    The transform evaluates a polynomial modulo the 128 factors X^2 - gamma
    of X^256 + 1, its inverse undoes it, and the product of transforms is
    the transform of the negacyclic product. *)

From S2P Require Import Prelude Ntt Keccak Mlkem.
#[local] Open Scope ntt_scope.

Abbreviation veq := (Forall2 (cong Q)).
Abbreviation peq := (prod_relation (cong Q) (cong Q)).

Ltac mod_ring := unfold reduce; cong_ring.

Lemma reduce_range x : 0 ≤ reduce x < Q.
Proof. apply Z.mod_pos_bound. reflexivity. Qed.

(** ** Evaluation modulo X^2 - gamma

    [ev g f] is the remainder of [f] by X^2 - [g], its constant and linear
    coefficients. *)
Definition ev (g : Z) (f : list Z) : Z * Z := foldr (λ c p, (c + g * p.2, p.1)) (0, 0) f.

Definition padd (p r : Z * Z) : Z * Z := (p.1 + r.1, p.2 + r.2).
Definition pscale (c : Z) (p : Z * Z) : Z * Z := (c * p.1, c * p.2).
Definition pmul (g : Z) (p r : Z * Z) : Z * Z := (p.1 * r.1 + g * (p.2 * r.2), p.1 * r.2 + p.2 * r.1).

Lemma ev_cons g c f : ev g (c :: f) = (c + g * (ev g f).2, (ev g f).1).
Proof. reflexivity. Qed.
Lemma ev_proper g a b : veq a b → peq (ev g a) (ev g b).
Proof.
  induction 1 as [|x y a b Hxy H [IH1 IH2]]; [done|].
  split; simpl; [by rewrite Hxy, IH2 | done].
Qed.
Lemma ev_vadd g a b : length a = length b → ev g (vadd a b) = padd (ev g a) (ev g b).
Proof.
  revert b. induction a as [|x a IH]; intros [|y b] H; try done.
  simpl. rewrite IH by (simpl in H; lia). unfold padd. simpl. f_equal; ring.
Qed.
Lemma ev_vscale g c a : ev g (vscale c a) = pscale c (ev g a).
Proof.
  induction a as [|x a IH]; simpl; [unfold pscale; simpl; f_equal; ring|].
  fold (vscale c a). rewrite IH. unfold pscale. simpl. f_equal; ring.
Qed.
Lemma ev_app g a b (m : nat) :
  length a = (2 * m)%nat → ev g (a ++ b) = padd (ev g a) (pscale (g ^ Z.of_nat m) (ev g b)).
Proof.
  revert a. induction m as [|m IH]; intros a H.
  - destruct a; [|done]. rewrite app_nil_l. unfold padd, pscale.
    destruct (ev g b) as [u v]. cbn [fst snd ev foldr Z.of_nat]. rewrite Z.pow_0_r. f_equal; ring.
  - destruct a as [|x [|y a]]; simpl in H; try lia.
    simpl. rewrite IH by lia. rewrite Nat2Z.inj_succ, Z.pow_succ_r by lia.
    unfold padd, pscale. simpl. f_equal; ring.
Qed.

#[export] Instance padd_proper : Proper (peq ==> peq ==> peq) padd.
Proof. intros p p' [H1 H2] r r' [H3 H4]. split; simpl; [by rewrite H1, H3 | by rewrite H2, H4]. Qed.
#[export] Instance pscale_proper : Proper (cong Q ==> peq ==> peq) pscale.
Proof. intros c c' Hc p p' [H1 H2]. split; simpl; [by rewrite Hc, H1 | by rewrite Hc, H2]. Qed.
#[export] Instance pmul_proper : Proper (cong Q ==> peq ==> peq ==> peq) pmul.
Proof.
  intros g g' Hg p p' [H1 H2] r r' [H3 H4].
  split; simpl; [by rewrite Hg, H1, H2, H3, H4 | by rewrite H1, H2, H3, H4].
Qed.

Lemma vadd_scale_lin c a b : vadd a (vscale c b) = lin c a b.
Proof. unfold vscale, lin. by rewrite zip_with_fmap_r. Qed.

Lemma ev_lin g c a b : length a = length b → ev g (lin c a b) = padd (ev g a) (pscale c (ev g b)).
Proof.
  intros H. rewrite <- vadd_scale_lin, ev_vadd, ev_vscale; [done|]. unfold vscale. by rewrite length_map.
Qed.

Lemma ev_fold g z lo hi m :
  length lo = (2 * m)%nat → length hi = (2 * m)%nat → g ^ Z.of_nat m ≡[Q] z →
  peq (ev g (lo ++ hi)) (ev g (lin z lo hi)).
Proof. intros Hl Hh Hz. rewrite (ev_app g lo hi m), ev_lin by lia. by rewrite Hz. Qed.

(** ** The layers *)

Definition zeta (i : nat) : Z := zetas !!! i.
Definition nttF (z x y : Z) : Z := reduce (x + reduce (z * y)).
Definition nttG (z x y : Z) : Z := reduce (x - reduce (z * y)).
Definition inttF (z x y : Z) : Z := reduce (x + y).
Definition inttG (z x y : Z) : Z := reduce (z * (y - x)).

Lemma nttF_spec z x y : nttF z x y ≡[Q] x + z * y.
Proof. unfold nttF. mod_ring. Qed.
Lemma nttG_spec z x y : nttG z x y ≡[Q] x - z * y.
Proof. unfold nttG. mod_ring. Qed.
Lemma inttF_spec z x y : inttF z x y ≡[Q] x + y.
Proof. unfold inttF. mod_ring. Qed.
Lemma inttG_spec z x y : inttG z x y ≡[Q] z * (y - x).
Proof. unfold inttG. mod_ring. Qed.

Lemma intt_butterfly_spec z len a j :
  (0 < len)%nat → intt_butterfly z len a j = butterfly (inttF z) (inttG z) len a j.
Proof. intros. unfold intt_butterfly, butterfly. by rewrite list_insert_insert_ne by lia. Qed.

Definition NL (k : nat) (a : Poly) : Poly := (ntt_layer ((2 ^ k)%nat, a) (2 ^ (7 - k))).2.
Definition IL (k : nat) (a : Poly) : Poly := (intt_layer ((2 ^ S k - 1)%nat, a) (2 ^ (7 - k))).2.

(** A fact about the seven layers, one by one. *)
Ltac by_layer k := do 7 (destruct k as [|k]; [first [reflexivity | vm_compute; reflexivity]|]); lia.

Lemma layer_count k : (k < 7)%nat → (N / (2 * 2 ^ (7 - k)) = 2 ^ k)%nat.
Proof. intros Hk. by_layer k. Qed.
Lemma layer_len k : (k < 7)%nat → (2 ^ (7 - k) = 2 * 2 ^ (7 - S k))%nat.
Proof. intros Hk. by_layer k. Qed.
Lemma layer_len_pos k : (0 < 2 ^ (7 - k))%nat.
Proof. apply Nat.neq_0_lt_0. by apply Nat.pow_nonzero. Qed.

Lemma NL_spec k bs : (k < 7)%nat →
  Forall (λ b, length b = 2 * (2 * 2 ^ (7 - S k)))%nat bs → length bs = (2 ^ k)%nat →
  NL k (concat bs) = concat (layer_op nttF nttG (2 * 2 ^ (7 - S k)) (layer_zetas zeta k) bs).
Proof.
  intros Hk Hbs Hn. rewrite <- layer_len in * by done. unfold NL, ntt_layer, block_starts.
  rewrite layer_count by done.
  pose proof (layer_blocks nttF nttG zeta S (2 ^ (7 - k)) bs (2 ^ k) (layer_len_pos k) Hbs) as E. rewrite Hn in E.
  transitivity (concat (layer_op nttF nttG (2 ^ (7 - k))
    (map (λ n, zeta (Nat.iter n S (2 ^ k)%nat)) (seq 0 (2 ^ k))) bs)).
  - exact (f_equal snd E).
  - unfold layer_zetas. do 2 f_equal. apply map_ext. intros n. by rewrite iter_S.
Qed.

Definition ilayer_zetas (k : nat) : list Z := map (λ n, zeta (2 ^ S k - 1 - n)%nat) (seq 0 (2 ^ k)).

Lemma IL_spec k bs : (k < 7)%nat →
  Forall (λ b, length b = 2 * 2 ^ (7 - k))%nat bs → length bs = (2 ^ k)%nat →
  IL k (concat bs) = concat (layer_op inttF inttG (2 ^ (7 - k)) (ilayer_zetas k) bs).
Proof.
  intros Hk Hbs Hn. unfold IL, intt_layer, block_starts. rewrite layer_count by done.
  pose proof (layer_blocks inttF inttG zeta Nat.pred (2 ^ (7 - k)) bs (2 ^ S k - 1) (layer_len_pos k) Hbs) as E. rewrite Hn in E.
  transitivity (concat (layer_op inttF inttG (2 ^ (7 - k))
    (map (λ n, zeta (Nat.iter n Nat.pred (2 ^ S k - 1)%nat)) (seq 0 (2 ^ k))) bs)).
  - etransitivity; [|exact (f_equal snd E)]. f_equal. apply fold_left_ext_all. intros [i a] start. f_equal.
    apply fold_left_ext_all. intros a' j. apply intt_butterfly_spec, layer_len_pos.
  - unfold ilayer_zetas. do 2 f_equal. apply map_ext. intros n. by rewrite iter_pred.
Qed.

Lemma ntt_layer_NL k a : (k < 7)%nat → ntt_layer ((2 ^ k)%nat, a) (2 ^ (7 - k)) = ((2 ^ S k)%nat, NL k a).
Proof.
  intros Hk. apply injective_projections; [|done]. unfold ntt_layer.
  rewrite (fold_index S), iter_S. by_layer k.
Qed.
Lemma intt_layer_IL k a : (k < 7)%nat →
  intt_layer ((2 ^ S k - 1)%nat, a) (2 ^ (7 - k)) = ((2 ^ k - 1)%nat, IL k a).
Proof.
  intros Hk. apply injective_projections; [|done]. unfold intt_layer.
  rewrite (fold_index Nat.pred), iter_pred. by_layer k.
Qed.

Lemma ntt_layers f : ntt f = layers NL 7 f.
Proof.
  cbn [layers]. unfold ntt. cbn [fold_left].
  by rewrite (ntt_layer_NL 0), (ntt_layer_NL 1), (ntt_layer_NL 2), (ntt_layer_NL 3), (ntt_layer_NL 4),
    (ntt_layer_NL 5), (ntt_layer_NL 6) by lia.
Qed.
Lemma intt_undo f : intt f = map (λ x, reduce (x * 3303)) (undo IL 7 f).
Proof.
  cbn [undo]. unfold intt. cbn [fold_left].
  by rewrite (intt_layer_IL 6), (intt_layer_IL 5), (intt_layer_IL 4), (intt_layer_IL 3), (intt_layer_IL 2),
    (intt_layer_IL 1), (intt_layer_IL 0) by lia.
Qed.

(** ** The transform evaluates *)

Lemma zeta_square k : (k < 7)%nat → Forall2 (λ z c, z * z ≡[Q] c) (layer_zetas zeta k) (tags zeta k).
Proof.
  intros Hk. apply (forall2_congb Q (λ z, z * z) (λ c, c)); [|by rewrite length_layer_zetas, length_tags].
  by_layer k.
Qed.
Lemma tags_gammas : Forall2 (cong Q) gammas (tags zeta 7).
Proof. apply (forall2_congb Q (λ c, c) (λ c, c)); vm_compute; reflexivity. Qed.

Lemma ntt_blocks f : length f = N →
  ∃ bs, ntt f = concat bs ∧ Forall2 (block_inv Q peq ev 2 f 1) (tags zeta 7) bs.
Proof.
  intros Hf. rewrite ntt_layers.
  apply (layers_inv Q peq ev 2 ltac:(lia) (ev_proper) ev_fold nttF nttG nttF_spec nttG_spec zeta 7 NL
           NL_spec zeta_square f 7); [lia | exact Hf].
Qed.

(** ** Coefficient pairs *)

Definition pget (a : Poly) (i : nat) : Z * Z := (a !!! (2 * i)%nat, a !!! (2 * i + 1)%nat).
Definition pairs (f : nat → Z * Z) (n : nat) : Poly := concat (map (λ i, [(f i).1; (f i).2]) (seq 0 n)).

Lemma length_pairs f n : length (pairs f n) = (2 * n)%nat.
Proof.
  unfold pairs. rewrite (length_concat_const _ 2).
  - by rewrite length_map, length_seq.
  - apply Forall_fmap, Forall_true. done.
Qed.
Lemma pget_pairs_aux f n : ∀ k i, (i < n)%nat →
  pget (concat (map (λ i, [(f i).1; (f i).2]) (seq k n))) i = f (k + i)%nat.
Proof.
  induction n as [|n IH]; intros k i Hi; [lia|]. destruct i as [|i].
  - simpl. rewrite Nat.add_0_r. unfold pget. simpl. by destruct (f k).
  - transitivity (pget (concat (map (λ i, [(f i).1; (f i).2]) (seq (S k) n))) i).
    + unfold pget. cbn [seq map concat app].
      replace (2 * S i)%nat with (S (S (2 * i))) by lia.
      replace (S (S (2 * i)) + 1)%nat with (S (S (2 * i + 1))) by lia. reflexivity.
    + rewrite IH by lia. f_equal. lia.
Qed.
Lemma pget_pairs f n i : (i < n)%nat → pget (pairs f n) i = f i.
Proof. apply (pget_pairs_aux f n 0). Qed.

Lemma pget_ext a b n : length a = (2 * n)%nat → length b = (2 * n)%nat →
  (∀ i, (i < n)%nat → peq (pget a i) (pget b i)) → veq a b.
Proof.
  revert a b. induction n as [|n IH]; intros a b Ha Hb H.
  - destruct a; [|done]. destruct b; [constructor | done].
  - destruct a as [|x [|x' a]]; simpl in Ha; try lia.
    destruct b as [|y [|y' b]]; simpl in Hb; try lia.
    destruct (H 0%nat ltac:(lia)) as [H0 H1]. constructor; [exact H0|]. constructor; [exact H1|].
    apply IH; [lia | lia|]. intros i Hi. specialize (H (S i) ltac:(lia)). revert H. unfold pget.
    replace (2 * S i)%nat with (S (S (2 * i))) by lia.
    replace (S (S (2 * i)) + 1)%nat with (S (S (2 * i + 1))) by lia. exact (λ h, h).
Qed.

Lemma pget_proper a b i : veq a b → peq (pget a i) (pget b i).
Proof. intros H. split; by apply lookup_veq. Qed.

Lemma pget_cons2 x y l i : pget (x :: y :: l) (S i) = pget l i.
Proof.
  unfold pget. replace (2 * S i)%nat with (S (S (2 * i))) by lia.
  by replace (S (S (2 * i)) + 1)%nat with (S (S (2 * i + 1))) by lia.
Qed.

(** A list of tagged blocks of two, read pairwise. *)
Lemma blocks_of_two f gs bs :
  Forall2 (block_inv Q peq ev 2 f 1) gs bs →
  length (concat bs) = (2 * length gs)%nat ∧
  ∀ i, (i < length gs)%nat → peq (pget (concat bs) i) (ev (gs !!! i) f).
Proof.
  induction 1 as [|g b gs bs [Hl Hev] H [IHl IH]]; [split; [done | simpl; lia]|].
  destruct b as [|u [|v [|]]]; try done. simpl. split; [lia|]. intros [|i] Hi.
  - etransitivity; [|apply (Hev g); change (Z.of_nat 1) with 1; by rewrite Z.pow_1_r].
    split; apply cong_of_eq; simpl; ring.
  - rewrite pget_cons2. apply IH. lia.
Qed.

Lemma ntt_spec f : length f = N →
  length (ntt f) = N ∧ ∀ i, (i < 128)%nat → peq (pget (ntt f) i) (ev (gammas !!! i) f).
Proof.
  intros Hf. destruct (ntt_blocks f Hf) as (bs & E & H). rewrite E. clear E.
  apply (blocks_of_two f gammas bs).
  pose proof tags_gammas as Ht. revert Ht H. generalize (tags zeta 7) gammas. intros ts gs Hg. revert bs.
  induction Hg as [|g t gs ts Hgt Hg IH]; intros bs Hb; inversion Hb; subst; constructor.
  - eapply block_inv_tag; [symmetry|]; eassumption.
  - by apply IH.
Qed.

(** ** Products *)

Lemma ntt_mul_pairs a b : ntt_mul a b =
  pairs (λ i, let g := gammas !!! i in
    (reduce (a !!! (2 * i)%nat * b !!! (2 * i)%nat + Z.rem (a !!! (2 * i + 1)%nat * b !!! (2 * i + 1)%nat) Q * g),
     reduce (a !!! (2 * i)%nat * b !!! (2 * i + 1)%nat + a !!! (2 * i + 1)%nat * b !!! (2 * i)%nat))) 128.
Proof. reflexivity. Qed.

Lemma length_ntt_mul a b : length (ntt_mul a b) = N.
Proof. rewrite ntt_mul_pairs. apply length_pairs. Qed.

Lemma pget_ntt_mul a b i : (i < 128)%nat →
  peq (pget (ntt_mul a b) i) (pmul (gammas !!! i) (pget a i) (pget b i)).
Proof.
  intros Hi. rewrite ntt_mul_pairs, pget_pairs by done. unfold pget, pmul.
  split; cbn [fst snd]; mod_ring.
Qed.

(** The schoolbook product: every insertion adds a monomial. *)
Lemma gammas_order i : (i < 128)%nat → (gammas !!! i) ^ 128 ≡[Q] -1.
Proof.
  intros Hi. etransitivity; [apply (square_mod_pow Q 7)|]. apply congb_true.
  apply (Forall_lookup_total_lt (λ g, congb Q (square_mod Q 7 g) (-1) = true) gammas i 128); [|reflexivity|exact Hi].
  apply List.Forall_forall, forallb_forall. vm_compute. reflexivity.
Qed.

(** [mono g n] is X^n modulo X^2 - g. *)
Definition mono (g : Z) (n : nat) : Z * Z := ev g (replicate n 0 ++ [1]).

Lemma mono_0 g : mono g 0 = (1, 0).
Proof. unfold mono. cbn. f_equal; ring. Qed.
Lemma mono_S g n : mono g (S n) = (g * (mono g n).2, (mono g n).1).
Proof. unfold mono. simpl. by rewrite Z.add_0_l. Qed.

Lemma ev_insert g c n x : (n < length c)%nat →
  ev g (<[n := c !!! n + x]> c) = padd (ev g c) (pscale x (mono g n)).
Proof.
  revert n. induction c as [|y c IH]; intros n Hn; [simpl in Hn; lia|]. destruct n as [|n].
  - unfold padd, pscale, mono. simpl. f_equal; ring.
  - simpl in Hn. change (<[S n := (y :: c) !!! S n + x]> (y :: c)) with (y :: <[n := c !!! n + x]> c).
    rewrite !ev_cons, IH, mono_S by lia. unfold padd, pscale. simpl. f_equal; ring.
Qed.

Lemma mono_add g n m : mono g (n + m) = pmul g (mono g n) (mono g m).
Proof.
  induction n as [|n IH].
  - rewrite mono_0, Nat.add_0_l. unfold pmul. destruct (mono g m) as [u v]. cbn [fst snd]. f_equal; ring.
  - simpl plus. rewrite !mono_S, IH. unfold pmul. simpl. f_equal; ring.
Qed.

Lemma ev_snoc g l x : ev g (l ++ [x]) = padd (ev g l) (pscale x (mono g (length l))).
Proof.
  induction l as [|y l IH]; simpl length.
  - rewrite mono_0. unfold padd, pscale. cbn. f_equal; ring.
  - rewrite <- app_comm_cons, !ev_cons, IH, mono_S. unfold padd, pscale. cbn [fst snd]. f_equal; ring.
Qed.
Lemma ev_take_S g l n : (n < length l)%nat →
  ev g (take (S n) l) = padd (ev g (take n l)) (pscale (l !!! n) (mono g n)).
Proof.
  intros Hn. rewrite (take_S_r l n (l !!! n)) by (apply list_lookup_lookup_total_lt; lia).
  rewrite ev_snoc, length_take. by replace (n `min` length l)%nat with n by lia.
Qed.

Lemma schoolbook_row g a_i i b n : ∀ c,
  (n ≤ length b)%nat → (i + length b ≤ length c)%nat →
  let c' := fold_left (λ c k, <[(i + k)%nat := c !!! (i + k)%nat + a_i * b !!! k]> c) (seq 0 n) c in
  length c' = length c ∧ ev g c' = padd (ev g c) (pscale a_i (pmul g (mono g i) (ev g (take n b)))).
Proof.
  induction n as [|n IH]; intros c Hn Hc; cbv zeta.
  - split; [done|]. rewrite take_0. simpl. destruct (ev g c) as [u v]. unfold padd, pscale, pmul. cbn. f_equal; ring.
  - rewrite seq_S, fold_left_app. cbn [fold_left plus].
    destruct (IH c ltac:(lia) Hc) as [Hl He]. split; [by rewrite length_insert|].
    rewrite ev_insert by (rewrite Hl; lia). rewrite He, ev_take_S, mono_add by lia.
    unfold padd, pscale, pmul. cbn [fst snd]. f_equal; ring.
Qed.

Lemma schoolbook_rows g a b n : ∀ c,
  (n ≤ length a)%nat → (length a + length b ≤ length c)%nat →
  let c' := fold_left (λ c i, fold_left (λ c k,
              <[(i + k)%nat := c !!! (i + k)%nat + a !!! i * b !!! k]> c) (seq 0 (length b)) c) (seq 0 n) c in
  length c' = length c ∧ ev g c' = padd (ev g c) (pmul g (ev g (take n a)) (ev g b)).
Proof.
  induction n as [|n IH]; intros c Hn Hc; cbv zeta.
  - split; [done|]. rewrite take_0. simpl. destruct (ev g c) as [u v]. unfold padd, pscale, pmul. cbn. f_equal; ring.
  - rewrite seq_S, fold_left_app. cbn [fold_left plus].
    destruct (IH c ltac:(lia) Hc) as [Hl He].
    match type of Hl with length ?x = _ => destruct (schoolbook_row g (a !!! n) n b (length b) x) as [Hl' He'];
      [done | rewrite Hl; lia |] end.
    split; [by rewrite Hl'|]. rewrite He', He, (take_ge b), ev_take_S by lia.
    unfold padd, pscale, pmul. cbn [fst snd]. f_equal; ring.
Qed.

Lemma map_seq_halves {A} `{Inhabited Z} (F : Z → Z → A) n : ∀ lo hi : list Z,
  length lo = n → length hi = n →
  map (λ i, F (lo !!! i) (hi !!! i)) (seq 0 n) = zip_with F lo hi.
Proof.
  induction n as [|n IH]; intros [|x lo] [|y hi] Hl Hh; try done.
  cbn [seq map zip_with]. f_equal. rewrite <- seq_shift, map_map. apply IH; simpl in *; lia.
Qed.

Lemma ev_zeros g n : ev g (replicate n 0) = (0, 0).
Proof. induction n as [|n IH]; [done|]. simpl replicate. rewrite ev_cons, IH. simpl. f_equal; ring. Qed.

Lemma ev_sub_zip g lo hi : peq (ev g (zip_with (λ x y, reduce (x - y)) lo hi)) (ev g (lin (-1) lo hi)).
Proof. apply ev_proper, veq_zip_with. intros x y. mod_ring. Qed.

Lemma schoolbook_spec a b : length a = N → length b = N →
  length (schoolbook a b) = N ∧ reduced Q (schoolbook a b) ∧
  ∀ g, g ^ 128 ≡[Q] -1 → peq (ev g (schoolbook a b)) (pmul g (ev g a) (ev g b)).
Proof.
  intros Ha Hb. unfold schoolbook.
  set (c := fold_left _ (seq 0 N) (replicate (2 * N) 0)).
  assert (Hc : ∀ g, length c = (2 * N)%nat ∧ ev g c = pmul g (ev g a) (ev g b)).
  { intros g. destruct (schoolbook_rows g a b N (replicate (2 * N) 0)) as [Hl He];
      [lia | rewrite length_replicate; lia|].
    rewrite length_replicate, Hb in Hl. rewrite Hb in He. split; [exact Hl|].
    unfold c. rewrite He, ev_zeros, (take_ge a) by lia.
    unfold padd. destruct (pmul g (ev g a) (ev g b)). reflexivity. }
  clearbody c. destruct (Hc 0) as [Hl _].
  set (lo := take N c). set (hi := drop N c).
  assert (Hlo : length lo = N) by (unfold lo; rewrite length_take; lia).
  assert (Hhi : length hi = N) by (unfold hi; rewrite length_drop; lia).
  assert (E : map (λ i, reduce (c !!! i - c !!! (i + N)%nat)) (seq 0 N) =
              zip_with (λ x y, reduce (x - y)) lo hi).
  { rewrite <- (map_seq_halves _ N) by done. apply map_ext_in. intros i Hi%in_seq.
    rewrite <- (take_drop N c). fold lo hi. rewrite lookup_total_app_l by lia.
    rewrite lookup_total_app_r by lia. by replace (i + N - length lo)%nat with i by lia. }
  rewrite E. split; [rewrite length_zip_with; lia|]. split.
  - unfold reduced. clear. generalize lo hi. intros l. induction l as [|x l IH]; intros [|y h]; constructor;
      [apply reduce_range | apply IH].
  - intros g Hg. destruct (Hc g) as [_ He]. rewrite <- He, <- (take_drop N c). fold lo hi.
    rewrite (ev_app g lo hi 128) by done. change (Z.of_nat 128) with 128. rewrite Hg.
    rewrite ev_sub_zip, ev_lin by lia. reflexivity.
Qed.

(** ** The inverse transform *)

Lemma block_starts_range len :
  (0 < len)%nat → Forall (λ start, start + 2 * len ≤ N)%nat (block_starts len).
Proof.
  intros Hlen. unfold block_starts. apply Forall_fmap, seq_all. intros b Hb. unfold compose.
  pose proof (Nat.Div0.mul_div_le N (2 * len)). nia.
Qed.

Lemma linear_layer (L : nat * Poly → nat * Poly) (T : Poly → Poly) i :
  tracked Q N L → (∀ a, T a = (L (i, a)).2) → linear Q N T.
Proof.
  intros H E. destruct (H i) as (i' & U & HU & EU). eapply linear_ext; [|exact HU].
  intros a. by rewrite E, EU.
Qed.

Lemma linear_NL k : (k < 7)%nat → linear Q N (NL k).
Proof.
  intros Hk. eapply (linear_layer _ _ (2 ^ k)); [|reflexivity].
  apply (tracked_layer Q N (λ i, nttF (zeta i)) (λ i, nttG (zeta i)) S);
    [| |apply block_starts_range; apply layer_len_pos|apply layer_len_pos].
  - intros i. exists 1, (zeta i). intros x y. rewrite nttF_spec. apply cong_of_eq. ring.
  - intros i. exists 1, (- zeta i). intros x y. rewrite nttG_spec. apply cong_of_eq. ring.
Qed.

Lemma linear_IL k : (k < 7)%nat → linear Q N (IL k).
Proof.
  intros Hk. pose proof (layer_len_pos k) as Hlen.
  assert (H : tracked Q N (λ ia, fold_left (λ ia start, (Nat.pred ia.1,
    fold_left (butterfly (inttF (zeta ia.1)) (inttG (zeta ia.1)) (2 ^ (7 - k))) (seq start (2 ^ (7 - k))) ia.2))
      (block_starts (2 ^ (7 - k))) ia)).
  { apply (tracked_layer Q N (λ i, inttF (zeta i)) (λ i, inttG (zeta i)) Nat.pred);
      [| |by apply block_starts_range|done].
    - intros i. exists 1, 1. intros x y. rewrite inttF_spec. apply cong_of_eq. ring.
    - intros i. exists (- zeta i), (zeta i). intros x y. rewrite inttG_spec. apply cong_of_eq. ring. }
  apply (linear_layer _ _ (2 ^ S k - 1)%nat H). intros a. unfold IL, intt_layer.
  f_equal. apply fold_left_ext_all. intros [i b] start. f_equal.
  apply fold_left_ext_all. intros a' j. by apply intt_butterfly_spec.
Qed.

Lemma linear_intt : linear Q N intt.
Proof.
  eapply linear_ext; [intros a; symmetry; apply intt_undo|].
  apply (linear_compose Q N (undo IL 7)); [by apply (linear_undo Q N IL 7 linear_IL)|].
  apply (linear_map Q N _ 3303). intros x. apply mod_cong.
Qed.

Lemma linear_ntt : linear Q N ntt.
Proof.
  eapply linear_ext; [intros a; symmetry; apply ntt_layers|].
  by apply (linear_layers Q N NL 7 linear_NL).
Qed.

(** Both layers on the blocks of a vector. *)
Lemma layer_split k a : (k < 7)%nat → length a = N →
  ∃ bs, a = concat bs ∧ Forall (λ b : list Z, length b = 2 * 2 ^ (7 - k))%nat bs ∧ length bs = (2 ^ k)%nat.
Proof.
  intros Hk Ha. apply split_blocks. rewrite Ha. by_layer k.
Qed.

Lemma NL_blocks k bs : (k < 7)%nat →
  Forall (λ b, length b = 2 * 2 ^ (7 - k))%nat bs → length bs = (2 ^ k)%nat →
  NL k (concat bs) = concat (layer_op nttF nttG (2 ^ (7 - k)) (layer_zetas zeta k) bs) ∧
  Forall (λ b, length b = 2 * 2 ^ (7 - k))%nat (layer_op nttF nttG (2 ^ (7 - k)) (layer_zetas zeta k) bs) ∧
  length (layer_op nttF nttG (2 ^ (7 - k)) (layer_zetas zeta k) bs) = (2 ^ k)%nat.
Proof.
  intros Hk Hbs Hn. split; [rewrite (layer_len k) in * by done; by apply NL_spec|].
  rewrite <- Hn. apply layer_op_lengths; [done|]. by rewrite length_layer_zetas.
Qed.

Lemma length_NL k a : (k < 7)%nat → length a = N → length (NL k a) = N.
Proof.
  intros Hk Ha. destruct (layer_split k a Hk Ha) as (bs & -> & Hbs & Hn).
  destruct (NL_blocks k bs Hk Hbs Hn) as (-> & Hl & Hn').
  rewrite (length_concat_const _ _ Hl), Hn'. by_layer k.
Qed.

Lemma zetas_inverse k : (k < 7)%nat → Forall2 (λ z z', z * z' ≡[Q] -1) (layer_zetas zeta k) (ilayer_zetas k).
Proof.
  intros Hk. apply Forall2_fmap, Forall_Forall2_diag, seq_all. intros n Hn. apply congb_true. unfold compose.
  assert (H : forallb (λ n, congb Q (zeta (n + 2 ^ k)%nat * zeta (2 ^ S k - 1 - n)%nat) (-1)) (seq 0 (2 ^ k)) = true)
    by by_layer k.
  rewrite forallb_forall in H. apply (H n), in_seq. lia.
Qed.

Lemma IL_NL k a : (k < 7)%nat → length a = N → veq (IL k (NL k a)) (vscale 2 a).
Proof.
  intros Hk Ha. destruct (layer_split k a Hk Ha) as (bs & -> & Hbs & Hn).
  destruct (NL_blocks k bs Hk Hbs Hn) as (-> & Hl & Hn'). rewrite IL_spec by done.
  apply (layer_op_inverse Q nttF nttG inttF inttG nttF_spec nttG_spec inttF_spec inttG_spec);
    [by apply zetas_inverse | by rewrite length_layer_zetas | done].
Qed.

Lemma NL_IL k a : (k < 7)%nat → length a = N → veq (NL k (IL k a)) (vscale 2 a).
Proof.
  intros Hk Ha. destruct (layer_split k a Hk Ha) as (bs & -> & Hbs & Hn). rewrite IL_spec by done.
  destruct (layer_op_lengths inttF inttG (2 ^ (7 - k)) (ilayer_zetas k) bs Hbs) as [Hl Hn'].
  { unfold ilayer_zetas. by rewrite length_map, length_seq. }
  destruct (NL_blocks k _ Hk Hl) as [-> _]; [by rewrite Hn'|].
  apply (layer_op_inverse_r Q nttF nttG inttF inttG nttF_spec nttG_spec inttF_spec inttG_spec);
    [by apply zetas_inverse | by rewrite length_layer_zetas | done].
Qed.

Lemma linear_scale3303 : linear Q N (map (λ x, reduce (x * 3303))).
Proof. apply (linear_map Q N _ 3303). intros x. apply mod_cong. Qed.

Lemma map_scale_veq3303 l : veq (map (λ x, reduce (x * 3303)) l) (vscale 3303 l).
Proof. induction l as [|x l IH]; constructor; [mod_ring | exact IH]. Qed.

Lemma map_scale3303 f : veq (map (λ x, reduce (x * 3303)) (vscale 128 f)) f.
Proof. apply (map_scale_veq Q _ 3303); [intros x; apply mod_cong | by apply congb_true]. Qed.

Lemma intt_ntt_veq f : length f = N → veq (intt (ntt f)) f.
Proof.
  intros Hf. rewrite intt_undo, ntt_layers.
  assert (E : veq (undo IL 7 (layers NL 7 f)) (vscale 128 f)).
  { apply (undo_layers Q N NL IL 7 length_NL linear_IL linear_NL NL_IL IL_NL f 7 1); [lia | done | by rewrite vscale_1]. }
  eapply veq_trans; [apply (linear_veq _ _ _ linear_scale3303); [|exact E]|apply map_scale3303].
  rewrite (length_veq _ _ _ E). unfold vscale. by rewrite length_map.
Qed.

Lemma ntt_intt_veq f : length f = N → veq (ntt (intt f)) f.
Proof.
  intros Hf. rewrite intt_undo, ntt_layers.
  pose proof (linear_layers Q N NL 7 linear_NL 7 ltac:(lia)) as HL.
  pose proof (linear_length _ _ _ (linear_undo Q N IL 7 linear_IL 7 ltac:(lia)) f Hf) as Hu.
  assert (E : veq (map (λ x, reduce (x * 3303)) (undo IL 7 f)) (vscale 3303 (undo IL 7 f))).
  { apply map_scale_veq3303. }
  eapply veq_trans; [apply (linear_veq _ _ _ HL); [by rewrite length_map | exact E]|].
  eapply veq_trans; [by apply (linear_scale Q N)|].
  eapply veq_trans; [apply vscale_veq, (layers_undo Q N NL IL 7 length_NL linear_IL linear_NL NL_IL IL_NL); [lia | done]|].
  rewrite vscale_vscale. apply vscale_unit. by apply congb_true.
Qed.

Lemma reduced_intt f : reduced Q (intt f).
Proof. unfold reduced. rewrite intt_undo. apply Forall_map_all. intros x. apply reduce_range. Qed.

(** ** The multiplication theorem *)

Lemma intt_ntt_id f : length f = N → reduced Q f → intt (ntt f) = f.
Proof. intros Hl Hr. apply (veq_reduced Q); [apply reduced_intt | done | by apply intt_ntt_veq]. Qed.

Lemma ntt_mul_ntt a b : length a = N → length b = N →
  veq (ntt_mul (ntt a) (ntt b)) (ntt (schoolbook a b)).
Proof.
  intros Ha Hb. destruct (ntt_spec a Ha) as [Hla Hea]. destruct (ntt_spec b Hb) as [Hlb Heb].
  destruct (schoolbook_spec a b Ha Hb) as (Hls & _ & Hes). destruct (ntt_spec _ Hls) as [Hln Hen].
  apply (pget_ext _ _ 128); [apply length_ntt_mul | done|]. intros i Hi.
  etransitivity; [by apply pget_ntt_mul|]. rewrite (Hea i Hi), (Heb i Hi), (Hen i Hi).
  symmetry. apply Hes. by apply gammas_order.
Qed.

Lemma ntt_convolution a b : length a = N → length b = N →
  intt (ntt_mul (ntt a) (ntt b)) = schoolbook a b.
Proof.
  intros Ha Hb. destruct (schoolbook_spec a b Ha Hb) as (Hls & Hr & _).
  apply (veq_reduced Q); [apply reduced_intt | done|].
  eapply veq_trans; [apply (linear_veq _ _ _ linear_intt); [apply length_ntt_mul | by apply ntt_mul_ntt]|].
  by apply intt_ntt_veq.
Qed.

(** The transform pair is right: the inverse undoes the transform on every
    polynomial with coefficients below 3329, and the inverse transform of the
    pairwise products of two transforms is the schoolbook product modulo
    X^256 + 1, for every two polynomials. All tables are read as the code
    computes them. *)
Theorem ntt_multiplies a b :
  length a = N → length b = N →
  (reduced Q a → intt (ntt a) = a) ∧ intt (ntt_mul (ntt a) (ntt b)) = schoolbook a b.
Proof. intros Ha Hb. split; [by apply intt_ntt_id | by apply ntt_convolution]. Qed.

Lemma ntt_multiplies_witness :
  let a := map (λ i, (7 * Z.of_nat i + 3) mod Q) (seq 0 N) in
  intt (ntt a) = a ∧ intt (ntt_mul (ntt a) (ntt a)) = schoolbook a a.
Proof.
  intros a. destruct (ntt_multiplies a a) as [H1 H2]; [reflexivity | reflexivity|].
  split; [|exact H2]. apply H1, Forall_map_all. intros i. apply Z.mod_pos_bound. reflexivity.
Defined.
