(* ===== verification/MlkemKem.v ===== *)
(** * Correctness of ML-KEM

    The byte codecs round trip, compression loses a bounded part, and
    decapsulation recovers the encapsulated secret whenever the decryption
    noise is below a quarter of the modulus. *)

From S2P Require Import Prelude Ntt Keccak Mlkem MlkemFacts.
#[local] Open Scope ntt_scope.

(** ** Bits *)

Lemma length_bits_of d x : length (bits_of d x) = d.
Proof. unfold bits_of. by rewrite length_map, length_seq. Qed.

Lemma value_of_bits_range bs : 0 ≤ value_of_bits bs < 2 ^ Z.of_nat (length bs).
Proof.
  induction bs as [|b bs IH]; [cbn; lia|]. cbn [length value_of_bits foldr]. fold (value_of_bits bs).
  rewrite Nat2Z.inj_succ, Z.pow_succ_r by lia. destruct b; simpl Z.b2z; lia.
Qed.

Lemma bits_of_S d x : bits_of (S d) x = Z.odd x :: bits_of d (Z.div2 x).
Proof.
  unfold bits_of. cbn [seq map]. f_equal.
  rewrite <- seq_shift, map_map. apply map_ext. intros k.
  rewrite Z.div2_spec, Z.shiftr_spec by lia. f_equal. lia.
Qed.

Lemma bits_of_value bs : bits_of (length bs) (value_of_bits bs) = bs.
Proof.
  induction bs as [|b bs IH]; [done|]. cbn [length value_of_bits foldr]. fold (value_of_bits bs).
  rewrite bits_of_S. f_equal.
  - rewrite Z.odd_add, Z.odd_mul. by destruct b.
  - rewrite Z.div2_div.
    replace ((Z.b2z b + 2 * value_of_bits bs) / 2) with (value_of_bits bs); [exact IH|].
    apply (Z.div_unique _ 2 _ (Z.b2z b)); destruct b; simpl Z.b2z; lia.
Qed.

Lemma value_of_bits_of d : ∀ x, value_of_bits (bits_of d x) = x mod 2 ^ Z.of_nat d.
Proof.
  induction d as [|d IH]; intros x; [cbn; by rewrite Z.mod_1_r|].
  rewrite bits_of_S. cbn [value_of_bits foldr]. fold (value_of_bits (bits_of d (Z.div2 x))).
  rewrite IH, Nat2Z.inj_succ, Z.pow_succ_r by lia.
  rewrite Z.rem_mul_r by lia. rewrite <- Z.div2_div. f_equal.
  rewrite Zmod_odd. by destruct (Z.odd x).
Qed.

(** ** Cutting a list in pieces of [d] *)

Definition pieces {A} (d n : nat) (l : list A) : list (list A) :=
  map (λ i, take d (drop (i * d) l)) (seq 0 n).

Lemma pieces_S {A} d n (l : list A) : pieces d (S n) l = take d l :: pieces d n (drop d l).
Proof.
  unfold pieces. cbn [seq map]. f_equal. rewrite <- seq_shift, map_map. apply map_ext.
  intros i. by rewrite drop_drop.
Qed.
Lemma pieces_concat {A} d n (ls : list (list A)) rest :
  Forall (λ l, length l = d) ls → length ls = n → pieces d n (concat ls ++ rest) = ls.
Proof.
  intros Hls <-. induction Hls as [|l ls Hl _ IH]; [done|].
  cbn [concat length]. rewrite pieces_S, <- app_assoc, take_app_length', drop_app_length' by done.
  by rewrite IH.
Qed.
Lemma concat_pieces {A} d n : ∀ l : list A, length l = (n * d)%nat → concat (pieces d n l) = l.
Proof.
  induction n as [|n IH]; intros l Hl; [by destruct l|].
  rewrite pieces_S. cbn [concat]. rewrite IH by (rewrite length_drop; lia). apply take_drop.
Qed.
Lemma chunks_pieces {A} d n : ∀ l : list A, (0 < d)%nat → length l = (n * d)%nat → chunks d l = pieces d n l.
Proof.
  induction n as [|n IH]; intros l Hd Hl; [by destruct l|].
  rewrite chunks_step, pieces_S by (lia || (intros ->; cbn in Hl; lia)).
  f_equal. apply IH; [done|]. rewrite length_drop. lia.
Qed.
Lemma pieces_lengths {A} d n (l : list A) : length l = (n * d)%nat → Forall (λ p, length p = d) (pieces d n l).
Proof.
  intros Hl. apply Forall_fmap, seq_all. intros i Hi. unfold compose.
  rewrite length_take, length_drop. nia.
Qed.

(** ** Bytes and bits *)

Lemma byte_bits b : byte_of_bits (bits_of 8 (byte.unsigned b)) = b.
Proof. by destruct b. Qed.
Lemma bits_byte bs : length bs = 8%nat → bits_of 8 (byte.unsigned (byte_of_bits bs)) = bs.
Proof.
  intros H. do 9 (destruct bs as [|? bs]; simpl in H; try lia).
  repeat match goal with b : bool |- _ => destruct b end; reflexivity.
Qed.

Definition bits_of_bytes (b : bytes) : list bool := concat (map (λ x, bits_of 8 (byte.unsigned x)) b).

Lemma bits_of_bytes_chunks bs n : length bs = (n * 8)%nat → bits_of_bytes (map byte_of_bits (chunks 8 bs)) = bs.
Proof.
  intros H. unfold bits_of_bytes. rewrite (chunks_pieces 8 n) by (done || lia).
  rewrite <- (concat_pieces 8 n bs H) at 2. rewrite map_map. f_equal.
  rewrite <- (map_id (pieces 8 n bs)) at 2. apply map_ext_Forall.
  eapply list.Forall_impl; [by apply pieces_lengths|]. intros p Hp. by apply bits_byte.
Qed.

(** ** The coefficient codec *)

Definition decode_modulus (d : nat) : Z := if (d <? 12)%nat then 2 ^ Z.of_nat d else Q.

Lemma byte_decode_pieces b d :
  byte_decode b d = map (λ p, value_of_bits p mod decode_modulus d) (pieces d N (bits_of_bytes b)).
Proof. unfold byte_decode, pieces. by rewrite map_map. Qed.

Lemma length_byte_decode b d : length (byte_decode b d) = N.
Proof. unfold byte_decode. by rewrite length_map, length_seq. Qed.

Lemma length_coeff_bits d f : length (concat (map (bits_of d) f)) = (d * length f)%nat.
Proof.
  rewrite (length_concat_const _ d); [by rewrite length_map|].
  apply Forall_map_all. apply length_bits_of.
Qed.

Lemma length_bits_bytes b : length (bits_of_bytes b) = (8 * length b)%nat.
Proof.
  unfold bits_of_bytes. rewrite (length_concat_const _ 8); [by rewrite length_map|].
  apply Forall_map_all. intros x. apply length_bits_of.
Qed.

Lemma length_pieces {A} d n (l : list A) : length (pieces d n l) = n.
Proof. unfold pieces. by rewrite length_map, length_seq. Qed.

Lemma length_byte_encode f d : length f = N → length (byte_encode f d) = (32 * d)%nat.
Proof.
  intros Hf. unfold byte_encode. rewrite length_map, (chunks_pieces 8 (32 * d)), length_pieces; [done|lia|].
  rewrite length_coeff_bits, Hf. unfold N. lia.
Qed.

Lemma bits_of_byte_encode f d : length f = N → bits_of_bytes (byte_encode f d) = concat (map (bits_of d) f).
Proof.
  intros Hf. apply (bits_of_bytes_chunks _ (32 * d)). rewrite length_coeff_bits, Hf. unfold N. lia.
Qed.

Lemma decode_modulus_le d : (d ≤ 12)%nat → 0 < decode_modulus d ≤ 2 ^ Z.of_nat d.
Proof.
  intros Hd. unfold decode_modulus. destruct (Nat.ltb_spec d 12).
  - split; [apply Z.pow_pos_nonneg; lia | lia].
  - replace d with 12%nat by lia. unfold Q. simpl. lia.
Qed.

Lemma byte_decode_encode f d rest :
  (d ≤ 12)%nat → length f = N → Forall (λ x, 0 ≤ x < decode_modulus d) f →
  byte_decode (byte_encode f d ++ rest) d = f.
Proof.
  intros Hd Hf Hr. pose proof (decode_modulus_le d Hd) as Hm. rewrite byte_decode_pieces.
  replace (bits_of_bytes (byte_encode f d ++ rest))
    with (concat (map (bits_of d) f) ++ bits_of_bytes rest)
    by (rewrite <- bits_of_byte_encode by done; unfold bits_of_bytes; by rewrite map_app, concat_app).
  rewrite pieces_concat by (rewrite ?length_map; auto; apply Forall_map_all, length_bits_of).
  rewrite map_map. rewrite <- (map_id f) at 2. apply map_ext_Forall.
  eapply list.Forall_impl; [exact Hr|]. intros x Hx. cbn beta in Hx.
  by rewrite value_of_bits_of, (Z.mod_small x), Z.mod_small by lia.
Qed.

Lemma byte_encode_decode b d :
  (d < 12)%nat → length b = (32 * d)%nat → byte_encode (byte_decode b d) d = b.
Proof.
  intros Hd Hb. unfold byte_encode. rewrite byte_decode_pieces, map_map.
  assert (Hl : length (bits_of_bytes b) = (N * d)%nat) by (rewrite length_bits_bytes, Hb; unfold N; lia).
  replace (map (λ x, bits_of d (value_of_bits x mod decode_modulus d)) (pieces d N (bits_of_bytes b)))
    with (pieces d N (bits_of_bytes b)).
  - rewrite concat_pieces by done. unfold bits_of_bytes.
    rewrite (chunks_pieces 8 (32 * d)) by (try lia; fold (bits_of_bytes b); rewrite length_bits_bytes; lia).
    rewrite <- (app_nil_r (concat _)), pieces_concat by
      (rewrite ?length_map; auto; apply Forall_map_all; intros; apply length_bits_of).
    rewrite map_map. rewrite <- (map_id b) at 2. apply map_ext. apply byte_bits.
  - rewrite <- (map_id (pieces _ _ _)) at 1. apply map_ext_Forall.
    eapply list.Forall_impl; [by apply pieces_lengths|]. intros p Hp. cbn beta in Hp.
    unfold decode_modulus. destruct (Nat.ltb_spec d 12); [|lia].
    pose proof (value_of_bits_range p). rewrite Hp in H0. rewrite Z.mod_small by done.
    rewrite <- Hp. symmetry. apply bits_of_value.
Qed.

(** The polynomials of a vector, encoded one after the other. *)
Lemma decode_blocks d ts rest :
  (d ≤ 12)%nat → Forall (λ t, length t = N ∧ Forall (λ x, 0 ≤ x < decode_modulus d) t) ts →
  map (λ i, byte_decode (slice (32 * d * i) (32 * d * (i + 1)) (concat (map (λ t, byte_encode t d) ts) ++ rest)) d)
    (seq 0 (length ts)) = ts.
Proof.
  intros Hd Hts. set (L := (32 * d)%nat).
  assert (E : pieces L (length ts) (concat (map (λ t, byte_encode t d) ts) ++ rest) = map (λ t, byte_encode t d) ts).
  { apply pieces_concat; [|by rewrite length_map]. apply Forall_fmap. eapply list.Forall_impl; [exact Hts|].
    intros t [Ht _]. unfold compose. by apply length_byte_encode. }
  transitivity (map (λ p, byte_decode p d) (pieces L (length ts) (concat (map (λ t, byte_encode t d) ts) ++ rest))).
  - unfold pieces. rewrite map_map. apply map_ext. intros i. unfold slice. do 2 f_equal; [lia|]. f_equal. lia.
  - rewrite E, map_map. rewrite <- (map_id ts) at 2. apply map_ext_Forall.
    eapply list.Forall_impl; [exact Hts|]. intros t [Ht Hr]. cbn beta.
    rewrite <- (app_nil_r (byte_encode t d)). by apply byte_decode_encode.
Qed.

(** ** Compression *)

Definition compress_ok (d : nat) (x : Z) : bool :=
  let e := reduce (decompress (compress x d) d - x) in
  let bound := 2 ^ (11 - Z.of_nat d) in (e <=? bound) || (Q - bound <=? e).

Lemma compress_range x d : 0 ≤ compress x d < 2 ^ Z.of_nat d.
Proof.
  unfold compress. replace (2 ^ Z.of_nat d - 1) with (Z.ones (Z.of_nat d)) by (rewrite Z.ones_equiv; lia).
  rewrite Z.land_ones by lia. apply Z.mod_pos_bound. lia.
Qed.

Lemma bounded_all (P : Z → bool) n x :
  forallb P (map Z.of_nat (seq 0 n)) = true → 0 ≤ x < Z.of_nat n → P x = true.
Proof.
  intros H Hx. rewrite forallb_forall in H. apply H. apply in_map_iff. exists (Z.to_nat x).
  split; [lia|]. apply in_seq. lia.
Qed.

Lemma compress_error d x : d = 1%nat ∨ d = 4%nat ∨ d = 10%nat → 0 ≤ x < Q → compress_ok d x = true.
Proof.
  intros Hd Hx. apply (bounded_all _ 3329); [|exact Hx].
  destruct Hd as [-> | [-> | ->]]; vm_compute; reflexivity.
Qed.

(** A message bit survives a noise below a quarter of [Q]. *)
Definition noise_ok (n : Z) : bool := (n <=? 831) || (Q - 832 <=? n).

Lemma bit_survives b n :
  0 ≤ b < 2 → 0 ≤ n < Q → noise_ok n = true → compress (reduce (decompress b 1 + n)) 1 = b.
Proof.
  intros Hb Hn Hok.
  assert (H : implb (noise_ok n) (compress (reduce (decompress b 1 + n)) 1 =? b) = true).
  { apply (bounded_all (λ n, implb (noise_ok n) (compress (reduce (decompress b 1 + n)) 1 =? b)) 3329); [|exact Hn].
    assert (b = 0 ∨ b = 1) as [-> | ->] by lia; vm_compute; reflexivity. }
  rewrite Hok in H. by apply Z.eqb_eq in H.
Qed.

(** ** Polynomial algebra in the transformed domain *)

Lemma length_poly_add a b : length a = N → length b = N → length (poly_add a b) = N.
Proof. intros. unfold poly_add. rewrite length_zip_with. lia. Qed.
Lemma length_poly_sub a b : length a = N → length b = N → length (poly_sub a b) = N.
Proof. intros. unfold poly_sub. rewrite length_zip_with. lia. Qed.
Lemma poly_add_lin a b : veq (poly_add a b) (lin 1 a b).
Proof. apply veq_zip_with. intros x y. mod_ring. Qed.
Lemma poly_sub_lin a b : veq (poly_sub a b) (lin (-1) a b).
Proof. apply veq_zip_with. intros x y. mod_ring. Qed.
Lemma Forall_zip_with_all {A B C} (P : C → Prop) (f : A → B → C) l k :
  (∀ x y, P (f x y)) → Forall P (zip_with f l k).
Proof. intros H. revert k. induction l as [|x l IH]; intros [|y k]; constructor; auto. Qed.
Lemma reduced_poly_add a b : reduced Q (poly_add a b).
Proof. apply Forall_zip_with_all. intros. apply reduce_range. Qed.
Lemma reduced_poly_sub a b : reduced Q (poly_sub a b).
Proof. apply Forall_zip_with_all. intros. apply reduce_range. Qed.

Lemma ev_add g a b : length a = length b → peq (ev g (poly_add a b)) (padd (ev g a) (ev g b)).
Proof.
  intros H. etransitivity; [apply ev_proper, poly_add_lin|]. rewrite ev_lin by done.
  split; apply cong_of_eq; simpl; ring.
Qed.
Lemma ev_sub g a b : length a = length b → peq (ev g (poly_sub a b)) (padd (ev g a) (pscale (-1) (ev g b))).
Proof. intros H. etransitivity; [apply ev_proper, poly_sub_lin|]. by rewrite ev_lin by done. Qed.

Lemma pget_lin c a b i : length a = N → length b = N → (i < 128)%nat →
  pget (lin c a b) i = padd (pget a i) (pscale c (pget b i)).
Proof.
  intros Ha Hb Hi. unfold pget. rewrite !(lookup_total_lin c a b N) by (unfold N in *; lia). done.
Qed.
Lemma pget_add a b i : length a = N → length b = N → (i < 128)%nat →
  peq (pget (poly_add a b) i) (padd (pget a i) (pget b i)).
Proof.
  intros Ha Hb Hi. etransitivity; [apply pget_proper, poly_add_lin|]. rewrite pget_lin by done.
  split; apply cong_of_eq; simpl; ring.
Qed.
Lemma pget_zero i : (i < 128)%nat → pget ZERO_POLY i = (0, 0).
Proof.
  intros Hi. unfold pget, ZERO_POLY.
  rewrite !lookup_total_replicate_2 by (unfold N; lia). done.
Qed.

(** A dot product, read at one of the 128 factors. *)
Definition psum (ps : list (Z * Z)) : Z * Z := fold_left padd ps (0, 0).

Lemma pget_dot_from a b i acc p : (i < 128)%nat →
  length acc = N → peq (pget acc i) p → length a = length b →
  let r := fold_left (λ acc ab, poly_add acc (ntt_mul ab.1 ab.2)) (zip a b) acc in
  length r = N ∧ peq (pget r i)
    (fold_left padd (zip_with (λ x y, pmul (gammas !!! i) (pget x i) (pget y i)) a b) p).
Proof.
  intros Hi. revert b acc p. induction a as [|x a IH]; intros [|y b] acc p Hacc Hp Hl; try done.
  simpl in Hl |- *. apply IH; [|etransitivity; [apply pget_add|]|lia].
  - apply length_poly_add; [done | apply length_ntt_mul].
  - done.
  - apply length_ntt_mul.
  - done.
  - by rewrite Hp, pget_ntt_mul.
Qed.
Lemma length_dot a b : length a = length b → length (dot a b) = N.
Proof. intros Hl. by apply (pget_dot_from a b 0 ZERO_POLY (0, 0) ltac:(lia)). Qed.
Lemma pget_dot a b i : (i < 128)%nat → length a = length b →
  peq (pget (dot a b) i) (psum (zip_with (λ x y, pmul (gammas !!! i) (pget x i) (pget y i)) a b)).
Proof.
  intros Hi Hl. apply (pget_dot_from a b i ZERO_POLY (0, 0) Hi); [done | by rewrite pget_zero | done].
Qed.

(** The same dot product on coefficients, with the negacyclic product. *)
Definition vdot (a b : list Poly) : Poly :=
  fold_left (λ acc ab, poly_add acc (negamul ab.1 ab.2)) (zip a b) ZERO_POLY.

Lemma mono_odd g k : mono g (2 * k + 1) = (0, g ^ Z.of_nat k).
Proof.
  induction k as [|k IH].
  - change (2 * 0 + 1)%nat with 1%nat. rewrite mono_S, mono_0. cbn [fst snd]. change (g ^ Z.of_nat 0) with 1. f_equal. ring.
  - replace (2 * S k + 1)%nat with (S (S (2 * k + 1))) by lia. rewrite !mono_S, IH. cbn [fst snd].
    rewrite Nat2Z.inj_succ, Z.pow_succ_r by lia. f_equal; ring.
Qed.

Lemma ev_rot g l : g ^ 128 ≡[Q] -1 → length l = N → peq (ev g (rot l)) (g * (ev g l).2, (ev g l).1).
Proof.
  intros Hg Hl. destruct (snoc_inv l 255 Hl) as (m & x & -> & Hm). rewrite rot_snoc, ev_snoc, ev_cons, Hm.
  assert (E : g * g ^ Z.of_nat 127 ≡[Q] -1).
  { rewrite <- Hg. apply cong_of_eq. change 128 with (Z.succ (Z.of_nat 127)). symmetry. apply Z.pow_succ_r. lia. }
  change 255%nat with (2 * 127 + 1)%nat. rewrite mono_odd.
  revert E. generalize (g ^ Z.of_nat 127) (ev g m). intros t [u v] E. unfold padd, pscale.
  split; cbn [fst snd]; [|apply cong_of_eq; ring].
  transitivity (g * v + x * (g * t)); [|apply cong_of_eq; ring]. rewrite E. apply cong_of_eq. ring.
Qed.

Lemma ev_zip_scale g c a b : length a = length b →
  ev g (zip_with (λ x y, c * x + y) a b) = padd (pscale c (ev g a)) (ev g b).
Proof.
  revert b. induction a as [|x a IH]; intros [|y b] H; try done.
  - unfold padd, pscale. cbn. f_equal; ring.
  - cbn [zip_with]. rewrite !ev_cons, IH by (simpl in H; lia). unfold padd, pscale. cbn [fst snd]. f_equal; ring.
Qed.

Lemma ev_negamul g a b : g ^ 128 ≡[Q] -1 → length b = N →
  peq (ev g (negamul a b)) (pmul g (ev g a) (ev g b)).
Proof.
  intros Hg Hb. induction a as [|c a IH]; cbn [negamul].
  - replace (map (λ _, 0) b) with (replicate (length b) 0).
    { rewrite ev_zeros. unfold pmul. split; apply cong_of_eq; cbn [fst snd ev foldr]; ring. }
    clear. induction b as [|y b IH]; [done|]. cbn. by rewrite IH.
  - pose proof (length_negamul a b 255 Hb) as Hn. rewrite ev_zip_scale by (rewrite (length_rot _ 255 Hn); exact Hb).
    rewrite ev_rot, IH, ev_cons by done.
    unfold padd, pscale, pmul. split; cbn [fst snd]; apply cong_of_eq; ring.
Qed.

Lemma ev_vdot_from a b g acc p : g ^ 128 ≡[Q] -1 →
  Forall (λ x, length x = N) a → Forall (λ x, length x = N) b →
  length acc = N → peq (ev g acc) p → length a = length b →
  let r := fold_left (λ acc ab, poly_add acc (negamul ab.1 ab.2)) (zip a b) acc in
  length r = N ∧ peq (ev g r) (fold_left padd (zip_with (λ x y, pmul g (ev g x) (ev g y)) a b) p).
Proof.
  intros Hg Ha. revert b acc p. induction Ha as [|x a Hx _ IH]; intros [|y b] acc p Hb Hacc Hp Hl; try done.
  apply list.Forall_cons in Hb as [Hy Hb]. simpl in Hl |- *.
  pose proof (length_negamul x y 255 Hy) as Hs.
  apply IH; [done|by apply length_poly_add| |lia].
  etransitivity; [by apply ev_add; rewrite Hacc, Hs|]. by rewrite Hp, ev_negamul.
Qed.

Lemma length_vdot a b : Forall (λ x, length x = N) a → Forall (λ x, length x = N) b → length a = length b →
  length (vdot a b) = N.
Proof.
  intros Ha Hb Hl.
  destruct (ev_vdot_from a b (gammas !!! 0%nat) ZERO_POLY (ev (gammas !!! 0%nat) ZERO_POLY)) as [H _];
    [by apply gammas_order; lia | done.. | exact H].
Qed.
Lemma ev_vdot a b g : g ^ 128 ≡[Q] -1 →
  Forall (λ x, length x = N) a → Forall (λ x, length x = N) b → length a = length b →
  peq (ev g (vdot a b)) (psum (zip_with (λ x y, pmul g (ev g x) (ev g y)) a b)).
Proof.
  intros Hg Ha Hb Hl. apply (ev_vdot_from a b g ZERO_POLY (0, 0)); [done..| |done].
  unfold ZERO_POLY. by rewrite ev_zeros.
Qed.

(** Sums of pairs, and the dot product with a transformed vector. *)
Lemma fold_padd_proper ps ps' p p' : Forall2 peq ps ps' → peq p p' → peq (fold_left padd ps p) (fold_left padd ps' p').
Proof.
  intros H. revert p p'. induction H as [|x x' ps ps' Hx _ IH]; intros p p' Hp; [done|].
  apply IH. by rewrite Hp, Hx.
Qed.
Lemma psum_proper ps ps' : Forall2 peq ps ps' → peq (psum ps) (psum ps').
Proof. intros H. by apply fold_padd_proper. Qed.

Abbreviation poly_ok := (λ x : Poly, length x = N).

Lemma pget_ntt x i : length x = N → (i < 128)%nat → peq (pget (ntt x) i) (ev (gammas !!! i) x).
Proof. intros Hx Hi. destruct (ntt_spec x Hx) as [_ H]. by apply H. Qed.
Lemma length_ntt x : length x = N → length (ntt x) = N.
Proof. intros Hx. by destruct (ntt_spec x Hx). Qed.

Lemma pget_dot_ntt a b i : (i < 128)%nat → length a = length b → Forall poly_ok b →
  peq (pget (dot a (map ntt b)) i) (psum (zip_with (λ x y, pmul (gammas !!! i) (pget x i) (ev (gammas !!! i) y)) a b)).
Proof.
  intros Hi Hl Hb. etransitivity; [apply pget_dot; [done | by rewrite length_map]|].
  apply psum_proper. clear Hl. revert a.
  induction Hb as [|y b Hy _ IH]; intros [|x a]; constructor; [|apply IH]. by rewrite pget_ntt.
Qed.

(** ** Decryption is encryption undone, up to the noise *)

Definition t_hat_of (a : list (list Poly)) (s e : list Poly) : list Poly :=
  zip_with (λ row e, poly_add (dot row (map ntt s)) e) a (map ntt e).
Definition u_of (at_ : list (list Poly)) (r e1 : list Poly) : list Poly :=
  zip_with (λ row e, poly_add (intt (dot row (map ntt r))) e) at_ e1.
Definition noise_core (s e r e1 du : list Poly) : Poly :=
  poly_sub (vdot e r) (vdot s (zip_with poly_add e1 du)).

(** Entries of the public vector, of the transformed ciphertext vector. *)
Lemma pget_t row s e i : (i < 128)%nat → length row = length s → Forall poly_ok s → length e = N →
  let g := gammas !!! i in
  peq (pget (poly_add (dot row (map ntt s)) (ntt e)) i)
      (padd (psum (zip_with (λ x y, pmul g (pget x i) (ev g y)) row s)) (ev g e)).
Proof.
  intros Hi Hl Hs He g. etransitivity; [apply pget_add; [apply length_dot; by rewrite length_map|by apply length_ntt|done]|].
  by rewrite pget_dot_ntt, pget_ntt.
Qed.

Lemma pget_u row r f d i : (i < 128)%nat → length row = length r → Forall poly_ok r → length f = N → length d = N →
  let g := gammas !!! i in
  peq (pget (ntt (poly_add (poly_add (intt (dot row (map ntt r))) f) d)) i)
      (padd (padd (psum (zip_with (λ x y, pmul g (pget x i) (ev g y)) row r)) (ev g f)) (ev g d)).
Proof.
  intros Hi Hl Hr Hf Hd g.
  assert (Hdot : length (dot row (map ntt r)) = N) by (apply length_dot; by rewrite length_map).
  assert (Hi' : length (intt (dot row (map ntt r))) = N) by by apply (linear_length _ _ _ linear_intt).
  rewrite pget_ntt by (try done; repeat apply length_poly_add; done). fold g.
  rewrite ev_add by (rewrite length_poly_add; done). rewrite ev_add by lia.
  unfold g. rewrite <- pget_dot_ntt by done. fold g.
  enough (E : peq (ev g (intt (dot row (map ntt r)))) (pget (dot row (map ntt r)) i)) by by rewrite E.
  unfold g. rewrite <- pget_ntt by done. by apply pget_proper, ntt_intt_veq.
Qed.

Definition vec3 (l : list Poly) : Prop := length l = K ∧ Forall poly_ok l.
Lemma vec3_inv l : vec3 l → ∃ x y z, l = [x; y; z] ∧ length x = N ∧ length y = N ∧ length z = N.
Proof.
  intros [Hl H]. destruct l as [|x [|y [|z [|]]]]; try discriminate Hl.
  apply list.Forall_cons in H as [Hx H]. apply list.Forall_cons in H as [Hy H].
  apply list.Forall_cons in H as [Hz _]. by exists x, y, z.
Qed.

Lemma ev_noise_core s e r e1 du g : g ^ 128 ≡[Q] -1 → vec3 s → vec3 e → vec3 r → vec3 e1 → vec3 du →
  peq (ev g (noise_core s e r e1 du))
      (padd (psum (zip_with (λ x y, pmul g (ev g x) (ev g y)) e r))
            (pscale (-1) (psum (zip_with (λ x y, pmul g (ev g x) (ev g y)) s (zip_with poly_add e1 du))))).
Proof.
  intros Hg [Hs Hs'] [He He'] [Hr Hr'] [Hf Hf'] [Hd Hd'].
  assert (Hz : Forall poly_ok (zip_with poly_add e1 du)).
  { clear -Hf' Hd'. revert du Hd'. induction Hf' as [|x l Hx _ IH]; intros [|y du] Hd; constructor.
    - apply list.Forall_cons in Hd as [Hy _]. by apply length_poly_add.
    - apply IH. by apply list.Forall_cons in Hd as [_ Hd]. }
  assert (Hlz : length (zip_with poly_add e1 du) = K) by (rewrite length_zip_with, Hf, Hd; done).
  unfold noise_core. rewrite ev_sub by (rewrite !length_vdot by (try done; congruence); done).
  by rewrite !ev_vdot by (try done; congruence).
Qed.

Lemma zip_with_map_lr {A B C D} (f : A → B → C) (h : D → A) l k :
  zip_with f (map h l) k = zip_with (λ x y, f (h x) y) l k.
Proof. revert k. induction l as [|x l IH]; intros [|y k]; cbn; f_equal; auto. Qed.

(** Both dot products of the identity, entry by entry. *)
Lemma pget_dot_t A s e r i : (i < 128)%nat → Forall (λ row, length row = length s) A →
  Forall poly_ok s → Forall poly_ok e → Forall poly_ok r → length A = length r → length e = length r →
  let g := gammas !!! i in
  peq (pget (dot (t_hat_of A s e) (map ntt r)) i)
      (psum (zip_with (λ t y, pmul g t (ev g y))
        (zip_with (λ row e, padd (psum (zip_with (λ x y, pmul g (pget x i) (ev g y)) row s)) (ev g e)) A e) r)).
Proof.
  intros Hi HA Hs He Hr Hl Hle g.
  etransitivity; [apply pget_dot_ntt; [done| |done]; unfold t_hat_of; rewrite length_zip_with, length_map; lia|].
  apply psum_proper. unfold t_hat_of. rewrite zip_with_fmap_r. fold g. clear Hl Hle Hr.
  revert e r He. induction HA as [|row A Hrow _ IH]; intros [|x e] [|y r] He; try constructor.
  - apply list.Forall_cons in He as [Hx _]. unfold g. by rewrite pget_t.
  - apply IH. by apply list.Forall_cons in He as [_ He].
Qed.

Lemma pget_dot_u At s r f d i : (i < 128)%nat → Forall (λ row, length row = length r) At →
  Forall poly_ok r → Forall poly_ok f → Forall poly_ok d →
  length At = length s → length f = length s → length d = length s →
  let g := gammas !!! i in
  Forall poly_ok s →
  peq (pget (dot (map ntt s) (map ntt (zip_with poly_add (u_of At r f) d))) i)
      (psum (zip_with (λ x t, pmul g (ev g x) t) s
        (zip_with (λ u d, padd u (ev g d))
          (zip_with (λ row f, padd (psum (zip_with (λ x y, pmul g (pget x i) (ev g y)) row r)) (ev g f)) At f) d))).
Proof.
  intros Hi HA Hr Hf Hd Hl Hlf Hld g Hs.
  etransitivity; [apply pget_dot; [done|]; rewrite !length_map; unfold u_of; rewrite !length_zip_with; lia|].
  apply psum_proper. fold g. rewrite zip_with_map_lr, zip_with_fmap_r. unfold u_of. clear Hl Hlf Hld.
  revert s f d Hs Hf Hd. induction HA as [|row At Hrow _ IH]; intros [|x s] [|y f] [|z d] Hs Hf Hd; try constructor.
  - apply list.Forall_cons in Hs as [Hx _]. apply list.Forall_cons in Hf as [Hy _].
    apply list.Forall_cons in Hd as [Hz _]. unfold g. by rewrite pget_u, pget_ntt.
  - apply IH; by eapply Forall_inv_tail.
Qed.

Lemma noise_identity a0 a1 a2 b0 b1 b2 c0 c1 c2 s e r e1 du i :
  vec3 s → vec3 e → vec3 r → vec3 e1 → vec3 du → (i < 128)%nat →
  let A := [[a0; a1; a2]; [b0; b1; b2]; [c0; c1; c2]] in
  let At := [[a0; b0; c0]; [a1; b1; c1]; [a2; b2; c2]] in
  peq (pget (dot (t_hat_of A s e) (map ntt r)) i)
      (padd (pget (dot (map ntt s) (map ntt (zip_with poly_add (u_of At r e1) du))) i)
            (ev (gammas !!! i) (noise_core s e r e1 du))).
Proof.
  intros Hs He Hr Hf Hd Hi A At. rewrite (ev_noise_core s e r e1 du _ (gammas_order i Hi)) by done.
  destruct Hs as [Hs1 Hs], He as [He1 He], Hr as [Hr1 Hr], Hf as [Hf1 Hf], Hd as [Hd1 Hd].
  assert (HA : Forall (λ row, length row = length s) A) by (rewrite Hs1; repeat constructor).
  assert (HAt : Forall (λ row, length row = length r) At) by (rewrite Hr1; repeat constructor).
  rewrite pget_dot_t, pget_dot_u; try done; try congruence.
  destruct s as [|s0 [|s1 [|s2 [|]]]]; try discriminate Hs1.
  destruct e as [|x0 [|x1 [|x2 [|]]]]; try discriminate He1.
  destruct r as [|r0 [|r1 [|r2 [|]]]]; try discriminate Hr1.
  destruct e1 as [|f0 [|f1 [|f2 [|]]]]; try discriminate Hf1.
  destruct du as [|d0 [|d1 [|d2 [|]]]]; try discriminate Hd1.
  unfold A, At, psum. cbn [zip_with fold_left].
  repeat match goal with H : Forall _ (_ :: _) |- _ => apply list.Forall_cons in H as [? H] end.
  rewrite !ev_add by congruence. unfold padd, pmul, pscale. cbn [fst snd].
  split; cbn [fst snd]; apply cong_of_eq; ring.
Qed.

(** ** From the identity to the message *)

Lemma intt_difference X Y nz : length X = N → length Y = N → length nz = N →
  (∀ i, (i < 128)%nat → peq (pget X i) (padd (pget Y i) (ev (gammas !!! i) nz))) →
  veq (intt X) (lin 1 (intt Y) nz).
Proof.
  intros HX HY Hn H. pose proof (length_ntt nz Hn) as Hnn.
  assert (E : veq X (lin 1 Y (ntt nz))).
  { apply (pget_ext _ _ 128); [done | by apply length_lin|]. intros i Hi.
    rewrite pget_lin by done. rewrite (pget_ntt nz i Hn Hi), (H i Hi).
    split; apply cong_of_eq; simpl; ring. }
  eapply veq_trans; [exact (linear_veq _ _ _ linear_intt _ _ HX E)|].
  eapply veq_trans; [by apply (linear_lin _ _ _ linear_intt)|].
  apply lin_veq; [reflexivity|]. by apply intt_ntt_veq.
Qed.

Lemma decompress_range y d : (1 ≤ d ≤ 10)%nat → 0 ≤ y < 2 ^ Z.of_nat d → 0 ≤ decompress y d < Q.
Proof.
  intros Hd Hy. unfold decompress. rewrite Z.shiftr_div_pow2 by lia.
  assert (Hp : 2 ^ Z.of_nat d = 2 * 2 ^ (Z.of_nat d - 1)) by (rewrite <- Z.pow_succ_r by lia; f_equal; lia).
  assert (Hs : 2 ^ (Z.of_nat d - 1) ≤ 2 ^ 9) by (apply Z.pow_le_mono_r; lia).
  assert (H0 : 0 < 2 ^ (Z.of_nat d - 1)) by (apply Z.pow_pos_nonneg; lia).
  split; [apply Z.div_pos; unfold Q; nia|]. apply Z.div_lt_upper_bound; unfold Q in *; nia.
Qed.

(** What the other side reads of a compressed polynomial. *)
Definition recompress (d : nat) (f : Poly) : Poly := poly_decompress (poly_compress f d) d.

Lemma length_recompress d f : length f = N → length (recompress d f) = N.
Proof. intros Hf. unfold recompress, poly_decompress, poly_compress. by rewrite !length_map. Qed.
Lemma reduced_recompress d f : (1 ≤ d ≤ 10)%nat → reduced Q (recompress d f).
Proof.
  intros Hd. unfold reduced, recompress, poly_decompress, poly_compress. rewrite map_map.
  apply Forall_map_all. intros x. apply decompress_range; [done | apply compress_range].
Qed.

Lemma add_sub_reduced f g : length f = N → length g = N → reduced Q g → poly_add f (poly_sub g f) = g.
Proof.
  intros Hf Hg Hr. apply (veq_reduced Q); [apply reduced_poly_add | done|].
  eapply veq_trans; [apply poly_add_lin|].
  eapply veq_trans; [apply lin_veq; [reflexivity|apply poly_sub_lin]|].
  clear Hr. revert g Hg. rewrite <- Hf. clear Hf.
  induction f as [|x f IH]; intros [|y g] Hg; try done; constructor.
  - apply cong_of_eq. ring.
  - apply IH. by injection Hg.
Qed.

Lemma veq_pointwise n a b : length a = n → length b = n →
  (∀ j, (j < n)%nat → a !!! j ≡[Q] b !!! j) → veq a b.
Proof.
  intros Ha Hb H. apply Forall2_same_length_lookup_2; [lia|]. intros j x y Hx Hy.
  assert (Hj : (j < n)%nat) by (apply lookup_lt_Some in Hx; lia). specialize (H j Hj).
  by rewrite (list_lookup_total_correct _ _ _ Hx), (list_lookup_total_correct _ _ _ Hy) in H.
Qed.
Lemma poly_add_at a b j : length a = N → length b = N → (j < N)%nat →
  poly_add a b !!! j ≡[Q] a !!! j + b !!! j.
Proof.
  intros Ha Hb Hj. rewrite (lookup_veq Q _ _ j (poly_add_lin a b)), (lookup_total_lin 1 a b N) by done.
  apply cong_of_eq. ring.
Qed.
Lemma poly_sub_at a b j : length a = N → length b = N → (j < N)%nat →
  poly_sub a b !!! j ≡[Q] a !!! j - b !!! j.
Proof.
  intros Ha Hb Hj. rewrite (lookup_veq Q _ _ j (poly_sub_lin a b)), (lookup_total_lin (-1) a b N) by done.
  apply cong_of_eq. ring.
Qed.

Lemma Forall_poly_add f d : Forall poly_ok f → Forall poly_ok d → Forall poly_ok (zip_with poly_add f d).
Proof.
  intros Hf. revert d. induction Hf as [|x l Hx _ IH]; intros [|y d] Hd; constructor.
  - apply list.Forall_cons in Hd as [Hy _]. by apply length_poly_add.
  - apply IH. by apply list.Forall_cons in Hd as [_ Hd].
Qed.
Lemma length_noise_core s e r e1 du : vec3 s → vec3 e → vec3 r → vec3 e1 → vec3 du →
  length (noise_core s e r e1 du) = N.
Proof.
  intros [Hs Hs'] [He He'] [Hr Hr'] [Hf Hf'] [Hd Hd']. unfold noise_core.
  apply length_poly_sub; apply length_vdot; try done; [congruence|by apply Forall_poly_add|].
  rewrite length_zip_with, Hf, Hd. done.
Qed.

Definition decryption_noise (s e r e1 : list Poly) (e2 : Poly) (u : list Poly) (v : Poly) : Poly :=
  let du := map (λ x, poly_sub (recompress DU x) x) u in
  let dv := poly_sub (recompress DV v) v in
  poly_add (poly_add (noise_core s e r e1 du) e2) dv.

(** The polynomial whose high bits are the message. *)
Definition opened (s u : list Poly) (v : Poly) : Poly :=
  poly_sub (recompress DV v) (intt (dot (map ntt s) (map ntt (map (recompress DU) u)))).

Lemma opened_message a0 a1 a2 b0 b1 b2 c0 c1 c2 s e r e1 e2 mu :
  vec3 s → vec3 e → vec3 r → vec3 e1 → length e2 = N → length mu = N →
  let A := [[a0; a1; a2]; [b0; b1; b2]; [c0; c1; c2]] in
  let At := [[a0; b0; c0]; [a1; b1; c1]; [a2; b2; c2]] in
  let u := u_of At r e1 in
  let v := poly_add (poly_add (intt (dot (t_hat_of A s e) (map ntt r))) e2) mu in
  opened s u v = poly_add mu (decryption_noise s e r e1 e2 u v) ∧
  length (decryption_noise s e r e1 e2 u v) = N.
Proof.
  intros Hs He Hr Hf Hl2 Hmu A At u v.
  set (X := dot (t_hat_of A s e) (map ntt r)).
  set (du := map (λ x, poly_sub (recompress DU x) x) u).
  assert (HX : length X = N).
  { apply length_dot. unfold t_hat_of. rewrite length_zip_with, !length_map.
    destruct He as [-> _], Hr as [-> _]. done. }
  assert (HiX : length (intt X) = N) by by apply (linear_length _ _ _ linear_intt).
  assert (Hv : length v = N) by (unfold v; auto using length_poly_add).
  assert (Hu : vec3 u).
  { destruct Hf as [Hf1 Hf2]. split; [unfold u, u_of; rewrite length_zip_with, Hf1; done|].
    assert (HAt : Forall (λ row, length row = length (map ntt r)) At)
      by (rewrite length_map; destruct Hr as [-> _]; repeat constructor).
    unfold u, u_of. clear -Hf2 HAt. revert e1 Hf2.
    induction HAt as [|row l Hrow _ IH]; intros [|y e1] Hf; constructor.
    - apply length_poly_add; [|by apply list.Forall_cons in Hf as [? _]].
      by apply (linear_length _ _ _ linear_intt), length_dot.
    - apply IH. by apply list.Forall_cons in Hf as [_ ?]. }
  assert (Hdu : vec3 du).
  { destruct Hu as [Hu1 Hu2]. split; [unfold du; by rewrite length_map|].
    apply Forall_fmap. eapply list.Forall_impl; [exact Hu2|]. intros x Hx. unfold compose.
    apply length_poly_sub; [by apply length_recompress | done]. }
  assert (Eu : zip_with poly_add u du = map (recompress DU) u).
  { unfold du. destruct Hu as [_ Hu2]. clear -Hu2. induction Hu2 as [|x l Hx _ IH]; [done|].
    cbn [zip_with map]. rewrite IH. f_equal.
    apply add_sub_reduced; [done | by apply length_recompress | apply reduced_recompress; unfold DU; lia]. }
  set (Y := dot (map ntt s) (map ntt (map (recompress DU) u))).
  assert (HY : length Y = N).
  { apply length_dot. rewrite !length_map. destruct Hs as [-> _], Hu as [-> _]. done. }
  assert (HiY : length (intt Y) = N) by by apply (linear_length _ _ _ linear_intt).
  set (core := noise_core s e r e1 du).
  assert (Hcore : length core = N) by by apply length_noise_core.
  assert (EXY : veq (intt X) (lin 1 (intt Y) core)).
  { apply intt_difference; [done..|]. intros i Hi. unfold X, Y. rewrite <- Eu.
    by apply noise_identity. }
  assert (Hrv : length (recompress DV v) = N) by by apply length_recompress.
  set (dv := poly_sub (recompress DV v) v).
  assert (Hdv : length dv = N) by by apply length_poly_sub.
  unfold decryption_noise, opened. fold du dv core Y. split; [|auto using length_poly_add].
  apply (veq_reduced Q); [apply reduced_poly_sub | apply reduced_poly_add|].
  apply (veq_pointwise N);
    [by apply length_poly_sub | auto using length_poly_add|]. intros j Hj.
  rewrite (poly_sub_at _ _ j), !(poly_add_at _ _ j) by auto using length_poly_add.
  pose proof (lookup_veq Q _ _ j EXY) as Ej. rewrite (lookup_total_lin 1 _ _ N) in Ej by done.
  assert (Ev : v !!! j ≡[Q] intt X !!! j + e2 !!! j + mu !!! j).
  { unfold v. rewrite !poly_add_at by auto using length_poly_add. reflexivity. }
  assert (Ed : dv !!! j ≡[Q] recompress DV v !!! j - v !!! j) by (apply poly_sub_at; assumption).
  rewrite Ed, Ev, Ej.
  generalize (recompress DV v !!! j) (intt Y !!! j) (core !!! j) (e2 !!! j) (mu !!! j). intros.
  apply cong_of_eq. ring.
Qed.

(** ** The key encapsulation *)

Lemma reduced_NL k a : (k < 7)%nat → length a = N → reduced Q (NL k a).
Proof.
  intros Hk Ha. destruct (layer_split k a Hk Ha) as (bs & -> & Hbs & Hn).
  destruct (NL_blocks k bs Hk Hbs Hn) as [-> _].
  apply Forall_concat. apply Forall_zip_with_all. intros z b. unfold map_halves.
  apply Forall_app. split; apply Forall_zip_with_all; intros; apply reduce_range.
Qed.
Lemma reduced_layers k f : (k < 7)%nat → length f = N → reduced Q (layers NL (S k) f).
Proof.
  intros Hk Hf. cbn [layers]. apply reduced_NL; [done|].
  apply (linear_length _ _ _ (linear_layers Q N NL 7 linear_NL k ltac:(lia))). exact Hf.
Qed.
Lemma reduced_ntt f : length f = N → reduced Q (ntt f).
Proof. intros Hf. rewrite ntt_layers. exact (reduced_layers 6 f ltac:(lia) Hf). Qed.

Lemma length_sample_cbd b eta : length (sample_cbd b eta) = N.
Proof. unfold sample_cbd. by rewrite length_map, length_seq. Qed.

Lemma bits_of_message m : length m = 32%nat → Forall (λ x, 0 ≤ x < 2) (byte_decode m 1).
Proof.
  intros Hm. rewrite byte_decode_pieces. apply Forall_map_all. intros p.
  apply Z.mod_pos_bound. reflexivity.
Qed.

(** The message comes back through the rounding of its bits. *)
Lemma message_bits bits n : length bits = length n → Forall (λ x, 0 ≤ x < 2) bits → reduced Q n →
  Forall (λ x, noise_ok x = true) n →
  poly_compress (poly_add (poly_decompress bits 1) n) 1 = bits.
Proof.
  intros Hl Hb. revert n Hl. induction Hb as [|b bits Hb _ IH]; intros [|x n] Hl Hr Hn; try done.
  apply list.Forall_cons in Hr as [Hx Hr]. apply list.Forall_cons in Hn as [Hok Hn].
  unfold poly_compress, poly_decompress, poly_add. cbn [map zip_with].
  rewrite bit_survives by done. f_equal. apply IH; [by injection Hl | done | done].
Qed.

Lemma decode_encode_vector ts rest : length ts = K → Forall (λ t, length t = N ∧ reduced Q t) ts →
  decode_vector (concat (map (λ t, byte_encode t 12) ts) ++ rest) = ts.
Proof. intros Hl Hts. unfold decode_vector. rewrite <- Hl. exact (decode_blocks 12 ts rest ltac:(lia) Hts). Qed.

Lemma length_encoded_vector d ts : Forall poly_ok ts →
  length (concat (map (λ t, byte_encode t d) ts)) = (32 * d * length ts)%nat.
Proof.
  intros Hts. rewrite (length_concat_const _ (32 * d)), length_map; [done|].
  apply Forall_fmap. eapply list.Forall_impl; [exact Hts|]. intros t Ht. unfold compose. by apply length_byte_encode.
Qed.

(** What the holder of [s] reads of a ciphertext. *)
Lemma pke_decrypt_opened s u v : vec3 s → vec3 u → length v = N →
  pke_decrypt (concat (map (λ s, byte_encode s 12) (map ntt s)))
    (concat (map (λ ui, byte_encode (poly_compress ui DU) DU) u) ++ byte_encode (poly_compress v DV) DV) =
  byte_encode (poly_compress (opened s u v) 1) 1.
Proof.
  intros [Hs1 Hs] [Hu1 Hu] Hv.
  set (cs := map (λ x, poly_compress x DU) u).
  assert (Hcs : Forall (λ t, length t = N ∧ Forall (λ x, 0 ≤ x < decode_modulus DU) t) cs).
  { apply Forall_fmap. eapply list.Forall_impl; [exact Hu|]. intros x Hx. unfold compose, poly_compress.
    split; [by rewrite length_map|]. apply Forall_map_all. intros y. apply compress_range. }
  assert (Ecs : map (λ ui, byte_encode (poly_compress ui DU) DU) u = map (λ t, byte_encode t DU) cs)
    by (unfold cs; by rewrite map_map).
  assert (Hlen : length (concat (map (λ t, byte_encode t DU) cs)) = (32 * DU * K)%nat).
  { rewrite length_encoded_vector by (eapply list.Forall_impl; [exact Hcs|]; by intros ? []).
    unfold cs. by rewrite length_map, Hu1. }
  unfold pke_decrypt. rewrite Ecs. unfold opened. f_equal. f_equal. f_equal.
  - rewrite drop_app_length' by done. unfold recompress. f_equal.
    rewrite <- (app_nil_r (byte_encode _ DV)). apply byte_decode_encode; [unfold DV; lia | |].
    + unfold poly_compress. by rewrite length_map.
    + unfold poly_compress. apply Forall_map_all. intros y. apply compress_range.
  - f_equal. f_equal.
    + rewrite <- (app_nil_r (concat _)). apply decode_encode_vector; [by rewrite length_map|].
      apply Forall_fmap. eapply list.Forall_impl; [exact Hs|]. intros x Hx. unfold compose.
      split; [by apply length_ntt | by apply reduced_ntt].
    + f_equal. transitivity (map (λ c, poly_decompress c DU) cs); [|unfold cs; by rewrite map_map].
      pose proof (decode_blocks DU cs (byte_encode (poly_compress v DV) DV) ltac:(unfold DU; lia) Hcs) as E.
      apply (f_equal (map (λ c, poly_decompress c DU))) in E. rewrite map_map in E.
      replace (length cs) with K in E by (unfold cs; by rewrite length_map, Hu1). exact E.
Qed.
