(* ===== verification/MlkemCorrect.v ===== *)
(** * Decapsulation recovers the encapsulated secret

    The key pairs, ciphertexts and shared secrets of ml_kem.rs, for any hash
    functions with the lengths the code relies on, and for those it uses. *)

From S2P Require Import Prelude Ntt Keccak KeccakFacts Mlkem MlkemFacts MlkemKem.
#[local] Open Scope ntt_scope.

#[local] Opaque ntt intt byte_encode byte_decode dot sample_cbd sample_vector poly_add poly_sub
  poly_compress poly_decompress decode_vector noise_core decryption_noise.

Section Correct.
Context `{HL : KemHashLaws}.

Lemma length_sample_vector seed n eta : vec3 (sample_vector seed n K eta).
Proof.
  with_strategy transparent [sample_vector] (unfold sample_vector). split; [by rewrite length_map, length_seq|].
  apply Forall_map_all. intros i. apply length_sample_cbd.
Qed.

(** The matrix and its transpose are sampled entry by entry. *)
Lemma mapM3 {A} (g : nat → option A) l : mapM g (seq 0 K) = Some l →
  ∃ x y z, l = [x; y; z] ∧ g 0%nat = Some x ∧ g 1%nat = Some y ∧ g 2%nat = Some z.
Proof.
  change (seq 0 K) with [0; 1; 2]%nat. cbn. intros Hl.
  destruct (g 0%nat) as [x|]; [|done]. destruct (g 1%nat) as [y|]; [|done]. destruct (g 2%nat) as [z|]; [|done].
  injection Hl as <-. by exists x, y, z.
Qed.

Lemma gen_matrix_transpose rho a t : gen_matrix rho false = Some a → gen_matrix rho true = Some t →
  ∃ a0 a1 a2 b0 b1 b2 c0 c1 c2,
    a = [[a0; a1; a2]; [b0; b1; b2]; [c0; c1; c2]] ∧ t = [[a0; b0; c0]; [a1; b1; c1]; [a2; b2; c2]].
Proof.
  unfold gen_matrix. intros Ha Ht.
  destruct (mapM3 _ _ Ha) as (ra & rb & rc & -> & Ea & Eb & Ec).
  destruct (mapM3 _ _ Ht) as (ta & tb & tc & -> & Fa & Fb & Fc).
  destruct (mapM3 _ _ Ea) as (? & ? & ? & -> & ? & ? & ?). destruct (mapM3 _ _ Eb) as (? & ? & ? & -> & ? & ? & ?).
  destruct (mapM3 _ _ Ec) as (? & ? & ? & -> & ? & ? & ?). destruct (mapM3 _ _ Fa) as (? & ? & ? & -> & ? & ? & ?).
  destruct (mapM3 _ _ Fb) as (? & ? & ? & -> & ? & ? & ?). destruct (mapM3 _ _ Fc) as (? & ? & ? & -> & ? & ? & ?).
  simplify_eq. by eauto 20.
Qed.

(** ** The noise of a key pair and a message *)

(** e r + e2 + c_v - s (e1 + c_u), with c_u and c_v what compression loses. *)
Definition kem_noise (d m : bytes) : option Poly :=
  let '(rho, sigma) := kem_g (d ++ [byte.of_Z (Z.of_nat K)]) in
  '(ek, _) ← pke_keygen d;
  at_ ← gen_matrix rho true;
  let rand := (kem_g (m ++ kem_h ek)).2 in
  let s := sample_vector sigma 0 K ETA1 in
  let e := sample_vector sigma K K ETA1 in
  let r := sample_vector rand 0 K ETA1 in
  let e1 := sample_vector rand K K ETA2 in
  let e2 := sample_cbd (kem_prf rand (byte.of_Z (Z.of_nat (2 * K))) ETA2) ETA2 in
  let u := u_of at_ r e1 in
  let mu := poly_decompress (byte_decode m 1) 1 in
  let v := poly_add (poly_add (intt (dot (decode_vector ek) (map ntt r))) e2) mu in
  Some (decryption_noise s e r e1 e2 u v).

(** The parts of a generated key. *)
Lemma pke_keygen_parts d ek dk rho sigma :
  kem_g (d ++ [byte.of_Z (Z.of_nat K)]) = (rho, sigma) → pke_keygen d = Some (ek, dk) →
  let s := sample_vector sigma 0 K ETA1 in
  let e := sample_vector sigma K K ETA1 in
  ∃ a, gen_matrix rho false = Some a ∧
    ek = concat (map (λ t, byte_encode t 12) (t_hat_of a s e)) ++ rho ∧
    dk = concat (map (λ s, byte_encode s 12) (map ntt s)).
Proof.
  intros Hg Hk s e. unfold pke_keygen in Hk. rewrite Hg in Hk.
  destruct (gen_matrix rho false) as [a|] eqn:Ha; [|done]. cbn [mbind option_bind] in Hk. apply (inj Some), pair_equal_spec in Hk as [<- <-].
  exists a. by split.
Qed.

Lemma t_hat_ok a s e : length a = K → Forall (λ row, length row = K) a → vec3 s → vec3 e →
  length (t_hat_of a s e) = K ∧ Forall (λ t, length t = N ∧ reduced Q t) (t_hat_of a s e).
Proof.
  intros Ha Hrows [Hs1 Hs] [He1 He]. unfold t_hat_of. split; [rewrite length_zip_with, length_map; lia|].
  rewrite zip_with_fmap_r. clear Ha He1. revert e He.
  induction Hrows as [|row a Hrow _ IH]; intros [|x e] He; constructor.
  - apply list.Forall_cons in He as [Hx _]. split; [|apply reduced_poly_add].
    apply length_poly_add; [apply length_dot; by rewrite length_map, Hs1 | by apply length_ntt].
  - apply IH. by apply list.Forall_cons in He as [_ He].
Qed.

(** The parts of a ciphertext, and of the noise, from the same seed. *)
Definition cipher_v (th r : list Poly) (e2 : Poly) (m : bytes) : Poly :=
  poly_add (poly_add (intt (dot th (map ntt r))) e2) (poly_decompress (byte_decode m 1) 1).
Definition cipher_e2 (rand : bytes) : Poly :=
  sample_cbd (kem_prf rand (byte.of_Z (Z.of_nat (2 * K))) ETA2) ETA2.
Definition encode_cipher (u : list Poly) (v : Poly) : bytes :=
  concat (map (λ ui, byte_encode (poly_compress ui DU) DU) u) ++ byte_encode (poly_compress v DV) DV.

Lemma pke_encrypt_parts ek m rand ct :
  pke_encrypt ek m rand = Some ct →
  let r := sample_vector rand 0 K ETA1 in
  let e1 := sample_vector rand K K ETA2 in
  ∃ t, gen_matrix (slice (384 * K) (384 * K + 32) ek) true = Some t ∧
    ct = encode_cipher (u_of t r e1) (cipher_v (decode_vector ek) r (cipher_e2 rand) m).
Proof.
  intros Hc r e1. unfold pke_encrypt in Hc.
  destruct (gen_matrix _ true) as [t|]; [|discriminate Hc].
  apply (inj Some) in Hc. exists t. split; [reflexivity | symmetry; exact Hc].
Qed.

Lemma kem_noise_parts d m ek dk rho sigma n :
  kem_g (d ++ [byte.of_Z (Z.of_nat K)]) = (rho, sigma) → pke_keygen d = Some (ek, dk) → kem_noise d m = Some n →
  let rand := (kem_g (m ++ kem_h ek)).2 in
  let s := sample_vector sigma 0 K ETA1 in
  let e := sample_vector sigma K K ETA1 in
  let r := sample_vector rand 0 K ETA1 in
  let e1 := sample_vector rand K K ETA2 in
  ∃ t, gen_matrix rho true = Some t ∧
    n = decryption_noise s e r e1 (cipher_e2 rand) (u_of t r e1)
          (cipher_v (decode_vector ek) r (cipher_e2 rand) m).
Proof.
  intros Hg Hk Hc rand s e r e1. unfold kem_noise in Hc. rewrite Hg, Hk in Hc. cbn [mbind option_bind] in Hc.
  destruct (gen_matrix rho true) as [t|]; [|discriminate Hc].
  apply (inj Some) in Hc. exists t. split; [reflexivity | symmetry; exact Hc].
Qed.

(** A vector, decoded from a public key. *)
Lemma public_key_parts th rho : length th = K → Forall (λ t, length t = N ∧ reduced Q t) th → length rho = 32%nat →
  let ek := concat (map (λ t, byte_encode t 12) th) ++ rho in
  length ek = EK_LEN ∧ decode_vector ek = th ∧ slice (384 * K) (384 * K + 32) ek = rho.
Proof.
  intros Hl Hth Hrho ek.
  assert (Hlen : length (concat (map (λ t, byte_encode t 12) th)) = (384 * K)%nat).
  { rewrite length_encoded_vector by (eapply list.Forall_impl; [exact Hth|]; by intros ? []). by rewrite Hl. }
  split; [unfold ek; rewrite length_app, Hlen, Hrho; reflexivity|].
  split; [by apply decode_encode_vector|].
  unfold ek. rewrite <- (app_nil_r rho) at 1. apply slice_app_at; [done|]. by rewrite Hlen, Hrho.
Qed.

Lemma vec3_u t r e1 : length t = K → Forall (λ row, length row = K) t → vec3 r → vec3 e1 → vec3 (u_of t r e1).
Proof.
  intros Ht Hrows [Hr1 Hr] [Hf1 Hf]. unfold u_of. split; [rewrite length_zip_with; lia|].
  clear Ht Hf1. revert e1 Hf.
  induction Hrows as [|row t Hrow _ IH]; intros [|y e1] Hf; constructor.
  - apply length_poly_add; [|by apply list.Forall_cons in Hf as [? _]].
    apply (linear_length _ _ _ linear_intt), length_dot. by rewrite length_map, Hr1.
  - apply IH. by apply list.Forall_cons in Hf as [_ ?].
Qed.

(** Decryption gives the message back. *)
Lemma pke_correct d m ek dk ct n :
  length m = 32%nat → pke_keygen d = Some (ek, dk) →
  pke_encrypt ek m (kem_g (m ++ kem_h ek)).2 = Some ct →
  kem_noise d m = Some n → Forall (λ x, noise_ok x = true) n →
  length ek = EK_LEN ∧ length dk = (384 * K)%nat ∧ pke_decrypt dk ct = m.
Proof.
  intros Hm Hk Henc Hn Hok.
  destruct (kem_g (d ++ [byte.of_Z (Z.of_nat K)])) as [rho sigma] eqn:Hg.
  assert (Hrho : length rho = 32%nat) by exact (eq_trans (f_equal (λ p, length p.1) (eq_sym Hg)) (kem_g_length _)).
  destruct (pke_keygen_parts d ek dk rho sigma Hg Hk) as (a & Ha & Eek & Edk).
  destruct (kem_noise_parts d m ek dk rho sigma n Hg Hk Hn) as (t & Ht & En).
  destruct (pke_encrypt_parts _ _ _ _ Henc) as (t' & Ht' & Ect).
  destruct (gen_matrix_transpose rho a t Ha Ht) as (a0 & a1 & a2 & b0 & b1 & b2 & c0 & c1 & c2 & -> & ->).
  clear Hk Henc Hn Hg.
  set (s := sample_vector sigma 0 K ETA1) in *. set (e := sample_vector sigma K K ETA1) in *.
  set (rand := (kem_g (m ++ kem_h ek)).2) in *.
  set (r := sample_vector rand 0 K ETA1) in *. set (e1 := sample_vector rand K K ETA2) in *.
  assert (Hs : vec3 s) by apply length_sample_vector. assert (He : vec3 e) by apply length_sample_vector.
  assert (Hr : vec3 r) by apply length_sample_vector. assert (Hf : vec3 e1) by apply length_sample_vector.
  destruct (t_hat_ok [[a0; a1; a2]; [b0; b1; b2]; [c0; c1; c2]] s e) as [Hth1 Hth];
    [reflexivity | repeat constructor | exact Hs | exact He|].
  destruct (public_key_parts _ rho Hth1 Hth Hrho) as (Hlek & Hdec & Hslice).
  rewrite <- Eek in Hlek, Hdec, Hslice. rewrite Hslice in Ht'. rewrite Ht in Ht'. apply (inj Some) in Ht' as <-.
  rewrite Hdec in En, Ect. split; [exact Hlek|]. clear Hslice Hdec Ht Ha Hlek.
  split.
  { rewrite Edk, length_encoded_vector; [rewrite length_map; destruct Hs as [-> _]; reflexivity|].
    apply Forall_fmap. destruct Hs as [_ Hs]. eapply list.Forall_impl; [exact Hs|]. intros x Hx. by apply length_ntt. }
  assert (Hmu : length (poly_decompress (byte_decode m 1) 1) = N).
  { with_strategy transparent [poly_decompress] (unfold poly_decompress). by rewrite length_map, length_byte_decode. }
  destruct (opened_message a0 a1 a2 b0 b1 b2 c0 c1 c2 s e r e1 (cipher_e2 rand) _ Hs He Hr Hf
              (length_sample_cbd _ _) Hmu) as [Eo Hno].
  set (u := u_of _ r e1) in *. set (v := cipher_v _ r (cipher_e2 rand) m) in *.
  change (poly_add (poly_add (intt (dot (t_hat_of [[a0; a1; a2]; [b0; b1; b2]; [c0; c1; c2]] s e) (map ntt r)))
            (cipher_e2 rand)) (poly_decompress (byte_decode m 1) 1)) with v in Eo, Hno.
  assert (Hu : vec3 u) by (apply vec3_u; [reflexivity | repeat constructor | exact Hr | exact Hf]).
  assert (Hv : length v = N).
  { apply length_poly_add; [apply length_poly_add; [|apply length_sample_cbd]|exact Hmu].
    apply (linear_length _ _ _ linear_intt), length_dot. rewrite length_map. destruct Hr as [-> _]. exact Hth1. }
  rewrite Edk, Ect. unfold encode_cipher. rewrite pke_decrypt_opened by assumption. rewrite Eo, <- En.
  rewrite message_bits; [by apply byte_encode_decode; [lia|] | | by apply bits_of_message | | exact Hok].
  - rewrite length_byte_decode, En. symmetry. exact Hno.
  - rewrite En. with_strategy transparent [decryption_noise] (unfold decryption_noise). apply reduced_poly_add.
Qed.

Lemma decapsulate_recovers d z m kp ct ss n :
  length m = 32%nat →
  keygen_internal d z = Some kp → encaps_internal (kp_ek kp) m = Some (ct, ss) →
  kem_noise d m = Some n → Forall (λ x, noise_ok x = true) n →
  decapsulate (kp_dk kp) ct = Some ss.
Proof.
  intros Hm Hkp Henc Hn Hok. unfold keygen_internal in Hkp.
  destruct (pke_keygen d) as [[ek dk]|] eqn:Hk; [|discriminate Hkp]. apply (inj Some) in Hkp as <-.
  cbn [kp_ek kp_dk] in *. unfold encaps_internal in Henc.
  destruct (kem_g (m ++ kem_h ek)) as [shared rand] eqn:Hg.
  destruct (pke_encrypt ek m rand) as [c|] eqn:He; [|discriminate Henc].
  apply (inj Some), pair_equal_spec in Henc as [-> ->].
  destruct (pke_correct d m ek dk ct n) as (Hlek & Hldk & Hdec); [done | done | by rewrite Hg | done | done|].
  unfold decapsulate. rewrite take_app_length' by done.
  rewrite (slice_app_at dk ek _ (384 * K) (768 * K + 32)) by (rewrite ?Hlek, Hldk; reflexivity).
  assert (Hh : slice (768 * K + 32) (768 * K + 64) (dk ++ ek ++ kem_h ek ++ z) = kem_h ek).
  { rewrite app_assoc. apply slice_app_at; rewrite length_app, Hldk, Hlek, ?kem_h_length; reflexivity. }
  rewrite Hh, Hdec, Hg, He. cbn [mbind option_bind]. by rewrite bool_decide_true.
Qed.
(** ** Lengths on the wire *)

Lemma gen_matrix_shape rho t b : gen_matrix rho b = Some t → length t = K ∧ Forall (λ row, length row = K) t.
Proof.
  unfold gen_matrix. intros Ht. destruct (mapM3 _ _ Ht) as (ta & tb & tc & -> & Fa & Fb & Fc).
  destruct (mapM3 _ _ Fa) as (? & ? & ? & -> & _). destruct (mapM3 _ _ Fb) as (? & ? & ? & -> & _).
  destruct (mapM3 _ _ Fc) as (? & ? & ? & -> & _). split; [reflexivity | repeat constructor].
Qed.

Lemma length_message_poly m : length (poly_decompress (byte_decode m 1) 1) = N.
Proof. with_strategy transparent [poly_decompress] (unfold poly_decompress). by rewrite length_map, length_byte_decode. Qed.

Lemma length_cipher_v th r e2 m : length th = K → vec3 r → length e2 = N → length (cipher_v th r e2 m) = N.
Proof.
  intros Hth [Hr _] He. apply length_poly_add; [apply length_poly_add; [|exact He] | apply length_message_poly].
  apply (linear_length _ _ _ linear_intt), length_dot. rewrite length_map, Hr. exact Hth.
Qed.

Lemma length_compressed d x : length x = N → length (byte_encode (poly_compress x d) d) = (32 * d)%nat.
Proof.
  intros Hx. apply length_byte_encode. with_strategy transparent [poly_compress] (unfold poly_compress).
  by rewrite length_map.
Qed.

Lemma length_encode_cipher u v : vec3 u → length v = N → length (encode_cipher u v) = CT_LEN.
Proof.
  intros [Hl Hu] Hv. unfold encode_cipher. rewrite length_app, (length_compressed DV v Hv).
  rewrite (length_concat_const _ (32 * DU)); [rewrite length_map, Hl; reflexivity|].
  apply Forall_fmap. eapply list.Forall_impl; [exact Hu|]. intros x Hx. by apply length_compressed.
Qed.

Lemma encaps_lengths ek m ct ss : encaps_internal ek m = Some (ct, ss) → length ct = CT_LEN ∧ length ss = 32%nat.
Proof.
  unfold encaps_internal. intros Henc. destruct (kem_g (m ++ kem_h ek)) as [shared rand] eqn:Hg.
  destruct (pke_encrypt ek m rand) as [c|] eqn:He; [|discriminate Henc].
  apply (inj Some), pair_equal_spec in Henc as [-> ->].
  split; [|exact (eq_trans (f_equal (λ p, length p.1) (eq_sym Hg)) (kem_g_length _))].
  destruct (pke_encrypt_parts _ _ _ _ He) as (t & Ht & ->). destruct (gen_matrix_shape _ _ _ Ht) as [Hl Hrows].
  apply length_encode_cipher; [apply vec3_u; try assumption; apply length_sample_vector|].
  apply length_cipher_v; [|apply length_sample_vector | apply length_sample_cbd].
  with_strategy transparent [decode_vector] (unfold decode_vector). by rewrite length_map, length_seq.
Qed.

Lemma keygen_lengths d z kp : keygen_internal d z = Some kp → length (kp_ek kp) = EK_LEN.
Proof.
  unfold keygen_internal. intros Hkp. destruct (pke_keygen d) as [[ek dk]|] eqn:Hk; [|discriminate Hkp].
  apply (inj Some) in Hkp as <-. cbn [kp_ek].
  destruct (kem_g (d ++ [byte.of_Z (Z.of_nat K)])) as [rho sigma] eqn:Hg.
  destruct (pke_keygen_parts d ek dk rho sigma Hg Hk) as (a & Ha & -> & _).
  destruct (gen_matrix_shape _ _ _ Ha) as [Hl Hrows].
  destruct (t_hat_ok a (sample_vector sigma 0 K ETA1) (sample_vector sigma K K ETA1) Hl Hrows) as [Hth1 Hth];
    [apply length_sample_vector | apply length_sample_vector |].
  apply public_key_parts; [exact Hth1 | exact Hth |].
  exact (eq_trans (f_equal (λ p, length p.1) (eq_sym Hg)) (kem_g_length _)).
Qed.
End Correct.

(** The program's hash functions have the lengths it relies on. *)
#[export] Instance keccak_hash_laws fuel : @KemHashLaws (keccak_hash fuel).
Proof.
  split; intros x; [|apply length_sha3_256].
  change (kem_g x) with (hash_g x). unfold hash_g. cbn [fst]. rewrite length_take, length_sha3_512. done.
Qed.

(** A hash with little noise, to evaluate the whole exchange on. *)
Definition toy_hash : KemHash :=
  {| kem_g := λ x, (take 32 (x ++ replicate 32 Byte.x00), [fold_left byte.xor x Byte.x07]);
     kem_h := λ x, [fold_left byte.xor x Byte.x05] ++ replicate 31 Byte.x02;
     kem_j := λ x, [fold_left byte.xor x Byte.x03];
     kem_prf := λ s b eta, map (λ k, byte.and (byte.of_Z (37 * Z.of_nat k + 11 * byte.unsigned b)) Byte.x81) (seq 0 (64 * eta));
     kem_sample := λ rho i j, Some (map (λ k, reduce (17 * Z.of_nat k * Z.of_nat k + 5 * byte.unsigned i + byte.unsigned j)) (seq 0 N)) |}.

#[export] Instance toy_hash_laws : @KemHashLaws toy_hash.
Proof.
  split; intros x; [|done].
  change (length (take 32 (x ++ replicate 32 Byte.x00)) = 32%nat).
  rewrite length_take, length_app, length_replicate. lia.
Qed.

Definition toy_seed : bytes := replicate 32 Byte.x2a.

(** C37: Decapsulation gives back the secret that encapsulation produced: for
    every pair of seeds, every message and every hash functions of the
    lengths the code relies on (SHA-3 and SHAKE are), when the sampling of
    the matrix ends and every coefficient of the decryption noise
    e r + e2 + c_v - s (e1 + c_u) is below a quarter of the modulus, the
    holder of the secret key derives the shared secret of the sender. The
    noise is stated with the negacyclic product, the code computes with the
    number-theoretic transform. *)
Theorem mlkem_decapsulation_correct `{KemHashLaws} d z m kp ct ss n :
  length m = 32%nat →
  keygen_internal d z = Some kp → encaps_internal (kp_ek kp) m = Some (ct, ss) →
  kem_noise d m = Some n → Forall (λ x, noise_ok x = true) n →
  decapsulate (kp_dk kp) ct = Some ss.
Proof. apply decapsulate_recovers. Qed.

Lemma toy_noise_ok :
  match @kem_noise toy_hash toy_seed toy_seed with Some n => forallb noise_ok n | None => false end = true.
Proof. vm_compute. reflexivity. Qed.

Lemma mlkem_decapsulation_correct_witness :
  ∃ kp ct ss, @keygen_internal toy_hash toy_seed toy_seed = Some kp ∧
    @encaps_internal toy_hash (kp_ek kp) toy_seed = Some (ct, ss) ∧
    @decapsulate toy_hash (kp_dk kp) ct = Some ss.
Proof.
  do 3 eexists. split; [reflexivity|]. split; [reflexivity|].
  pose proof toy_noise_ok as Hn. destruct (@kem_noise toy_hash toy_seed toy_seed) as [n|] eqn:E; [|discriminate Hn].
  eapply (mlkem_decapsulation_correct (H0 := toy_hash_laws) toy_seed toy_seed toy_seed _ _ _ n);
    [reflexivity | reflexivity | reflexivity | exact E|].
  apply List.Forall_forall. apply forallb_forall. exact Hn.
Defined.
