(* ===== verification/Mldsa.v ===== *)
(** * ML-DSA-65

    ciphra-crypto/src/ml_dsa.rs (FIPS 204): the complete number-theoretic
    transform modulo 8380417, rounding and hints, the samplers, the bit
    packings, and key generation, signing and verification. A polynomial is
    the list of its 256 coefficients; [i32] and [i64] values stay in range
    and are written in [Z], casts to [u32] wrap. *)

From S2P Require Import Prelude Keccak KeccakFacts.

Definition Q : Z := 8380417.
Definition N : nat := 256.
Definition D : Z := 13.
Definition ROOT : Z := 1753.
Definition K : nat := 6.
Definition L : nat := 5.
Definition ETA : Z := 4.
Definition TAU : nat := 49.
Definition BETA : Z := Z.of_nat TAU * ETA.
Definition GAMMA1 : Z := 524288.
Definition GAMMA2 : Z := (Q - 1) / 32.
Definition OMEGA : nat := 55.
Definition C_TILDE_LEN : nat := 48.
(** [N * w / 8] bytes for 256 values of [w] bits. *)
Definition stride (w : nat) : nat := 32 * w.
Definition PUBLIC_KEY_LEN : nat := 32 + K * stride 10.
Definition SECRET_KEY_LEN : nat := 32 + 32 + 64 + (L + K) * stride 4 + K * stride 13.
Definition SIGNATURE_LEN : nat := C_TILDE_LEN + L * stride 20 + OMEGA + K.

Abbreviation Poly := (list Z).
Definition ZERO : Poly := replicate N 0.

(** ** Modular helpers *)

Definition add_mod (a b : Z) : Z := let s := a + b in if Q <=? s then s - Q else s.
Definition sub_mod (a b : Z) : Z := let s := a - b in if s <? 0 then s + Q else s.
Definition mul_mod (a b : Z) : Z := (a * b) mod Q.

Fixpoint pow_mod_loop (fuel : nat) (result base exp : Z) : Z :=
  match fuel with
  | O => result
  | S fuel' =>
      if exp <=? 0 then result
      else
        let result := if Z.land exp 1 =? 1 then result * base mod Q else result in
        pow_mod_loop fuel' result (base * base mod Q) (Z.shiftr exp 1)
  end.
Definition pow_mod (base exp : Z) : Z := pow_mod_loop 64 1 (base mod Q) exp.

Definition center (a : Z) : Z := if Q / 2 <? a then a - Q else a.
(** The largest absolute value, 0 for none. *)
Definition max_abs (f : Z → Z) (p : Poly) : Z := foldr (λ c m, Z.max (Z.abs (f c)) m) 0 p.
Definition norm_inf (p : Poly) : Z := max_abs center p.
Definition infinity_low (p : Poly) : Z := max_abs (λ c, c) p.
Definition max_all (norm : Poly → Z) (ps : list Poly) : Z := foldr (λ p m, Z.max (norm p) m) 0 ps.

(** ** The transform *)

(** [u8::reverse_bits] *)
Definition reverse_bits (i : Z) : Z :=
  fold_left (λ r b, Z.lor r (Z.shiftl (Z.land (Z.shiftr i b) 1) (7 - b))) [0; 1; 2; 3; 4; 5; 6; 7] 0.

Definition zetas : list Z := Eval vm_compute in map (λ i, pow_mod ROOT (reverse_bits (Z.of_nat i))) (seq 0 N).
Definition n_inverse : Z := Eval vm_compute in pow_mod 256 (Q - 2).

Definition ntt_butterfly (zeta : Z) (len : nat) (a : Poly) (j : nat) : Poly :=
  let t := mul_mod zeta (a !!! (j + len)%nat) in
  let aj := a !!! j in
  <[j := add_mod aj t]> (<[(j + len)%nat := sub_mod aj t]> a).

Definition block_starts (len : nat) : list nat := map (λ b, b * (2 * len))%nat (seq 0 (N / (2 * len))).

Definition ntt_layer (ka : nat * Poly) (len : nat) : nat * Poly :=
  fold_left (λ ka start,
    (S ka.1, fold_left (ntt_butterfly (zetas !!! S ka.1) len) (seq start len) ka.2))
    (block_starts len) ka.

Definition ntt (a : Poly) : Poly := (fold_left ntt_layer [128; 64; 32; 16; 8; 4; 2; 1]%nat (0%nat, a)).2.

Definition inv_butterfly (zeta : Z) (len : nat) (a : Poly) (j : nat) : Poly :=
  let t := a !!! j in
  let b := a !!! (j + len)%nat in
  <[(j + len)%nat := mul_mod zeta (sub_mod t b)]> (<[j := add_mod t b]> a).

Definition inv_layer (ka : nat * Poly) (len : nat) : nat * Poly :=
  fold_left (λ ka start,
    (Nat.pred ka.1, fold_left (inv_butterfly (Q - zetas !!! Nat.pred ka.1) len) (seq start len) ka.2))
    (block_starts len) ka.

Definition inv_ntt (a : Poly) : Poly :=
  map (λ x, mul_mod x n_inverse) (fold_left inv_layer [1; 2; 4; 8; 16; 32; 64; 128]%nat (N, a)).2.

Definition poly_add (a b : Poly) : Poly := zip_with add_mod a b.
Definition poly_sub (a b : Poly) : Poly := zip_with sub_mod a b.
Definition poly_pointwise (a b : Poly) : Poly := zip_with mul_mod a b.

(** ** Rounding and hints *)

Definition power2round (r : Z) : Z * Z :=
  let r := r mod Q in
  let r1 := Z.shiftr (r + 2 ^ (D - 1) - 1) D in
  (r1, r - Z.shiftl r1 D).

Definition decompose (r : Z) : Z * Z :=
  let r := r mod Q in
  let r0 := Z.rem r (2 * GAMMA2) in
  let r0 := if GAMMA2 <? r0 then r0 - 2 * GAMMA2 else r0 in
  if r - r0 =? Q - 1 then (0, r0 - 1) else (Z.quot (r - r0) (2 * GAMMA2), r0).

Definition high_bits (r : Z) : Z := (decompose r).1.
Definition low_bits (r : Z) : Z := (decompose r).2.

Definition make_hint (z r : Z) : bool := negb (high_bits r =? high_bits (add_mod (r mod Q) (z mod Q))).

Definition use_hint (hint : bool) (r : Z) : Z :=
  let m := Z.quot (Q - 1) (2 * GAMMA2) in
  let '(r1, r0) := decompose r in
  if hint then if 0 <? r0 then Z.rem (r1 + 1) m else (r1 - 1) mod m else r1.

(** ** Bit packing *)

(** The inner loop of [pack_bits]: whole bytes leave the accumulator. *)
Fixpoint pack_flush (fuel : nat) (acc : Z) (acc_bits : nat) (out : bytes) : Z * nat * bytes :=
  match fuel with
  | O => (acc, acc_bits, out)
  | S fuel' =>
      if (8 <=? acc_bits)%nat then
        pack_flush fuel' (Z.shiftr acc 8) (acc_bits - 8) (out ++ [byte.of_Z acc])
      else (acc, acc_bits, out)
  end.

Definition pack_step (bits : nat) (s : Z * nat * bytes) (v : Z) : Z * nat * bytes :=
  let '(acc, acc_bits, out) := s in
  pack_flush (acc_bits + bits) (Z.lor acc (Z.shiftl v (Z.of_nat acc_bits))) (acc_bits + bits) out.

Definition pack_bits (vals : list Z) (bits : nat) : bytes := (fold_left (pack_step bits) vals (0, 0%nat, [])).2.

(** The inner loop of [unpack_bits]: [data] is what is left to read. *)
Fixpoint unpack_fill (fuel bits : nat) (acc : Z) (acc_bits : nat) (data : bytes) : Z * nat * bytes :=
  match fuel with
  | O => (acc, acc_bits, data)
  | S fuel' =>
      if (acc_bits <? bits)%nat then
        unpack_fill fuel' bits (Z.lor acc (Z.shiftl (byte.unsigned (data !!! 0%nat)) (Z.of_nat acc_bits)))
          (acc_bits + 8) (drop 1 data)
      else (acc, acc_bits, data)
  end.

Fixpoint unpack_loop (count bits : nat) (acc : Z) (acc_bits : nat) (data : bytes) : list Z :=
  match count with
  | O => []
  | S count' =>
      let '(acc, acc_bits, data) := unpack_fill bits bits acc acc_bits data in
      Z.land acc (2 ^ Z.of_nat bits - 1) ::
        unpack_loop count' bits (Z.shiftr acc (Z.of_nat bits)) (acc_bits - bits) data
  end.

Definition unpack_bits (data : bytes) (bits count : nat) : list Z := unpack_loop count bits 0 0 data.

(** [as u32] of an [i32]. *)
Definition as_u32 (x : Z) : Z := x mod 2 ^ 32.

Definition pack_t1 (p : Poly) : bytes := pack_bits (map as_u32 p) 10.
Definition unpack_t1 (data : bytes) : Poly := unpack_bits data 10 N.
(** A coefficient as its distance below [top]. *)
Definition pack_below (top : Z) (bits : nat) (p : Poly) : bytes := pack_bits (map (λ c, as_u32 (top - center c)) p) bits.
Definition unpack_below (top : Z) (bits : nat) (data : bytes) : Poly := map (λ v, (top - v) mod Q) (unpack_bits data bits N).
Definition pack_eta : Poly → bytes := pack_below ETA 4.
Definition unpack_eta : bytes → Poly := unpack_below ETA 4.
Definition pack_t0 : Poly → bytes := pack_below (2 ^ (D - 1)) 13.
Definition unpack_t0 : bytes → Poly := unpack_below (2 ^ (D - 1)) 13.
Definition pack_z : Poly → bytes := pack_below GAMMA1 20.
Definition unpack_z : bytes → Poly := unpack_below GAMMA1 20.
Definition w1_encode (w1 : list Poly) : bytes := pack_bits (map as_u32 (concat w1)) 4.

(** ** Key and signature encoding *)

Definition pk_encode (rho : bytes) (t1 : list Poly) : bytes := rho ++ concat (map pack_t1 t1).

(** [count] polynomials of [width] bytes each from [off] on. *)
Definition unpack_from (unpack : bytes → Poly) (off width count : nat) (b : bytes) : list Poly :=
  map (λ i, unpack (slice (off + width * i) (off + width * (i + 1)) b)) (seq 0 count).

Definition pk_decode (pk : bytes) : bytes * list Poly := (take 32 pk, unpack_from unpack_t1 32 (stride 10) K pk).

Record SecretKey : Type := mkSecretKey {
  sk_rho : bytes; sk_k_seed : bytes; sk_tr : bytes; sk_s1 : list Poly; sk_s2 : list Poly; sk_t0 : list Poly;
}.

Definition sk_decode (sk : bytes) : SecretKey :=
  {| sk_rho := slice 0 32 sk; sk_k_seed := slice 32 64 sk; sk_tr := slice 64 128 sk;
     sk_s1 := unpack_from unpack_eta 128 (stride 4) L sk;
     sk_s2 := unpack_from unpack_eta (128 + stride 4 * L) (stride 4) K sk;
     sk_t0 := unpack_from unpack_t0 (128 + stride 4 * L + stride 4 * K) (stride 13) K sk |}.

(** The positions of the set coefficients of a hint polynomial are written
    from [idx] on. *)
Definition encode_positions (hi : bytes * nat) (p : Poly) : bytes * nat :=
  fold_left (λ hi (jc : nat * Z),
    if jc.2 =? 0 then hi
    else (<[hi.2 := byte.of_Z (Z.of_nat jc.1)]> hi.1, S hi.2)) (zip (seq 0 (length p)) p) hi.

Definition encode_hint (h : list Poly) : bytes :=
  (fold_left (λ hi (ip : nat * Poly),
    let '(hint, idx) := encode_positions hi ip.2 in
    (<[(OMEGA + ip.1)%nat := byte.of_Z (Z.of_nat idx)]> hint, idx))
    (zip (seq 0 (length h)) h) (replicate (OMEGA + K) Byte.x00, 0%nat)).1.

Definition sig_encode (c_tilde : bytes) (z h : list Poly) : bytes :=
  c_tilde ++ concat (map pack_z z) ++ encode_hint h.

(** The positions [k..end] of one polynomial; they must strictly increase. *)
Fixpoint decode_positions (fuel : nat) (hint : bytes) (k j end_ : nat) (p : Poly) : option Poly :=
  match fuel with
  | O => Some p
  | S fuel' =>
      if (j <? end_)%nat then
        if (k <? j)%nat && (byte.unsigned (hint !!! j) <=? byte.unsigned (hint !!! (j - 1)%nat)) then None
        else decode_positions fuel' hint k (S j) end_ (<[Z.to_nat (byte.unsigned (hint !!! j)) := 1]> p)
      else Some p
  end.

Fixpoint decode_hint_loop (hint : bytes) (is_ : list nat) (k : nat) : option (list Poly * nat) :=
  match is_ with
  | [] => Some ([], k)
  | i :: is_ =>
      let end_ := Z.to_nat (byte.unsigned (hint !!! (OMEGA + i)%nat)) in
      if (end_ <? k)%nat || (OMEGA <? end_)%nat then None
      else
        p ← decode_positions (end_ - k) hint k k end_ ZERO;
        '(ps, k) ← decode_hint_loop hint is_ end_;
        Some (p :: ps, k)
  end.

Definition decode_hint (hint : bytes) : option (list Poly) :=
  '(h, k) ← decode_hint_loop hint (seq 0 K) 0;
  if forallb (λ b, byte.unsigned b =? 0) (slice k OMEGA hint) then Some h else None.

Definition sig_decode (sig : bytes) : option (bytes * list Poly * list Poly) :=
  let off := (C_TILDE_LEN + stride 20 * L)%nat in
  h ← decode_hint (slice off (off + OMEGA + K) sig);
  Some (take C_TILDE_LEN sig, unpack_from unpack_z C_TILDE_LEN (stride 20) L sig, h).

(** ** Sampling

    The sponges the code starts from the concatenation of the parts absorbed,
    and reads byte after byte. *)
Class Xof := {
  xof_state : Type;
  xof128 : list bytes → xof_state;
  xof256 : list bytes → xof_state;
  xof_squeeze : xof_state → nat → bytes * xof_state;
}.

Class XofLaws `{Xof} : Prop := {
  xof_length : ∀ parts n, length (xof_squeeze (xof256 parts) n).1 = n;
}.

#[export] Instance keccak_xof : Xof :=
  {| xof_state := Keccak; xof128 := λ parts, fold_left absorb parts shake128_new;
     xof256 := λ parts, fold_left absorb parts shake256_new; xof_squeeze := squeeze |}.

Section Dsa.
Context `{Xof}.

Definition hash (parts : list bytes) (out_len : nat) : bytes := (xof_squeeze (xof256 parts) out_len).1.

(** The rejection loop of [sample_in_ball]: a byte that is at most [i]. *)
Fixpoint ball_position (fuel : nat) (i : nat) (s : xof_state) : option (nat * xof_state) :=
  match fuel with
  | O => None
  | S fuel' =>
      let '(b, s) := xof_squeeze s 1 in
      let j := Z.to_nat (byte.unsigned (b !!! 0%nat)) in
      if (j <=? i)%nat then Some (j, s) else ball_position fuel' i s
  end.

Fixpoint ball_loop (fuel : nat) (signs : Z) (bis : list (nat * nat)) (s : xof_state) (c : Poly) : option Poly :=
  match bis with
  | [] => Some c
  | (bit, i) :: bis =>
      '(j, s) ← ball_position fuel i s;
      let c := <[i := c !!! j]> c in
      let c := <[j := if Z.testbit signs (Z.of_nat bit) then Q - 1 else 1]> c in
      ball_loop fuel signs bis s c
  end.

Definition sample_in_ball (fuel : nat) (seed : bytes) : option Poly :=
  let '(sign_bytes, s) := xof_squeeze (xof256 [seed]) 8 in
  ball_loop fuel (from_le sign_bytes) (zip (seq 0 TAU) (seq (N - TAU) TAU)) s ZERO.

Fixpoint rej_ntt_loop (fuel : nat) (s : xof_state) (poly : Poly) : option Poly :=
  if (N <=? length poly)%nat then Some poly
  else
    match fuel with
    | O => None
    | S fuel' =>
        let '(buf, s) := xof_squeeze s 3 in
        let u i := byte.unsigned (buf !!! i) in
        let t := Z.lor (Z.lor (u 0%nat) (Z.shiftl (u 1%nat) 8)) (Z.shiftl (Z.land (u 2%nat) 0x7f) 16) in
        rej_ntt_loop fuel' s (if t <? Q then poly ++ [t] else poly)
    end.

Definition rej_ntt_poly (fuel : nat) (rho : bytes) (j i : byte) : option Poly :=
  rej_ntt_loop fuel (xof128 [rho; [j; i]]) [].

(** One nibble of [rej_bounded_poly]. *)
Definition push_nibble (poly : Poly) (nibble : Z) : Poly :=
  if (nibble <? 9) && (length poly <? N)%nat then poly ++ [(ETA - nibble) mod Q] else poly.

Fixpoint rej_bounded_loop (fuel : nat) (s : xof_state) (poly : Poly) : option Poly :=
  if (N <=? length poly)%nat then Some poly
  else
    match fuel with
    | O => None
    | S fuel' =>
        let '(buf, s) := xof_squeeze s 1 in
        let b := byte.unsigned (buf !!! 0%nat) in
        rej_bounded_loop fuel' s (push_nibble (push_nibble poly (Z.land b 0x0f)) (Z.shiftr b 4))
    end.

Definition rej_bounded_poly (fuel : nat) (rho_prime : bytes) (nonce : Z) : option Poly :=
  rej_bounded_loop fuel (xof256 [rho_prime; le_bytes 2 nonce]) [].

Definition expand_mask_poly (rho_pp : bytes) (nonce : Z) : Poly :=
  let buf := hash [rho_pp; le_bytes 2 nonce] (stride 20) in
  map (λ v, sub_mod (GAMMA1 mod Q) (v mod Q)) (unpack_bits buf 20 N).

Definition expand_a (fuel : nat) (rho : bytes) : option (list (list Poly)) :=
  mapM (λ i, mapM (λ j, rej_ntt_poly fuel rho (byte.of_Z (Z.of_nat j)) (byte.of_Z (Z.of_nat i))) (seq 0 L)) (seq 0 K).

Definition expand_s (fuel : nat) (rho_prime : bytes) : option (list Poly * list Poly) :=
  s1 ← mapM (λ idx, rej_bounded_poly fuel rho_prime (Z.of_nat idx)) (seq 0 L);
  s2 ← mapM (λ idx, rej_bounded_poly fuel rho_prime (Z.of_nat (L + idx))) (seq 0 K);
  Some (s1, s2).

(** ** Keys, signatures *)

(** A row of the matrix times a vector, in the transformed domain. *)
Definition dot (row v : list Poly) : Poly :=
  fold_left (λ acc av, poly_add acc (poly_pointwise av.1 av.2)) (zip row v) ZERO.

Definition keypair_from_seed (fuel : nat) (seed : bytes) : option (bytes * bytes) :=
  let expanded := hash [seed; [byte.of_Z (Z.of_nat K)]; [byte.of_Z (Z.of_nat L)]] 128 in
  let rho := slice 0 32 expanded in
  let rho_prime := slice 32 96 expanded in
  let k_seed := slice 96 128 expanded in
  a ← expand_a fuel rho;
  '(s1, s2) ← expand_s fuel rho_prime;
  let s1_hat := map ntt s1 in
  let t := zip_with (λ row s, poly_add (inv_ntt (dot row s1_hat)) s) a s2 in
  let t1 := map (map (λ x, (power2round x).1)) t in
  let t0 := map (map (λ x, (power2round x).2 mod Q)) t in
  let pk := pk_encode rho t1 in
  let tr := hash [pk] 64 in
  Some (pk, rho ++ k_seed ++ tr ++ concat (map pack_eta s1) ++ concat (map pack_eta s2) ++ concat (map pack_t0 t0)).

(** [c] times each polynomial, through the transform. *)
Definition times_hat (c_hat : Poly) (ps : list Poly) : list Poly :=
  map (λ p, inv_ntt (poly_pointwise c_hat p)) ps.

Definition message_mu (tr message : bytes) : bytes := hash [tr; [Byte.x00; Byte.x00] ++ message] 64.

(** The hint of one coefficient: [w], [c s2] and [c t0] at that place. *)
Definition hint_at (w cs2 ct0 : Z) : bool :=
  make_hint (sub_mod 0 ct0) (add_mod (sub_mod w cs2) ct0).
Definition hint_poly (w cs2 ct0 : Poly) : Poly :=
  map (λ '(w, (cs2, ct0)), if hint_at w cs2 ct0 then 1 else 0) (zip w (zip cs2 ct0)).

(** One pass of the loop of [sign]: [None] inside when the candidate is
    rejected and the loop goes on. *)
Definition sign_attempt (fuel : nat) (mu : bytes) (a : list (list Poly)) (s1_hat s2_hat t0_hat y : list Poly) : option (option bytes) :=
  let y_hat := map ntt y in
  let w := map (λ row, inv_ntt (dot row y_hat)) a in
  let w1 := map (map high_bits) w in
  let c_tilde := hash [mu; w1_encode w1] C_TILDE_LEN in
  c ← sample_in_ball fuel c_tilde;
  let c_hat := ntt c in
  let cs1 := times_hat c_hat s1_hat in
  let cs2 := times_hat c_hat s2_hat in
  let z := zip_with poly_add y cs1 in
  let r0 := zip_with (λ w cs2, map low_bits (poly_sub w cs2)) w cs2 in
  if (GAMMA1 - BETA <=? max_all norm_inf z) || (GAMMA2 - BETA <=? max_all infinity_low r0) then Some None
  else
    let ct0 := times_hat c_hat t0_hat in
    let hint := map (λ '(w, (cs2, ct0)), hint_poly w cs2 ct0) (zip w (zip cs2 ct0)) in
    let ones := length (filter (λ b, b ≠ 0) (concat hint)) in
    if (GAMMA2 <=? max_all norm_inf ct0) || (OMEGA <? ones)%nat then Some None
    else Some (Some (sig_encode c_tilde z hint)).

(** [kappa] is a [u16]. *)
Fixpoint sign_loop (tries fuel : nat) (rho_pp mu : bytes) (a : list (list Poly)) (s1_hat s2_hat t0_hat : list Poly) (kappa : Z) : option bytes :=
  match tries with
  | O => None
  | S tries' =>
      let y := map (λ r, expand_mask_poly rho_pp (wadd 16 kappa (Z.of_nat r))) (seq 0 L) in
      attempt ← sign_attempt fuel mu a s1_hat s2_hat t0_hat y;
      match attempt with
      | Some sig => Some sig
      | None => sign_loop tries' fuel rho_pp mu a s1_hat s2_hat t0_hat (wadd 16 kappa (Z.of_nat L))
      end
  end.

Definition sign (tries fuel : nat) (secret_key message : bytes) : option bytes :=
  let sk := sk_decode secret_key in
  a ← expand_a fuel (sk_rho sk);
  let mu := message_mu (sk_tr sk) message in
  let rho_pp := hash [sk_k_seed sk; replicate 32 Byte.x00; mu] 64 in
  sign_loop tries fuel rho_pp mu a (map ntt (sk_s1 sk)) (map ntt (sk_s2 sk)) (map ntt (sk_t0 sk)) 0.

(** The high bits that the verifier recovers. *)
Definition recover_w1 (a : list (list Poly)) (c_hat : Poly) (t1 z hint : list Poly) : list Poly :=
  let z_hat := map ntt z in
  let t1_hat := map (λ t, ntt (map (λ x, mul_mod x (2 ^ D)) t)) t1 in
  map (λ '(row, (t1_hat, h)),
    let approx := inv_ntt (poly_sub (dot row z_hat) (poly_pointwise c_hat t1_hat)) in
    zip_with (λ b r, use_hint (negb (b =? 0)) r) h approx) (zip a (zip t1_hat hint)).

(** [None] only when a rejection loop runs out of fuel. *)
Definition verify (fuel : nat) (public_key message signature : bytes) : option bool :=
  if negb (length public_key =? PUBLIC_KEY_LEN)%nat || negb (length signature =? SIGNATURE_LEN)%nat then Some false
  else
    let '(rho, t1) := pk_decode public_key in
    match sig_decode signature with
    | None => Some false
    | Some (c_tilde, z, hint) =>
        if GAMMA1 - BETA <=? max_all norm_inf z then Some false
        else
          a ← expand_a fuel rho;
          let tr := hash [public_key] 64 in
          let mu := message_mu tr message in
          c ← sample_in_ball fuel c_tilde;
          let w1 := recover_w1 a (ntt c) t1 z hint in
          Some (bool_decide (hash [mu; w1_encode w1] C_TILDE_LEN = c_tilde))
    end.

End Dsa.
