(* ===== verification/MldsaFacts.v ===== *)
(** * The number-theoretic transform of ML-DSA

    The complete transform evaluates a polynomial at the 256 roots of
    X^256 + 1 modulo 8380417, so coefficientwise products of transforms are
    transforms of negacyclic products. *)

From S2P Require Import Prelude Ntt Keccak Mldsa.
#[local] Open Scope ntt_scope.

Abbreviation veq := (Forall2 (cong Q)).

(** ** Modular helpers *)

Lemma Q_pos : 0 < Q.
Proof. reflexivity. Qed.
Lemma cong_sub_Q x : x - Q ≡[Q] x.
Proof. transitivity (x + -1 * Q); [apply cong_of_eq; ring | apply cong_plus_mul]. Qed.
Lemma cong_add_Q x : x + Q ≡[Q] x.
Proof. transitivity (x + 1 * Q); [apply cong_of_eq; ring | apply cong_plus_mul]. Qed.
Lemma add_mod_cong a b : add_mod a b ≡[Q] a + b.
Proof. unfold add_mod. destruct (Q <=? a + b); [apply cong_sub_Q | reflexivity]. Qed.
Lemma sub_mod_cong a b : sub_mod a b ≡[Q] a - b.
Proof. unfold sub_mod. destruct (a - b <? 0); [apply cong_add_Q | reflexivity]. Qed.
Lemma mul_mod_cong a b : mul_mod a b ≡[Q] a * b.
Proof. apply mod_cong. Qed.
Lemma center_cong a : center a ≡[Q] a.
Proof. unfold center. destruct (Q / 2 <? a); [apply cong_sub_Q | reflexivity]. Qed.

Lemma add_mod_range a b : 0 ≤ a < Q → 0 ≤ b < Q → 0 ≤ add_mod a b < Q.
Proof. intros Ha Hb. unfold add_mod. destruct (Z.leb_spec Q (a + b)); lia. Qed.
Lemma sub_mod_range a b : 0 ≤ a < Q → 0 ≤ b < Q → 0 ≤ sub_mod a b < Q.
Proof. intros Ha Hb. unfold sub_mod. destruct (Z.ltb_spec (a - b) 0); lia. Qed.
Lemma mod_Q_range a : 0 ≤ a mod Q < Q.
Proof. apply Z.mod_pos_bound. reflexivity. Qed.
Lemma mul_mod_range a b : 0 ≤ mul_mod a b < Q.
Proof. apply mod_Q_range. Qed.
Lemma range_cong_eq a b : 0 ≤ a < Q → 0 ≤ b < Q → a ≡[Q] b → a = b.
Proof. intros Ha Hb H. unfold cong in H. by rewrite !Z.mod_small in H. Qed.

(** ** Evaluation at a point *)

Definition evl (r : Z) (f : list Z) : Z := foldr (λ c acc, c + r * acc) 0 f.

Lemma evl_cons r c f : evl r (c :: f) = c + r * evl r f.
Proof. reflexivity. Qed.
Lemma evl_proper r a b : veq a b → evl r a ≡[Q] evl r b.
Proof. induction 1 as [|x y a b Hxy _ IH]; [done|]. rewrite !evl_cons. by rewrite Hxy, IH. Qed.
Lemma evl_app r a b : evl r (a ++ b) = evl r a + r ^ Z.of_nat (length a) * evl r b.
Proof.
  induction a as [|x a IH].
  { change (evl r []) with 0. change (r ^ Z.of_nat (length [])) with 1. rewrite app_nil_l. ring. }
  rewrite <- app_comm_cons, !evl_cons, IH.
  cbn [length]. rewrite Nat2Z.inj_succ, Z.pow_succ_r by lia. ring.
Qed.
Lemma evl_lin r c a b : length a = length b → evl r (lin c a b) = evl r a + c * evl r b.
Proof.
  revert b. induction a as [|x a IH]; intros [|y b] H; try done; [cbn; ring|].
  unfold lin. cbn [zip_with]. fold (lin c a b). rewrite !evl_cons, IH by (simpl in H; lia). ring.
Qed.
Lemma evl_fold r z lo hi m :
  length lo = (1 * m)%nat → length hi = (1 * m)%nat → r ^ Z.of_nat m ≡[Q] z →
  evl r (lo ++ hi) ≡[Q] evl r (lin z lo hi).
Proof. intros Hl Hh Hz. rewrite evl_app, evl_lin by lia. replace (length lo) with m by lia. by rewrite Hz. Qed.

(** ** The layers *)

Definition zeta (i : nat) : Z := zetas !!! i.
Definition nttF (z x y : Z) : Z := add_mod x (mul_mod z y).
Definition nttG (z x y : Z) : Z := sub_mod x (mul_mod z y).
Definition invF (z x y : Z) : Z := add_mod x y.
Definition invG (z x y : Z) : Z := mul_mod (Q - z) (sub_mod x y).

Lemma dsa_nttF_spec z x y : nttF z x y ≡[Q] x + z * y.
Proof. unfold nttF. by rewrite add_mod_cong, mul_mod_cong. Qed.
Lemma dsa_nttG_spec z x y : nttG z x y ≡[Q] x - z * y.
Proof. unfold nttG. by rewrite sub_mod_cong, mul_mod_cong. Qed.
Lemma invF_spec z x y : invF z x y ≡[Q] x + y.
Proof. apply add_mod_cong. Qed.
Lemma invG_spec z x y : invG z x y ≡[Q] z * (y - x).
Proof.
  unfold invG. rewrite mul_mod_cong, sub_mod_cong.
  transitivity (z * (y - x) + (x - y) * Q); [apply cong_of_eq; ring | apply cong_plus_mul].
Qed.

Lemma inv_butterfly_spec z len a j :
  (0 < len)%nat → inv_butterfly (Q - z) len a j = butterfly (invF z) (invG z) len a j.
Proof. intros. unfold inv_butterfly, butterfly. by rewrite list_insert_insert_ne by lia. Qed.

Definition NL (k : nat) (a : Poly) : Poly := (ntt_layer ((2 ^ k - 1)%nat, a) (2 ^ (7 - k))).2.
Definition IL (k : nat) (a : Poly) : Poly := (inv_layer ((2 ^ S k)%nat, a) (2 ^ (7 - k))).2.

Ltac by_layer k := do 8 (destruct k as [|k]; [first [reflexivity | vm_compute; reflexivity]|]); lia.

Lemma dsa_layer_count k : (k < 8)%nat → (N / (2 * 2 ^ (7 - k)) = 2 ^ k)%nat.
Proof. intros Hk. by_layer k. Qed.
Lemma dsa_layer_len k : (k < 8)%nat → (2 ^ (7 - k) = 1 * 2 ^ (8 - S k))%nat.
Proof. intros Hk. by_layer k. Qed.
Lemma dsa_layer_len_pos k : (0 < 2 ^ (7 - k))%nat.
Proof. apply Nat.neq_0_lt_0. by apply Nat.pow_nonzero. Qed.
Lemma dsa_pow2_pos k : (0 < 2 ^ k)%nat.
Proof. apply Nat.neq_0_lt_0. by apply Nat.pow_nonzero. Qed.

Lemma dsa_NL_spec k bs : (k < 8)%nat →
  Forall (λ b, length b = 2 * (1 * 2 ^ (8 - S k)))%nat bs → length bs = (2 ^ k)%nat →
  NL k (concat bs) = concat (layer_op nttF nttG (1 * 2 ^ (8 - S k)) (layer_zetas zeta k) bs).
Proof.
  intros Hk Hbs Hn. rewrite <- dsa_layer_len in * by done. unfold NL, ntt_layer, block_starts.
  rewrite dsa_layer_count by done.
  pose proof (layer_blocks nttF nttG (λ i, zeta (S i)) S (2 ^ (7 - k)) bs (2 ^ k - 1) (dsa_layer_len_pos k) Hbs) as E.
  rewrite Hn in E.
  transitivity (concat (layer_op nttF nttG (2 ^ (7 - k))
    (map (λ n, zeta (S (Nat.iter n S (2 ^ k - 1)%nat))) (seq 0 (2 ^ k))) bs)).
  - exact (f_equal snd E).
  - unfold layer_zetas. do 2 f_equal. apply map_ext. intros n. rewrite iter_S. f_equal.
    pose proof (dsa_pow2_pos k). lia.
Qed.

Definition ilayer_zetas (k : nat) : list Z := map (λ n, zeta (2 ^ S k - 1 - n)%nat) (seq 0 (2 ^ k)).

Lemma dsa_IL_spec k bs : (k < 8)%nat →
  Forall (λ b, length b = 2 * 2 ^ (7 - k))%nat bs → length bs = (2 ^ k)%nat →
  IL k (concat bs) = concat (layer_op invF invG (2 ^ (7 - k)) (ilayer_zetas k) bs).
Proof.
  intros Hk Hbs Hn. unfold IL, inv_layer, block_starts. rewrite dsa_layer_count by done.
  pose proof (layer_blocks invF invG (λ i, zeta (Nat.pred i)) Nat.pred (2 ^ (7 - k)) bs (2 ^ S k) (dsa_layer_len_pos k) Hbs) as E.
  rewrite Hn in E.
  transitivity (concat (layer_op invF invG (2 ^ (7 - k))
    (map (λ n, zeta (Nat.pred (Nat.iter n Nat.pred (2 ^ S k)%nat))) (seq 0 (2 ^ k))) bs)).
  - etransitivity; [|exact (f_equal snd E)]. f_equal. apply fold_left_ext_all. intros [i a] start. f_equal.
    apply fold_left_ext_all. intros a' j. apply inv_butterfly_spec, dsa_layer_len_pos.
  - unfold ilayer_zetas. do 2 f_equal. apply map_ext. intros n. rewrite iter_pred. f_equal. lia.
Qed.

Lemma dsa_ntt_layer_NL k a : (k < 8)%nat → ntt_layer ((2 ^ k - 1)%nat, a) (2 ^ (7 - k)) = ((2 ^ S k - 1)%nat, NL k a).
Proof.
  intros Hk. apply injective_projections; [|done]. unfold ntt_layer.
  rewrite (fold_index S), iter_S. by_layer k.
Qed.
Lemma inv_layer_IL k a : (k < 8)%nat → inv_layer ((2 ^ S k)%nat, a) (2 ^ (7 - k)) = ((2 ^ k)%nat, IL k a).
Proof.
  intros Hk. apply injective_projections; [|done]. unfold inv_layer.
  rewrite (fold_index Nat.pred), iter_pred. by_layer k.
Qed.

Lemma dsa_ntt_layers f : ntt f = layers NL 8 f.
Proof.
  cbn [layers]. unfold ntt. cbn [fold_left].
  by rewrite (dsa_ntt_layer_NL 0), (dsa_ntt_layer_NL 1), (dsa_ntt_layer_NL 2), (dsa_ntt_layer_NL 3), (dsa_ntt_layer_NL 4),
    (dsa_ntt_layer_NL 5), (dsa_ntt_layer_NL 6), (dsa_ntt_layer_NL 7) by lia.
Qed.
Lemma inv_ntt_undo f : inv_ntt f = map (λ x, mul_mod x n_inverse) (undo IL 8 f).
Proof.
  cbn [undo]. unfold inv_ntt. cbn [fold_left].
  by rewrite (inv_layer_IL 7), (inv_layer_IL 6), (inv_layer_IL 5), (inv_layer_IL 4), (inv_layer_IL 3),
    (inv_layer_IL 2), (inv_layer_IL 1), (inv_layer_IL 0) by lia.
Qed.

(** ** The transform evaluates *)

Lemma dsa_zeta_square k : (k < 8)%nat → Forall2 (λ z c, z * z ≡[Q] c) (layer_zetas zeta k) (tags zeta k).
Proof.
  intros Hk. apply (forall2_congb Q (λ z, z * z) (λ c, c)); [|by rewrite length_layer_zetas, length_tags].
  by_layer k.
Qed.

(** The 256 roots, in the order of the transform. *)
Definition roots : list Z := tags zeta 8.
Lemma length_roots : length roots = N.
Proof. apply length_tags. Qed.
Lemma roots_order i : (i < N)%nat → (roots !!! i) ^ 256 ≡[Q] -1.
Proof.
  intros Hi.
  assert (H : Forall (λ g, congb Q (square_mod Q 8 g) (-1) = true) roots).
  { apply List.Forall_forall, forallb_forall. vm_compute. reflexivity. }
  etransitivity; [apply (square_mod_pow Q 8)|].
  apply congb_true. apply (Forall_lookup_total_lt _ roots i N H); [apply length_roots | exact Hi].
Qed.

Lemma dsa_ntt_blocks f : length f = N →
  ∃ bs, ntt f = concat bs ∧ Forall2 (block_inv Q (cong Q) evl 1 f 1) roots bs.
Proof.
  intros Hf. rewrite dsa_ntt_layers.
  apply (layers_inv Q (cong Q) evl 1 ltac:(lia) evl_proper evl_fold nttF nttG dsa_nttF_spec dsa_nttG_spec zeta 8 NL
           dsa_NL_spec dsa_zeta_square f 8); [lia | exact Hf].
Qed.

Lemma singleton_blocks f rs bs : Forall2 (block_inv Q (cong Q) evl 1 f 1) rs bs →
  length (concat bs) = length rs ∧ ∀ i, (i < length rs)%nat → concat bs !!! i ≡[Q] evl (rs !!! i) f.
Proof.
  induction 1 as [|r b rs bs [Hl Hev] H [IHl IH]]; [split; [done | simpl; lia]|].
  destruct b as [|u [|]]; try done. simpl. split; [lia|]. intros [|i] Hi.
  - simpl. etransitivity; [|apply (Hev r); change (Z.of_nat 1) with 1; by rewrite Z.pow_1_r].
    apply cong_of_eq. simpl. ring.
  - simpl. apply IH. lia.
Qed.

Lemma dsa_ntt_spec f : length f = N →
  length (ntt f) = N ∧ ∀ i, (i < N)%nat → ntt f !!! i ≡[Q] evl (roots !!! i) f.
Proof.
  intros Hf. destruct (dsa_ntt_blocks f Hf) as (bs & E & H). rewrite E. rewrite <- length_roots.
  by apply singleton_blocks.
Qed.

(** ** Linearity and the inverse transform *)

Lemma dsa_block_starts_range len :
  (0 < len)%nat → Forall (λ start, start + 2 * len ≤ N)%nat (block_starts len).
Proof.
  intros Hlen. unfold block_starts. apply Forall_fmap, seq_all. intros b Hb. unfold compose.
  pose proof (Nat.Div0.mul_div_le N (2 * len)). nia.
Qed.

Lemma dsa_linear_layer (L : nat * Poly → nat * Poly) (T : Poly → Poly) i :
  tracked Q N L → (∀ a, T a = (L (i, a)).2) → linear Q N T.
Proof.
  intros H E. destruct (H i) as (i' & U & HU & EU). eapply linear_ext; [|exact HU].
  intros a. by rewrite E, EU.
Qed.

Lemma dsa_linear_NL k : (k < 8)%nat → linear Q N (NL k).
Proof.
  intros Hk. eapply (dsa_linear_layer _ _ (2 ^ k - 1)); [|reflexivity].
  apply (tracked_layer Q N (λ i, nttF (zeta (S i))) (λ i, nttG (zeta (S i))) S);
    [| |apply dsa_block_starts_range; apply dsa_layer_len_pos|apply dsa_layer_len_pos].
  - intros i. exists 1, (zeta (S i)). intros x y. rewrite dsa_nttF_spec. apply cong_of_eq. ring.
  - intros i. exists 1, (- zeta (S i)). intros x y. rewrite dsa_nttG_spec. apply cong_of_eq. ring.
Qed.

Lemma dsa_linear_IL k : (k < 8)%nat → linear Q N (IL k).
Proof.
  intros Hk. pose proof (dsa_layer_len_pos k) as Hlen.
  assert (H : tracked Q N (λ ia, fold_left (λ ia start, (Nat.pred ia.1,
    fold_left (butterfly (invF (zeta (Nat.pred ia.1))) (invG (zeta (Nat.pred ia.1))) (2 ^ (7 - k))) (seq start (2 ^ (7 - k))) ia.2))
      (block_starts (2 ^ (7 - k))) ia)).
  { apply (tracked_layer Q N (λ i, invF (zeta (Nat.pred i))) (λ i, invG (zeta (Nat.pred i))) Nat.pred);
      [| |by apply dsa_block_starts_range|done].
    - intros i. exists 1, 1. intros x y. rewrite invF_spec. apply cong_of_eq. ring.
    - intros i. exists (- zeta (Nat.pred i)), (zeta (Nat.pred i)). intros x y. rewrite invG_spec. apply cong_of_eq. ring. }
  apply (dsa_linear_layer _ _ (2 ^ S k)%nat H). intros a. unfold IL, inv_layer.
  f_equal. apply fold_left_ext_all. intros [i b] start. f_equal.
  apply fold_left_ext_all. intros a' j. by apply inv_butterfly_spec.
Qed.

Lemma linear_inv_ntt : linear Q N inv_ntt.
Proof.
  eapply linear_ext; [intros a; symmetry; apply inv_ntt_undo|].
  apply (linear_compose Q N (undo IL 8)); [by apply (linear_undo Q N IL 8 dsa_linear_IL)|].
  apply (linear_map Q N _ n_inverse). intros x. apply mul_mod_cong.
Qed.

Lemma dsa_linear_ntt : linear Q N ntt.
Proof.
  eapply linear_ext; [intros a; symmetry; apply dsa_ntt_layers|].
  by apply (linear_layers Q N NL 8 dsa_linear_NL).
Qed.

(** Both layers on the blocks of a vector. *)
Lemma dsa_layer_split k a : (k < 8)%nat → length a = N →
  ∃ bs, a = concat bs ∧ Forall (λ b : list Z, length b = 2 * 2 ^ (7 - k))%nat bs ∧ length bs = (2 ^ k)%nat.
Proof.
  intros Hk Ha. apply split_blocks. rewrite Ha. by_layer k.
Qed.

Lemma dsa_NL_blocks k bs : (k < 8)%nat →
  Forall (λ b, length b = 2 * 2 ^ (7 - k))%nat bs → length bs = (2 ^ k)%nat →
  NL k (concat bs) = concat (layer_op nttF nttG (2 ^ (7 - k)) (layer_zetas zeta k) bs) ∧
  Forall (λ b, length b = 2 * 2 ^ (7 - k))%nat (layer_op nttF nttG (2 ^ (7 - k)) (layer_zetas zeta k) bs) ∧
  length (layer_op nttF nttG (2 ^ (7 - k)) (layer_zetas zeta k) bs) = (2 ^ k)%nat.
Proof.
  intros Hk Hbs Hn. split; [rewrite (dsa_layer_len k) in * by done; by apply dsa_NL_spec|].
  rewrite <- Hn. apply layer_op_lengths; [done|]. by rewrite length_layer_zetas.
Qed.

Lemma dsa_length_NL k a : (k < 8)%nat → length a = N → length (NL k a) = N.
Proof.
  intros Hk Ha. destruct (dsa_layer_split k a Hk Ha) as (bs & -> & Hbs & Hn).
  destruct (dsa_NL_blocks k bs Hk Hbs Hn) as (-> & Hl & Hn').
  rewrite (length_concat_const _ _ Hl), Hn'. by_layer k.
Qed.

Lemma dsa_zetas_inverse k : (k < 8)%nat → Forall2 (λ z z', z * z' ≡[Q] -1) (layer_zetas zeta k) (ilayer_zetas k).
Proof.
  intros Hk. apply Forall2_fmap, Forall_Forall2_diag, seq_all. intros n Hn. apply congb_true. unfold compose.
  assert (H : forallb (λ n, congb Q (zeta (n + 2 ^ k)%nat * zeta (2 ^ S k - 1 - n)%nat) (-1)) (seq 0 (2 ^ k)) = true)
    by by_layer k.
  rewrite forallb_forall in H. apply (H n), in_seq. lia.
Qed.

Lemma dsa_IL_NL k a : (k < 8)%nat → length a = N → veq (IL k (NL k a)) (vscale 2 a).
Proof.
  intros Hk Ha. destruct (dsa_layer_split k a Hk Ha) as (bs & -> & Hbs & Hn).
  destruct (dsa_NL_blocks k bs Hk Hbs Hn) as (-> & Hl & Hn'). rewrite dsa_IL_spec by done.
  apply (layer_op_inverse Q nttF nttG invF invG dsa_nttF_spec dsa_nttG_spec invF_spec invG_spec);
    [by apply dsa_zetas_inverse | by rewrite length_layer_zetas | done].
Qed.

Lemma dsa_NL_IL k a : (k < 8)%nat → length a = N → veq (NL k (IL k a)) (vscale 2 a).
Proof.
  intros Hk Ha. destruct (dsa_layer_split k a Hk Ha) as (bs & -> & Hbs & Hn). rewrite dsa_IL_spec by done.
  destruct (layer_op_lengths invF invG (2 ^ (7 - k)) (ilayer_zetas k) bs Hbs) as [Hl Hn'].
  { unfold ilayer_zetas. by rewrite length_map, length_seq. }
  destruct (dsa_NL_blocks k _ Hk Hl) as [-> _]; [by rewrite Hn'|].
  apply (layer_op_inverse_r Q nttF nttG invF invG dsa_nttF_spec dsa_nttG_spec invF_spec invG_spec);
    [by apply dsa_zetas_inverse | by rewrite length_layer_zetas | done].
Qed.

Lemma linear_scale_ninv : linear Q N (map (λ x, mul_mod x n_inverse)).
Proof. apply (linear_map Q N _ n_inverse). intros x. apply mul_mod_cong. Qed.

Lemma map_scale_veq_ninv l : veq (map (λ x, mul_mod x n_inverse) l) (vscale n_inverse l).
Proof. induction l as [|x l IH]; constructor; [rewrite mul_mod_cong; apply cong_of_eq; ring | exact IH]. Qed.

Lemma map_scale_ninv f : veq (map (λ x, mul_mod x n_inverse) (vscale 256 f)) f.
Proof. apply (map_scale_veq Q _ n_inverse); [intros x; apply mul_mod_cong | by apply congb_true]. Qed.

Lemma inv_ntt_ntt_veq f : length f = N → veq (inv_ntt (ntt f)) f.
Proof.
  intros Hf. rewrite inv_ntt_undo, dsa_ntt_layers.
  assert (E : veq (undo IL 8 (layers NL 8 f)) (vscale 256 f)).
  { apply (undo_layers Q N NL IL 8 dsa_length_NL dsa_linear_IL dsa_linear_NL dsa_NL_IL dsa_IL_NL f 8 1); [lia | done | by rewrite vscale_1]. }
  eapply veq_trans; [apply (linear_veq _ _ _ linear_scale_ninv); [|exact E]|apply map_scale_ninv].
  rewrite (length_veq _ _ _ E). unfold vscale. by rewrite length_map.
Qed.

Lemma ntt_inv_ntt_veq f : length f = N → veq (ntt (inv_ntt f)) f.
Proof.
  intros Hf. rewrite inv_ntt_undo, dsa_ntt_layers.
  pose proof (linear_layers Q N NL 8 dsa_linear_NL 8 ltac:(lia)) as HL.
  pose proof (linear_length _ _ _ (linear_undo Q N IL 8 dsa_linear_IL 8 ltac:(lia)) f Hf) as Hu.
  assert (E : veq (map (λ x, mul_mod x n_inverse) (undo IL 8 f)) (vscale n_inverse (undo IL 8 f))).
  { apply map_scale_veq_ninv. }
  eapply veq_trans; [apply (linear_veq _ _ _ HL); [by rewrite length_map | exact E]|].
  eapply veq_trans; [by apply (linear_scale Q N)|].
  eapply veq_trans; [apply vscale_veq, (layers_undo Q N NL IL 8 dsa_length_NL dsa_linear_IL dsa_linear_NL dsa_NL_IL dsa_IL_NL); [lia | done]|].
  rewrite vscale_vscale. apply vscale_unit. by apply congb_true.
Qed.


Lemma reduced_inv_ntt f : reduced Q (inv_ntt f).
Proof. unfold reduced. rewrite inv_ntt_undo. apply Forall_map_all. intros x. apply mul_mod_range. Qed.

Lemma dsa_length_ntt f : length f = N → length (ntt f) = N.
Proof. intros Hf. by destruct (dsa_ntt_spec f Hf). Qed.
Lemma ntt_at f i : length f = N → (i < N)%nat → ntt f !!! i ≡[Q] evl (roots !!! i) f.
Proof. intros Hf Hi. destruct (dsa_ntt_spec f Hf) as [_ H]. by apply H. Qed.
Lemma length_inv_ntt f : length f = N → length (inv_ntt f) = N.
Proof. apply (linear_length _ _ _ linear_inv_ntt). Qed.

(** ** Coefficientwise operations *)

Lemma lookup_zip_total (f : Z → Z → Z) a b n i : length a = n → length b = n → (i < n)%nat →
  zip_with f a b !!! i = f (a !!! i) (b !!! i).
Proof.
  intros Ha Hb Hi. rewrite !list_lookup_total_alt, lookup_zip_with.
  destruct (lookup_lt_is_Some_2 a i) as [x Hx]; [lia|]. destruct (lookup_lt_is_Some_2 b i) as [y Hy]; [lia|].
  by rewrite Hx, Hy.
Qed.
Lemma length_zip_ok {A B C} (f : A → B → C) a b n : length a = n → length b = n → length (zip_with f a b) = n.
Proof. intros. rewrite length_zip_with. lia. Qed.
Lemma dsa_length_poly_add a b : length a = N → length b = N → length (poly_add a b) = N.
Proof. apply length_zip_ok. Qed.
Lemma dsa_length_poly_sub a b : length a = N → length b = N → length (poly_sub a b) = N.
Proof. apply length_zip_ok. Qed.
Lemma length_pointwise a b : length a = N → length b = N → length (poly_pointwise a b) = N.
Proof. apply length_zip_ok. Qed.
Lemma dsa_poly_add_at a b i : length a = N → length b = N → (i < N)%nat → poly_add a b !!! i ≡[Q] a !!! i + b !!! i.
Proof. intros Ha Hb Hi. unfold poly_add. rewrite (lookup_zip_total _ a b N) by done. apply add_mod_cong. Qed.
Lemma dsa_poly_sub_at a b i : length a = N → length b = N → (i < N)%nat → poly_sub a b !!! i ≡[Q] a !!! i - b !!! i.
Proof. intros Ha Hb Hi. unfold poly_sub. rewrite (lookup_zip_total _ a b N) by done. apply sub_mod_cong. Qed.
Lemma pointwise_at a b i : length a = N → length b = N → (i < N)%nat → poly_pointwise a b !!! i ≡[Q] a !!! i * b !!! i.
Proof. intros Ha Hb Hi. unfold poly_pointwise. rewrite (lookup_zip_total _ a b N) by done. apply mul_mod_cong. Qed.

Lemma reduced_zip (f : Z → Z → Z) a b : (∀ x y, 0 ≤ x < Q → 0 ≤ y < Q → 0 ≤ f x y < Q) →
  reduced Q a → reduced Q b → reduced Q (zip_with f a b).
Proof.
  intros Hf Ha. revert b. induction Ha as [|x a Hx _ IH]; intros [|y b] Hb; constructor.
  - apply list.Forall_cons in Hb as [Hy _]. by apply Hf.
  - apply IH. by apply list.Forall_cons in Hb as [_ ?].
Qed.
Lemma dsa_reduced_poly_add a b : reduced Q a → reduced Q b → reduced Q (poly_add a b).
Proof. apply reduced_zip, add_mod_range. Qed.
Lemma dsa_reduced_poly_sub a b : reduced Q a → reduced Q b → reduced Q (poly_sub a b).
Proof. apply reduced_zip, sub_mod_range. Qed.

Lemma dsa_veq_pointwise a b n : length a = n → length b = n → (∀ i, (i < n)%nat → a !!! i ≡[Q] b !!! i) → veq a b.
Proof.
  intros Ha Hb H. apply Forall2_same_length_lookup_2; [lia|]. intros j x y Hx Hy.
  assert (Hj : (j < n)%nat) by (apply lookup_lt_Some in Hx; lia). specialize (H j Hj).
  by rewrite (list_lookup_total_correct _ _ _ Hx), (list_lookup_total_correct _ _ _ Hy) in H.
Qed.

(** ** The negacyclic product *)

Lemma evl_rot r l : r ^ 256 ≡[Q] -1 → length l = N → evl r (rot l) ≡[Q] r * evl r l.
Proof.
  intros Hr Hl. destruct (snoc_inv l 255 Hl) as (m & x & -> & Hm). rewrite rot_snoc, evl_cons, evl_app, Hm.
  assert (E : r * r ^ Z.of_nat 255 ≡[Q] -1).
  { rewrite <- Hr. apply cong_of_eq. change 256 with (Z.succ (Z.of_nat 255)). symmetry. apply Z.pow_succ_r. lia. }
  change (evl r [x]) with (x + r * 0). revert E. generalize (r ^ Z.of_nat 255) (evl r m). intros t u E.
  transitivity (r * u + x * (r * t)); [|apply cong_of_eq; ring]. rewrite E. apply cong_of_eq. ring.
Qed.
Lemma evl_zip_scale r c a b : length a = length b → evl r (zip_with (λ x y, c * x + y) a b) = c * evl r a + evl r b.
Proof.
  revert b. induction a as [|x a IH]; intros [|y b] H; try done; [cbn; ring|].
  cbn [zip_with]. rewrite !evl_cons, IH by (simpl in H; lia). ring.
Qed.
Lemma evl_negamul r a b : r ^ 256 ≡[Q] -1 → length b = N → evl r (negamul a b) ≡[Q] evl r a * evl r b.
Proof.
  intros Hr Hb. induction a as [|c a IH]; cbn [negamul].
  - replace (evl r (map (λ _, 0) b)) with 0; [apply cong_of_eq; cbn; ring|].
    clear. induction b as [|y b IH]; [done|]. cbn [map]. rewrite evl_cons, <- IH. ring.
  - pose proof (length_negamul a b 255 Hb) as Hn. rewrite evl_zip_scale by (rewrite (length_rot _ 255 Hn); exact Hb).
    rewrite evl_rot, IH, evl_cons by done. apply cong_of_eq. ring.
Qed.

Lemma ntt_negamul_at a b i : length a = N → length b = N → (i < N)%nat →
  ntt (negamul a b) !!! i ≡[Q] ntt a !!! i * ntt b !!! i.
Proof.
  intros Ha Hb Hi. rewrite !ntt_at by (done || by apply (length_negamul a b 255)).
  apply evl_negamul; [by apply roots_order | done].
Qed.

Lemma inv_ntt_pointwise a b : length a = N → length b = N →
  veq (inv_ntt (poly_pointwise (ntt a) (ntt b))) (negamul a b).
Proof.
  intros Ha Hb. pose proof (length_negamul a b 255 Hb) as Hn.
  pose proof (dsa_length_ntt a Ha) as Hla. pose proof (dsa_length_ntt b Hb) as Hlb.
  eapply veq_trans; [apply (linear_veq _ _ _ linear_inv_ntt (poly_pointwise (ntt a) (ntt b)) (ntt (negamul a b)));
    [by apply length_pointwise|]|by apply inv_ntt_ntt_veq].
  apply (dsa_veq_pointwise _ _ N); [by apply length_pointwise | by apply dsa_length_ntt|]. intros i Hi.
  rewrite ntt_negamul_at by done. by apply pointwise_at.
Qed.

(** The transform pair of ML-DSA is right: the inverse undoes the
    transform on every polynomial with coefficients below 8380417, and the
    inverse transform of the coefficientwise products of two transforms is
    the product modulo X^256 + 1, reduced, for every two polynomials. *)
Theorem dsa_ntt_multiplies a b :
  length a = N → length b = N →
  (reduced Q a → inv_ntt (ntt a) = a) ∧
  inv_ntt (poly_pointwise (ntt a) (ntt b)) = map (λ x, x mod Q) (negamul a b).
Proof.
  intros Ha Hb. split.
  - intros Hr. apply (veq_reduced Q); [apply reduced_inv_ntt | done | by apply inv_ntt_ntt_veq].
  - apply (veq_reduced Q); [apply reduced_inv_ntt | apply Forall_map_all; apply mod_Q_range|].
    eapply veq_trans; [by apply inv_ntt_pointwise|].
    clear. induction (negamul a b) as [|x l IH]; constructor; [|exact IH]. symmetry. apply mod_cong.
Qed.

Lemma dsa_ntt_multiplies_witness :
  let a := map (λ i, (7 * Z.of_nat i + 3) mod Q) (seq 0 N) in
  inv_ntt (ntt a) = a ∧ inv_ntt (poly_pointwise (ntt a) (ntt a)) = map (λ x, x mod Q) (negamul a a).
Proof.
  intros a. destruct (dsa_ntt_multiplies a a) as [H1 H2]; [reflexivity | reflexivity|].
  split; [|exact H2]. apply H1, Forall_map_all. intros i. apply mod_Q_range.
Defined.
