(* ===== verification/MldsaRound.v ===== *)
(** * Rounding and hints of ML-DSA

    Rounding to high and low bits, and what a hint recovers. *)

From S2P Require Import Prelude Ntt Keccak Mldsa MldsaFacts.
#[local] Open Scope ntt_scope.

Definition ALPHA : Z := 523776.
Lemma alpha_eq : 2 * GAMMA2 = ALPHA.
Proof. reflexivity. Qed.

(** [r1] and [r0] recompose [r], up to one multiple of [Q] in the corner. *)
Definition decomposed (r r1 r0 : Z) : Prop :=
  0 ≤ r1 < 16 ∧
  ((r = r1 * ALPHA + r0 ∧ - GAMMA2 < r0 ≤ GAMMA2) ∨ (r1 = 0 ∧ r = Q + r0 ∧ - GAMMA2 ≤ r0 < 0)).

Lemma decompose_spec r : decomposed (r mod Q) (high_bits r) (low_bits r).
Proof.
  unfold high_bits, low_bits, decompose. pose proof (mod_Q_range r) as Hr. revert Hr.
  generalize (r mod Q). clear r. intros r Hr. rewrite alpha_eq. change GAMMA2 with 261888.
  rewrite Z.rem_mod_nonneg by (unfold ALPHA; lia).
  pose proof (Z.div_mod r ALPHA ltac:(discriminate)) as Hd. pose proof (Z.mod_pos_bound r ALPHA ltac:(reflexivity)) as Hm.
  revert Hd Hm. generalize (r / ALPHA) (r mod ALPHA). unfold ALPHA, Q in *. intros k m Hd Hm.
  unfold decomposed. change GAMMA2 with 261888. unfold ALPHA, Q.
  destruct (Z.ltb_spec 261888 m) as [Hlt|Hge].
  - destruct (Z.eqb_spec (r - (m - 523776)) (8380417 - 1)) as [E|E]; cbn [fst snd].
    + split; [lia|]. right. lia.
    + replace (r - (m - 523776)) with ((k + 1) * 523776) by lia. rewrite Z.quot_mul by lia.
      split; [lia|]. left. lia.
  - destruct (Z.eqb_spec (r - m) (8380417 - 1)) as [E|E]; cbn [fst snd].
    + split; [lia|]. right. lia.
    + replace (r - m) with (k * 523776) by lia. rewrite Z.quot_mul by lia. split; [lia|]. left. lia.
Qed.

Lemma decompose_cong r r' : r ≡[Q] r' → decompose r = decompose r'.
Proof. intros H. unfold decompose. unfold cong in H. by rewrite H. Qed.
Lemma high_bits_cong r r' : r ≡[Q] r' → high_bits r = high_bits r'.
Proof. intros H. unfold high_bits. by rewrite (decompose_cong r r'). Qed.
Lemma low_bits_cong r r' : r ≡[Q] r' → low_bits r = low_bits r'.
Proof. intros H. unfold low_bits. by rewrite (decompose_cong r r'). Qed.

(** A change of [z] in the argument, at the level of representatives. *)
Lemma mod_shift r z : Z.abs z < Q → ∃ e, (e = -1 ∨ e = 0 ∨ e = 1) ∧ (r + z) mod Q = r mod Q + z + e * Q.
Proof.
  intros Hz. pose proof (mod_Q_range r) as Hr. pose proof (mod_Q_range (r + z)) as Hr'.
  rewrite <- Zplus_mod_idemp_l in *. revert Hr Hr'. generalize (r mod Q). intros s Hs Hs'.
  exists (- ((s + z) / Q)). pose proof (Z.div_mod (s + z) Q ltac:(discriminate)) as Hd.
  revert Hd Hs'. generalize ((s + z) / Q) ((s + z) mod Q). intros k m Hd Hm.
  split; [|lia]. assert (-1 ≤ k ≤ 1) by (unfold Q in *; lia). lia.
Qed.

(** Small changes below the rounding bound keep the high bits. *)
Lemma high_bits_stable u v :
  Z.abs v ≤ BETA → Z.abs (low_bits u) < GAMMA2 - BETA → high_bits (u + v) = high_bits u.
Proof.
  intros Hv Hl. change BETA with 196 in *. change GAMMA2 with 261888 in *.
  pose proof (decompose_spec u) as Hu. pose proof (decompose_spec (u + v)) as Hw.
  destruct (mod_shift u v) as (e & He & E); [unfold Q; lia|]. rewrite E in Hw. clear E.
  revert Hu Hw Hl. generalize (high_bits u) (low_bits u) (high_bits (u + v)) (low_bits (u + v)) (u mod Q).
  intros u1 u0 w1 w0 r. unfold decomposed. change GAMMA2 with 261888. unfold ALPHA, Q. lia.
Qed.

(** The hint gives back the high bits of the changed argument. *)
Lemma use_make_hint z r : Z.abs z < GAMMA2 → use_hint (make_hint z r) r = high_bits (r + z).
Proof.
  intros Hz. unfold make_hint.
  rewrite (high_bits_cong (add_mod (r mod Q) (z mod Q)) (r + z)) by (by rewrite add_mod_cong, !mod_cong).
  unfold use_hint. change (Z.quot (Q - 1) (2 * GAMMA2)) with 16.
  rewrite (surjective_pairing (decompose r)). fold (high_bits r) (low_bits r).
  pose proof (decompose_spec r) as Hu. pose proof (decompose_spec (r + z)) as Hw. change GAMMA2 with 261888 in *.
  destruct (mod_shift r z) as (e & He & E); [unfold Q; lia|]. rewrite E in Hw. clear E.
  revert Hu Hw. generalize (high_bits r) (low_bits r) (high_bits (r + z)) (low_bits (r + z)) (r mod Q).
  intros u1 u0 w1 w0 s. unfold decomposed. change GAMMA2 with 261888. unfold ALPHA, Q. intros Hu Hw.
  destruct (Z.eqb_spec u1 w1) as [Ee|En]; cbn [negb]; [lia|].
  destruct (Z.ltb_spec 0 u0) as [Hp|Hn].
  - assert (w1 = u1 + 1 ∨ (w1 = 0 ∧ u1 = 15)) as [-> | [-> ->]] by lia; [|reflexivity].
    apply Z.rem_small. lia.
  - assert (w1 = u1 - 1 ∨ (w1 = 15 ∧ u1 = 0)) as [-> | [-> ->]] by lia; [|reflexivity].
    apply Z.mod_small. lia.
Qed.

(** The split of [t] into [t1 * 2 ^ 13 + t0]. *)
Lemma power2round_spec r :
  let '(r1, r0) := power2round r in
  r1 * 2 ^ D + r0 = r mod Q ∧ - 2 ^ (D - 1) < r0 ≤ 2 ^ (D - 1) ∧ 0 ≤ r1 < 2 ^ 10.
Proof.
  unfold power2round. pose proof (mod_Q_range r) as Hr. revert Hr. generalize (r mod Q). intros s Hs.
  change (2 ^ (D - 1)) with 4096. change (2 ^ D) with 8192. change D with 13.
  rewrite Z.shiftr_div_pow2, Z.shiftl_mul_pow2 by lia. change (2 ^ 13) with 8192. change (2 ^ 10) with 1024.
  pose proof (Z.div_mod (s + 4096 - 1) 8192 ltac:(discriminate)) as Hd.
  pose proof (Z.mod_pos_bound (s + 4096 - 1) 8192 ltac:(reflexivity)) as Hm.
  revert Hd Hm. generalize ((s + 4096 - 1) / 8192) ((s + 4096 - 1) mod 8192). unfold Q in *. intros k m. lia.
Qed.
