(* ===== verification/MldsaCodec.v ===== *)
(** * The encodings of ML-DSA

    Bit packing and its inverse, the coefficient codecs, the hint. *)

From S2P Require Import Prelude Ntt Keccak Mldsa MldsaFacts MldsaRound.
#[local] Open Scope ntt_scope.

(** ** Lists of digits *)

(** The number with these base [2 ^ w] digits, the lowest first. *)
Definition vnum (w : nat) (l : list Z) : Z := foldr (λ v acc, v + 2 ^ Z.of_nat w * acc) 0 l.
Definition bnum (b : bytes) : Z := vnum 8 (map byte.unsigned b).

Fixpoint digits (w count : nat) (t : Z) : list Z :=
  match count with
  | O => []
  | S count => t mod 2 ^ Z.of_nat w :: digits w count (t / 2 ^ Z.of_nat w)
  end.

Lemma digit_base_pos w : 0 < 2 ^ Z.of_nat w.
Proof. apply Z.pow_pos_nonneg; lia. Qed.
Lemma pow2_add a b : 2 ^ Z.of_nat (a + b) = 2 ^ Z.of_nat a * 2 ^ Z.of_nat b.
Proof. rewrite Nat2Z.inj_add. apply Z.pow_add_r; lia. Qed.

Lemma vnum_app w a b : vnum w (a ++ b) = vnum w a + 2 ^ Z.of_nat (w * length a) * vnum w b.
Proof.
  induction a as [|x a IH]; [rewrite Nat.mul_0_r; change (2 ^ Z.of_nat 0) with 1; change (vnum w []) with 0; rewrite app_nil_l; ring|].
  cbn [app vnum foldr length]. fold (vnum w (a ++ b)) (vnum w a). rewrite IH.
  replace (w * S (length a))%nat with (w + w * length a)%nat by lia. rewrite pow2_add. ring.
Qed.

Lemma digits_vnum w l : Forall (λ v, 0 ≤ v < 2 ^ Z.of_nat w) l → digits w (length l) (vnum w l) = l.
Proof.
  induction 1 as [|v l Hv _ IH]; [done|]. cbn [length digits vnum foldr]. fold (vnum w l).
  rewrite Z.mul_comm, Z_mod_plus_full, Z.div_add, Z.div_small, Z.mod_small by lia. by rewrite Z.add_0_l, IH.
Qed.

(** ** Packing *)

Lemma unsigned_of_Z x : byte.unsigned (byte.of_Z x) = x mod 2 ^ 8.
Proof. apply byte.unsigned_of_Z. Qed.

(** What the packing has emitted and what it still holds: [total] bits of the
    number [t]. *)
Definition pack_inv (t : Z) (total : nat) (s : Z * nat * bytes) : Prop :=
  let '(acc, acc_bits, out) := s in
  bnum out + 2 ^ Z.of_nat (8 * length out) * acc = t ∧ 0 ≤ acc < 2 ^ Z.of_nat acc_bits ∧
  (8 * length out + acc_bits = total)%nat.

Lemma pack_flush_inv fuel t total acc acc_bits out :
  (acc_bits ≤ fuel)%nat → pack_inv t total (acc, acc_bits, out) →
  let s := pack_flush fuel acc acc_bits out in pack_inv t total s ∧ (s.1.2 < 8)%nat.
Proof.
  revert acc acc_bits out. induction fuel as [|fuel IH]; intros acc acc_bits out Hf Hi.
  { split; [exact Hi | simpl; lia]. }
  cbn [pack_flush]. destruct (Nat.leb_spec 8 acc_bits) as [Hb|Hb]; [|split; [exact Hi | exact Hb]].
  apply IH; [lia|]. destruct Hi as (Ht & Ha & Hl).
  rewrite Z.shiftr_div_pow2 by lia. change (2 ^ 8) with 256.
  pose proof (Z.div_mod acc 256 ltac:(discriminate)) as Hd. pose proof (Z.mod_pos_bound acc 256 ltac:(reflexivity)) as Hm.
  assert (Hlen : length (out ++ [byte.of_Z acc]) = S (length out)) by (rewrite length_app; simpl; lia).
  split_and!.
  - unfold bnum. rewrite map_app, vnum_app, length_map. cbn [map vnum foldr]. rewrite unsigned_of_Z.
    change (2 ^ 8) with 256. rewrite Hlen. replace (8 * S (length out))%nat with (8 * length out + 8)%nat by lia.
    rewrite pow2_add. change (2 ^ Z.of_nat 8) with 256. fold (bnum out).
    rewrite <- Ht. clear -Hd. revert Hd. generalize (acc / 256) (acc mod 256). intros k r ->. ring.
  - apply Z.div_pos; lia.
  - replace acc_bits with ((acc_bits - 8) + 8)%nat in Ha by lia. rewrite pow2_add in Ha.
    change (2 ^ Z.of_nat 8) with 256 in Ha. apply Z.div_lt_upper_bound; lia.
  - rewrite Hlen. lia.
Qed.

Lemma pack_step_inv bits t total s v :
  pack_inv t total s → (s.1.2 < 8)%nat → 0 ≤ v < 2 ^ Z.of_nat bits →
  pack_inv (t + 2 ^ Z.of_nat total * v) (total + bits) (pack_step bits s v) ∧ ((pack_step bits s v).1.2 < 8)%nat.
Proof.
  destruct s as [[acc acc_bits] out]. intros (Ht & Ha & Hl) Hb Hv. unfold pack_step.
  apply pack_flush_inv; [lia|]. rewrite lor_shiftl by (try done; lia).
  split_and!; [|nia| |lia].
  - rewrite <- Ht, <- Hl, pow2_add. ring.
  - rewrite pow2_add. nia.
Qed.

Lemma pack_bits_inv bits vals : Forall (λ v, 0 ≤ v < 2 ^ Z.of_nat bits) vals → ∀ t total s,
  pack_inv t total s → (s.1.2 < 8)%nat →
  let s' := fold_left (pack_step bits) vals s in
  pack_inv (t + 2 ^ Z.of_nat total * vnum bits vals) (total + bits * length vals) s' ∧ (s'.1.2 < 8)%nat.
Proof.
  induction 1 as [|v vals Hv _ IH]; intros t total s Hs Hb.
  { simpl. rewrite Z.mul_0_r, Z.add_0_r, Nat.mul_0_r, Nat.add_0_r. by split. }
  cbn [fold_left length vnum foldr]. fold (vnum bits vals).
  destruct (pack_step_inv bits t total s v Hs Hb Hv) as [Hs' Hb']. specialize (IH _ _ _ Hs' Hb'). cbn zeta in IH.
  replace (total + bits * S (length vals))%nat with (total + bits + bits * length vals)%nat by lia.
  replace (t + 2 ^ Z.of_nat total * (v + 2 ^ Z.of_nat bits * vnum bits vals))
    with (t + 2 ^ Z.of_nat total * v + 2 ^ Z.of_nat (total + bits) * vnum bits vals) by (rewrite pow2_add; ring).
  exact IH.
Qed.

Lemma pack_bits_spec bits vals m : Forall (λ v, 0 ≤ v < 2 ^ Z.of_nat bits) vals → (bits * length vals = 8 * m)%nat →
  length (pack_bits vals bits) = m ∧ bnum (pack_bits vals bits) = vnum bits vals.
Proof.
  intros Hv Hm. unfold pack_bits.
  assert (H0 : pack_inv 0 0 (0, 0%nat, [])) by (split_and!; [reflexivity | lia | simpl; lia | reflexivity]).
  destruct (pack_bits_inv bits vals Hv 0 0 _ H0 ltac:(simpl; lia)) as [Hi Hb].
  destruct (fold_left (pack_step bits) vals (0, 0%nat, [])) as [[acc acc_bits] out]. destruct Hi as (Ht & Ha & Hl).
  cbn [fst snd] in *. assert (acc_bits = 0%nat) as -> by lia.
  assert (acc = 0) as -> by (change (2 ^ Z.of_nat 0) with 1 in Ha; lia).
  split; [lia|]. change (2 ^ Z.of_nat 0) with 1 in Ht. rewrite Z.mul_0_r, Z.add_0_r in Ht. rewrite Ht. ring.
Qed.

(** ** Unpacking *)

Lemma unpack_fill_inv fuel bits t acc acc_bits data :
  (bits ≤ fuel + acc_bits)%nat → (bits ≤ 8 * length data + acc_bits)%nat →
  0 ≤ acc < 2 ^ Z.of_nat acc_bits → acc + 2 ^ Z.of_nat acc_bits * bnum data = t →
  let '(acc', acc_bits', data') := unpack_fill fuel bits acc acc_bits data in
  0 ≤ acc' < 2 ^ Z.of_nat acc_bits' ∧ acc' + 2 ^ Z.of_nat acc_bits' * bnum data' = t ∧
  (bits ≤ acc_bits')%nat ∧ (8 * length data' + acc_bits' = 8 * length data + acc_bits)%nat.
Proof.
  revert acc acc_bits data. induction fuel as [|fuel IH]; intros acc acc_bits data Hf Hd Ha Ht.
  { cbn. split_and!; try done; lia. }
  cbn [unpack_fill]. destruct (Nat.ltb_spec acc_bits bits) as [Hb|Hb]; [|split_and!; try done; lia].
  destruct data as [|b data]; [simpl in Hd; lia|]. cbn [drop]. rewrite drop_0.
  change ((b :: data) !!! 0%nat) with b. pose proof (byte.unsigned_range b) as Hr.
  rewrite lor_shiftl by (try done; lia).
  pose proof (IH (acc + byte.unsigned b * 2 ^ Z.of_nat acc_bits) (acc_bits + 8)%nat data) as IH'.
  destruct (unpack_fill fuel bits _ _ data) as [[acc' acc_bits'] data'].
  destruct IH' as (H1 & H2 & H3 & H4); [lia | simpl in Hd; lia | | |].
  - rewrite pow2_add. change (2 ^ Z.of_nat 8) with 256. change (2 ^ 8) with 256 in Hr. nia.
  - rewrite <- Ht, pow2_add. change (bnum (b :: data)) with (byte.unsigned b + 2 ^ Z.of_nat 8 * bnum data). ring.
  - split_and!; try done; simpl; lia.
Qed.

Lemma unpack_loop_digits count bits t : ∀ acc acc_bits data,
  (bits * count ≤ 8 * length data + acc_bits)%nat → 0 ≤ acc < 2 ^ Z.of_nat acc_bits →
  acc + 2 ^ Z.of_nat acc_bits * bnum data = t →
  unpack_loop count bits acc acc_bits data = digits bits count t.
Proof.
  revert t. induction count as [|count IH]; intros t acc acc_bits data Hd Ha Ht; [done|].
  cbn [unpack_loop digits].
  pose proof (unpack_fill_inv bits bits t acc acc_bits data ltac:(lia) ltac:(lia) Ha Ht) as Hi.
  destruct (unpack_fill bits bits acc acc_bits data) as [[acc' ab'] data']. destruct Hi as (Ha' & Ht' & Hb & Hl).
  pose proof (digit_base_pos bits) as Hp. rewrite Z.shiftr_div_pow2 by lia.
  replace (2 ^ Z.of_nat bits - 1) with (Z.ones (Z.of_nat bits)) by (rewrite Z.ones_equiv; lia).
  rewrite Z.land_ones by lia.
  assert (Ep : 2 ^ Z.of_nat ab' = 2 ^ Z.of_nat bits * 2 ^ Z.of_nat (ab' - bits)) by (rewrite <- pow2_add; do 2 f_equal; lia).
  f_equal.
  - rewrite <- Ht', Ep, <- Z.mul_assoc, (Z.mul_comm (2 ^ Z.of_nat bits)), Z_mod_plus_full. reflexivity.
  - apply IH; [lia| |].
    + split; [apply Z.div_pos; lia|]. apply Z.div_lt_upper_bound; lia.
    + rewrite <- Ht', Ep, <- Z.mul_assoc, (Z.mul_comm (2 ^ Z.of_nat bits)), Z.div_add by lia. ring.
Qed.

Lemma bnum_range b : 0 ≤ bnum b < 2 ^ Z.of_nat (8 * length b).
Proof.
  induction b as [|x b IH]; [cbn; lia|]. unfold bnum in *. cbn [map vnum foldr length]. fold (vnum 8 (map byte.unsigned b)).
  replace (8 * S (length b))%nat with (8 + 8 * length b)%nat by lia. rewrite pow2_add. change (2 ^ Z.of_nat 8) with 256.
  pose proof (byte.unsigned_range x) as Hx. change (2 ^ 8) with 256 in Hx. nia.
Qed.

Lemma unpack_pack bits vals m : Forall (λ v, 0 ≤ v < 2 ^ Z.of_nat bits) vals → (bits * length vals = 8 * m)%nat →
  unpack_bits (pack_bits vals bits) bits (length vals) = vals.
Proof.
  intros Hv Hm. destruct (pack_bits_spec bits vals m Hv Hm) as [Hl Hn]. unfold unpack_bits.
  rewrite (unpack_loop_digits _ _ (vnum bits vals)); [by apply digits_vnum | lia | change (2 ^ Z.of_nat 0) with 1; lia|].
  rewrite Hn. change (2 ^ Z.of_nat 0) with 1. ring.
Qed.

(** ** Coefficient codecs *)

Lemma length_pack bits vals : Forall (λ v, 0 ≤ v < 2 ^ Z.of_nat bits) vals → length vals = N →
  length (pack_bits vals bits) = stride bits.
Proof.
  intros Hv Hl. apply (pack_bits_spec bits vals (stride bits) Hv). rewrite Hl. unfold stride, N. lia.
Qed.
Lemma unpack_pack_N bits vals : Forall (λ v, 0 ≤ v < 2 ^ Z.of_nat bits) vals → length vals = N →
  unpack_bits (pack_bits vals bits) bits N = vals.
Proof.
  intros Hv Hl. rewrite <- Hl. apply (unpack_pack bits vals (stride bits) Hv). rewrite Hl. unfold stride, N. lia.
Qed.

Lemma as_u32_small x : 0 ≤ x < 2 ^ 32 → as_u32 x = x.
Proof. apply Z.mod_small. Qed.

(** The coefficients that [pack_below] can hold. *)
Definition below_ok (top : Z) (bits : nat) (c : Z) : Prop := 0 ≤ c < Q ∧ 0 ≤ top - center c < 2 ^ Z.of_nat bits.

Lemma pow2_le_32 bits : (bits ≤ 32)%nat → 2 ^ Z.of_nat bits ≤ 2 ^ 32.
Proof. intros. apply Z.pow_le_mono_r; lia. Qed.

Lemma pack_below_values top bits p : (bits ≤ 32)%nat → Forall (below_ok top bits) p →
  Forall (λ v, 0 ≤ v < 2 ^ Z.of_nat bits) (map (λ c, as_u32 (top - center c)) p).
Proof.
  intros Hb Hp. pose proof (pow2_le_32 bits Hb). apply Forall_fmap. eapply list.Forall_impl; [exact Hp|].
  intros c [_ Hc]. unfold compose. rewrite as_u32_small by lia. exact Hc.
Qed.

Lemma length_pack_below top bits p : (bits ≤ 32)%nat → length p = N → Forall (below_ok top bits) p →
  length (pack_below top bits p) = stride bits.
Proof. intros Hb Hl Hp. apply length_pack; [by apply pack_below_values | by rewrite length_map]. Qed.

Lemma unpack_pack_below top bits p : (bits ≤ 32)%nat → length p = N → Forall (below_ok top bits) p →
  unpack_below top bits (pack_below top bits p) = p.
Proof.
  intros Hb Hl Hp. unfold unpack_below, pack_below.
  rewrite unpack_pack_N by (by apply pack_below_values || by rewrite length_map).
  rewrite map_map. rewrite <- (map_id p) at 2. apply map_ext_Forall. eapply list.Forall_impl; [exact Hp|].
  intros c [Hc Hr]. pose proof (pow2_le_32 bits Hb). rewrite as_u32_small by lia.
  apply range_cong_eq; [apply mod_Q_range | done|]. rewrite mod_cong.
  transitivity (center c); [apply cong_of_eq; ring | apply center_cong].
Qed.

Definition t1_ok (c : Z) : Prop := 0 ≤ c < 2 ^ 10.
Lemma t1_values p : Forall t1_ok p → Forall (λ v, 0 ≤ v < 2 ^ Z.of_nat 10) (map as_u32 p) ∧ map as_u32 p = p.
Proof.
  intros Hp. split.
  - apply Forall_fmap. eapply list.Forall_impl; [exact Hp|]. intros c Hc. unfold compose, t1_ok in *.
    rewrite as_u32_small by lia. exact Hc.
  - rewrite <- (map_id p) at 2. apply map_ext_Forall. eapply list.Forall_impl; [exact Hp|].
    intros c Hc. apply as_u32_small. unfold t1_ok in Hc. lia.
Qed.
Lemma length_pack_t1 p : length p = N → Forall t1_ok p → length (pack_t1 p) = stride 10.
Proof. intros Hl Hp. apply length_pack; [by apply t1_values | by rewrite length_map]. Qed.
Lemma unpack_pack_t1 p : length p = N → Forall t1_ok p → unpack_t1 (pack_t1 p) = p.
Proof.
  intros Hl Hp. destruct (t1_values p Hp) as [Hv E]. unfold unpack_t1, pack_t1.
  rewrite unpack_pack_N by (done || by rewrite length_map). exact E.
Qed.

(** A row of packed polynomials inside a buffer. *)
Lemma unpack_from_packed unpack pack width off (ps : list Poly) (pre rest : bytes) (P : Poly → Prop) :
  (∀ p, P p → length (pack p) = width ∧ unpack (pack p) = p) → Forall P ps → off = length pre →
  unpack_from unpack off width (length ps) (pre ++ concat (map pack ps) ++ rest) = ps.
Proof.
  intros HP Hps. unfold unpack_from. revert pre off. induction Hps as [|p ps Hp _ IH]; intros pre off ->; [done|].
  destruct (HP p Hp) as [Hl Hu]. cbn [length seq map concat]. f_equal.
  - transitivity (unpack (pack p)); [|exact Hu]. f_equal. rewrite <- app_assoc. apply slice_app_at; lia.
  - rewrite <- seq_shift, map_map, <- app_assoc, (app_assoc pre (pack p)).
    etransitivity; [|apply (IH (pre ++ pack p) (length pre + width)%nat); rewrite length_app; lia].
    apply map_ext. intros i. f_equal. f_equal; lia.
Qed.
Lemma length_packed (pack : Poly → bytes) width (ps : list Poly) (P : Poly → Prop) :
  (∀ p, P p → length (pack p) = width) → Forall P ps → length (concat (map pack ps)) = (width * length ps)%nat.
Proof.
  intros HP Hps. rewrite (length_concat_const _ width), length_map; [done|].
  apply Forall_fmap. eapply list.Forall_impl; [exact Hps|]. exact HP.
Qed.

(** ** The hint

    The positions of the ones, polynomial after polynomial, then zeros, then
    the running counts. *)

Fixpoint positions (j : nat) (p : Poly) : list nat :=
  match p with
  | [] => []
  | c :: p => if c =? 0 then positions (S j) p else j :: positions (S j) p
  end.
Fixpoint counts (k : nat) (h : list Poly) : list nat :=
  match h with
  | [] => []
  | p :: h => (k + length (positions 0 p))%nat :: counts (k + length (positions 0 p)) h
  end.
Definition all_positions (h : list Poly) : list nat := concat (map (positions 0) h).
Definition nat_byte (n : nat) : byte := byte.of_Z (Z.of_nat n).

Lemma nat_byte_value n : (n < 256)%nat → byte.unsigned (nat_byte n) = Z.of_nat n.
Proof. intros. unfold nat_byte. rewrite unsigned_of_Z, Z.mod_small; lia. Qed.

Lemma length_positions j p : length (positions j p) = length (filter (λ b, b ≠ 0) p).
Proof.
  revert j. induction p as [|c p IH]; intros j; [done|]. cbn [positions]. rewrite filter_cons.
  destruct (Z.eqb_spec c 0), (decide (c ≠ 0)); try done; cbn [length]; by rewrite IH.
Qed.
Lemma length_all_positions h : length (all_positions h) = length (filter (λ b, b ≠ 0) (concat h)).
Proof.
  unfold all_positions. induction h as [|p h IH]; [done|]. cbn [map concat].
  by rewrite list.filter_app, !length_app, IH, length_positions.
Qed.
Lemma length_counts k h : length (counts k h) = length h.
Proof. revert k. induction h as [|p h IH]; intros k; [done|]. cbn. by rewrite IH. Qed.

(** Writing one byte over the first zero of the padding. *)
Lemma insert_pad (P : bytes) m (R : bytes) b :
  <[length P := b]> (P ++ replicate (S m) Byte.x00 ++ R) = (P ++ [b]) ++ replicate m Byte.x00 ++ R.
Proof. rewrite <- app_assoc. cbn [app replicate]. by rewrite insert_app_r_alt, Nat.sub_diag by lia. Qed.

Definition position_step (hi : bytes * nat) (jc : nat * Z) : bytes * nat :=
  if jc.2 =? 0 then hi else (<[hi.2 := byte.of_Z (Z.of_nat jc.1)]> hi.1, S hi.2).
Lemma encode_positions_from p j P m R :
  (length (positions j p) ≤ m)%nat →
  fold_left position_step (zip (seq j (length p)) p) (P ++ replicate m Byte.x00 ++ R, length P) =
  ((P ++ map nat_byte (positions j p)) ++ replicate (m - length (positions j p)) Byte.x00 ++ R,
   (length P + length (positions j p))%nat).
Proof.
  revert j P m. induction p as [|c p IH]; intros j P m Hm.
  { cbn [positions map length seq zip fold_left]. by rewrite app_nil_r, Nat.sub_0_r, Nat.add_0_r. }
  cbn [positions length seq zip zip_with fold_left]. unfold position_step at 2. cbn [fst snd].
  cbn [positions] in Hm. destruct (c =? 0); [by apply IH|]. cbn [length] in *. destruct m as [|m]; [lia|].
  rewrite insert_pad. fold (nat_byte j).
  replace (S (length P)) with (length (P ++ [nat_byte j])) by (rewrite length_app; simpl; lia).
  rewrite IH by lia. cbn [map]. rewrite <- !app_assoc, length_app. cbn [app length].
  replace (S m - S (length (positions (S j) p)))%nat with (m - length (positions (S j) p))%nat by lia.
  f_equal. lia.
Qed.

Definition hint_step (hi : bytes * nat) (ip : nat * Poly) : bytes * nat :=
  let '(hint, idx) := encode_positions hi ip.2 in
  (<[(OMEGA + ip.1)%nat := byte.of_Z (Z.of_nat idx)]> hint, idx).
Lemma encode_hint_from h i P m C :
  (length P + m = OMEGA)%nat → length C = i → (length (all_positions h) ≤ m)%nat →
  (fold_left hint_step (zip (seq i (length h)) h) (P ++ replicate m Byte.x00 ++ C ++ replicate (length h) Byte.x00, length P)).1 =
  P ++ map nat_byte (all_positions h) ++ replicate (m - length (all_positions h)) Byte.x00 ++ C ++
    map nat_byte (counts (length P) h).
Proof.
  revert i P m C. induction h as [|p h IH]; intros i P m C HP HC Hm.
  { cbn. by rewrite Nat.sub_0_r. }
  unfold all_positions in *. cbn [map concat length seq zip zip_with fold_left] in *. rewrite length_app in *.
  unfold hint_step at 2, encode_positions. cbn [fst snd].
  change (fold_left _ (zip _ _) (?s, ?n)) with (fold_left position_step (zip (seq 0 (length p)) p) (s, n)) at 1.
  rewrite (encode_positions_from p 0 P m) by lia.
  set (n := length (positions 0 p)) in *.
  rewrite (app_assoc (replicate _ _) C), (app_assoc (P ++ _)).
  assert (Ei : (OMEGA + i)%nat = length ((P ++ map nat_byte (positions 0 p)) ++ replicate (m - n) Byte.x00 ++ C))
    by (rewrite !length_app, length_map, length_replicate; fold n; lia).
  rewrite Ei, insert_app_r_alt, Nat.sub_diag by lia. cbn [replicate insert list_insert].
  fold (nat_byte (length P + n)).
  pose proof (IH (S i) (P ++ map nat_byte (positions 0 p)) (m - n)%nat (C ++ [nat_byte (length P + n)])) as IH'.
  rewrite !length_app, length_map in IH'. fold n in IH'.
  rewrite <- !app_assoc in IH'. cbn [app] in IH'. rewrite <- !app_assoc, IH' by (simpl; lia).
  cbn [counts map]. fold n. rewrite map_app, <- !app_assoc. do 4 f_equal. f_equal; lia.
Qed.

Definition bit_poly (p : Poly) : Prop := Forall (λ c, c = 0 ∨ c = 1) p.

(** The previous position, when one of the same polynomial was read. *)
Definition previous_below (hint : bytes) (k j x : nat) : Prop :=
  j = k ∨ (k < j)%nat ∧ byte.unsigned (hint !!! (j - 1)%nat) < Z.of_nat x.

Lemma drop_cons_lookup (hint : bytes) j b rest : drop j hint = b :: rest →
  hint !!! j = b ∧ drop (S j) hint = rest.
Proof.
  intros E. split.
  - rewrite <- (Nat.add_0_r j), <- lookup_total_drop, E. done.
  - rewrite <- Nat.add_1_r, <- drop_drop, E. done.
Qed.

Lemma decode_positions_from hint k fuel j x (p A rest : list Z) rest' :
  bit_poly p → length A = x → (x + length p ≤ 256)%nat →
  drop j hint = map nat_byte (positions x p) ++ rest' → previous_below hint k j x →
  (length (positions x p) ≤ fuel)%nat →
  decode_positions fuel hint k j (j + length (positions x p)) (A ++ replicate (length p) 0) = Some (A ++ p).
Proof.
  intros Hp. revert x A fuel j. induction Hp as [|c p Hc _ IH]; intros x A fuel j HA Hx Hd Hprev Hf.
  { cbn [positions length replicate]. rewrite Nat.add_0_r. destruct fuel; cbn [decode_positions]; [done|].
    by rewrite (proj2 (Nat.ltb_ge _ _)) by lia. }
  cbn [length] in Hx. cbn [positions length replicate] in *. destruct Hc as [->| ->].
  - change (0 =? 0) with true in *. cbv iota in *.
    rewrite (cons_app_one 0 (replicate _ _)), (cons_app_one 0 p), !app_assoc.
    apply (IH (S x)); try done; try lia.
    + rewrite length_app. simpl; lia.
    + destruct Hprev as [?|[? ?]]; [by left | right; split; [done | lia]].
  - change (1 =? 0) with false in *. cbv iota in *. cbn [length map app] in *.
    destruct (drop_cons_lookup _ _ _ _ Hd) as [Hj Hd']. destruct fuel as [|fuel]; [lia|].
    cbn [decode_positions]. rewrite (proj2 (Nat.ltb_lt _ _)) by lia.
    rewrite Hj, nat_byte_value by lia.
    replace ((k <? j)%nat && (Z.of_nat x <=? byte.unsigned (hint !!! (j - 1)%nat))) with false.
    2:{ symmetry. destruct Hprev as [->|[_ Hlt]]; [by rewrite Nat.ltb_irrefl|].
        rewrite (proj2 (Z.leb_gt _ _)) by lia. apply andb_false_r. }
    rewrite Nat2Z.id, (insert_app_r_alt A _ x), HA, Nat.sub_diag by lia. cbn [insert list_insert].
    rewrite (cons_app_one 1 (replicate _ _)), (cons_app_one 1 p), !app_assoc.
    replace (j + S (length (positions (S x) p)))%nat with (S j + length (positions (S x) p))%nat by lia.
    apply (IH (S x)); try done; try lia.
    + rewrite length_app. simpl; lia.
    + right. split; [destruct Hprev; lia|]. replace (S j - 1)%nat with j by lia. rewrite Hj, nat_byte_value by lia. lia.
Qed.

Lemma decode_hint_loop_from hint h i k rest rest' :
  Forall (λ p, bit_poly p ∧ length p = N) h → (k + length (all_positions h) ≤ OMEGA)%nat →
  drop k hint = map nat_byte (all_positions h) ++ rest →
  drop (OMEGA + i) hint = map nat_byte (counts k h) ++ rest' →
  decode_hint_loop hint (seq i (length h)) k = Some (h, (k + length (all_positions h))%nat).
Proof.
  intros Hh. revert i k. unfold all_positions.
  induction Hh as [|p h [Hp Hl] _ IH]; intros i k Hk Hd Hc; [by rewrite Nat.add_0_r|].
  cbn [map concat length seq counts] in *. rewrite length_app in *. rewrite map_app, <- app_assoc in Hd.
  cbn [app] in Hc. destruct (drop_cons_lookup _ _ _ _ Hc) as [Hi Hc'].
  set (n := length (positions 0 p)) in *. cbn [decode_hint_loop].
  rewrite Hi, nat_byte_value, Nat2Z.id by (unfold OMEGA in Hk; lia).
  rewrite (proj2 (Nat.ltb_ge _ _)), (proj2 (Nat.ltb_ge _ _)) by lia. cbn [orb].
  pose proof (decode_positions_from hint k (k + n - k) k 0 p [] [] _ Hp eq_refl ltac:(rewrite Hl; done) Hd
    ltac:(by left) ltac:(fold n; lia)) as Ed.
  cbn [app] in Ed. fold n in Ed. rewrite Hl in Ed. unfold ZERO. rewrite Ed. cbn [mbind option_bind].
  rewrite (IH (S i)); [cbn [mbind option_bind]; f_equal; f_equal; lia | lia | | by rewrite Nat.add_succ_r].
  rewrite <- drop_drop, Hd, drop_app_length'; [done|]. by rewrite length_map.
Qed.

Definition hint_ok (h : list Poly) : Prop :=
  length h = K ∧ Forall (λ p, bit_poly p ∧ length p = N) h ∧ (length (filter (λ b, b ≠ 0%Z) (concat h)) ≤ OMEGA)%nat.

Lemma encode_hint_layout h : hint_ok h →
  encode_hint h = map nat_byte (all_positions h) ++ replicate (OMEGA - length (all_positions h)) Byte.x00 ++ map nat_byte (counts 0 h).
Proof.
  intros (Hl & _ & Hn). rewrite <- length_all_positions in Hn.
  pose proof (encode_hint_from h 0 [] OMEGA [] eq_refl eq_refl Hn) as E. cbn [app length] in E.
  etransitivity; [|exact E]. unfold encode_hint, hint_step. by rewrite replicate_add, Hl.
Qed.

Lemma length_encode_hint h : hint_ok h → length (encode_hint h) = (OMEGA + K)%nat.
Proof.
  intros Hh. rewrite encode_hint_layout by done. destruct Hh as (Hl & _ & Hn). rewrite <- length_all_positions in Hn.
  rewrite !length_app, !length_map, length_replicate, length_counts. lia.
Qed.

Lemma decode_encode_hint h : hint_ok h → decode_hint (encode_hint h) = Some h.
Proof.
  intros Hh. rewrite encode_hint_layout by done. destruct Hh as (Hl & Hh & Hn). rewrite <- length_all_positions in Hn.
  unfold decode_hint. rewrite <- Hl at 1. erewrite decode_hint_loop_from; [|exact Hh | lia | by rewrite drop_0 | ].
  2:{ rewrite app_assoc, Nat.add_0_r, drop_app_length'; [by rewrite app_nil_r|].
      rewrite length_app, length_map, length_replicate. lia. }
  cbn [mbind option_bind]. rewrite Nat.add_0_l, slice_app_skip by (rewrite length_map; lia).
  rewrite length_map, Nat.sub_diag, slice_app_head; [|done|by rewrite length_replicate].
  rewrite (proj2 (forallb_forall _ _)); [done|]. intros x Hx%list_elem_of_In%elem_of_replicate_inv. by subst.
Qed.
