(* ===== verification/MldsaSample.v ===== *)
(** * The samplers of ML-DSA

    What the rejection samplers return when they return: the challenge has 256
    coefficients and at most [TAU] of them are not zero, each of absolute
    value one; the secrets are between [-ETA] and [ETA]; the matrix has the
    right shape. *)

From S2P Require Import Prelude Ntt Keccak Mldsa MldsaFacts MldsaRound MldsaCodec.
#[local] Open Scope ntt_scope.

(** ** The norm of an updated list *)

Lemma norm1_insert l i x : (i < length l)%nat → norm1 (<[i := x]> l) = norm1 l - Z.abs (l !!! i) + Z.abs x.
Proof.
  revert i. induction l as [|y l IH]; intros [|i] Hi; try (simpl in Hi; lia).
  - unfold insert, list_insert. change (norm1 (?a :: l)) with (Z.abs a + norm1 l). change ((y :: l) !!! 0%nat) with y. lia.
  - change (<[S i := x]> (y :: l)) with (y :: <[i := x]> l). change (norm1 (y :: ?a)) with (Z.abs y + norm1 a).
    change ((y :: l) !!! S i) with (l !!! i). simpl in Hi. rewrite IH by lia. lia.
Qed.

Lemma center_of x y : 0 ≤ x < Q → x ≡[Q] y → Z.abs y ≤ Q / 2 → center x = y.
Proof.
  intros Hx Hxy Hy. change (Q / 2) with 4190208 in Hy. unfold center. change (Q / 2) with 4190208.
  unfold cong in Hxy. rewrite (Z.mod_small x) in Hxy by lia.
  destruct (Z.ltb_spec y 0) as [Hn|Hn].
  - assert (Em : y mod Q = y + Q).
    { rewrite <- (Z_mod_plus_full y 1 Q). rewrite Z.mul_1_l. apply Z.mod_small. unfold Q. lia. }
    rewrite Hxy, Em. unfold Q in *. destruct (Z.ltb_spec 4190208 (y + 8380417)); lia.
  - rewrite Z.mod_small in Hxy by (unfold Q; lia). subst x. destruct (Z.ltb_spec 4190208 y); lia.
Qed.

Definition ball_inv (n : Z) (c : Poly) : Prop := length c = N ∧ reduced Q c ∧ norm1 (map center c) ≤ n.

Lemma ball_step n c i j b : ball_inv n c → (i < N)%nat → (j ≤ i)%nat → 
  ball_inv (n + 1) (<[j := (if b : bool then Q - 1 else 1)]> (<[i := c !!! j]> c)).
Proof.
  intros (Hl & Hr & Hn) Hi Hj. set (x := if b then Q - 1 else 1).
  assert (Hx : Z.abs (center x) = 1) by (by destruct b).
  assert (Hxr : 0 ≤ x < Q) by (destruct b; subst x; unfold Q; lia).
  assert (Hcj : 0 ≤ c !!! j < Q) by (apply (Forall_lookup_total_1 _ c j Hr); lia).
  split; [by rewrite !length_insert|]. split.
  { apply Forall_insert; [|exact Hxr]. by apply Forall_insert. }
  assert (Em : ∀ k y l, map center (<[k := y]> l) = <[k := center y]> (map center l)) by (intros k y l; apply (list_fmap_insert center)).
  rewrite !Em, norm1_insert, norm1_insert by (rewrite ?length_insert, length_map; lia). rewrite Hx.
  assert (Ej : map center c !!! j = center (c !!! j)) by (apply list_lookup_total_fmap; lia).
  destruct (decide (i = j)) as [->|Hne].
  - rewrite list_lookup_total_insert_eq by (rewrite length_map; lia). lia.
  - rewrite list_lookup_total_insert_ne by done. rewrite Ej. lia.
Qed.

Lemma seq_zip_range a n i bit b : (bit, i) ∈ zip (seq b n) (seq a n) → (a ≤ i < a + n)%nat.
Proof. intros H%elem_of_zip_r. by apply elem_of_seq in H. Qed.

Lemma zero_ball : ball_inv 0 ZERO.
Proof.
  split; [done|]. split; [by apply Forall_replicate|]. vm_compute. discriminate.
Qed.

Section Samplers.
Context `{Xof}.

Lemma ball_position_le fuel i s j s' : ball_position fuel i s = Some (j, s') → (j ≤ i)%nat.
Proof.
  revert s. induction fuel as [|fuel IH]; intros s; [done|]. cbn [ball_position].
  destruct (xof_squeeze s 1) as [b s1]. destruct (Nat.leb_spec (Z.to_nat (byte.unsigned (b !!! 0%nat))) i); [|apply IH].
  by intros [= <- <-].
Qed.

Lemma ball_loop_inv fuel signs bis s c n c' :
  ball_inv n c → Forall (λ bi : nat * nat, (bi.2 < N)%nat) bis → ball_loop fuel signs bis s c = Some c' →
  ball_inv (n + Z.of_nat (length bis)) c'.
Proof.
  intros Hc Hb. revert s c n Hc. induction Hb as [|[bit i] bis Hi _ IH]; intros s c n Hc; cbn [ball_loop].
  { intros [= <-]. by rewrite Z.add_0_r. }
  destruct (ball_position fuel i s) as [[j s']|] eqn:Ej; [|done]. cbn [mbind option_bind]. intros Hl.
  apply ball_position_le in Ej. cbn [length]. rewrite Nat2Z.inj_succ.
  replace (n + Z.succ (Z.of_nat (length bis))) with ((n + 1) + Z.of_nat (length bis)) by lia.
  eapply IH; [|exact Hl]. by apply ball_step.
Qed.

Lemma sample_in_ball_inv fuel seed c : sample_in_ball fuel seed = Some c → ball_inv (Z.of_nat TAU) c.
Proof.
  unfold sample_in_ball. destruct (xof_squeeze _ 8) as [sb s]. intros Hc.
  replace (Z.of_nat TAU) with (0 + Z.of_nat (length (zip (seq 0 TAU) (seq (N - TAU) TAU)))) by reflexivity.
  eapply ball_loop_inv; [exact zero_ball | | exact Hc].
  apply list.Forall_forall. intros [bit i] Hin%seq_zip_range. unfold N, TAU in *. simpl. lia.
Qed.

Lemma rej_ntt_length fuel s poly p : (length poly ≤ N)%nat → rej_ntt_loop fuel s poly = Some p → length p = N.
Proof.
  revert s poly. induction fuel as [|fuel IH]; intros s poly Hl; cbn [rej_ntt_loop];
    (destruct (Nat.leb_spec N (length poly)); [intros [= <-]; lia|]); [done|].
  destruct (xof_squeeze s 3) as [b s']. cbv zeta.
  destruct (_ <? Q); apply IH; rewrite ?length_app; simpl; lia.
Qed.

(** A secret coefficient. *)
Definition small (c : Z) : Prop := 0 ≤ c < Q ∧ - ETA ≤ center c ≤ ETA.
Lemma small_nibble x : 0 ≤ x < 9 → small ((ETA - x) mod Q).
Proof.
  intros Hx. split; [apply mod_Q_range|].
  rewrite (center_of _ (ETA - x)); [unfold ETA in *; lia | apply mod_Q_range | apply mod_cong |].
  change (Q / 2) with 4190208. unfold ETA. lia.
Qed.

Definition small_poly (p : Poly) : Prop := (length p ≤ N)%nat ∧ Forall small p.
Lemma push_nibble_inv poly x : 0 ≤ x → small_poly poly → small_poly (push_nibble poly x).
Proof.
  intros Hx [Hl Hs]. unfold push_nibble. destruct (Z.ltb_spec x 9), (Nat.ltb_spec (length poly) N); cbn [andb]; try done.
  split; [rewrite length_app; simpl; lia|]. apply Forall_app_2; [done|]. constructor; [by apply small_nibble | done].
Qed.

Lemma rej_bounded_inv fuel s poly p : small_poly poly → rej_bounded_loop fuel s poly = Some p → length p = N ∧ Forall small p.
Proof.
  revert s poly. induction fuel as [|fuel IH]; intros s poly Hp; cbn [rej_bounded_loop];
    (destruct (Nat.leb_spec N (length poly)); [intros [= <-]; destruct Hp; split; [lia|done]|]); [done|].
  destruct (xof_squeeze s 1) as [b s']. cbv zeta. apply IH.
  pose proof (byte.unsigned_range (b !!! 0%nat)).
  apply push_nibble_inv; [apply Z.shiftr_nonneg; lia|]. apply push_nibble_inv; [apply Z.land_nonneg; lia | exact Hp].
Qed.

Lemma mapM_Forall {A B} (f : A → option B) (P : B → Prop) l r :
  (∀ x y, f x = Some y → P y) → mapM f l = Some r → length r = length l ∧ Forall P r.
Proof.
  intros HP Hr. apply mapM_Some_1 in Hr. induction Hr as [|x y l r Hxy _ [IH1 IH2]]; [done|].
  cbn [length]. split; [by rewrite IH1 | constructor; [by eapply HP | done]].
Qed.

Definition small_vec (n : nat) (v : list Poly) : Prop := length v = n ∧ Forall (λ p, length p = N ∧ Forall small p) v.
Definition matrix_ok (a : list (list Poly)) : Prop :=
  length a = K ∧ Forall (λ row, length row = L ∧ Forall (λ p, length p = N) row) a.

Lemma expand_a_ok fuel rho a : expand_a fuel rho = Some a → matrix_ok a.
Proof.
  intros Ha. unfold expand_a in Ha. apply (mapM_Forall _ (λ row, length row = L ∧ Forall (λ p, length p = N) row)) in Ha; [exact Ha|].
  intros i row Hrow. apply (mapM_Forall _ (λ p, length p = N)) in Hrow; [exact Hrow|].
  intros j p Hp. eapply rej_ntt_length; [|exact Hp]. simpl; lia.
Qed.

Lemma expand_s_ok fuel rho s1 s2 : expand_s fuel rho = Some (s1, s2) → small_vec L s1 ∧ small_vec K s2.
Proof.
  unfold expand_s. destruct (mapM _ (seq 0 L)) as [s1'|] eqn:E1; [|done]. cbn [mbind option_bind].
  destruct (mapM _ (seq 0 K)) as [s2'|] eqn:E2; [|done]. cbn [mbind option_bind]. intros [= <- <-].
  assert (Hb : ∀ i p, rej_bounded_poly fuel rho i = Some p → length p = N ∧ Forall small p).
  { intros i p Hp. eapply rej_bounded_inv; [|exact Hp]. split; [simpl; lia | done]. }
  split; [apply (mapM_Forall _ _ _ _ (λ i p, Hb (Z.of_nat i) p) E1) |
          apply (mapM_Forall _ _ _ _ (λ i p, Hb (Z.of_nat (L + i)) p) E2)].
Qed.

Lemma length_unpack_loop count bits acc n data : length (unpack_loop count bits acc n data) = count.
Proof.
  revert acc n data. induction count as [|count IH]; intros acc n data; [done|]. cbn [unpack_loop].
  destruct (unpack_fill bits bits acc n data) as [[acc' n'] data']. cbn [length]. by rewrite IH.
Qed.

Lemma expand_mask_ok rho n : length (expand_mask_poly rho n) = N ∧ reduced Q (expand_mask_poly rho n).
Proof.
  unfold expand_mask_poly. split; [rewrite length_map; apply length_unpack_loop|].
  apply Forall_map_all. intros v. apply sub_mod_range; apply mod_Q_range.
Qed.
End Samplers.
