(* ===== verification/MldsaAlgebra.v ===== *)
(** * What the verifier of ML-DSA recomputes

    The argument that the verifier rounds is the signer's commitment, less
    the part of the noise that the hint repairs:
    A z - c t1 2^D is w - c s2 + c t0. *)

From S2P Require Import Prelude Ntt Keccak Mldsa MldsaFacts MldsaRound MldsaCodec MldsaSample.
#[local] Open Scope ntt_scope.

#[local] Opaque ntt inv_ntt.

(** The transform of a polynomial at a root. *)
Abbreviation hat f i := (ntt f !!! i).

Lemma veq_poly_add a b : length a = length b → veq (poly_add a b) (lin 1 a b).
Proof.
  revert b. induction a as [|x a IH]; intros [|y b] H; try done.
  constructor; [rewrite add_mod_cong; apply cong_of_eq; ring | apply IH; simpl in H; lia].
Qed.
Lemma veq_poly_sub a b : length a = length b → veq (poly_sub a b) (lin (-1) a b).
Proof.
  revert b. induction a as [|x a IH]; intros [|y b] H; try done.
  constructor; [rewrite sub_mod_cong; apply cong_of_eq; ring | apply IH; simpl in H; lia].
Qed.

Lemma hat_add a b i : length a = N → length b = N → (i < N)%nat → hat (poly_add a b) i ≡[Q] hat a i + hat b i.
Proof.
  intros Ha Hb Hi. rewrite !ntt_at by (try apply dsa_length_poly_add; done).
  rewrite (evl_proper _ _ _ (veq_poly_add a b ltac:(lia))), evl_lin by lia. apply cong_of_eq. ring.
Qed.
Lemma hat_inv x i : length x = N → (i < N)%nat → hat (inv_ntt x) i ≡[Q] x !!! i.
Proof.
  intros Hx Hi. pose proof (ntt_inv_ntt_veq x Hx) as H.
  exact (lookup_veq Q _ _ i H).
Qed.
Lemma hat_scale k f i : length f = N → (i < N)%nat → hat (map (λ x, mul_mod x k) f) i ≡[Q] k * hat f i.
Proof.
  intros Hf Hi. rewrite !ntt_at by (try rewrite length_map; done).
  clear Hf. induction f as [|c f IH]; [apply cong_of_eq; cbn; ring|].
  cbn [map]. rewrite !evl_cons, IH, mul_mod_cong. apply cong_of_eq. ring.
Qed.

(** Polynomials are equal modulo [Q] when their transforms are. *)
Lemma hat_determines a b : length a = N → length b = N → (∀ i, (i < N)%nat → hat a i ≡[Q] hat b i) → veq a b.
Proof.
  intros Ha Hb H.
  assert (Hn : veq (ntt a) (ntt b)) by (apply (dsa_veq_pointwise _ _ N); [by apply dsa_length_ntt.. | exact H]).
  etransitivity; [symmetry; by apply inv_ntt_ntt_veq|].
  etransitivity; [|by apply inv_ntt_ntt_veq].
  apply (linear_veq _ _ _ linear_inv_ntt); [by apply dsa_length_ntt | exact Hn].
Qed.

(** ** The inner product of a row *)

Definition dot_sum (row v : list Poly) (i : nat) : Z := foldr Z.add 0 (zip_with (λ a b, a !!! i * b !!! i) row v).
Abbreviation polys l := (Forall (λ p : Poly, length p = N) l).

Lemma dot_from row v acc i : polys row → polys v → length acc = N → (i < N)%nat →
  let r := fold_left (λ acc av, poly_add acc (poly_pointwise av.1 av.2)) (zip row v) acc in
  length r = N ∧ r !!! i ≡[Q] acc !!! i + dot_sum row v i.
Proof.
  intros Hrow Hv Hacc Hi. unfold dot_sum. revert v Hv acc Hacc.
  induction Hrow as [|a row Ha _ IH]; intros v Hv acc Hacc.
  { split; [done | apply cong_of_eq; cbn; ring]. }
  destruct Hv as [|b v Hb Hv]; [split; [done | apply cong_of_eq; cbn; ring]|].
  cbn [zip zip_with fold_left foldr fst snd].
  assert (Hp : length (poly_pointwise a b) = N) by by apply length_pointwise.
  destruct (IH v Hv (poly_add acc (poly_pointwise a b)) (dsa_length_poly_add _ _ Hacc Hp)) as [Hl Hs].
  split; [exact Hl|]. rewrite Hs, dsa_poly_add_at, pointwise_at by done. apply cong_of_eq. ring.
Qed.
Lemma dsa_length_dot row v : polys row → polys v → length (dot row v) = N.
Proof. intros Hr Hv. apply (dot_from row v ZERO 0 Hr Hv eq_refl). unfold N. lia. Qed.
Lemma dot_at row v i : polys row → polys v → (i < N)%nat → dot row v !!! i ≡[Q] dot_sum row v i.
Proof.
  intros Hr Hv Hi. destruct (dot_from row v ZERO i Hr Hv eq_refl Hi) as [_ H]. etransitivity; [exact H|].
  unfold ZERO. rewrite lookup_total_replicate_2 by done. apply cong_of_eq. ring.
Qed.

Lemma polys_ntt v : polys v → polys (map ntt v).
Proof. intros Hv. apply Forall_fmap. eapply list.Forall_impl; [exact Hv|]. intros p Hp. by apply dsa_length_ntt. Qed.

Definition times (c p : Poly) : Poly := inv_ntt (poly_pointwise (ntt c) (ntt p)).
Lemma times_hat_times c ps : times_hat (ntt c) (map ntt ps) = map (times c) ps.
Proof. unfold times_hat. rewrite map_map. reflexivity. Qed.
Lemma length_times c p : length c = N → length p = N → length (times c p) = N.
Proof. intros Hc Hp. apply length_inv_ntt, length_pointwise; by apply dsa_length_ntt. Qed.
Lemma reduced_times c p : reduced Q (times c p).
Proof. apply reduced_inv_ntt. Qed.
Lemma hat_times c p i : length c = N → length p = N → (i < N)%nat → hat (times c p) i ≡[Q] hat c i * hat p i.
Proof.
  intros Hc Hp Hi. unfold times. rewrite hat_inv, pointwise_at by (try apply length_pointwise; try apply dsa_length_ntt; done).
  reflexivity.
Qed.

Lemma dot_sum_response row y s c i : polys y → polys s → length c = N → length y = length s → (i < N)%nat →
  dot_sum row (map ntt (zip_with poly_add y (map (times c) s))) i ≡[Q]
  dot_sum row (map ntt y) i + hat c i * dot_sum row (map ntt s) i.
Proof.
  intros Hy Hs Hc Hl Hi. unfold dot_sum. revert y s Hy Hs Hl. induction row as [|a row IH]; intros y s Hy Hs Hl; [apply cong_of_eq; cbn; ring|].
  destruct Hy as [|y0 y Hy0 Hy], Hs as [|s0 s Hs0 Hs]; try done; [apply cong_of_eq; cbn; ring|].
  cbn [map zip_with foldr]. injection Hl as Hl. rewrite (IH y s Hy Hs Hl), hat_add, hat_times by (try apply length_times; done).
  apply cong_of_eq. ring.
Qed.

#[local] Opaque times dot poly_add poly_sub poly_pointwise.

Definition commitment (row y : list Poly) : Poly := inv_ntt (dot row (map ntt y)).
Definition approx (row z : list Poly) (c t1 : Poly) : Poly :=
  inv_ntt (poly_sub (dot row (map ntt z)) (poly_pointwise (ntt c) (ntt (map (λ x, mul_mod x (2 ^ D)) t1)))).

Lemma commitments_eq {A} (f : A → list Poly) y rows :
  map (λ r, inv_ntt (dot (f r) (map ntt y))) rows = map (λ r, commitment (f r) y) rows.
Proof. reflexivity. Qed.
Lemma approx_eq row z c t1 :
  inv_ntt (poly_sub (dot row (map ntt z)) (poly_pointwise (ntt c) (ntt (map (λ x, mul_mod x (2 ^ D)) t1)))) = approx row z c t1.
Proof. reflexivity. Qed.

(** Lengths of compound polynomials. *)
Ltac poly_len :=
  repeat match goal with
  | H : ?P |- ?P => exact H
  | |- length (poly_add _ _) = N => apply dsa_length_poly_add
  | |- length (poly_sub _ _) = N => apply dsa_length_poly_sub
  | |- length (poly_pointwise _ _) = N => apply length_pointwise
  | |- length (inv_ntt _) = N => apply length_inv_ntt
  | |- length (ntt _) = N => apply dsa_length_ntt
  | |- length (times _ _) = N => apply length_times
  | |- length (dot _ _) = N => apply dsa_length_dot
  | |- polys (map ntt _) => apply polys_ntt
  end.

(** ** One row of the verification equation *)

Lemma polys_response y s c : polys y → polys s → length c = N → length y = length s →
  polys (zip_with poly_add y (map (times c) s)).
Proof.
  intros Hy Hs Hc. revert s Hs. induction Hy as [|y0 y Hy0 _ IH]; intros s Hs Hl; [constructor|].
  destruct Hs as [|s0 s Hs0 Hs]; [discriminate Hl|]. cbn [map zip_with]. constructor; [poly_len|].
  apply IH; [exact Hs|]. by injection Hl.
Qed.

(** The equation in the transformed domain, for abstract [z] and [t1 2^D]. *)
Lemma approx_hat row y z s1 s2 c u t0 i :
  polys row → polys y → polys z → polys s1 → length s2 = N → length c = N → length u = N → length t0 = N → (i < N)%nat →
  dot_sum row (map ntt z) i ≡[Q] dot_sum row (map ntt y) i + hat c i * dot_sum row (map ntt s1) i →
  hat u i + hat t0 i ≡[Q] dot_sum row (map ntt s1) i + hat s2 i →
  hat (poly_add (inv_ntt (poly_sub (dot row (map ntt z)) (poly_pointwise (ntt c) (ntt u)))) (times c s2)) i ≡[Q]
  hat (poly_add (commitment row y) (times c t0)) i.
Proof.
  intros Hrow Hy Hz Hs1 Hs2 Hc Hu Ht0 Hi Ez Et. unfold commitment.
  assert (Edz : length (dot row (map ntt z)) = N) by poly_len.
  assert (Edy : length (dot row (map ntt y)) = N) by poly_len.
  assert (Ep : length (poly_pointwise (ntt c) (ntt u)) = N) by poly_len.
  etransitivity; [apply hat_add; poly_len|]. etransitivity; [|symmetry; apply hat_add; poly_len].
  rewrite (hat_times c s2 i Hc Hs2 Hi), (hat_times c t0 i Hc Ht0 Hi), (hat_inv _ i Edy Hi).
  rewrite (hat_inv _ i (dsa_length_poly_sub _ _ Edz Ep) Hi), (dsa_poly_sub_at _ _ i Edz Ep Hi).
  rewrite (pointwise_at _ _ i (dsa_length_ntt c Hc) (dsa_length_ntt u Hu) Hi).
  rewrite (dot_at row (map ntt z) i Hrow (polys_ntt z Hz) Hi), (dot_at row (map ntt y) i Hrow (polys_ntt y Hy) Hi).
  rewrite Ez.
  assert (E : dot_sum row (map ntt s1) i ≡[Q] hat u i + hat t0 i - hat s2 i) by (rewrite Et; apply cong_of_eq; ring).
  rewrite E. apply cong_of_eq. ring.
Qed.

Lemma key_equation_hat u t0 t i : length u = N → length t0 = N → length t = N → (i < N)%nat →
  (∀ k, (k < N)%nat → u !!! k + t0 !!! k ≡[Q] t !!! k) → hat u i + hat t0 i ≡[Q] hat t i.
Proof.
  intros Hu Ht0 Ht Hi H. rewrite <- hat_add by poly_len. rewrite !ntt_at by poly_len. apply evl_proper.
  apply (dsa_veq_pointwise _ _ N); [poly_len | poly_len |]. intros k Hk. rewrite dsa_poly_add_at by poly_len. by apply H.
Qed.

Lemma approx_row row y s1 s2 c t1 t0 :
  polys row → polys y → polys s1 → length y = length s1 → length s2 = N → length c = N → length t1 = N → length t0 = N →
  (∀ i, (i < N)%nat → t1 !!! i * 2 ^ D + t0 !!! i ≡[Q] poly_add (inv_ntt (dot row (map ntt s1))) s2 !!! i) →
  let z := zip_with poly_add y (map (times c) s1) in
  length (approx row z c t1) = N ∧
  ∀ i, (i < N)%nat →
    approx row z c t1 !!! i ≡[Q] commitment row y !!! i - times c s2 !!! i + times c t0 !!! i.
Proof.
  intros Hrow Hy Hs1 Hys Hs2 Hc Ht1 Ht0 Ht z.
  pose proof (polys_response y s1 c Hy Hs1 Hc Hys) as Hz. fold z in Hz.
  assert (Ez : ∀ i, (i < N)%nat → _) by exact (λ i Hi, dot_sum_response row y s1 c i Hy Hs1 Hc Hys Hi).
  fold z in Ez. clearbody z. unfold approx.
  assert (Hu : length (map (λ x, mul_mod x (2 ^ D)) t1) = N) by (rewrite length_map; exact Ht1).
  assert (Eu : ∀ k, (k < N)%nat → map (λ x, mul_mod x (2 ^ D)) t1 !!! k ≡[Q] t1 !!! k * 2 ^ D).
  { intros k Hk. transitivity (mul_mod (t1 !!! k) (2 ^ D)); [|apply mul_mod_cong].
    apply cong_of_eq. apply (list_lookup_total_fmap (λ x, mul_mod x (2 ^ D))). lia. }
  revert Hu Eu. generalize (map (λ x, mul_mod x (2 ^ D)) t1). intros u Hu Eu.
  assert (Hla : length (inv_ntt (poly_sub (dot row (map ntt z)) (poly_pointwise (ntt c) (ntt u)))) = N) by poly_len.
  split; [exact Hla|]. intros i Hi.
  assert (Hv : veq (poly_add (inv_ntt (poly_sub (dot row (map ntt z)) (poly_pointwise (ntt c) (ntt u)))) (times c s2))
                   (poly_add (commitment row y) (times c t0))).
  { apply hat_determines; [poly_len | unfold commitment; poly_len |]. intros k Hk.
    apply (approx_hat row y z s1); try assumption; [by apply Ez|].
    etransitivity; [apply (key_equation_hat u t0 (poly_add (inv_ntt (dot row (map ntt s1))) s2) k)|]; [poly_len..| |].
    { intros j Hj. rewrite Eu by exact Hj. by apply Ht. }
    rewrite hat_add, hat_inv, dot_at by poly_len. reflexivity. }
  pose proof (lookup_veq Q _ _ i Hv) as Hvi. clear Hv. revert Hvi Hla.
  generalize (inv_ntt (poly_sub (dot row (map ntt z)) (poly_pointwise (ntt c) (ntt u)))). intros a Hvi Hla.
  assert (Hw : length (commitment row y) = N) by (unfold commitment; poly_len).
  rewrite (dsa_poly_add_at a _ i Hla (length_times c s2 Hc Hs2) Hi), (dsa_poly_add_at _ _ i Hw (length_times c t0 Hc Ht0) Hi) in Hvi.
  transitivity ((a !!! i + times c s2 !!! i) - times c s2 !!! i); [apply cong_of_eq; ring|].
  rewrite Hvi. apply cong_of_eq. ring.
Qed.
