(* ===== verification/MldsaCorrect.v ===== *)
(** * A signature verifies

    Key generation, signing and verification of ml_dsa.rs together, for any
    extendable-output function, and for the one it uses. *)

From S2P Require Import Prelude Ntt Keccak KeccakFacts Mldsa MldsaFacts MldsaRound MldsaCodec MldsaSample MldsaAlgebra.
#[local] Open Scope ntt_scope.

(** ** One coefficient *)

Lemma make_hint_cong z z' r r' : z ≡[Q] z' → r ≡[Q] r' → make_hint z r = make_hint z' r'.
Proof.
  intros Hz Hr. unfold make_hint. rewrite (high_bits_cong r r' Hr). unfold cong in Hz, Hr. by rewrite Hz, Hr.
Qed.
Lemma use_hint_cong h r r' : r ≡[Q] r' → use_hint h r = use_hint h r'.
Proof. intros Hr. unfold use_hint. by rewrite (decompose_cong r r' Hr). Qed.

Lemma coefficient_recovered ap w cs2 ct0 :
  ap ≡[Q] w - cs2 + ct0 → Z.abs (center cs2) ≤ BETA → Z.abs (low_bits (sub_mod w cs2)) < GAMMA2 - BETA →
  Z.abs (center ct0) < GAMMA2 → use_hint (hint_at w cs2 ct0) ap = high_bits w.
Proof.
  intros Ha Hb Hl Ht. unfold hint_at.
  rewrite (make_hint_cong _ (- center ct0) _ ap).
  - rewrite use_make_hint by lia.
    rewrite (high_bits_cong _ (sub_mod w cs2)).
    + rewrite <- (high_bits_stable (sub_mod w cs2) (center cs2) Hb Hl). apply high_bits_cong.
      rewrite sub_mod_cong, center_cong. apply cong_of_eq. ring.
    + rewrite Ha, sub_mod_cong, center_cong. apply cong_of_eq. ring.
  - rewrite sub_mod_cong, center_cong. apply cong_of_eq. ring.
  - rewrite Ha, add_mod_cong, sub_mod_cong. reflexivity.
Qed.

(** ** The tests on norms *)

Lemma max_abs_lt f k p : max_abs f p < k → Forall (λ c, Z.abs (f c) < k) p.
Proof.
  unfold max_abs. induction p as [|c p IH]; intros H; constructor; cbn [foldr] in H; [lia|]. apply IH. lia.
Qed.
Lemma max_all_lt norm k ps : max_all norm ps < k → Forall (λ p, norm p < k) ps.
Proof.
  unfold max_all. induction ps as [|p ps IH]; intros H; constructor; cbn [foldr] in H; [lia|]. apply IH. lia.
Qed.

(** ** The products with the challenge *)

Lemma veq_center c : veq (map center c) c.
Proof. induction c as [|x c IH]; constructor; [apply center_cong | exact IH]. Qed.
Lemma length_center c : length (map center c) = length c.
Proof. apply length_map. Qed.

Lemma small_bounded s : Forall small s → bounded ETA (map center s).
Proof. intros Hs. apply Forall_fmap. eapply list.Forall_impl; [exact Hs|]. intros x [_ Hx]. unfold compose. lia. Qed.

#[local] Opaque ntt inv_ntt negamul.

Lemma times_center c s : length c = N → length s = N → veq (times c s) (negamul (map center c) (map center s)).
Proof.
  intros Hc Hs. assert (Hc' : length (map center c) = N) by (rewrite length_map; exact Hc).
  assert (Hs' : length (map center s) = N) by (rewrite length_map; exact Hs).
  pose proof (veq_center c) as Ec. pose proof (veq_center s) as Es.
  revert Hc' Hs' Ec Es. generalize (map center c), (map center s). intros c' s' Hc' Hs' Ec Es.
  unfold times. etransitivity; [|exact (inv_ntt_pointwise c' s' Hc' Hs')].
  apply (linear_veq _ _ _ linear_inv_ntt); [poly_len|].
  apply (dsa_veq_pointwise _ _ N); [poly_len | poly_len |].
  intros k Hk. rewrite !pointwise_at by poly_len. rewrite !ntt_at by poly_len.
  by rewrite (evl_proper _ _ _ Ec), (evl_proper _ _ _ Es).
Qed.

(** A value close to a small one is that one, centred. *)
Lemma center_small x y : 0 ≤ x < Q → x ≡[Q] y → Z.abs y ≤ BETA → Z.abs (center x) ≤ BETA.
Proof.
  intros Hx Hxy Hy. rewrite (center_of x y Hx Hxy); [exact Hy|].
  change (Q / 2) with 4190208. change BETA with 196 in Hy. lia.
Qed.

Lemma reduced_at p i : reduced Q p → (i < length p)%nat → 0 ≤ p !!! i < Q.
Proof. intros Hp Hi. exact (Forall_lookup_total_1 _ p i Hp Hi). Qed.

Lemma bounded_at k p i : bounded k p → (i < length p)%nat → Z.abs (p !!! i) ≤ k.
Proof. intros Hp Hi. exact (Forall_lookup_total_1 _ p i Hp Hi). Qed.

Lemma bounded_product c s n : norm1 c ≤ Z.of_nat TAU → bounded ETA s → length s = S n → bounded BETA (negamul c s).
Proof.
  intros Hn Hb Hl. eapply list.Forall_impl; [exact (bounded_negamul c s n ETA Hl Hb)|].
  intros x Hx. cbn beta in Hx. unfold BETA, ETA in *. lia.
Qed.

Lemma times_small c s i : ball_inv (Z.of_nat TAU) c → length s = N → Forall small s → (i < N)%nat →
  Z.abs (center (times c s !!! i)) ≤ BETA.
Proof.
  intros (Hc & _ & Hn) Hs Hsm Hi.
  assert (Hs' : length (map center s) = 256%nat) by (rewrite length_map; exact Hs).
  pose proof (bounded_product (map center c) (map center s) 255 Hn (small_bounded s Hsm) Hs') as Hb.
  pose proof (length_negamul (map center c) (map center s) 255 Hs') as Hln.
  pose proof (lookup_veq Q _ _ i (times_center c s Hc Hs)) as Hv.
  apply (center_small _ _ (reduced_at _ i (reduced_times c s) ltac:(rewrite (length_times c s Hc Hs); exact Hi)) Hv).
  apply bounded_at; [exact Hb|]. rewrite Hln. exact Hi.
Qed.

(** ** One row *)

Lemma list_eq_at (a b : list Z) n : length a = n → length b = n → (∀ i, (i < n)%nat → a !!! i = b !!! i) → a = b.
Proof.
  intros Ha Hb H. apply (list_eq_same_length _ _ n); [lia | lia|]. intros i x y Hi Hx Hy.
  rewrite <- (list_lookup_total_correct _ _ _ Hx), <- (list_lookup_total_correct _ _ _ Hy). by apply H.
Qed.

Lemma length_hint_poly w cs2 ct0 : length w = N → length cs2 = N → length ct0 = N → length (hint_poly w cs2 ct0) = N.
Proof. intros Hw Hs Ht. unfold hint_poly. rewrite length_map, !length_zip_with, Hw, Hs, Ht. reflexivity. Qed.
Lemma hint_poly_bits w cs2 ct0 : bit_poly (hint_poly w cs2 ct0).
Proof. apply Forall_map_all. intros [w0 [c0 d0]]. destruct (hint_at _ _ _); [by right | by left]. Qed.
Lemma hint_poly_at w cs2 ct0 n i : length w = n → length cs2 = n → length ct0 = n → (i < n)%nat →
  hint_poly w cs2 ct0 !!! i = if hint_at (w !!! i) (cs2 !!! i) (ct0 !!! i) then 1 else 0.
Proof.
  revert n cs2 ct0 i. induction w as [|x w IH]; intros n [|y cs2] [|z ct0] i Hw Hs Ht Hi; cbn [length] in *; try lia.
  destruct i as [|i]; [done|]. destruct n as [|n]; [lia|]. exact (IH n cs2 ct0 i ltac:(lia) ltac:(lia) ltac:(lia) ltac:(lia)).
Qed.

Lemma recovered_at h ap i n : length h = n → length ap = n → (i < n)%nat →
  zip_with (λ b r, use_hint (negb (b =? 0)) r) h ap !!! i = use_hint (negb (h !!! i =? 0)) (ap !!! i).
Proof. intros Hh Ha Hi. by apply (lookup_zip_total (λ b r, use_hint (negb (b =? 0)) r) h ap n). Qed.

#[local] Opaque times commitment approx use_hint hint_at high_bits low_bits decompose N.

Lemma Forall_at {P : Z → Prop} p i : Forall P p → (i < length p)%nat → P (p !!! i).
Proof. intros Hp Hi. exact (Forall_lookup_total_1 _ p i Hp Hi). Qed.

Lemma row_rounded w cs2 ct0 ap :
  length w = N → length cs2 = N → length ct0 = N → length ap = N →
  (∀ i, (i < N)%nat → ap !!! i ≡[Q] w !!! i - cs2 !!! i + ct0 !!! i) →
  (∀ i, (i < N)%nat → Z.abs (center (cs2 !!! i)) ≤ BETA) →
  Forall (λ c, Z.abs c < GAMMA2 - BETA) (map low_bits (poly_sub w cs2)) →
  Forall (λ c, Z.abs (center c) < GAMMA2) ct0 →
  zip_with (λ b r, use_hint (negb (b =? 0)) r) (hint_poly w cs2 ct0) ap = map high_bits w.
Proof.
  intros Hw Hs Ht Ha Heq Hb Hlow Hct.
  pose proof (length_hint_poly w cs2 ct0 Hw Hs Ht) as Hh.
  apply (list_eq_at _ _ N); [apply length_zip_ok; assumption | rewrite length_map; exact Hw |].
  intros i Hi. rewrite (recovered_at _ _ i N Hh Ha Hi), (hint_poly_at _ _ _ N i Hw Hs Ht Hi).
  transitivity (high_bits (w !!! i)); [|symmetry; apply (list_lookup_total_fmap high_bits); lia].
  replace (negb _) with (hint_at (w !!! i) (cs2 !!! i) (ct0 !!! i)) by (by destruct (hint_at _ _ _)).
  apply Forall_fmap in Hlow. apply coefficient_recovered; [by apply Heq | by apply Hb | |].
  - pose proof (Forall_at _ i Hlow ltac:(rewrite (dsa_length_poly_sub _ _ Hw Hs); exact Hi)) as H. unfold compose in H.
    unfold poly_sub in H. by rewrite (lookup_zip_total _ w cs2 N i Hw Hs Hi) in H.
  - apply (Forall_at _ i Hct). lia.
Qed.

(** ** Keys

    The rows of the public matrix, each with its polynomial of [s2]. *)

Abbreviation Row := (list Poly * Poly)%type.
Definition key_t (s1 : list Poly) (r : Row) : Poly := poly_add (inv_ntt (dot r.1 (map ntt s1))) r.2.
Definition key_t1 (s1 : list Poly) (r : Row) : Poly := map (λ x, (power2round x).1) (key_t s1 r).
Definition key_t0 (s1 : list Poly) (r : Row) : Poly := map (λ x, (power2round x).2 mod Q) (key_t s1 r).
Definition row_ok (r : Row) : Prop := polys r.1 ∧ length r.2 = N ∧ Forall small r.2.

Lemma length_key_t s1 r : polys s1 → row_ok r → length (key_t s1 r) = N.
Proof. intros Hs (Hr & Hl & _). unfold key_t. poly_len. Qed.

Lemma power2round_parts x : 0 ≤ x < Q →
  let (r1, r0) := power2round x in t1_ok r1 ∧ below_ok (2 ^ (D - 1)) 13 (r0 mod Q) ∧ r1 * 2 ^ D + r0 mod Q ≡[Q] x.
Proof.
  intros Hx. pose proof (power2round_spec x) as H. destruct (power2round x) as [r1 r0]. destruct H as (E & Hr0 & Hr1).
  split; [exact Hr1|]. split.
  - split; [apply mod_Q_range|]. change (2 ^ (D - 1)) with 4096 in *.
    rewrite (center_of _ r0); [change (2 ^ Z.of_nat 13) with 8192; lia | apply mod_Q_range | apply mod_cong |].
    change (Q / 2) with 4190208. lia.
  - rewrite mod_cong, E. apply mod_cong.
Qed.

Lemma key_parts s1 r : polys s1 → row_ok r →
  (length (key_t1 s1 r) = N ∧ Forall t1_ok (key_t1 s1 r)) ∧
  (length (key_t0 s1 r) = N ∧ Forall (below_ok (2 ^ (D - 1)) 13) (key_t0 s1 r)) ∧
  ∀ i, (i < N)%nat → key_t1 s1 r !!! i * 2 ^ D + key_t0 s1 r !!! i ≡[Q] key_t s1 r !!! i.
Proof.
  intros Hs Hr. pose proof (length_key_t s1 r Hs Hr) as Hl. unfold key_t1, key_t0.
  assert (Hred : reduced Q (key_t s1 r)).
  { apply dsa_reduced_poly_add; [apply reduced_inv_ntt|]. destruct Hr as (_ & _ & H).
    eapply list.Forall_impl; [exact H|]. by intros x []. }
  revert Hl Hred. generalize (key_t s1 r). intros t Hl Hred. rewrite !length_map.
  split; [split; [exact Hl|]|split; [split; [exact Hl|]|]].
  - apply Forall_fmap. eapply list.Forall_impl; [exact Hred|]. intros x Hx. unfold compose.
    pose proof (power2round_parts x Hx) as H. destruct (power2round x) as [r1 r0]. apply H.
  - apply Forall_fmap. eapply list.Forall_impl; [exact Hred|]. intros x Hx. unfold compose.
    pose proof (power2round_parts x Hx) as H. destruct (power2round x) as [r1 r0]. apply H.
  - intros i Hi. pose proof (reduced_at t i Hred ltac:(lia)) as Hx.
    assert (E1 : map (λ x, (power2round x).1) t !!! i = (power2round (t !!! i)).1) by (apply (list_lookup_total_fmap (λ x, (power2round x).1)); lia).
    assert (E0 : map (λ x, (power2round x).2 mod Q) t !!! i = (power2round (t !!! i)).2 mod Q) by (apply (list_lookup_total_fmap (λ x, (power2round x).2 mod Q)); lia).
    rewrite E1, E0. pose proof (power2round_parts _ Hx) as H. destruct (power2round (t !!! i)) as [r1 r0]. apply H.
Qed.

Lemma eta_ok c : small c → below_ok ETA 4 c.
Proof. intros [Hc Hs]. split; [exact Hc|]. change (2 ^ Z.of_nat 4) with 16. unfold ETA in *. lia. Qed.
Lemma small_packs p : length p = N ∧ Forall small p →
  length (pack_eta p) = stride 4 ∧ unpack_eta (pack_eta p) = p.
Proof.
  intros [Hl Hs]. assert (Hb : Forall (below_ok ETA 4) p) by (eapply list.Forall_impl; [exact Hs | exact eta_ok]).
  split; [apply (length_pack_below ETA 4 p) | apply (unpack_pack_below ETA 4 p)]; solve [lia | assumption].
Qed.
Lemma t0_packs p : length p = N ∧ Forall (below_ok (2 ^ (D - 1)) 13) p →
  length (pack_t0 p) = stride 13 ∧ unpack_t0 (pack_t0 p) = p.
Proof. intros [Hl Hb]. split; [apply (length_pack_below (2 ^ (D - 1)) 13 p) | apply (unpack_pack_below (2 ^ (D - 1)) 13 p)]; solve [lia | assumption]. Qed.
Lemma t1_packs p : length p = N ∧ Forall t1_ok p → length (pack_t1 p) = stride 10 ∧ unpack_t1 (pack_t1 p) = p.
Proof. intros [Hl Hb]. split; [by apply length_pack_t1 | by apply unpack_pack_t1]. Qed.
Lemma z_packs p : length p = N ∧ Forall (below_ok GAMMA1 20) p → length (pack_z p) = stride 20 ∧ unpack_z (pack_z p) = p.
Proof. intros [Hl Hb]. split; [apply (length_pack_below GAMMA1 20 p) | apply (unpack_pack_below GAMMA1 20 p)]; solve [lia | assumption]. Qed.

Lemma vec_length pack width (P : Poly → Prop) unpack n ps :
  (∀ p, P p → length (pack p : bytes) = width ∧ unpack (pack p) = p) → length ps = n → Forall P ps →
  length (concat (map pack ps)) = (width * n)%nat.
Proof. intros H <- Hps. apply (length_packed pack width ps P); [|exact Hps]. intros p Hp. by apply H. Qed.

(** ** Encoded keys and signatures *)

Lemma pk_layout rho t1 : length rho = 32%nat → length t1 = K →
  Forall (λ p, length p = N ∧ Forall t1_ok p) t1 →
  length (pk_encode rho t1) = PUBLIC_KEY_LEN ∧ pk_decode (pk_encode rho t1) = (rho, t1).
Proof.
  intros Hr Hl Ht. unfold pk_encode, pk_decode. split.
  - rewrite length_app, Hr, (vec_length _ _ _ _ K _ t1_packs Hl Ht). unfold PUBLIC_KEY_LEN. lia.
  - rewrite take_app_length' by lia. f_equal. rewrite <- Hl. rewrite <- (app_nil_r (concat _)).
    eapply unpack_from_packed; [exact t1_packs | exact Ht | by rewrite Hr].
Qed.

Lemma sk_layout rho k_seed tr s1 s2 t0 :
  length rho = 32%nat → length k_seed = 32%nat → length tr = 64%nat →
  small_vec L s1 → small_vec K s2 → length t0 = K → Forall (λ p, length p = N ∧ Forall (below_ok (2 ^ (D - 1)) 13) p) t0 →
  sk_decode (rho ++ k_seed ++ tr ++ concat (map pack_eta s1) ++ concat (map pack_eta s2) ++ concat (map pack_t0 t0)) =
  {| sk_rho := rho; sk_k_seed := k_seed; sk_tr := tr; sk_s1 := s1; sk_s2 := s2; sk_t0 := t0 |}.
Proof.
  intros Hr Hk Htr [Hl1 Hs1] [Hl2 Hs2] Hl0 Ht0. unfold sk_decode.
  pose proof (vec_length _ _ _ _ L _ small_packs Hl1 Hs1) as Hc1.
  pose proof (vec_length _ _ _ _ K _ small_packs Hl2 Hs2) as Hc2.
  f_equal.
  - slice_simpl. done.
  - slice_simpl. done.
  - slice_simpl. done.
  - rewrite <- Hl1, !app_assoc, <- (app_assoc _ (concat (map pack_eta s2))), <- (app_assoc _ (concat (map pack_eta s1))).
    eapply unpack_from_packed; [exact small_packs | exact Hs1 |]. rewrite !length_app, Hr, Hk, Htr. reflexivity.
  - rewrite <- Hl2, !app_assoc, <- (app_assoc _ (concat (map pack_eta s2))).
    eapply unpack_from_packed; [exact small_packs | exact Hs2 |]. rewrite !length_app, Hr, Hk, Htr, Hc1. reflexivity.
  - rewrite <- Hl0 at 2. rewrite !app_assoc, <- (app_nil_r (concat (map pack_t0 t0))).
    eapply unpack_from_packed; [exact t0_packs | exact Ht0 |]. rewrite !length_app, Hr, Hk, Htr, Hc1, Hc2. reflexivity.
Qed.

Lemma sig_layout c_tilde z h : length c_tilde = C_TILDE_LEN → length z = L →
  Forall (λ p, length p = N ∧ Forall (below_ok GAMMA1 20) p) z → hint_ok h →
  length (sig_encode c_tilde z h) = SIGNATURE_LEN ∧ sig_decode (sig_encode c_tilde z h) = Some (c_tilde, z, h).
Proof.
  intros Hc Hl Hz Hh. pose proof (vec_length _ _ _ _ L _ z_packs Hl Hz) as Hcz.
  pose proof (length_encode_hint h Hh) as Hle. unfold sig_encode, sig_decode. split.
  - rewrite !length_app, Hc, Hcz, Hle. reflexivity.
  - assert (Es : slice (C_TILDE_LEN + stride 20 * L) (C_TILDE_LEN + stride 20 * L + OMEGA + K)
      (c_tilde ++ concat (map pack_z z) ++ encode_hint h) = encode_hint h).
    { rewrite app_assoc, <- (app_nil_r (encode_hint h)) at 1. rewrite <- app_assoc, app_assoc.
      apply slice_app_at; rewrite ?length_app, Hc, Hcz; [reflexivity|]. rewrite Hle. lia. }
    cbv zeta. rewrite Es, (decode_encode_hint h Hh). cbn [mbind option_bind].
    rewrite take_app_length' by lia. do 3 f_equal. rewrite <- Hl.
    eapply unpack_from_packed; [exact z_packs | exact Hz | by rewrite Hc].
Qed.

Section Correct.
Context `{HL : XofLaws}.

Lemma dsa_length_hash parts n : length (hash parts n) = n.
Proof. apply xof_length. Qed.

Lemma zip_rows {C} (f : list Poly → Poly → C) a s2 : zip_with f a s2 = map (λ r : Row, f r.1 r.2) (zip a s2).
Proof. revert s2. induction a as [|x a IH]; intros [|y s2]; [done..|]. cbn. by rewrite IH. Qed.

(** A generated key, by its rows. *)
Record key_of (fuel : nat) (rho k_seed : bytes) (s1 : list Poly) (rows : list Row) : Prop := {
  key_rho : length rho = 32%nat;
  key_seed : length k_seed = 32%nat;
  key_s1 : small_vec L s1;
  key_rows : length rows = K;
  key_rows_ok : Forall row_ok rows;
  key_matrix : expand_a fuel rho = Some (map fst rows);
}.
Definition key_pk (rho : bytes) (s1 : list Poly) (rows : list Row) : bytes := pk_encode rho (map (key_t1 s1) rows).
Definition key_sk (rho k_seed : bytes) (s1 : list Poly) (rows : list Row) : bytes :=
  rho ++ k_seed ++ hash [key_pk rho s1 rows] 64 ++ concat (map pack_eta s1) ++ concat (map pack_eta (map snd rows)) ++
    concat (map pack_t0 (map (key_t0 s1) rows)).

Lemma keypair_rows fuel seed pk sk : keypair_from_seed fuel seed = Some (pk, sk) →
  ∃ rho k_seed s1 rows, key_of fuel rho k_seed s1 rows ∧ pk = key_pk rho s1 rows ∧ sk = key_sk rho k_seed s1 rows.
Proof.
  unfold keypair_from_seed. set (ex := hash _ 128). assert (Hex : length ex = 128%nat) by apply dsa_length_hash. clearbody ex.
  destruct (expand_a fuel (slice 0 32 ex)) as [a|] eqn:Ea; [|done]. cbn [mbind option_bind].
  destruct (expand_s fuel (slice 32 96 ex)) as [[s1 s2]|] eqn:Es; [|done]. cbn [mbind option_bind].
  rewrite (zip_rows (λ row s, poly_add (inv_ntt (dot row (map ntt s1))) s) a s2), !map_map.
  intros Hpair. apply (inj Some), pair_equal_spec in Hpair as [<- <-].
  destruct (expand_a_ok _ _ _ Ea) as [Ha Hrows]. destruct (expand_s_ok _ _ _ _ Es) as [Hs1 [Hl2 Hs2]].
  assert (Efst : map fst (zip a s2) = a) by (apply fst_zip; lia).
  assert (Esnd : map snd (zip a s2) = s2) by (apply snd_zip; lia).
  exists (slice 0 32 ex), (slice 96 128 ex), s1, (zip a s2). split; [split|split].
  - rewrite length_slice; lia.
  - rewrite length_slice; lia.
  - exact Hs1.
  - rewrite length_zip_with. lia.
  - clear -Hrows Hs2. revert s2 Hs2. induction Hrows as [|row a [_ Hrow] _ IH]; intros [|s s2] Hs2; constructor;
      apply list.Forall_cons in Hs2 as [Hs Hs2]; [by split | by apply IH].
  - rewrite Efst. exact Ea.
  - reflexivity.
  - unfold key_sk. rewrite Esnd, map_map. reflexivity.
Qed.

Lemma small_polys n v : small_vec n v → polys v.
Proof. intros [_ Hv]. eapply list.Forall_impl; [exact Hv|]. by intros p []. Qed.

Lemma key_codecs fuel rho k_seed s1 rows : key_of fuel rho k_seed s1 rows →
  length (key_pk rho s1 rows) = PUBLIC_KEY_LEN ∧
  pk_decode (key_pk rho s1 rows) = (rho, map (key_t1 s1) rows) ∧
  sk_decode (key_sk rho k_seed s1 rows) =
    {| sk_rho := rho; sk_k_seed := k_seed; sk_tr := hash [key_pk rho s1 rows] 64;
       sk_s1 := s1; sk_s2 := map snd rows; sk_t0 := map (key_t0 s1) rows |}.
Proof.
  intros [Hr Hk Hs1 Hl Hrows Ha]. pose proof (small_polys _ _ Hs1) as Hp.
  assert (Ht1 : Forall (λ p, length p = N ∧ Forall t1_ok p) (map (key_t1 s1) rows)).
  { apply Forall_fmap. eapply list.Forall_impl; [exact Hrows|]. intros r Hr'. by destruct (key_parts s1 r Hp Hr'). }
  assert (Ht0 : Forall (λ p, length p = N ∧ Forall (below_ok (2 ^ (D - 1)) 13) p) (map (key_t0 s1) rows)).
  { apply Forall_fmap. eapply list.Forall_impl; [exact Hrows|]. intros r Hr'. by destruct (key_parts s1 r Hp Hr') as (_ & Hd & _). }
  assert (Hs2 : small_vec K (map snd rows)).
  { split; [by rewrite length_map|]. apply Forall_fmap. eapply list.Forall_impl; [exact Hrows|]. by intros r (_ & Hd). }
  destruct (pk_layout rho (map (key_t1 s1) rows) Hr ltac:(by rewrite length_map) Ht1) as [Hlen Hpk].
  split; [exact Hlen|]. split; [exact Hpk|].
  apply sk_layout; [exact Hr | exact Hk | apply dsa_length_hash | exact Hs1 | exact Hs2 | by rewrite length_map | exact Ht0].
Qed.

(** ** An accepted candidate *)

Definition commitments (rows : list Row) (y : list Poly) : list Poly := map (λ r, commitment r.1 y) rows.
Definition challenge_hash (mu : bytes) (rows : list Row) (y : list Poly) : bytes :=
  hash [mu; w1_encode (map (map high_bits) (commitments rows y))] C_TILDE_LEN.
Definition response (c : Poly) (s1 y : list Poly) : list Poly := zip_with poly_add y (map (times c) s1).
Definition hints (c : Poly) (s1 : list Poly) (rows : list Row) (y : list Poly) : list Poly :=
  map (λ r, hint_poly (commitment r.1 y) (times c r.2) (times c (key_t0 s1 r))) rows.
Definition row_accepted (c : Poly) (s1 y : list Poly) (r : Row) : Prop :=
  Forall (λ x, Z.abs x < GAMMA2 - BETA) (map low_bits (poly_sub (commitment r.1 y) (times c r.2))) ∧
  Forall (λ x, Z.abs (center x) < GAMMA2) (times c (key_t0 s1 r)).

Lemma zip_map_both {A B C D} (f : B → C → D) (g : A → B) (h : A → C) l :
  zip_with f (map g l) (map h l) = map (λ x, f (g x) (h x)) l.
Proof. induction l as [|x l IH]; [done|]. cbn. by rewrite IH. Qed.

Lemma attempt_accepted fuel mu rows s1 y sig :
  sign_attempt fuel mu (map fst rows) (map ntt s1) (map ntt (map snd rows)) (map ntt (map (key_t0 s1) rows)) y = Some (Some sig) →
  ∃ c, sample_in_ball fuel (challenge_hash mu rows y) = Some c ∧
    sig = sig_encode (challenge_hash mu rows y) (response c s1 y) (hints c s1 rows y) ∧
    max_all norm_inf (response c s1 y) < GAMMA1 - BETA ∧ Forall (row_accepted c s1 y) rows ∧
    (length (filter (λ b, b ≠ 0%Z) (concat (hints c s1 rows y))) ≤ OMEGA)%nat.
Proof.
  unfold sign_attempt. cbv zeta. rewrite map_map.
  rewrite (commitments_eq (λ r : Row, r.1) y rows). fold (commitments rows y).
  fold (challenge_hash mu rows y). destruct (sample_in_ball _ _) as [c|]; [|done]. cbn [mbind option_bind].
  rewrite !times_hat_times, !map_map. fold (response c s1 y).
  unfold commitments. rewrite !zip_map_both, !map_map. fold (hints c s1 rows y).
  destruct (Z.leb_spec (GAMMA1 - BETA) (max_all norm_inf (response c s1 y))) as [?|Hz]; [done|]. cbn [orb].
  destruct (Z.leb_spec (GAMMA2 - BETA) (max_all infinity_low (map (λ r, map low_bits (poly_sub (commitment r.1 y) (times c r.2))) rows))) as [?|Hl]; [done|].
  destruct (Z.leb_spec GAMMA2 (max_all norm_inf (map (λ r, times c (key_t0 s1 r)) rows))) as [?|Ht]; [done|]. cbn [orb].
  destruct (Nat.ltb_spec OMEGA (length (filter (λ b, b ≠ 0%Z) (concat (hints c s1 rows y))))) as [?|Ho]; [done|].
  intros Hsig. exists c. split; [reflexivity|]. split; [apply (inj Some), (inj Some) in Hsig; symmetry; exact Hsig|]. split; [exact Hz|]. split; [|exact Ho].
  apply max_all_lt, Forall_fmap in Hl. apply max_all_lt, Forall_fmap in Ht.
  apply Forall_and; [eapply list.Forall_impl; [exact Hl|] | eapply list.Forall_impl; [exact Ht|]]; intros r Hr; exact (max_abs_lt _ _ _ Hr).
Qed.

Definition masks_ok (y : list Poly) : Prop := length y = L ∧ Forall (λ p, length p = N ∧ reduced Q p) y.

Lemma sign_loop_accepted tries fuel rho_pp mu a s1h s2h t0h kappa sig :
  sign_loop tries fuel rho_pp mu a s1h s2h t0h kappa = Some sig →
  ∃ y, masks_ok y ∧ sign_attempt fuel mu a s1h s2h t0h y = Some (Some sig).
Proof.
  revert kappa. induction tries as [|tries IH]; intros kappa; [done|]. cbn [sign_loop].
  set (y := map _ (seq 0 L)). destruct (sign_attempt _ _ _ _ _ _ y) as [[sg|]|] eqn:Ea; cbn [mbind option_bind]; [|apply IH|done].
  intros [= ->]. exists y. split; [|exact Ea]. split; [unfold y; by rewrite length_map|].
  apply Forall_map_all. intros r. apply expand_mask_ok.
Qed.

(** ** The verifier's side *)

Lemma masks_polys y : masks_ok y → polys y.
Proof. intros [_ Hy]. eapply list.Forall_impl; [exact Hy|]. by intros p []. Qed.

Lemma row_recovered c s1 y r : ball_inv (Z.of_nat TAU) c → small_vec L s1 → masks_ok y → row_ok r → row_accepted c s1 y r →
  zip_with (λ b x, use_hint (negb (b =? 0)) x) (hint_poly (commitment r.1 y) (times c r.2) (times c (key_t0 s1 r)))
    (approx r.1 (response c s1 y) c (key_t1 s1 r)) = map high_bits (commitment r.1 y).
Proof.
  intros Hc Hs1 Hy Hr [Hlow Hct]. pose proof (small_polys _ _ Hs1) as Hps. pose proof (masks_polys y Hy) as Hpy.
  destruct (key_parts s1 r Hps Hr) as ((Hl1 & _) & (Hl0 & _) & Hkey). destruct Hr as (Hrow & Hl2 & Hsm).
  assert (Hlc : length c = N) by apply Hc.
  destruct (approx_row r.1 y s1 r.2 c (key_t1 s1 r) (key_t0 s1 r)) as [Hla Ha]; try assumption.
  { destruct Hy as [-> _]. by destruct Hs1 as [-> _]. }
  apply row_rounded; [| by apply length_times | by apply length_times | exact Hla | exact Ha | | exact Hlow | exact Hct].
  - with_strategy transparent [commitment] (unfold commitment). poly_len.
  - intros i Hi. by apply times_small.
Qed.

Lemma recovered_commitments c s1 y rows : ball_inv (Z.of_nat TAU) c → small_vec L s1 → masks_ok y →
  Forall row_ok rows → Forall (row_accepted c s1 y) rows →
  recover_w1 (map fst rows) (ntt c) (map (key_t1 s1) rows) (response c s1 y) (hints c s1 rows y) =
  map (map high_bits) (commitments rows y).
Proof.
  intros Hc Hs1 Hy Hok Hacc. unfold recover_w1, hints, commitments. cbv zeta.
  rewrite map_map, !zip_map_both, !map_map. apply map_ext_Forall.
  eapply list.Forall_impl; [exact (Forall_and Hok Hacc)|]. intros r [Hr Ha].
  rewrite approx_eq. by apply row_recovered.
Qed.

Lemma response_ok c s1 y : ball_inv (Z.of_nat TAU) c → small_vec L s1 → masks_ok y →
  max_all norm_inf (response c s1 y) < GAMMA1 - BETA →
  length (response c s1 y) = L ∧ Forall (λ p, length p = N ∧ Forall (below_ok GAMMA1 20) p) (response c s1 y).
Proof.
  intros Hc [Hl1 Hs1] [Hly Hy] Hmax. apply max_all_lt in Hmax. revert Hmax. unfold response.
  split; [rewrite length_zip_with, length_map; lia|].
  assert (Hred : Forall (λ p, length p = N ∧ reduced Q p) (zip_with poly_add y (map (times c) s1))).
  { clear -Hc Hs1 Hy. revert s1 Hs1. induction Hy as [|p y [Hp Hr] _ IH]; intros [|s s1] Hs1; constructor;
      apply list.Forall_cons in Hs1 as [[Hs _] Hs1]; [|by apply IH]. destruct Hc as [Hc _].
    split; [apply dsa_length_poly_add; [exact Hp | by apply length_times] | apply dsa_reduced_poly_add; [exact Hr | apply reduced_times]]. }
  eapply list.Forall_impl; [exact (Forall_and Hred Hmax)|]. intros p [[Hp Hr] Hn]. split; [exact Hp|].
  apply max_abs_lt in Hn. eapply list.Forall_impl; [exact (Forall_and Hr Hn)|]. intros x [Hx Hb].
  split; [exact Hx|]. change GAMMA1 with 524288 in *. change BETA with 196 in *. change (2 ^ Z.of_nat 20) with 1048576. lia.
Qed.

Lemma hints_ok c s1 rows y : ball_inv (Z.of_nat TAU) c → small_vec L s1 → masks_ok y → length rows = K → Forall row_ok rows →
  (length (filter (λ b, b ≠ 0%Z) (concat (hints c s1 rows y))) ≤ OMEGA)%nat → hint_ok (hints c s1 rows y).
Proof.
  intros (Hc & _) Hs1 Hy Hl Hok Ho. split; [unfold hints; by rewrite length_map|]. split; [|exact Ho].
  apply Forall_fmap. eapply list.Forall_impl; [exact Hok|]. intros r Hr. unfold compose. split; [apply hint_poly_bits|].
  pose proof (small_polys _ _ Hs1) as Hps. destruct (key_parts s1 r Hps Hr) as (_ & (Hl0 & _) & _).
  destruct Hr as (Hrow & Hl2 & _). pose proof (masks_polys y Hy) as Hpy.
  apply length_hint_poly; [with_strategy transparent [commitment] (unfold commitment); poly_len | by apply length_times..].
Qed.

Lemma signature_verifies tries fuel rho k_seed s1 rows msg sig :
  key_of fuel rho k_seed s1 rows →
  sign tries fuel (key_sk rho k_seed s1 rows) msg = Some sig →
  verify fuel (key_pk rho s1 rows) msg sig = Some true.
Proof.
  intros Hkey Hsign. destruct (key_codecs fuel rho k_seed s1 rows Hkey) as (Hpkl & Hpk & Hsk).
  destruct Hkey as [Hr Hk Hs1 Hl Hrows Ha].
  unfold sign in Hsign. rewrite Hsk in Hsign. cbn [sk_rho sk_k_seed sk_tr sk_s1 sk_s2 sk_t0] in Hsign.
  rewrite Ha in Hsign. cbn [mbind option_bind] in Hsign.
  apply sign_loop_accepted in Hsign as (y & Hy & Hsign).
  apply attempt_accepted in Hsign as (c & Hc & -> & Hz & Hacc & Ho).
  pose proof (sample_in_ball_inv _ _ _ Hc) as Hball.
  destruct (response_ok c s1 y Hball Hs1 Hy Hz) as [Hlz Hbz].
  pose proof (hints_ok c s1 rows y Hball Hs1 Hy Hl Hrows Ho) as Hh.
  destruct (sig_layout (challenge_hash (message_mu (hash [key_pk rho s1 rows] 64) msg) rows y) _ _ (dsa_length_hash _ _) Hlz Hbz Hh) as [Hsl Hsd].
  unfold verify. rewrite Hpkl, Hsl, !Nat.eqb_refl. cbn [negb orb]. rewrite Hpk, Hsd.
  destruct (Z.leb_spec (GAMMA1 - BETA) (max_all norm_inf (response c s1 y))) as [?|_]; [lia|].
  rewrite Ha. cbn [mbind option_bind]. rewrite Hc. cbn [mbind option_bind].
  rewrite recovered_commitments by assumption. f_equal. by apply bool_decide_true.
Qed.
End Correct.

(** The program's sponge gives as many bytes as it is asked for. *)
Lemma sponge_ok_parts parts k : sponge_ok k → (kc_offset k < kc_rate k)%nat → sponge_ok (fold_left absorb parts k).
Proof.
  revert k. induction parts as [|p parts IH]; intros k Hk Ho; [exact Hk|]. cbn [fold_left].
  destruct (sponge_ok_absorb k p Hk Ho) as [Hk' Ho']. by apply IH.
Qed.
#[export] Instance keccak_xof_laws : @XofLaws keccak_xof.
Proof.
  split. intros parts n. apply length_squeeze, sponge_ok_parts; [split|]; cbn; lia.
Qed.

(** A function to evaluate the whole exchange on. *)
Definition toy_xof : Xof :=
  {| xof_state := byte; xof128 := λ _, Byte.x02; xof256 := λ _, Byte.x44; xof_squeeze := λ s n, (replicate n s, s) |}.
#[export] Instance toy_xof_laws : @XofLaws toy_xof.
Proof. split. intros parts n. apply length_replicate. Qed.
Definition toy_signing_seed : bytes := replicate 32 Byte.x2a.

(** C36: What the signer makes, the verifier accepts: for every seed, every
    message and every extendable-output function of the lengths the code
    relies on (SHAKE256 is), when key generation and signing return, the
    signature verifies under the public key. It covers the transform, the
    rounding with its hints, the sampled challenge and every encoding of
    keys and signatures. *)
Theorem mldsa_sign_verifies `{XofLaws} tries fuel seed pk sk message sig :
  keypair_from_seed fuel seed = Some (pk, sk) →
  sign tries fuel sk message = Some sig →
  verify fuel pk message sig = Some true.
Proof.
  intros Hkey Hsign. destruct (keypair_rows _ _ _ _ Hkey) as (rho & k_seed & s1 & rows & Hk & -> & ->).
  exact (signature_verifies tries fuel rho k_seed s1 rows message sig Hk Hsign).
Qed.

Lemma toy_signs :
  match @keypair_from_seed toy_xof 400 toy_signing_seed with
  | Some (_, sk) => match @sign toy_xof 1 400 sk toy_signing_seed with Some _ => true | None => false end
  | None => false
  end = true.
Proof. vm_compute. reflexivity. Qed.

Lemma mldsa_sign_verifies_witness :
  ∃ pk sk sig, @keypair_from_seed toy_xof 400 toy_signing_seed = Some (pk, sk) ∧
    @sign toy_xof 1 400 sk toy_signing_seed = Some sig ∧
    @verify toy_xof 400 pk toy_signing_seed sig = Some true.
Proof.
  pose proof toy_signs as Ht.
  destruct (@keypair_from_seed toy_xof 400 toy_signing_seed) as [[pk sk]|] eqn:Ek; [|discriminate Ht].
  destruct (@sign toy_xof 1 400 sk toy_signing_seed) as [sig|] eqn:Es; [|discriminate Ht].
  exists pk, sk, sig. split; [reflexivity|]. split; [exact Es|].
  exact (mldsa_sign_verifies (H0 := toy_xof_laws) 1 400 toy_signing_seed pk sk toy_signing_seed sig Ek Es).
Defined.
