(* ===== verification/Hybrid.v ===== *)
(** * The hybrid key exchange

    ciphra-crypto/src/hybrid.rs: the two hellos, the secrets of both sides and
    the key derived from them; the channel cipher of the file is in Server.v.
    Random bytes are arguments. The Diffie-Hellman function is an interface,
    which X25519 implements; so are the hash functions of ML-KEM. *)

From S2P Require Import Prelude X25519 X25519Facts Keccak KeccakFacts Mlkem MlkemKem MlkemCorrect.

(** ** Key agreement *)

Class KeyAgreement := {
  ka_public : bytes → bytes;
  ka_agree : bytes → bytes → bytes;
}.
Class KeyAgreementLaws `{KeyAgreement} : Prop := {
  ka_public_length : ∀ s, length (ka_public s) = 32%nat;
  ka_agree_length : ∀ s u, length (ka_agree s u) = 32%nat;
}.
#[export] Instance x25519_agreement : KeyAgreement := {| ka_public := public_key; ka_agree := diffie_hellman |}.

Lemma length_fe_to_bytes t : length (fe_to_bytes t) = 32%nat.
Proof. unfold fe_to_bytes. generalize (fe_freeze t). intros [a b c d e]. len_solve. Qed.
Lemma length_scalarmult s u : length (scalarmult s u) = 32%nat.
Proof.
  unfold scalarmult. cbv zeta. set (st := fold_left (ladder_step _ _) _ _). clearbody st.
  destruct (fe_cswap (lx2 st) (lx3 st) (lswap st)) as [x2 ?], (fe_cswap (lz2 st) (lz3 st) (lswap st)) as [z2 ?].
  apply length_fe_to_bytes.
Qed.
#[export] Instance x25519_agreement_laws : KeyAgreementLaws.
Proof. split; [intros s; exact (length_scalarmult s BASE_POINT) | exact length_scalarmult]. Qed.

(** ** The messages and the states *)

Record ServerIdentity : Type := mkIdentity { si_secret : bytes; si_public : bytes }.
Record ClientHello : Type := mkClientHello { ch_e_c : bytes; ch_ek : bytes }.
Record ServerHello : Type := mkServerHello { sh_e_s : bytes; sh_ct : bytes }.
Record ClientState : Type := mkClientState { cs_e_secret : bytes; cs_e_public : bytes; cs_ek : bytes; cs_dk : bytes }.

Definition CLIENT_HELLO_LEN : nat := 32 + EK_LEN.
Definition SERVER_HELLO_LEN : nat := 32 + CT_LEN.

Definition client_hello_to_bytes (h : ClientHello) : bytes := ch_e_c h ++ ch_ek h.
Definition client_hello_from_bytes (b : bytes) : option ClientHello :=
  if negb (length b =? CLIENT_HELLO_LEN)%nat then None else Some (mkClientHello (take 32 b) (drop 32 b)).
Definition server_hello_to_bytes (h : ServerHello) : bytes := sh_e_s h ++ sh_ct h.
Definition server_hello_from_bytes (b : bytes) : option ServerHello :=
  if negb (length b =? SERVER_HELLO_LEN)%nat then None else Some (mkServerHello (take 32 b) (drop 32 b)).

(** The parts that [derive_key] absorbs, in order. *)
Definition key_parts (dh_e dh_s ss_pq e_c ek e_s ct : bytes) : list bytes :=
  [bs "ciphra/transport/v1"; dh_e; dh_s; ss_pq; e_c; ek; e_s; ct].
Definition derive_key (dh_e dh_s ss_pq e_c ek e_s ct : bytes) : bytes :=
  (squeeze (fold_left absorb (key_parts dh_e dh_s ss_pq e_c ek e_s ct) sha3_256_new) 32).1.

Section Exchange.
Context `{KeyAgreement} `{KemHash}.

Definition identity_from_secret (secret : bytes) : ServerIdentity := mkIdentity secret (ka_public secret).

(** [d] and [z] are what [KeyPair::generate] draws. *)
Definition client_start (e_secret d z : bytes) : option (ClientState * ClientHello) :=
  let e_public := ka_public e_secret in
  kp ← keygen_internal d z;
  Some (mkClientState e_secret e_public (kp_ek kp) (kp_dk kp), mkClientHello e_public (kp_ek kp)).

Definition client_finish (state : ClientState) (hello : ServerHello) (server_static_public : bytes) : option bytes :=
  let dh_e := ka_agree (cs_e_secret state) (sh_e_s hello) in
  let dh_s := ka_agree (cs_e_secret state) server_static_public in
  ss_pq ← decapsulate (cs_dk state) (sh_ct hello);
  Some (derive_key dh_e dh_s ss_pq (cs_e_public state) (cs_ek state) (sh_e_s hello) (sh_ct hello)).

(** [m] is what [encapsulate] draws. *)
Definition server_respond (identity : ServerIdentity) (e_secret m : bytes) (hello : ClientHello) : option (ServerHello * bytes) :=
  let e_public := ka_public e_secret in
  let dh_e := ka_agree e_secret (ch_e_c hello) in
  let dh_s := ka_agree (si_secret identity) (ch_e_c hello) in
  '(ct, ss_pq) ← encaps_internal (ch_ek hello) m;
  Some (mkServerHello e_public ct, derive_key dh_e dh_s ss_pq (ch_e_c hello) (ch_ek hello) e_public ct).

(** What each side hashes into the key. *)
Definition client_transcript (state : ClientState) (hello : ServerHello) (server_static_public : bytes) : option bytes :=
  ss_pq ← decapsulate (cs_dk state) (sh_ct hello);
  Some (concat (key_parts (ka_agree (cs_e_secret state) (sh_e_s hello)) (ka_agree (cs_e_secret state) server_static_public)
    ss_pq (cs_e_public state) (cs_ek state) (sh_e_s hello) (sh_ct hello))).
Definition server_transcript (identity : ServerIdentity) (e_secret m : bytes) (hello : ClientHello) : option bytes :=
  '(ct, ss_pq) ← encaps_internal (ch_ek hello) m;
  Some (concat (key_parts (ka_agree e_secret (ch_e_c hello)) (ka_agree (si_secret identity) (ch_e_c hello))
    ss_pq (ch_e_c hello) (ch_ek hello) (ka_public e_secret) ct)).
End Exchange.

(** ** The hellos on the wire *)

Lemma client_hello_roundtrip h : length (ch_e_c h) = 32%nat → length (ch_ek h) = EK_LEN →
  client_hello_from_bytes (client_hello_to_bytes h) = Some h.
Proof.
  destruct h as [e k]. cbn [ch_e_c ch_ek]. intros He Hk. unfold client_hello_from_bytes, client_hello_to_bytes. cbn [ch_e_c ch_ek].
  rewrite length_app, He, Hk, Nat.eqb_refl. cbn [negb]. by rewrite take_app_length', drop_app_length' by lia.
Qed.
Lemma server_hello_roundtrip h : length (sh_e_s h) = 32%nat → length (sh_ct h) = CT_LEN →
  server_hello_from_bytes (server_hello_to_bytes h) = Some h.
Proof.
  destruct h as [e k]. cbn [sh_e_s sh_ct]. intros He Hk. unfold server_hello_from_bytes, server_hello_to_bytes. cbn [sh_e_s sh_ct].
  rewrite length_app, He, Hk, Nat.eqb_refl. cbn [negb]. by rewrite take_app_length', drop_app_length' by lia.
Qed.
Lemma client_hello_from_inv b h : client_hello_from_bytes b = Some h →
  b = client_hello_to_bytes h ∧ length (ch_e_c h) = 32%nat ∧ length (ch_ek h) = EK_LEN.
Proof.
  unfold client_hello_from_bytes. destruct (Nat.eqb_spec (length b) CLIENT_HELLO_LEN) as [Hl|]; [|done]. intros [= <-].
  unfold client_hello_to_bytes. cbn [ch_e_c ch_ek]. unfold CLIENT_HELLO_LEN in Hl. rewrite length_take, length_drop.
  split; [by rewrite take_drop | lia].
Qed.
Lemma server_hello_from_inv b h : server_hello_from_bytes b = Some h →
  b = server_hello_to_bytes h ∧ length (sh_e_s h) = 32%nat ∧ length (sh_ct h) = CT_LEN.
Proof.
  unfold server_hello_from_bytes. destruct (Nat.eqb_spec (length b) SERVER_HELLO_LEN) as [Hl|]; [|done]. intros [= <-].
  unfold server_hello_to_bytes. cbn [sh_e_s sh_ct]. unfold SERVER_HELLO_LEN in Hl. rewrite length_take, length_drop.
  split; [by rewrite take_drop | lia].
Qed.

(** ** The derived key *)

#[local] Opaque absorb squeeze sha3_256.
Lemma derive_key_hash dh_e dh_s ss_pq e_c ek e_s ct :
  derive_key dh_e dh_s ss_pq e_c ek e_s ct = sha3_256 (concat (key_parts dh_e dh_s ss_pq e_c ek e_s ct)).
Proof. apply (squeeze_pieces 136 Byte.x06). lia. Qed.

(** All parts but the third have a fixed length, so the concatenation has one
    reading. *)
Lemma key_parts_inj dh_e dh_s ss e_c ek e_s ct dh_e' dh_s' ss' e_c' ek' e_s' ct' :
  length dh_e = length dh_e' → length dh_s = length dh_s' → length e_c = length e_c' → length ek = length ek' →
  length e_s = length e_s' → length ct = length ct' →
  concat (key_parts dh_e dh_s ss e_c ek e_s ct) = concat (key_parts dh_e' dh_s' ss' e_c' ek' e_s' ct') →
  dh_e = dh_e' ∧ dh_s = dh_s' ∧ ss = ss' ∧ e_c = e_c' ∧ ek = ek' ∧ e_s = e_s' ∧ ct = ct'.
Proof.
  intros H1 H2 H3 H4 H5 H6. unfold key_parts. cbn [concat]. intros H. apply app_inv_head in H.
  apply app_inj_1 in H as [-> H]; [|exact H1]. apply app_inj_1 in H as [-> H]; [|exact H2].
  assert (Hs : length ss = length ss').
  { apply (f_equal length) in H. rewrite !length_app in H. simpl in H. lia. }
  apply app_inj_1 in H as [-> H]; [|exact Hs]. apply app_inj_1 in H as [-> H]; [|exact H3].
  apply app_inj_1 in H as [-> H]; [|exact H4]. apply app_inj_1 in H as [-> H]; [|exact H5].
  by rewrite !app_nil_r in H.
Qed.

#[local] Opaque derive_key.
Section Facts.
Context `{KL : KeyAgreementLaws} `{HL : KemHashLaws}.

Lemma derive_key_length dh_e dh_s ss e_c ek e_s ct : length (derive_key dh_e dh_s ss e_c ek e_s ct) = 32%nat.
Proof. rewrite derive_key_hash. apply length_sha3_256. Qed.

Lemma client_start_lengths e_secret d z state hello : client_start e_secret d z = Some (state, hello) →
  cs_e_secret state = e_secret ∧ cs_e_public state = ka_public e_secret ∧ ch_e_c hello = cs_e_public state ∧
  ch_ek hello = cs_ek state ∧ length (cs_ek state) = EK_LEN ∧
  keygen_internal d z = Some (mkKeyPair (cs_ek state) (cs_dk state)).
Proof.
  unfold client_start. destruct (keygen_internal d z) as [kp|] eqn:Hk; [|discriminate]. cbn [mbind option_bind].
  intros Hs. apply (inj Some), pair_equal_spec in Hs as [<- <-]. cbn. apply keygen_lengths in Hk as Hl.
  destruct kp as [ek dk]. cbn in *. by split_and!.
Qed.

Lemma server_respond_lengths identity e_secret m hello reply key :
  server_respond identity e_secret m hello = Some (reply, key) →
  sh_e_s reply = ka_public e_secret ∧ length (sh_ct reply) = CT_LEN ∧
  ∃ ss, encaps_internal (ch_ek hello) m = Some (sh_ct reply, ss) ∧
    key = derive_key (ka_agree e_secret (ch_e_c hello)) (ka_agree (si_secret identity) (ch_e_c hello)) ss
            (ch_e_c hello) (ch_ek hello) (sh_e_s reply) (sh_ct reply).
Proof.
  unfold server_respond. destruct (encaps_internal (ch_ek hello) m) as [[ct ss]|] eqn:He; [|discriminate].
  cbn [mbind option_bind]. intros Hs. apply (inj Some), pair_equal_spec in Hs as [<- <-]. cbn [sh_e_s sh_ct].
  destruct (encaps_lengths _ _ _ _ He) as [Hl _]. split; [done|]. split; [done|]. exists ss. split; reflexivity.
Qed.

Lemma client_key state hello pinned key : client_finish state hello pinned = Some key →
  ∃ a, client_transcript state hello pinned = Some a ∧ key = sha3_256 a.
Proof.
  unfold client_finish, client_transcript. destruct (decapsulate _ _) as [ss|]; [|discriminate]. cbn [mbind option_bind].
  rewrite derive_key_hash. intros Hk. apply (inj Some) in Hk as <-. eexists. split; reflexivity.
Qed.
Lemma server_key identity e_secret m hello reply key : server_respond identity e_secret m hello = Some (reply, key) →
  ∃ b, server_transcript identity e_secret m hello = Some b ∧ key = sha3_256 b.
Proof.
  unfold server_respond, server_transcript. destruct (encaps_internal _ _) as [[ct ss]|]; [|discriminate]. cbn [mbind option_bind].
  rewrite derive_key_hash. intros Hk. apply (inj Some), pair_equal_spec in Hk as [_ <-]. eexists. split; reflexivity.
Qed.

(** Equal transcripts on the two sides mean equal messages and secrets. *)
Lemma equal_transcripts state identity e_secret m hello reply reply' pinned key t :
  length (cs_e_public state) = 32%nat → length (cs_ek state) = EK_LEN →
  length (ch_e_c hello) = 32%nat → length (ch_ek hello) = EK_LEN →
  length (sh_e_s reply') = 32%nat → length (sh_ct reply') = CT_LEN →
  server_respond identity e_secret m hello = Some (reply, key) →
  server_transcript identity e_secret m hello = Some t → client_transcript state reply' pinned = Some t →
  hello = mkClientHello (cs_e_public state) (cs_ek state) ∧ reply' = reply ∧
  ka_agree (cs_e_secret state) pinned = ka_agree (si_secret identity) (ch_e_c hello).
Proof.
  intros L1 L2 L3 L4 L5 L6 Hs Hb Ha. destruct (server_respond_lengths _ _ _ _ _ _ Hs) as (Hrs & Hct & ss & Hss & _).
  unfold server_transcript in Hb. rewrite Hss in Hb. cbn [mbind option_bind] in Hb.
  unfold client_transcript in Ha. destruct (decapsulate _ _) as [ss'|]; [|discriminate Ha]. cbn [mbind option_bind] in Ha.
  apply (inj Some) in Ha. apply (inj Some) in Hb. rewrite <- Hb in Ha.
  apply key_parts_inj in Ha as (_ & E2 & _ & E4 & E5 & E6 & E7);
    [| by rewrite !ka_agree_length | by rewrite !ka_agree_length | by rewrite L1 | by rewrite L2 |
      by rewrite L5, ka_public_length | by rewrite L6].
  split; [destruct hello; cbn in *; by rewrite E4, E5|]. split; [|exact E2].
  destruct reply, reply'. cbn in *. by subst.
Qed.
(** The two sides of an undisturbed exchange: they hash the same parts, their
    own agreements apart, into their keys. *)
Lemma exchange_transcripts e_secret d z state hello identity e_secret' m reply key n :
  client_start e_secret d z = Some (state, hello) →
  server_respond identity e_secret' m hello = Some (reply, key) →
  length m = 32%nat → kem_noise d m = Some n → Forall (λ x, noise_ok x = true) n →
  ∃ a b, client_transcript state reply (si_public identity) = Some a ∧
    server_transcript identity e_secret' m hello = Some b ∧
    client_finish state reply (si_public identity) = Some (sha3_256 a) ∧ key = sha3_256 b ∧
    (a = b ↔ ka_agree e_secret (ka_public e_secret') = ka_agree e_secret' (ka_public e_secret) ∧
             ka_agree e_secret (si_public identity) = ka_agree (si_secret identity) (ka_public e_secret)).
Proof.
  intros Hc Hs Hm Hn Hok.
  destruct (client_start_lengths _ _ _ _ _ Hc) as (Hes & Hep & Hec & Hek & _ & Hkp).
  destruct (server_respond_lengths _ _ _ _ _ _ Hs) as (Hrs & _ & ss & Hss & ->).
  unfold client_transcript, server_transcript, client_finish. rewrite Hss. rewrite Hek in Hss.
  pose proof (decapsulate_recovers d z m _ _ ss n Hm Hkp Hss Hn Hok) as Hd. cbn [kp_dk] in Hd.
  rewrite Hd. cbn [mbind option_bind]. rewrite !derive_key_hash, Hec, Hek, Hep, Hes, Hrs.
  eexists _, _. do 4 (split; [reflexivity|]). split.
  - intros Heq. apply key_parts_inj in Heq as (E1 & E2 & _); [by split|by rewrite !ka_agree_length..|done|done|done|done].
  - intros [-> ->]. reflexivity.
Qed.
End Facts.
