(* ===== verification/Aead.v ===== *)
(** * ChaCha20-Poly1305 and the key hierarchy
    ([ciphra-crypto/src/aead.rs], [ciphra-crypto/src/lib.rs])

    [seal] and [open], with the random nonce [CipherKey::seal] draws as an
    argument.  The central fact is exactness: [open] succeeds on precisely
    the envelopes [seal] makes with that key and associated data. *)

From S2P Require Import Prelude Sha256 Hmac ChaCha20 Poly1305.

Definition TAG_LEN : nat := 16.
Definition NONCE_LEN : nat := 12.
Definition KEY_LEN : nat := 32.

(** [v.resize(v.len().next_multiple_of(16), 0)] *)
Definition pad16 (v : bytes) : bytes :=
  v ++ replicate (Z.to_nat ((- Z.of_nat (length v)) mod 16)) Byte.x00.

Definition mac_data (ciphertext aad : bytes) : bytes :=
  pad16 (pad16 aad ++ ciphertext) ++
  le_bytes 8 (wrap 64 (Z.of_nat (length aad))) ++
  le_bytes 8 (wrap 64 (Z.of_nat (length ciphertext))).

Definition compute_tag (key nonce ciphertext aad : bytes) : bytes :=
  let otk := take 32 (chacha_block key 0 nonce) in
  poly1305 (mac_data ciphertext aad) otk.

Definition aead_seal (key nonce plaintext aad : bytes) : bytes :=
  let out := xor_stream key nonce 1 plaintext in
  out ++ compute_tag key nonce out aad.

Definition aead_open (key nonce sealed aad : bytes) : option bytes :=
  if (length sealed <? TAG_LEN)%nat then None
  else
    let ciphertext := take (length sealed - TAG_LEN) sealed in
    let expected := drop (length sealed - TAG_LEN) sealed in
    let actual := compute_tag key nonce ciphertext aad in
    if negb (tags_equal actual expected) then None
    else Some (xor_stream key nonce 1 ciphertext).

(** RFC 8439, 2.8.2: the first ciphertext bytes and the tag. *)
Example aead_rfc8439 :
  let sealed := aead_seal (map (λ n, byte.of_Z (128 + Z.of_nat n)) (seq 0 32))
    (map byte.of_Z [7; 0; 0; 0; 0x40; 0x41; 0x42; 0x43; 0x44; 0x45; 0x46; 0x47])
    (bs "Ladies and Gentlemen of the class of '99: If I could offer you only one tip for the future, sunscreen would be it.")
    (map byte.of_Z [0x50; 0x51; 0x52; 0x53; 0xc0; 0xc1; 0xc2; 0xc3; 0xc4; 0xc5; 0xc6; 0xc7]) in
  map byte.unsigned (take 4 sealed) = [0xd3; 0x1a; 0x8d; 0x34] ∧
  map byte.unsigned (drop (length sealed - 16) sealed) =
    [0x1a;0xe1;0x0b;0x59;0x4f;0x09;0xe2;0x6a;0x7e;0x90;0x2e;0xcb;0xd0;0x60;0x06;0x91].
Proof. vm_compute. split; reflexivity. Qed.

(** ** Keys *)

(** [CryptoError::Open]: wrong key, tampered data, or mismatched AAD. *)
Inductive CryptoError : Type := CryptoOpen.

Record CipherKey : Type := mkCipherKey { ck_bytes : bytes }.
Record MasterKey : Type := mkMasterKey { mk_bytes : bytes }.

(** [CipherKey::seal]; [nonce] is the 12 random bytes it draws. *)
Definition cipher_seal (key : CipherKey) (nonce plaintext aad : bytes) : bytes :=
  nonce ++ aead_seal (ck_bytes key) nonce plaintext aad.

Definition cipher_open (key : CipherKey) (sealed aad : bytes) : result CryptoError bytes :=
  if (length sealed <? NONCE_LEN + TAG_LEN)%nat then Err CryptoOpen
  else
    let nonce := take NONCE_LEN sealed in
    let rest := drop NONCE_LEN sealed in
    ok_or CryptoOpen (aead_open (ck_bytes key) nonce rest aad).

(** 32 bytes of HKDF output: the assertion on the length always holds. *)
Definition hkdf_32 (prk info : bytes) : bytes := default [] (hkdf_expand prk info KEY_LEN).

Definition derive_key (m : MasterKey) (context : bytes) : CipherKey :=
  mkCipherKey (hkdf_32 (hkdf_extract (bs "ciphra/v0/subkey") (mk_bytes m)) context).

Definition derive_seed (m : MasterKey) (context : bytes) : bytes :=
  hkdf_32 (hkdf_extract (bs "ciphra/v0/seed") (mk_bytes m)) context.

Definition keyed_tag (m : MasterKey) (purpose data : bytes) : bytes :=
  let tag_key := derive_key m (bs "tag:" ++ purpose) in
  hmac_sha256 (ck_bytes tag_key) data.

Definition derive_from_passphrase (passphrase salt : bytes) (iterations : Z) : option MasterKey :=
  mkMasterKey <$> pbkdf2_sha256 passphrase salt iterations KEY_LEN.

(** ** The tag's input determines the ciphertext and the associated data *)

Lemma length_pad16 v :
  ∃ k, length (pad16 v) = (16 * k)%nat ∧ (length v ≤ 16 * k)%nat.
Proof.
  unfold pad16. rewrite length_app, length_replicate.
  pose proof (Z.div_mod (- Z.of_nat (length v)) 16 ltac:(lia)) as Hd.
  pose proof (Z.mod_pos_bound (- Z.of_nat (length v)) 16 ltac:(lia)) as Hm.
  exists (Z.to_nat (- ((- Z.of_nat (length v)) / 16))). lia.
Qed.

Lemma pad16_take v : take (length v) (pad16 v) = v.
Proof. unfold pad16. by rewrite take_app_length. Qed.

Lemma mac_data_inj c a c' a' :
  Z.of_nat (length a) < 2 ^ 64 → Z.of_nat (length c) < 2 ^ 64 →
  Z.of_nat (length a') < 2 ^ 64 → Z.of_nat (length c') < 2 ^ 64 →
  mac_data c a = mac_data c' a' → c = c' ∧ a = a'.
Proof.
  intros Ha Hc Ha' Hc' Heq. unfold mac_data in Heq.
  apply app_inj_2 in Heq as [Hp Hl]; [|len_solve].
  apply app_inj_1 in Hl as [Hla Hlc]; [|len_solve].
  apply le_bytes_inj in Hla; [|apply in_u_wrap; lia..].
  apply le_bytes_inj in Hlc; [|apply in_u_wrap; lia..].
  rewrite !wrap_small in Hla, Hlc by (split; lia). apply Nat2Z.inj in Hla, Hlc.
  assert (Hpl : length (pad16 a) = length (pad16 a')) by (unfold pad16; by rewrite !length_app, !length_replicate, Hla).
  apply (f_equal (take (length (pad16 a ++ c)))) in Hp. rewrite pad16_take in Hp.
  assert (length (pad16 a ++ c) = length (pad16 a' ++ c')) as He by (rewrite !length_app, Hpl, Hlc; done).
  rewrite He, pad16_take in Hp. apply app_inj_1 in Hp as [Hpa ->]; [|done]. split; [done|].
  apply (f_equal (take (length a))) in Hpa. rewrite pad16_take, Hla, pad16_take in Hpa. done.
Qed.

(** ** Exactness *)

Lemma length_otk key nonce : wf_key key nonce → length (take 32 (chacha_block key 0 nonce)) = 32%nat.
Proof. intros H. rewrite length_take, length_chacha_block by done. done. Qed.

Lemma length_compute_tag key nonce c aad : wf_key key nonce → length (compute_tag key nonce c aad) = TAG_LEN.
Proof. intros H. unfold compute_tag. rewrite length_poly1305; [done|]. by apply length_otk. Qed.

Lemma aead_open_seal key nonce p aad :
  wf_key key nonce → aead_open key nonce (aead_seal key nonce p aad) aad = Some p.
Proof.
  intros H. unfold aead_open, aead_seal. set (c := xor_stream key nonce 1 p).
  pose proof (length_compute_tag key nonce c aad H) as Hl. set (t := compute_tag key nonce c aad) in *.
  rewrite length_app, Hl. destruct (Nat.ltb_spec (length c + TAG_LEN) TAG_LEN); [lia|].
  rewrite Nat.add_sub, take_app_length, drop_app_length. fold t.
  rewrite (proj2 (tags_equal_spec t t eq_refl) eq_refl). cbn [negb].
  unfold c. by rewrite xor_stream_cancel.
Qed.

Lemma aead_open_inv key nonce sealed aad p :
  wf_key key nonce → aead_open key nonce sealed aad = Some p → sealed = aead_seal key nonce p aad.
Proof.
  intros H. unfold aead_open. destruct (Nat.ltb_spec (length sealed) TAG_LEN) as [|Hlen]; [done|].
  set (c := take _ sealed). set (t := drop _ sealed).
  assert (Ht : length t = TAG_LEN) by (unfold t; rewrite length_drop; lia).
  destruct (tags_equal (compute_tag key nonce c aad) t) eqn:He; cbn [negb]; [|done].
  intros [= <-]. apply tags_equal_spec in He; [|rewrite length_compute_tag by done; lia].
  unfold aead_seal. rewrite xor_stream_cancel by done. rewrite He. unfold c, t. by rewrite take_drop.
Qed.

(** A cipher key of the right size. *)
Definition wf_cipher_key (k : CipherKey) : Prop := length (ck_bytes k) = KEY_LEN.

Lemma cipher_open_seal k nonce p aad :
  wf_cipher_key k → length nonce = NONCE_LEN → cipher_open k (cipher_seal k nonce p aad) aad = Ok p.
Proof.
  intros Hk Hn. unfold cipher_open, cipher_seal.
  assert (Hl : length (aead_seal (ck_bytes k) nonce p aad) = (length p + TAG_LEN)%nat).
  { unfold aead_seal. rewrite length_app, length_compute_tag, length_xor_stream by done. done. }
  rewrite length_app, Hl, Hn. destruct (Nat.ltb_spec (NONCE_LEN + (length p + TAG_LEN)) (NONCE_LEN + TAG_LEN)); [lia|].
  rewrite take_app_length', drop_app_length' by done. by rewrite aead_open_seal.
Qed.

Lemma cipher_open_inv k sealed aad p :
  wf_cipher_key k → cipher_open k sealed aad = Ok p →
  ∃ nonce, length nonce = NONCE_LEN ∧ sealed = cipher_seal k nonce p aad.
Proof.
  intros Hk. unfold cipher_open.
  destruct (Nat.ltb_spec (length sealed) (NONCE_LEN + TAG_LEN)) as [|Hl]; [done|].
  assert (Hn : length (take NONCE_LEN sealed) = NONCE_LEN) by (rewrite length_take; unfold NONCE_LEN, TAG_LEN in *; lia).
  destruct (aead_open _ _ _ _) as [p'|] eqn:Ho; cbn; [|done]. intros [= <-].
  apply aead_open_inv in Ho; [|done]. exists (take NONCE_LEN sealed). split; [done|].
  unfold cipher_seal. by rewrite <- Ho, take_drop.
Qed.

(** C35: Opening an envelope succeeds with a plaintext exactly when the envelope is a sealing of that plaintext under the same key and associated data with some nonce. *)
Theorem cipher_open_exact k sealed aad p :
  wf_cipher_key k →
  cipher_open k sealed aad = Ok p ↔
  ∃ nonce, length nonce = NONCE_LEN ∧ sealed = cipher_seal k nonce p aad.
Proof.
  intros Hk. split; [by apply cipher_open_inv|]. intros (nonce & Hn & ->). by apply cipher_open_seal.
Qed.

Lemma cipher_open_exact_witness :
  cipher_open (mkCipherKey (replicate 32 Byte.x2a))
    (cipher_seal (mkCipherKey (replicate 32 Byte.x2a)) (replicate 12 Byte.x01) (bs "row") (bs "aad")) (bs "aad") = Ok (bs "row").
Proof.
  apply (cipher_open_exact (mkCipherKey (replicate 32 Byte.x2a)) _ (bs "aad") (bs "row") eq_refl).
  exists (replicate 12 Byte.x01). split; reflexivity.
Defined.

(** The authenticated byte string determines the ciphertext and the associated data. *)
Theorem mac_data_unambiguous c a c' a' :
  Z.of_nat (length a) < 2 ^ 64 → Z.of_nat (length c) < 2 ^ 64 →
  Z.of_nat (length a') < 2 ^ 64 → Z.of_nat (length c') < 2 ^ 64 →
  mac_data c a = mac_data c' a' → c = c' ∧ a = a'.
Proof. apply mac_data_inj. Qed.

Lemma mac_data_unambiguous_witness :
  bs "ct" = bs "ct" ∧ bs "aad" = bs "aad".
Proof.
  apply (mac_data_unambiguous (bs "ct") (bs "aad") (bs "ct") (bs "aad")); try reflexivity.
Defined.

(** ** Derived keys have the right size *)

Lemma length_hkdf_32 prk info : length (hkdf_32 prk info) = KEY_LEN.
Proof. unfold hkdf_32, KEY_LEN. rewrite hkdf_expand_32. cbn [default from_option id]. apply length_sha256_spec. Qed.

Lemma wf_derive_key m context : wf_cipher_key (derive_key m context).
Proof. apply length_hkdf_32. Qed.

Lemma length_keyed_tag m purpose data : length (keyed_tag m purpose data) = 32%nat.
Proof. apply length_hmac. Qed.
#[export] Hint Resolve wf_derive_key : core.
