(* ===== verification/Argon2.v ===== *)
(** * Argon2id

    ciphra-crypto/src/argon2.rs: the memory-hard derivation, block by block.
    A [Block] is 128 words; indices are computed as the code computes them, in
    [Z], so that a subtraction that would underflow is visible; the end of the
    file proves that none does and that every index is in range. *)

From S2P Require Import Prelude Sha256 Hmac ChaCha20 Poly1305 Aead Blake2b.

Definition VERSION : Z := 0x13.
Definition ARGON2ID : Z := 2.
Definition BLOCK_WORDS : nat := 128.
Definition SYNC_POINTS : Z := 4.
Definition ADDRESSES_PER_BLOCK : Z := 128.

Abbreviation Block := (list Z).
Definition ZERO_BLOCK : Block := replicate BLOCK_WORDS 0.

(** ** Mixing *)

Definition mix (x y : Z) : Z :=
  let lo := wmul 64 (wrap 32 x) (wrap 32 y) in
  wadd 64 (wadd 64 x y) (wmul 64 lo 2).

Definition blamka (v : list Z) (a b c d : nat) : list Z :=
  let v := <[a := mix (v !!! a) (v !!! b)]> v in
  let v := <[d := rotr 64 (Z.lxor (v !!! d) (v !!! a)) 32]> v in
  let v := <[c := mix (v !!! c) (v !!! d)]> v in
  let v := <[b := rotr 64 (Z.lxor (v !!! b) (v !!! c)) 24]> v in
  let v := <[a := mix (v !!! a) (v !!! b)]> v in
  let v := <[d := rotr 64 (Z.lxor (v !!! d) (v !!! a)) 16]> v in
  let v := <[c := mix (v !!! c) (v !!! d)]> v in
  <[b := rotr 64 (Z.lxor (v !!! b) (v !!! c)) 63]> v.

Definition permute (v : list Z) : list Z :=
  let v := blamka v 0 4 8 12 in
  let v := blamka v 1 5 9 13 in
  let v := blamka v 2 6 10 14 in
  let v := blamka v 3 7 11 15 in
  let v := blamka v 0 5 10 15 in
  let v := blamka v 1 6 11 12 in
  let v := blamka v 2 7 8 13 in
  blamka v 3 4 9 14.

(** The words of row [row], and of column [col], of a block. *)
Definition row_words (row : nat) : list nat := seq (row * 16) 16.
Definition column_words (col : nat) : list nat :=
  concat (map (λ i, [16 * i + 2 * col; 16 * i + 2 * col + 1]%nat) (seq 0 8)).

(** Permute the words at [positions] in place. *)
Definition permute_at (q : Block) (positions : list nat) : Block :=
  fold_left (λ q pw, <[pw.1 := pw.2]> q)
    (zip positions (permute (map (λ i, q !!! i) positions))) q.

Definition block_xor (x y : Block) : Block := zip_with Z.lxor x y.

Definition argon_compress (x y : Block) : Block :=
  let r := block_xor x y in
  let q := fold_left permute_at (map row_words (seq 0 8)) r in
  let q := fold_left permute_at (map column_words (seq 0 8)) q in
  block_xor q r.

(** ** Variable-length hash *)

(** The loop of [h_prime]: [left] bytes remain to be written. *)
Fixpoint h_prime_loop (fuel : nat) (v : bytes) (remaining : nat) : bytes :=
  match fuel with
  | O => []
  | S fuel' =>
      if (64 <? remaining)%nat then
        let v := blake2b 64 v in take 32 v ++ h_prime_loop fuel' v (remaining - 32)
      else blake2b remaining v
  end.

Definition h_prime (out_len : nat) (input : bytes) : bytes :=
  let prefixed := le_bytes 4 (Z.of_nat out_len) ++ input in
  if (out_len <=? 64)%nat then blake2b out_len prefixed
  else let v := blake2b 64 prefixed in take 32 v ++ h_prime_loop out_len v (out_len - 32).

Definition block_from_bytes (b : bytes) : Block := map from_le (chunks 8 b).

(** ** Addressing *)

(** [next_addresses]: the address block and the input block after it. *)
Definition next_addresses (input_block : Block) : Block * Block :=
  let input_block := <[6%nat := (input_block !!! 6%nat) + 1]> input_block in
  (argon_compress ZERO_BLOCK (argon_compress ZERO_BLOCK input_block), input_block).

(** Where a segment is. *)
Record Segment : Type := mkSegment {
  sg_pass : Z;
  sg_lane : Z;
  sg_slice : Z;
  sg_lanes : Z;
  sg_lane_length : Z;
  sg_segment_length : Z;
  sg_passes : Z;
}.

Definition independent (g : Segment) : bool := (sg_pass g =? 0) && (sg_slice g <? 2).
Definition first_segment (g : Segment) : bool := (sg_pass g =? 0) && (sg_slice g =? 0).
Definition starting_index (g : Segment) : Z := if first_segment g then 2 else 0.

Definition column (g : Segment) (index : Z) : Z := sg_slice g * sg_segment_length g + index.
Definition prev_column (g : Segment) (index : Z) : Z :=
  if column g index =? 0 then sg_lane_length g - 1 else column g index - 1.

Definition ref_lane (g : Segment) (pseudo_rand : Z) : Z :=
  if first_segment g then sg_lane g else Z.shiftr pseudo_rand 32 mod sg_lanes g.

Definition reference_area (g : Segment) (index : Z) (same_lane : bool) : Z :=
  let first := if index =? 0 then 1 else 0 in
  if sg_pass g =? 0 then
    if same_lane then column g index - 1 else sg_slice g * sg_segment_length g - first
  else if same_lane then sg_lane_length g - sg_segment_length g + index - 1
  else sg_lane_length g - sg_segment_length g - first.

Definition ref_column (g : Segment) (index pseudo_rand : Z) : Z :=
  let area := reference_area g index (ref_lane g pseudo_rand =? sg_lane g) in
  let j1 := wrap 32 pseudo_rand in
  let x := Z.shiftr (wmul 64 j1 j1) 32 in
  let y := Z.shiftr (wmul 64 area x) 32 in
  let zz := area - 1 - y in
  let start :=
    if sg_pass g =? 0 then 0
    else (sg_slice g + 1) * sg_segment_length g mod sg_lane_length g in
  (start + zz) mod sg_lane_length g.

Definition position_of (g : Segment) (lane col : Z) : nat := Z.to_nat (lane * sg_lane_length g + col).

(** ** Filling *)

Record Fill : Type := mkFill { fl_memory : list Block; fl_address : Block; fl_input : Block }.

Definition pseudo_rand (g : Segment) (f : Fill) (index : Z) : Fill * Z :=
  if independent g then
    let f :=
      if index mod ADDRESSES_PER_BLOCK =? 0 then
        let '(address, input) := next_addresses (fl_input f) in mkFill (fl_memory f) address input
      else f in
    (f, fl_address f !!! Z.to_nat (index mod ADDRESSES_PER_BLOCK))
  else
    (f, (fl_memory f !!! position_of g (sg_lane g) (prev_column g index)) !!! 0%nat).

(** The loop body of [fill_segment]. *)
Definition fill_block (g : Segment) (f : Fill) (index : Z) : Fill :=
  let '(f, rand) := pseudo_rand g f index in
  let memory := fl_memory f in
  let prev := memory !!! position_of g (sg_lane g) (prev_column g index) in
  let reference := memory !!! position_of g (ref_lane g rand) (ref_column g index rand) in
  let target := position_of g (sg_lane g) (column g index) in
  let mixed := argon_compress prev reference in
  let block := if sg_pass g =? 0 then mixed else block_xor (memory !!! target) mixed in
  mkFill (<[target := block]> memory) (fl_address f) (fl_input f).

Definition segment_input (g : Segment) (blocks : nat) : Block :=
  if independent g then
    [sg_pass g; sg_lane g; sg_slice g; Z.of_nat blocks; sg_passes g; ARGON2ID] ++ replicate 122 0
  else ZERO_BLOCK.

(** [starting_index..segment_length] *)
Definition segment_indices (g : Segment) : list Z :=
  map (λ i, starting_index g + Z.of_nat i) (seq 0 (Z.to_nat (sg_segment_length g - starting_index g))).

Definition fill_segment (memory : list Block) (g : Segment) : list Block :=
  let input := segment_input g (length memory) in
  let f :=
    if first_segment g && independent g then
      let '(address, input) := next_addresses input in mkFill memory address input
    else mkFill memory ZERO_BLOCK input in
  fl_memory (fold_left (fill_block g) (segment_indices g) f).

(** ** The derivation *)

Record Argon2Shape : Type := mkShape { as_blocks : Z; as_lane_length : Z; as_segment_length : Z }.

Definition argon2_shape (memory_kib lanes : Z) : Argon2Shape :=
  let memory_blocks := Z.max memory_kib (8 * lanes) in
  let memory_blocks := memory_blocks / (SYNC_POINTS * lanes) * (SYNC_POINTS * lanes) in
  let lane_length := memory_blocks / lanes in
  mkShape memory_blocks lane_length (lane_length / SYNC_POINTS).

Definition zrange (n : Z) : list Z := map Z.of_nat (seq 0 (Z.to_nat n)).

Definition argon2_h0 (password salt secret associated : bytes) (memory_kib passes lanes : Z) (out_len : nat) : bytes :=
  blake2b 64
    (concat (map (le_bytes 4) [lanes; Z.of_nat out_len; memory_kib; passes; VERSION; ARGON2ID])
     ++ concat (map (λ data, le_bytes 4 (Z.of_nat (length data)) ++ data) [password; salt; secret; associated])).

(** The first two blocks of a lane. *)
Definition seed_lane (h0 : bytes) (sh : Argon2Shape) (memory : list Block) (lane : Z) : list Block :=
  fold_left (λ memory col,
    <[Z.to_nat (lane * as_lane_length sh + col) :=
        block_from_bytes (h_prime 1024 (h0 ++ le_bytes 4 col ++ le_bytes 4 lane))]> memory)
    [0; 1] memory.

(** The loops over passes, slices and lanes, in order. *)
Definition argon2_segments (sh : Argon2Shape) (passes lanes : Z) : list Segment :=
  pass ← zrange passes; slice ← zrange SYNC_POINTS; lane ← zrange lanes;
  [mkSegment pass lane slice lanes (as_lane_length sh) (as_segment_length sh) passes].

Definition final_block (sh : Argon2Shape) (memory : list Block) (lanes : Z) : Block :=
  fold_left (λ acc lane, block_xor acc (memory !!! Z.to_nat (lane * as_lane_length sh + as_lane_length sh - 1)))
    (drop 1 (zrange lanes)) (memory !!! Z.to_nat (as_lane_length sh - 1)).

Definition argon2id_full (password salt secret associated : bytes) (memory_kib passes lanes : Z) (out_len : nat) : bytes :=
  let sh := argon2_shape memory_kib lanes in
  let h0 := argon2_h0 password salt secret associated memory_kib passes lanes out_len in
  let memory := replicate (Z.to_nat (as_blocks sh)) ZERO_BLOCK in
  let memory := fold_left (seed_lane h0 sh) (zrange lanes) memory in
  let memory := fold_left fill_segment (argon2_segments sh passes lanes) memory in
  h_prime out_len (concat (map (le_bytes 8) (final_block sh memory lanes))).

Definition argon2id (password salt : bytes) (memory_kib passes lanes : Z) (out_len : nat) : bytes :=
  argon2id_full password salt [] [] memory_kib passes lanes out_len.

(** [MasterKey::derive_argon2id] *)
Definition derive_argon2id (passphrase salt : bytes) (memory_kib passes lanes : Z) : MasterKey :=
  mkMasterKey (argon2id passphrase salt memory_kib passes lanes KEY_LEN).

(** ** Bounds *)

(** A segment of the schedule of a derivation. *)
Record wf_segment (g : Segment) : Prop := {
  ws_pass : 0 ≤ sg_pass g;
  ws_lane : 0 ≤ sg_lane g < sg_lanes g;
  ws_slice : 0 ≤ sg_slice g < SYNC_POINTS;
  ws_length : sg_lane_length g = SYNC_POINTS * sg_segment_length g;
  ws_room : 2 ≤ sg_segment_length g < 2 ^ 30;
}.

Definition in_segment (g : Segment) (index : Z) : Prop := starting_index g ≤ index < sg_segment_length g.

Lemma argon2_shape_wf memory_kib lanes :
  0 < lanes < 2 ^ 32 → 0 ≤ memory_kib < 2 ^ 32 →
  let sh := argon2_shape memory_kib lanes in
  as_lane_length sh = SYNC_POINTS * as_segment_length sh
  ∧ as_blocks sh = lanes * as_lane_length sh
  ∧ 2 ≤ as_segment_length sh < 2 ^ 30
  ∧ as_blocks sh ≤ Z.max memory_kib (8 * lanes).
Proof.
  intros Hl Hm. unfold argon2_shape, SYNC_POINTS. cbn [as_blocks as_lane_length as_segment_length].
  set (blocks := Z.max memory_kib (8 * lanes)). set (q := blocks / (4 * lanes)).
  assert (Hq : 2 ≤ q) by (apply Z.div_le_lower_bound; lia).
  assert (Hq' : q * (4 * lanes) ≤ blocks) by (rewrite Z.mul_comm; apply Z.mul_div_le; lia).
  assert (Hlane : q * (4 * lanes) / lanes = 4 * q).
  { replace (q * (4 * lanes)) with (4 * q * lanes) by ring. apply Z.div_mul. lia. }
  rewrite Hlane. replace (4 * q / 4) with q by (rewrite Z.mul_comm, Z.div_mul; lia).
  split_and!; try nia.
Qed.

(** The non-uniform choice stays inside the area. *)
Lemma wmul_shift_bound a b n :
  0 ≤ a ≤ n → 0 ≤ b < 2 ^ 32 → 0 < n ≤ 2 ^ 32 → 0 ≤ Z.shiftr (wmul 64 a b) 32 < n.
Proof.
  intros Ha Hb Hn. unfold wmul. assert (a * b < n * 2 ^ 32) by nia.
  rewrite wrap_small by (unfold in_u; change (2 ^ 64) with (2 ^ 32 * 2 ^ 32); nia).
  rewrite Z.shiftr_div_pow2 by lia. split; [apply Z.div_pos; nia|]. apply Z.div_lt_upper_bound; lia.
Qed.

Lemma reference_area_bound g index rand :
  wf_segment g → in_segment g index →
  1 ≤ reference_area g index (ref_lane g rand =? sg_lane g) < sg_lane_length g.
Proof.
  intros [Hp Hl Hs Hlen Hr] Hi. unfold reference_area, column, in_segment, starting_index, ref_lane, first_segment, SYNC_POINTS in *.
  destruct (Z.eqb_spec (sg_pass g) 0), (Z.eqb_spec (sg_slice g) 0); cbn [andb] in *;
    rewrite ?Z.eqb_refl; repeat case_match; nia.
Qed.

(** The distance of the reference from the start of the window it is drawn from. *)
Lemma ref_column_eq g index rand :
  wf_segment g → in_segment g index →
  ∃ zz, 0 ≤ zz < reference_area g index (ref_lane g rand =? sg_lane g)
    ∧ ref_column g index rand
      = ((if sg_pass g =? 0 then 0 else (sg_slice g + 1) * sg_segment_length g mod sg_lane_length g) + zz)
        mod sg_lane_length g.
Proof.
  intros Hg Hi. pose proof (reference_area_bound g index rand Hg Hi) as Ha.
  set (area := reference_area _ _ _) in *. unfold ref_column. fold area.
  destruct Hg as [_ _ _ Hlen Hr]. unfold SYNC_POINTS in Hlen.
  assert (Hj : 0 ≤ wrap 32 rand < 2 ^ 32) by (apply Z.mod_pos_bound; lia).
  pose proof (wmul_shift_bound (wrap 32 rand) (wrap 32 rand) (2 ^ 32) ltac:(lia) Hj ltac:(lia)) as Hx.
  pose proof (wmul_shift_bound area _ area ltac:(lia) Hx ltac:(lia)) as Hy.
  eexists. split; [|reflexivity]. lia.
Qed.

Lemma window_mod base zz len seg :
  0 < seg → len = 4 * seg → 0 ≤ base ≤ 4 → 0 ≤ zz < len →
  let c := ((base * seg) mod len + zz) mod len in
  0 ≤ c < len ∧ (c = base * seg + zz ∨ c = base * seg + zz - len).
Proof.
  intros Hs -> Hb Hz c. assert (Hc : c = (base * seg + zz) mod (4 * seg)) by (unfold c; by rewrite Z.add_mod_idemp_l by lia).
  rewrite Hc. split; [apply Z.mod_pos_bound; lia|].
  destruct (Z.lt_ge_cases (base * seg + zz) (4 * seg)).
  - left. apply Z.mod_small. nia.
  - right. symmetry. apply Z.mod_unique_pos with 1; [|lia].
    split; [lia|]. nia.
Qed.

(** Which blocks of a lane have been computed when block [index] of segment [g]
    is: in the first pass everything before it; later the whole lane. *)
Definition written (g : Segment) (index lane col : Z) : Prop :=
  0 ≤ col < sg_lane_length g ∧
  (sg_pass g = 0 → if lane =? sg_lane g then col < column g index
                   else col < sg_slice g * sg_segment_length g).

Lemma position_bound g lane col :
  0 ≤ lane < sg_lanes g → 0 ≤ col < sg_lane_length g →
  (position_of g lane col < Z.to_nat (sg_lanes g * sg_lane_length g))%nat.
Proof. intros Hl Hc. unfold position_of. apply Z2Nat.inj_lt; nia. Qed.

(** Every block the fill reads and writes is inside the memory; the reference
    is of a block already computed, other than the previous one and the one
    being computed; and one in another lane is never in the slice that all the
    lanes are working on, so the lanes of a slice do not depend on one another. *)
Theorem argon2_references_sound g index rand :
  wf_segment g → in_segment g index →
  let lane := ref_lane g rand in
  let col := ref_column g index rand in
  let blocks := Z.to_nat (sg_lanes g * sg_lane_length g) in
  (position_of g (sg_lane g) (column g index) < blocks)%nat
  ∧ (position_of g (sg_lane g) (prev_column g index) < blocks)%nat
  ∧ (position_of g lane col < blocks)%nat
  ∧ 1 ≤ reference_area g index (lane =? sg_lane g)
  ∧ written g index (sg_lane g) (prev_column g index)
  ∧ written g index lane col
  ∧ (lane = sg_lane g → col ≠ column g index ∧ col ≠ prev_column g index)
  ∧ (lane ≠ sg_lane g →
     ¬ (sg_slice g * sg_segment_length g ≤ col < (sg_slice g + 1) * sg_segment_length g)).
Proof.
  intros Hg Hi lane col blocks.
  destruct (ref_column_eq g index rand Hg Hi) as (zz & Hz & Hcol). fold lane col in Hz, Hcol.
  pose proof (reference_area_bound g index rand Hg Hi) as Ha. fold lane in Ha.
  assert (Hlane : 0 ≤ lane < sg_lanes g).
  { unfold lane, ref_lane. destruct Hg as [_ Hl _ _ _]. destruct (first_segment g); [done|]. apply Z.mod_pos_bound. lia. }
  assert (Hsame : first_segment g = true → lane = sg_lane g) by (unfold lane, ref_lane; by intros ->).
  destruct Hg as [Hp Hl Hs Hlen Hr]. unfold SYNC_POINTS in *.
  assert ((0 ≤ column g index < sg_lane_length g) ∧ (0 ≤ prev_column g index < sg_lane_length g)
    ∧ 0 ≤ col < sg_lane_length g) as (Hin1 & Hin2 & Hin3).
  { split_and!; try (rewrite Hcol; apply Z.mod_pos_bound; lia);
      unfold prev_column, column, in_segment, starting_index, first_segment in *;
      destruct (Z.eqb_spec (sg_pass g) 0), (Z.eqb_spec (sg_slice g) 0); cbn [andb] in *; repeat case_match; nia. }
  do 3 (split; [by apply position_bound|]).
  unfold written, prev_column, column, in_segment, starting_index, reference_area, first_segment in *.
  destruct (Z.eqb_spec (sg_pass g) 0) as [Hp0|Hp0]; cbn [andb] in *.
  - rewrite Z.add_0_l, Z.mod_small in Hcol by lia. unfold column in *.
    destruct (Z.eqb_spec (sg_slice g) 0); [rewrite Hsame in * by done|]; rewrite ?Z.eqb_refl in *;
      destruct (Z.eqb_spec lane (sg_lane g)); repeat case_match; split_and!; nia.
  - destruct (window_mod (sg_slice g + 1) zz (sg_lane_length g) (sg_segment_length g)) as [Hc Hc']; [lia..|].
    rewrite <- Hcol in Hc, Hc'. unfold column in *. rewrite Z.eqb_refl in *.
    destruct (Z.eqb_spec lane (sg_lane g)); repeat case_match; split_and!; nia.
Qed.

Lemma argon2_references_sound_witness :
  let g := mkSegment 1 0 3 2 8 2 3 in
  (position_of g (ref_lane g 0x1_0000_0007) (ref_column g 1 0x1_0000_0007) < 16)%nat
  ∧ 1 ≤ reference_area g 1 (ref_lane g 0x1_0000_0007 =? sg_lane g).
Proof.
  intros g. destruct (argon2_references_sound g 1 0x1_0000_0007) as (_ & _ & Hp & Ha & _).
  - split; cbn; unfold SYNC_POINTS; lia.
  - split; cbn; lia.
  - split; [exact Hp|exact Ha].
Defined.

Lemma elem_of_zrange n z : z ∈ zrange n ↔ 0 ≤ z < n.
Proof.
  unfold zrange. rewrite list_elem_of_fmap. split.
  - intros (i & -> & Hi%elem_of_seq). lia.
  - intros Hz. exists (Z.to_nat z). rewrite elem_of_seq. lia.
Qed.

(** The schedule of a derivation is made of segments the bounds hold for. *)
Lemma argon2_segments_wf memory_kib passes lanes g :
  0 < lanes < 2 ^ 32 → 0 ≤ memory_kib < 2 ^ 32 →
  g ∈ argon2_segments (argon2_shape memory_kib lanes) passes lanes → wf_segment g.
Proof.
  intros Hl Hm. destruct (argon2_shape_wf memory_kib lanes Hl Hm) as (Hlen & _ & Hseg & _).
  unfold argon2_segments. intros (pass & Hg & Hpass)%list_elem_of_bind.
  apply list_elem_of_bind in Hg as (slice & Hg & Hslice). apply list_elem_of_bind in Hg as (lane & Hg & Hlane).
  apply list_elem_of_singleton in Hg as ->. apply elem_of_zrange in Hlane, Hslice, Hpass. by split; cbn; try lia.
Qed.

Lemma length_h_prime_loop fuel v r :
  (r ≤ 32 * fuel)%nat → (0 < fuel)%nat → length (h_prime_loop fuel v r) = r.
Proof.
  revert v r. induction fuel as [|fuel IH]; intros v r Hr Hf; [lia|]. cbn [h_prime_loop].
  destruct (Nat.ltb_spec 64 r).
  - rewrite length_app, length_take, length_blake2b, IH by lia. lia.
  - apply length_blake2b. lia.
Qed.

Lemma length_h_prime n input : length (h_prime n input) = n.
Proof.
  unfold h_prime. destruct (Nat.leb_spec n 64); [by apply length_blake2b|].
  rewrite length_app, length_take, length_blake2b, length_h_prime_loop by lia. lia.
Qed.

Lemma length_argon2id password salt memory_kib passes lanes n :
  length (argon2id password salt memory_kib passes lanes n) = n.
Proof. apply length_h_prime. Qed.
