(* ===== verification/Float.v ===== *)
(** * IEEE-754 values as bit patterns

    Rust's [f64] and [f32] are modelled by their bit patterns, because the
    code stores, compares ([total_cmp]) and tags the bits.  Arithmetic goes
    through the Standard Library's [SpecFloat] (round to nearest even); a NaN
    result is the canonical quiet NaN.  This file models the part of the
    Rust standard library the engine uses. *)

From S2P Require Import Prelude.
From Stdlib Require Import Floats.SpecFloat.

Abbreviation f64 := Z.
Abbreviation f32 := Z.

(** Formats: precision, [emax], width of the significand field, total width. *)
Record format := mkFormat { f_prec : Z; f_emax : Z }.
Definition binary64 : format := mkFormat 53 1024.
Definition binary32 : format := mkFormat 24 128.

Definition f_mbits (f : format) : Z := f_prec f - 1.
Definition f_ebits (f : format) : Z := Z.log2 (f_emax f) + 1.
Definition f_width (f : format) : Z := f_mbits f + f_ebits f + 1.

(** Bits to the abstract value. *)
Definition sf_of_bits (f : format) (bits : Z) : spec_float :=
  let s := Z.testbit bits (f_width f - 1) in
  let man := Z.land bits (Z.ones (f_mbits f)) in
  let ex := Z.land (Z.shiftr bits (f_mbits f)) (Z.ones (f_ebits f)) in
  if ex =? 0 then
    match man with
    | Zpos p => S754_finite s p (3 - f_emax f - f_prec f)
    | _ => S754_zero s
    end
  else if ex =? Z.ones (f_ebits f) then
    if man =? 0 then S754_infinity s else S754_nan
  else
    match man + 2 ^ f_mbits f with
    | Zpos p => S754_finite s p (ex - 1 + (3 - f_emax f - f_prec f))
    | _ => S754_nan
    end.

Definition sign_bits (f : format) (s : bool) : Z := if s then 2 ^ (f_width f - 1) else 0.

Definition nan_bits (f : format) : Z :=
  Z.shiftl (Z.ones (f_ebits f + 1)) (f_mbits f - 1).

(** The abstract value back to bits (canonical significands), a word of the
    format's width. *)
Definition bits_of_sf (f : format) (x : spec_float) : Z :=
  wrap (f_width f) match x with
  | S754_zero s => sign_bits f s
  | S754_infinity s => sign_bits f s + Z.shiftl (Z.ones (f_ebits f)) (f_mbits f)
  | S754_nan => nan_bits f
  | S754_finite s m e =>
      sign_bits f s +
      (if Zpos m <? 2 ^ f_mbits f then Zpos m
       else Z.shiftl (e - (3 - f_emax f - f_prec f) + 1) (f_mbits f)
            + (Zpos m - 2 ^ f_mbits f))
  end.

Definition f_op2 (f : format) (op : spec_float → spec_float → spec_float) (x y : Z) : Z :=
  bits_of_sf f (op (sf_of_bits f x) (sf_of_bits f y)).

Definition f64_add : f64 → f64 → f64 := f_op2 binary64 (SFadd 53 1024).
Definition f64_sub : f64 → f64 → f64 := f_op2 binary64 (SFsub 53 1024).
Definition f64_mul : f64 → f64 → f64 := f_op2 binary64 (SFmul 53 1024).
Definition f64_div : f64 → f64 → f64 := f_op2 binary64 (SFdiv 53 1024).
Definition f64_sqrt (x : f64) : f64 := bits_of_sf binary64 (SFsqrt 53 1024 (sf_of_bits binary64 x)).

(** Negation flips the sign bit, of NaNs too. *)
Definition f_neg (f : format) (x : Z) : Z := Z.lxor x (2 ^ (f_width f - 1)).

(** [n as f64], [n as f32]: round to nearest even. *)
Definition f_of_Z (f : format) (n : Z) : Z :=
  bits_of_sf f (binary_normalize (f_prec f) (f_emax f) n 0 false).
Definition i64_as_f64 (n : Z) : f64 := f_of_Z binary64 n.
Definition i64_as_f32 (n : Z) : f32 := f_of_Z binary32 n.

(** [x as f32] and [f64::from(x)]. *)
Definition f_convert (from to : format) (x : Z) : Z :=
  match sf_of_bits from x with
  | S754_finite s m e =>
      bits_of_sf to (binary_round (f_prec to) (f_emax to) s m e)
  | y => bits_of_sf to y
  end.
Definition f64_as_f32 (x : f64) : f32 := f_convert binary64 binary32 x.
Definition f64_from_f32 (x : f32) : f64 := f_convert binary32 binary64 x.

(** [str::parse::<f64>] on [digits.digits]: the correctly rounded quotient of
    the digit string by a power of ten. *)
Definition f_of_decimal (f : format) (n : Z) (scale : nat) : Z :=
  match n, 10 ^ Z.of_nat scale with
  | Zpos p, Zpos q =>
      let '(mz, ez, lz) := SFdiv_core_binary (f_prec f) (f_emax f) (Zpos p) 0 (Zpos q) 0 in
      bits_of_sf f (binary_round_aux (f_prec f) (f_emax f) false mz ez lz)
  | _, _ => 0
  end.
Definition f64_of_decimal : Z → nat → f64 := f_of_decimal binary64.

(** [{}] on a float: the shortest digits that read back as the same value,
    closest to it among those, never in exponent notation. *)
Fixpoint dec_digits_fuel (fuel : nat) (n : Z) (acc : bytes) : bytes :=
  match fuel with
  | O => acc
  | S fuel' =>
      let acc' := byte.of_Z (48 + n mod 10) :: acc in
      if n <? 10 then acc' else dec_digits_fuel fuel' (n / 10) acc'
  end.
Definition show_nat (n : Z) : bytes := dec_digits_fuel (S (Z.to_nat (Z.log2 n))) n [].
Definition show_Z (n : Z) : bytes :=
  if n <? 0 then bs "-" ++ show_nat (- n) else show_nat n.

(** The value of a positive finite float as a fraction. *)
Definition sf_num (m : positive) (e : Z) : Z := if e <? 0 then Zpos m else Zpos m * 2 ^ e.
Definition sf_den (e : Z) : Z := if e <? 0 then 2 ^ (- e) else 1.

(** [p] with [10^(p-1) <= num/den < 10^p], searched upwards from a lower bound. *)
Fixpoint dec_exponent (fuel : nat) (num den p : Z) : Z :=
  match fuel with
  | O => p
  | S fuel' =>
      if (if 0 <=? p then num <? den * 10 ^ p else num * 10 ^ (- p) <? den) then p
      else dec_exponent fuel' num den (p + 1)
  end.

(** The decimal [d * 10^(p-k)] read back in the format. *)
Definition read_back (f : format) (d p k : Z) : Z :=
  if k <=? p then f_of_decimal f (d * 10 ^ (p - k)) 0 else f_of_decimal f d (Z.to_nat (k - p)).

Fixpoint shortest (fuel : nat) (f : format) (x num den p k : Z) : Z * Z :=
  let n' := if k <=? p then num else num * 10 ^ (k - p) in
  let d' := if k <=? p then den * 10 ^ (p - k) else den in
  let lo := n' / d' in
  let near := if 2 * (n' - lo * d') <? d' then lo else lo + 1 in
  let other := if near =? lo then lo + 1 else lo in
  match fuel with
  | O => (near, k)
  | S fuel' =>
      if read_back f near p k =? x then (near, k)
      else if read_back f other p k =? x then (other, k)
      else shortest fuel' f x num den p (k + 1)
  end.

(** Digits [d], [k] of them, of the number [d * 10^(p-k)]. *)
Definition show_decimal (d k p : Z) : bytes :=
  let ds := show_nat d in
  let p := p + (Z.of_nat (length ds) - k) in
  let n := Z.of_nat (length ds) in
  if n <=? p then ds ++ replicate (Z.to_nat (p - n)) (byte.of_Z 48)
  else if 0 <? p then take (Z.to_nat p) ds ++ bs "." ++ drop (Z.to_nat p) ds
  else bs "0." ++ replicate (Z.to_nat (- p)) (byte.of_Z 48) ++ ds.

Definition f_show (f : format) (x : Z) : bytes :=
  match sf_of_bits f x with
  | S754_nan => bs "NaN"
  | S754_infinity s => (if s then bs "-" else []) ++ bs "inf"
  | S754_zero s => (if s then bs "-" else []) ++ bs "0"
  | S754_finite s m e =>
      let num := sf_num m e in
      let den := sf_den e in
      let p := dec_exponent 4 num den
                 ((Z.log2 num - Z.log2 den - 1) * 30103 / 100000 - 1) in
      let '(d, k) := shortest 17 f (Z.land x (Z.ones (f_width f - 1))) num den p 1 in
      (if s then bs "-" else []) ++ show_decimal d k p
  end.
Definition f64_show : f64 → bytes := f_show binary64.
Definition f32_show : f32 → bytes := f_show binary32.

(** [==]: NaN differs from itself, the two zeros are equal. *)
Definition f64_eqb (x y : f64) : bool :=
  SFeqb (sf_of_bits binary64 x) (sf_of_bits binary64 y).
Definition f32_eqb (x y : f32) : bool :=
  SFeqb (sf_of_bits binary32 x) (sf_of_bits binary32 y).

(** [f64::total_cmp], as the standard library computes it: flip the lower
    bits of negative patterns and compare as signed integers. *)
Definition total_key (w : Z) (x : Z) : Z :=
  let i := to_signed w x in
  if i <? 0 then to_signed w (Z.lxor x (Z.ones (w - 1))) else i.
Definition f64_total_cmp (x y : f64) : comparison := total_key 64 x ?= total_key 64 y.
Definition f32_total_cmp (x y : f32) : comparison := total_key 32 x ?= total_key 32 y.

(** Sanity checks against known encodings. *)
Example f64_one : i64_as_f64 1 = 0x3FF0000000000000.
Proof. vm_compute. reflexivity. Qed.
Example f64_tenth : f64_of_decimal 1 1 = 0x3FB999999999999A.
Proof. vm_compute. reflexivity. Qed.
Example f64_pi : f64_of_decimal 3141592653589793 15 = 0x400921FB54442D18.
Proof. vm_compute. reflexivity. Qed.
Example f64_min_subnormal : f64_of_decimal 5 324 = 1.
Proof. vm_compute. reflexivity. Qed.
Example f32_tenth : f64_as_f32 (f64_of_decimal 1 1) = 0x3DCCCCCD.
Proof. vm_compute. reflexivity. Qed.
Example f64_round_int : i64_as_f64 9007199254740993 = 0x4340000000000000.
Proof. vm_compute. reflexivity. Qed.
Example f64_sum : f64_add (f64_of_decimal 1 1) (f64_of_decimal 2 1) = 0x3FD3333333333334.
Proof. vm_compute. reflexivity. Qed.
Example f64_half : f64_div (i64_as_f64 1) (i64_as_f64 2) = 0x3FE0000000000000.
Proof. vm_compute. reflexivity. Qed.
Example f64_sqrt2 : f64_sqrt (i64_as_f64 2) = 0x3FF6A09E667F3BCD.
Proof. vm_compute. reflexivity. Qed.
Example f64_zeros_equal : f64_eqb 0 (f_neg binary64 0) = true.
Proof. vm_compute. reflexivity. Qed.
Example f64_zeros_ordered : f64_total_cmp (f_neg binary64 0) 0 = Lt.
Proof. vm_compute. reflexivity. Qed.
Example f64_widen : f64_from_f32 0x3DCCCCCD = 0x3FB99999A0000000.
Proof. vm_compute. reflexivity. Qed.

Example f64_show_pi : f64_show (f64_of_decimal 314 2) = bs "3.14".
Proof. vm_compute. reflexivity. Qed.
Example f64_show_one : f64_show (i64_as_f64 1) = bs "1".
Proof. vm_compute. reflexivity. Qed.
Example f64_show_sum : f64_show (f64_add (f64_of_decimal 1 1) (f64_of_decimal 2 1)) = bs "0.30000000000000004".
Proof. vm_compute. reflexivity. Qed.
Example f64_show_big : f64_show (i64_as_f64 (10 ^ 22)) = bs "10000000000000000000000".
Proof. vm_compute. reflexivity. Qed.
Example f64_show_small : f64_show (f_neg binary64 (f64_of_decimal 5 10)) = bs "-0.0000000005".
Proof. vm_compute. reflexivity. Qed.
Example f64_show_carry : f64_show (f64_of_decimal 99 1) = bs "9.9".
Proof. vm_compute. reflexivity. Qed.
Example f32_show_tenth : f32_show 0x3DCCCCCD = bs "0.1".
Proof. vm_compute. reflexivity. Qed.

(** ** Every operation yields a word of its format *)

Lemma in_u_bits_of_sf f x : 0 ≤ f_width f → in_u (f_width f) (bits_of_sf f x).
Proof. apply in_u_wrap. Qed.

Lemma in_u_f64_op op x y : in_u 64 (f_op2 binary64 op x y).
Proof. by apply (in_u_bits_of_sf binary64). Qed.

Lemma in_u_f64_of_decimal n k : in_u 64 (f64_of_decimal n k).
Proof.
  unfold f64_of_decimal, f_of_decimal. destruct n; try done.
  destruct (10 ^ Z.of_nat k); try done. do 2 case_match. by apply (in_u_bits_of_sf binary64).
Qed.

Lemma in_u_i64_as_f64 n : in_u 64 (i64_as_f64 n).
Proof. by apply (in_u_bits_of_sf binary64). Qed.

Lemma in_u_i64_as_f32 n : in_u 32 (i64_as_f32 n).
Proof. by apply (in_u_bits_of_sf binary32). Qed.

Lemma in_u_f64_as_f32 x : in_u 32 (f64_as_f32 x).
Proof. unfold f64_as_f32, f_convert. case_match; by apply (in_u_bits_of_sf binary32). Qed.

Lemma in_u_f64_from_f32 x : in_u 64 (f64_from_f32 x).
Proof. unfold f64_from_f32, f_convert. case_match; by apply (in_u_bits_of_sf binary64). Qed.

Lemma in_u_f64_neg x : in_u 64 x → in_u 64 (f_neg binary64 x).
Proof. intros. by apply in_u_lxor. Qed.

Lemma in_u_f32_neg x : in_u 32 x → in_u 32 (f_neg binary32 x).
Proof. intros. by apply in_u_lxor. Qed.

(** ** [total_cmp] is a total order on bit patterns *)

Lemma total_key_inj w x y :
  1 ≤ w → in_u w x → in_u w y → total_key w x = total_key w y → x = y.
Proof.
  unfold total_key, to_signed, in_u. intros Hw Hx Hy.
  assert (H2 : 2 ^ w = 2 * 2 ^ (w - 1)) by (rewrite <- Z.pow_succ_r by lia; f_equal; lia).
  assert (Hflip : ∀ z, 2 ^ (w - 1) ≤ z < 2 ^ w → Z.lxor z (Z.ones (w - 1)) = 3 * 2 ^ (w - 1) - 1 - z).
  { intros z Hz.
    set (r := z - 2 ^ (w - 1)). assert (Hr : 0 ≤ r < 2 ^ (w - 1)) by lia.
    assert (Hz' : z = Z.lxor (2 ^ (w - 1)) r).
    { rewrite <- Z.add_nocarry_lxor; [lia|]. apply Z.bits_inj'. intros n Hn.
      rewrite Z.land_spec, Z.bits_0, Z.pow2_bits_eqb by lia.
      destruct (Z.eqb_spec (w - 1) n) as [<-|]; [|done]. cbn.
      rewrite <- (Z.mod_small r (2 ^ (w - 1))) by done. apply Z.mod_pow2_bits_high. lia. }
    rewrite Hz' at 1. rewrite Z.lxor_assoc.
    assert (Hl : Z.lxor r (Z.ones (w - 1)) = Z.ones (w - 1) - r).
    { apply Z.bits_inj'. intros n Hn.
      rewrite (Z.sub_nocarry_ldiff (Z.ones (w - 1)) r).
      - rewrite Z.lxor_spec, Z.ldiff_spec, Z.testbit_ones_nonneg by lia.
        destruct (Z.ltb_spec n (w - 1)); [by destruct (Z.testbit r n)|].
        assert (Z.testbit r n = false) as ->; [|done].
        rewrite <- (Z.mod_small r (2 ^ (w - 1))) by done. apply Z.mod_pow2_bits_high. lia.
      - apply Z.bits_inj'. intros i Hi.
        rewrite Z.ldiff_spec, Z.bits_0, Z.testbit_ones_nonneg by lia.
        destruct (Z.ltb_spec i (w - 1)); [by rewrite andb_false_r|].
        rewrite <- (Z.mod_small r (2 ^ (w - 1))) by done. rewrite Z.mod_pow2_bits_high by lia. done. }
    rewrite Hl, <- Z.add_nocarry_lxor.
    - rewrite Z.ones_equiv. lia.
    - apply Z.bits_inj'. intros n Hn. rewrite Z.land_spec, Z.bits_0, Z.pow2_bits_eqb by lia.
      destruct (Z.eqb_spec (w - 1) n) as [<-|]; [|done]. cbn.
      rewrite <- (Z.mod_small (Z.ones (w - 1) - r) (2 ^ (w - 1))) by (rewrite Z.ones_equiv; lia).
      apply Z.mod_pow2_bits_high. lia. }
  destruct (Z.ltb_spec x (2 ^ (w - 1))), (Z.ltb_spec y (2 ^ (w - 1)));
    rewrite ?Hflip by lia; repeat case_match; try lia; unfold to_signed in *; repeat case_match; rewrite ?Hflip in * by lia; lia.
Qed.

Lemma f64_total_cmp_eq x y : in_u 64 x → in_u 64 y → f64_total_cmp x y = Eq ↔ x = y.
Proof.
  intros Hx Hy. unfold f64_total_cmp. rewrite Z.compare_eq_iff. split; [|by intros ->].
  by apply total_key_inj.
Qed.
