(* ===== verification/SqlAst.v ===== *)
(** * The SQL abstract syntax ([ciphra-sql/src/lib.rs])

    Statements, expressions and literals with the source's constructors
    (prefixed where Rust name spaces them by enum), and the [Display]
    implementations the engine prints plans with. *)

From S2P Require Import Prelude Float.

Inductive DataType : Type :=
| TyInt
| TyReal
| TyText
| TyVector (dim : Z).

Record ColumnDef : Type := mkColumnDef {
  cd_name : bytes;
  cd_ty : DataType;
  cd_encrypted : bool;
  cd_primary_key : bool;
  cd_indexed : bool;
  cd_range_indexed : bool;
}.

Inductive Literal : Type :=
| LNull
| LInt (n : Z)
| LReal (x : f64)
| LText (s : bytes)
| LVector (v : list f32).

Inductive AggFunc : Type := Count | Sum | Avg | Min | Max.

Inductive AggArg : Type :=
| AStar
| AColumn (column : bytes).

Inductive SelectItem : Type :=
| SIColumn (column : bytes)
| SIAggregate (func : AggFunc) (arg : AggArg).

Inductive Projection : Type :=
| PAll
| PColumns (columns : list bytes)
| PItems (items : list SelectItem).

Inductive CmpOp : Type := CEq | CNe | CLt | CGt | CLe | CGe.

Inductive HavingTerm : Type :=
| HTColumn (column : bytes)
| HTAggregate (func : AggFunc) (arg : AggArg).

Inductive HavingExpr : Type :=
| HCompare (term : HavingTerm) (op : CmpOp) (value : Literal)
| HNot (e : HavingExpr)
| HAnd (a b : HavingExpr)
| HOr (a b : HavingExpr).

Record Assignment : Type := mkAssignment {
  as_column : bytes;
  as_value : Literal;
}.

Inductive Expr : Type :=
| ECompare (column : bytes) (op : CmpOp) (value : Literal)
| EIsNull (column : bytes) (negated : bool)
| ENot (e : Expr)
| EAnd (a b : Expr)
| EOr (a b : Expr).

Record OrderBy : Type := mkOrderBy {
  ob_column : bytes;
  ob_descending : bool;
  ob_nearest_to : option (list f32);
}.

Record Limit : Type := mkLimit {
  lim_count : Z;
  lim_offset : Z;
}.

Inductive Statement : Type :=
| CreateTable (name : bytes) (columns : list ColumnDef)
| DropTable (name : bytes)
| CreateIndex (table column : bytes) (range : bool)
| DropIndex (table column : bytes) (range : bool)
| Insert (table : bytes) (columns : option (list bytes)) (rows : list (list Literal))
| Select (columns : Projection) (table : bytes) (predicate : option Expr)
    (group_by : list bytes) (having : option HavingExpr) (order_by : option OrderBy)
    (limit : option Limit)
| Update (table : bytes) (assignments : list Assignment) (predicate : option Expr)
| Delete (table : bytes) (predicate : option Expr)
| Explain (stmt : Statement)
| Begin
| Commit
| Rollback.

#[export] Instance DataType_eq_dec : EqDecision DataType.
Proof. solve_decision. Defined.
#[export] Instance ColumnDef_eq_dec : EqDecision ColumnDef.
Proof. solve_decision. Defined.
#[export] Instance Literal_eq_dec : EqDecision Literal.
Proof. solve_decision. Defined.
#[export] Instance AggFunc_eq_dec : EqDecision AggFunc.
Proof. solve_decision. Defined.
#[export] Instance AggArg_eq_dec : EqDecision AggArg.
Proof. solve_decision. Defined.
#[export] Instance CmpOp_eq_dec : EqDecision CmpOp.
Proof. solve_decision. Defined.

(** ** Names and [Display] *)

Definition AggFunc_name (f : AggFunc) : bytes :=
  match f with
  | Count => bs "COUNT"
  | Sum => bs "SUM"
  | Avg => bs "AVG"
  | Min => bs "MIN"
  | Max => bs "MAX"
  end.

Definition show_op (op : CmpOp) : bytes :=
  match op with
  | CEq => bs "="
  | CNe => bs "!="
  | CLt => bs "<"
  | CGt => bs ">"
  | CLe => bs "<="
  | CGe => bs ">="
  end.

Definition quote : byte := Byte.x27.

(** [s.replace('\'', "''")] *)
Fixpoint escape_quotes (s : bytes) : bytes :=
  match s with
  | [] => []
  | c :: s' => if decide (c = quote) then quote :: quote :: escape_quotes s'
               else c :: escape_quotes s'
  end.

(** Items separated by [", "]. *)
Fixpoint comma_sep (items : list bytes) : bytes :=
  match items with
  | [] => []
  | [x] => x
  | x :: items' => x ++ bs ", " ++ comma_sep items'
  end.

Definition show_literal (l : Literal) : bytes :=
  match l with
  | LNull => bs "NULL"
  | LInt n => show_Z n
  | LReal x => f64_show x
  | LText s => [quote] ++ escape_quotes s ++ [quote]
  | LVector v => bs "[" ++ comma_sep (map f32_show v) ++ bs "]"
  end.

Fixpoint show_expr (e : Expr) : bytes :=
  match e with
  | ECompare column op value =>
      column ++ bs " " ++ show_op op ++ bs " " ++ show_literal value
  | EIsNull column negated =>
      column ++ bs " IS " ++ (if negated then bs "NOT " else []) ++ bs "NULL"
  | ENot inner => bs "NOT (" ++ show_expr inner ++ bs ")"
  | EAnd a b => bs "(" ++ show_expr a ++ bs " AND " ++ show_expr b ++ bs ")"
  | EOr a b => bs "(" ++ show_expr a ++ bs " OR " ++ show_expr b ++ bs ")"
  end.
