(* ===== verification/SqlLexer.v ===== *)
(** * The lexer ([ciphra-sql/src/lexer.rs])

    The input position [i] of the source is the remaining suffix of the
    input here.  Each iteration of the loop of [tokenize] is [lex_one];
    [tokenize] runs it with a fuel of one more than the input's length,
    which is never exhausted ([tokenize_total]). *)

From S2P Require Import Prelude Float SqlAst.

Inductive Token : Type :=
| TIdent (s : bytes)
| TInt (n : Z)
| TFloat (x : f64)
| TStr (s : bytes)
| TComma
| TLBracket
| TRBracket
| TLParen
| TRParen
| TStar
| TSemi
| TMinus
| TEq
| TNe
| TLt
| TGt
| TLe
| TGe.

#[export] Instance Token_eq_dec : EqDecision Token.
Proof. solve_decision. Defined.

(** Every [ParseError(...)] of the lexer and the parser, with the data its
    message interpolates.  [OutOfFuel] is the one constructor the source
    does not have: a loop of the model that ran out of fuel. *)
Inductive ParseError : Type :=
| ExpectedEqAfterBang
| BadFloat (text : bytes)
| IntOutOfRange (text : bytes)
| UnexpectedChar (rest : bytes)
| UnterminatedString
| ExpectedFound (expected : bytes) (found : option Token)
| ExpectedKeyword (kw found : bytes)
| ExpectedUnsigned (expected : bytes) (found : Token)
| UnknownStatement (kw : bytes)
| ExplainUnsupported
| VectorDimension (dim : Z)
| UnknownColumnType (ty : bytes)
| StarWithGroupBy
| NearestNotVector (found : Literal)
| StarNotAllowed (func : AggFunc)
| OutOfFuel.

(** ** Characters *)

Definition is_ascii_digit (b : byte) : bool :=
  (48 <=? byte.unsigned b) && (byte.unsigned b <=? 57).
Definition is_upper (b : byte) : bool :=
  (65 <=? byte.unsigned b) && (byte.unsigned b <=? 90).
Definition is_lower (b : byte) : bool :=
  (97 <=? byte.unsigned b) && (byte.unsigned b <=? 122).
Definition is_ident_start (b : byte) : bool :=
  is_lower b || is_upper b || bool_decide (b = Byte.x5f).
Definition is_ident_char (b : byte) : bool :=
  is_lower b || is_upper b || is_ascii_digit b || bool_decide (b = Byte.x5f).
Definition to_ascii_lower (b : byte) : byte :=
  if is_upper b then byte.of_Z (byte.unsigned b + 32) else b.
Definition to_ascii_lowercase (s : bytes) : bytes := map to_ascii_lower s.
Definition to_ascii_uppercase (s : bytes) : bytes :=
  map (λ b, if is_lower b then byte.of_Z (byte.unsigned b - 32) else b) s.
Definition is_space (b : byte) : bool :=
  bool_decide (b = Byte.x20) || bool_decide (b = Byte.x09)
  || bool_decide (b = Byte.x0d) || bool_decide (b = Byte.x0a).

(** ** Numbers *)

(** The value of a string of ASCII digits. *)
Definition digits_value (ds : bytes) : Z :=
  fold_left (λ acc d, 10 * acc + (byte.unsigned d - 48)) ds 0.

(** [text.parse::<i64>()] on a string of digits. *)
Definition parse_i64 (ds : bytes) : option Z :=
  let n := digits_value ds in
  if n <? 2 ^ 63 then Some n else None.

(** ** Strings *)

Fixpoint lex_string_loop (fuel : nat) (rest out : bytes) (i : nat) :
    result ParseError (bytes * nat) :=
  match fuel with
  | O => Err OutOfFuel
  | S fuel' =>
      match position (λ b, bool_decide (b = quote)) rest with
      | None => Err UnterminatedString
      | Some rel =>
          let out := out ++ take rel rest in
          let i := (i + (rel + 1))%nat in
          let rest := drop (rel + 1) rest in
          match rest with
          | q :: rest' =>
              if decide (q = quote) then lex_string_loop fuel' rest' (out ++ [quote]) (i + 1)
              else Ok (out, i)
          | [] => Ok (out, i)
          end
      end
  end.

(** [lex_string]: the contents and the number of bytes consumed. *)
Definition lex_string (input : bytes) : result ParseError (bytes * nat) :=
  lex_string_loop (length input) (drop 1 input) [] 1.

(** ** Tokens *)

(** A number: digits, and a fraction when a dot is followed by a digit. *)
Definition lex_number (input : bytes) : result ParseError (Token * bytes) :=
  let ds := take_while is_ascii_digit input in
  let rest := drop_while is_ascii_digit input in
  let int_token := n ← ok_or (IntOutOfRange ds) (parse_i64 ds); Ok (TInt n, rest) in
  match rest with
  | dot :: (d :: _) as frac =>
      if bool_decide (dot = Byte.x2e) && is_ascii_digit d then
        let fs := take_while is_ascii_digit frac in
        Ok (TFloat (f64_of_decimal (digits_value (ds ++ fs)) (length fs)),
            drop_while is_ascii_digit frac)
      else int_token
  | _ => int_token
  end.

(** One iteration of the loop: the token it pushes, if any, and the rest. *)
Definition lex_one (b : byte) (rest : bytes) : result ParseError (option Token * bytes) :=
  let input := b :: rest in
  if is_space b then Ok (None, rest)
  else if bool_decide (b = Byte.x2d) && bool_decide (head rest = Some Byte.x2d) then
    Ok (None, drop_while (λ c, bool_decide (c ≠ Byte.x0a)) input)
  else if bool_decide (b = Byte.x2c) then Ok (Some TComma, rest)
  else if bool_decide (b = Byte.x5b) then Ok (Some TLBracket, rest)
  else if bool_decide (b = Byte.x5d) then Ok (Some TRBracket, rest)
  else if bool_decide (b = Byte.x28) then Ok (Some TLParen, rest)
  else if bool_decide (b = Byte.x29) then Ok (Some TRParen, rest)
  else if bool_decide (b = Byte.x2a) then Ok (Some TStar, rest)
  else if bool_decide (b = Byte.x3b) then Ok (Some TSemi, rest)
  else if bool_decide (b = Byte.x2d) then Ok (Some TMinus, rest)
  else if bool_decide (b = Byte.x3d) then Ok (Some TEq, rest)
  else if bool_decide (b = Byte.x21) then
    if bool_decide (head rest = Some Byte.x3d) then Ok (Some TNe, tail rest)
    else Err ExpectedEqAfterBang
  else if bool_decide (b = Byte.x3c) then
    if bool_decide (head rest = Some Byte.x3d) then Ok (Some TLe, tail rest)
    else if bool_decide (head rest = Some Byte.x3e) then Ok (Some TNe, tail rest)
    else Ok (Some TLt, rest)
  else if bool_decide (b = Byte.x3e) then
    if bool_decide (head rest = Some Byte.x3d) then Ok (Some TGe, tail rest)
    else Ok (Some TGt, rest)
  else if bool_decide (b = quote) then
    '(s, consumed) ← lex_string input;
    Ok (Some (TStr s), drop consumed input)
  else if is_ascii_digit b then
    '(t, rest) ← lex_number input;
    Ok (Some t, rest)
  else if is_ident_start b then
    Ok (Some (TIdent (to_ascii_lowercase (take_while is_ident_char input))),
        drop_while is_ident_char input)
  else Err (UnexpectedChar input).

Fixpoint tokenize_loop (fuel : nat) (input : bytes) (tokens : list Token) :
    result ParseError (list Token) :=
  match fuel, input with
  | _, [] => Ok tokens
  | O, _ => Err OutOfFuel
  | S fuel', b :: rest =>
      '(t, input') ← lex_one b rest;
      tokenize_loop fuel' input' (tokens ++ option_list t)
  end.

Definition tokenize (input : bytes) : result ParseError (list Token) :=
  tokenize_loop (length input) input [].
