(* ===== verification/SqlParser.v ===== *)
(** * The recursive-descent parser ([ciphra-sql/src/parser.rs])

    The parser state is the suffix of the token vector from [pos].  A
    parser is a function from it to a result and the remaining suffix; the
    mutable position of the source is threaded by the monad.  Loops and the
    recursion of the grammar take a fuel, decremented at each call;
    [parse_statements] starts with five times the number of tokens plus
    ten, which is enough ([parse_statements_total] in SqlFacts). *)

From S2P Require Import Prelude Float SqlAst SqlLexer.

Definition ParseM (A : Type) : Type := list Token → result ParseError (A * list Token).

#[export] Instance ParseM_ret : MRet ParseM := λ A a ts, Ok (a, ts).
#[export] Instance ParseM_bind : MBind ParseM := λ A B f m ts,
  match m ts with Ok (a, ts') => f a ts' | Err e => Err e end.

Definition fail {A} (e : ParseError) : ParseM A := λ _, Err e.

(** ** Token helpers *)

Definition at_end : ParseM bool := λ ts, Ok (bool_decide (ts = []), ts).

Definition peek : ParseM (option Token) := λ ts, Ok (head ts, ts).

(** [next]: the next token; [expected] is for the error message. *)
Definition next (expected : bytes) : ParseM Token := λ ts,
  match ts with
  | [] => Err (ExpectedFound expected None)
  | t :: ts' => Ok (t, ts')
  end.

(** [check] only looks at the next token. *)
Definition check_tok (token : Token) : ParseM bool := λ ts,
  Ok (bool_decide (head ts = Some token), ts).

Definition eat (token : Token) : ParseM bool := λ ts,
  if bool_decide (head ts = Some token) then Ok (true, tail ts) else Ok (false, ts).

Definition unexpected {A} (expected : bytes) : ParseM A := λ ts,
  Err (ExpectedFound expected (head ts)).

(** The text of a punctuation token, for the error messages. *)
Definition show_token (t : Token) : bytes :=
  match t with
  | TIdent s => s
  | TInt n => show_Z n
  | TFloat x => f64_show x
  | TStr s => bs "'" ++ s ++ bs "'"
  | TComma => bs "," | TLBracket => bs "[" | TRBracket => bs "]"
  | TLParen => bs "(" | TRParen => bs ")" | TStar => bs "*" | TSemi => bs ";"
  | TMinus => bs "-" | TEq => bs "=" | TNe => bs "!=" | TLt => bs "<"
  | TGt => bs ">" | TLe => bs "<=" | TGe => bs ">="
  end.

Definition expect (token : Token) : ParseM () :=
  b ← eat token;
  if (b : bool) then mret () else unexpected (bs "'" ++ show_token token ++ bs "'").

(** Any identifier-shaped token. *)
Definition keyword (expected : bytes) : ParseM bytes :=
  t ← next expected;
  match t with
  | TIdent s => mret s
  | other => fail (ExpectedFound expected (Some other))
  end.

Definition expect_keyword (kw : string) : ParseM () :=
  found ← keyword (bs "keyword " ++ to_ascii_uppercase (bs kw));
  if bool_decide (found = bs kw) then mret () else fail (ExpectedKeyword (to_ascii_uppercase (bs kw)) found).

Definition eat_keyword (kw : string) : ParseM bool := λ ts,
  match ts with
  | TIdent s :: ts' => if bool_decide (s = bs kw) then Ok (true, ts') else Ok (false, ts)
  | _ => Ok (false, ts)
  end.

Definition identifier (expected : bytes) : ParseM bytes := keyword expected.

Definition parse_unsigned (expected : bytes) : ParseM Z :=
  t ← next expected;
  match t with
  | TInt n => if 0 <=? n then mret n else fail (ExpectedUnsigned expected (TInt n))
  | other => fail (ExpectedUnsigned expected other)
  end.

(** [while self.eat(&Token::Comma) { acc.push(elem()?) }] *)
Fixpoint comma_loop {A} (n : nat) (elem : ParseM A) (acc : list A) : ParseM (list A) :=
  match n with
  | O => fail OutOfFuel
  | S n' =>
      b ← eat TComma;
      if (b : bool) then
        x ← elem;
        comma_loop n' elem (acc ++ [x])
      else mret acc
  end.

(** [vec![elem()?]] followed by that loop. *)
Definition comma_list {A} (n : nat) (elem : ParseM A) : ParseM (list A) :=
  x ← elem; comma_loop n elem [x].

(** ** Literals *)

(** One number inside a [[...]] vector literal. *)
Definition vector_component : ParseM f32 :=
  negative ← eat TMinus;
  t ← next (bs "a number");
  magnitude ← match t with
              | TInt n => mret (i64_as_f32 n)
              | TFloat x => mret (f64_as_f32 x)
              | other => fail (ExpectedFound (bs "a number in a vector literal") (Some other))
              end;
  mret (if (negative : bool) then f_neg binary32 magnitude else magnitude).

Definition literal (n : nat) : ParseM Literal :=
  t ← next (bs "a literal");
  match t with
  | TInt n => mret (LInt n)
  | TStr s => mret (LText s)
  | TLBracket =>
      components ← comma_list n vector_component;
      _ ← expect TRBracket;
      mret (LVector components)
  | TFloat x => mret (LReal x)
  | TMinus =>
      t' ← next (bs "a number");
      match t' with
      | TInt n => mret (LInt (- n))
      | TFloat x => mret (LReal (f_neg binary64 x))
      | other => fail (ExpectedFound (bs "a number after '-'") (Some other))
      end
  | TIdent kw =>
      if bool_decide (kw = bs "null") then mret LNull
      else fail (ExpectedFound (bs "a literal") (Some (TIdent kw)))
  | other => fail (ExpectedFound (bs "a literal") (Some other))
  end.

Definition cmp_op_of (t : Token) : option CmpOp :=
  match t with
  | TEq => Some CEq | TNe => Some CNe | TLt => Some CLt
  | TGt => Some CGt | TLe => Some CLe | TGe => Some CGe
  | _ => None
  end.

(** The operator between a [WHERE] column or a [HAVING] term and its literal. *)
Definition cmp_op (context : bytes) : ParseM CmpOp :=
  t ← next (bs "a comparison operator");
  match cmp_op_of t with
  | Some op => mret op
  | None => fail (ExpectedFound context (Some t))
  end.

(** ** Boolean grammar: OR < AND < NOT < primary

    [expr], [and_expr], [not_expr], [primary_expr] and their [having_]
    copies are the same four functions up to the constructors and the
    primary's leaf, here the parameters of a section. *)

Section bool_grammar.
Context {E : Type} (mk_or mk_and : E → E → E) (mk_not : E → E) (leaf : nat → ParseM E).

Fixpoint or_level (n : nat) : ParseM E :=
  match n with
  | O => fail OutOfFuel
  | S n' => left ← and_level n'; or_loop n' left
  end
with or_loop (n : nat) (left : E) : ParseM E :=
  match n with
  | O => fail OutOfFuel
  | S n' =>
      b ← eat_keyword "or";
      if (b : bool) then right ← and_level n'; or_loop n' (mk_or left right)
      else mret left
  end
with and_level (n : nat) : ParseM E :=
  match n with
  | O => fail OutOfFuel
  | S n' => left ← not_level n'; and_loop n' left
  end
with and_loop (n : nat) (left : E) : ParseM E :=
  match n with
  | O => fail OutOfFuel
  | S n' =>
      b ← eat_keyword "and";
      if (b : bool) then right ← not_level n'; and_loop n' (mk_and left right)
      else mret left
  end
with not_level (n : nat) : ParseM E :=
  match n with
  | O => fail OutOfFuel
  | S n' =>
      b ← eat_keyword "not";
      if (b : bool) then e ← not_level n'; mret (mk_not e)
      else primary_level n'
  end
with primary_level (n : nat) : ParseM E :=
  match n with
  | O => fail OutOfFuel
  | S n' =>
      b ← eat TLParen;
      if (b : bool) then
        inner ← or_level n';
        _ ← expect TRParen;
        mret inner
      else leaf n'
  end.

End bool_grammar.

(** ** WHERE *)

Definition where_leaf (n : nat) : ParseM Expr :=
  column ← identifier (bs "a column name");
  is_kw ← eat_keyword "is";
  if (is_kw : bool) then
    negated ← eat_keyword "not";
    _ ← expect_keyword "null";
    mret (EIsNull column negated)
  else
    op ← cmp_op (bs "a comparison operator");
    value ← literal n;
    mret (ECompare column op value).

Definition expr : nat → ParseM Expr := or_level EOr EAnd ENot where_leaf.
Definition and_expr : nat → ParseM Expr := and_level EOr EAnd ENot where_leaf.
Definition not_expr : nat → ParseM Expr := not_level EOr EAnd ENot where_leaf.
Definition primary_expr : nat → ParseM Expr := primary_level EOr EAnd ENot where_leaf.

Definition optional_where (n : nat) : ParseM (option Expr) :=
  b ← eat_keyword "where";
  if (b : bool) then e ← expr n; mret (Some e) else mret None.

(** ** Aggregates and HAVING *)

(** If the next tokens are an aggregate's name and [(], the function. *)
Definition peek_aggregate : ParseM (option AggFunc) := λ ts,
  match ts with
  | TIdent name :: rest =>
      let func :=
        if bool_decide (name = bs "count") then Some Count
        else if bool_decide (name = bs "sum") then Some Sum
        else if bool_decide (name = bs "avg") then Some Avg
        else if bool_decide (name = bs "min") then Some Min
        else if bool_decide (name = bs "max") then Some Max
        else None in
      Ok (if bool_decide (head rest = Some TLParen) then func else None, ts)
  | _ => Ok (None, ts)
  end.

(** [self.pos += 1] *)
Definition skip_token : ParseM () := λ ts, Ok ((), tail ts).

(** The argument list of an aggregate, from its name on. *)
Definition aggregate_arg (func : AggFunc) : ParseM AggArg :=
  _ ← skip_token;
  _ ← expect TLParen;
  star ← eat TStar;
  arg ← (if (star : bool) then
           if bool_decide (func ≠ Count) then fail (StarNotAllowed func) else mret AStar
         else c ← identifier (bs "a column inside the aggregate"); mret (AColumn c));
  _ ← expect TRParen;
  mret arg.

Definition having_leaf (n : nat) : ParseM HavingExpr :=
  agg ← peek_aggregate;
  term ← match agg with
         | Some func => arg ← aggregate_arg func; mret (HTAggregate func arg)
         | None =>
             c ← identifier (bs "a column or aggregate in HAVING"); mret (HTColumn c)
         end;
  op ← cmp_op (bs "a comparison operator in HAVING");
  value ← literal n;
  mret (HCompare term op value).

Definition having_expr : nat → ParseM HavingExpr := or_level HOr HAnd HNot having_leaf.
Definition having_and : nat → ParseM HavingExpr := and_level HOr HAnd HNot having_leaf.
Definition having_not : nat → ParseM HavingExpr := not_level HOr HAnd HNot having_leaf.
Definition having_primary : nat → ParseM HavingExpr :=
  primary_level HOr HAnd HNot having_leaf.

Definition select_item : ParseM SelectItem :=
  agg ← peek_aggregate;
  match agg with
  | Some func => arg ← aggregate_arg func; mret (SIAggregate func arg)
  | None => c ← identifier (bs "column name"); mret (SIColumn c)
  end.

(** ** Statements *)

Definition index_target (create range : bool) : ParseM Statement :=
  _ ← expect_keyword "on";
  table ← identifier (bs "table name");
  _ ← expect TLParen;
  column ← identifier (bs "column name");
  _ ← expect TRParen;
  mret (if create then CreateIndex table column range else DropIndex table column range).

Definition column_type : ParseM DataType :=
  kw ← keyword (bs "a column type (INT, TEXT or VECTOR)");
  if bool_decide (kw = bs "int" ∨ kw = bs "integer") then mret TyInt
  else if bool_decide (kw = bs "real" ∨ kw = bs "float" ∨ kw = bs "double") then mret TyReal
  else if bool_decide (kw = bs "text" ∨ kw = bs "varchar") then mret TyText
  else if bool_decide (kw = bs "vector") then
    _ ← expect TLParen;
    dim ← parse_unsigned (bs "a vector dimension");
    _ ← expect TRParen;
    if (dim =? 0) || (4096 <? dim) then fail (VectorDimension dim)
    else mret (TyVector (wrap 16 dim))
  else fail (UnknownColumnType kw).

(** The [ENCRYPTED] and [PRIMARY KEY] markers, in any order, repeatable. *)
Fixpoint column_markers (n : nat) (encrypted primary_key : bool) : ParseM (bool * bool) :=
  match n with
  | O => fail OutOfFuel
  | S n' =>
      enc ← eat_keyword "encrypted";
      if (enc : bool) then column_markers n' true primary_key
      else
        pri ← eat_keyword "primary";
        if (pri : bool) then
          _ ← expect_keyword "key";
          column_markers n' encrypted true
        else mret (encrypted, primary_key)
  end.

Definition column_def (n : nat) : ParseM ColumnDef :=
  col_name ← identifier (bs "column name");
  ty ← column_type;
  markers ← column_markers n false false;
  mret (mkColumnDef col_name ty markers.1 markers.2 false false).

Definition create_table (n : nat) : ParseM Statement :=
  _ ← expect_keyword "table";
  name ← identifier (bs "table name");
  _ ← expect TLParen;
  columns ← comma_list n (column_def n);
  _ ← expect TRParen;
  mret (CreateTable name columns).

Definition drop_table : ParseM Statement :=
  _ ← expect_keyword "table";
  name ← identifier (bs "table name");
  mret (DropTable name).

Definition value_tuple (n : nat) : ParseM (list Literal) :=
  _ ← expect TLParen;
  values ← comma_list n (literal n);
  _ ← expect TRParen;
  mret values.

Definition insert_columns (n : nat) : ParseM (option (list bytes)) :=
  b ← eat TLParen;
  if (b : bool) then
    cols ← comma_list n (identifier (bs "column name"));
    _ ← expect TRParen;
    mret (Some cols)
  else mret None.

Definition insert (n : nat) : ParseM Statement :=
  _ ← expect_keyword "into";
  table ← identifier (bs "table name");
  columns ← insert_columns n;
  _ ← expect_keyword "values";
  rows ← comma_list n (value_tuple n);
  mret (Insert table columns rows).

Definition is_aggregate (it : SelectItem) : bool :=
  match it with SIAggregate _ _ => true | SIColumn _ => false end.

(** The column names of items that hold no aggregate. *)
Definition plain_columns (items : list SelectItem) : list bytes :=
  omap (λ it, match it with SIColumn name => Some name | SIAggregate _ _ => None end) items.

Definition select_projection (n : nat) : ParseM (Projection * bool) :=
  star ← eat TStar;
  if (star : bool) then mret (PAll, false)
  else
    items ← comma_list n select_item;
    mret (PItems items, existsb is_aggregate items).

Definition select_group_by (n : nat) : ParseM (list bytes) :=
  b ← eat_keyword "group";
  if (b : bool) then
    _ ← expect_keyword "by";
    comma_list n (identifier (bs "column name"))
  else mret [].

Definition select_having (n : nat) : ParseM (option HavingExpr) :=
  b ← eat_keyword "having";
  if (b : bool) then e ← having_expr n; mret (Some e) else mret None.

(** A plain column projection is collapsed to the simple form; [HAVING]
    forces the aggregate form. *)
Definition collapse_projection (columns : Projection) (has_aggregate : bool)
    (group_by : list bytes) (having : option HavingExpr) : Projection :=
  if negb has_aggregate && bool_decide (group_by = []) && negb (bool_decide (is_Some having)) then
    match columns with
    | PItems items => PColumns (plain_columns items)
    | other => other
    end
  else columns.

Definition is_all (p : Projection) : bool :=
  match p with PAll => true | _ => false end.

Definition select_order_by (n : nat) : ParseM (option OrderBy) :=
  b ← eat_keyword "order";
  if (b : bool) then
    _ ← expect_keyword "by";
    column ← identifier (bs "column name");
    nearest ← eat_keyword "nearest";
    if (nearest : bool) then
      _ ← expect_keyword "to";
      l ← literal n;
      match l with
      | LVector v => mret (Some (mkOrderBy column false (Some v)))
      | other => fail (NearestNotVector other)
      end
    else
      desc ← eat_keyword "desc";
      if (desc : bool) then mret (Some (mkOrderBy column true None))
      else
        _ ← eat_keyword "asc";
        mret (Some (mkOrderBy column false None))
  else mret None.

Definition select_limit : ParseM (option Limit) :=
  b ← eat_keyword "limit";
  if (b : bool) then
    count ← parse_unsigned (bs "a row count after LIMIT");
    off ← eat_keyword "offset";
    offset ← (if (off : bool) then parse_unsigned (bs "a row count after OFFSET") else mret 0);
    mret (Some (mkLimit count offset))
  else mret None.

Definition select (n : nat) : ParseM Statement :=
  proj ← select_projection n;
  _ ← expect_keyword "from";
  table ← identifier (bs "table name");
  predicate ← optional_where n;
  group_by ← select_group_by n;
  having ← select_having n;
  let columns := collapse_projection proj.1 proj.2 group_by having in
  if is_all columns && negb (bool_decide (group_by = [])) then fail StarWithGroupBy
  else
    order_by ← select_order_by n;
    limit ← select_limit;
    mret (Select columns table predicate group_by having order_by limit).

Definition assignment (n : nat) : ParseM Assignment :=
  column ← identifier (bs "column name");
  _ ← expect TEq;
  value ← literal n;
  mret (mkAssignment column value).

Definition update (n : nat) : ParseM Statement :=
  table ← identifier (bs "table name");
  _ ← expect_keyword "set";
  assignments ← comma_list n (assignment n);
  predicate ← optional_where n;
  mret (Update table assignments predicate).

Definition delete_stmt (n : nat) : ParseM Statement :=
  _ ← expect_keyword "from";
  table ← identifier (bs "table name");
  predicate ← optional_where n;
  mret (Delete table predicate).

(** The optional noise word of [BEGIN], [COMMIT] and [ROLLBACK]. *)
Definition noise_word : ParseM () :=
  b ← eat_keyword "transaction";
  if (b : bool) then mret () else _ ← eat_keyword "work"; mret ().

Definition explainable (s : Statement) : bool :=
  match s with
  | Select _ _ _ _ _ _ _ | Update _ _ _ | Delete _ _ => true
  | _ => false
  end.

(** [create] and [drop], after the keyword. *)
Definition create_or_drop (create : bool) (rest : ParseM Statement) : ParseM Statement :=
  idx ← eat_keyword "index";
  if (idx : bool) then index_target create false
  else
    rng ← eat_keyword "range";
    if (rng : bool) then _ ← expect_keyword "index"; index_target create true
    else rest.

Fixpoint statement (n : nat) : ParseM Statement :=
  match n with
  | O => fail OutOfFuel
  | S n' =>
      kw ← keyword (bs "a statement keyword");
      if bool_decide (kw = bs "create") then create_or_drop true (create_table n')
      else if bool_decide (kw = bs "drop") then create_or_drop false drop_table
      else if bool_decide (kw = bs "insert") then insert n'
      else if bool_decide (kw = bs "select") then select n'
      else if bool_decide (kw = bs "update") then update n'
      else if bool_decide (kw = bs "delete") then delete_stmt n'
      else if bool_decide (kw = bs "explain") then
        inner ← statement n';
        if explainable inner then mret (Explain inner) else fail ExplainUnsupported
      else if bool_decide (kw = bs "begin") then _ ← noise_word; mret Begin
      else if bool_decide (kw = bs "start") then _ ← expect_keyword "transaction"; mret Begin
      else if bool_decide (kw = bs "commit") then _ ← noise_word; mret Commit
      else if bool_decide (kw = bs "rollback") then _ ← noise_word; mret Rollback
      else fail (UnknownStatement kw)
  end.

(** [while parser.eat(&Token::Semi) {}] *)
Fixpoint skip_semis (ts : list Token) : list Token :=
  match ts with
  | TSemi :: ts' => skip_semis ts'
  | _ => ts
  end.

Fixpoint statements_loop (n : nat) (ts : list Token) (statements : list Statement) :
    result ParseError (list Statement) :=
  match n with
  | O => Err OutOfFuel
  | S n' =>
      let ts := skip_semis ts in
      if bool_decide (ts = []) then Ok statements
      else
        '(s, ts') ← statement n' ts;
        if negb (bool_decide (ts' = [])) && negb (bool_decide (head ts' = Some TSemi)) then
          Err (ExpectedFound (bs "';' or end of input") (head ts'))
        else statements_loop n' ts' (statements ++ [s])
  end.

Definition parser_fuel (ts : list Token) : nat := 5 * length ts + 10.

Definition parse_statements (input : bytes) : result ParseError (list Statement) :=
  tokens ← tokenize input;
  statements_loop (parser_fuel tokens) tokens [].
