(* ===== verification/SqlFacts.v ===== *)
(** * Facts about the SQL front end

    The lexer and the parser never run out of fuel, and what they return is
    well formed: identifiers are non-empty and lower case, integers fit
    [i64], vectors are non-empty and have dimension 1 to 4096, [EXPLAIN]
    wraps a query, a star argument belongs to [COUNT], and so on. *)

From S2P Require Import Prelude Float SqlAst SqlLexer SqlParser.

(** ** Well-formed tokens and statements *)

Definition wf_ident (s : bytes) : Prop :=
  Forall (λ b, is_ident_char b = true ∧ is_upper b = false) s ∧
  ∃ c s', s = c :: s' ∧ is_ident_start c = true.

Definition wf_token (t : Token) : Prop :=
  match t with
  | TIdent s => wf_ident s
  | TInt n => 0 ≤ n < 2 ^ 63
  | TFloat x => in_u 64 x
  | _ => True
  end.

Definition wf_literal (l : Literal) : Prop :=
  match l with
  | LInt n => - 2 ^ 63 < n < 2 ^ 63
  | LReal x => in_u 64 x
  | LVector v => v ≠ [] ∧ Forall (in_u 32) v
  | _ => True
  end.

Fixpoint wf_expr (e : Expr) : Prop :=
  match e with
  | ECompare c _ l => wf_ident c ∧ wf_literal l
  | EIsNull c _ => wf_ident c
  | ENot a => wf_expr a
  | EAnd a b | EOr a b => wf_expr a ∧ wf_expr b
  end.

Definition wf_agg (f : AggFunc) (a : AggArg) : Prop :=
  match a with AStar => f = Count | AColumn c => wf_ident c end.

Definition wf_item (i : SelectItem) : Prop :=
  match i with SIColumn c => wf_ident c | SIAggregate f a => wf_agg f a end.

Fixpoint wf_having (e : HavingExpr) : Prop :=
  match e with
  | HCompare (HTColumn c) _ l => wf_ident c ∧ wf_literal l
  | HCompare (HTAggregate f a) _ l => wf_agg f a ∧ wf_literal l
  | HNot a => wf_having a
  | HAnd a b | HOr a b => wf_having a ∧ wf_having b
  end.

Definition wf_type (t : DataType) : Prop :=
  match t with TyVector d => 1 ≤ d ≤ 4096 | _ => True end.

Definition wf_column_def (c : ColumnDef) : Prop :=
  wf_ident (cd_name c) ∧ wf_type (cd_ty c) ∧
  cd_indexed c = false ∧ cd_range_indexed c = false.

(** A plain projection when nothing aggregates, the item form otherwise. *)
Definition wf_projection (p : Projection) (group_by : list bytes) (having : option HavingExpr) : Prop :=
  match p with
  | PAll => group_by = []
  | PColumns cs => cs ≠ [] ∧ Forall wf_ident cs ∧ group_by = [] ∧ having = None
  | PItems items => items ≠ [] ∧ Forall wf_item items ∧
      (existsb is_aggregate items = true ∨ group_by ≠ [] ∨ is_Some having)
  end.

Definition wf_option {A} (P : A → Prop) (o : option A) : Prop :=
  match o with Some x => P x | None => True end.

Definition wf_order_by (o : OrderBy) : Prop :=
  wf_ident (ob_column o) ∧
  wf_option (λ v, v ≠ [] ∧ Forall (in_u 32) v ∧ ob_descending o = false) (ob_nearest_to o).

Definition wf_limit (l : Limit) : Prop := 0 ≤ lim_count l < 2 ^ 63 ∧ 0 ≤ lim_offset l < 2 ^ 63.

Fixpoint wf_statement (s : Statement) : Prop :=
  match s with
  | CreateTable n cs => wf_ident n ∧ cs ≠ [] ∧ Forall wf_column_def cs
  | DropTable n => wf_ident n
  | CreateIndex t c _ | DropIndex t c _ => wf_ident t ∧ wf_ident c
  | Insert t cs rows =>
      wf_ident t ∧ wf_option (λ cs, cs ≠ [] ∧ Forall wf_ident cs) cs ∧
      rows ≠ [] ∧ Forall (λ r, r ≠ [] ∧ Forall wf_literal r) rows
  | Select p t w g h o l =>
      wf_projection p g h ∧ wf_ident t ∧ wf_option wf_expr w ∧ Forall wf_ident g ∧
      wf_option wf_having h ∧ wf_option wf_order_by o ∧ wf_option wf_limit l
  | Update t asg w =>
      wf_ident t ∧ asg ≠ [] ∧
      Forall (λ a, wf_ident (as_column a) ∧ wf_literal (as_value a)) asg ∧ wf_option wf_expr w
  | Delete t w => wf_ident t ∧ wf_option wf_expr w
  | Explain s' => explainable s' = true ∧ wf_statement s'
  | Begin | Commit | Rollback => True
  end.

(** ** The lexer *)

Lemma length_drop_while {A} (f : A → bool) (l : list A) : (length (drop_while f l) ≤ length l)%nat.
Proof. induction l as [|x l IH]; cbn; [lia|]. destruct (f x); cbn; lia. Qed.

Lemma Forall_take_while {A} (f : A → bool) (l : list A) : Forall (λ x, f x = true) (take_while f l).
Proof. induction l as [|x l IH]; cbn; [constructor|]. destruct (f x) eqn:E; by constructor. Qed.

Lemma position_lt {A} (f : A → bool) (l : list A) n : position f l = Some n → (n < length l)%nat.
Proof.
  revert n. induction l as [|x l IH]; intros n; cbn; [done|].
  destruct (f x); [intros [= <-]; lia|].
  destruct (position f l); cbn; [|done]. intros [= <-]. specialize (IH _ eq_refl). lia.
Qed.

Lemma lex_string_loop_good fuel rest out i :
  (length rest < fuel)%nat →
  match lex_string_loop fuel rest out i with
  | Ok (_, j) => (i ≤ j)%nat
  | Err e => e ≠ OutOfFuel
  end.
Proof.
  revert rest out i. induction fuel as [|fuel IH]; intros rest out i Hf; [lia|]. cbn.
  destruct (position _ rest) as [rel|] eqn:Hp; [|done]. apply position_lt in Hp.
  destruct (drop (rel + 1) rest) as [|q rest'] eqn:Hd; [lia|].
  case_decide; [|lia].
  assert (Hl : length (q :: rest') = (length rest - (rel + 1))%nat)
    by (rewrite <- Hd; apply length_drop). cbn in Hl.
  specialize (IH rest' (out ++ take rel rest ++ [quote]) (i + (rel + 1) + 1)%nat).
  rewrite <- app_assoc. destruct (lex_string_loop _ _ _ _) as [[? j]|]; [|apply IH; lia].
  assert (i + (rel + 1) + 1 ≤ j)%nat by (apply IH; lia). lia.
Qed.

Lemma digits_value_app ds fs :
  digits_value (ds ++ fs) = fold_left (λ acc d, 10 * acc + (byte.unsigned d - 48)) fs (digits_value ds).
Proof. apply fold_left_app. Qed.

Lemma digits_value_nonneg ds : Forall (λ b, is_ascii_digit b = true) ds → 0 ≤ digits_value ds.
Proof.
  unfold digits_value. assert (∀ a, 0 ≤ a → Forall (λ b, is_ascii_digit b = true) ds →
    0 ≤ fold_left (λ acc d, 10 * acc + (byte.unsigned d - 48)) ds a) as H; [|by apply H].
  induction ds as [|d ds IH]; intros a Ha Hds; [done|]. apply list.Forall_cons in Hds as [Hd Hds].
  cbn [fold_left]. apply IH; [|done]. unfold is_ascii_digit in Hd. lia.
Qed.

Lemma lex_number_good input b rest : input = b :: rest → is_ascii_digit b = true →
  match lex_number input with
  | Ok (t, input') => (length input' < length input)%nat ∧ wf_token t
  | Err e => e ≠ OutOfFuel
  end.
Proof.
  intros -> Hb. unfold lex_number. set (ds := take_while _ _).
  assert (Hds : Forall (λ b, is_ascii_digit b = true) ds) by apply Forall_take_while. clearbody ds.
  cbn [drop_while]. rewrite Hb.
  pose proof (length_drop_while is_ascii_digit rest) as Hl.
  assert (Hint : match (n ← ok_or (IntOutOfRange ds) (parse_i64 ds); Ok (TInt n, drop_while is_ascii_digit rest)) with
    | Ok (t, input') => (length input' < length (b :: rest))%nat ∧ wf_token t
    | Err e => e ≠ OutOfFuel end).
  { unfold parse_i64. pose proof (digits_value_nonneg ds Hds).
    destruct (Z.ltb_spec (digits_value ds) (2 ^ 63)); result_simpl; cbn; [|done].
    split; [lia|done]. }
  destruct (drop_while is_ascii_digit rest) as [|dot [|d frac]]; try exact Hint.
  destruct (_ && _); [|exact Hint].
  pose proof (length_drop_while is_ascii_digit (d :: frac)). cbn -[drop_while] in *.
  split; [lia|apply in_u_f64_of_decimal].
Qed.

Lemma to_ascii_lower_ident b :
  is_ident_char b = true →
  is_ident_char (to_ascii_lower b) = true ∧ is_upper (to_ascii_lower b) = false.
Proof. destruct b; vm_compute; done. Qed.

Lemma to_ascii_lower_start b : is_ident_start b = true → is_ident_start (to_ascii_lower b) = true.
Proof. destruct b; vm_compute; done. Qed.

Lemma ident_start_char b : is_ident_start b = true → is_ident_char b = true.
Proof. destruct b; vm_compute; done. Qed.

Lemma wf_ident_lex b rest : is_ident_start b = true →
  wf_ident (to_ascii_lowercase (take_while is_ident_char (b :: rest))).
Proof.
  intros Hb. split.
  - unfold to_ascii_lowercase. rewrite Forall_map.
    eapply list.Forall_impl; [apply Forall_take_while|]. apply to_ascii_lower_ident.
  - cbn [take_while]. rewrite ident_start_char by done. cbn. eexists _, _. split; [done|].
    by apply to_ascii_lower_start.
Qed.

Lemma length_tail {A} (l : list A) : (length (tail l) ≤ length l)%nat.
Proof. destruct l; cbn; lia. Qed.

Lemma lex_one_good b rest :
  match lex_one b rest with
  | Ok (t, input') => (length input' ≤ length rest)%nat ∧ wf_option wf_token t
  | Err e => e ≠ OutOfFuel
  end.
Proof.
  unfold lex_one. pose proof (length_tail rest).
  repeat match goal with |- context [if ?c then _ else _] => destruct c eqn:? end;
    try done; try (split; cbn; [lia|done]).
  - split; [|done]. assert (b = Byte.x2d) as -> by
      (by apply andb_true_iff in Heqb1 as [->%bool_decide_eq_true _]).
    apply (length_drop_while (λ c, bool_decide (c ≠ Byte.x0a)) rest).
  - unfold lex_string. pose proof (lex_string_loop_good (length (b :: rest)) (drop 1 (b :: rest)) [] 1
      ltac:(rewrite length_drop; cbn; lia)) as Hs.
    destruct (lex_string_loop _ _ _ _) as [[s j]|]; result_simpl; [|done].
    split; [|done]. rewrite length_drop. cbn in *. lia.
  - pose proof (lex_number_good (b :: rest) b rest eq_refl ltac:(done)) as Hn.
    destruct (lex_number _) as [[t input']|]; result_simpl; [|done]. cbn in *. destruct Hn. split; [lia|done].
  - split; [|by apply wf_ident_lex]. cbn [drop_while]. rewrite ident_start_char by done.
    apply length_drop_while.
Qed.

Lemma tokenize_loop_good fuel input tokens :
  (length input ≤ fuel)%nat → Forall wf_token tokens →
  match tokenize_loop fuel input tokens with
  | Ok ts => Forall wf_token ts
  | Err e => e ≠ OutOfFuel
  end.
Proof.
  revert input tokens. induction fuel as [|fuel IH]; intros [|b rest] tokens Hf Ht; cbn in *; try done; try lia.
  pose proof (lex_one_good b rest) as Hone.
  destruct (lex_one b rest) as [[t input']|]; result_simpl; [|done]. destruct Hone as [Hl Hw].
  apply IH; [lia|]. apply list.Forall_app. split; [done|]. destruct t; cbn; [by constructor|constructor].
Qed.

(** ** A weakest precondition for parsers

    [parses m N Q]: on [N] well-formed tokens, [m] does not run out of fuel,
    leaves well-formed tokens, and its result and the number of tokens left
    satisfy [Q]. *)

Definition parses {A} (m : ParseM A) (N : nat) (Q : A → nat → Prop) : Prop :=
  ∀ ts, length ts = N → Forall wf_token ts →
    match m ts with
    | Ok (x, ts') => Forall wf_token ts' ∧ Q x (length ts')
    | Err e => e ≠ OutOfFuel
    end.

Lemma parses_ret {A} (x : A) N (Q : A → nat → Prop) : Q x N → parses (mret x) N Q.
Proof. intros HQ ts <- Hts. done. Qed.

Lemma parses_fail {A} e N (Q : A → nat → Prop) : e ≠ OutOfFuel → parses (fail e) N Q.
Proof. by intros He ts _ _. Qed.

Lemma parses_bind {A B} (m : ParseM A) (f : A → ParseM B) N Q :
  parses m N (λ x N', parses (f x) N' Q) → parses (m ≫= f) N Q.
Proof.
  intros Hm ts HN Hts. specialize (Hm ts HN Hts). unfold mbind, ParseM_bind.
  destruct (m ts) as [[x ts']|e]; [|done]. destruct Hm as [Hw Hf]. by apply Hf.
Qed.

Lemma parses_mono {A} (m : ParseM A) N (P Q : A → nat → Prop) :
  parses m N P → (∀ x n, P x n → Q x n) → parses m N Q.
Proof.
  intros Hm HPQ ts HN Hts. specialize (Hm ts HN Hts).
  destruct (m ts) as [[x ts']|e]; [|done]. naive_solver.
Qed.

Lemma parses_next e N (Q : Token → nat → Prop) :
  (∀ t n, N = S n → wf_token t → Q t n) → parses (next e) N Q.
Proof.
  intros HQ [|t ts] HN Hts; [done|]. apply list.Forall_cons in Hts as [Ht Hts]. cbn in *. eauto.
Qed.

Lemma parses_eat t N (Q : bool → nat → Prop) :
  (∀ n, N = S n → Q true n) → Q false N → parses (eat t) N Q.
Proof.
  intros H1 H2 ts HN Hts. unfold eat. case_bool_decide as Hh; [|by subst].
  destruct ts as [|t' ts]; [done|]. apply list.Forall_cons in Hts as [_ Hts]. cbn in *. eauto.
Qed.

Lemma parses_eat_keyword kw N (Q : bool → nat → Prop) :
  (∀ n, N = S n → Q true n) → Q false N → parses (eat_keyword kw) N Q.
Proof.
  intros H1 H2 ts HN Hts. unfold eat_keyword.
  destruct ts as [|[] ts]; try (by subst). case_bool_decide; [|by subst].
  apply list.Forall_cons in Hts as [_ Hts]. cbn in *. eauto.
Qed.

Lemma parses_expect t N (Q : () → nat → Prop) :
  (∀ n, N = S n → Q () n) → parses (expect t) N Q.
Proof.
  intros HQ. apply parses_bind, parses_eat; [|by intros ts _ _].
  intros n ->. apply parses_ret. eauto.
Qed.

Lemma parses_keyword e N (Q : bytes → nat → Prop) :
  (∀ s n, N = S n → wf_ident s → Q s n) → parses (keyword e) N Q.
Proof.
  intros HQ. apply parses_bind, parses_next. intros t m -> Hw.
  destruct t; try (by apply parses_fail). by apply parses_ret, HQ.
Qed.

Lemma parses_expect_keyword kw N (Q : () → nat → Prop) :
  (∀ n, N = S n → Q () n) → parses (expect_keyword kw) N Q.
Proof.
  intros HQ. apply parses_bind, parses_keyword. intros s n -> _.
  case_bool_decide; [apply parses_ret; eauto|by apply parses_fail].
Qed.

Lemma parses_unsigned e N (Q : Z → nat → Prop) :
  (∀ z n, N = S n → 0 ≤ z < 2 ^ 63 → Q z n) → parses (parse_unsigned e) N Q.
Proof.
  intros HQ. apply parses_bind, parses_next. intros t m -> Hw.
  destruct t; try (by apply parses_fail). case_match; [by apply parses_ret, HQ|by apply parses_fail].
Qed.

(** One step of the walk through a parser's code. *)
Ltac parse_step :=
  lazymatch goal with
  | |- parses (mbind _ _) _ _ => apply parses_bind
  | |- parses (mret _) _ _ => apply parses_ret
  | |- parses (fail _) _ _ => by apply parses_fail
  | |- parses (next _) _ _ => apply parses_next; intros ? ? -> ?
  | |- parses (eat _) _ _ => apply parses_eat; [intros ? ->|]
  | |- parses (eat_keyword _) _ _ => apply parses_eat_keyword; [intros ? ->|]
  | |- parses (expect _) _ _ => apply parses_expect; intros ? ->
  | |- parses (keyword _) _ _ => apply parses_keyword; intros ? ? -> ?
  | |- parses (identifier _) _ _ => apply parses_keyword; intros ? ? -> ?
  | |- parses (expect_keyword _) _ _ => apply parses_expect_keyword; intros ? ->
  | |- parses (parse_unsigned _) _ _ => apply parses_unsigned; intros ? ? -> ?
  | |- parses (if bool_decide ?P then _ else _) _ _ => case_bool_decide
  | |- parses (if ?b then _ else _) _ _ =>
      first [is_constructor b | let E := fresh "E" in destruct b eqn:E]
  | |- parses (match ?t with _ => _ end) _ _ => destruct t; try (by apply parses_fail)
  end; cbv beta iota.

(** A sub-parser whose specification is [H]; its postcondition is introduced. *)
Ltac parse_call H :=
  eapply parses_mono; [eapply H; try lia|cbv beta].

Lemma parses_comma_loop {A} (P : A → Prop) n elem acc N :
  (N < n)%nat →
  (∀ N', (N' < N)%nat → parses elem N' (λ x N'', P x ∧ (N'' ≤ N')%nat)) → Forall P acc →
  parses (comma_loop n elem acc) N
    (λ xs N', Forall P xs ∧ (length acc ≤ length xs)%nat ∧ (N' ≤ N)%nat).
Proof.
  revert acc N. induction n as [|n IH]; intros acc N Hn Helem Hacc; [lia|]. cbn.
  parse_step. parse_step; [|by parse_step].
  parse_step. parse_call Helem. intros x n1 [Hx Hn1].
  parse_call (IH (acc ++ [x]) n1).
  - intros N' HN'. apply Helem. lia.
  - apply list.Forall_app. by split; [|constructor].
  - intros xs n2 (Hxs & Hl & Hn2). len_simpl. split; [done|]. lia.
Qed.

Lemma parses_comma_list {A} (P : A → Prop) n elem N :
  (N ≤ n)%nat →
  (∀ N', (N' ≤ N)%nat → parses elem N' (λ x N'', P x ∧ (N'' < N')%nat)) →
  parses (comma_list n elem) N (λ xs N', xs ≠ [] ∧ Forall P xs ∧ (N' < N)%nat).
Proof.
  intros Hn Helem. unfold comma_list. parse_step. parse_call Helem. intros x n1 [Hx Hn1].
  parse_call (parses_comma_loop P n elem [x] n1).
  - intros N' HN'. parse_call Helem. intros y n2 [Hy Hn2]. split; [done|lia].
  - by constructor.
  - intros xs n2 (Hxs & Hl & Hn2). cbn in Hl. split; [|split; [done|lia]].
    by intros ->; cbn in Hl; lia.
Qed.

(** ** Literals *)

Lemma parses_vector_component N :
  parses vector_component N (λ x N', in_u 32 x ∧ (N' < N)%nat).
Proof.
  unfold vector_component. repeat parse_step.
  all: split; [|lia]; first [apply in_u_f32_neg|idtac];
    first [apply in_u_i64_as_f32|apply in_u_f64_as_f32].
Qed.

Lemma parses_literal n N :
  (N ≤ n)%nat → parses (literal n) N (λ l N', wf_literal l ∧ (N' < N)%nat).
Proof.
  intros Hn. unfold literal. parse_step. parse_step. parse_step; cbn [wf_token] in *.
  5: { parse_step. eapply parses_mono; [apply (parses_comma_list (in_u 32)); [lia|]|].
       - intros N' _. apply parses_vector_component.
       - intros v m (Hv & Hf & Hm). repeat parse_step. split; [done|lia]. }
  all: repeat parse_step; (split; [|lia]); cbn in *; try done; try lia.
  by apply in_u_f64_neg.
Qed.

(** ** The boolean grammar *)

Section bool_grammar_facts.
Context {E : Type} (mk_or mk_and : E → E → E) (mk_not : E → E) (leaf : nat → ParseM E).
Context (wf : E → Prop).
Context (wf_or : ∀ a b, wf a → wf b → wf (mk_or a b)).
Context (wf_and : ∀ a b, wf a → wf b → wf (mk_and a b)).
Context (wf_not : ∀ a, wf a → wf (mk_not a)).

(** What every level returns: a well-formed expression, and progress. *)
Definition consumes (N : nat) (e : E) (N' : nat) : Prop := wf e ∧ (N' < N)%nat.
Definition keeps (N : nat) (e : E) (N' : nat) : Prop := wf e ∧ (N' ≤ N)%nat.

Context (leaf_good : ∀ n N, (N ≤ n)%nat → parses (leaf n) N (consumes N)).

Lemma bool_grammar_good n : ∀ N,
  ((4 * N + 5 ≤ n)%nat → parses (or_level mk_or mk_and mk_not leaf n) N (consumes N)) ∧
  (∀ left, (4 * N + 5 ≤ n)%nat → wf left →
    parses (or_loop mk_or mk_and mk_not leaf n left) N (keeps N)) ∧
  ((4 * N + 4 ≤ n)%nat → parses (and_level mk_or mk_and mk_not leaf n) N (consumes N)) ∧
  (∀ left, (4 * N + 4 ≤ n)%nat → wf left →
    parses (and_loop mk_or mk_and mk_not leaf n left) N (keeps N)) ∧
  ((4 * N + 3 ≤ n)%nat → parses (not_level mk_or mk_and mk_not leaf n) N (consumes N)) ∧
  ((4 * N + 2 ≤ n)%nat → parses (primary_level mk_or mk_and mk_not leaf n) N (consumes N)).
Proof.
  unfold consumes, keeps. induction n as [|n IH]; intros N; [repeat split; lia|].
  repeat apply conj; cbn.
  - intros Hn. parse_step. parse_call IH. intros left m [Hl Hm].
    parse_call IH; [done|]. intros e k [He Hk]. split; [done|lia].
  - intros left Hn Hl. parse_step. parse_step; cbn; [|by apply parses_ret].
    parse_step. parse_call IH. intros right m [Hr Hm].
    parse_call IH; [by apply wf_or|]. intros e k [He Hk]. split; [done|lia].
  - intros Hn. parse_step. parse_call IH. intros left m [Hl Hm].
    parse_call IH; [done|]. intros e k [He Hk]. split; [done|lia].
  - intros left Hn Hl. parse_step. parse_step; cbn; [|by apply parses_ret].
    parse_step. parse_call IH. intros right m [Hr Hm].
    parse_call IH; [by apply wf_and|]. intros e k [He Hk]. split; [done|lia].
  - intros Hn. parse_step. parse_step; cbn.
    + parse_step. parse_call IH. intros e m [He Hm]. parse_step. split; [by apply wf_not|lia].
    + parse_call IH. intros e m [He Hm]. done.
  - intros Hn. parse_step. parse_step; cbn.
    + parse_step. parse_call IH. intros e m [He Hm]. repeat parse_step. split; [done|lia].
    + apply leaf_good. lia.
Qed.

Lemma parses_or_level n N : (4 * N + 5 ≤ n)%nat →
  parses (or_level mk_or mk_and mk_not leaf n) N (consumes N).
Proof. apply bool_grammar_good. Qed.

End bool_grammar_facts.

(** ** WHERE and HAVING *)

Lemma parses_cmp_op c N : parses (cmp_op c) N (λ _ N', (N' < N)%nat).
Proof. unfold cmp_op. repeat parse_step. lia. Qed.

Lemma parses_where_leaf n N : (N ≤ n)%nat → parses (where_leaf n) N (consumes wf_expr N).
Proof.
  intros Hn. unfold where_leaf, consumes. repeat parse_step; try (split; [done|lia]).
  parse_call parses_cmp_op. intros op m Hm. parse_step. parse_call parses_literal.
  intros l k [Hl Hk]. parse_step. split; [done|lia].
Qed.

Lemma parses_expr n N : (4 * N + 5 ≤ n)%nat → parses (expr n) N (consumes wf_expr N).
Proof.
  apply parses_or_level; try done. apply parses_where_leaf.
Qed.

Lemma parses_optional_where n N : (4 * N + 5 ≤ n)%nat →
  parses (optional_where n) N (λ w N', wf_option wf_expr w ∧ (N' ≤ N)%nat).
Proof.
  intros Hn. unfold optional_where. parse_step. parse_step; [|by repeat parse_step].
  parse_step. parse_call parses_expr. intros e m [He Hm]. parse_step. split; [done|lia].
Qed.

Lemma parses_peek_aggregate N (Q : option AggFunc → nat → Prop) :
  (∀ f, (0 < N)%nat → Q (Some f) N) → Q None N → parses peek_aggregate N Q.
Proof.
  intros H1 H2 ts HN Hts. unfold peek_aggregate.
  destruct ts as [|[] ts]; try (by subst). split; [done|].
  rewrite HN. cbn in HN. repeat case_bool_decide; try done; apply H1; lia.
Qed.

Lemma parses_skip_token N (Q : () → nat → Prop) :
  (0 < N)%nat → (∀ n, N = S n → Q () n) → parses skip_token N Q.
Proof.
  intros HN HQ [|t ts] Hl Hts; cbn in *; [lia|]. apply list.Forall_cons in Hts as [_ Hts]. eauto.
Qed.

Lemma parses_aggregate_arg f N : (0 < N)%nat →
  parses (aggregate_arg f) N (λ a N', wf_agg f a ∧ (N' < N)%nat).
Proof.
  intros HN. unfold aggregate_arg. parse_step. apply parses_skip_token; [done|]. intros n ->.
  repeat parse_step; (split; [|lia]); [|done]. cbn. by destruct (decide (f = Count)).
Qed.

Lemma parses_having_leaf n N : (N ≤ n)%nat → parses (having_leaf n) N (consumes wf_having N).
Proof.
  intros Hn. unfold having_leaf, consumes. parse_step. apply parses_peek_aggregate.
  - intros f HN. repeat parse_step. parse_call parses_aggregate_arg. intros a m [Ha Hm].
    repeat parse_step. parse_call parses_cmp_op. intros op k Hk. parse_step.
    parse_call parses_literal. intros l j [Hl Hj]. parse_step. split; [done|lia].
  - repeat parse_step. parse_call parses_cmp_op. intros op k Hk. parse_step.
    parse_call parses_literal. intros l j [Hl Hj]. parse_step. split; [done|lia].
Qed.

Lemma parses_having_expr n N : (4 * N + 5 ≤ n)%nat → parses (having_expr n) N (consumes wf_having N).
Proof.
  apply parses_or_level; try done. apply parses_having_leaf.
Qed.

Lemma parses_select_item N : parses select_item N (λ i N', wf_item i ∧ (N' < N)%nat).
Proof.
  unfold select_item. parse_step. apply parses_peek_aggregate.
  - intros f HN. repeat parse_step. parse_call parses_aggregate_arg. intros a m [Ha Hm].
    by repeat parse_step.
  - repeat parse_step. split; [done|lia].
Qed.

(** ** Statements *)

Definition ends_before {A} (P : A → Prop) (N : nat) (x : A) (N' : nat) : Prop :=
  P x ∧ (N' < N)%nat.
Definition ends_within {A} (P : A → Prop) (N : nat) (x : A) (N' : nat) : Prop :=
  P x ∧ (N' ≤ N)%nat.
Definition nonempty_all {A} (P : A → Prop) (l : list A) : Prop := l ≠ [] ∧ Forall P l.

(** Close a final [Q x n]: the well-formedness facts are in the context. *)
Ltac parse_done := repeat parse_step; (split; [try done|lia]).

Lemma parses_list {A} (P : A → Prop) n elem N :
  (N ≤ n)%nat → (∀ N', (N' ≤ N)%nat → parses elem N' (ends_before P N')) →
  parses (comma_list n elem) N (ends_before (nonempty_all P) N).
Proof.
  intros Hn He. parse_call (parses_comma_list P); [done|].
  intros xs m (H1 & H2 & H3). by split.
Qed.

Lemma parses_identifiers n e N : (N ≤ n)%nat →
  parses (comma_list n (identifier e)) N (ends_before (nonempty_all wf_ident) N).
Proof. intros Hn. apply parses_list; [done|]. intros N' _. parse_step. split; [done|lia]. Qed.

Lemma parses_index_target create range N :
  parses (index_target create range) N (ends_before wf_statement N).
Proof. unfold index_target. repeat parse_step. all: split; [by destruct create|lia]. Qed.

Lemma parses_column_type N : parses column_type N (ends_before wf_type N).
Proof.
  unfold column_type. parse_step. parse_step.
  do 4 (case_bool_decide; [try (parse_done)|]).
  { cbn. rewrite wrap_small by (unfold in_u; lia). lia. }
  by repeat parse_step.
Qed.

Lemma parses_column_markers n e p N : (N < n)%nat →
  parses (column_markers n e p) N (ends_within (λ _, True) N).
Proof.
  revert e p N. induction n as [|n IH]; intros e p N Hn; [lia|]. cbn.
  parse_step. parse_step; cbn.
  - parse_call IH. intros x m [_ Hm]. split; [done|lia].
  - parse_step. parse_step; cbn; [|by parse_done].
    repeat parse_step. parse_call IH. intros x m [_ Hm]. split; [done|lia].
Qed.

Lemma parses_column_def n N : (N ≤ n)%nat → parses (column_def n) N (ends_before wf_column_def N).
Proof.
  intros Hn. unfold column_def. repeat parse_step. parse_call parses_column_type.
  intros ty m [Ht Hm]. parse_step. parse_call parses_column_markers. intros mk k [_ Hk].
  by parse_done.
Qed.

Lemma parses_create_table n N : (N ≤ n)%nat → parses (create_table n) N (ends_before wf_statement N).
Proof.
  intros Hn. unfold create_table. repeat parse_step. parse_call (parses_list wf_column_def).
  { intros N' HN'. apply parses_column_def. lia. }
  intros cs m [[Hc Hc'] Hm]. by parse_done.
Qed.

Lemma parses_drop_table N : parses drop_table N (ends_before wf_statement N).
Proof. unfold drop_table. by parse_done. Qed.

Lemma parses_value_tuple n N : (N ≤ n)%nat →
  parses (value_tuple n) N (ends_before (nonempty_all wf_literal) N).
Proof.
  intros Hn. unfold value_tuple. repeat parse_step. parse_call (parses_list wf_literal).
  { intros N' HN'. apply parses_literal. lia. }
  intros vs m [Hv Hm]. by parse_done.
Qed.

Lemma parses_insert n N : (N ≤ n)%nat → parses (insert n) N (ends_before wf_statement N).
Proof.
  intros Hn. unfold insert, insert_columns. repeat parse_step.
  - parse_call parses_identifiers. intros cs m [[Hc Hc'] Hm]. repeat parse_step.
    parse_call (parses_list (nonempty_all wf_literal)).
    { intros N' HN'. apply parses_value_tuple. lia. }
    intros rows k [[Hr Hr'] Hk]. by parse_done.
  - parse_call (parses_list (nonempty_all wf_literal)).
    { intros N' HN'. apply parses_value_tuple. lia. }
    intros rows k [[Hr Hr'] Hk]. by parse_done.
Qed.

(** The projection as [select_projection] returns it. *)
Definition wf_items (p : Projection * bool) : Prop :=
  match p.1 with
  | PAll => p.2 = false
  | PItems its => its ≠ [] ∧ Forall wf_item its ∧ p.2 = existsb is_aggregate its
  | PColumns _ => False
  end.

Lemma parses_select_projection n N : (N ≤ n)%nat →
  parses (select_projection n) N (ends_before wf_items N).
Proof.
  intros Hn. unfold select_projection. repeat parse_step; [by split; [|lia]|].
  parse_call (parses_list wf_item). { intros N' HN'. apply parses_select_item. }
  intros its m [[H1 H2] Hm]. by parse_done.
Qed.

Lemma plain_columns_good its : Forall wf_item its → existsb is_aggregate its = false →
  Forall wf_ident (plain_columns its) ∧ length (plain_columns its) = length its.
Proof.
  induction its as [|[c|f a] its IH]; cbn; intros Hw He; [by split|..|done].
  apply list.Forall_cons in Hw as [Hc Hw]. destruct (IH Hw He) as [H1 H2].
  split; [by constructor|]. cbn. f_equal. done.
Qed.

Lemma collapse_projection_good p agg g h :
  wf_items (p, agg) → ¬ (is_all p = true ∧ g ≠ []) →
  wf_projection (collapse_projection p agg g h) g h.
Proof.
  unfold wf_items, collapse_projection. cbn. intros Hp Hall.
  destruct p as [|cs|its]; [|done|].
  - assert (g = []) by (destruct g; [done|exfalso; by apply Hall]). subst. by repeat case_match.
  - destruct Hp as (H1 & H2 & ->). destruct (existsb is_aggregate its) eqn:He; cbn; [by auto|].
    case_bool_decide as Hg; cbn; [|by auto]. destruct h; cbn; [by auto|].
    destruct (plain_columns_good its H2 He) as [Hf Hl]. subst.
    split; [|done]. destruct its; [done|]. by destruct (plain_columns _).
Qed.

Lemma is_all_collapse p agg g h : is_all (collapse_projection p agg g h) = is_all p.
Proof. unfold collapse_projection. case_match; [by destruct p|done]. Qed.

Lemma parses_select_group_by n N : (N ≤ n)%nat →
  parses (select_group_by n) N (ends_within (Forall wf_ident) N).
Proof.
  intros Hn. unfold select_group_by. repeat parse_step; [|split; [constructor|lia]].
  parse_call parses_identifiers. intros cs m [[_ Hc] Hm]. split; [done|lia].
Qed.

Lemma parses_select_having n N : (4 * N + 5 ≤ n)%nat →
  parses (select_having n) N (ends_within (wf_option wf_having) N).
Proof.
  intros Hn. unfold select_having. repeat parse_step; [|by split; [|lia]].
  parse_call parses_having_expr. intros e m [He Hm]. by parse_done.
Qed.

Lemma parses_select_order_by n N : (N ≤ n)%nat →
  parses (select_order_by n) N (ends_within (wf_option wf_order_by) N).
Proof.
  intros Hn. unfold select_order_by.
  repeat parse_step; try (by split; [|lia]).
  parse_call parses_literal. intros l m [Hl Hm]. destruct l; repeat parse_step.
  split; [|lia]. cbn in *. unfold wf_order_by. cbn. naive_solver.
Qed.

Lemma parses_select_limit N : parses select_limit N (ends_within (wf_option wf_limit) N).
Proof.
  unfold select_limit. repeat parse_step; (split; [|lia]); try done; unfold wf_limit; cbn; try lia.
  all: by unfold wf_limit; cbn; lia.
Qed.

Lemma parses_select n N : (4 * N + 5 ≤ n)%nat → parses (select n) N (ends_before wf_statement N).
Proof.
  intros Hn. unfold select. parse_step. parse_call parses_select_projection. intros [p agg] m [Hp Hm].
  repeat parse_step. parse_call parses_optional_where. intros w k [Hw Hk].
  parse_step. parse_call parses_select_group_by. intros g j [Hg Hj].
  parse_step. parse_call parses_select_having. intros h i [Hh Hi]. cbv zeta.
  rewrite is_all_collapse. cbn.
  destruct (is_all p && negb (bool_decide (g = []))) eqn:Hstar; [by parse_step|].
  parse_step. parse_call parses_select_order_by. intros o a [Ho Ha].
  parse_step. parse_call parses_select_limit. intros l b [Hl Hb]. parse_step.
  split; [|lia]. cbn. split; [|done]. apply collapse_projection_good; [done|].
  intros [H1 H2]. rewrite H1 in Hstar. by case_bool_decide.
Qed.

Lemma parses_update n N : (4 * N + 5 ≤ n)%nat → parses (update n) N (ends_before wf_statement N).
Proof.
  intros Hn. unfold update. repeat parse_step.
  parse_call (parses_list (λ a, wf_ident (as_column a) ∧ wf_literal (as_value a))).
  { intros N' HN'. unfold assignment. repeat parse_step. parse_call parses_literal.
    intros l m [Hl Hm]. by parse_done. }
  intros asg m [[Ha Ha'] Hm]. parse_step. parse_call parses_optional_where. intros w k [Hw Hk].
  by parse_done.
Qed.

Lemma parses_delete n N : (4 * N + 5 ≤ n)%nat → parses (delete_stmt n) N (ends_before wf_statement N).
Proof.
  intros Hn. unfold delete_stmt. repeat parse_step. parse_call parses_optional_where.
  intros w k [Hw Hk]. by parse_done.
Qed.

Lemma parses_noise_word N : parses noise_word N (ends_within (λ _, True) N).
Proof. unfold noise_word. by parse_done. Qed.

Lemma parses_create_or_drop create rest N :
  parses rest N (ends_before wf_statement N) →
  parses (create_or_drop create rest) N (ends_before wf_statement N).
Proof.
  intros Hr. unfold create_or_drop. repeat parse_step; [..|done];
    parse_call parses_index_target; intros s m [Hs Hm]; (split; [done|lia]).
Qed.

Lemma parses_statement n N : (4 * N + 2 ≤ n)%nat →
  parses (statement n) N (ends_before wf_statement N).
Proof.
  assert (Hlt : ∀ {A} (m : ParseM A) (P : A → Prop) N N', (N' ≤ N)%nat →
    parses m N' (ends_before P N') → parses m N' (ends_before P N)).
  { intros A m P a b Hab Hm. parse_call Hm. intros x k [Hx Hk]. split; [done|lia]. }
  revert N. induction n as [|n IH]; intros N Hn; [lia|]. cbn [statement].
  parse_step. parse_step.
  repeat case_bool_decide. 1-6: apply Hlt; [lia|].
  - apply parses_create_or_drop, parses_create_table. lia.
  - apply parses_create_or_drop, parses_drop_table.
  - apply parses_insert. lia.
  - apply parses_select. lia.
  - apply parses_update. lia.
  - apply parses_delete. lia.
  - parse_step. parse_call IH. intros s' m [Hs Hm]. parse_done.
  - parse_step. parse_call parses_noise_word. intros [] m [_ Hm]. parse_done.
  - parse_done.
  - parse_step. parse_call parses_noise_word. intros [] m [_ Hm]. parse_done.
  - parse_step. parse_call parses_noise_word. intros [] m [_ Hm]. parse_done.
  - by parse_step.
Qed.

(** ** The entry point *)

Lemma skip_semis_good ts : Forall wf_token ts →
  Forall wf_token (skip_semis ts) ∧ (length (skip_semis ts) ≤ length ts)%nat.
Proof.
  induction ts as [|t ts IH]; intros Hw; [done|].
  destruct t; cbn; try (by split; [|lia]).
  apply list.Forall_cons in Hw as [_ Hw]. destruct (IH Hw). split; [done|lia].
Qed.

Lemma statements_loop_good n ts acc :
  (4 * length ts + 3 ≤ n)%nat → Forall wf_token ts → Forall wf_statement acc →
  match statements_loop n ts acc with
  | Ok ss => Forall wf_statement ss
  | Err e => e ≠ OutOfFuel
  end.
Proof.
  revert ts acc. induction n as [|n IH]; intros ts acc Hn Hts Hacc; [lia|]. cbn.
  destruct (skip_semis_good ts Hts) as [Hw Hl]. set (ts0 := skip_semis ts) in *.
  case_bool_decide; [done|].
  pose proof (parses_statement n (length ts0) ltac:(lia) ts0 eq_refl Hw) as Hs.
  destruct (statement n ts0) as [[s ts']|e]; result_simpl; [|done].
  destruct Hs as [Hw' [Hs Hlt]]. match goal with |- context [if ?c then _ else _] => destruct c end; [done|].
  apply IH; [lia|done|]. apply list.Forall_app. by split; [|constructor].
Qed.

Lemma parse_statements_good input :
  match parse_statements input with
  | Ok ss => Forall wf_statement ss
  | Err e => e ≠ OutOfFuel
  end.
Proof.
  unfold parse_statements, tokenize.
  pose proof (tokenize_loop_good (length input) input [] ltac:(lia) ltac:(constructor)) as Ht.
  destruct (tokenize_loop _ _ _) as [ts|e]; result_simpl; [|done].
  apply statements_loop_good; [unfold parser_fuel; lia|done|constructor].
Qed.

(** C27: Lexing and parsing any input ends: no loop or recursion of the lexer or the parser runs out of the fuel computed from the input. *)
Theorem parse_statements_total input : parse_statements input ≠ Err OutOfFuel.
Proof.
  pose proof (parse_statements_good input) as H. destruct (parse_statements input); naive_solver.
Qed.

(** C26: Every statement the parser returns is well formed: lower-case non-empty identifiers, integers in i64, vector types of dimension 1 to 4096, a star argument only for COUNT, EXPLAIN only around a query, and the plain projection exactly when nothing aggregates. *)
Theorem parse_statements_wf input ss :
  parse_statements input = Ok ss → Forall wf_statement ss.
Proof. intros H. pose proof (parse_statements_good input) as Hg. by rewrite H in Hg. Qed.

Lemma parse_statements_wf_witness :
  ∃ ss, parse_statements (bs "EXPLAIN SELECT a FROM t LIMIT 3") = Ok ss ∧ Forall wf_statement ss.
Proof.
  eexists. split; [vm_compute; reflexivity|].
  eapply (parse_statements_wf (bs "EXPLAIN SELECT a FROM t LIMIT 3")). vm_compute. reflexivity.
Defined.
