(* ===== verification/SqlRoundtrip.v ===== *)
(** * Printing and reading back a WHERE expression

    [Display for Expr] prints text that the lexer and the parser turn back
    into the same expression, for the literals whose printed form is read
    as the same kind of literal (a real such as 1.0 prints as [1] and reads
    back as an integer; the smallest [i64] does not lex). *)

From S2P Require Import Prelude Float SqlAst SqlLexer SqlParser SqlFacts.

(** ** Printable expressions *)

Definition printable_literal (l : Literal) : Prop :=
  match l with
  | LNull | LText _ => True
  | LInt n => - 2 ^ 63 < n < 2 ^ 63
  | LReal _ | LVector _ => False
  end.

Fixpoint printable (e : Expr) : Prop :=
  match e with
  | ECompare c _ l => wf_ident c ∧ c ≠ bs "not" ∧ printable_literal l
  | EIsNull c _ => wf_ident c ∧ c ≠ bs "not"
  | ENot a => printable a
  | EAnd a b | EOr a b => printable a ∧ printable b
  end.

(** The tokens of the printed text. *)
Definition op_token (op : CmpOp) : Token :=
  match op with CEq => TEq | CNe => TNe | CLt => TLt | CGt => TGt | CLe => TLe | CGe => TGe end.

Definition literal_tokens (l : Literal) : list Token :=
  match l with
  | LNull => [TIdent (bs "null")]
  | LInt n => if n <? 0 then [TMinus; TInt (- n)] else [TInt n]
  | LText s => [TStr s]
  | LReal _ | LVector _ => []
  end.

Fixpoint expr_tokens (e : Expr) : list Token :=
  match e with
  | ECompare c op l => TIdent c :: op_token op :: literal_tokens l
  | EIsNull c negated =>
      TIdent c :: TIdent (bs "is") ::
      (if negated then [TIdent (bs "not")] else []) ++ [TIdent (bs "null")]
  | ENot a => TIdent (bs "not") :: TLParen :: expr_tokens a ++ [TRParen]
  | EAnd a b => TLParen :: expr_tokens a ++ TIdent (bs "and") :: expr_tokens b ++ [TRParen]
  | EOr a b => TLParen :: expr_tokens a ++ TIdent (bs "or") :: expr_tokens b ++ [TRParen]
  end.

(** ** Parsing the tokens back *)

Definition stops (rest : list Token) : Prop :=
  ∀ s, head rest = Some (TIdent s) → s ≠ bs "and" ∧ s ≠ bs "or".

Lemma eat_keyword_miss kw rest :
  (∀ s, head rest = Some (TIdent s) → s ≠ bs kw) → eat_keyword kw rest = Ok (false, rest).
Proof.
  intros H. destruct rest as [|[] rest]; try done. cbn.
  rewrite bool_decide_false; [done|]. by apply H.
Qed.

Lemma eat_keyword_hit kw rest : eat_keyword kw (TIdent (bs kw) :: rest) = Ok (true, rest).
Proof. cbn. by rewrite bool_decide_true. Qed.

Lemma literal_tokens_parse n l rest :
  printable_literal l → literal n (literal_tokens l ++ rest) = Ok (l, rest).
Proof.
  destruct l as [|z| | |]; cbn; intros H; try done.
  by destruct z.
Qed.

Lemma where_leaf_compare n c op l rest :
  printable_literal l →
  where_leaf n (TIdent c :: op_token op :: literal_tokens l ++ rest) = Ok (ECompare c op l, rest).
Proof.
  intros H. unfold where_leaf, identifier, keyword, mbind, ParseM_bind. cbn -[literal].
  destruct op; cbn -[literal]; unfold cmp_op, mbind, ParseM_bind; cbn -[literal];
    by rewrite literal_tokens_parse.
Qed.

Lemma where_leaf_null n c (negated : bool) rest :
  where_leaf n (TIdent c :: TIdent (bs "is") ::
    ((if negated then [TIdent (bs "not")] else []) ++ [TIdent (bs "null")]) ++ rest)
  = Ok (EIsNull c negated, rest).
Proof. by destruct negated. Qed.

(** The equations of the grammar's levels. *)
Section level_equations.
Context {E : Type} (mo ma : E → E → E) (mn : E → E) (lf : nat → ParseM E).
#[local] Notation OR := (or_level mo ma mn lf).
#[local] Notation ORL := (or_loop mo ma mn lf).
#[local] Notation AND := (and_level mo ma mn lf).
#[local] Notation ANDL := (and_loop mo ma mn lf).
#[local] Notation NOT := (not_level mo ma mn lf).
#[local] Notation PRIM := (primary_level mo ma mn lf).

Lemma or_level_ok n ts a ts' :
  AND n ts = Ok (a, ts') → OR (S n) ts = ORL n a ts'.
Proof. intros H. change (OR (S n) ts) with ((left ← AND n; ORL n left) ts). unfold mbind, ParseM_bind. by rewrite H. Qed.

Lemma and_level_ok n ts a ts' :
  NOT n ts = Ok (a, ts') → AND (S n) ts = ANDL n a ts'.
Proof. intros H. change (AND (S n) ts) with ((left ← NOT n; ANDL n left) ts). unfold mbind, ParseM_bind. by rewrite H. Qed.

Lemma or_loop_stop n a ts :
  (∀ s, head ts = Some (TIdent s) → s ≠ bs "or") → ORL (S n) a ts = Ok (a, ts).
Proof.
  intros H. change (ORL (S n) a ts) with ((b ← eat_keyword "or";
    if (b : bool) then right ← AND n; ORL n (mo a right) else mret a) ts).
  unfold mbind at 1, ParseM_bind at 1. by rewrite eat_keyword_miss.
Qed.

Lemma and_loop_stop n a ts :
  (∀ s, head ts = Some (TIdent s) → s ≠ bs "and") → ANDL (S n) a ts = Ok (a, ts).
Proof.
  intros H. change (ANDL (S n) a ts) with ((b ← eat_keyword "and";
    if (b : bool) then right ← NOT n; ANDL n (ma a right) else mret a) ts).
  unfold mbind at 1, ParseM_bind at 1. by rewrite eat_keyword_miss.
Qed.

Lemma or_loop_more n a b ts ts' :
  AND n ts = Ok (b, ts') → ORL (S n) a (TIdent (bs "or") :: ts) = ORL n (mo a b) ts'.
Proof.
  intros H. change (ORL (S n) a (TIdent (bs "or") :: ts)) with ((right ← AND n; ORL n (mo a right)) ts).
  unfold mbind, ParseM_bind. by rewrite H.
Qed.

Lemma and_loop_more n a b ts ts' :
  NOT n ts = Ok (b, ts') → ANDL (S n) a (TIdent (bs "and") :: ts) = ANDL n (ma a b) ts'.
Proof.
  intros H. change (ANDL (S n) a (TIdent (bs "and") :: ts)) with ((right ← NOT n; ANDL n (ma a right)) ts).
  unfold mbind, ParseM_bind. by rewrite H.
Qed.

Lemma not_level_not n a ts ts' :
  NOT n ts = Ok (a, ts') → NOT (S n) (TIdent (bs "not") :: ts) = Ok (mn a, ts').
Proof.
  intros H. change (NOT (S n) (TIdent (bs "not") :: ts)) with ((e ← NOT n; mret (mn e)) ts).
  unfold mbind, ParseM_bind. by rewrite H.
Qed.

Lemma not_level_primary n ts :
  (∀ s, head ts = Some (TIdent s) → s ≠ bs "not") → NOT (S n) ts = PRIM n ts.
Proof.
  intros H. change (NOT (S n) ts) with ((b ← eat_keyword "not";
    if (b : bool) then e ← NOT n; mret (mn e) else PRIM n) ts).
  unfold mbind at 1, ParseM_bind at 1. by rewrite eat_keyword_miss.
Qed.

Lemma primary_level_leaf n ts : head ts ≠ Some TLParen → PRIM (S n) ts = lf n ts.
Proof.
  intros H. change (PRIM (S n) ts) with ((b ← eat TLParen;
    if (b : bool) then inner ← OR n; _ ← expect TRParen; mret inner else lf n) ts).
  unfold mbind at 1, ParseM_bind at 1, eat. by rewrite bool_decide_false.
Qed.

Lemma primary_level_paren n ts a rest :
  OR n ts = Ok (a, TRParen :: rest) → PRIM (S n) (TLParen :: ts) = Ok (a, rest).
Proof.
  intros H. change (PRIM (S n) (TLParen :: ts)) with ((inner ← OR n; _ ← expect TRParen; mret inner) ts).
  unfold mbind at 1, ParseM_bind at 1. by rewrite H.
Qed.
End level_equations.

(** Fuel enough for a level on the tokens of [e]. *)
Definition fuel_for (e : Expr) : nat := 5 * length (expr_tokens e).

Lemma or_level_single n e ts rest :
  (4 ≤ n)%nat → stops rest →
  (∀ m, (n ≤ m + 2)%nat → not_expr m ts = Ok (e, rest)) →
  expr n ts = Ok (e, rest).
Proof.
  intros Hn Hs Hnot. destruct n as [|[|[|[|n]]]]; try lia. unfold expr, not_expr in *.
  erewrite or_level_ok; [apply or_loop_stop; intros s Hh; by apply Hs|].
  erewrite and_level_ok; [apply and_loop_stop; intros s Hh; by apply Hs|]. apply Hnot. lia.
Qed.

(** Two operands joined by [and] or [or], up to a closing parenthesis. *)
Lemma expr_and n a b ta tb rest :
  (6 ≤ n)%nat →
  (∀ m r, (n ≤ m + 4)%nat → not_expr m (ta ++ r) = Ok (a, r)) →
  (∀ m r, (n ≤ m + 4)%nat → not_expr m (tb ++ r) = Ok (b, r)) →
  expr n (ta ++ TIdent (bs "and") :: tb ++ TRParen :: rest) = Ok (EAnd a b, TRParen :: rest).
Proof.
  intros Hn Ha Hb. destruct n as [|[|[|[|[|n]]]]]; try lia. unfold expr, not_expr in *.
  erewrite or_level_ok; [apply or_loop_stop; done|].
  erewrite and_level_ok by (apply Ha; lia).
  erewrite and_loop_more by (apply Hb; lia). by apply and_loop_stop.
Qed.

Lemma expr_or n a b ta tb rest :
  (6 ≤ n)%nat →
  (∀ m r, (n ≤ m + 4)%nat → not_expr m (ta ++ r) = Ok (a, r)) →
  (∀ m r, (n ≤ m + 4)%nat → not_expr m (tb ++ r) = Ok (b, r)) →
  expr n (ta ++ TIdent (bs "or") :: tb ++ TRParen :: rest) = Ok (EOr a b, TRParen :: rest).
Proof.
  intros Hn Ha Hb. destruct n as [|[|[|[|[|n]]]]]; try lia. unfold expr, not_expr in *.
  erewrite or_level_ok; last first.
  { erewrite and_level_ok by (apply Ha; lia). apply and_loop_stop. by intros s [= <-]. }
  erewrite or_loop_more; [by apply or_loop_stop|].
  erewrite and_level_ok by (apply Hb; lia). by apply and_loop_stop.
Qed.

Lemma expr_tokens_parse e :
  printable e → ∀ n rest, (fuel_for e ≤ n)%nat → not_expr n (expr_tokens e ++ rest) = Ok (e, rest).
Proof.
  unfold fuel_for. induction e as [c op l|c negated|a IHa|a IHa b IHb|a IHa b IHb];
    cbn [printable expr_tokens]; intros Hp n rest Hn;
    cbn [length] in Hn; rewrite ?length_app in Hn; cbn [length] in Hn; rewrite ?length_app in Hn;
    cbn [length] in Hn.
  - destruct Hp as (Hw & Hc & Hl). destruct n as [|[|n]]; try lia. unfold not_expr.
    rewrite not_level_primary by (intros s [= <-]; done). rewrite primary_level_leaf by done.
    by apply where_leaf_compare.
  - destruct Hp as (Hw & Hc). destruct n as [|[|n]]; try lia. unfold not_expr.
    rewrite not_level_primary by (intros s [= <-]; done). rewrite primary_level_leaf by done.
    apply (where_leaf_null n c negated rest).
  - destruct n as [|[|[|n]]]; try lia. unfold not_expr. cbn [app]. apply not_level_not.
    rewrite not_level_primary by done. apply primary_level_paren. rewrite <- app_assoc.
    apply or_level_single; [lia|done|]. intros m Hm. apply IHa; [done|lia].
  - destruct n as [|[|n]]; try lia. unfold not_expr. cbn [app]. rewrite not_level_primary by done.
    apply primary_level_paren. rewrite <- !app_assoc. cbn [app]. rewrite <- !app_assoc. destruct Hp.
    apply expr_and; [lia|..]; intros m r Hm; [apply IHa|apply IHb]; done || lia.
  - destruct n as [|[|n]]; try lia. unfold not_expr. cbn [app]. rewrite not_level_primary by done.
    apply primary_level_paren. rewrite <- !app_assoc. cbn [app]. rewrite <- !app_assoc. destruct Hp.
    apply expr_or; [lia|..]; intros m r Hm; [apply IHa|apply IHb]; done || lia.
Qed.

(** ** Lexing the printed text *)

(** [lex_to s ts s']: lexing [s] pushes [ts] and leaves [s']. *)
Inductive lex_to : bytes → list Token → bytes → Prop :=
| lex_done s : lex_to s [] s
| lex_step b rest t s' ts s'' :
    lex_one b rest = Ok (t, s') → lex_to s' ts s'' → lex_to (b :: rest) (option_list t ++ ts) s''.

Lemma lex_to_app s ts s' ts' s'' : lex_to s ts s' → lex_to s' ts' s'' → lex_to s (ts ++ ts') s''.
Proof. induction 1; intros; [done|]. rewrite <- app_assoc. by econstructor; [|apply IHlex_to]. Qed.

Lemma lex_to_trans s ts s' ts' s'' us : us = ts ++ ts' →
  lex_to s ts s' → lex_to s' ts' s'' → lex_to s us s''.
Proof. intros ->. apply lex_to_app. Qed.

Lemma lex_token b rest t s' : lex_one b rest = Ok (Some t, s') → lex_to (b :: rest) [t] s'.
Proof. intros H. apply (lex_step _ _ (Some t) s' [] s' H). constructor. Qed.

Lemma lex_blank b rest s' : lex_one b rest = Ok (None, s') → lex_to (b :: rest) [] s'.
Proof. intros H. apply (lex_step _ _ None s' [] s' H). constructor. Qed.

Lemma lex_to_tokenize s ts : lex_to s ts [] → tokenize s = Ok ts.
Proof.
  assert (H : ∀ s' ts', lex_to s ts' s' → s' = [] → ∀ fuel acc, (length s ≤ fuel)%nat →
    tokenize_loop fuel s acc = Ok (acc ++ ts')).
  { induction 1 as [s|b rest t s' ts' s'' Hone Hto IH]; intros Hs fuel acc Hf.
    - subst. destruct fuel; cbn; by rewrite app_nil_r.
    - destruct fuel as [|fuel]; [cbn in Hf; lia|]. cbn [tokenize_loop]. rewrite Hone. result_simpl.
      pose proof (lex_one_good b rest) as Hg. rewrite Hone in Hg. destruct Hg as [Hl _].
      rewrite IH; [|done|cbn in Hf; lia]. by rewrite <- app_assoc. }
  intros Hto. unfold tokenize. by rewrite (H [] ts Hto eq_refl).
Qed.

(** What may follow a word or a number. *)
Definition delimited (rest : bytes) : Prop :=
  match rest with [] => True | b :: _ => b = Byte.x20 ∨ b = Byte.x29 ∨ b = Byte.x28 ∨ b = Byte.x2c end.

Lemma take_while_app_stop {A} (f : A → bool) (l r : list A) :
  Forall (λ x, f x = true) l → match r with [] => True | x :: _ => f x = false end →
  take_while f (l ++ r) = l ∧ drop_while f (l ++ r) = r.
Proof.
  intros Hl Hr. induction Hl as [|x l Hx Hl IH]; cbn.
  - destruct r; [done|]. cbn. by rewrite Hr.
  - rewrite Hx. destruct IH as [-> ->]. done.
Qed.

Lemma delimited_stop rest : delimited rest →
  match rest with [] => True | x :: _ => is_ident_char x = false end ∧
  match rest with [] => True | x :: _ => is_ascii_digit x = false end.
Proof. destruct rest as [|b rest]; [done|]. by intros [-> | [-> | [-> | ->]]]. Qed.

Lemma lex_one_ident b rest : is_ident_start b = true →
  lex_one b rest = Ok (Some (TIdent (to_ascii_lowercase (take_while is_ident_char (b :: rest)))),
                       drop_while is_ident_char (b :: rest)).
Proof. intros H. destruct b; try discriminate H; reflexivity. Qed.

Lemma lex_word w rest :
  Forall (λ b, is_ident_char b = true) w → (∃ c w', w = c :: w' ∧ is_ident_start c = true) →
  delimited rest → lex_to (w ++ rest) [TIdent (to_ascii_lowercase w)] rest.
Proof.
  intros Hw (c & w' & -> & Hc) Hr. apply delimited_stop in Hr as [Hr _].
  destruct (take_while_app_stop is_ident_char (c :: w') rest Hw Hr) as [H1 H2].
  change ((c :: w') ++ rest) with (c :: (w' ++ rest)) in *.
  apply lex_token. rewrite lex_one_ident by done. by rewrite H1, H2.
Qed.

Lemma lowercase_id s : Forall (λ b, is_ident_char b = true ∧ is_upper b = false) s →
  to_ascii_lowercase s = s.
Proof.
  induction 1 as [|b s [_ Hb] Hs IH]; [done|]. unfold to_ascii_lowercase in *. cbn [map].
  rewrite IH. unfold to_ascii_lower. by rewrite Hb.
Qed.

Lemma lex_ident s rest : wf_ident s → delimited rest → lex_to (s ++ rest) [TIdent s] rest.
Proof.
  intros [Hs Hc] Hr. rewrite <- (lowercase_id s Hs) at 2. apply lex_word; [|done..].
  eapply list.Forall_impl; [done|]. naive_solver.
Qed.

Lemma lex_keyword (kw : string) low rest :
  low = to_ascii_lowercase (bs kw) →
  forallb is_ident_char (bs kw) = true → match bs kw with [] => false | c :: _ => is_ident_start c end = true →
  delimited rest → lex_to (bs kw ++ rest) [TIdent low] rest.
Proof.
  intros -> Hf Hs Hr. apply lex_word; [|destruct (bs kw); [done|eauto]|done].
  apply list.Forall_forall. intros x Hx. eapply forallb_forall; [done|]. by apply list_elem_of_In.
Qed.

(** *** Numbers *)

Lemma digit_of_Z d : 0 ≤ d < 10 →
  is_ascii_digit (byte.of_Z (48 + d)) = true ∧ byte.unsigned (byte.of_Z (48 + d)) = 48 + d.
Proof.
  intros H. assert (byte.unsigned (byte.of_Z (48 + d)) = 48 + d) as Hu.
  { rewrite byte.unsigned_of_Z. unfold byte.wrap. apply Z.mod_small. lia. }
  split; [|done]. unfold is_ascii_digit. rewrite Hu. lia.
Qed.

Lemma dec_digits_fuel_spec fuel n acc : 0 ≤ n < 10 ^ Z.of_nat (S fuel) →
  ∃ ds, dec_digits_fuel (S fuel) n acc = ds ++ acc ∧ ds ≠ [] ∧
        Forall (λ b, is_ascii_digit b = true) ds ∧ digits_value ds = n.
Proof.
  revert n acc. induction fuel as [|fuel IH]; intros n acc Hn; cbn [dec_digits_fuel].
  - assert (n < 10) by (change (10 ^ Z.of_nat 1) with 10 in Hn; lia).
    destruct (digit_of_Z n) as [Hd Hv]; [lia|]. exists [byte.of_Z (48 + n mod 10)].
    rewrite Z.mod_small by lia. case_match; repeat split; try done; try (by constructor);
    unfold digits_value; cbn [fold_left]; rewrite Hv; lia.
  - pose proof (Z.mod_pos_bound n 10 ltac:(lia)) as Hm.
    destruct (digit_of_Z (n mod 10)) as [Hd Hv]; [lia|].
    destruct (Z.ltb_spec n 10).
    + exists [byte.of_Z (48 + n mod 10)]. repeat split; [done|by constructor|].
      unfold digits_value; cbn [fold_left]. rewrite Hv, Z.mod_small; lia.
    + destruct (IH (n / 10) (byte.of_Z (48 + n mod 10) :: acc)) as (ds & Heq & Hne & Hds & Hval).
      { rewrite Nat2Z.inj_succ, Z.pow_succ_r in Hn by lia. split; [apply Z.div_pos; lia|].
        apply Z.div_lt_upper_bound; lia. }
      exists (ds ++ [byte.of_Z (48 + n mod 10)]). cbn [dec_digits_fuel] in Heq. rewrite Heq.
      rewrite <- app_assoc. repeat split; [by destruct ds|apply list.Forall_app; by split; [|constructor]|].
      rewrite digits_value_app, Hval. cbn [fold_left]. rewrite Hv.
      pose proof (Z.div_mod n 10). lia.
Qed.

Lemma show_nat_spec n : 0 ≤ n →
  show_nat n ≠ [] ∧ Forall (λ b, is_ascii_digit b = true) (show_nat n) ∧ digits_value (show_nat n) = n.
Proof.
  intros Hn. unfold show_nat.
  destruct (dec_digits_fuel_spec (Z.to_nat (Z.log2 n)) n []) as (ds & Heq & H1 & H2 & H3).
  { split; [done|]. rewrite Nat2Z.inj_succ, Z2Nat.id by apply Z.log2_nonneg.
    destruct (decide (n = 0)) as [->|]; [by vm_compute|].
    pose proof (Z.log2_spec n ltac:(lia)). pose proof (Z.log2_nonneg n).
    assert (2 ^ Z.succ (Z.log2 n) ≤ 10 ^ Z.succ (Z.log2 n)) by (apply Z.pow_le_mono_l; lia). lia. }
  rewrite Heq, app_nil_r. done.
Qed.

Lemma lex_one_digit b rest : is_ascii_digit b = true →
  lex_one b rest = ('(t, r) ← lex_number (b :: rest); Ok (Some t, r)).
Proof. intros H. destruct b; try discriminate H; reflexivity. Qed.

Lemma lex_nat n rest : 0 ≤ n < 2 ^ 63 → delimited rest → lex_to (show_nat n ++ rest) [TInt n] rest.
Proof.
  intros Hn Hr. destruct (show_nat_spec n ltac:(lia)) as (H1 & H2 & H3).
  destruct (take_while_app_stop is_ascii_digit (show_nat n) rest H2 (proj2 (delimited_stop rest Hr))) as [Ht Hd].
  destruct (show_nat n) as [|b ds] eqn:Hs; [done|]. apply list.Forall_cons in H2 as [Hb _].
  change ((b :: ds) ++ rest) with (b :: (ds ++ rest)) in *.
  apply lex_token. rewrite lex_one_digit by done.
  unfold lex_number. rewrite Ht, Hd. unfold parse_i64. rewrite H3.
  destruct (Z.ltb_spec n (2 ^ 63)); [|lia]. result_simpl.
  destruct rest as [|dot [|d rest]]; try done. destruct Hr as [-> | [-> | [-> | ->]]]; done.
Qed.

Lemma lex_minus rest : (∃ b r, rest = b :: r ∧ is_ascii_digit b = true) →
  lex_to (Byte.x2d :: rest) [TMinus] rest.
Proof. intros (b & r & -> & Hb). apply lex_token. destruct b; try discriminate Hb; reflexivity. Qed.

Lemma lex_Z n rest : - 2 ^ 63 < n < 2 ^ 63 → delimited rest →
  lex_to (show_Z n ++ rest) (literal_tokens (LInt n)) rest.
Proof.
  intros Hn Hr. unfold show_Z, literal_tokens. destruct (Z.ltb_spec n 0).
  - eapply (lex_to_trans _ [TMinus] (show_nat (- n) ++ rest) [TInt (- n)]); [done| |].
    + apply lex_minus. destruct (show_nat_spec (- n) ltac:(lia)) as (H1 & H2 & _).
      destruct (show_nat (- n)) as [|b ds]; [done|]. apply list.Forall_cons in H2 as [Hb _]. eauto.
    + apply lex_nat; [lia|done].
  - apply lex_nat; [lia|done].
Qed.

(** *** Strings *)

Lemma position_quote a r : Forall (λ b, bool_decide (b = quote) = false) a →
  position (λ b, bool_decide (b = quote)) (a ++ quote :: r) = Some (length a).
Proof. induction 1 as [|x l Hx Hl IH]; cbn; [done|]. by rewrite Hx, IH. Qed.

(** The part of [s] before its first quote. *)
Lemma split_quote s :
  (Forall (λ b, bool_decide (b = quote) = false) s ∧ escape_quotes s = s) ∨
  ∃ a c, s = a ++ quote :: c ∧ Forall (λ b, bool_decide (b = quote) = false) a ∧
         escape_quotes s = a ++ quote :: quote :: escape_quotes c.
Proof.
  induction s as [|b s IH]; [by left|]. cbn [escape_quotes].
  destruct (decide (b = quote)) as [->|Hb].
  - right. by exists [], s.
  - destruct IH as [[Hs ->]|(a & c & -> & Ha & ->)].
    + left. split; [|done]. constructor; [|done]. by apply bool_decide_eq_false.
    + right. exists (b :: a), c. repeat split. constructor; [|done]. by apply bool_decide_eq_false.
Qed.

Lemma lex_string_loop_escape fuel s rest out i :
  delimited rest → (length s < fuel)%nat →
  lex_string_loop fuel (escape_quotes s ++ quote :: rest) out i =
    Ok (out ++ s, (i + length (escape_quotes s) + 1)%nat).
Proof.
  intros Hr. revert s out i. induction fuel as [|fuel IH]; intros s out i Hf; [lia|].
  destruct (split_quote s) as [[Hs ->]|(a & c & -> & Ha & ->)]; cbn [lex_string_loop].
  - rewrite position_quote by done. rewrite take_app_length. change (quote :: rest) with ([quote] ++ rest). rewrite app_assoc.
    rewrite drop_app_length' by len_solve.
    destruct rest as [|b rest]; [do 2 f_equal; lia|].
    rewrite decide_False by (destruct Hr as [-> | [-> | [-> | ->]]]; done). do 2 f_equal. lia.
  - rewrite <- app_assoc. cbn [app]. rewrite position_quote by done. rewrite take_app_length.
    rewrite (cons_app_one quote (quote :: escape_quotes c ++ quote :: rest)), app_assoc.
    rewrite drop_app_length' by len_solve. rewrite decide_True by done.
    rewrite IH by (len_simpl; lia). rewrite <- !app_assoc. do 2 f_equal. len_simpl. lia.
Qed.

Lemma lex_one_quote rest :
  lex_one quote rest = ('(s, consumed) ← lex_string (quote :: rest); Ok (Some (TStr s), drop consumed (quote :: rest))).
Proof. reflexivity. Qed.

Lemma length_escape s : (length s ≤ length (escape_quotes s))%nat.
Proof. induction s as [|b s IH]; cbn; [lia|]. case_decide; cbn; lia. Qed.

Lemma lex_text s rest : delimited rest →
  lex_to (([quote] ++ escape_quotes s ++ [quote]) ++ rest) [TStr s] rest.
Proof.
  intros Hr. rewrite <- !app_assoc. cbn [app]. apply lex_token. rewrite lex_one_quote.
  unfold lex_string. rewrite skipn_cons, drop_0. rewrite lex_string_loop_escape.
  - result_simpl. do 2 f_equal. change (quote :: escape_quotes s ++ quote :: rest)
      with ([quote] ++ escape_quotes s ++ [quote] ++ rest). rewrite 2!app_assoc.
    rewrite drop_app_length' by len_solve. done.
  - done.
  - pose proof (length_escape s). cbn [length]. len_simpl. lia.
Qed.

Lemma lex_literal l rest : printable_literal l → delimited rest →
  lex_to (show_literal l ++ rest) (literal_tokens l) rest.
Proof.
  destruct l; intros Hl Hr; try done.
  - by apply (lex_keyword "NULL").
  - by apply lex_Z.
  - by apply lex_text.
Qed.

Lemma lex_op op rest : lex_to (show_op op ++ Byte.x20 :: rest) [op_token op] (Byte.x20 :: rest).
Proof. destruct op; by apply lex_token. Qed.

Lemma lex_space rest : lex_to (Byte.x20 :: rest) [] rest.
Proof. by apply lex_blank. Qed.

Lemma lex_open rest : lex_to (Byte.x28 :: rest) [TLParen] rest.
Proof. by apply lex_token. Qed.

Lemma lex_close rest : lex_to (Byte.x29 :: rest) [TRParen] rest.
Proof. by apply lex_token. Qed.

(** A keyword or an identifier and the blank after it, then the rest. *)
Lemma lex_keyword_space (kw : string) low rest ts s' :
  low = to_ascii_lowercase (bs kw) →
  forallb is_ident_char (bs kw) = true → match bs kw with [] => false | c :: _ => is_ident_start c end = true →
  lex_to rest ts s' → lex_to (bs kw ++ Byte.x20 :: rest) (TIdent low :: ts) s'.
Proof.
  intros H1 H2 H3 Hto. apply (lex_to_trans _ [TIdent low] (Byte.x20 :: rest) ts); [done| |].
  - apply lex_keyword; [done..|by left].
  - by apply (lex_to_trans _ [] rest ts); [done|apply lex_space|].
Qed.

Lemma lex_ident_space c rest ts s' : wf_ident c →
  lex_to rest ts s' → lex_to (c ++ Byte.x20 :: rest) (TIdent c :: ts) s'.
Proof.
  intros Hc Hto. apply (lex_to_trans _ [TIdent c] (Byte.x20 :: rest) ts); [done| |].
  - apply lex_ident; [done|by left].
  - by apply (lex_to_trans _ [] rest ts); [done|apply lex_space|].
Qed.

Ltac lex_kw kw := apply (lex_keyword_space kw); [done..|].
Ltac lex_paren := eapply (lex_to_trans _ [TLParen]); [reflexivity|apply lex_open|].

Lemma lex_expr e rest : printable e → delimited rest →
  lex_to (show_expr e ++ rest) (expr_tokens e) rest.
Proof.
  revert rest. induction e as [c op l|c negated|a IHa|a IHa b IHb|a IHa b IHb];
    cbn [printable show_expr expr_tokens]; intros rest Hp Hr.
  - destruct Hp as (Hc & _ & Hl). rewrite <- !app_assoc.
    apply lex_ident_space; [done|].
    eapply (lex_to_trans _ [op_token op]); [reflexivity|apply lex_op|].
    eapply (lex_to_trans _ []); [reflexivity|apply lex_space|]. by apply lex_literal.
  - destruct Hp as (Hc & _). rewrite <- !app_assoc.
    apply lex_ident_space; [done|].
    lex_kw ("IS"%string). destruct negated.
    + lex_kw ("NOT"%string). by apply (lex_keyword "NULL").
    + by apply (lex_keyword "NULL").
  - rewrite <- !app_assoc.
    lex_kw ("NOT"%string).
    lex_paren.
    eapply lex_to_app; [apply IHa; [done|by right; left]|]. apply lex_close.
  - destruct Hp as [Ha Hb]. rewrite <- !app_assoc.
    lex_paren.
    eapply lex_to_app; [apply IHa; [done|by left]|].
    eapply (lex_to_trans _ []); [reflexivity|apply lex_space|].
    lex_kw ("AND"%string).
    eapply lex_to_app; [apply IHb; [done|by right; left]|]. apply lex_close.
  - destruct Hp as [Ha Hb]. rewrite <- !app_assoc.
    lex_paren.
    eapply lex_to_app; [apply IHa; [done|by left]|].
    eapply (lex_to_trans _ []); [reflexivity|apply lex_space|].
    lex_kw ("OR"%string).
    eapply lex_to_app; [apply IHb; [done|by right; left]|]. apply lex_close.
Qed.

(** ** The whole pipeline *)

Lemma delete_where_parse e n : printable e → (5 * length (expr_tokens e) + 10 ≤ n)%nat →
  statement n (TIdent (bs "delete") :: TIdent (bs "from") :: TIdent (bs "t") ::
               TIdent (bs "where") :: expr_tokens e) = Ok (Delete (bs "t") (Some e), []).
Proof.
  intros Hp Hn. destruct n as [|n]; [lia|].
  assert (He : expr n (expr_tokens e) = Ok (e, [])).
  { apply or_level_single; [lia|by intros s|]. intros m Hm.
    rewrite <- (app_nil_r (expr_tokens e)). apply expr_tokens_parse; [done|].
    unfold fuel_for. lia. }
  change (statement (S n) _) with ((w ← optional_where n; mret (Delete (bs "t") w))
    (TIdent (bs "where") :: expr_tokens e)).
  change (optional_where n) with (b ← eat_keyword "where";
    if (b : bool) then e ← expr n; mret (Some e) else mret None).
  unfold mbind at 1 2, ParseM_bind at 1 2. rewrite eat_keyword_hit.
  unfold mbind, ParseM_bind. by rewrite He.
Qed.

(** C28: The displayed text of a printable WHERE expression is lexed and parsed
    back to the same expression. Printable ([printable]): its column names are
    identifiers of the language other than the keyword [not], and its literals
    are NULL, texts, and integers other than the smallest i64; REAL
    and VECTOR literals are excluded, since REAL 1.0 is displayed as [1], which
    reads back as an INT. *)
Theorem where_display_roundtrip e :
  printable e →
  parse_statements (bs "DELETE FROM t WHERE " ++ show_expr e) = Ok [Delete (bs "t") (Some e)].
Proof.
  intros Hp. unfold parse_statements.
  rewrite (lex_to_tokenize _ (TIdent (bs "delete") :: TIdent (bs "from") :: TIdent (bs "t") ::
               TIdent (bs "where") :: expr_tokens e)).
  - result_simpl. cbn [length]. set (ts := _ :: _).
    unfold parser_fuel. change (length ts) with (4 + length (expr_tokens e))%nat.
    replace (5 * (4 + length (expr_tokens e)) + 10)%nat
      with (S (S (28 + 5 * length (expr_tokens e)))) by lia.
    cbn [statements_loop]. change (skip_semis ts) with ts. rewrite bool_decide_false by done.
    unfold ts. rewrite delete_where_parse by (done || lia). result_simpl. reflexivity.
  - change (bs "DELETE FROM t WHERE ")
      with (bs "DELETE" ++ bs " " ++ bs "FROM" ++ bs " " ++ bs "t" ++ bs " " ++ bs "WHERE" ++ bs " ").
    rewrite <- !app_assoc.
    lex_kw ("DELETE"%string).
    lex_kw ("FROM"%string).
    lex_kw ("t"%string).
    lex_kw ("WHERE"%string).
    rewrite <- (app_nil_r (show_expr e)). by apply lex_expr.
Qed.

Lemma where_display_roundtrip_witness :
  let e := EAnd (ENot (ECompare (bs "name") CLe (LText (bs "it's")))) (ECompare (bs "n") CNe (LInt (-5))) in
  printable e ∧ parse_statements (bs "DELETE FROM t WHERE " ++ show_expr e) = Ok [Delete (bs "t") (Some e)].
Proof.
  assert (Hp : printable (EAnd (ENot (ECompare (bs "name") CLe (LText (bs "it's"))))
    (ECompare (bs "n") CNe (LInt (-5))))).
  { repeat split; try done; try (repeat constructor; done); cbn; eauto. }
  split; [exact Hp|]. exact (where_display_roundtrip _ Hp).
Defined.
