(* ===== verification/Migrate.v ===== *)
(** * Translating a MySQL dump

    ciphra-migrate/src/lib.rs.  A Rust [String] the translator takes apart
    is the list of its characters here ([Text]); an index counts characters
    where the code counts the bytes before the same character.  A dump comes
    in, and a statement goes out, as UTF-8 bytes.  A slice the code takes at a
    position that may be out of bounds or inside a character yields
    [Panic]. *)

From S2P Require Import Prelude Float SqlAst SqlLexer.

(** ** Characters and text *)

Abbreviation Text := (list Z).

(** ASCII text of the source. *)
Definition tx (s : string) : Text := map byte.unsigned (bs s).

(** [char::encode_utf8] *)
Definition utf8_char (c : Z) : bytes :=
  if (0 <=? c) && (c <? 0x80) then [byte.of_Z c]
  else if c <? 0x800 then
    [byte.of_Z (Z.lor 0xC0 (Z.land (Z.shiftr c 6) 0x1F)); byte.of_Z (Z.lor 0x80 (Z.land c 0x3F))]
  else if c <? 0x10000 then
    [byte.of_Z (Z.lor 0xE0 (Z.land (Z.shiftr c 12) 0x0F)); byte.of_Z (Z.lor 0x80 (Z.land (Z.shiftr c 6) 0x3F));
     byte.of_Z (Z.lor 0x80 (Z.land c 0x3F))]
  else
    [byte.of_Z (Z.lor 0xF0 (Z.land (Z.shiftr c 18) 0x07)); byte.of_Z (Z.lor 0x80 (Z.land (Z.shiftr c 12) 0x3F));
     byte.of_Z (Z.lor 0x80 (Z.land (Z.shiftr c 6) 0x3F)); byte.of_Z (Z.lor 0x80 (Z.land c 0x3F))].

Definition utf8 (s : Text) : bytes := concat (map utf8_char s).

(** [chars().next()] on valid UTF-8: the character and its [len_utf8]. *)
Definition first_char (s : bytes) : Z * nat :=
  let u i := byte.unsigned (s !!! i) in
  let tail i := Z.land (u i) 0x3F in
  if u 0%nat <? 0x80 then (u 0%nat, 1%nat)
  else if u 0%nat <? 0xE0 then (Z.lor (Z.shiftl (Z.land (u 0%nat) 0x1F) 6) (tail 1%nat), 2%nat)
  else if u 0%nat <? 0xF0 then
    (Z.lor (Z.shiftl (Z.land (u 0%nat) 0x0F) 12) (Z.lor (Z.shiftl (tail 1%nat) 6) (tail 2%nat)), 3%nat)
  else
    (Z.lor (Z.shiftl (Z.land (u 0%nat) 0x07) 18)
       (Z.lor (Z.shiftl (tail 1%nat) 12) (Z.lor (Z.shiftl (tail 2%nat) 6) (tail 3%nat))), 4%nat).

(** [char::is_whitespace]: the Unicode property White_Space. *)
Definition is_whitespace (c : Z) : bool :=
  ((9 <=? c) && (c <=? 13)) || (c =? 0x20) || (c =? 0x85) || (c =? 0xA0) || (c =? 0x1680)
  || ((0x2000 <=? c) && (c <=? 0x200A)) || (c =? 0x2028) || (c =? 0x2029) || (c =? 0x202F)
  || (c =? 0x205F) || (c =? 0x3000).

Definition ch (b : byte) : Z := byte.unsigned b.
Definition is_digit (c : Z) : bool := (48 <=? c) && (c <=? 57).
Definition is_ascii_upper (c : Z) : bool := (65 <=? c) && (c <=? 90).
Definition is_ascii_lower (c : Z) : bool := (97 <=? c) && (c <=? 122).
Definition is_ascii_alphabetic (c : Z) : bool := is_ascii_upper c || is_ascii_lower c.
Definition is_ascii_alphanumeric (c : Z) : bool := is_ascii_alphabetic c || is_digit c.
Definition to_upper (s : Text) : Text := map (λ c, if is_ascii_lower c then c - 32 else c) s.
Definition to_lower (s : Text) : Text := map (λ c, if is_ascii_upper c then c + 32 else c) s.

Definition trim_start (s : Text) : Text := drop_while is_whitespace s.
Definition trim (s : Text) : Text := reverse (trim_start (reverse (trim_start s))).

Fixpoint split_words (fuel : nat) (s : Text) : list Text :=
  match fuel, trim_start s with
  | S fuel', (_ :: _) as s' =>
      take_while (λ c, negb (is_whitespace c)) s' :: split_words fuel' (drop_while (λ c, negb (is_whitespace c)) s')
  | _, _ => []
  end.

(** [split_whitespace] *)
Definition split_whitespace (s : Text) : list Text := split_words (length s) s.

(** [slice.join(sep)] *)
Fixpoint join {A} (sep : list A) (parts : list (list A)) : list A :=
  match parts with
  | [] => []
  | [p] => p
  | p :: rest => p ++ sep ++ join sep rest
  end.

Definition text_starts_with (p s : Text) : bool := bool_decide (take (length p) s = p).

Fixpoint text_contains (s p : Text) : bool :=
  text_starts_with p s || match s with [] => false | _ :: s' => text_contains s' p end.

Definition QUOTE : Z := 39.
Definition DQUOTE : Z := 34.
Definition BACKTICK : Z := 96.
Definition BACKSLASH : Z := 92.
Definition LPAREN : Z := 40.
Definition RPAREN : Z := 41.
Definition LBRACKET : Z := 91.
Definition RBRACKET : Z := 93.
Definition COMMA : Z := 44.

Definition opens_quote (c : Z) : bool := (c =? QUOTE) || (c =? DQUOTE) || (c =? BACKTICK).
Definition escapes (q c : Z) : bool := (c =? BACKSLASH) && negb (q =? BACKTICK).

(** ** The result of a translation *)

(** The notes, with what their text interpolates. *)
Inductive Note : Type :=
| NSkippedStatement (kind : Text)
| NNoColumnList
| NUnbalanced
| NUnsafeTable (name : Text)
| NForeignKey
| NMultiColumnIndex
| NUnsupportedConstraint
| NUnsafeColumn (table column : Text)
| NNoColumns (table : Text)
| NCompositeKey (table : Text)
| NDecimal
| NBinaryType (word : Text)
| NUnknownType (word : Text)
| NNoInto
| NNoTableName
| NUnsafeInsertTable (name : Text)
| NNoValues (name : Text)
| NUnsafeInsertColumn (name column : Text)
| NKeptAsText (value : Text).

#[export] Instance Note_eq_dec : EqDecision Note.
Proof. solve_decision. Defined.

Record Migration : Type := mkMigration { mg_statements : list Text; mg_notes : list Note }.
Definition migration_default : Migration := mkMigration [] [].
Definition note (m : Note) (out : Migration) : Migration :=
  if bool_decide (m ∈ mg_notes out) then out else mkMigration (mg_statements out) (mg_notes out ++ [m]).
Definition emit (s : Text) (out : Migration) : Migration :=
  mkMigration (mg_statements out ++ [s]) (mg_notes out).

(** Slices that panic. *)
Inductive Panic : Type := SliceBounds | CharBoundary.

(** ** Splitting *)

(** The text the bytes up to a newline leave. *)
Definition skip_line (s : bytes) : bytes := drop_while (λ b, negb (bool_decide (b = Byte.x0a))) s.

(** The bytes after the [*/] that closes a comment, none if it is not closed. *)
Fixpoint skip_comment (s : bytes) : bytes :=
  match s with
  | Byte.x2a :: (Byte.x2f :: rest) => rest
  | _ :: rest => skip_comment rest
  | [] => []
  end.

(** [split_statements]: [quote] is the open quote, [cur] the statement so far.
    Inside quotes each byte is pushed as a character of its own. *)
Fixpoint split_loop (fuel : nat) (s : bytes) (quote : option byte) (cur : Text) : list Text :=
  match fuel, s with
  | S fuel', b :: rest =>
      match quote with
      | Some q =>
          let cur := cur ++ [ch b] in
          match rest with
          | e :: rest' =>
              if bool_decide (b = Byte.x5c) && negb (bool_decide (q = Byte.x60)) then
                split_loop fuel' rest' quote (cur ++ [ch e])
              else split_loop fuel' rest (if bool_decide (b = q) then None else quote) cur
          | [] => split_loop fuel' rest (if bool_decide (b = q) then None else quote) cur
          end
      | None =>
          if opens_quote (ch b) then split_loop fuel' rest (Some b) (cur ++ [ch b])
          else if bool_decide (b = Byte.x2d) && bool_decide (head rest = Some Byte.x2d) then
            split_loop fuel' (skip_line s) None cur
          else if bool_decide (b = Byte.x23) then split_loop fuel' (skip_line s) None cur
          else if bool_decide (b = Byte.x2f) && bool_decide (head rest = Some Byte.x2a) then
            split_loop fuel' (skip_comment (drop 1 rest)) None cur
          else if bool_decide (b = Byte.x3b) then cur :: split_loop fuel' rest None []
          else
            let '(c, len) := first_char s in
            split_loop fuel' (drop len s) None (cur ++ [c])
      end
  | _, _ => if bool_decide (trim cur = []) then [] else [cur]
  end.

Definition split_statements (input : bytes) : list Text := split_loop (length input) input None [].

Fixpoint top_level_loop (sep : Z) (s : Text) (depth : Z) (quote : option Z) (part : Text) : list Text :=
  match s with
  | [] => [part]
  | c :: rest =>
      match quote with
      | Some q =>
          if escapes q c then
            match rest with
            | [] => [part ++ [c]]
            | e :: rest' => top_level_loop sep rest' depth quote (part ++ [c; e])
            end
          else top_level_loop sep rest depth (if c =? q then None else quote) (part ++ [c])
      | None =>
          if opens_quote c then top_level_loop sep rest depth (Some c) (part ++ [c])
          else if (c =? LPAREN) || (c =? LBRACKET) then top_level_loop sep rest (depth + 1) None (part ++ [c])
          else if (c =? RPAREN) || (c =? RBRACKET) then top_level_loop sep rest (depth - 1) None (part ++ [c])
          else if (c =? sep) && (depth =? 0) then part :: top_level_loop sep rest depth None []
          else top_level_loop sep rest depth None (part ++ [c])
      end
  end.

Definition top_level_split (s : Text) (sep : Z) : list Text := top_level_loop sep s 0 None [].

Fixpoint find_loop (target : Z) (s : Text) (quote : option Z) (i : nat) : option nat :=
  match s with
  | [] => None
  | c :: rest =>
      match quote with
      | Some q =>
          if escapes q c then
            match rest with [] => None | _ :: rest' => find_loop target rest' quote (S (S i)) end
          else find_loop target rest (if c =? q then None else quote) (S i)
      | None =>
          if opens_quote c then find_loop target rest (Some c) (S i)
          else if c =? target then Some i
          else find_loop target rest None (S i)
      end
  end.

Definition find_top_level (s : Text) (target : Z) : option nat := find_loop target s None 0.

Fixpoint paren_loop (s : Text) (depth : Z) (quote : option Z) (i : nat) : option nat :=
  match s with
  | [] => None
  | c :: rest =>
      match quote with
      | Some q =>
          if escapes q c then
            match rest with [] => None | _ :: rest' => paren_loop rest' depth quote (S (S i)) end
          else paren_loop rest depth (if c =? q then None else quote) (S i)
      | None =>
          if opens_quote c then paren_loop rest depth (Some c) (S i)
          else if c =? LPAREN then paren_loop rest (depth + 1) None (S i)
          else if c =? RPAREN then if depth - 1 =? 0 then Some i else paren_loop rest (depth - 1) None (S i)
          else paren_loop rest depth None (S i)
      end
  end.

Definition matching_paren (s : Text) (open : nat) : option nat := paren_loop (drop open s) 0 None open.

Definition is_word_char (c : Z) : bool := is_ascii_alphanumeric c || (c =? 95).

(** [find_keyword] on lower-cased text. The code looks at every byte: outside
    quotes and parentheses it slices the text there, which panics inside a
    character. [prev] is the character before. *)
Fixpoint keyword_loop (kw s : Text) (depth : Z) (quote prev : option Z) (i : nat) : result Panic (option nat) :=
  match s with
  | [] => Ok None
  | c :: rest =>
      match quote with
      | Some q =>
          if escapes q c then
            match rest with [] => Ok None | e :: rest' => keyword_loop kw rest' depth quote (Some e) (S (S i)) end
          else keyword_loop kw rest depth (if c =? q then None else quote) (Some c) (S i)
      | None =>
          if opens_quote c then keyword_loop kw rest depth (Some c) (Some c) (S i)
          else if (c =? LPAREN) || (c =? LBRACKET) then keyword_loop kw rest (depth + 1) None (Some c) (S i)
          else if (c =? RPAREN) || (c =? RBRACKET) then keyword_loop kw rest (depth - 1) None (Some c) (S i)
          else if (depth =? 0) && text_starts_with kw s then
            let before_ok := match prev with None => true | Some p => negb (is_word_char p) end in
            let after_ok := match s !! length kw with None => true | Some a => negb (is_word_char a) end in
            if before_ok && after_ok then Ok (Some i) else keyword_loop kw rest depth None (Some c) (S i)
          else if (depth =? 0) && (0x80 <=? c) then Err CharBoundary
          else keyword_loop kw rest depth None (Some c) (S i)
      end
  end.

Definition find_keyword (s kw : Text) : result Panic (option nat) :=
  keyword_loop (to_lower kw) (to_lower s) 0 None None 0.

(** ** Identifiers *)

Definition is_safe_ident (s : Text) : bool :=
  match s with
  | c :: rest =>
      (is_ascii_alphabetic c || (c =? 95)) && forallb (λ c, is_ascii_alphanumeric c || (c =? 95)) rest
  | [] => false
  end.

Definition unquote_ident (s : Text) : Text :=
  let t := trim s in
  let t := match position (λ c, c =? LPAREN) t with Some paren => trim (take paren t) | None => t end in
  match t with
  | first :: ((_ :: _) as rest) =>
      if opens_quote first && bool_decide (list.last rest = Some first) then take (length rest - 1) rest else t
  | _ => t
  end.

Definition paren_columns (s : Text) : list Text :=
  match find_top_level s LPAREN with
  | None => []
  | Some open =>
      match matching_paren s open with
      | None => []
      | Some close =>
          filter (λ c, c ≠ []) (map unquote_ident (top_level_split (take (close - (open + 1)) (drop (open + 1) s)) COMMA))
      end
  end.

Definition split_first_token (s : Text) : option (Text * Text) :=
  let s := trim_start s in
  let unquoted := (take_while (λ c, negb (is_whitespace c)) s, drop_while (λ c, negb (is_whitespace c)) s) in
  match s with
  | [] => None
  | first :: rest =>
      if (first =? BACKTICK) || (first =? DQUOTE) then
        match position (λ c, c =? first) rest with
        | Some e => Some (take (e + 2) s, drop (e + 2) s)
        | None => Some unquoted
        end
      else Some unquoted
  end.

(** ** CREATE TABLE *)

Definition INT : Text := tx "INT".
Definition REAL : Text := tx "REAL".
Definition TEXT : Text := tx "TEXT".

Definition one_of (w : Text) (words : list string) : bool := existsb (λ s, bool_decide (w = tx s)) words.

(** [map_type]: the type and an optional note. *)
Definition map_type (spec : Text) : Text * option Note :=
  let word := to_lower (take_while (λ c, negb (is_whitespace c || (c =? LPAREN))) (trim_start spec)) in
  if one_of word ["tinyint"; "smallint"; "mediumint"; "int"; "integer"; "bigint"; "bool"; "boolean"]%string
  then (INT, None)
  else if one_of word ["float"; "double"; "real"]%string then (REAL, None)
  else if one_of word ["decimal"; "numeric"; "dec"; "fixed"]%string then (REAL, Some NDecimal)
  else if one_of word ["char"; "varchar"; "tinytext"; "text"; "mediumtext"; "longtext"; "enum"; "set";
                       "date"; "datetime"; "timestamp"; "time"; "year"; "json"]%string then (TEXT, None)
  else if one_of word ["binary"; "varbinary"; "bit"; "blob"; "tinyblob"; "mediumblob"; "longblob"]%string
  then (TEXT, Some (NBinaryType word))
  else (TEXT, Some (NUnknownType word)).

Definition starts_with_any (s : Text) (prefixes : list string) : bool :=
  existsb (λ p, text_starts_with (tx p) s) prefixes.

(** What the loop over the column list collects. *)
Record TableParts : Type := mkTableParts {
  tp_columns : list (Text * Text);
  tp_inline_pk : option Text;
  tp_declared_pk : list Text;
  tp_indexes : list Text;
  tp_out : Migration;
}.

Definition noted (tp : TableParts) (m : Note) : TableParts :=
  mkTableParts (tp_columns tp) (tp_inline_pk tp) (tp_declared_pk tp) (tp_indexes tp) (note m (tp_out tp)).

Definition table_constraint (tp : TableParts) (part upper : Text) : TableParts :=
  let cols := paren_columns part in
  match cols with
  | [col] =>
      if starts_with_any upper ["KEY"; "UNIQUE"; "INDEX"]%string then
        mkTableParts (tp_columns tp) (tp_inline_pk tp) (tp_declared_pk tp) (tp_indexes tp ++ [col]) (tp_out tp)
      else if text_starts_with (tx "FOREIGN") upper then noted tp NForeignKey
      else noted tp NUnsupportedConstraint
  | _ =>
      if text_starts_with (tx "FOREIGN") upper then noted tp NForeignKey
      else if (1 <? length cols)%nat then noted tp NMultiColumnIndex
      else noted tp NUnsupportedConstraint
  end.

(** One part of the column list; [Err] is the early return. *)
Definition table_part (table : Text) (tp : TableParts) (part : Text) : result Migration TableParts :=
  let part := trim part in
  if bool_decide (part = []) then Ok tp
  else
    let upper := to_upper part in
    if text_starts_with (tx "PRIMARY KEY") upper then
      Ok (mkTableParts (tp_columns tp) (tp_inline_pk tp) (paren_columns part) (tp_indexes tp) (tp_out tp))
    else if starts_with_any upper ["KEY "; "KEY("; "UNIQUE"; "INDEX"; "FULLTEXT"; "SPATIAL"; "CONSTRAINT";
                                   "FOREIGN"; "CHECK"]%string then
      Ok (table_constraint tp part upper)
    else
      match split_first_token part with
      | None => Ok tp
      | Some (col_name, rest) =>
          let col_name := unquote_ident col_name in
          if negb (is_safe_ident col_name) then Err (note (NUnsafeColumn table col_name) (tp_out tp))
          else
            let '(ty, n) := map_type rest in
            let out := match n with Some n => note n (tp_out tp) | None => tp_out tp end in
            let inline_pk :=
              if text_contains (to_upper rest) (tx "PRIMARY KEY") then Some col_name else tp_inline_pk tp in
            Ok (mkTableParts (tp_columns tp ++ [(col_name, ty)]) inline_pk (tp_declared_pk tp) (tp_indexes tp) out)
      end.

(** The one primary key, and the note when a composite key is dropped. *)
Definition resolve_pk (table : Text) (tp : TableParts) : option Text * Migration :=
  match tp_inline_pk tp, tp_declared_pk tp with
  | Some pk, _ => (Some pk, tp_out tp)
  | None, [pk] => (Some pk, tp_out tp)
  | None, [] => (None, tp_out tp)
  | None, _ => (None, note (NCompositeKey table) (tp_out tp))
  end.

Definition column_sql (pk : option Text) (col : Text * Text) : Text :=
  if bool_decide (Some col.1 = pk) then col.1 ++ tx " " ++ col.2 ++ tx " PRIMARY KEY"
  else col.1 ++ tx " " ++ col.2.

Definition create_table_sql (table : Text) (pk : option Text) (columns : list (Text * Text)) : Text :=
  tx "CREATE TABLE " ++ table ++ tx " (" ++ join (tx ", ") (map (column_sql pk) columns) ++ tx ")".

Definition create_index_sql (table col : Text) : Text :=
  tx "CREATE INDEX ON " ++ table ++ tx " (" ++ col ++ tx ")".

(** The loop over the secondary keys; [seen] is the [HashSet]. *)
Fixpoint emit_indexes (table : Text) (pk : option Text) (columns : list (Text * Text)) (cols seen : list Text)
    (out : Migration) : Migration :=
  match cols with
  | [] => out
  | col :: cols' =>
      if bool_decide (Some col = pk) then emit_indexes table pk columns cols' seen out
      else if bool_decide (col ∈ seen) then emit_indexes table pk columns cols' seen out
      else
        let out :=
          if existsb (λ c, bool_decide (c.1 = col)) columns then emit (create_index_sql table col) out else out in
        emit_indexes table pk columns cols' (col :: seen) out
  end.

Definition translate_create_table (stmt : Text) (out : Migration) : Migration :=
  match find_top_level stmt LPAREN with
  | None => note NNoColumnList out
  | Some open =>
      match matching_paren stmt open with
      | None => note NUnbalanced out
      | Some close =>
          let head := take open stmt in
          let body := take (close - (open + 1)) (drop (open + 1) stmt) in
          let table := match list.last (split_whitespace head) with Some t => unquote_ident t | None => [] end in
          if negb (is_safe_ident table) then note (NUnsafeTable table) out
          else
            match foldR (table_part table) (mkTableParts [] None [] [] out) (top_level_split body COMMA) with
            | Err out => out
            | Ok tp =>
                if bool_decide (tp_columns tp = []) then note (NNoColumns table) (tp_out tp)
                else
                  let '(pk, out) := resolve_pk table tp in
                  let out := emit (create_table_sql table pk (tp_columns tp)) out in
                  emit_indexes table pk (tp_columns tp) (tp_indexes tp) [] out
            end
      end
  end.

(** ** Values *)

(** [s.replace('\'', "''")] between quotes. *)
Fixpoint double_quotes (s : Text) : Text :=
  match s with
  | [] => []
  | c :: s' => (if c =? QUOTE then [QUOTE; QUOTE] else [c]) ++ double_quotes s'
  end.
Definition ciphra_string (s : Text) : Text := [QUOTE] ++ double_quotes s ++ [QUOTE].

Definition unescape (c : Z) : Text :=
  if c =? 110 then [10] else if c =? 116 then [9] else if c =? 114 then [13] else if c =? 48 then [0]
  else if c =? 98 then [8] else if c =? 90 then [0x1A] else if c =? BACKSLASH then [BACKSLASH]
  else if c =? QUOTE then [QUOTE] else if c =? DQUOTE then [DQUOTE]
  else if c =? 37 then [BACKSLASH; 37] else if c =? 95 then [BACKSLASH; 95] else [c].

Fixpoint decode_loop (quote : Z) (s : Text) : Text :=
  match s with
  | [] => []
  | c :: rest =>
      if c =? BACKSLASH then
        match rest with [] => [] | e :: rest' => unescape e ++ decode_loop quote rest' end
      else if c =? quote then
        match rest with
        | e :: rest' => if e =? quote then quote :: decode_loop quote rest' else quote :: decode_loop quote rest
        | [] => [quote]
        end
      else c :: decode_loop quote rest
  end.

(** [&tok[1..tok.len() - 1]]: the last byte must be a character other than the
    quote at the start. *)
Definition decode_mysql_string (tok : Text) : result Panic Text :=
  match tok with
  | quote :: ((_ :: _) as rest) =>
      if match list.last rest with Some c => 0x80 <=? c | None => false end then Err CharBoundary
      else Ok (decode_loop quote (take (length rest - 1) rest))
  | _ => Err SliceBounds
  end.

Definition digits (s : Text) : Z := fold_left (λ acc c, 10 * acc + (c - 48)) s 0.

(** [str::parse::<i64>] *)
Definition parse_i64 (s : Text) : option Z :=
  let '(negative, ds) :=
    match s with c :: rest => if c =? 45 then (true, rest) else if c =? 43 then (false, rest) else (false, s) | [] => (false, s) end in
  if bool_decide (ds = []) || negb (forallb is_digit ds) then None
  else
    let n := if negative then - digits ds else digits ds in
    if (- 2 ^ 63 <=? n) && (n <? 2 ^ 63) then Some n else None.

(** The decimal [n * 10^e] as the nearest [f64]. *)
Definition f64_of_scaled (n e : Z) : f64 :=
  if 0 <=? e then f64_of_decimal (n * 10 ^ e) 0 else f64_of_decimal n (Z.to_nat (- e)).

(** [str::parse::<f64>] on text without letters other than [e]: an optional
    sign, digits with an optional point, an optional exponent. *)
Definition parse_f64 (s : Text) : option f64 :=
  let '(negative, s) :=
    match s with c :: rest => if c =? 45 then (true, rest) else if c =? 43 then (false, rest) else (false, s) | [] => (false, s) end in
  let whole := take_while is_digit s in
  let s := drop_while is_digit s in
  let '(frac, s) :=
    match s with c :: rest => if c =? 46 then (take_while is_digit rest, drop_while is_digit rest) else ([], s) | [] => ([], s) end in
  let exponent :=
    match s with
    | [] => Some 0
    | c :: rest =>
        if (c =? 101) || (c =? 69) then
          let '(neg, ds) :=
            match rest with c :: r => if c =? 45 then (true, r) else if c =? 43 then (false, r) else (false, rest) | [] => (false, rest) end in
          if bool_decide (ds = []) || negb (forallb is_digit ds) then None
          else Some (if (neg : bool) then - digits ds else digits ds)
        else None
    end in
  if bool_decide (whole ++ frac = []) then None
  else
    match exponent with
    | None => None
    | Some e =>
        let x := f64_of_scaled (digits (whole ++ frac)) (e - Z.of_nat (length frac)) in
        Some (if (negative : bool) then f_neg binary64 x else x)
    end.

Definition f64_is_finite (x : f64) : bool :=
  match sf_of_bits binary64 x with
  | SpecFloat.S754_nan | SpecFloat.S754_infinity _ => false
  | _ => true
  end.

(** Text the lexer reads, of a number the standard library prints. *)
Definition of_bytes (b : bytes) : Text := map byte.unsigned b.

(** [translate_value]. A token that parses as an [f64] is ASCII, so the letters
    the code looks for are ASCII letters. *)
Definition translate_value (tok : Text) (out : Migration) : result Panic (Text * Migration) :=
  if bool_decide (to_lower tok = tx "null") then Ok (tx "NULL", out)
  else if match tok with c :: _ => (c =? QUOTE) || (c =? DQUOTE) | [] => false end then
    s ← decode_mysql_string tok; Ok (ciphra_string s, out)
  else
    match parse_i64 tok with
    | Some n => Ok (of_bytes (show_Z n), out)
    | None =>
        let real :=
          if existsb (λ c, is_ascii_alphabetic c && negb (c =? 101) && negb (c =? 69)) tok then None
          else match parse_f64 tok with Some x => if f64_is_finite x then Some x else None | None => None end in
        match real with
        | Some x => Ok (of_bytes (f64_show x), out)
        | None => Ok (ciphra_string tok, note (NKeptAsText tok) out)
        end
    end.

(** ** INSERT *)

Definition value_step (acc : list Text * Migration) (value : Text) : result Panic (list Text * Migration) :=
  '(v, out) ← translate_value (trim value) acc.2; Ok (acc.1 ++ [v], out).

(** A parenthesised group is one row; anything else between the commas is
    dropped. *)
Definition group_step (acc : list Text * Migration) (group : Text) : result Panic (list Text * Migration) :=
  let group := trim group in
  if bool_decide (head group = Some LPAREN) && bool_decide (list.last group = Some RPAREN) then
    let inner := take (length group - 2) (drop 1 group) in
    '(values, out) ← foldR value_step ([], acc.2) (top_level_split inner COMMA);
    Ok (acc.1 ++ [tx "(" ++ join (tx ", ") values ++ tx ")"], out)
  else Ok acc.

Definition insert_sql (table : Text) (cols : list Text) (tuples : list Text) : Text :=
  tx "INSERT INTO " ++ table ++ (if bool_decide (cols = []) then [] else tx " (" ++ join (tx ", ") cols ++ tx ")")
  ++ tx " VALUES " ++ join (tx ", ") tuples.

Definition translate_insert (stmt : Text) (out : Migration) : result Panic Migration :=
  into ← find_keyword stmt (tx "into");
  match into with
  | None => Ok (note NNoInto out)
  | Some pos =>
      match split_first_token (trim_start (drop (pos + 4) stmt)) with
      | None => Ok (note NNoTableName out)
      | Some (name_tok, rest) =>
          let name := unquote_ident name_tok in
          if negb (is_safe_ident name) then Ok (note (NUnsafeInsertTable name) out)
          else
            values ← find_keyword rest (tx "values");
            match values with
            | None => Ok (note (NNoValues name) out)
            | Some values_pos =>
                let head_text := trim (take values_pos rest) in
                let tail_text := trim (drop (values_pos + 6) rest) in
                let cols := if text_starts_with [LPAREN] head_text then paren_columns head_text else [] in
                match List.find (λ c, negb (is_safe_ident c)) cols with
                | Some bad => Ok (note (NUnsafeInsertColumn name bad) out)
                | None =>
                    '(tuples, out) ← foldR group_step ([], out) (top_level_split tail_text COMMA);
                    if bool_decide (tuples = []) then Ok out else Ok (emit (insert_sql name cols tuples) out)
                end
            end
      end
  end.

(** ** The dump *)

Definition leading_words (s : Text) (n : nat) : Text := join (tx " ") (take n (split_whitespace s)).

Definition translate_statement (out : Migration) (raw : Text) : result Panic Migration :=
  let stmt := trim raw in
  if bool_decide (stmt = []) then Ok out
  else
    let upper := to_upper (leading_words stmt 2) in
    if text_starts_with (tx "CREATE TABLE") upper then Ok (translate_create_table stmt out)
    else if starts_with_any upper ["INSERT INTO"; "INSERT IGNORE"; "REPLACE INTO"]%string then translate_insert stmt out
    else Ok (note (NSkippedStatement (leading_words stmt 2)) out).

Definition translate (dump : bytes) : result Panic Migration :=
  foldR translate_statement migration_default (split_statements dump).
