(* ===== verification/MigrateFacts.v ===== *)
(** * Statements the translation emits

    Whatever a dump holds, each emitted text is read by the lexer and the
    parser as the one statement it was built for: quoted values, identifiers
    and numbers from the dump cannot end it or start another. *)

From S2P Require Import Prelude Float SqlAst SqlLexer SqlParser SqlFacts SqlRoundtrip Migrate.

(** ** Text as UTF-8 *)

Lemma utf8_app s t : utf8 (s ++ t) = utf8 s ++ utf8 t.
Proof. unfold utf8. by rewrite map_app, concat_app. Qed.

Lemma utf8_char_ascii b : byte.unsigned b < 0x80 → utf8_char (byte.unsigned b) = [b].
Proof.
  intros Hb. unfold utf8_char. pose proof (byte.unsigned_range b). pose proof (byte.of_Z_unsigned b).
  destruct (Z.leb_spec 0 (byte.unsigned b)), (Z.ltb_spec (byte.unsigned b) 0x80); try lia. cbn. by f_equal.
Qed.

Lemma utf8_of_bytes b : Forall (λ c, byte.unsigned c < 0x80) b → utf8 (of_bytes b) = b.
Proof.
  unfold utf8, of_bytes. induction 1 as [|c b Hc Hb IH]; [done|]. cbn [map concat].
  rewrite utf8_char_ascii by done. cbn [app]. by rewrite IH.
Qed.

Lemma utf8_join sep parts : utf8 (join sep parts) = join (utf8 sep) (map utf8 parts).
Proof.
  induction parts as [|p [|q rest] IH]; [done|done|]. cbn [join map] in *. by rewrite !utf8_app, IH.
Qed.

(** A byte with its top bit set is not ASCII. *)
Lemma high_byte h y : Z.testbit h 7 = true → ∀ b, byte.unsigned b < 0x80 → byte.of_Z (Z.lor h y) ≠ b.
Proof.
  intros Hh b Hb E. apply (f_equal byte.unsigned) in E. rewrite byte.unsigned_of_Z in E. unfold byte.wrap in E.
  assert (Z.testbit (Z.lor h y mod 2 ^ 8) 7 = true) as Ht.
  { rewrite Z.mod_pow2_bits_low by lia. by rewrite Z.lor_spec, Hh. }
  rewrite E in Ht. pose proof (byte.unsigned_range b).
  rewrite (Z.bits_above_log2 (byte.unsigned b) 7) in Ht; [done|lia|].
  destruct (Z.eq_dec (byte.unsigned b) 0) as [->|]; [done|]. apply Z.log2_lt_pow2; lia.
Qed.

(** Only an ASCII character has an ASCII byte in its encoding. *)
Lemma utf8_char_no_quote c : c ≠ QUOTE → Forall (λ b, b ≠ quote) (utf8_char c).
Proof.
  intros Hc. assert (byte.unsigned quote < 0x80) as Hq by done.
  unfold utf8_char. destruct ((0 <=? c) && (c <? 0x80)) eqn:Hr.
  - apply andb_true_iff in Hr as [H1%Z.leb_le H2%Z.ltb_lt]. constructor; [|done].
    intros E. apply (f_equal byte.unsigned) in E. rewrite byte.unsigned_of_Z in E. unfold byte.wrap in E.
    rewrite Z.mod_small in E by lia. done.
  - repeat case_match; repeat constructor; by apply high_byte.
Qed.

Lemma escape_no_quote s t : Forall (λ b, b ≠ quote) s → escape_quotes (s ++ t) = s ++ escape_quotes t.
Proof. induction 1 as [|b s Hb Hs IH]; [done|]. cbn [app escape_quotes]. by rewrite decide_False, IH. Qed.

Lemma utf8_double_quotes s : utf8 (double_quotes s) = escape_quotes (utf8 s).
Proof.
  induction s as [|c s IH]; [done|]. cbn [double_quotes]. rewrite utf8_app, IH.
  change (utf8 (c :: s)) with (utf8_char c ++ utf8 s). destruct (Z.eqb_spec c QUOTE) as [->|Hc]; [done|].
  rewrite escape_no_quote by (by apply utf8_char_no_quote). by rewrite <- (app_nil_r (utf8_char c)) at 1.
Qed.

Lemma utf8_ciphra_string s : utf8 (ciphra_string s) = [quote] ++ escape_quotes (utf8 s) ++ [quote].
Proof. unfold ciphra_string. by rewrite !utf8_app, utf8_double_quotes. Qed.

(** ** Lexing that may meet an integer out of range *)

Definition overflows (s : bytes) : Prop :=
  ∃ ts b r ds, lex_to s ts (b :: r) ∧ lex_one b r = Err (IntOutOfRange ds).

Definition lexes (s : bytes) (ts : list Token) (rest : bytes) : Prop := lex_to s ts rest ∨ overflows s.

Lemma lexes_trans s ts s' ts' s'' us : us = ts ++ ts' → lexes s ts s' → lexes s' ts' s'' → lexes s us s''.
Proof.
  intros -> [H1|H1]; [|by right]. intros [H2|(us & b & r & ds & H2 & H3)]; [left; by eapply lex_to_app|].
  right. exists (ts ++ us), b, r, ds. split; [by eapply lex_to_app|done].
Qed.

Lemma tokenize_overflow s : overflows s → ∃ ds, tokenize s = Err (IntOutOfRange ds).
Proof.
  intros (ts & b & r & ds & Hto & Herr). exists ds. unfold tokenize.
  assert (H : ∀ s' ts', lex_to s ts' s' → s' = b :: r → ∀ fuel acc, (length s ≤ fuel)%nat →
    tokenize_loop fuel s acc = Err (IntOutOfRange ds)).
  { clear Hto. intros s' ts'. induction 1 as [s|b0 rest t s' ts' s'' Hone Hto IH]; intros Hs fuel acc Hf.
    - subst. destruct fuel as [|fuel]; [cbn in Hf; lia|]. cbn [tokenize_loop]. by rewrite Herr.
    - destruct fuel as [|fuel]; [cbn in Hf; lia|]. cbn [tokenize_loop]. rewrite Hone. result_simpl.
      pose proof (lex_one_good b0 rest) as Hg. rewrite Hone in Hg. destruct Hg as [Hl _].
      apply IH; [done|cbn in Hf; lia]. }
  by apply (H (b :: r) ts).
Qed.

(** ** Numbers *)

(** A sign, digits, and digits after a point. *)
Definition number_shape (b : bytes) : Prop :=
  ∃ (neg : bool) ip fp, b = (if neg then [Byte.x2d] else []) ++ ip ++ match fp with [] => [] | _ => Byte.x2e :: fp end
    ∧ ip ≠ [] ∧ Forall (λ c, is_ascii_digit c = true) ip ∧ Forall (λ c, is_ascii_digit c = true) fp.

Lemma digits_shape fuel n acc :
  Forall (λ c, is_ascii_digit c = true) acc →
  Forall (λ c, is_ascii_digit c = true) (dec_digits_fuel fuel n acc)
  ∧ (fuel ≠ 0%nat → dec_digits_fuel fuel n acc ≠ []).
Proof.
  revert n acc. induction fuel as [|fuel IH]; intros n acc Ha; [done|]. cbn [dec_digits_fuel].
  assert (Forall (λ c, is_ascii_digit c = true) (byte.of_Z (48 + n mod 10) :: acc)) as Ha'.
  { constructor; [|done]. apply digit_of_Z. apply Z.mod_pos_bound. lia. }
  destruct (n <? 10); [done|]. destruct (IH (n / 10) _ Ha') as [H1 H2]. split; [done|]. intros _.
  destruct fuel; [done|]. by apply H2.
Qed.

Lemma show_nat_shape n : Forall (λ c, is_ascii_digit c = true) (show_nat n) ∧ show_nat n ≠ [].
Proof. unfold show_nat. destruct (digits_shape (S (Z.to_nat (Z.log2 n))) n []) as [H1 H2]; [done|]. auto. Qed.

Lemma show_Z_shape n : number_shape (show_Z n).
Proof.
  unfold show_Z. destruct (n <? 0).
  - exists true, (show_nat (- n)), []. rewrite app_nil_r. destruct (show_nat_shape (- n)). by split_and!.
  - exists false, (show_nat n), []. rewrite app_nil_r. destruct (show_nat_shape n). by split_and!.
Qed.

Lemma zeros_digits n : Forall (λ c, is_ascii_digit c = true) (replicate n (byte.of_Z 48)).
Proof. by apply Forall_replicate. Qed.

Lemma show_decimal_shape (neg : bool) d k p : number_shape ((if neg then bs "-" else []) ++ show_decimal d k p).
Proof.
  unfold show_decimal. destruct (show_nat_shape d) as [Hd Hne].
  set (ds := show_nat d) in *. set (n := Z.of_nat (length ds)). set (q := p + (n - k)).
  destruct (Z.leb_spec n q).
  - exists neg, (ds ++ replicate (Z.to_nat (q - n)) (byte.of_Z 48)), []. rewrite app_nil_r. split_and!.
    + by destruct neg.
    + by destruct ds.
    + apply Forall_app; split; [done|apply zeros_digits].
    + done.
  - destruct (Z.ltb_spec 0 q) as [Hq|Hq].
    + exists neg, (take (Z.to_nat q) ds), (drop (Z.to_nat q) ds). split_and!.
      * assert (drop (Z.to_nat q) ds ≠ []) as Hdr.
        { intros E. apply (f_equal length) in E. rewrite length_drop in E. cbn [length] in E. unfold n in *. lia. }
        destruct (drop (Z.to_nat q) ds) eqn:E; [done|]. by destruct neg.
      * intros E. apply (f_equal length) in E. rewrite length_take in E. cbn [length] in E. unfold n in *. lia.
      * by apply Forall_take.
      * by apply Forall_drop.
    + exists neg, [Byte.x30], (replicate (Z.to_nat (- q)) (byte.of_Z 48) ++ ds). split_and!.
      * destruct (_ ++ ds) eqn:E; [by destruct (replicate _ _), ds|]. rewrite <- E. by destruct neg.
      * done.
      * by constructor.
      * apply Forall_app; split; [apply zeros_digits|done].
Qed.

Lemma f64_show_shape x : f64_is_finite x = true → number_shape (f64_show x).
Proof.
  unfold f64_is_finite, f64_show, f_show. destruct (sf_of_bits binary64 x) as [s|s| |s m e]; try done; intros _.
  - exists s, [Byte.x30], []. split_and!; [by destruct s|done|by constructor|done].
  - destruct (shortest _ _ _ _ _ _ _) as [d k]. apply show_decimal_shape.
Qed.

Lemma digit_not_minus b r : is_ascii_digit b = true → lex_to (Byte.x2d :: b :: r) [TMinus] (b :: r).
Proof. intros Hb. apply lex_minus. eauto. Qed.

(** Digits and a fraction: one unsigned token, or an integer out of range. *)
Definition unsigned_token (ip fp : bytes) : Token :=
  match fp with
  | [] => TInt (default 0 (SqlLexer.parse_i64 ip))
  | _ => TFloat (f64_of_decimal (digits_value (ip ++ fp)) (length fp))
  end.

Definition fraction (fp : bytes) : bytes := match fp with [] => [] | _ => Byte.x2e :: fp end.

Lemma lex_number_whole ip rest :
  take_while is_ascii_digit (ip ++ rest) = ip → drop_while is_ascii_digit (ip ++ rest) = rest → delimited rest →
  lex_number (ip ++ rest) = (n ← ok_or (IntOutOfRange ip) (SqlLexer.parse_i64 ip); Ok (TInt n, rest)).
Proof.
  intros Ht Hd Hr. unfold lex_number. rewrite Ht, Hd.
  destruct rest as [|dot [|d rest]]; try done. by destruct Hr as [-> | [-> | [-> | ->]]].
Qed.

Lemma lex_unsigned ip fp rest :
  ip ≠ [] → Forall (λ c, is_ascii_digit c = true) ip → Forall (λ c, is_ascii_digit c = true) fp → delimited rest →
  lexes (ip ++ fraction fp ++ rest) [unsigned_token ip fp] rest.
Proof.
  intros Hne Hip Hfp Hr. pose proof (proj2 (delimited_stop rest Hr)) as Hstop.
  destruct (take_while_app_stop is_ascii_digit ip (fraction fp ++ rest) Hip) as [Ht Hd]; [by destruct fp|].
  assert (Hone : ∃ b ip', ip = b :: ip' ∧ is_ascii_digit b = true).
  { destruct Hip as [|b ip' Hb]; [done|eauto]. }
  destruct Hone as (b & ip' & Heq & Hb). destruct fp as [|f fp]; cbn [fraction app] in *.
  - pose proof (lex_number_whole ip rest Ht Hd Hr) as Hn. rewrite Heq in Hn |- *.
    pose proof (lex_one_digit b (ip' ++ rest) Hb) as H1. change (b :: ip' ++ rest) with ((b :: ip') ++ rest) in H1.
    rewrite Hn in H1. cbn [unsigned_token]. destruct (SqlLexer.parse_i64 (b :: ip')) as [n|].
    + left. by apply lex_token.
    + right. exists [], b, (ip' ++ rest), (b :: ip'). split; [constructor|exact H1].
  - destruct (take_while_app_stop is_ascii_digit (f :: fp) rest Hfp Hstop) as [Ht' Hd'].
    apply list.Forall_cons in Hfp as [Hf _]. left.
    pose proof (lex_one_digit b (ip' ++ Byte.x2e :: (f :: fp) ++ rest) Hb) as H1.
    rewrite Heq in Ht, Hd |- *. change ((b :: ip') ++ Byte.x2e :: f :: fp ++ rest) with (b :: (ip' ++ Byte.x2e :: (f :: fp) ++ rest)).
    apply lex_token. rewrite H1. unfold lex_number.
    change (b :: ip' ++ Byte.x2e :: (f :: fp) ++ rest) with ((b :: ip') ++ Byte.x2e :: f :: fp ++ rest).
    rewrite Ht, Hd. cbn [app] in Ht', Hd' |- *. rewrite Ht', Hd', Hf. done.
Qed.

(** ** Pieces: text whose tokens one parser of the grammar reads *)

(** What may follow a list element. *)
Definition after_element (rest : list Token) : Prop :=
  rest = [] ∨ head rest = Some TComma ∨ head rest = Some TRParen.

Record piece {A} (p : nat → ParseM A) (s : bytes) (ts : list Token) (a : A) : Prop := {
  pc_lex : ∀ rest, delimited rest → lexes (s ++ rest) ts rest;
  pc_parse : ∀ n rest, (length ts ≤ n)%nat → after_element rest → p n (ts ++ rest) = Ok (a, rest);
}.

Definition value_piece (v : bytes) : Prop := ∃ ts l, piece literal v ts l.

Lemma literal_unsigned n ip fp rest : ∃ l, literal n (unsigned_token ip fp :: rest) = Ok (l, rest)
  ∧ ∀ n' rest', literal n' (unsigned_token ip fp :: rest') = Ok (l, rest').
Proof. destruct fp; eexists; by split. Qed.

Lemma literal_negated n ip fp rest : ∃ l, literal n (TMinus :: unsigned_token ip fp :: rest) = Ok (l, rest)
  ∧ ∀ n' rest', literal n' (TMinus :: unsigned_token ip fp :: rest') = Ok (l, rest').
Proof. destruct fp; eexists; by split. Qed.

Lemma number_piece b : number_shape b → value_piece b.
Proof.
  intros (neg & ip & fp & -> & Hne & Hip & Hfp). fold (fraction fp).
  assert (Hu : ∀ rest, delimited rest → lexes (ip ++ fraction fp ++ rest) [unsigned_token ip fp] rest)
    by (intros rest Hr; by apply lex_unsigned).
  destruct neg.
  - destruct (literal_negated 0 ip fp []) as (l & _ & Hl). exists [TMinus; unsigned_token ip fp], l. split; [|intros n rest _ _; apply Hl].
    intros rest Hr. cbn [app]. rewrite <- app_assoc.
    eapply (lexes_trans _ [TMinus]); [reflexivity| |by apply Hu].
    destruct Hip as [|c ip Hc]; [done|]. left. by apply digit_not_minus.
  - destruct (literal_unsigned 0 ip fp []) as (l & _ & Hl). exists [unsigned_token ip fp], l. split; [|intros n rest _ _; apply Hl].
    intros rest Hr. cbn [app]. rewrite <- app_assoc. by apply Hu.
Qed.

Lemma text_piece s : value_piece (utf8 (ciphra_string s)).
Proof.
  exists [TStr (utf8 s)], (LText (utf8 s)). split; [|done].
  intros rest Hr. left. rewrite utf8_ciphra_string. by apply lex_text.
Qed.

Lemma null_piece : value_piece (utf8 (tx "NULL")).
Proof. exists [TIdent (bs "null")], LNull. split; [|done]. intros rest Hr. left. by apply (lex_keyword "NULL"). Qed.

(** *** Lists of pieces *)

Lemma lex_comma rest : lex_to (Byte.x2c :: Byte.x20 :: rest) [TComma] rest.
Proof. apply (lex_to_trans _ [TComma] (Byte.x20 :: rest) []); [done|by apply lex_token|apply lex_space]. Qed.

Section pieces.
Context {A : Type} (p : nat → ParseM A).

Definition pieces (ss : list bytes) (tss : list (list Token)) (xs : list A) : Prop :=
  Forall3 (piece p) ss tss xs.

Lemma pieces_lex ss tss xs rest :
  pieces ss tss xs → ss ≠ [] → delimited rest →
  lexes (join (bs ", ") ss ++ rest) (join [TComma] tss) rest.
Proof.
  intros Hp Hne Hr. induction Hp as [|s ts x ss tss xs Hs Hp IH]; [done|].
  destruct Hp as [|s2 ts2 x2 ss tss xs Hs2 Hp]; [by apply (pc_lex _ _ _ _ Hs)|].
  cbn [join] in *. rewrite <- !app_assoc.
  eapply (lexes_trans _ ts); [done|apply (pc_lex _ _ _ _ Hs); cbn; auto|].
  eapply (lexes_trans _ [TComma]); [reflexivity|left; apply lex_comma|by apply IH].
Qed.

Lemma join_tokens ts tss : join [TComma] (ts :: tss) = ts ++ concat (map (cons TComma) tss).
Proof.
  revert ts. induction tss as [|ts' tss IH]; intros ts; [by rewrite app_nil_r|].
  change (join [TComma] (ts :: ts' :: tss)) with (ts ++ [TComma] ++ join [TComma] (ts' :: tss)). by rewrite IH.
Qed.

Lemma comma_loop_pieces m n acc ss tss xs rest :
  pieces ss tss xs → Forall (λ ts, length ts ≤ m)%nat tss → (length ss < n)%nat →
  rest = [] ∨ head rest = Some TRParen →
  comma_loop n (p m) acc (concat (map (cons TComma) tss) ++ rest) = Ok (acc ++ xs, rest).
Proof.
  intros Hp. revert n acc. induction Hp as [|s ts x ss tss xs Hs Hp IH]; intros n acc Hl Hn Hr;
    (destruct n as [|n]; [cbn in Hn; lia|]).
  - cbn [map concat app comma_loop]. rewrite app_nil_r. destruct Hr as [->|Hr]; [done|].
    destruct rest as [|t rest]; [done|]. by injection Hr as ->.
  - apply list.Forall_cons in Hl as [Hts Hl]. cbn [map concat comma_loop app]. rewrite <- app_assoc.
    unfold mbind, ParseM_bind, eat. rewrite bool_decide_true by done.
    cbn [tail]. rewrite (pc_parse _ _ _ _ Hs) by (done || by destruct tss, Hr as [->|Hr]; [left|right; right|right; left..]).
    rewrite IH by (done || (cbn in Hn; lia)). by rewrite <- app_assoc.
Qed.

Lemma comma_list_pieces m n ss tss xs rest :
  pieces ss tss xs → ss ≠ [] → Forall (λ ts, length ts ≤ m)%nat tss → (length ss ≤ n)%nat →
  rest = [] ∨ head rest = Some TRParen →
  comma_list n (p m) (join [TComma] tss ++ rest) = Ok (xs, rest).
Proof.
  intros Hp Hne Hl Hn Hr. destruct Hp as [|s ts x ss tss xs Hs Hp]; [done|].
  apply list.Forall_cons in Hl as [Hts Hl]. rewrite join_tokens, <- app_assoc. unfold comma_list, mbind, ParseM_bind.
  rewrite (pc_parse _ _ _ _ Hs) by (done || by destruct tss, Hr as [->|Hr]; [left|right; right|right; left..]).
  by apply (comma_loop_pieces m n [x] ss).
Qed.
End pieces.

(** *** Identifiers *)

Definition low (name : Text) : bytes := to_ascii_lowercase (utf8 name).

Lemma word_char c : is_ascii_alphanumeric c || (c =? 95) = true →
  utf8_char c = [byte.of_Z c] ∧ is_ident_char (byte.of_Z c) = true
  ∧ (is_digit c = false → is_ident_start (byte.of_Z c) = true).
Proof.
  unfold is_ascii_alphanumeric, is_ascii_alphabetic, is_ascii_upper, is_ascii_lower, is_digit. intros Hc.
  assert (0 <= c < 128) as Hr by lia.
  assert (byte.unsigned (byte.of_Z c) = c) as Hu.
  { rewrite byte.unsigned_of_Z. unfold byte.wrap. apply Z.mod_small. lia. }
  assert (bool_decide (byte.of_Z c = Byte.x5f) = (c =? 95)) as Hb.
  { destruct (Z.eqb_spec c 95) as [E95|Hne]; [by rewrite E95|]. apply bool_decide_eq_false. intros E.
    apply (f_equal byte.unsigned) in E. rewrite Hu in E. by apply Hne. }
  split_and!.
  - unfold utf8_char. destruct (Z.leb_spec 0 c), (Z.ltb_spec c 0x80); try lia. done.
  - unfold is_ident_char, is_lower, is_upper, is_ascii_digit. rewrite Hu, Hb. lia.
  - unfold is_ident_start, is_lower, is_upper. rewrite Hu, Hb. lia.
Qed.

Lemma safe_word name : is_safe_ident name = true →
  Forall (λ b, is_ident_char b = true) (utf8 name) ∧ ∃ c w, utf8 name = c :: w ∧ is_ident_start c = true.
Proof.
  destruct name as [|c name]; [done|]. cbn [is_safe_ident]. intros [Hc Hn]%andb_true_iff.
  change (utf8 (c :: name)) with (utf8_char c ++ utf8 name).
  assert (Hc' : is_ascii_alphanumeric c || (c =? 95) = true).
  { unfold is_ascii_alphanumeric. apply orb_true_iff in Hc as [-> | ->]; [done|]. by rewrite orb_true_r. }
  destruct (word_char c Hc') as (He & Hi & Hs). rewrite He. split.
  - constructor; [done|]. clear -Hn. induction name as [|d name IH]; [constructor|].
    cbn [forallb] in Hn. apply andb_true_iff in Hn as [Hd Hn]. change (utf8 (d :: name)) with (utf8_char d ++ utf8 name).
    destruct (word_char d Hd) as (-> & Hi & _). constructor; [done|]. by apply IH.
  - eexists _, _. split; [done|]. apply Hs. clear -Hc.
    unfold is_ascii_alphabetic, is_ascii_upper, is_ascii_lower, is_digit in *. lia.
Qed.

Lemma lex_safe name rest : is_safe_ident name = true → delimited rest →
  lex_to (utf8 name ++ rest) [TIdent (low name)] rest.
Proof. intros Hn Hr. destruct (safe_word name Hn) as [Hw Hs]. by apply lex_word. Qed.

Lemma ident_piece what name : is_safe_ident name = true →
  piece (λ _, identifier what) (utf8 name) [TIdent (low name)] (low name).
Proof. intros Hn. split; [|done]. intros rest Hr. left. by apply lex_safe. Qed.

(** *** Columns *)

Definition type_of (ty : Text) : DataType :=
  if bool_decide (ty = INT) then TyInt else if bool_decide (ty = REAL) then TyReal else TyText.

Definition known_type (ty : Text) : Prop := ty = INT ∨ ty = REAL ∨ ty = TEXT.

Definition wf_column (col : Text * Text) : Prop := is_safe_ident col.1 = true ∧ known_type col.2.

Definition imported_column (pk : option Text) (col : Text * Text) : ColumnDef :=
  mkColumnDef (low col.1) (type_of col.2) false (bool_decide (Some col.1 = pk)) false false.

Definition column_tokens (pk : option Text) (col : Text * Text) : list Token :=
  [TIdent (low col.1); TIdent (low col.2)] ++
  if bool_decide (Some col.1 = pk) then [TIdent (bs "primary"); TIdent (bs "key")] else [].

Lemma known_type_safe ty : known_type ty → is_safe_ident ty = true.
Proof. by intros [-> | [-> | ->]]. Qed.

Lemma lex_safe_space name rest ts s' : is_safe_ident name = true →
  lexes rest ts s' → lexes (utf8 name ++ Byte.x20 :: rest) (TIdent (low name) :: ts) s'.
Proof.
  intros Hn Hr. eapply (lexes_trans _ [TIdent (low name)]); [done|left; apply lex_safe; [done|by left]|].
  by eapply (lexes_trans _ []); [done|left; apply lex_space|].
Qed.

Lemma after_element_keyword (kw : string) rest : after_element rest → eat_keyword kw rest = Ok (false, rest).
Proof. intros [-> | [Hr|Hr]]; [done|..]; by destruct rest as [|[] rest]. Qed.

Lemma column_type_tokens ty rest : known_type ty → column_type (TIdent (low ty) :: rest) = Ok (type_of ty, rest).
Proof. by intros [-> | [-> | ->]]. Qed.

Lemma column_markers_stop n enc pri rest : after_element rest →
  column_markers (S n) enc pri rest = Ok ((enc, pri), rest).
Proof.
  intros Hr. cbn [column_markers]. unfold mbind, ParseM_bind.
  by rewrite !(after_element_keyword _ rest) by done.
Qed.

Lemma column_markers_primary n rest : after_element rest →
  column_markers (S (S n)) false false (TIdent (bs "primary") :: TIdent (bs "key") :: rest) = Ok ((false, true), rest).
Proof.
  intros Hr. change (column_markers (S (S n)) false false (TIdent (bs "primary") :: TIdent (bs "key") :: rest))
    with (column_markers (S n) false true rest). by apply column_markers_stop.
Qed.

Lemma column_piece pk col : wf_column col → piece column_def (utf8 (column_sql pk col)) (column_tokens pk col) (imported_column pk col).
Proof.
  destruct col as [name ty]. intros [Hn Ht]. cbn [fst snd] in Hn, Ht. unfold column_tokens, column_sql, imported_column.
  cbn [fst snd]. pose proof (known_type_safe ty Ht) as Hs. split.
  - intros rest Hr. case_bool_decide; rewrite !utf8_app, <- !app_assoc; cbn [app];
      change (utf8 (tx " ")) with [Byte.x20]; change (utf8 (tx " PRIMARY KEY")) with (bs " PRIMARY KEY"); cbn [app].
    + apply lex_safe_space; [done|]. apply (lex_safe_space ty (bs "PRIMARY KEY" ++ rest)); [done|].
      left. apply (lex_keyword_space "PRIMARY"); [done..|]. by apply (lex_keyword "KEY").
    + apply lex_safe_space; [done|]. left. by apply lex_safe.
  - intros n rest Hl Ha. cbn [app]. unfold column_def, identifier, keyword, mbind, ParseM_bind.
    cbn -[column_type column_markers bs]. rewrite column_type_tokens by done. case_bool_decide; cbn [app length] in *.
    + destruct n as [|[|n]]; try lia. by rewrite column_markers_primary.
    + destruct n as [|n]; [lia|]. by rewrite column_markers_stop.
Qed.

(** *** Rows *)

Lemma length_join_tokens tss : tss ≠ [] →
  Forall (λ ts, length ts ≤ length (join [TComma] tss))%nat tss ∧ (length tss ≤ S (length (join [TComma] tss)))%nat.
Proof.
  destruct tss as [|ts tss]; [done|]. intros _. rewrite join_tokens, length_app. revert ts.
  induction tss as [|ts' tss IH]; intros ts; [split; [constructor; [lia|done]|cbn; lia]|].
  destruct (IH ts') as [H1 H2]. cbn [map concat] in *. rewrite length_app. cbn [length] in *. split.
  - constructor; [lia|]. eapply list.Forall_impl; [exact H1|]. intros t Ht. cbn in Ht. lia.
  - lia.
Qed.

(** A parenthesised list, read by a parser that reads such lists. *)
Lemma lex_parens {A} (p : nat → ParseM A) ss tss xs rest :
  pieces p ss tss xs → ss ≠ [] →
  lexes (Byte.x28 :: join (bs ", ") ss ++ Byte.x29 :: rest) (TLParen :: join [TComma] tss ++ [TRParen]) rest.
Proof.
  intros Hp Hne. eapply (lexes_trans _ [TLParen]); [reflexivity|left; apply lex_open|].
  eapply (lexes_trans _ (join [TComma] tss)); [reflexivity|apply (pieces_lex p ss tss xs); [done|done|cbn; auto]|].
  left. apply lex_close.
Qed.

Lemma pieces_parse {A} (p : nat → ParseM A) ss tss xs n rest :
  pieces p ss tss xs → ss ≠ [] → (S (length (join [TComma] tss)) ≤ n)%nat →
  rest = [] ∨ head rest = Some TRParen →
  comma_list n (p n) (join [TComma] tss ++ rest) = Ok (xs, rest).
Proof.
  intros Hp Hne Hn Hr. pose proof (Forall3_length_lm _ _ _ _ Hp) as Hl.
  assert (Htne : tss ≠ []) by (by intros ->; destruct ss).
  destruct (length_join_tokens tss Htne) as [H1 H2].
  apply (comma_list_pieces p n n ss); [done|done| |lia|done].
  eapply list.Forall_impl; [exact H1|]. intros t Ht. cbn in Ht. lia.
Qed.

Lemma gather_pieces {A} (p : nat → ParseM A) ss :
  Forall (λ s, ∃ ts x, piece p s ts x) ss → ∃ tss xs, pieces p ss tss xs.
Proof.
  induction 1 as [|s ss (ts & x & Hs) Hss (tss & xs & IH)]; [exists [], []; constructor|].
  exists (ts :: tss), (x :: xs). by constructor.
Qed.

Definition tuple_sql (values : list Text) : Text := tx "(" ++ join (tx ", ") values ++ tx ")".

Lemma tuple_piece values : values ≠ [] → Forall (λ v, value_piece (utf8 v)) values →
  ∃ ts row, piece value_tuple (utf8 (tuple_sql values)) ts row.
Proof.
  intros Hne Hv. destruct (gather_pieces literal (map utf8 values)) as (tss & row & Hp).
  { apply list.Forall_forall. intros s (v & -> & Hin)%list_elem_of_fmap. rewrite list.Forall_forall in Hv. by apply Hv. }
  assert (Hne' : map utf8 values ≠ []) by (by destruct values).
  exists (TLParen :: join [TComma] tss ++ [TRParen]), row. split.
  - intros rest Hr. unfold tuple_sql. rewrite !utf8_app, utf8_join, <- !app_assoc.
    apply (lex_parens literal (map utf8 values) tss row rest Hp Hne').
  - intros n rest Hn Ha. cbn [length] in Hn. rewrite length_app in Hn. cbn [length] in Hn.
    cbn [app]. rewrite <- app_assoc. unfold value_tuple, expect, mbind, ParseM_bind, eat. cbn [head tail].
    rewrite bool_decide_true by done.
    change (mret (M := ParseM) () (join [TComma] tss ++ [TRParen] ++ rest)) with
      (Ok (E := ParseError) ((), join [TComma] tss ++ [TRParen] ++ rest)). cbn iota beta.
    rewrite (pieces_parse literal _ _ _ n _ Hp Hne') by (lia || by right). done.
Qed.

(** *** Statements *)

Lemma parse_single s ts st :
  lexes s ts [] → ts ≠ [] → head ts ≠ Some TSemi →
  (∀ n, (S (length ts) < n)%nat → statement n ts = Ok (st, [])) →
  parse_statements s = Ok [st] ∨ ∃ ds, parse_statements s = Err (IntOutOfRange ds).
Proof.
  intros [Hl|Ho] Hne Hs Hst; [left|right]; unfold parse_statements.
  - rewrite (lex_to_tokenize _ _ Hl). result_simpl. unfold parser_fuel.
    replace (5 * length ts + 10)%nat with (S (S (5 * length ts + 8))) by lia.
    assert (Hskip : skip_semis ts = ts) by (by destruct ts as [|[] ts]).
    cbn [statements_loop]. rewrite Hskip, bool_decide_false by done.
    rewrite Hst by lia. result_simpl. done.
  - destruct (tokenize_overflow s Ho) as [ds ->]. by exists ds.
Qed.

Lemma lexes_keyword_space (kw : string) low rest ts s' :
  low = to_ascii_lowercase (bs kw) →
  forallb is_ident_char (bs kw) = true → match bs kw with [] => false | c :: _ => is_ident_start c end = true →
  lexes rest ts s' → lexes (bs kw ++ Byte.x20 :: rest) (TIdent low :: ts) s'.
Proof.
  intros H1 H2 H3 Hr. eapply (lexes_trans _ [TIdent low]); [reflexivity| |exact Hr].
  left. apply (lex_keyword_space kw); [done..|constructor].
Qed.

Definition reads_as (s : Text) (st : Statement) : Prop :=
  parse_statements (utf8 s) = Ok [st] ∨ ∃ ds, parse_statements (utf8 s) = Err (IntOutOfRange ds).

Lemma create_table_reads table pk cols :
  is_safe_ident table = true → cols ≠ [] → Forall wf_column cols →
  reads_as (create_table_sql table pk cols) (CreateTable (low table) (map (imported_column pk) cols)).
Proof.
  intros Ht Hne Hc.
  assert (Hp : pieces column_def (map utf8 (map (column_sql pk) cols)) (map (column_tokens pk) cols) (map (imported_column pk) cols)).
  { clear Hne. induction Hc as [|c cols Hc Hcs IH]; [constructor|]. constructor; [by apply column_piece|done]. }
  assert (Hne' : map utf8 (map (column_sql pk) cols) ≠ []) by (by destruct cols).
  apply (parse_single _ (TIdent (bs "create") :: TIdent (bs "table") :: TIdent (low table) ::
    TLParen :: join [TComma] (map (column_tokens pk) cols) ++ [TRParen])); [|done|done|].
  - unfold create_table_sql. rewrite !utf8_app, utf8_join.
    apply (lexes_keyword_space "CREATE"); [done..|]. apply (lexes_keyword_space "TABLE"); [done..|].
    apply lex_safe_space; [done|]. by apply (lex_parens column_def _ _ (map (imported_column pk) cols)).
  - intros [|n] Hn; [lia|]. cbn [length] in Hn. rewrite length_app in Hn.
    change (statement (S n) (TIdent (bs "create") :: TIdent (bs "table") :: TIdent (low table) ::
      TLParen :: join [TComma] (map (column_tokens pk) cols) ++ [TRParen]))
      with ((columns ← comma_list n (column_def n); _ ← expect TRParen; mret (CreateTable (low table) columns))
              (join [TComma] (map (column_tokens pk) cols) ++ [TRParen])).
    unfold mbind at 1, ParseM_bind at 1.
    by rewrite (pieces_parse column_def _ _ _ n [TRParen] Hp Hne') by (lia || by right).
Qed.

Lemma create_index_reads table col :
  is_safe_ident table = true → is_safe_ident col = true →
  reads_as (create_index_sql table col) (CreateIndex (low table) (low col) false).
Proof.
  intros Ht Hc.
  apply (parse_single _ [TIdent (bs "create"); TIdent (bs "index"); TIdent (bs "on"); TIdent (low table);
    TLParen; TIdent (low col); TRParen]); [|done|done|].
  - unfold create_index_sql. rewrite !utf8_app.
    apply (lexes_keyword_space "CREATE"); [done..|]. apply (lexes_keyword_space "INDEX"); [done..|].
    apply (lexes_keyword_space "ON"); [done..|]. apply lex_safe_space; [done|].
    eapply (lexes_trans _ [TLParen]); [reflexivity|left; apply lex_open|].
    eapply (lexes_trans _ [TIdent (low col)]); [reflexivity|left; apply lex_safe; [done|cbn; auto]|].
    left. apply lex_close.
  - intros [|n] Hn; [lia|done].
Qed.

Definition inserted_columns (cols : list Text) : option (list bytes) :=
  if bool_decide (cols = []) then None else Some (map low cols).

(** The optional column list and the keyword after it. *)
Definition columns_tokens (cols : list Text) : list Token :=
  if bool_decide (cols = []) then [] else TLParen :: join [TComma] (map (λ c, [TIdent (low c)]) cols) ++ [TRParen].

Definition columns_sql (cols : list Text) : Text :=
  if bool_decide (cols = []) then [] else tx " (" ++ join (tx ", ") cols ++ tx ")".

Lemma column_pieces cols : Forall (λ c, is_safe_ident c = true) cols →
  pieces (λ _, identifier (bs "column name")) (map utf8 cols) (map (λ c, [TIdent (low c)]) cols) (map low cols).
Proof. induction 1 as [|c cols Hc Hcs IH]; [constructor|]. constructor; [by apply ident_piece|done]. Qed.

Lemma lex_columns cols rest :
  Forall (λ c, is_safe_ident c = true) cols →
  lexes (utf8 (columns_sql cols) ++ Byte.x20 :: rest) (columns_tokens cols) rest.
Proof.
  intros Hc. unfold columns_sql, columns_tokens. case_bool_decide as Hcols; [left; apply lex_space|].
  rewrite !utf8_app, utf8_join, <- !app_assoc. change (utf8 (tx " (")) with [Byte.x20; Byte.x28]. cbn [app].
  eapply (lexes_trans _ []); [reflexivity|left; apply lex_space|].
  eapply (lexes_trans _ (TLParen :: join [TComma] (map (λ c, [TIdent (low c)]) cols) ++ [TRParen])).
  - symmetry. apply app_nil_r.
  - apply (lex_parens _ _ _ (map low cols) (Byte.x20 :: rest) (column_pieces cols Hc)). by destruct cols.
  - left. apply lex_space.
Qed.

Lemma parse_columns cols n rest :
  Forall (λ c, is_safe_ident c = true) cols → (S (length (columns_tokens cols)) ≤ n)%nat → head rest ≠ Some TLParen →
  insert_columns n (columns_tokens cols ++ rest) = Ok (inserted_columns cols, rest).
Proof.
  intros Hc Hn Hr. unfold inserted_columns, columns_tokens, insert_columns, mbind, ParseM_bind in *.
  case_bool_decide as Hcols.
  - unfold eat. cbn [app]. by rewrite bool_decide_false.
  - cbn [length app] in *. rewrite length_app in Hn. rewrite <- app_assoc. unfold eat at 1. rewrite bool_decide_true by done.
    cbn iota beta. cbn [tail app].
    by rewrite (pieces_parse _ _ _ _ n (TRParen :: rest) (column_pieces cols Hc)) by (lia || (by destruct cols) || by right).
Qed.

Lemma insert_reads table cols tuples :
  is_safe_ident table = true → Forall (λ c, is_safe_ident c = true) cols → tuples ≠ [] →
  Forall (λ t, ∃ values, t = tuple_sql values ∧ values ≠ [] ∧ Forall (λ v, value_piece (utf8 v)) values) tuples →
  ∃ rows, reads_as (insert_sql table cols tuples) (Insert (low table) (inserted_columns cols) rows).
Proof.
  intros Ht Hc Hne Htup.
  destruct (gather_pieces value_tuple (map utf8 tuples)) as (tss & rows & Hp).
  { apply list.Forall_forall. intros s (t & -> & Hin)%list_elem_of_fmap. rewrite list.Forall_forall in Htup.
    destruct (Htup t Hin) as (values & -> & Hv & Hvs). by apply tuple_piece. }
  assert (Hne' : map utf8 tuples ≠ []) by (by destruct tuples).
  pose proof (pieces_lex value_tuple _ _ rows [] Hp Hne' I) as Hrows. rewrite app_nil_r in Hrows.
  exists rows. unfold reads_as, insert_sql. fold (columns_sql cols).
  apply (parse_single _ (TIdent (bs "insert") :: TIdent (bs "into") :: TIdent (low table) ::
    columns_tokens cols ++ TIdent (bs "values") :: join [TComma] tss)); [|done|done|].
  - rewrite !utf8_app, utf8_join. apply (lexes_keyword_space "INSERT"); [done..|].
    apply (lexes_keyword_space "INTO"); [done..|].
    eapply (lexes_trans _ [TIdent (low table)]); [reflexivity|left; apply lex_safe; [done|]|].
    + unfold columns_sql. case_bool_decide; cbn; auto.
    + eapply (lexes_trans _ (columns_tokens cols)); [reflexivity|by apply lex_columns|].
      by apply (lexes_keyword_space "VALUES").
  - intros [|n] Hn; [lia|]. cbn [length] in Hn. rewrite length_app in Hn. cbn [length] in Hn.
    change (statement (S n) (TIdent (bs "insert") :: TIdent (bs "into") :: TIdent (low table) ::
      columns_tokens cols ++ TIdent (bs "values") :: join [TComma] tss))
      with ((columns ← insert_columns n; _ ← expect_keyword "values"; rows ← comma_list n (value_tuple n);
             mret (Insert (low table) columns rows))
            (columns_tokens cols ++ TIdent (bs "values") :: join [TComma] tss)).
    unfold mbind, ParseM_bind. rewrite parse_columns by (done || lia).
    assert (expect_keyword "values" (TIdent (bs "values") :: join [TComma] tss) = Ok ((), join [TComma] tss)) as -> by done.
    rewrite <- (app_nil_r (join [TComma] tss)).
    by rewrite (pieces_parse value_tuple _ _ _ n [] Hp Hne') by (lia || by left).
Qed.

(** ** What the translation emits *)

Definition importable (st : Statement) : Prop :=
  match st with
  | CreateTable _ cols => Forall (λ c, cd_encrypted c = false) cols
  | CreateIndex _ _ range => range = false
  | Insert _ _ _ => True
  | _ => False
  end.

Definition emitted (s : Text) : Prop := ∃ st, reads_as s st ∧ importable st.

Definition all_emitted (out : Migration) : Prop := Forall emitted (mg_statements out).

Lemma note_statements m out : mg_statements (note m out) = mg_statements out.
Proof. unfold note. by case_bool_decide. Qed.

Lemma all_emitted_note m out : all_emitted out → all_emitted (note m out).
Proof. unfold all_emitted. by rewrite note_statements. Qed.

Lemma all_emitted_emit s out : emitted s → all_emitted out → all_emitted (emit s out).
Proof. intros Hs Ho. apply Forall_app. split; [exact Ho|by constructor]. Qed.

#[local] Hint Resolve all_emitted_note all_emitted_emit : core.

Lemma foldR_invariant {E S A} (P : S → Prop) (Q : E → Prop) (f : S → A → result E S) l s :
  (∀ s x, P s → match f s x with Ok s' => P s' | Err e => Q e end) →
  P s → match foldR f s l with Ok s' => P s' | Err e => Q e end.
Proof.
  intros Hf. revert s. induction l as [|x l IH]; intros s Hs; [done|]. cbn [foldR].
  specialize (Hf s x Hs). destruct (f s x) as [s'|e]; [|done]. by apply IH.
Qed.

(** *** CREATE TABLE *)

Lemma map_type_known spec : known_type (map_type spec).1.
Proof. unfold map_type, known_type. repeat case_match; cbn; auto. Qed.

Definition parts_ok (tp : TableParts) : Prop := Forall wf_column (tp_columns tp) ∧ all_emitted (tp_out tp).

Lemma table_constraint_ok tp part upper : parts_ok tp → parts_ok (table_constraint tp part upper).
Proof.
  intros [Hc Ho]. unfold table_constraint, noted. repeat case_match; split; cbn [tp_columns tp_out]; auto.
Qed.

Lemma table_part_ok table tp part :
  parts_ok tp → match table_part table tp part with Ok tp' => parts_ok tp' | Err out => all_emitted out end.
Proof.
  intros Htp. pose proof Htp as [Hc Ho]. unfold table_part. case_bool_decide; [done|].
  destruct (text_starts_with _ _); [by split|]. destruct (starts_with_any _ _); [by apply table_constraint_ok|].
  destruct (split_first_token _) as [[name rest]|]; [|done].
  destruct (is_safe_ident (unquote_ident name)) eqn:Hs; cbn [negb]; [|by apply all_emitted_note].
  pose proof (map_type_known rest) as Hty. destruct (map_type rest) as [ty n]. split; cbn [tp_columns tp_out].
  - apply Forall_app. split; [done|]. constructor; [by split|done].
  - destruct n; auto.
Qed.

Lemma resolve_pk_ok table tp : parts_ok tp → all_emitted (resolve_pk table tp).2.
Proof. intros [_ Ho]. unfold resolve_pk. repeat case_match; cbn; auto. Qed.

Lemma emit_indexes_ok table pk columns cols seen out :
  is_safe_ident table = true → Forall wf_column columns → all_emitted out →
  all_emitted (emit_indexes table pk columns cols seen out).
Proof.
  intros Ht Hc. revert seen out. induction cols as [|col cols IH]; intros seen out Ho; [done|]. cbn [emit_indexes].
  case_bool_decide; [by apply IH|]. case_bool_decide; [by apply IH|]. apply IH.
  destruct (existsb _ columns) eqn:Hex; [|done]. apply all_emitted_emit; [|done].
  apply existsb_exists in Hex as ([name ty] & Hin & Hname%bool_decide_eq_true). cbn in Hname. subst name.
  rewrite list.Forall_forall in Hc. destruct (Hc _ (proj2 (list_elem_of_In _ _) Hin)) as [Hs _].
  eexists. split; [by apply create_index_reads|done].
Qed.

Lemma translate_create_table_ok stmt out : all_emitted out → all_emitted (translate_create_table stmt out).
Proof.
  intros Ho. unfold translate_create_table.
  destruct (find_top_level stmt LPAREN) as [open|]; [|auto].
  destruct (matching_paren stmt open) as [close|]; [|auto].
  set (table := match list.last _ with Some t => _ | None => _ end).
  destruct (is_safe_ident table) eqn:Ht; cbn [negb]; [|auto].
  set (parts := top_level_split _ _).
  pose proof (foldR_invariant parts_ok all_emitted (table_part table) parts (mkTableParts [] None [] [] out)
    (table_part_ok table)) as Hfold.
  destruct (foldR _ _ _) as [tp|out']; [|by apply Hfold; split; [constructor|]].
  destruct Hfold as [Hc Hout]; [by split; [constructor|]|]. case_bool_decide as Hne; [auto|].
  pose proof (resolve_pk_ok table tp (conj Hc Hout)) as Hpk. destruct (resolve_pk table tp) as [pk out']. cbn in Hpk.
  apply emit_indexes_ok; [done..|]. apply all_emitted_emit; [|done].
  eexists. split; [by apply create_table_reads|]. apply list.Forall_forall. by intros c (col & -> & _)%list_elem_of_fmap.
Qed.

(** *** INSERT *)

Lemma ascii_number b : number_shape b → Forall (λ c, byte.unsigned c < 0x80) b.
Proof.
  assert (Hd : ∀ l, Forall (λ c, is_ascii_digit c = true) l → Forall (λ c, byte.unsigned c < 0x80) l).
  { intros l Hl. eapply list.Forall_impl; [exact Hl|]. intros c. cbn beta. unfold is_ascii_digit. lia. }
  intros (neg & ip & fp & -> & _ & Hip & Hfp). rewrite !list.Forall_app. split_and!.
  - destruct neg; [by repeat constructor|done].
  - by apply Hd.
  - destruct fp; [done|]. constructor; [done|]. by apply Hd.
Qed.

Lemma printed_number b : number_shape b → value_piece (utf8 (of_bytes b)).
Proof. intros Hb. rewrite utf8_of_bytes by (by apply ascii_number). by apply number_piece. Qed.

#[local] Opaque f64_show.

Lemma translate_value_ok tok out v out' :
  translate_value tok out = Ok (v, out') → value_piece (utf8 v) ∧ mg_statements out' = mg_statements out.
Proof.
  unfold translate_value. case_bool_decide; [intros [= <- <-]; split; [apply null_piece|done]|].
  destruct (match tok with [] => _ | _ => _ end).
  { destruct (decode_mysql_string tok) as [s|]; [|done]. intros [= <- <-]. split; [apply text_piece|done]. }
  destruct (parse_i64 tok) as [n|]; [intros [= <- <-]; split; [apply printed_number, show_Z_shape|done]|].
  destruct (existsb _ tok); [intros [= <- <-]; split; [apply text_piece|apply note_statements]|].
  destruct (parse_f64 tok) as [x|]; [|intros [= <- <-]; split; [apply text_piece|apply note_statements]].
  destruct (f64_is_finite x) eqn:Hx; intros [= <- <-].
  - split; [by apply printed_number, f64_show_shape|done].
  - split; [apply text_piece|apply note_statements].
Qed.

Definition values_ok (out : Migration) (acc : list Text * Migration) : Prop :=
  Forall (λ v, value_piece (utf8 v)) acc.1 ∧ mg_statements acc.2 = mg_statements out.

Lemma value_step_ok out acc value : values_ok out acc →
  match value_step acc value with Ok acc' => values_ok out acc' ∧ acc'.1 ≠ [] | Err _ => True end.
Proof.
  intros [Hv Ho]. unfold value_step. destruct (translate_value (trim value) acc.2) as [[v out']|] eqn:Ht; [|done].
  apply translate_value_ok in Ht as [Hp Ho']. result_simpl. split; [|cbn; by destruct acc.1].
  split; cbn [fst snd]; [|congruence]. apply Forall_app. by repeat constructor.
Qed.

Lemma top_level_split_cons s sep : top_level_split s sep ≠ [].
Proof.
  unfold top_level_split. generalize 0, (@None Z), (@nil Z).
  assert (∀ n s, (length s < n)%nat → ∀ d q p, top_level_loop sep s d q p ≠ []) as H.
  { induction n as [|n IH]; intros t Hn d q p; [lia|]. destruct t as [|c t]; [done|]. cbn [length] in Hn.
    cbn [top_level_loop]. destruct q; repeat case_match; try done; apply IH; cbn in *; lia. }
  intros d q p. apply (H (S (length s))). lia.
Qed.

Lemma values_nonempty out l acc acc' :
  l ≠ [] → values_ok out acc → foldR value_step acc l = Ok acc' → values_ok out acc' ∧ acc'.1 ≠ [].
Proof.
  destruct l as [|x l]; [done|]. intros _ Hv. cbn [foldR].
  pose proof (value_step_ok out acc x Hv) as H1. destruct (value_step acc x) as [acc1|]; [|done]. result_simpl. intros Hf.
  pose proof (foldR_invariant (λ a, values_ok out a ∧ a.1 ≠ []) (λ _ : Panic, True) value_step l acc1) as Hinv.
  rewrite Hf in Hinv. apply Hinv; [|done]. intros s y [Hs _]. apply (value_step_ok out s y Hs).
Qed.

Definition rows_ok (out : Migration) (acc : list Text * Migration) : Prop :=
  Forall (λ t, ∃ values, t = tuple_sql values ∧ values ≠ [] ∧ Forall (λ v, value_piece (utf8 v)) values) acc.1
  ∧ mg_statements acc.2 = mg_statements out.

Lemma group_step_ok out acc group : rows_ok out acc →
  match group_step acc group with Ok acc' => rows_ok out acc' | Err _ => True end.
Proof.
  intros [Hr Ho]. unfold group_step. destruct (bool_decide _ && bool_decide _); [|by split].
  destruct (foldR _ _ _) as [[values out']|] eqn:Hf; [|done]. result_simpl.
  apply (values_nonempty acc.2) in Hf as [[Hv Hs] Hne]; [|apply top_level_split_cons|by split]. cbn [fst snd] in *.
  split; cbn [fst snd]; [|congruence]. apply Forall_app. split; [done|]. constructor; [|done]. by exists values.
Qed.

Lemma translate_insert_ok stmt out : all_emitted out →
  match translate_insert stmt out with Ok out' => all_emitted out' | Err _ => True end.
Proof.
  intros Ho. unfold translate_insert.
  destruct (find_keyword stmt _) as [[pos|]|]; result_simpl; [|auto|done].
  destruct (split_first_token _) as [[name rest]|]; [|auto].
  destruct (is_safe_ident (unquote_ident name)) eqn:Hn; cbn [negb]; [|auto].
  destruct (find_keyword rest _) as [[vpos|]|]; result_simpl; [|auto|done].
  set (cols := if text_starts_with _ _ then _ else _).
  destruct (List.find _ cols) as [bad|] eqn:Hfind; [auto|].
  assert (Hc : Forall (λ c, is_safe_ident c = true) cols).
  { apply list.Forall_forall. intros c Hin%list_elem_of_In. pose proof (List.find_none _ _ Hfind c Hin) as Hb.
    by apply negb_false_iff in Hb. }
  pose proof (foldR_invariant (rows_ok out) (λ _ : Panic, True) group_step
    (top_level_split (trim (drop (vpos + 6) rest)) COMMA) ([], out) (group_step_ok out)) as Hfold.
  destruct (foldR _ _ _) as [[tuples out']|]; [|done]. result_simpl.
  destruct Hfold as [Ht Hs]; [by split|]. cbn [fst snd] in *.
  assert (Ho' : all_emitted out') by (unfold all_emitted; by rewrite Hs).
  case_bool_decide as Hne; [done|]. apply all_emitted_emit; [|done].
  destruct (insert_reads (unquote_ident name) cols tuples Hn Hc Hne Ht) as [rows Hrows]. by eexists.
Qed.

Lemma translate_ok dump out : translate dump = Ok out → all_emitted out.
Proof.
  intros Ht.
  pose proof (foldR_invariant all_emitted (λ _ : Panic, True) translate_statement (split_statements dump) migration_default) as Hf.
  unfold translate in Ht. rewrite Ht in Hf. apply Hf; [|by constructor]. intros m raw Hm. unfold translate_statement.
  case_bool_decide; [done|]. destruct (text_starts_with _ _); [by apply translate_create_table_ok|].
  destruct (starts_with_any _ _); [by apply translate_insert_ok|]. by apply all_emitted_note.
Qed.

(** C34: Every statement a dump is translated to is read by the parser as exactly
    one statement, a CREATE TABLE (without encrypted columns), a CREATE INDEX
    or an INSERT, unless one of its numbers is out of the lexer's range, when
    it is refused: no name or value of the dump injects anything. *)
Theorem migration_injection_free dump out s :
  translate dump = Ok out → s ∈ mg_statements out →
  (∃ st, parse_statements (utf8 s) = Ok [st] ∧ importable st)
  ∨ ∃ ds, parse_statements (utf8 s) = Err (IntOutOfRange ds).
Proof.
  intros Ht Hs. apply translate_ok in Ht. unfold all_emitted in Ht. rewrite list.Forall_forall in Ht.
  destruct (Ht s Hs) as (st & [Hst|Hst] & Hi); [left|by right]. by exists st.
Qed.

Definition hostile_dump : bytes :=
  bs "INSERT INTO `t` (a) VALUES ('x''); DROP TABLE t; --',1); INSERT INTO `t`; DROP TABLE `u` VALUES (1);".

Lemma migration_injection_free_witness : ∃ out s,
  translate hostile_dump = Ok out ∧ s ∈ mg_statements out
  ∧ ((∃ st, parse_statements (utf8 s) = Ok [st] ∧ importable st)
     ∨ ∃ ds, parse_statements (utf8 s) = Err (IntOutOfRange ds)).
Proof.
  assert (Hok : match translate hostile_dump with
    | Ok out => match mg_statements out with [] => false | _ => true end | Err _ => false end = true) by (vm_compute; reflexivity).
  destruct (translate hostile_dump) as [out|] eqn:Ht; [|discriminate Hok].
  destruct (mg_statements out) as [|s rest] eqn:Hs; [discriminate Hok|].
  assert (Hin : s ∈ mg_statements out) by (rewrite Hs; apply list_elem_of_here).
  exists out, s. split; [exact eq_refl|]. split; [exact Hin|].
  apply (migration_injection_free hostile_dump out s Ht Hin).
Defined.

(** ** Where the translation goes wrong *)

(** Text in quotes loses its encoding: each byte becomes a character. *)
Lemma quoted_text_mangled :
  map utf8 (split_statements (bs "'" ++ utf8 [233] ++ bs "'")) = [bs "'" ++ utf8 [195; 169] ++ bs "'"].
Proof. vm_compute. reflexivity. Qed.

(** An unclosed quote at the end of a dump is a panic. *)
Lemma unclosed_quote_panics : translate (bs "INSERT INTO t VALUES (1, ')") = Err SliceBounds.
Proof. vm_compute. reflexivity. Qed.

(** So is a character outside ASCII before VALUES. *)
Lemma keyword_search_panics : translate (bs "INSERT INTO t " ++ utf8 [233] ++ bs " VALUES (1)") = Err CharBoundary.
Proof. vm_compute. reflexivity. Qed.

(** The smallest INT is translated to text the lexer refuses. *)
Lemma smallest_int_refused :
  match translate (bs "INSERT INTO t VALUES (-9223372036854775808)") with
  | Ok out => map (λ s, parse_statements (utf8 s)) (mg_statements out) = [Err (IntOutOfRange (bs "9223372036854775808"))]
  | Err _ => False
  end.
Proof. vm_compute. reflexivity. Qed.
