(* ===== verification/Values.v ===== *)
(** * Values and errors of the engine ([ciphra-engine/src/lib.rs])

    [Value] with its [Display], the engine's error type, and UTF-8
    validity ([str::from_utf8] of the Rust standard library).  An error
    message is kept as its format string and its arguments. *)

From S2P Require Import Prelude Storage Float Aead SqlAst SqlLexer.

Inductive Value : Type :=
| VNull
| VInt (n : Z)
| VReal (x : f64)
| VText (s : bytes)
| VVector (v : list f32).

#[export] Instance Value_eq_dec : EqDecision Value.
Proof. solve_decision. Defined.
#[export] Instance Value_inhabited : Inhabited Value := populate VNull.

(** [Display for Value]: unlike a literal's, text is not quoted. *)
Definition show_value (v : Value) : bytes :=
  match v with
  | VNull => bs "NULL"
  | VInt n => show_Z n
  | VReal x => f64_show x
  | VText s => s
  | VVector v => bs "[" ++ comma_sep (map f32_show v) ++ bs "]"
  end.

(** Derived [PartialEq]: IEEE equality on floats, so a NaN differs from
    itself and the two zeros are equal. *)
Fixpoint f32s_eqb (v w : list f32) : bool :=
  match v, w with
  | [], [] => true
  | x :: v', y :: w' => f32_eqb x y && f32s_eqb v' w'
  | _, _ => false
  end.

Definition value_eqb (a b : Value) : bool :=
  match a, b with
  | VNull, VNull => true
  | VInt m, VInt n => m =? n
  | VReal x, VReal y => f64_eqb x y
  | VText s, VText t => bool_decide (s = t)
  | VVector v, VVector w => f32s_eqb v w
  | _, _ => false
  end.

Inductive EngineError : Type :=
| EParse (e : ParseError)
| EStorage (e : StorageError)
| ECrypto (e : CryptoError)
| EBadPassphrase
| ESchema (fmt : string) (args : list bytes)
| EConstraint (fmt : string) (args : list bytes)
| EAudit (fmt : string) (args : list bytes)
| EType (fmt : string) (args : list bytes)
| ECorrupt (fmt : string) (args : list bytes)
| EIo.

(** ** UTF-8 *)

Definition in_range (lo hi : Z) (b : byte) : bool :=
  (lo <=? byte.unsigned b) && (byte.unsigned b <=? hi).

(** Well-formed UTF-8 by the table of byte ranges. *)
Fixpoint utf8_valid (s : bytes) : bool :=
  match s with
  | [] => true
  | a :: s1 =>
      if in_range 0 0x7F a then utf8_valid s1
      else match s1 with
      | [] => false
      | b :: s2 =>
          if in_range 0xC2 0xDF a then in_range 0x80 0xBF b && utf8_valid s2
          else match s2 with
          | [] => false
          | c :: s3 =>
              if in_range 0xE0 0xEF a then
                in_range (if byte.unsigned a =? 0xE0 then 0xA0 else 0x80)
                         (if byte.unsigned a =? 0xED then 0x9F else 0xBF) b
                && in_range 0x80 0xBF c && utf8_valid s3
              else match s3 with
              | [] => false
              | d :: s4 =>
                  in_range 0xF0 0xF4 a
                  && in_range (if byte.unsigned a =? 0xF0 then 0x90 else 0x80)
                              (if byte.unsigned a =? 0xF4 then 0x8F else 0xBF) b
                  && in_range 0x80 0xBF c && in_range 0x80 0xBF d && utf8_valid s4
              end
          end
      end
  end.

Example utf8_accents : utf8_valid [Byte.x68; Byte.xc3; Byte.xa9; Byte.xe2; Byte.x82; Byte.xac] = true.
Proof. reflexivity. Qed.
Example utf8_surrogate : utf8_valid [Byte.xed; Byte.xa0; Byte.x80] = false.
Proof. reflexivity. Qed.

(** ** Well-formed values: what a [Value] of the program can hold *)

Definition wf_value (v : Value) : Prop :=
  match v with
  | VNull => True
  | VInt n => in_i64 n
  | VReal x => in_u 64 x
  | VText s => utf8_valid s = true
  | VVector v => Forall (in_u 32) v
  end.
