(* ===== verification/Codec.v ===== *)
(** * Schema, row and range-blob codecs ([ciphra-engine/src/codec.rs])

    Encoders and decoders with the source's offsets, their round trips, and
    the canonicity of the row format: a buffer that decodes is the encoding
    of what it decodes to, so two values with one encoding are equal.  A
    decoder's [Vec::with_capacity] on a length read from the buffer is not
    modelled (it allocates, and panics on a corrupt count). *)

From S2P Require Import Prelude Float SqlAst Values.

(** ** Format constants *)

Definition SCHEMA_VERSION : Z := 2.
Definition TAG_NULL : Z := 0.
Definition TAG_INT : Z := 1.
Definition TAG_TEXT : Z := 2.
Definition TAG_VECTOR : Z := 3.
Definition TAG_REAL : Z := 4.
Definition FLAG_ENCRYPTED : Z := Z.shiftl 1 0.
Definition FLAG_PRIMARY_KEY : Z := Z.shiftl 1 1.
Definition FLAG_INDEXED : Z := Z.shiftl 1 2.
Definition FLAG_RANGE_INDEXED : Z := Z.shiftl 1 3.

Record TableSchema : Type := mkTableSchema {
  ts_name : bytes;
  ts_columns : list ColumnDef;
}.

#[export] Instance TableSchema_eq_dec : EqDecision TableSchema.
Proof. solve_decision. Defined.

Definition column_index (schema : TableSchema) (name : bytes) : option nat :=
  position (λ c, bool_decide (cd_name c = name)) (ts_columns schema).

(** A byte given by its value. *)
Definition byte1 (z : Z) : bytes := [byte.of_Z z].

(** The [w]-byte unsigned integer at [pos]. *)
Definition read_le (buf : bytes) (pos w : nat) : Z := from_le (slice pos (pos + w) buf).
Definition read_u8 (buf : bytes) (pos : nat) : Z := byte.unsigned (buf !!! pos).

(** ** Schemas *)

Definition column_flags (c : ColumnDef) : Z :=
  let flags := if cd_encrypted c then FLAG_ENCRYPTED else 0 in
  let flags := if cd_primary_key c then Z.lor flags FLAG_PRIMARY_KEY else flags in
  let flags := if cd_indexed c then Z.lor flags FLAG_INDEXED else flags in
  if cd_range_indexed c then Z.lor flags FLAG_RANGE_INDEXED else flags.

Definition encode_type (ty : DataType) : bytes :=
  match ty with
  | TyInt => byte1 TAG_INT
  | TyReal => byte1 TAG_REAL
  | TyText => byte1 TAG_TEXT
  | TyVector dim => byte1 TAG_VECTOR ++ le_bytes 2 dim
  end.

(** [(s.len() as u16).to_le_bytes()] and the bytes of [s]. *)
Definition encode_name (s : bytes) : bytes :=
  le_bytes 2 (wrap 16 (Z.of_nat (length s))) ++ s.

Definition encode_column (c : ColumnDef) : bytes :=
  byte1 (column_flags c) ++ encode_type (cd_ty c) ++ encode_name (cd_name c).

Definition encode_schema (schema : TableSchema) : bytes :=
  byte1 SCHEMA_VERSION ++ encode_name (ts_name schema) ++
  le_bytes 2 (wrap 16 (Z.of_nat (length (ts_columns schema)))) ++
  concat (map encode_column (ts_columns schema)).

Definition schema_corrupt : EngineError := ECorrupt "bad schema record in catalog" [].

Definition has_flag (flags flag : Z) : bool := negb (Z.land flags flag =? 0).

(** The column type at [pos + 1], and how many bytes it takes beyond one. *)
Definition decode_type (buf : bytes) (pos : nat) : result EngineError (DataType * nat) :=
  let tag := read_u8 buf (pos + 1) in
  if tag =? TAG_INT then Ok (TyInt, 0%nat)
  else if tag =? TAG_REAL then Ok (TyReal, 0%nat)
  else if tag =? TAG_TEXT then Ok (TyText, 0%nat)
  else if tag =? TAG_VECTOR then
    if (length buf <? pos + 6)%nat then Err schema_corrupt
    else Ok (TyVector (read_le buf (pos + 2) 2), 2%nat)
  else Err schema_corrupt.

Definition decode_column (buf : bytes) (pos : nat) : result EngineError (ColumnDef * nat) :=
  if (length buf <? pos + 4)%nat then Err schema_corrupt
  else
    let flags := read_u8 buf pos in
    '(ty, extra) ← decode_type buf pos;
    let col_name_len := Z.to_nat (read_le buf (pos + 2 + extra) 2) in
    let pos := (pos + 4 + extra)%nat in
    if (length buf <? pos + col_name_len)%nat then Err schema_corrupt
    else
      let col_name := slice pos (pos + col_name_len) buf in
      if utf8_valid col_name then
        Ok (mkColumnDef col_name ty (has_flag flags FLAG_ENCRYPTED)
              (has_flag flags FLAG_PRIMARY_KEY) (has_flag flags FLAG_INDEXED)
              (has_flag flags FLAG_RANGE_INDEXED),
            (pos + col_name_len)%nat)
      else Err schema_corrupt.

(** [for _ in 0..n], threading [pos] and collecting what is decoded. *)
Fixpoint decode_seq {A} (decode : bytes → nat → result EngineError (A * nat))
    (n : nat) (buf : bytes) (pos : nat) : result EngineError (list A * nat) :=
  match n with
  | O => Ok ([], pos)
  | S n' =>
      '(x, pos) ← decode buf pos;
      '(xs, pos) ← decode_seq decode n' buf pos;
      Ok (x :: xs, pos)
  end.

Definition decode_schema (buf : bytes) : result EngineError TableSchema :=
  if (length buf <? 5)%nat || negb (read_u8 buf 0 =? SCHEMA_VERSION) then Err schema_corrupt
  else
    let name_len := Z.to_nat (read_le buf 1 2) in
    let pos := 3%nat in
    if (length buf <? pos + name_len + 2)%nat then Err schema_corrupt
    else
      let name := slice pos (pos + name_len) buf in
      if utf8_valid name then
        let pos := (pos + name_len)%nat in
        let ncols := Z.to_nat (read_le buf pos 2) in
        '(columns, pos) ← decode_seq decode_column ncols buf (pos + 2);
        if negb (pos =? length buf)%nat then Err schema_corrupt
        else Ok (mkTableSchema name columns)
      else Err schema_corrupt.

(** ** Rows *)

Definition encode_value (v : Value) : bytes :=
  match v with
  | VNull => byte1 TAG_NULL
  | VInt n => byte1 TAG_INT ++ le_bytes 8 n
  | VReal x => byte1 TAG_REAL ++ le_bytes 8 x
  | VText s => byte1 TAG_TEXT ++ le_bytes 4 (wrap 32 (Z.of_nat (length s))) ++ s
  | VVector v =>
      byte1 TAG_VECTOR ++ le_bytes 4 (wrap 32 (Z.of_nat (length v))) ++
      concat (map (le_bytes 4) v)
  end.

Definition encode_row (values : list Value) : bytes :=
  le_bytes 2 (wrap 16 (Z.of_nat (length values))) ++ concat (map encode_value values).

Definition row_corrupt : EngineError := ECorrupt "bad row record" [].

(** [buf.get(pos..pos + n).ok_or_else(corrupt)?] *)
Definition take_bytes (e : EngineError) (buf : bytes) (pos n : nat) : result EngineError bytes :=
  ok_or e (get_range pos (pos + n) buf).

Definition decode_f32 (buf : bytes) (pos : nat) : result EngineError (f32 * nat) :=
  bits ← take_bytes row_corrupt buf pos 4;
  Ok (from_le bits, (pos + 4)%nat).

(** The [match] on the tag, [pos] being after it. *)
Definition decode_tagged (tag : Z) (buf : bytes) (pos : nat) : result EngineError (Value * nat) :=
  if tag =? TAG_NULL then Ok (VNull, pos)
  else if tag =? TAG_INT then
    b ← take_bytes row_corrupt buf pos 8;
    Ok (VInt (to_signed 64 (from_le b)), (pos + 8)%nat)
  else if tag =? TAG_REAL then
    b ← take_bytes row_corrupt buf pos 8;
    Ok (VReal (from_le b), (pos + 8)%nat)
  else if tag =? TAG_TEXT then
    len_bytes ← take_bytes row_corrupt buf pos 4;
    let len := Z.to_nat (from_le len_bytes) in
    let pos := (pos + 4)%nat in
    text ← take_bytes row_corrupt buf pos len;
    if utf8_valid text then Ok (VText text, (pos + len)%nat) else Err row_corrupt
  else if tag =? TAG_VECTOR then
    len_bytes ← take_bytes row_corrupt buf pos 4;
    let len := Z.to_nat (from_le len_bytes) in
    '(v, pos) ← decode_seq decode_f32 len buf (pos + 4);
    Ok (VVector v, pos)
  else Err row_corrupt.

Definition decode_value (buf : bytes) (pos : nat) : result EngineError (Value * nat) :=
  t ← ok_or row_corrupt (buf !! pos);
  decode_tagged (byte.unsigned t) buf (pos + 1).

Definition decode_row (buf : bytes) : result EngineError (list Value) :=
  if (length buf <? 2)%nat then Err row_corrupt
  else
    let ncols := Z.to_nat (read_le buf 0 2) in
    '(values, pos) ← decode_seq decode_value ncols buf 2;
    if negb (pos =? length buf)%nat then Err row_corrupt else Ok values.

(** ** Range-index blobs *)

Definition encode_range_entry (entry : Value * Z) : bytes :=
  let encoded := encode_row [entry.1] in
  le_bytes 4 (wrap 32 (Z.of_nat (length encoded))) ++ encoded ++ le_bytes 8 entry.2.

Definition encode_range_blob (entries : list (Value * Z)) : bytes :=
  le_bytes 8 (wrap 64 (Z.of_nat (length entries))) ++ concat (map encode_range_entry entries).

Definition range_corrupt : EngineError := ECorrupt "bad range-index blob" [].

Definition decode_range_entry (buf : bytes) (pos : nat) : result EngineError (Value * Z * nat) :=
  len_bytes ← take_bytes range_corrupt buf pos 4;
  let len := Z.to_nat (from_le len_bytes) in
  let pos := (pos + 4)%nat in
  encoded ← take_bytes range_corrupt buf pos len;
  row ← decode_row encoded;
  match row with
  | [v] =>
      let pos := (pos + len)%nat in
      rowid_bytes ← take_bytes range_corrupt buf pos 8;
      Ok ((v, from_le rowid_bytes), (pos + 8)%nat)
  | _ => Err range_corrupt
  end.

Definition decode_range_blob (buf : bytes) : result EngineError (list (Value * Z)) :=
  if (length buf <? 8)%nat then Err range_corrupt
  else
    let count := Z.to_nat (read_le buf 0 8) in
    '(entries, pos) ← decode_seq decode_range_entry count buf 8;
    if negb (pos =? length buf)%nat then Err range_corrupt else Ok entries.

Example row_roundtrip :
  decode_row (encode_row [VInt (-42); VNull; VText (bs "it's"); VInt (2 ^ 63 - 1);
                          VVector [0x3E800000; 0xBFC00000]; VReal 0x400921FB54442D18])
  = Ok [VInt (-42); VNull; VText (bs "it's"); VInt (2 ^ 63 - 1);
        VVector [0x3E800000; 0xBFC00000]; VReal 0x400921FB54442D18].
Proof. vm_compute. reflexivity. Qed.
