(* ===== verification/CodecFacts.v ===== *)
(** * Facts about the codecs

    Two interfaces: [Decodes enc dec wf] (a decoder placed anywhere in a
    buffer reads back what the encoder wrote there) and [Canonical enc dec
    wf] (what a decoder accepts is exactly the encoding of what it
    returns).  Sequences lift both; rows and range blobs have both, schemas
    the first. *)

From S2P Require Import Prelude Float SqlAst Values Codec.

Abbreviation decoder A := (bytes → nat → result EngineError (A * nat)).

Class Decodes {A} (enc : A → bytes) (dec : decoder A) (wf : A → Prop) : Prop :=
  decodes : ∀ x pre post, wf x →
    dec (pre ++ enc x ++ post) (length pre) = Ok (x, (length pre + length (enc x))%nat).

Class Canonical {A} (enc : A → bytes) (dec : decoder A) (wf : A → Prop) : Prop :=
  canonical : ∀ buf pos x pos', dec buf pos = Ok (x, pos') → (pos ≤ length buf)%nat →
    (pos ≤ pos')%nat ∧ (pos' ≤ length buf)%nat ∧ slice pos pos' buf = enc x ∧ wf x.

Section codec_seq.
Context {A} (enc : A → bytes) (dec : decoder A) (wf : A → Prop).

#[export] Instance decodes_seq `{!Decodes enc dec wf} (n : nat) :
  Decodes (λ xs, concat (map enc xs)) (decode_seq dec n) (λ xs, length xs = n ∧ Forall wf xs).
Proof.
  intros xs pre post [Hn Hxs]. revert n pre Hn. induction Hxs as [|x xs Hx Hxs IH]; intros [|n] pre Hn; try done.
  - cbn. by rewrite Nat.add_0_r.
  - cbn [map concat decode_seq]. rewrite <- app_assoc.
    rewrite (decodes (dec:=dec)) by done. result_simpl. rewrite app_assoc, <- length_app, IH by (by injection Hn).
    result_simpl. do 2 f_equal. len_simpl. lia.
Qed.

Lemma slice_cat (a b c : nat) (l : bytes) :
  (a ≤ b)%nat → (b ≤ c)%nat → (c ≤ length l)%nat → slice a c l = slice a b l ++ slice b c l.
Proof.
  intros Hab Hbc Hl. unfold slice.
  rewrite <- (take_drop (b - a) (take (c - a) (drop a l))). f_equal.
  - rewrite take_take. f_equal. lia.
  - rewrite skipn_firstn_comm, drop_drop. f_equal; [lia|f_equal; lia].
Qed.

#[export] Instance canonical_seq `{!Canonical enc dec wf} (n : nat) :
  Canonical (λ xs, concat (map enc xs)) (decode_seq dec n) (λ xs, length xs = n ∧ Forall wf xs).
Proof.
  intros buf. induction n as [|n IH]; intros pos xs pos' Hd Hpos; cbn in Hd.
  - injection Hd as <- <-. repeat split; [lia|done| |constructor].
    unfold slice. by rewrite Nat.sub_diag.
  - destruct (dec buf pos) as [[x p1]|] eqn:Hx; result_simpl; [|done].
    destruct (decode_seq dec n buf p1) as [[ys p2]|] eqn:Hys; result_simpl; [|done].
    injection Hd as <- <-. destruct (canonical _ _ _ _ Hx Hpos) as (H1 & H2 & H3 & H4).
    destruct (IH _ _ _ Hys H2) as (H5 & H6 & H7 & H8 & H9).
    repeat split; [lia|done| |by rewrite <- H8|by constructor].
    rewrite (slice_cat pos p1 p2) by done. cbn. by rewrite H3, H7.
Qed.

End codec_seq.

(** ** Reading fields *)

Lemma take_bytes_ok e (pre mid post : bytes) :
  take_bytes e (pre ++ mid ++ post) (length pre) (length mid) = Ok mid.
Proof. unfold take_bytes. by rewrite get_range_app_at. Qed.

Lemma take_bytes_inv e buf pos n b :
  take_bytes e buf pos n = Ok b →
  b = slice pos (pos + n) buf ∧ (pos + n ≤ length buf)%nat ∧ length b = n.
Proof.
  unfold take_bytes. destruct (get_range _ _ _) eqn:Hg; [|done]. intros [= <-].
  apply get_range_Some in Hg as (-> & _ & Hl). repeat split; [done|].
  rewrite length_slice by done. lia.
Qed.

(** The field of [n] bytes at an offset [k] after [pre]. *)
Lemma take_bytes_at e (pre mid post : bytes) (pos n : nat) :
  pos = length pre → n = length mid → take_bytes e (pre ++ mid ++ post) pos n = Ok mid.
Proof. intros -> ->. apply take_bytes_ok. Qed.

Lemma lookup_at {A} (pre post : list A) (x : A) (pos : nat) :
  pos = length pre → (pre ++ x :: post) !! pos = Some x.
Proof. intros ->. by rewrite list_lookup_middle. Qed.

Lemma byte1_unsigned z : in_u 8 z → byte.unsigned (byte.of_Z z) = z.
Proof. intros H. rewrite byte.unsigned_of_Z. by apply wrap_small. Qed.

Lemma from_le_wrap_len (w n : nat) :
  Z.of_nat n < 2 ^ (8 * Z.of_nat w) →
  Z.to_nat (from_le (le_bytes w (wrap (8 * Z.of_nat w) (Z.of_nat n)))) = n.
Proof.
  intros H. rewrite wrap_small by (split; lia). rewrite from_le_small by lia. lia.
Qed.

Lemma to_signed_mod n : in_i64 n → to_signed 64 (n mod 2 ^ 64) = n.
Proof.
  intros H. unfold in_i64 in H. unfold to_signed. change (64 - 1) with 63.
  destruct (Z.ltb_spec n 0).
  - assert (n mod 2 ^ 64 = n + 2 ^ 64) as -> by (symmetry; apply Z.mod_unique_pos with (-1); lia).
    destruct (Z.ltb_spec (n + 2 ^ 64) (2 ^ 63)); lia.
  - rewrite Z.mod_small by lia. destruct (Z.ltb_spec n (2 ^ 63)); lia.
Qed.

Lemma to_signed_range z : in_u 64 z → in_i64 (to_signed 64 z) ∧ to_signed 64 z mod 2 ^ 64 = z.
Proof.
  unfold in_u, to_signed, in_i64. change (64 - 1) with 63. intros Hz.
  destruct (Z.ltb_spec z (2 ^ 63)).
  - split; [lia|]. by rewrite Z.mod_small by lia.
  - split; [lia|]. symmetry. apply Z.mod_unique_pos with (-1); lia.
Qed.

Lemma to_signed_from_le n : in_i64 n → to_signed 64 (from_le (le_bytes 8 n)) = n.
Proof. intros H. rewrite from_le_bytes. by apply to_signed_mod. Qed.

Lemma le_bytes_to_signed b : length b = 8%nat →
  le_bytes 8 (to_signed 64 (from_le b)) = b ∧ in_i64 (to_signed 64 (from_le b)).
Proof.
  intros Hl. pose proof (from_le_bound b) as Hb. rewrite Hl in Hb.
  destruct (to_signed_range (from_le b) Hb) as [H1 H2]. split; [|done].
  rewrite <- (le_bytes_from_le 8 b Hl) at 2. unfold le_bytes.
  rewrite le_split_mod. by rewrite <- H2 at 2.
Qed.

Lemma le_bytes_wrap_len (w : nat) b n : length b = w → n = Z.to_nat (from_le b) →
  le_bytes w (wrap (8 * Z.of_nat w) (Z.of_nat n)) = b.
Proof.
  intros Hl ->. pose proof (from_le_bound b) as Hb. rewrite Hl in Hb.
  rewrite Z2Nat.id by lia. rewrite wrap_small by done. by apply le_bytes_from_le.
Qed.

(** ** Rows *)

(** Values whose lengths fit the row format's [u32] fields. *)
Definition wf_stored (v : Value) : Prop :=
  wf_value v ∧
  match v with
  | VText s => Z.of_nat (length s) < 2 ^ 32
  | VVector v => Z.of_nat (length v) < 2 ^ 32
  | _ => True
  end.

#[export] Instance decodes_f32 : Decodes (le_bytes 4) decode_f32 (in_u 32).
Proof.
  intros x pre post Hx. unfold decode_f32. rewrite take_bytes_at by len_solve. result_simpl.
  rewrite from_le_small by done. done.
Qed.

#[export] Instance canonical_f32 : Canonical (le_bytes 4) decode_f32 (in_u 32).
Proof.
  intros buf pos x pos' Hd Hpos. unfold decode_f32 in Hd.
  destruct (take_bytes _ _ _ _) as [b|] eqn:Hb; result_simpl; [|done]. injection Hd as <- <-.
  apply take_bytes_inv in Hb as (Hs & Hl & Hlen).
  pose proof (from_le_bound b) as Hbd. rewrite Hlen in Hbd.
  split; [lia|]. split; [done|]. split; [|done].
  rewrite <- Hs. symmetry. by apply le_bytes_from_le.
Qed.

(** Dispatch on a tag the encoder wrote. *)
Lemma decode_value_tag tag pre rest : in_u 8 tag →
  decode_value (pre ++ byte1 tag ++ rest) (length pre) =
    decode_tagged tag ((pre ++ byte1 tag) ++ rest) (length (pre ++ byte1 tag)).
Proof.
  intros H. unfold decode_value, byte1. cbn [app]. rewrite lookup_at by done. result_simpl.
  rewrite byte1_unsigned by done. rewrite <- app_assoc. f_equal. len_solve.
Qed.

Ltac decode_tag :=
  cbv [decode_tagged TAG_NULL TAG_INT TAG_REAL TAG_TEXT TAG_VECTOR] in *; cbn [Z.eqb Pos.eqb] in *.

#[export] Instance decodes_value : Decodes encode_value decode_value wf_stored.
Proof.
  intros v pre post [Hv Hl].
  destruct v as [|n|x|s|v]; cbn [encode_value]; rewrite <- ?app_assoc, decode_value_tag by done;
    decode_tag; set (pre' := pre ++ _).
  - do 2 f_equal. unfold pre'. len_solve.
  - rewrite take_bytes_at by len_solve. result_simpl. rewrite to_signed_from_le by done.
    do 2 f_equal. unfold pre'. len_solve.
  - rewrite take_bytes_at by len_solve. result_simpl. rewrite from_le_small by done.
    do 2 f_equal. unfold pre'. len_solve.
  - rewrite take_bytes_at by len_solve. result_simpl. rewrite from_le_wrap_len by done.
    rewrite (app_assoc pre'), take_bytes_at by len_solve. result_simpl. cbn in Hv. rewrite Hv.
    do 2 f_equal. unfold pre'. len_solve.
  - rewrite take_bytes_at by len_solve. result_simpl. rewrite from_le_wrap_len by done.
    rewrite (app_assoc pre').
    replace (length pre' + 4)%nat with (length (pre' ++ le_bytes 4 (wrap 32 (Z.of_nat (length v))))) by len_solve.
    rewrite (decodes (enc:=λ xs, concat (map (le_bytes 4) xs))) by done. result_simpl.
    do 2 f_equal. unfold pre'. len_solve.
Qed.

Lemma slice_empty {A} (a : nat) (l : list A) : slice a a l = [].
Proof. unfold slice. by rewrite Nat.sub_diag. Qed.

Lemma canonical_tagged tag buf pos v pos' :
  decode_tagged tag buf pos = Ok (v, pos') → (pos ≤ length buf)%nat →
  (pos ≤ pos')%nat ∧ (pos' ≤ length buf)%nat ∧
  byte1 tag ++ slice pos pos' buf = encode_value v ∧ wf_stored v.
Proof.
  intros Hd Hpos. unfold decode_tagged in Hd.
  destruct (Z.eqb_spec tag TAG_NULL) as [->|_].
  { injection Hd as <- <-. rewrite slice_empty. done. }
  destruct (Z.eqb_spec tag TAG_INT) as [->|_].
  { destruct (take_bytes _ _ _ _) as [b|] eqn:Hb; result_simpl; [|done]. injection Hd as <- <-.
    apply take_bytes_inv in Hb as (Hs & Hl & Hlen). rewrite <- Hs.
    destruct (le_bytes_to_signed b Hlen) as [He Hi]. cbn [encode_value]. rewrite He.
    repeat split; lia || done || apply Hi. }
  destruct (Z.eqb_spec tag TAG_REAL) as [->|_].
  { destruct (take_bytes _ _ _ _) as [b|] eqn:Hb; result_simpl; [|done]. injection Hd as <- <-.
    apply take_bytes_inv in Hb as (Hs & Hl & Hlen). rewrite <- Hs.
    pose proof (from_le_bound b) as Hbd. rewrite Hlen in Hbd.
    cbn [encode_value]. rewrite le_bytes_from_le by done. repeat split; lia || done || apply Hbd. }
  destruct (Z.eqb_spec tag TAG_TEXT) as [->|_].
  { destruct (take_bytes _ _ _ 4) as [lb|] eqn:Hb; result_simpl; [|done].
    apply take_bytes_inv in Hb as (Hs & Hl & Hlen).
    destruct (take_bytes _ _ _ _) as [text|] eqn:Hb; result_simpl; [|done].
    apply take_bytes_inv in Hb as (Hs' & Hl' & Hlen').
    destruct (utf8_valid text) eqn:Hu; [|done]. injection Hd as <- <-.
    split; [lia|]. split; [done|]. split.
    - cbn [encode_value]. f_equal. rewrite (slice_cat pos (pos + 4)) by lia. rewrite <- Hs, <- Hs'.
      f_equal. symmetry. by apply (le_bytes_wrap_len 4).
    - split; [done|]. pose proof (from_le_bound lb) as Hbd. rewrite Hlen in Hbd. lia. }
  destruct (Z.eqb_spec tag TAG_VECTOR) as [->|_]; [|done].
  destruct (take_bytes _ _ _ 4) as [lb|] eqn:Hb; result_simpl; [|done].
  apply take_bytes_inv in Hb as (Hs & Hl & Hlen).
  destruct (decode_seq _ _ _ _) as [[w p]|] eqn:Hw; result_simpl; [|done]. injection Hd as <- <-.
  pose proof (canonical (enc:=λ xs, concat (map (le_bytes 4) xs)) _ _ _ _ Hw Hl) as (H1 & H2 & H3 & H4 & H5).
  split; [lia|]. split; [done|]. split.
  - cbn [encode_value]. f_equal. rewrite (slice_cat pos (pos + 4)) by lia. rewrite <- Hs, H3.
    f_equal. symmetry. by apply (le_bytes_wrap_len 4).
  - split; [done|]. pose proof (from_le_bound lb) as Hbd. rewrite Hlen in Hbd. lia.
Qed.

#[export] Instance canonical_value : Canonical encode_value decode_value wf_stored.
Proof.
  intros buf pos v pos' Hd Hpos. unfold decode_value in Hd.
  destruct (buf !! pos) as [t|] eqn:Ht; result_simpl; [|done].
  pose proof (lookup_lt_Some _ _ _ Ht) as Hlt.
  assert (Htag : slice pos (pos + 1) buf = byte1 (byte.unsigned t)).
  { unfold byte1. rewrite byte.of_Z_unsigned. unfold slice.
    replace (pos + 1 - pos)%nat with 1%nat by lia. by rewrite (drop_S _ _ _ Ht). }
  apply canonical_tagged in Hd as (H1 & H2 & H3 & H4); [|lia].
  split; [lia|]. split; [done|]. split; [|done].
  rewrite (slice_cat pos (pos + 1)) by lia. by rewrite Htag.
Qed.

(** A count field followed by that many items: the shape of a row and of a
    range blob. *)
Section counted.
Context {A} (enc : A → bytes) (dec : decoder A) (wf : A → Prop) (w : nat) (e : EngineError).
Context `{!Decodes enc dec wf, !Canonical enc dec wf}.

Definition encode_counted (xs : list A) : bytes :=
  le_bytes w (wrap (8 * Z.of_nat w) (Z.of_nat (length xs))) ++ concat (map enc xs).

Definition decode_counted (buf : bytes) : result EngineError (list A) :=
  if (length buf <? w)%nat then Err e
  else
    '(xs, pos) ← decode_seq dec (Z.to_nat (read_le buf 0 w)) buf w;
    if negb (pos =? length buf)%nat then Err e else Ok xs.

Lemma counted_roundtrip xs :
  Forall wf xs → Z.of_nat (length xs) < 2 ^ (8 * Z.of_nat w) →
  decode_counted (encode_counted xs) = Ok xs.
Proof using Decodes0.
  intros Hxs Hlen. unfold decode_counted, encode_counted, read_le.
  destruct (Nat.ltb_spec (length (le_bytes w (wrap (8 * Z.of_nat w) (Z.of_nat (length xs))) ++ concat (map enc xs))) w); [len_solve|].
  rewrite slice_app_head by len_solve. rewrite from_le_wrap_len by done.
  pose proof (decodes (Decodes:=decodes_seq enc dec wf (length xs)) xs
    (le_bytes w (wrap (8 * Z.of_nat w) (Z.of_nat (length xs)))) [] (conj eq_refl Hxs)) as Hd.
  rewrite app_nil_r, length_bytes_le in Hd. rewrite Hd. result_simpl.
  rewrite (proj2 (Nat.eqb_eq _ _)) by len_solve. done.
Qed.

Lemma counted_canonical buf xs :
  decode_counted buf = Ok xs →
  encode_counted xs = buf ∧ Forall wf xs ∧ Z.of_nat (length xs) < 2 ^ (8 * Z.of_nat w).
Proof using Canonical0.
  unfold decode_counted, read_le. destruct (Nat.ltb_spec (length buf) w) as [|Hw]; [done|].
  destruct (decode_seq _ _ _ _) as [[ys p]|] eqn:Hs; result_simpl; [|done].
  destruct (Nat.eqb_spec p (length buf)); [|done]. intros [= <-]. subst.
  pose proof (canonical (enc:=λ xs, concat (map enc xs)) _ _ _ _ Hs Hw) as (_ & _ & H3 & H4 & H5).
  cbn [Nat.add] in *. set (h := slice 0 w buf) in *.
  assert (Hh : length h = w) by (unfold h; rewrite length_slice by done; lia).
  pose proof (from_le_bound h) as Hbd. rewrite Hh in Hbd.
  split; [|split; [done|lia]]. unfold encode_counted. rewrite <- H3, le_bytes_wrap_len with (b := h) by done.
  unfold h. rewrite <- slice_cat by lia. by apply slice_all.
Qed.

(** No encoding is a proper prefix of another. *)
Lemma counted_prefix_free xs ys rest :
  Forall wf xs → Z.of_nat (length xs) < 2 ^ (8 * Z.of_nat w) →
  Forall wf ys → Z.of_nat (length ys) < 2 ^ (8 * Z.of_nat w) →
  encode_counted xs ++ rest = encode_counted ys → xs = ys ∧ rest = [].
Proof using Decodes0.
  intros Hxs Hlx Hys Hly Heq. unfold encode_counted in Heq. rewrite <- app_assoc in Heq.
  apply app_inj_1 in Heq as [Hn Hc]; [|len_solve].
  assert (length xs = length ys) as Hlen.
  { apply (f_equal from_le), (f_equal Z.to_nat) in Hn. by rewrite !from_le_wrap_len in Hn by done. }
  pose proof (decodes (Decodes:=decodes_seq enc dec wf (length xs)) xs [] rest (conj eq_refl Hxs)) as H1.
  pose proof (decodes (Decodes:=decodes_seq enc dec wf (length xs)) ys [] [] (conj (eq_sym Hlen) Hys)) as H2.
  cbn [app] in *. rewrite Hc, <- (app_nil_r (concat _)), H2 in H1. injection H1 as -> _.
  split; [done|]. rewrite <- (app_nil_r (concat (map enc xs))) in Hc at 2. by apply app_inv_head in Hc.
Qed.

End counted.

Definition wf_row (vs : list Value) : Prop :=
  Forall wf_stored vs ∧ Z.of_nat (length vs) < 2 ^ 16.

Lemma decode_row_encode vs : wf_row vs → decode_row (encode_row vs) = Ok vs.
Proof. intros [Hv Hl]. by apply (counted_roundtrip encode_value decode_value wf_stored 2 row_corrupt). Qed.

Lemma encode_row_decode buf vs : decode_row buf = Ok vs → encode_row vs = buf ∧ wf_row vs.
Proof. apply (counted_canonical encode_value decode_value wf_stored 2 row_corrupt). Qed.

Lemma encode_row_inj vs ws : wf_row vs → wf_row ws → encode_row vs = encode_row ws → vs = ws.
Proof.
  intros Hv Hw Heq. apply decode_row_encode in Hv, Hw. rewrite Heq, Hw in Hv. by injection Hv.
Qed.

(** ** Range blobs *)

Definition wf_entry (e : Value * Z) : Prop :=
  wf_stored e.1 ∧ in_u 64 e.2 ∧ Z.of_nat (length (encode_row [e.1])) < 2 ^ 32.

#[export] Instance decodes_range_entry : Decodes encode_range_entry decode_range_entry wf_entry.
Proof.
  intros [v id] pre post (Hv & Hid & Hl). unfold decode_range_entry, encode_range_entry. cbn [fst snd] in *.
  rewrite <- !app_assoc. rewrite take_bytes_at by len_solve. result_simpl.
  rewrite from_le_wrap_len by done. rewrite (app_assoc pre).
  assert (Hdec : decode_row (encode_row [v]) = Ok [v]) by (apply decode_row_encode; by split; [constructor|]).
  revert Hl Hdec. generalize (encode_row [v]) as row. intros row Hl Hdec.
  rewrite (take_bytes_at _ _ row _ _ (length row)) by len_solve. result_simpl. rewrite Hdec. result_simpl.
  rewrite (app_assoc (pre ++ _)), take_bytes_at by len_solve. result_simpl.
  rewrite from_le_small by done. do 2 f_equal. len_solve.
Qed.

#[export] Instance canonical_range_entry : Canonical encode_range_entry decode_range_entry wf_entry.
Proof.
  intros buf pos e pos' Hd Hpos. unfold decode_range_entry in Hd.
  destruct (take_bytes _ _ _ 4) as [lb|] eqn:Hb; result_simpl; [|done].
  apply take_bytes_inv in Hb as (Hs & Hl & Hlen).
  destruct (take_bytes _ _ _ (Z.to_nat _)) as [encoded|] eqn:Hb; result_simpl; [|done].
  apply take_bytes_inv in Hb as (Hs' & Hl' & Hlen').
  destruct (decode_row encoded) as [row|] eqn:Hrow; result_simpl; [|done].
  destruct row as [|v [|]]; [done| |done].
  destruct (take_bytes _ _ _ 8) as [ib|] eqn:Hb; result_simpl; [|done].
  apply take_bytes_inv in Hb as (Hs'' & Hl'' & Hlen''). injection Hd as <- <-.
  apply encode_row_decode in Hrow as (Hrow & Hv & _). apply list.Forall_cons in Hv as [Hv _].
  pose proof (from_le_bound lb) as Hbd. rewrite Hlen in Hbd.
  pose proof (from_le_bound ib) as Hbi. rewrite Hlen'' in Hbi.
  split; [lia|]. split; [done|]. split.
  - unfold encode_range_entry. cbn [fst snd]. rewrite Hrow.
    rewrite (slice_cat pos (pos + 4)) by lia. rewrite <- Hs.
    rewrite (slice_cat (pos + 4) (pos + 4 + Z.to_nat (from_le lb))) by lia. rewrite <- Hs', <- Hs''.
    rewrite le_bytes_from_le by done. f_equal. symmetry. by apply (le_bytes_wrap_len 4).
  - split; [done|]. cbn [fst snd]. split; [exact Hbi|]. rewrite Hrow. lia.
Qed.

Definition wf_blob (es : list (Value * Z)) : Prop :=
  Forall wf_entry es ∧ Z.of_nat (length es) < 2 ^ 64.

Lemma decode_range_blob_encode es : wf_blob es → decode_range_blob (encode_range_blob es) = Ok es.
Proof.
  intros [He Hl]. by apply (counted_roundtrip encode_range_entry decode_range_entry wf_entry 8 range_corrupt).
Qed.

Lemma encode_range_blob_decode buf es :
  decode_range_blob buf = Ok es → encode_range_blob es = buf ∧ wf_blob es.
Proof. apply (counted_canonical encode_range_entry decode_range_entry wf_entry 8 range_corrupt). Qed.

(** ** Schemas *)

Definition wf_name (s : bytes) : Prop := utf8_valid s = true ∧ Z.of_nat (length s) < 2 ^ 16.

Definition wf_column (c : ColumnDef) : Prop :=
  wf_name (cd_name c) ∧ match cd_ty c with TyVector d => in_u 16 d | _ => True end.

Definition wf_schema (s : TableSchema) : Prop :=
  wf_name (ts_name s) ∧ Forall wf_column (ts_columns s) ∧ Z.of_nat (length (ts_columns s)) < 2 ^ 16.

Lemma flags_roundtrip c :
  byte.unsigned (byte.of_Z (column_flags c)) = column_flags c ∧
  has_flag (column_flags c) FLAG_ENCRYPTED = cd_encrypted c ∧
  has_flag (column_flags c) FLAG_PRIMARY_KEY = cd_primary_key c ∧
  has_flag (column_flags c) FLAG_INDEXED = cd_indexed c ∧
  has_flag (column_flags c) FLAG_RANGE_INDEXED = cd_range_indexed c.
Proof. destruct c as [n ty [] [] [] []]; repeat split; reflexivity. Qed.

Lemma read_u8_at (pre post : bytes) (b : byte) (pos : nat) :
  pos = length pre → read_u8 (pre ++ b :: post) pos = byte.unsigned b.
Proof. intros ->. unfold read_u8. rewrite list_lookup_total_middle; done. Qed.

Lemma read_le_at (pre post : bytes) (z : Z) (pos w : nat) :
  pos = length pre → 0 ≤ z < 2 ^ (8 * Z.of_nat w) → read_le (pre ++ le_bytes w z ++ post) pos w = z.
Proof.
  intros -> Hz. unfold read_le. rewrite (slice_app_at pre (le_bytes w z) post) by len_solve.
  by apply from_le_small.
Qed.

Lemma decode_type_encode (pre post : bytes) (flags : byte) ty (nm : bytes) :
  match ty with TyVector d => in_u 16 d | _ => True end →
  decode_type (pre ++ [flags] ++ encode_type ty ++ le_bytes 2 (wrap 16 (Z.of_nat (length nm))) ++ post) (length pre)
  = Ok (ty, (length (encode_type ty) - 1)%nat).
Proof.
  intros Hty. unfold decode_type.
  destruct ty as [| | |d]; cbn [encode_type]; unfold byte1; rewrite <- ?app_assoc; cbn [app];
    rewrite (cons_app_one flags), app_assoc, read_u8_at by len_solve; rewrite byte1_unsigned by done;
    decode_tag; cbn [length]; try done.
  destruct (Nat.ltb_spec (length (((pre ++ [flags]) ++ byte.of_Z 3 :: le_bytes 2 d ++
    le_bytes 2 (wrap 16 (Z.of_nat (length nm))) ++ post))) (length pre + 6)) as [Hlt|_].
  { rewrite length_app, length_cons in Hlt. len_simpl. lia. }
  rewrite (cons_app_one (byte.of_Z 3)), (app_assoc (pre ++ _)). rewrite read_le_at by (len_solve || done).
  done.
Qed.

(** Length arithmetic that leaves the context alone. *)
Ltac len_goal := rewrite ?length_app; cbn [length]; lia.
Ltac absurd_len H := rewrite ?length_app in H; cbn [length] in H; lia.

Lemma length_encode_type ty :
  (1 ≤ length (encode_type ty))%nat ∧ (length (encode_type ty) ≤ 3)%nat.
Proof. destruct ty; unfold encode_type, byte1; rewrite ?length_app, ?length_bytes_le; cbn [length]; lia. Qed.

#[export] Instance decodes_column : Decodes encode_column decode_column wf_column.
Proof.
  intros c pre post [[Hu Hl] Hty]. destruct (length_encode_type (cd_ty c)) as [Ht1 Ht2].
  destruct (flags_roundtrip c) as (Hf & Hf1 & Hf2 & Hf3 & Hf4).
  set (len := length (encode_column c)).
  assert (Hlen : len = (3 + length (encode_type (cd_ty c)) + length (cd_name c))%nat).
  { unfold len, encode_column, encode_name, byte1. len_solve. }
  set (nl := le_bytes 2 (wrap 16 (Z.of_nat (length (cd_name c))))).
  set (fl := [byte.of_Z (column_flags c)]). set (et := encode_type (cd_ty c)) in *.
  assert (Hnl : length nl = 2%nat) by apply length_bytes_le.
  assert (Hfl : length fl = 1%nat) by done.
  assert (Hbuf : pre ++ encode_column c ++ post = pre ++ fl ++ et ++ nl ++ cd_name c ++ post).
  { unfold encode_column, encode_name, byte1. by rewrite <- !app_assoc. }
  rewrite Hbuf. unfold decode_column.
  destruct (Nat.ltb_spec (length (pre ++ fl ++ et ++ nl ++ cd_name c ++ post)) (length pre + 4)) as [H|_].
  { absurd_len H. }
  assert (Hdt : decode_type (pre ++ fl ++ et ++ nl ++ cd_name c ++ post) (length pre)
    = Ok (cd_ty c, (length et - 1)%nat)) by (by apply decode_type_encode).
  rewrite Hdt. result_simpl.
  replace (length pre + 2 + (length et - 1))%nat with (length (pre ++ fl ++ et)) by len_goal.
  replace (length pre + 4 + (length et - 1))%nat with (length (pre ++ fl ++ et ++ nl)) by len_goal.
  assert (Hread : read_le (pre ++ fl ++ et ++ nl ++ cd_name c ++ post) (length (pre ++ fl ++ et)) 2
    = Z.of_nat (length (cd_name c))).
  { rewrite 2!app_assoc, <- (app_assoc pre fl et). unfold nl. rewrite read_le_at; [|done|].
    - apply wrap_small; split; lia.
    - apply in_u_wrap. lia. }
  rewrite Hread, Nat2Z.id.
  destruct (Nat.ltb_spec (length (pre ++ fl ++ et ++ nl ++ cd_name c ++ post))
    (length (pre ++ fl ++ et ++ nl) + length (cd_name c))) as [H|_]; [absurd_len H|].
  assert (Hslice : slice (length (pre ++ fl ++ et ++ nl)) (length (pre ++ fl ++ et ++ nl) + length (cd_name c))
    (pre ++ fl ++ et ++ nl ++ cd_name c ++ post) = cd_name c).
  { pose proof (slice_app_at (pre ++ fl ++ et ++ nl) (cd_name c) post _ _ eq_refl eq_refl) as Hs.
    by rewrite <- !app_assoc in Hs. }
  assert (Hflag : read_u8 (pre ++ fl ++ et ++ nl ++ cd_name c ++ post) (length pre) = column_flags c)
    by (unfold fl; cbn [app]; by rewrite read_u8_at).
  rewrite Hslice, Hu, Hflag, Hf1, Hf2, Hf3, Hf4.
  f_equal. f_equal; [by destruct c|]. rewrite Hlen. len_goal.
Qed.

Lemma decode_schema_encode s : wf_schema s → decode_schema (encode_schema s) = Ok s.
Proof.
  intros ([Hu Hl] & Hcols & Hn). unfold decode_schema.
  set (ver := byte1 SCHEMA_VERSION). set (nl := le_bytes 2 (wrap 16 (Z.of_nat (length (ts_name s))))).
  set (nc := le_bytes 2 (wrap 16 (Z.of_nat (length (ts_columns s))))).
  set (cs := concat (map encode_column (ts_columns s))).
  assert (Hver : length ver = 1%nat) by done.
  assert (Hnl : length nl = 2%nat) by apply length_bytes_le.
  assert (Hnc : length nc = 2%nat) by apply length_bytes_le.
  assert (Hbuf : encode_schema s = ver ++ nl ++ ts_name s ++ nc ++ cs).
  { unfold encode_schema, encode_name. by rewrite <- !app_assoc. }
  rewrite Hbuf.
  destruct (Nat.ltb_spec (length (ver ++ nl ++ ts_name s ++ nc ++ cs)) 5) as [H|_]; [absurd_len H|].
  assert (Hread0 : read_u8 (ver ++ nl ++ ts_name s ++ nc ++ cs) 0 = SCHEMA_VERSION) by reflexivity.
  rewrite Hread0. cbn [orb Z.eqb SCHEMA_VERSION Pos.eqb negb].
  assert (Hread1 : read_le (ver ++ nl ++ ts_name s ++ nc ++ cs) 1 2 = Z.of_nat (length (ts_name s))).
  { unfold nl. rewrite read_le_at; [apply wrap_small; split; lia|done|apply in_u_wrap; lia]. }
  rewrite Hread1, Nat2Z.id.
  destruct (Nat.ltb_spec (length (ver ++ nl ++ ts_name s ++ nc ++ cs)) (3 + length (ts_name s) + 2)) as [H|_];
    [absurd_len H|].
  assert (Hslice : slice 3 (3 + length (ts_name s)) (ver ++ nl ++ ts_name s ++ nc ++ cs) = ts_name s).
  { rewrite app_assoc. by apply slice_app_at; len_goal. }
  rewrite Hslice, Hu.
  assert (Hread2 : read_le (ver ++ nl ++ ts_name s ++ nc ++ cs) (3 + length (ts_name s)) 2
    = Z.of_nat (length (ts_columns s))).
  { rewrite 2!app_assoc. unfold nc. rewrite read_le_at; [apply wrap_small; split; lia|len_goal|apply in_u_wrap; lia]. }
  rewrite Hread2, Nat2Z.id.
  pose proof (decodes (Decodes:=decodes_seq encode_column decode_column wf_column (length (ts_columns s)))
    (ts_columns s) (ver ++ nl ++ ts_name s ++ nc) [] (conj eq_refl Hcols)) as Hd. cbv beta in Hd. fold cs in Hd.
  replace (length (ver ++ nl ++ ts_name s ++ nc)) with (3 + length (ts_name s) + 2)%nat in Hd by len_goal.
  rewrite app_nil_r, <- !app_assoc in Hd. rewrite Hd. result_simpl.
  rewrite (proj2 (Nat.eqb_eq _ _)) by len_goal. cbn. by destruct s.
Qed.

(** ** The contracts of the codecs *)

(** C29: A buffer decodes to a row exactly when it is the encoding of that well-formed row. *)
Theorem row_codec_exact buf vs : decode_row buf = Ok vs ↔ wf_row vs ∧ buf = encode_row vs.
Proof.
  split; [|by intros [Hw ->]; apply decode_row_encode]. intros H.
  apply encode_row_decode in H as [<- Hw]. done.
Qed.

(** A buffer decodes to range-index entries exactly when it is the encoding of those entries. *)
Theorem range_blob_codec_exact buf es :
  decode_range_blob buf = Ok es ↔ wf_blob es ∧ buf = encode_range_blob es.
Proof.
  split; [|by intros [Hw ->]; apply decode_range_blob_encode]. intros H.
  apply encode_range_blob_decode in H as [<- Hw]. done.
Qed.

(** No row encoding is a proper prefix of another, so a truncated or extended row never decodes to a different one. *)
Theorem row_encodings_prefix_free vs ws rest :
  wf_row vs → wf_row ws → encode_row vs ++ rest = encode_row ws → vs = ws ∧ rest = [].
Proof.
  intros [Hv Hlv] [Hw Hlw] Heq.
  by apply (counted_prefix_free encode_value decode_value wf_stored 2 vs ws rest).
Qed.

Lemma row_encodings_prefix_free_witness :
  wf_row [VInt 7; VText (bs "x")] ∧ [VInt 7; VText (bs "x")] = [VInt 7; VText (bs "x")] ∧ @nil byte = [].
Proof.
  assert (Hw : wf_row [VInt 7; VText (bs "x")]) by (split; [repeat constructor; done|done]).
  split; [exact Hw|].
  exact (row_encodings_prefix_free _ _ [] Hw Hw (app_nil_r _)).
Defined.

(** An encoded schema decodes to the same schema: names, types, vector dimensions and all flags. *)
Theorem schema_roundtrip s : wf_schema s → decode_schema (encode_schema s) = Ok s.
Proof. apply decode_schema_encode. Qed.

Lemma schema_roundtrip_witness :
  let s := mkTableSchema (bs "users") [mkColumnDef (bs "id") TyInt false true false false;
                                       mkColumnDef (bs "v") (TyVector 384) true false true true] in
  wf_schema s ∧ decode_schema (encode_schema s) = Ok s.
Proof.
  assert (Hw : wf_schema (mkTableSchema (bs "users") [mkColumnDef (bs "id") TyInt false true false false;
                                       mkColumnDef (bs "v") (TyVector 384) true false true true]))
    by (repeat split; try done; repeat constructor; done).
  split; [exact Hw|]. exact (schema_roundtrip _ Hw).
Defined.
