(* ===== verification/Store.v ===== *)
(** * The sealed-byte store: a backend under an optional transaction overlay

    ciphra-engine/src/lib.rs, [Backend] and [Store].  The class [Backend] is
    what the store asks of the place sealed bytes live; [BackendLaws] is what
    it relies on, stated against the table the backend holds.  [LocalBackend]
    is the instance over the WAL engine of [Storage] (the remote client's
    calls, which change the state of its connection also when they read, are
    in [Server]).  The end of the file
    proves that the store refines a transactional key-value specification. *)

From S2P Require Import Prelude BTree Storage StorageFacts Values.

(** ** The interface *)

(** [enum Backend]: reads may fail (a remote may be unreachable); a write
    returns its result and the backend after it. *)
Class Backend (B : Type) := {
  backend_get : B → bytes → result EngineError (option bytes);
  backend_scan : B → bytes → result EngineError (list (bytes * bytes));
  backend_dump : B → result EngineError (list (bytes * bytes));
  backend_put : B → bytes → bytes → result EngineError unit * B;
  backend_commit : B → Batch → result EngineError unit * B;
}.

(** What the store relies on: answers are those of the table held, a
    successful write is applied, a failed one is applied or not, never in
    part. *)
Class BackendLaws (B : Type) `{Backend B} (backend_table : B → table) := {
  backend_get_table b k r : backend_get b k = Ok r → r = backend_table b !! k;
  backend_scan_table b p r : backend_scan b p = Ok r →
    r = btree_iter (filter (λ kv, starts_with p kv.1 = true) (backend_table b));
  backend_dump_table b r : backend_dump b = Ok r → r = btree_iter (backend_table b);
  backend_put_table b k v r b' : backend_put b k v = (r, b') →
    backend_table b' = <[k := v]> (backend_table b)
    ∨ (is_ok r = false ∧ backend_table b' = backend_table b);
  backend_commit_table b batch r b' : batch_wf batch → backend_commit b batch = (r, b') →
    backend_table b' = apply_entries (backend_table b) (entries batch)
    ∨ (is_ok r = false ∧ backend_table b' = backend_table b);
}.

(** ** The local backend: the WAL engine, with the outcomes its next file
    writes will have (once the list is used up, every write succeeds) *)

Record LocalBackend : Type := mkLocal { lb_storage : Storage; lb_outcomes : list IoOutcome }.

(** [self.put(..)?] on [Backend::Local]: one write outcome is consumed. *)
Definition local_write (b : LocalBackend)
  (op : IoOutcome → Storage → result StorageError unit * Storage)
  : result EngineError unit * LocalBackend :=
  let '(r, s) := op (default IoOk (head (lb_outcomes b))) (lb_storage b) in
  (map_err EStorage r, mkLocal s (tail (lb_outcomes b))).

#[export] Instance local_backend : Backend LocalBackend := {|
  backend_get b k := Ok (storage_get (lb_storage b) k);
  backend_scan b p := Ok (storage_scan_prefix (lb_storage b) p);
  backend_dump b := Ok (storage_dump (lb_storage b));
  backend_put b k v := local_write b (λ io s, storage_put io s k v);
  backend_commit b batch := local_write b (λ io s, storage_commit io s batch);
|}.

Definition local_table (b : LocalBackend) : table := st_map (lb_storage b).

(** ** The store *)

(** [Option<BTreeMap<Vec<u8>, Option<Vec<u8>>>>]: [None] inside is a pending
    delete, [Some] a pending put. *)
Abbreviation Overlay := (gmap bytes (option bytes)).

Record Store (B : Type) : Type := mkStore { backend : B; overlay : option Overlay }.
Arguments mkStore {B}.
Arguments backend {B}.
Arguments overlay {B}.

(** Rust's [collect()] into a [BTreeMap]: a later pair replaces an earlier one. *)
Definition btree_collect {V} (l : list (bytes * V)) : gmap bytes V :=
  fold_left (λ m kv, <[kv.1 := kv.2]> m) l ∅.

(** The body of the loops over the overlay in [scan_prefix] and [dump]. *)
Definition merge_pending (merged : table) (kv : bytes * option bytes) : table :=
  match kv.2 with
  | Some v => <[kv.1 := v]> merged
  | None => base.delete kv.1 merged
  end.

Section store.
Context {B : Type} `{Backend B}.
Implicit Type s : Store B.

Definition store_local (b : B) : Store B := mkStore b None.

Definition store_in_transaction (s : Store B) : bool :=
  match overlay s with Some _ => true | None => false end.

Definition store_begin (s : Store B) : Store B := mkStore (backend s) (Some ∅).

(** The batch built from the overlay, in key order. *)
Definition overlay_batch (o : Overlay) : Batch :=
  fold_left (λ batch '(key, value),
    match value with
    | Some v => batch_put batch key v
    | None => batch_delete batch key
    end) (btree_iter o) batch_new.

Definition store_backend_write (s : Store B) (r : result EngineError unit * B)
  : result EngineError unit * Store B :=
  (r.1, mkStore r.2 (overlay s)).

(** [commit_transaction]: the overlay is taken before the backend commit. *)
Definition store_commit_transaction (s : Store B) : result EngineError unit * Store B :=
  match overlay s with
  | Some o =>
      let s' := mkStore (backend s) None in
      let batch := overlay_batch o in
      if batch_is_empty batch then (Ok tt, s')
      else store_backend_write s' (backend_commit (backend s') batch)
  | None => (Ok tt, s)
  end.

Definition store_rollback_transaction (s : Store B) : Store B := mkStore (backend s) None.

Definition store_get (s : Store B) (key : bytes) : result EngineError (option bytes) :=
  match overlay s with
  | Some o =>
      match o !! key with
      | Some value => Ok value
      | None => backend_get (backend s) key
      end
  | None => backend_get (backend s) key
  end.

Definition store_scan_prefix (s : Store B) (prefix : bytes)
  : result EngineError (list (bytes * bytes)) :=
  l ← backend_scan (backend s) prefix;
  let merged := btree_collect l in
  Ok (btree_iter
    match overlay s with
    | Some o =>
        fold_left (λ m kv, if starts_with prefix kv.1 then merge_pending m kv else m)
          (btree_iter o) merged
    | None => merged
    end).

Definition store_put (s : Store B) (key value : bytes) : result EngineError unit * Store B :=
  match overlay s with
  | Some o => (Ok tt, mkStore (backend s) (Some (<[key := Some value]> o)))
  | None => store_backend_write s (backend_put (backend s) key value)
  end.

(** The overlay insertion loop of [commit]. *)
Definition pend_entry (o : Overlay) (e : bool * bytes * bytes) : Overlay :=
  let '(is_delete, key, value) := e in
  <[key := if is_delete then None else Some value]> o.

Definition store_commit (s : Store B) (batch : Batch) : result EngineError unit * Store B :=
  match overlay s with
  | Some o =>
      (Ok tt, mkStore (backend s) (Some (fold_left pend_entry (batch_entries batch) o)))
  | None => store_backend_write s (backend_commit (backend s) batch)
  end.

Definition store_dump (s : Store B) : result EngineError (list (bytes * bytes)) :=
  l ← backend_dump (backend s);
  let merged := btree_collect l in
  Ok (btree_iter
    match overlay s with
    | Some o => fold_left merge_pending (btree_iter o) merged
    | None => merged
    end).
End store.

(** ** The specification: a committed table and, in a transaction, a working one *)

Record TxKv : Type := mkTxKv { committed : table; working : option table }.

(** The table reads see. *)
Definition tx_view (t : TxKv) : table := default (committed t) (working t).

Inductive TxCmd : Type :=
| TxBegin
| TxCommit
| TxRollback
| TxPut (key value : bytes)
| TxBatch (b : Batch)
| TxGet (key : bytes)
| TxScan (prefix : bytes)
| TxDump.

Inductive TxReply : Type :=
| RUnit
| RValue (v : option bytes)
| RPairs (l : list (bytes * bytes)).

(** Writes go to the working table when there is one. *)
Definition tx_write (f : table → table) (t : TxKv) : TxKv :=
  match working t with
  | Some w => mkTxKv (committed t) (Some (f w))
  | None => mkTxKv (f (committed t)) None
  end.

Definition tx_next (t : TxKv) (c : TxCmd) : TxKv :=
  match c with
  | TxBegin => mkTxKv (committed t) (Some (committed t))
  | TxCommit => mkTxKv (tx_view t) None
  | TxRollback => mkTxKv (committed t) None
  | TxPut k v => tx_write (λ m, <[k := v]> m) t
  | TxBatch b => tx_write (λ m, apply_entries m (entries b)) t
  | _ => t
  end.

Definition tx_reply (t : TxKv) (c : TxCmd) : TxReply :=
  match c with
  | TxGet k => RValue (tx_view t !! k)
  | TxScan p => RPairs (btree_iter (filter (λ kv, starts_with p kv.1 = true) (tx_view t)))
  | TxDump => RPairs (btree_iter (tx_view t))
  | _ => RUnit
  end.

(** A failed commit closes the transaction and loses its writes; any other
    failure changes nothing. *)
Definition tx_failed (t : TxKv) (c : TxCmd) : TxKv :=
  match c with TxCommit => mkTxKv (committed t) None | _ => t end.

Definition tx_cmd_wf (c : TxCmd) : Prop :=
  match c with TxBatch b => batch_wf b | _ => True end.

(** A command of the specification, run on the store. *)
Definition store_run {B} `{Backend B} (s : Store B) (c : TxCmd)
  : result EngineError TxReply * Store B :=
  let unit_reply (p : result EngineError unit * Store B) := ((λ _, RUnit) <$> p.1, p.2) in
  match c with
  | TxBegin => (Ok RUnit, store_begin s)
  | TxCommit => unit_reply (store_commit_transaction s)
  | TxRollback => (Ok RUnit, store_rollback_transaction s)
  | TxPut k v => unit_reply (store_put s k v)
  | TxBatch b => unit_reply (store_commit s b)
  | TxGet k => (RValue <$> store_get s k, s)
  | TxScan p => (RPairs <$> store_scan_prefix s p, s)
  | TxDump => (RPairs <$> store_dump s, s)
  end.

(** ** The overlay as a view of the table below it *)

Definition overlay_view (o : Overlay) (m : table) : table :=
  merge (λ ov mv, match ov with Some v => v | None => mv end) o m.

Lemma lookup_overlay_view o m k :
  overlay_view o m !! k = match o !! k with Some v => v | None => m !! k end.
Proof. unfold overlay_view. rewrite lookup_merge. by destruct (o !! k), (m !! k). Qed.

Lemma overlay_view_empty m : overlay_view ∅ m = m.
Proof. apply map_eq. intros k. by rewrite lookup_overlay_view, lookup_empty. Qed.

Lemma overlay_view_insert o m k v :
  overlay_view (<[k := v]> o) m = merge_pending (overlay_view o m) (k, v).
Proof.
  apply map_eq. intros k'. rewrite lookup_overlay_view. unfold merge_pending. cbn.
  destruct (decide (k' = k)) as [->|Hk].
  - rewrite lookup_insert_eq. by destruct v; rewrite ?lookup_insert_eq, ?lookup_delete_eq.
  - rewrite lookup_insert_ne by done.
    by destruct v; rewrite ?lookup_insert_ne, ?lookup_delete_ne, lookup_overlay_view by done.
Qed.

(** The merge loops, for the keys a guard lets through. *)
Lemma fold_pending_lookup (f : bytes → bool) (l : list (bytes * option bytes)) (m : table) k :
  NoDup l.*1 →
  fold_left (λ m kv, if f kv.1 then merge_pending m kv else m) l m !! k
  = if f k then overlay_view (list_to_map l) m !! k else m !! k.
Proof.
  intros Hl. rewrite lookup_overlay_view. revert m.
  induction l as [|[j v] l IH]; intros m; cbn [fold_left list_to_map foldr fst].
  { rewrite lookup_empty. by destruct (f k). }
  cbn in Hl. apply list.NoDup_cons in Hl as [Hj Hl]. rewrite IH by done.
  assert ((list_to_map l : Overlay) !! j = None) as Hn by by apply not_elem_of_list_to_map.
  unfold merge_pending. cbn. destruct (decide (k = j)) as [->|Hk].
  - rewrite Hn, lookup_insert_eq.
    by destruct (f j), v; rewrite ?lookup_insert_eq, ?lookup_delete_eq.
  - rewrite lookup_insert_ne by done. destruct (f j), v, (f k);
      by rewrite ?lookup_insert_ne, ?lookup_delete_ne by done.
Qed.

Lemma fold_pending o m : fold_left merge_pending (btree_iter o) m = overlay_view o m.
Proof.
  apply map_eq. intros k.
  etrans; [apply (fold_pending_lookup (λ _, true)), btree_iter_nodup|].
  by rewrite list_to_map_btree_iter.
Qed.

Lemma btree_collect_iter {V} (m : gmap bytes V) : btree_collect (btree_iter m) = m.
Proof.
  rewrite <- (list_to_map_btree_iter m) at 2. unfold btree_collect.
  pose proof (btree_iter_nodup m) as Hnd. revert Hnd. generalize (btree_iter m). clear m.
  intros l Hl.
  assert (∀ acc, fold_left (λ m kv, <[kv.1 := kv.2]> m) l acc = list_to_map l ∪ acc) as ->;
    [|by rewrite (right_id_L ∅ (∪))].
  induction l as [|[k v] l IH]; intros acc; cbn; [by rewrite (left_id_L ∅ (∪))|].
  cbn in Hl. apply list.NoDup_cons in Hl as [Hk Hl]. rewrite IH by done.
  rewrite <- insert_union_l. symmetry. apply insert_union_r. by apply not_elem_of_list_to_map.
Qed.

Lemma overlay_scan o m p :
  fold_left (λ m kv, if starts_with p kv.1 then merge_pending m kv else m) (btree_iter o)
    (filter (λ kv, starts_with p kv.1 = true) m)
  = filter (λ kv, starts_with p kv.1 = true) (overlay_view o m).
Proof.
  apply map_eq. intros k. rewrite (fold_pending_lookup (starts_with p)) by apply btree_iter_nodup.
  rewrite list_to_map_btree_iter. apply option_eq. intros v.
  rewrite map_lookup_filter_Some, !lookup_overlay_view. cbn.
  destruct (starts_with p k) eqn:Hp.
  - destruct (o !! k) as [ov|]; [naive_solver|]. rewrite map_lookup_filter_Some. naive_solver.
  - rewrite map_lookup_filter_Some. cbn. split; intros [? ?]; congruence.
Qed.

(** ** The batch a commit flushes *)

Definition pending_entry (kv : bytes * option bytes) : entry :=
  match kv.2 with Some v => (OP_PUT, kv.1, v) | None => (OP_DELETE, kv.1, []) end.

Lemma overlay_batch_entries o : entries (overlay_batch o) = map pending_entry (btree_iter o).
Proof.
  unfold overlay_batch.
  assert (∀ l b, entries (fold_left (λ batch '(key, value),
    match value with Some v => batch_put batch key v | None => batch_delete batch key end) l b)
    = entries b ++ map pending_entry l) as Hl; [|by rewrite Hl].
  induction l as [|[k [v|]] l IH]; intros b; cbn [fold_left map];
    [by rewrite app_nil_r|rewrite IH; cbn; by rewrite <- app_assoc..].
Qed.

Lemma overlay_batch_wf o : batch_wf (overlay_batch o).
Proof.
  unfold batch_wf. rewrite overlay_batch_entries. apply list.Forall_forall.
  intros e ([k [v|]] & -> & _)%list_elem_of_fmap; [by left|by right].
Qed.

Lemma overlay_batch_apply o m : apply_entries m (entries (overlay_batch o)) = overlay_view o m.
Proof.
  rewrite overlay_batch_entries, <- fold_pending. unfold apply_entries.
  generalize (btree_iter o). intros l. revert m.
  induction l as [|[k [v|]] l IH]; intros m; cbn [map fold_left]; [done|by rewrite <- IH..].
Qed.

Lemma overlay_batch_empty o m : batch_is_empty (overlay_batch o) = true → overlay_view o m = m.
Proof.
  intros He. rewrite <- overlay_batch_apply. unfold batch_is_empty in He.
  by destruct (entries (overlay_batch o)).
Qed.

Lemma pend_batch o b m :
  batch_wf b →
  overlay_view (fold_left pend_entry (batch_entries b) o) m
  = apply_entries (overlay_view o m) (entries b).
Proof.
  unfold batch_wf, batch_entries, apply_entries. intros Hwf. revert o.
  induction Hwf as [|[[op k] v] es Hop Hwf IH]; intros o; cbn [map fold_left]; [done|].
  rewrite IH. f_equal. cbn [pend_entry apply_entry]. rewrite overlay_view_insert.
  destruct Hop as [Hop|Hop]; cbn in Hop; by subst op.
Qed.

(** ** The local backend keeps its promise *)

Lemma then_apply_table r f r' s' (s : Storage) :
  st_map r.2 = st_map s → then_apply r f = (r', s') →
  st_map s' = f (st_map s) ∨ (is_ok r' = false ∧ st_map s' = st_map s).
Proof.
  destruct r as [[u|e] s1]; cbn; intros Hs [= <- <-]; cbn; rewrite Hs; auto.
Qed.

Lemma append_wal_map io s rec : st_map (append_wal io s rec).2 = st_map s.
Proof. by destruct io. Qed.

Lemma storage_commit_table io s b r s' :
  batch_wf b → storage_commit io s b = (r, s') →
  st_map s' = apply_entries (st_map s) (entries b) ∨ (is_ok r = false ∧ st_map s' = st_map s).
Proof.
  unfold storage_commit. intros _. destruct (entries b) as [|[[op k] v] [|e es]].
  - intros [= <- <-]. by left.
  - apply then_apply_table, append_wal_map.
  - apply then_apply_table, append_wal_map.
Qed.

#[export] Instance local_backend_laws : BackendLaws LocalBackend local_table.
Proof.
  split; unfold local_table.
  - by intros b k r [= <-].
  - intros b p r [= <-]. apply scan_btree.
  - by intros b r [= <-].
  - intros [s ios] k v r b'. cbn. unfold local_write. cbn.
    destruct (storage_put _ s k v) as [r0 s0] eqn:Hp. intros [= <- <-]. cbn.
    apply (then_apply_table _ _ _ _ s) in Hp; [|apply append_wal_map].
    by destruct r0.
  - intros [s ios] batch r b' Hwf. cbn. unfold local_write. cbn.
    destruct (storage_commit _ s batch) as [r0 s0] eqn:Hp. intros [= <- <-]. cbn.
    apply storage_commit_table in Hp; [|done]. by destruct r0.
Qed.

(** A backend in this process: reads answer, and a failed write changed
    nothing. *)
Class StrictBackend (B : Type) `{BL : BackendLaws B btable} := {
  strict_get b k : backend_get b k = Ok (btable b !! k);
  strict_scan b p : backend_scan b p = Ok (btree_iter (filter (λ kv, starts_with p kv.1 = true) (btable b)));
  strict_dump b : backend_dump b = Ok (btree_iter (btable b));
  strict_put b k v err b' : backend_put b k v = (Err err, b') → btable b' = btable b;
  strict_commit b batch err b' : batch_wf batch →
    backend_commit b batch = (Err err, b') → btable b' = btable b;
}.

Lemma then_apply_failed r f e s' :
  then_apply r f = (Err e, s') → s' = r.2.
Proof. by destruct r as [[u|e'] s1]; intros [= ??]; subst. Qed.

#[export] Instance local_backend_strict : StrictBackend LocalBackend.
Proof.
  split; unfold local_table.
  - done.
  - intros b p. cbn. unfold storage_scan_prefix. by rewrite scan_btree.
  - done.
  - intros [s ios] k v err b'. cbn. unfold local_write. cbn.
    destruct (storage_put _ s k v) as [[u|e] s0] eqn:Hp; intros [= <- <-]. cbn.
    apply then_apply_failed in Hp as ->. apply append_wal_map.
  - intros [s ios] batch err b' Hwf. cbn. unfold local_write. cbn.
    destruct (storage_commit _ s batch) as [[u|e] s0] eqn:Hp; intros [= <- <-]. cbn.
    rewrite commit_unfold in Hp. destruct (entries batch); [done|].
    apply then_apply_failed in Hp as ->. apply append_wal_map.
Qed.

(** A commit whose file write works works, and so do the ones after it. *)
Lemma store_commit_healthy (s : Store LocalBackend) batch : lb_outcomes (backend s) = [] →
  (store_commit s batch).1 = Ok tt ∧ lb_outcomes (backend (store_commit s batch).2) = [].
Proof.
  intros Hh. unfold store_commit. destruct (overlay s); [by split|]. unfold store_backend_write. cbn [backend_commit local_backend].
  unfold local_write. rewrite Hh. cbn [head default tail]. rewrite commit_unfold. by destruct (entries batch).
Qed.

Lemma backend_commit_healthy (b : LocalBackend) batch : lb_outcomes b = [] →
  (backend_commit b batch).1 = Ok tt ∧ lb_outcomes (backend_commit b batch).2 = [].
Proof.
  intros Hh. cbn [backend_commit local_backend]. unfold local_write. rewrite Hh. cbn [head default tail].
  rewrite commit_unfold. by destruct (entries batch).
Qed.

(** What such a commit leaves in the log: nothing new, or the one batch. *)
Lemma store_commit_on_disk (s s' : Store LocalBackend) batch r : lb_outcomes (backend s) = [] → batch_wf batch →
  store_commit s batch = (r, s') →
  lb_outcomes (backend s') = []
  ∧ (backend s' = backend s ∨ ∃ b, batch_wf b ∧ backend_commit (backend s) b = (Ok tt, backend s')).
Proof.
  intros Hh Hwf. unfold store_commit. destruct (overlay s); [intros [= _ <-]; by auto|].
  unfold store_backend_write. destruct (backend_commit_healthy (backend s) batch Hh) as [Hr Hh'].
  destruct (backend_commit (backend s) batch) as [r0 b'] eqn:Hc. cbn [fst snd] in Hr, Hh'. subst r0. intros [= _ <-]. split; [done|].
  right. by exists batch.
Qed.

Lemma store_commit_transaction_on_disk (s : Store LocalBackend) r s' : lb_outcomes (backend s) = [] →
  store_commit_transaction s = (r, s') →
  r = Ok tt ∧ lb_outcomes (backend s') = []
  ∧ (backend s' = backend s ∨ ∃ b, batch_wf b ∧ backend_commit (backend s) b = (Ok tt, backend s')).
Proof.
  intros Hh. unfold store_commit_transaction. destruct (overlay s) as [o|]; [|intros [= <- <-]; by auto].
  cbn [backend]. destruct (batch_is_empty _); [intros [= <- <-]; by auto|].
  unfold store_backend_write. destruct (backend_commit_healthy (backend s) (overlay_batch o) Hh) as [Hr Hh'].
  destruct (backend_commit (backend s) (overlay_batch o)) as [r0 b'] eqn:Hc. cbn [fst snd] in Hr, Hh'. subst r0. intros [= <- <-].
  split_and!; [done|done|]. right. exists (overlay_batch o). split; [apply overlay_batch_wf|done].
Qed.

(** ** Refinement *)

Section refinement.
Context {B : Type} `{BL : BackendLaws B btable}.
Implicit Type s : Store B.

Definition store_abs s : TxKv :=
  mkTxKv (btable (backend s)) ((λ o, overlay_view o (btable (backend s))) <$> overlay s).

Lemma store_get_abs s k r : store_get s k = Ok r → r = tx_view (store_abs s) !! k.
Proof.
  unfold store_get, tx_view. cbn. destruct (overlay s) as [o|]; cbn.
  - rewrite lookup_overlay_view. destruct (o !! k); [by intros [= ->]|].
    apply backend_get_table.
  - apply backend_get_table.
Qed.

Lemma store_scan_abs s p r :
  store_scan_prefix s p = Ok r →
  r = btree_iter (filter (λ kv, starts_with p kv.1 = true) (tx_view (store_abs s))).
Proof.
  unfold store_scan_prefix, tx_view. destruct (backend_scan _ p) as [l|] eqn:Hl; [|done].
  cbn. intros [= <-]. apply backend_scan_table in Hl as ->. rewrite btree_collect_iter.
  destruct (overlay s) as [o|]; cbn; [by rewrite overlay_scan|done].
Qed.

Lemma store_dump_abs s r : store_dump s = Ok r → r = btree_iter (tx_view (store_abs s)).
Proof.
  unfold store_dump, tx_view. destruct (backend_dump _) as [l|] eqn:Hl; [|done].
  cbn. intros [= <-]. apply backend_dump_table in Hl as ->. rewrite btree_collect_iter.
  destruct (overlay s) as [o|]; cbn; [by rewrite fold_pending|done].
Qed.

(** A write lands in full or, when it reports an error, not at all. *)
Definition lands (r : result EngineError unit) (t' on_ok on_err : TxKv) : Prop :=
  t' = on_ok ∨ (is_ok r = false ∧ t' = on_err).

Lemma store_put_abs s k v r s' :
  store_put s k v = (r, s') →
  lands r (store_abs s') (tx_next (store_abs s) (TxPut k v)) (store_abs s).
Proof.
  unfold store_put, lands, tx_next, tx_write, store_abs. cbn.
  destruct (overlay s) as [o|] eqn:Ho; cbn.
  - intros [= <- <-]. left. cbn. by rewrite overlay_view_insert.
  - destruct (backend_put _ k v) as [r0 b0] eqn:Hb. intros [= <- <-]. cbn.
    rewrite Ho. apply backend_put_table in Hb as [-> | [? ->]]; auto.
Qed.

Lemma store_commit_abs s b r s' :
  batch_wf b → store_commit s b = (r, s') →
  lands r (store_abs s') (tx_next (store_abs s) (TxBatch b)) (store_abs s).
Proof.
  intros Hwf. unfold store_commit, lands, tx_next, tx_write, store_abs. cbn.
  destruct (overlay s) as [o|] eqn:Ho; cbn.
  - intros [= <- <-]. left. cbn. by rewrite pend_batch.
  - destruct (backend_commit _ b) as [r0 b0] eqn:Hb. intros [= <- <-]. cbn.
    rewrite Ho. apply backend_commit_table in Hb as [-> | [? ->]]; auto.
Qed.

Lemma store_commit_transaction_abs s r s' :
  store_commit_transaction s = (r, s') →
  lands r (store_abs s') (tx_next (store_abs s) TxCommit) (tx_failed (store_abs s) TxCommit).
Proof.
  unfold store_commit_transaction, lands, tx_next, tx_failed, store_abs, tx_view. cbn.
  destruct (overlay s) as [o|] eqn:Ho; cbn.
  - destruct (batch_is_empty _) eqn:He.
    + intros [= <- <-]. left. cbn. by rewrite overlay_batch_empty.
    + destruct (backend_commit _ _) as [r0 b0] eqn:Hb. intros [= <- <-]. cbn.
      apply backend_commit_table in Hb as [-> | [? ->]]; [left|by right|apply overlay_batch_wf].
      by rewrite overlay_batch_apply.
  - intros [= <- <-]. left. by rewrite Ho.
Qed.

Lemma store_run_abs s c r s' :
  tx_cmd_wf c → store_run s c = (r, s') →
  match r with
  | Ok reply => reply = tx_reply (store_abs s) c ∧ store_abs s' = tx_next (store_abs s) c
  | Err _ => store_abs s' = tx_failed (store_abs s) c ∨ store_abs s' = tx_next (store_abs s) c
  end.
Proof.
  assert (∀ (p : result EngineError unit * Store B) t1 t2,
    lands p.1 (store_abs p.2) t1 t2 →
    ((λ _, RUnit) <$> p.1, p.2) = (r, s') →
    match r with
    | Ok reply => reply = RUnit ∧ store_abs s' = t1
    | Err _ => store_abs s' = t2 ∨ store_abs s' = t1
    end) as Hunit.
  { intros [[u|e] s1] t1 t2 Hl; cbn in Hl |- *; intros [= <- <-];
      destruct Hl as [?|[? ?]]; by auto. }
  intros Hwf. destruct c as [| | |k v|b|k|p|]; cbn [store_run].
  - intros [= <- <-]. unfold store_abs. cbn. by rewrite overlay_view_empty.
  - apply Hunit. destruct (store_commit_transaction s) eqn:E.
    by apply store_commit_transaction_abs.
  - by intros [= <- <-].
  - apply Hunit. destruct (store_put s k v) eqn:E. by apply store_put_abs.
  - apply Hunit. destruct (store_commit s b) eqn:E. by apply store_commit_abs.
  - destruct (store_get s k) eqn:E; cbn; intros [= <- <-]; [|by left].
    by apply store_get_abs in E as ->.
  - destruct (store_scan_prefix s p) eqn:E; cbn; intros [= <- <-]; [|by left].
    by apply store_scan_abs in E as ->.
  - destruct (store_dump s) eqn:E; cbn; intros [= <- <-]; [|by left].
    by apply store_dump_abs in E as ->.
Qed.

(** Reading one's own writes, at the level a client needs. *)
Lemma store_get_put s k v s' k' :
  store_put s k v = (Ok tt, s') →
  tx_view (store_abs s') !! k'
  = if decide (k' = k) then Some v else tx_view (store_abs s) !! k'.
Proof.
  intros [->|[? _]]%store_put_abs; [|done]. unfold tx_next, tx_write, tx_view. cbn.
  destruct (overlay s); cbn; case_decide; subst;
    by rewrite ?lookup_insert_eq, ?lookup_insert_ne by done.
Qed.
End refinement.

Section strict.
Context {B : Type} `{SB : StrictBackend B}.
Implicit Type s : Store B.

Lemma store_get_strict s k : store_get s k = Ok (tx_view (store_abs (btable := btable) s) !! k).
Proof.
  destruct (store_get s k) as [r|err] eqn:E; [by apply store_get_abs in E as ->|].
  unfold store_get in E. rewrite strict_get in E. by repeat case_match.
Qed.

Lemma store_scan_strict s p :
  store_scan_prefix s p = Ok (btree_iter (filter (λ kv, starts_with p kv.1 = true) (tx_view (store_abs (btable := btable) s)))).
Proof.
  destruct (store_scan_prefix s p) as [r|err] eqn:E; [by apply store_scan_abs in E as ->|].
  unfold store_scan_prefix in E. by rewrite strict_scan in E.
Qed.

Lemma store_dump_strict s : store_dump s = Ok (btree_iter (tx_view (store_abs (btable := btable) s))).
Proof.
  destruct (store_dump s) as [r|err] eqn:E; [by apply store_dump_abs in E as ->|].
  unfold store_dump in E. by rewrite strict_dump in E.
Qed.

Lemma store_commit_strict s batch err s' :
  batch_wf batch → store_commit s batch = (Err err, s') → store_abs (btable := btable) s' = store_abs (btable := btable) s ∧ overlay s' = overlay s.
Proof.
  intros Hwf. unfold store_commit, store_abs. destruct (overlay s) as [o|] eqn:Ho; [done|].
  unfold store_backend_write. destruct (backend_commit _ batch) as [[u|e] b] eqn:E; intros [= <- <-].
  cbn [snd overlay backend]. rewrite Ho. cbn [backend overlay fmap option_fmap option_map].
  by rewrite (strict_commit _ _ _ _ Hwf E).
Qed.
End strict.

(** The specification as a step relation: an error may come before or after
    the write took effect. *)
Inductive tx_step (t : TxKv) (c : TxCmd) : result EngineError TxReply → TxKv → Prop :=
| tx_ok : tx_step t c (Ok (tx_reply t c)) (tx_next t c)
| tx_err e : tx_step t c (Err e) (tx_failed t c)
| tx_err_applied e : tx_step t c (Err e) (tx_next t c).

Inductive tx_steps : TxKv → list TxCmd → list (result EngineError TxReply) → TxKv → Prop :=
| tx_done t : tx_steps t [] [] t
| tx_more t c r t1 cs rs t2 :
    tx_step t c r t1 → tx_steps t1 cs rs t2 → tx_steps t (c :: cs) (r :: rs) t2.

Fixpoint store_runs {B} `{Backend B} (s : Store B) (cs : list TxCmd)
  : list (result EngineError TxReply) * Store B :=
  match cs with
  | [] => ([], s)
  | c :: cs' =>
      let '(r, s1) := store_run s c in
      let '(rs, s2) := store_runs s1 cs' in (r :: rs, s2)
  end.

(** C5: Any sequence of transaction control, writes and reads against any lawful
    backend behaves as one on the transactional key-value specification: reads
    in a transaction see its own writes over the committed table, commit
    installs all of them in one step, rollback discards them, an error leaves
    nothing half applied. *)
Theorem store_refines_transactional_kv {B} `{BackendLaws B btable} (cs : list TxCmd) (s s' : Store B) rs :
  Forall tx_cmd_wf cs → store_runs s cs = (rs, s') →
  tx_steps (store_abs (btable := btable) s) cs rs (store_abs (btable := btable) s').
Proof.
  intros Hcs. revert s rs. induction Hcs as [|c cs Hc Hcs IH]; intros s rs; cbn [store_runs].
  { intros [= <- <-]. constructor. }
  destruct (store_run s c) as [r s1] eqn:Hr. destruct (store_runs s1 cs) as [rs1 s2] eqn:Hrs.
  intros [= <- <-]. econstructor; [|by eapply IH].
  eapply store_run_abs in Hr; [|done]. destruct r as [reply|e].
  - destruct Hr as [-> ->]. constructor.
  - destruct Hr as [-> | ->]; constructor.
Qed.

Lemma store_refines_transactional_kv_witness :
  let s := store_local (mkLocal (storage_open []) []) in
  let cs := [TxPut (bs "a") (bs "1"); TxBegin; TxPut (bs "a") (bs "2"); TxGet (bs "a");
             TxRollback; TxGet (bs "a"); TxBegin; TxPut (bs "b") (bs "3"); TxCommit; TxDump] in
  let o := store_runs s cs in
  o.1 = [Ok RUnit; Ok RUnit; Ok RUnit; Ok (RValue (Some (bs "2"))); Ok RUnit;
         Ok (RValue (Some (bs "1"))); Ok RUnit; Ok RUnit; Ok RUnit;
         Ok (RPairs [(bs "a", bs "1"); (bs "b", bs "3")])]
  ∧ tx_steps (store_abs (btable := local_table) s) cs o.1 (store_abs (btable := local_table) o.2).
Proof.
  intros s cs o. split; [vm_compute; reflexivity|].
  apply (store_refines_transactional_kv cs s o.2 o.1); [repeat constructor|].
  apply surjective_pairing.
Defined.



(** When the file write of a commit fails, the transaction is over all the
    same: its buffered writes are gone and cannot be retried. *)
Theorem failed_commit_drops_transaction (st : Storage) ios o :
  batch_is_empty (overlay_batch o) = false →
  let s := mkStore (mkLocal st (IoShortWrite 0 :: ios)) (Some o) in
  store_commit_transaction s = (Err (EStorage StorageIo), mkStore (mkLocal st ios) None).
Proof.
  intros He. unfold store_commit_transaction. cbn [overlay backend]. rewrite He. cbn.
  unfold local_write. cbn [lb_storage lb_outcomes head tail default]. rewrite commit_unfold.
  unfold batch_is_empty in He. destruct (entries _); [done|]. cbn.
  by destruct st; cbn; rewrite app_nil_r.
Qed.

Lemma failed_commit_drops_transaction_witness :
  store_commit_transaction (mkStore (mkLocal (storage_open []) [IoShortWrite 0])
    (Some {[ bs "k" := Some (bs "v") ]}))
  = (Err (EStorage StorageIo), mkStore (mkLocal (storage_open []) []) None).
Proof. apply (failed_commit_drops_transaction (storage_open []) []). vm_compute. reflexivity. Defined.
