(* ===== verification/Sort.v ===== *)
(** * Comparators and the stable sort of the Rust standard library

    [slice::sort_by] is documented to be a stable sort: its result is
    determined by the comparator, and [stable_sort] below computes it.
    [TotalCmp P cmp] says that [cmp] is a total preorder on the elements that
    satisfy [P], which is what the standard library asks of a comparator. *)

From S2P Require Import Prelude.

Class TotalCmp {A} (P : A → Prop) (cmp : A → A → comparison) := {
  total_cmp_sym x y : P x → P y → cmp y x = CompOpp (cmp x y);
  total_cmp_trans x y z : P x → P y → P z → cmp x y ≠ Gt → cmp y z ≠ Gt → cmp x z ≠ Gt;
}.

(** [a.then(b)] *)
Definition cmp_then (a b : comparison) : comparison :=
  match a with Eq => b | c => c end.

Section stable_sort.
Context {A : Type} (cmp : A → A → comparison).

(** [x] goes before everything not smaller than it. *)
Fixpoint sort_insert (x : A) (l : list A) : list A :=
  match l with
  | [] => [x]
  | y :: l' =>
      match cmp x y with
      | Gt => y :: sort_insert x l'
      | _ => x :: y :: l'
      end
  end.

Definition stable_sort (l : list A) : list A := foldr sort_insert [] l.

Lemma sort_insert_perm x l : sort_insert x l ≡ₚ x :: l.
Proof.
  induction l as [|y l IH]; cbn; [done|].
  destruct (cmp x y); [done|done|]. rewrite IH. constructor.
Qed.

Lemma stable_sort_perm l : stable_sort l ≡ₚ l.
Proof.
  induction l as [|x l IH]; [done|]. cbn [stable_sort foldr].
  rewrite sort_insert_perm. by constructor.
Qed.

Context {P : A → Prop} `{HT : TotalCmp A P cmp}.

Definition cmp_le (x y : A) : Prop := cmp x y ≠ Gt.

Lemma cmp_gt_le x y : P x → P y → cmp x y = Gt → cmp_le y x.
Proof. intros Hx Hy Hg. unfold cmp_le. rewrite (total_cmp_sym x y), Hg by done. done. Qed.

Lemma sort_insert_sorted x l :
  P x → Forall P l → StronglySorted cmp_le l → StronglySorted cmp_le (sort_insert x l).
Proof.
  intros Hx Hl Hs. induction Hs as [|y l Hs IH Hall]; cbn; [by repeat constructor|].
  apply list.Forall_cons in Hl as [Hy Hl].
  assert (cmp x y ≠ Gt → StronglySorted cmp_le (x :: y :: l)) as Hle.
  { intros Hxy. constructor; [by constructor|]. constructor; [done|].
    rewrite list.Forall_forall in Hall, Hl |- *. intros z Hz.
    apply (total_cmp_trans x y z); auto. by apply Hall. }
  destruct (cmp x y) eqn:E; [by apply Hle|by apply Hle|].
  constructor; [by apply IH|]. rewrite sort_insert_perm.
  constructor; [by apply cmp_gt_le|done].
Qed.

Lemma stable_sort_sorted l : Forall P l → StronglySorted cmp_le (stable_sort l).
Proof.
  induction 1 as [|x l Hx Hl IH]; cbn; [constructor|].
  apply sort_insert_sorted; [done| |done]. by rewrite stable_sort_perm.
Qed.

(** Stability: elements the comparator does not tell apart from [z] keep their
    order. *)
Definition same_rank (z x : A) : Prop := cmp z x = Eq.
#[local] Instance same_rank_dec z x : Decision (same_rank z x).
Proof. unfold same_rank. solve_decision. Defined.

Lemma same_rank_le z x y : P x → P y → P z → same_rank z x → same_rank z y → cmp x y ≠ Gt.
Proof.
  unfold same_rank. intros Hx Hy Hz Hzx Hzy. apply (total_cmp_trans x z y); [done..| |].
  - rewrite (total_cmp_sym z x), Hzx by done. done.
  - by rewrite Hzy.
Qed.

Lemma sort_insert_stable z x l :
  P z → P x → Forall P l →
  filter (same_rank z) (sort_insert x l) = filter (same_rank z) (x :: l).
Proof.
  intros Hz Hx Hl. induction Hl as [|y l Hy Hl IH]; [done|]. cbn [sort_insert].
  destruct (cmp x y) eqn:E; [done|done|]. rewrite filter_cons, IH, !filter_cons.
  destruct (decide (same_rank z y)), (decide (same_rank z x)); try done.
  exfalso. by eapply (same_rank_le z x y).
Qed.

Lemma stable_sort_stable z l :
  P z → Forall P l → filter (same_rank z) (stable_sort l) = filter (same_rank z) l.
Proof.
  intros Hz. induction 1 as [|x l Hx Hl IH]; [done|]. cbn [stable_sort foldr].
  rewrite sort_insert_stable by (rewrite ?stable_sort_perm; done).
  rewrite !filter_cons. fold (stable_sort l). by rewrite IH.
Qed.
End stable_sort.

(** ** Building comparators *)

Lemma Zcmp_total {A} (f : A → Z) : TotalCmp (λ _, True) (λ x y, f x ?= f y).
Proof.
  split; intros; [apply Z.compare_antisym|].
  rewrite !Z.compare_gt_iff in *. lia.
Qed.

Lemma cmp_then_le {A} (c1 c2 : A → A → comparison) x y :
  cmp_then (c1 x y) (c2 x y) ≠ Gt ↔ c1 x y = Lt ∨ (c1 x y = Eq ∧ c2 x y ≠ Gt).
Proof. unfold cmp_then. destruct (c1 x y); naive_solver. Qed.

Lemma total_lt_le {A} (P : A → Prop) cmp `{TotalCmp A P cmp} x y z :
  P x → P y → P z → cmp x y ≠ Gt → cmp y z ≠ Gt → cmp x y = Lt ∨ cmp y z = Lt → cmp x z = Lt.
Proof.
  intros Hx Hy Hz Hxy Hyz Hlt.
  pose proof (total_cmp_trans x y z Hx Hy Hz Hxy Hyz) as Hxz.
  destruct (cmp x z) eqn:E; [|done|done].
  assert (cmp z x ≠ Gt) as Hzx by (by rewrite (total_cmp_sym x z), E by done).
  exfalso. destruct Hlt as [Hlt|Hlt].
  - apply (total_cmp_trans y z x) in Hzx; [|done..]. by rewrite (total_cmp_sym x y), Hlt in Hzx by done.
  - apply (total_cmp_trans z x y) in Hzx; [|done..]. by rewrite (total_cmp_sym y z), Hlt in Hzx by done.
Qed.

#[export] Instance cmp_then_total {A} (P : A → Prop) c1 c2 :
  TotalCmp P c1 → TotalCmp P c2 → TotalCmp P (λ x y, cmp_then (c1 x y) (c2 x y)).
Proof.
  intros H1 H2. split.
  - intros x y Hx Hy. rewrite (total_cmp_sym (cmp := c1) x y), (total_cmp_sym (cmp := c2) x y) by done.
    by destruct (c1 x y).
  - intros x y z Hx Hy Hz. rewrite !cmp_then_le. intros Hxy Hyz.
    assert (c1 x y ≠ Gt ∧ c1 y z ≠ Gt) as [Hxy1 Hyz1] by naive_solver congruence.
    pose proof (total_cmp_trans (cmp := c1) x y z Hx Hy Hz Hxy1 Hyz1) as Hxz.
    destruct (c1 x z) eqn:E; [|by left|done]. right. split; [done|].
    pose proof (total_lt_le P c1 x y z Hx Hy Hz Hxy1 Hyz1) as Hlt. rewrite E in Hlt.
    destruct Hxy as [?|[_ Hxy]]; [by exfalso; discriminate Hlt; left|].
    destruct Hyz as [?|[_ Hyz]]; [by exfalso; discriminate Hlt; right|].
    by apply (total_cmp_trans (cmp := c2) x y z).
Qed.

Lemma cmp_pull {A B} (f : A → B) (P : B → Prop) cmp :
  TotalCmp P cmp → TotalCmp (λ x, P (f x)) (λ x y, cmp (f x) (f y)).
Proof.
  intros H. split; intros *; [apply total_cmp_sym|].
  intros Hx Hy Hz. by apply total_cmp_trans.
Qed.

(** A reversed comparator ([cmp(b, a)], [.reverse()]). *)
Lemma cmp_flip_total {A} (P : A → Prop) cmp :
  TotalCmp P cmp → TotalCmp P (λ x y, CompOpp (cmp x y)).
Proof.
  intros H. split.
  - intros x y Hx Hy. by rewrite (total_cmp_sym x y).
  - intros x y z Hx Hy Hz.
    rewrite <- !(total_cmp_sym (P := P) (cmp := cmp)) by done. intros ??.
    by apply (total_cmp_trans z y x).
Qed.
