(* ===== verification/Exprs.v ===== *)
(** * Predicates, comparison and index selection

    ciphra-engine/src/lib.rs from [pk_column] to [CompiledExpr::eval]:
    literals become typed values, predicates are resolved against a schema
    and evaluated in three-valued logic, and the planner's helpers read off a
    predicate which column an index can answer.  [row[i]] panics out of range
    in the source; here it is [!!!], and [compile_expr_in_range] shows that a
    compiled predicate only indexes columns of its schema. *)

From S2P Require Import Prelude BTree Sort Float SqlAst Values Codec.

(** ** Small helpers of the source *)

Definition enumerate {A} (l : list A) : list (nat * A) := imap pair l.

Fixpoint find_map {A B} (f : A → option B) (l : list A) : option B :=
  match l with
  | [] => None
  | x :: l' => match f x with Some y => Some y | None => find_map f l' end
  end.

Definition or_else {A} (a b : option A) : option A :=
  match a with Some _ => a | None => b end.

(** [Debug] of a column type in an error message. *)
Definition debug_type (ty : DataType) : bytes :=
  match ty with
  | TyInt => bs "Int"
  | TyReal => bs "Real"
  | TyText => bs "Text"
  | TyVector dim => bs "Vector(" ++ show_Z dim ++ bs ")"
  end.

(** ** Columns of a schema *)

Definition pk_column (schema : TableSchema) : option nat :=
  position cd_primary_key (ts_columns schema).

Definition columns_where (f : ColumnDef → bool) (schema : TableSchema) : list nat :=
  map fst (filter (λ ic, f ic.2 = true) (enumerate (ts_columns schema))).

Definition range_indexed_columns : TableSchema → list nat := columns_where cd_range_indexed.
Definition maintained_columns : TableSchema → list nat :=
  columns_where (λ c, cd_primary_key c || cd_indexed c).

(** The row id in the last 8 bytes of a row key. *)
Definition rowid_from_key (key : bytes) : Z := from_be (drop (length key - 8) key).

(** ** Literals to values *)

Definition literal_to_value (l : Literal) : Value :=
  match l with
  | LNull => VNull
  | LInt n => VInt n
  | LReal x => VReal x
  | LText s => VText s
  | LVector v => VVector v
  end.

Definition coerce (literal : Literal) (column : ColumnDef) : result EngineError Value :=
  match literal, cd_ty column with
  | LNull, _ => Ok VNull
  | LInt n, TyInt => Ok (VInt n)
  | LReal x, TyReal => Ok (VReal x)
  | LInt n, TyReal => Ok (VReal (i64_as_f64 n))
  | LText s, TyText => Ok (VText s)
  | LVector v, TyVector dim =>
      if negb (Z.of_nat (length v) =? dim) then
        Err (EType "column {:?} is VECTOR({dim}), got a {}-dimensional vector"
               [cd_name column; show_Z dim; show_Z (Z.of_nat (length v))])
      else Ok (VVector v)
  | got, want =>
      Err (EType "column {:?} is {want:?}, got {got}"
             [cd_name column; debug_type want; show_literal got])
  end.

(** ** Comparison *)

Definition vector_bytes (v : list f32) : bytes := concat (map (le_bytes 4) v).

(** Total order for sorting within one (typed) column: NULLs first. *)
Definition compare_values (a b : Value) : comparison :=
  match a, b with
  | VNull, VNull => Eq
  | VNull, _ => Lt
  | _, VNull => Gt
  | VInt x, VInt y => x ?= y
  | VReal x, VReal y => f64_total_cmp x y
  | VInt x, VReal y => f64_total_cmp (i64_as_f64 x) y
  | VReal x, VInt y => f64_total_cmp x (i64_as_f64 y)
  | VText x, VText y => bytes_cmp x y
  | VVector x, VVector y => bytes_cmp (vector_bytes x) (vector_bytes y)
  | (VInt _ | VReal _), _ => Lt
  | _, (VInt _ | VReal _) => Gt
  | VText _, _ => Lt
  | _, VText _ => Gt
  end.

Definition range_entry_cmp (a b : Value * Z) : comparison :=
  cmp_then (compare_values a.1 b.1) (a.2 ?= b.2).

Definition sort_range_entries : list (Value * Z) → list (Value * Z) :=
  stable_sort range_entry_cmp.

(** [Ordering::is_eq] and the others, by operator. *)
Definition op_holds (op : CmpOp) (ordering : comparison) : bool :=
  match op, ordering with
  | CEq, Eq => true
  | CNe, (Lt | Gt) => true
  | CLt, Lt => true
  | CGt, Gt => true
  | CLe, (Lt | Eq) => true
  | CGe, (Gt | Eq) => true
  | _, _ => false
  end.

(** Cosine distance; zero-norm inputs pin to 1. *)
Definition cosine_step (acc : f64 * f64 * f64) (xy : f32 * f32) : f64 * f64 * f64 :=
  let '(dot, norm_a, norm_b) := acc in
  let x := f64_from_f32 xy.1 in
  let y := f64_from_f32 xy.2 in
  (f64_add dot (f64_mul x y), f64_add norm_a (f64_mul x x), f64_add norm_b (f64_mul y y)).

Definition cosine_distance (a b : list f32) : f32 :=
  let '(dot, norm_a, norm_b) := fold_left cosine_step (zip a b) (0, 0, 0) in
  if f64_eqb norm_a 0 || f64_eqb norm_b 0 then i64_as_f32 1
  else
    f64_as_f32 (f64_sub (i64_as_f64 1)
                  (f64_div dot (f64_mul (f64_sqrt norm_a) (f64_sqrt norm_b)))).

(** ** Compiled predicates *)

Inductive CompiledExpr : Type :=
| CCompare (column_index : nat) (column_name : bytes) (op : CmpOp) (value : Value)
| CIsNull (column_index : nat) (negated : bool)
| CNot (inner : CompiledExpr)
| CAnd (a b : CompiledExpr)
| COr (a b : CompiledExpr).

Definition resolve (schema : TableSchema) (column : bytes) : result EngineError nat :=
  ok_or (ESchema "unknown column {column:?} in table {:?}" [column; ts_name schema])
    (column_index schema column).

Fixpoint compile_expr (schema : TableSchema) (expr : Expr) : result EngineError CompiledExpr :=
  match expr with
  | ECompare column op value =>
      i ← resolve schema column;
      Ok (CCompare i column op (literal_to_value value))
  | EIsNull column negated =>
      i ← resolve schema column; Ok (CIsNull i negated)
  | ENot inner => e ← compile_expr schema inner; Ok (CNot e)
  | EAnd a b =>
      ca ← compile_expr schema a; cb ← compile_expr schema b; Ok (CAnd ca cb)
  | EOr a b =>
      ca ← compile_expr schema a; cb ← compile_expr schema b; Ok (COr ca cb)
  end.

(** The comparison of a cell with the literal's value: unknown on NULL, an
    error on vectors and on values of different types. *)
Definition compare_cell (column_name : bytes) (cell value : Value)
  : result EngineError (option comparison) :=
  match cell, value with
  | VNull, _ | _, VNull => Ok None
  | VInt a, VInt b => Ok (Some (a ?= b))
  | VReal a, VReal b => Ok (Some (f64_total_cmp a b))
  | VInt a, VReal b => Ok (Some (f64_total_cmp (i64_as_f64 a) b))
  | VReal a, VInt b => Ok (Some (f64_total_cmp a (i64_as_f64 b)))
  | VText a, VText b => Ok (Some (bytes_cmp a b))
  | VVector _, _ | _, VVector _ =>
      Err (EType "vector column {column_name:?} does not support comparisons; use ORDER BY {column_name} NEAREST TO [..]"
             [column_name])
  | _, _ =>
      Err (EType "cannot compare column {column_name:?} with a value of a different type"
             [column_name])
  end.

Fixpoint eval (e : CompiledExpr) (row : list Value) : result EngineError (option bool) :=
  match e with
  | CCompare i name op value =>
      o ← compare_cell name (row !!! i) value; Ok (option_map (op_holds op) o)
  | CIsNull i negated =>
      let is_null := value_eqb (row !!! i) VNull in
      Ok (Some (negb (Bool.eqb is_null negated)))
  | CNot inner => o ← eval inner row; Ok (option_map negb o)
  | CAnd a b =>
      va ← eval a row; vb ← eval b row;
      Ok match va, vb with
         | Some false, _ | _, Some false => Some false
         | Some true, Some true => Some true
         | _, _ => None
         end
  | COr a b =>
      va ← eval a row; vb ← eval b row;
      Ok match va, vb with
         | Some true, _ | _, Some true => Some true
         | Some false, Some false => Some false
         | _, _ => None
         end
  end.

(** A row matches only when the predicate is definitely true. *)
Definition matches (e : CompiledExpr) (row : list Value) : result EngineError bool :=
  o ← eval e row; Ok (bool_decide (o = Some true)).

(** ** What an index can answer *)

Definition is_range_op (op : CmpOp) : bool := negb (bool_decide (op = CNe)).

Fixpoint range_pred_value (expr : CompiledExpr) (col : nat) : option (CmpOp * Value) :=
  match expr with
  | CCompare i _ op value =>
      if (i =? col)%nat && negb (value_eqb value VNull) && is_range_op op
      then Some (op, value) else None
  | CAnd a b => or_else (range_pred_value a col) (range_pred_value b col)
  | _ => None
  end.

Definition range_indexed_pred (expr : CompiledExpr) (schema : TableSchema)
  : option (nat * CmpOp * Value) :=
  find_map (λ ic, (λ ov, (ic.1, ov.1, ov.2)) <$> range_pred_value expr ic.1)
    (filter (λ ic, cd_range_indexed ic.2 = true) (enumerate (ts_columns schema))).

Fixpoint eq_value_for (expr : CompiledExpr) (col : nat) : option Value :=
  match expr with
  | CCompare i _ op value =>
      if (i =? col)%nat && bool_decide (op = CEq) && negb (value_eqb value VNull)
      then Some value else None
  | CAnd a b => or_else (eq_value_for a col) (eq_value_for b col)
  | _ => None
  end.

(** The primary key if pinned, otherwise the first pinned indexed column. *)
Definition indexed_eq_value (expr : CompiledExpr) (schema : TableSchema) : option (nat * Value) :=
  let others :=
    find_map (λ ic, pair ic.1 <$> eq_value_for expr ic.1)
      (filter (λ ic, cd_indexed ic.2 = true) (enumerate (ts_columns schema))) in
  match pk_column schema with
  | Some pk =>
      match eq_value_for expr pk with
      | Some value => Some (pk, value)
      | None => others
      end
  | None => others
  end.

(** The columns compared by equality and by range, for the advisor. *)
Fixpoint collect_predicates (expr : CompiledExpr) (acc : gset bytes * gset bytes)
  : gset bytes * gset bytes :=
  let '(eq, range) := acc in
  match expr with
  | CCompare _ name op _ =>
      match op with
      | CEq => ({[ name ]} ∪ eq, range)
      | CNe => acc
      | _ => (eq, {[ name ]} ∪ range)
      end
  | CIsNull _ _ => acc
  | CNot inner => collect_predicates inner acc
  | CAnd a b | COr a b => collect_predicates b (collect_predicates a acc)
  end.
