(* ===== verification/ExprFacts.v ===== *)
(** * Predicates and index selection: what they mean

    The evaluator against a reference semantics, soundness of the column
    constraints the planner reads off a predicate, the order of typed values,
    and the typing of coerced literals. *)

From S2P Require Import Prelude BTree Sort Float SqlAst Values Codec Exprs.

(** ** Three-valued logic *)

(** False, unknown and true as 0, 1 and 2: the connectives are minimum,
    maximum and reflection. *)
Definition rank (o : option bool) : Z :=
  match o with Some false => 0 | None => 1 | Some true => 2 end.
Definition of_rank (z : Z) : option bool :=
  if z =? 0 then Some false else if z =? 1 then None else Some true.

Fixpoint kleene (e : CompiledExpr) (row : list Value) : Z :=
  match e with
  | CCompare i name op value =>
      match compare_cell name (row !!! i) value with
      | Ok (Some o) => if op_holds op o then 2 else 0
      | _ => 1
      end
  | CIsNull i negated => if eqb (bool_decide (row !!! i = VNull)) negated then 0 else 2
  | CNot inner => 2 - kleene inner row
  | CAnd a b => Z.min (kleene a row) (kleene b row)
  | COr a b => Z.max (kleene a row) (kleene b row)
  end.

(** The type errors of the comparisons of a predicate, left to right. *)
Fixpoint type_errors (e : CompiledExpr) (row : list Value) : list EngineError :=
  match e with
  | CCompare i name op value =>
      match compare_cell name (row !!! i) value with Err err => [err] | Ok _ => [] end
  | CIsNull _ _ => []
  | CNot inner => type_errors inner row
  | CAnd a b | COr a b => type_errors a row ++ type_errors b row
  end.

Lemma rank_of_rank o : of_rank (rank o) = o.
Proof. by destruct o as [[]|]. Qed.

Lemma value_eqb_null v : value_eqb v VNull = bool_decide (v = VNull).
Proof. by destruct v. Qed.

(** Evaluation yields a value whose rank is the reference's, or the first
    type error of the predicate. *)
Lemma eval_rank e row :
  match eval e row with
  | Ok o => type_errors e row = [] ∧ kleene e row = rank o
  | Err err => head (type_errors e row) = Some err
  end.
Proof.
  induction e as [i name op value|i negated|e IH|a IHa b IHb|a IHa b IHb]; cbn [eval type_errors kleene].
  - destruct (compare_cell _ _ _) as [[o|]|err]; cbn; [|done|done].
    split; [done|]. by destruct (op_holds op o).
  - rewrite value_eqb_null. split; [done|]. by destruct (bool_decide _), negated.
  - destruct (eval e row) as [o|err]; cbn in IH |- *; [|done].
    destruct IH as [-> ->]. split; [done|]. by destruct o as [[]|].
  - destruct (eval a row) as [oa|err]; cbn in IHa |- *; [|by rewrite head_app, IHa].
    destruct IHa as [-> ->]. cbn. destruct (eval b row) as [ob|err]; cbn in IHb |- *; [|done].
    destruct IHb as [-> ->]. split; [done|]. by destruct oa as [[]|], ob as [[]|].
  - destruct (eval a row) as [oa|err]; cbn in IHa |- *; [|by rewrite head_app, IHa].
    destruct IHa as [-> ->]. cbn. destruct (eval b row) as [ob|err]; cbn in IHb |- *; [|done].
    destruct IHb as [-> ->]. split; [done|]. by destruct oa as [[]|], ob as [[]|].
Qed.

(** C15: A [WHERE] predicate has SQL's three-valued semantics on every row: without
    a type error it evaluates to its Kleene value (AND is the minimum, OR the
    maximum, NOT the reflection; a comparison with NULL is unknown), and it
    fails exactly when one of its comparisons is ill typed, with the leftmost
    such error (there is no short-circuit past an error). *)
Theorem eval_is_kleene e row :
  eval e row = match head (type_errors e row) with
               | Some err => Err err
               | None => Ok (of_rank (kleene e row))
               end.
Proof.
  pose proof (eval_rank e row) as H. destruct (eval e row) as [o|err].
  - destruct H as [-> ->]. by rewrite rank_of_rank.
  - by rewrite H.
Qed.

(** ** Order of values *)

(** Values of one column type; NULL is of every kind. *)
Definition same_kind (a b : Value) : bool :=
  match a, b with
  | VNull, _ | _, VNull | VInt _, VInt _ | VReal _, VReal _
  | VText _, VText _ | VVector _, VVector _ => true
  | _, _ => false
  end.

Definition value_fits (ty : DataType) (v : Value) : Prop :=
  wf_value v ∧
  match v, ty with
  | VNull, _ | VInt _, TyInt | VReal _, TyReal | VText _, TyText => True
  | VVector v, TyVector dim => Z.of_nat (length v) = dim
  | _, _ => False
  end.

Lemma value_fits_kind ty a b : value_fits ty a → value_fits ty b → same_kind a b = true.
Proof. unfold value_fits. destruct a, b, ty; naive_solver. Qed.

Lemma vector_bytes_inj v w :
  Forall (in_u 32) v → Forall (in_u 32) w → vector_bytes v = vector_bytes w → v = w.
Proof.
  unfold vector_bytes. intros Hv. revert w.
  induction Hv as [|x v Hx Hv IH]; intros [|y w] Hw; cbn [map concat]; try done.
  apply list.Forall_cons in Hw as [Hy Hw]. intros H.
  apply app_inj_1 in H as [Hxy H]; [|by rewrite !length_bytes_le].
  apply le_bytes_inj in Hxy as ->; [|done..]. f_equal. by apply IH.
Qed.

Lemma f64_total_cmp_total : TotalCmp (λ _, True) f64_total_cmp.
Proof. apply (Zcmp_total (total_key 64)). Qed.

Lemma bytes_cmp_total : TotalCmp (λ _, True) bytes_cmp.
Proof.
  split; intros *; [intros; apply bytes_cmp_antisym|].
  intros _ _ _ H1 H2. change (bytes_le x z). by trans y.
Qed.

(** On the values of a column type, [compare_values] is a total order. *)
#[export] Instance compare_values_total ty : TotalCmp (value_fits ty) compare_values.
Proof.
  split.
  - intros x y _ _. destruct x, y; cbn; try done; first
      [ apply Z.compare_antisym | apply (total_cmp_sym (cmp := f64_total_cmp)); done
      | apply bytes_cmp_antisym ].
  - intros x y z Hx Hy Hz.
    pose proof (value_fits_kind _ _ _ Hx Hy). pose proof (value_fits_kind _ _ _ Hy Hz).
    pose proof (value_fits_kind _ _ _ Hx Hz).
    destruct x, y, z; cbn in *; try done.
    + rewrite !Z.compare_gt_iff. lia.
    + by apply (total_cmp_trans (TotalCmp := f64_total_cmp_total)).
    + by apply (total_cmp_trans (TotalCmp := bytes_cmp_total)).
    + by apply (total_cmp_trans (TotalCmp := bytes_cmp_total)).
Qed.

Lemma compare_values_eq a b :
  wf_value a → wf_value b → same_kind a b = true → compare_values a b = Eq → a = b.
Proof.
  destruct a as [|n|x|s|v], b as [|m|y|t|w]; cbn; intros Ha Hb Hk; try done; intros H.
  - by apply Z.compare_eq in H as ->.
  - by apply f64_total_cmp_eq in H as ->.
  - by apply bytes_cmp_eq in H as ->.
  - apply bytes_cmp_eq, vector_bytes_inj in H as ->; done.
Qed.

(** The sort of a range index: the same entries, in value order and by row id
    within a value, whatever order they came in. *)
Definition entry_fits_type (ty : DataType) (e : Value * Z) : Prop := value_fits ty e.1.

#[export] Instance range_entry_total ty : TotalCmp (entry_fits_type ty) range_entry_cmp.
Proof.
  apply (cmp_then_total (entry_fits_type ty)
    (λ a b, compare_values a.1 b.1) (λ a b, a.2 ?= b.2)).
  - apply (cmp_pull fst (value_fits ty)). apply _.
  - pose proof (Zcmp_total (@snd Value Z)) as H.
    split; intros; [by apply H|by eapply (total_cmp_trans (TotalCmp := H) x y z)].
Qed.

Lemma range_entry_cmp_eq ty a b :
  entry_fits_type ty a → entry_fits_type ty b → range_entry_cmp a b = Eq → a = b.
Proof.
  destruct a as [v i], b as [w j]. unfold range_entry_cmp, entry_fits_type, cmp_then. cbn.
  intros Hv Hw. destruct (compare_values v w) eqn:E; try done.
  apply compare_values_eq in E as ->; [|apply Hv|apply Hw|by eapply value_fits_kind].
  by intros ->%Z.compare_eq.
Qed.

(** Sorting range-index entries of one column type gives the one sorted permutation, whatever order they came in. *)
Theorem sort_range_entries_canonical ty es es' :
  Forall (entry_fits_type ty) es → es' ≡ₚ es →
  sort_range_entries es' = sort_range_entries es
  ∧ sort_range_entries es ≡ₚ es
  ∧ StronglySorted (cmp_le range_entry_cmp) (sort_range_entries es).
Proof.
  intros Hes Hp. split_and!; [|apply stable_sort_perm|by apply (stable_sort_sorted _ (P := entry_fits_type ty))].
  assert (Forall (entry_fits_type ty) es') as Hes' by by rewrite Hp.
  unfold sort_range_entries.
  assert (AntiSymm (λ a b, entry_fits_type ty a → entry_fits_type ty b → a = b) (cmp_le range_entry_cmp)) as Hanti.
  { intros a b Hab Hba Ha Hb. apply (range_entry_cmp_eq ty); [done..|].
    unfold cmp_le in *. rewrite (total_cmp_sym (cmp := range_entry_cmp) a b) in Hba by done.
    by destruct (range_entry_cmp a b). }
  apply (StronglySorted_unique_strong (cmp_le range_entry_cmp)).
  - intros a b Ha Hb. rewrite !stable_sort_perm in *. rewrite list.Forall_forall in Hes, Hes'.
    intros Hab Hba. by apply Hanti; auto.
  - by apply (stable_sort_sorted _ (P := entry_fits_type ty)).
  - by apply (stable_sort_sorted _ (P := entry_fits_type ty)).
  - by rewrite !stable_sort_perm.
Qed.

Lemma sort_range_entries_canonical_witness :
  sort_range_entries [(VInt 7, 2); (VNull, 9); (VInt (-1), 4); (VInt 7, 1)]
  = [(VNull, 9); (VInt (-1), 4); (VInt 7, 1); (VInt 7, 2)]
  ∧ sort_range_entries [(VInt 7, 1); (VInt 7, 2); (VInt (-1), 4); (VNull, 9)]
  = sort_range_entries [(VInt 7, 2); (VNull, 9); (VInt (-1), 4); (VInt 7, 1)].
Proof.
  split; [reflexivity|].
  apply (sort_range_entries_canonical TyInt).
  - repeat constructor; cbn; unfold in_i64; lia.
  - apply (bool_decide_unpack _). vm_compute. exact I.
Defined.

(** ** What the planner reads off a predicate *)

(** Where a comparison is defined it is the sort order of values. *)
Lemma compare_cell_values name cell v o :
  compare_cell name cell v = Ok (Some o) → o = compare_values cell v ∧ cell ≠ VNull ∧ v ≠ VNull.
Proof. destruct cell, v; cbn; intros [= <-]; done. Qed.

(** A comparison on column [col] that holds of the row. *)
Definition pinned (col : nat) (op : CmpOp) (v : Value) (row : list Value) : Prop :=
  op_holds op (compare_values (row !!! col) v) = true ∧ row !!! col ≠ VNull ∧ v ≠ VNull.

Lemma eval_compare_true i name op v row :
  eval (CCompare i name op v) row = Ok (Some true) → pinned i op v row.
Proof.
  cbn. destruct (compare_cell _ _ _) as [[o|]|] eqn:E; try done. cbn. intros [= Ho].
  apply compare_cell_values in E as (-> & Hc & Hv). done.
Qed.

Lemma eval_and_true a b row :
  eval (CAnd a b) row = Ok (Some true) → eval a row = Ok (Some true) ∧ eval b row = Ok (Some true).
Proof.
  cbn. destruct (eval a row) as [[[]|]|]; cbn; [|destruct (eval b row) as [[[]|]|]; done..|done].
  destruct (eval b row) as [[[]|]|]; done.
Qed.

Lemma range_pred_value_sound e col op v row :
  eval e row = Ok (Some true) → range_pred_value e col = Some (op, v) → pinned col op v row ∧ op ≠ CNe.
Proof.
  induction e as [i name op' v'|i negated|e IH|a IHa b IHb|a IHa b IHb]; cbn [range_pred_value]; try done.
  - intros He. case_match eqn:Hc; [|done]. intros [= -> ->].
    apply andb_prop in Hc as [[Hi%Nat.eqb_eq _]%andb_prop Hop]. subst i.
    split; [by apply eval_compare_true in He|]. intros ->. done.
  - intros [Ha Hb]%eval_and_true. unfold or_else.
    destruct (range_pred_value a col); [by intros [= ->]; apply IHa|by apply IHb].
Qed.

Lemma eq_value_sound e col v row :
  eval e row = Ok (Some true) → eq_value_for e col = Some v → pinned col CEq v row.
Proof.
  induction e as [i name op' v'|i negated|e IH|a IHa b IHb|a IHa b IHb]; cbn [eq_value_for]; try done.
  - intros He. case_match eqn:Hc; [|done]. intros [= ->].
    apply andb_prop in Hc as [[Hi%Nat.eqb_eq Hop%bool_decide_eq_true]%andb_prop _]. subst i op'.
    by apply eval_compare_true in He.
  - intros [Ha Hb]%eval_and_true. unfold or_else.
    destruct (eq_value_for a col); [by intros [= ->]; apply IHa|by apply IHb].
Qed.

(** An equality pin names the very value the column holds, bit for bit,
    whenever the two are of one kind: what an index keyed by the encoded value
    relies on. *)
Lemma eq_pin_exact col v row :
  pinned col CEq v row → wf_value (row !!! col) → wf_value v →
  same_kind (row !!! col) v = true → row !!! col = v.
Proof.
  intros (Ho & _ & _) Hc Hv Hk. apply compare_values_eq; [done..|].
  by destruct (compare_values _ _).
Qed.

Lemma find_map_Some {A B} (f : A → option B) l y :
  find_map f l = Some y → ∃ x, x ∈ l ∧ f x = Some y.
Proof.
  induction l as [|x l IH]; cbn; [done|]. destruct (f x) eqn:E.
  - intros [= ->]. exists x. split; [apply list_elem_of_here|done].
  - intros (x' & Hx & Hf)%IH. exists x'. split; [by apply list_elem_of_further|done].
Qed.

Lemma elem_of_enumerate {A} (l : list A) i x : (i, x) ∈ enumerate l ↔ l !! i = Some x.
Proof.
  unfold enumerate. rewrite list_elem_of_lookup. split.
  - intros (j & Hj). rewrite list_lookup_imap in Hj.
    destruct (l !! j) eqn:E; cbn in Hj; [|done]. by simplify_eq.
  - intros Hi. exists i. by rewrite list_lookup_imap, Hi.
Qed.

Lemma position_Some {A} (f : A → bool) l i :
  position f l = Some i → ∃ x, l !! i = Some x ∧ f x = true.
Proof.
  revert i. induction l as [|x l IH]; intros i; cbn; [done|]. destruct (f x) eqn:E.
  - intros [= <-]. by exists x.
  - destruct (position f l) as [j|]; [|done]. intros [= <-]. by apply IH.
Qed.

Lemma position_None {A} (f : A → bool) l :
  position f l = None ↔ ∀ x, x ∈ l → f x = false.
Proof.
  induction l as [|x l IH]; cbn; [set_solver|]. destruct (f x) eqn:E.
  - split; [done|]. intros H. rewrite (H x) in E; [done|apply list_elem_of_here].
  - destruct (position f l); cbn.
    + split; [done|]. intros H. exfalso.
      destruct IH as [_ IH]. discriminate IH. intros y Hy. apply H. by apply list_elem_of_further.
    + split; [|done]. intros _ y [->|Hy]%elem_of_cons; [done|]. by apply IH.
Qed.

(** C16: The access path the planner picks is sound for every row of the result: a
    row the predicate accepts satisfies the comparison read off for the index,
    and the column picked is one the schema declares indexed. *)
Theorem index_choice_sound schema e row :
  matches e row = Ok true →
  (∀ col v, indexed_eq_value e schema = Some (col, v) →
     pinned col CEq v row
     ∧ ∃ c, ts_columns schema !! col = Some c ∧ (cd_primary_key c = true ∨ cd_indexed c = true))
  ∧ (∀ col op v, range_indexed_pred e schema = Some (col, op, v) →
     pinned col op v row ∧ op ≠ CNe
     ∧ ∃ c, ts_columns schema !! col = Some c ∧ cd_range_indexed c = true).
Proof.
  unfold matches. destruct (eval e row) as [o|] eqn:He; [|done]. cbn. intros [= Ho%bool_decide_eq_true].
  subst o. split.
  - intros col v. unfold indexed_eq_value.
    assert (find_map (λ ic, pair ic.1 <$> eq_value_for e ic.1)
      (filter (λ ic, cd_indexed ic.2 = true) (enumerate (ts_columns schema))) = Some (col, v) →
      pinned col CEq v row
      ∧ ∃ c, ts_columns schema !! col = Some c ∧ (cd_primary_key c = true ∨ cd_indexed c = true)) as Hothers.
    { intros ([i c] & [Hc Hin%elem_of_enumerate]%list_elem_of_filter & Hf)%find_map_Some. cbn in *.
      destruct (eq_value_for e i) eqn:Hq; [|done]. injection Hf as <- <-.
      apply eq_value_sound with (row := row) in Hq; eauto. }
    unfold pk_column. destruct (position _ _) as [pk|] eqn:Hpk; [|done].
    destruct (eq_value_for e pk) eqn:Hq; [|done]. intros [= <- <-].
    apply eq_value_sound with (row := row) in Hq; [|done]. apply position_Some in Hpk. naive_solver.
  - intros col op v. unfold range_indexed_pred.
    intros ([i c] & [Hc Hin%elem_of_enumerate]%list_elem_of_filter & Hf)%find_map_Some. cbn in *.
    destruct (range_pred_value e i) as [[op' v']|] eqn:Hq; [|done]. injection Hf as <- <- <-.
    apply range_pred_value_sound with (row := row) in Hq as [? ?]; eauto.
Qed.

Lemma index_choice_sound_witness :
  let c := mkColumnDef (bs "age") TyInt true false false true in
  let schema := mkTableSchema (bs "t") [c] in
  let e := CAnd (CCompare 0 (bs "age") CGe (VInt 18)) (CIsNull 0 true) in
  pinned 0 CGe (VInt 18) [VInt 30] ∧ range_indexed_pred e schema = Some (0%nat, CGe, VInt 18).
Proof.
  intros c schema e. split; [|reflexivity].
  apply (index_choice_sound schema e [VInt 30]); reflexivity.
Defined.

(** ** Compilation *)

Fixpoint expr_columns (e : Expr) : list bytes :=
  match e with
  | ECompare column _ _ | EIsNull column _ => [column]
  | ENot inner => expr_columns inner
  | EAnd a b | EOr a b => expr_columns a ++ expr_columns b
  end.

Fixpoint in_columns (n : nat) (e : CompiledExpr) : Prop :=
  match e with
  | CCompare i _ _ _ | CIsNull i _ => (i < n)%nat
  | CNot inner => in_columns n inner
  | CAnd a b | COr a b => in_columns n a ∧ in_columns n b
  end.

Lemma column_index_bound schema name i :
  column_index schema name = Some i → (i < length (ts_columns schema))%nat.
Proof. intros (x & Hx & _)%position_Some. by apply lookup_lt_Some in Hx. Qed.

Lemma resolve_ok schema name :
  is_ok (resolve schema name) = bool_decide (name ∈ map cd_name (ts_columns schema)).
Proof.
  unfold resolve, column_index. destruct (position _ _) as [i|] eqn:E; cbn.
  - apply position_Some in E as (c & Hc%list_elem_of_lookup_2 & Hn%bool_decide_eq_true).
    rewrite bool_decide_true; [done|]. rewrite <- Hn. by apply list_elem_of_fmap_2.
  - rewrite bool_decide_false; [done|]. intros (c & -> & Hc)%list_elem_of_fmap.
    apply (proj1 (position_None _ _) E) in Hc. by rewrite bool_decide_true in Hc.
Qed.

(** A compiled predicate never indexes past a row of its table. *)
Lemma compile_expr_in_range schema e ce :
  compile_expr schema e = Ok ce → in_columns (length (ts_columns schema)) ce.
Proof.
  revert ce. induction e as [c op l|c n|e IH|a IHa b IHb|a IHa b IHb]; cbn; intros ce.
  1,2: unfold resolve; destruct (column_index schema c) eqn:E; cbn; [|done]; intros [= <-];
    by apply column_index_bound in E.
  - destruct (compile_expr schema e) eqn:E; cbn; [|done]. intros [= <-]. cbn. by apply IH.
  - destruct (compile_expr schema a) eqn:Ea, (compile_expr schema b) eqn:Eb; cbn; try done.
    intros [= <-]. split; auto.
  - destruct (compile_expr schema a) eqn:Ea, (compile_expr schema b) eqn:Eb; cbn; try done.
    intros [= <-]. split; auto.
Qed.

(** Compilation fails exactly on a column the table does not have. *)
Lemma compile_expr_ok schema e :
  is_ok (compile_expr schema e)
  = forallb (λ c, bool_decide (c ∈ map cd_name (ts_columns schema))) (expr_columns e).
Proof.
  induction e as [c op l|c n|e IH|a IHa b IHb|a IHa b IHb]; cbn; rewrite ?forallb_app, ?andb_true_r.
  1,2: rewrite <- resolve_ok; by destruct (resolve schema c).
  - rewrite <- IH. by destruct (compile_expr schema e).
  - rewrite <- IHa, <- IHb. by destruct (compile_expr schema a), (compile_expr schema b).
  - rewrite <- IHa, <- IHb. by destruct (compile_expr schema a), (compile_expr schema b).
Qed.

(** ** Coercion *)

(** A literal a column of the type takes. *)
Definition literal_fits (l : Literal) (ty : DataType) : bool :=
  match l, ty with
  | LNull, _ | LInt _, (TyInt | TyReal) | LReal _, TyReal | LText _, TyText => true
  | LVector v, TyVector dim => Z.of_nat (length v) =? dim
  | _, _ => false
  end.

Definition wf_literal_value (l : Literal) : Prop := wf_value (literal_to_value l).

(** Coercion accepts exactly the literals of the column's type (an integer
    also for REAL) and yields a well-formed value of that type. *)
Lemma coerce_exact l c :
  wf_literal_value l →
  match coerce l c with
  | Ok v => literal_fits l (cd_ty c) = true ∧ value_fits (cd_ty c) v
  | Err e => literal_fits l (cd_ty c) = false ∧ ∃ fmt args, e = EType fmt args
  end.
Proof.
  unfold coerce, value_fits, wf_literal_value, literal_fits. intros Hl.
  destruct l as [|n|x|s|v], (cd_ty c); cbn in Hl |- *; try done; try (split; [done|by eauto]).
  - split; [done|]. split; [apply in_u_i64_as_f64|done].
  - destruct (Z.eqb_spec (Z.of_nat (length v)) dim); cbn; [done|]. split; [done|by eauto].
Qed.

(** ** Two boundary behaviours *)

(** The distance of a vector to itself can come out below zero: the norms are
    rounded before the division. *)
Theorem cosine_distance_below_zero :
  let v := [i64_as_f32 1; i64_as_f32 1; i64_as_f32 1] in
  f32_total_cmp (cosine_distance v v) 0 = Lt ∧ cosine_distance v v = 0xA5800000.
Proof. vm_compute. split; reflexivity. Qed.

(** A predicate may hold of a row through a mixed numeric comparison although
    the pinned value's encoding, which an index is keyed by, differs from the
    column's. *)
Theorem mixed_equality_not_indexed :
  let e := CCompare 0 (bs "n") CEq (VReal (i64_as_f64 1)) in
  matches e [VInt 1] = Ok true
  ∧ eq_value_for e 0 = Some (VReal (i64_as_f64 1))
  ∧ encode_row [VReal (i64_as_f64 1)] ≠ encode_row [VInt 1].
Proof. vm_compute. split_and!; done. Qed.
