(* ===== verification/AuditChain.v ===== *)
(** * The audit chain and its Merkle tree, as data

    ciphra-engine/src/lib.rs: [AuditEntry], [digest_batch], the walk of
    [audit_verify] over decrypted entries, [merkle_*], inclusion proofs and
    their verification.  The engine's use of them (keys, the store, the
    cached head) is in EngineState and EngineAudit. *)

From S2P Require Import Prelude Storage Sha256 Float Values Codec.

(** ** Entries *)

Definition AUDIT_ENTRY_LEN : nat := 8 + 8 + 1 + 16 + 32 + 32.
Definition AUDIT_ROOT_MESSAGE_TAG : bytes := bs "ciphra/audit-root/v1".
(** [[0u8; n]] *)
Definition zeros (n : nat) : bytes := replicate n Byte.x00.

(** [mod audit_kind] *)
Module audit_kind.
Definition CREATE_TABLE : byte := Byte.x01.
Definition DROP_TABLE : byte := Byte.x02.
Definition CREATE_INDEX : byte := Byte.x03.
Definition DROP_INDEX : byte := Byte.x04.
Definition INSERT : byte := Byte.x05.
Definition UPDATE : byte := Byte.x06.
Definition DELETE : byte := Byte.x07.
Definition ROTATE : byte := Byte.x08.
End audit_kind.

Record AuditEntry : Type := mkAuditEntry {
  ae_seq : Z;
  ae_time : Z;
  ae_kind : byte;
  ae_table_tag : bytes;
  ae_writes_digest : bytes;
  ae_prev_root : bytes;
}.

#[export] Instance AuditEntry_eq_dec : EqDecision AuditEntry.
Proof. solve_decision. Defined.

Definition audit_encode (e : AuditEntry) : bytes :=
  le_bytes 8 (ae_seq e) ++ le_bytes 8 (ae_time e) ++ [ae_kind e] ++
  ae_table_tag e ++ ae_writes_digest e ++ ae_prev_root e.

Definition audit_decode (b : bytes) : result EngineError AuditEntry :=
  if negb (length b =? AUDIT_ENTRY_LEN)%nat then Err (ECorrupt "bad audit entry" [])
  else
    Ok (mkAuditEntry (from_le (slice 0 8 b)) (from_le (slice 8 16 b)) (b !!! 16%nat)
          (slice 17 33 b) (slice 33 65 b) (slice 65 97 b)).

(** The chain root after the entry. *)
Definition audit_entry_root (e : AuditEntry) : bytes := sha256 (audit_encode e).

(** What the fields' types hold. *)
Record wf_audit_entry (e : AuditEntry) : Prop := {
  wf_ae_seq : in_u 64 (ae_seq e);
  wf_ae_time : in_u 64 (ae_time e);
  wf_ae_tag : length (ae_table_tag e) = 16%nat;
  wf_ae_digest : length (ae_writes_digest e) = 32%nat;
  wf_ae_prev : length (ae_prev_root e) = 32%nat;
}.

(** ** The chain *)

(** [(next sequence number, chain root)] *)
Abbreviation AuditHead := (Z * bytes)%type.
Definition audit_genesis : AuditHead := (0, zeros 32).

(** One step of [audit_verify], on the decrypted entry. *)
Definition audit_link (acc : list AuditEntry * bytes) (plain : bytes)
  : result EngineError (list AuditEntry * bytes) :=
  let '(es, root) := acc in
  entry ← audit_decode plain;
  if negb (ae_seq entry =? Z.of_nat (length es)) then
    Err (EAudit "audit chain has a gap: expected seq {}, found {}"
           [show_Z (Z.of_nat (length es)); show_Z (ae_seq entry)])
  else if negb (bool_decide (ae_prev_root entry = root)) then
    Err (EAudit "audit entry {} does not extend the previous root" [show_Z (ae_seq entry)])
  else Ok (es ++ [entry], audit_entry_root entry).

(** The whole walk and the comparison with the cached head. *)
Definition audit_chain_check (plains : list bytes) (head : AuditHead)
  : result EngineError (list AuditEntry) :=
  '(es, root) ← foldR audit_link ([], zeros 32) plains;
  if bool_decide ((Z.of_nat (length es), root) = head) then Ok es
  else Err (EAudit "audit head does not match the recomputed chain" []).

(** [digest_batch]: the bytes hashed, operation by operation. *)
Definition digest_chunks (batch : Batch) : list bytes :=
  concat (map (λ '(is_delete, key, value),
    [ byte1 (if is_delete : bool then 1 else 0);
      le_bytes 8 (Z.of_nat (length key)); key;
      le_bytes 8 (Z.of_nat (length value)); value ]) (batch_entries batch)).

Definition digest_batch (batch : Batch) : bytes :=
  sha256_stream (digest_chunks batch).

Definition audit_root_message (seq : Z) (root merkle_root : bytes) : bytes :=
  AUDIT_ROOT_MESSAGE_TAG ++ le_bytes 8 seq ++ root ++ merkle_root.

(** ** The Merkle tree *)

(** What is hashed for a leaf and for an inner node: different first bytes. *)
Definition leaf_input (entry_bytes : bytes) : bytes := [Byte.x00] ++ entry_bytes.
Definition node_input (left right : bytes) : bytes := [Byte.x01] ++ left ++ right.
Definition merkle_leaf (entry_bytes : bytes) : bytes := sha256 (leaf_input entry_bytes).
Definition merkle_node (left right : bytes) : bytes := sha256 (node_input left right).

(** The inner loop of [merkle_levels]: pairs are hashed, a lone last node is
    promoted unchanged. *)
Fixpoint merkle_next (cur : list bytes) : list bytes :=
  match cur with
  | a :: b :: rest => merkle_node a b :: merkle_next rest
  | rest => rest
  end.

(** The outer loop; [fuel] bounds the number of levels above the leaves. *)
Fixpoint merkle_levels_from (fuel : nat) (cur : list bytes) : list (list bytes) :=
  match fuel with
  | O => [cur]
  | S fuel' =>
      if (1 <? length cur)%nat then cur :: merkle_levels_from fuel' (merkle_next cur)
      else [cur]
  end.
Definition merkle_levels (leaves : list bytes) : list (list bytes) :=
  merkle_levels_from (length leaves) leaves.

(** [levels.last().unwrap().first().unwrap()] *)
Definition top_of (levels : list (list bytes)) : bytes :=
  match list.last levels with Some level => default [] (head level) | None => [] end.

Definition merkle_root_of (leaves : list bytes) : bytes :=
  match leaves with
  | [] => sha256 (bs "ciphra/merkle/empty/v1")
  | _ => top_of (merkle_levels leaves)
  end.

Record MerkleProof : Type := mkMerkleProof {
  mp_index : Z;
  mp_total : Z;
  mp_siblings : list bytes;
}.

(** The sibling loop of [audit_inclusion_proof] over all levels but the last. *)
Fixpoint merkle_siblings (levels : list (list bytes)) (pos : nat) : list bytes :=
  match levels with
  | [] | [_] => []
  | level :: levels' =>
      (if Nat.odd pos then [level !!! (pos - 1)%nat]
       else if (pos + 1 <? length level)%nat then [level !!! (pos + 1)%nat]
       else [])
      ++ merkle_siblings levels' (pos / 2)
  end.

(** [audit_inclusion_proof], on the verified entries. *)
Definition inclusion_proof (entries : list AuditEntry) (index : Z)
  : result EngineError (AuditEntry * MerkleProof * bytes) :=
  let idx := Z.to_nat index in
  match entries !! idx with
  | None =>
      Err (EAudit "no audit entry at index {index} (chain has {} entries)"
             [show_Z index; show_Z (Z.of_nat (length entries))])
  | Some entry =>
      let levels := merkle_levels (map (λ e, merkle_leaf (audit_encode e)) entries) in
      Ok (entry, mkMerkleProof index (Z.of_nat (length entries)) (merkle_siblings levels idx),
          top_of levels)
  end.

(** The loop of [verify_inclusion]: the hash reached and the siblings left, or
    [None] when they run out.  [size] halves (rounding up), so 64 rounds are
    enough for any [u64] (lemma [verify_fuel]). *)
Fixpoint verify_loop (fuel : nat) (hash : bytes) (pos size : Z) (siblings : list bytes)
  : option (bytes * list bytes) :=
  match fuel with
  | O => Some (hash, siblings)
  | S fuel' =>
      if size <=? 1 then Some (hash, siblings)
      else
        let up := λ h sibs, verify_loop fuel' h (pos / 2) ((size + 1) / 2) sibs in
        if pos mod 2 =? 1 then
          match siblings with
          | [] => None
          | sib :: rest => up (merkle_node sib hash) rest
          end
        else if pos + 1 <? size then
          match siblings with
          | [] => None
          | sib :: rest => up (merkle_node hash sib) rest
          end
        else up hash siblings
  end.

Definition verify_inclusion (entry : AuditEntry) (proof : MerkleProof) (root : bytes) : bool :=
  if negb (mp_index proof =? ae_seq entry) || (mp_total proof <=? mp_index proof) then false
  else
    match verify_loop 64 (merkle_leaf (audit_encode entry)) (mp_index proof) (mp_total proof)
            (mp_siblings proof) with
    | Some (hash, []) => bool_decide (hash = root)
    | _ => false
    end.
