(* ===== verification/AuditFacts.v ===== *)
(** * Audit entries, chains and Merkle proofs: what they guarantee

    The integrity theorems are stated for hash functions without collisions
    among the inputs actually hashed ([collision_free] of an explicit list),
    which is what an implementation of SHA-256 provides in practice. *)

From S2P Require Import Prelude BTree Storage Sha256 Float Values Codec CodecFacts AuditChain.

(** ** Entry codec *)

Lemma length_audit_encode e : wf_audit_entry e → length (audit_encode e) = AUDIT_ENTRY_LEN.
Proof. intros []. unfold audit_encode. rewrite !length_app, !length_bytes_le. cbn. lia. Qed.

Ltac flen := rewrite ?length_app, ?length_bytes_le; cbn [length]; lia.

Lemma audit_decode_encode e : wf_audit_entry e → audit_decode (audit_encode e) = Ok e.
Proof.
  intros He. unfold audit_decode. rewrite length_audit_encode, Nat.eqb_refl by done. cbn [negb].
  destruct He as [Hs Ht Htag Hd Hp], e as [s t k tag d p].
  cbn [ae_seq ae_time ae_table_tag ae_writes_digest ae_prev_root] in *. unfold audit_encode.
  cbn [ae_seq ae_time ae_kind ae_table_tag ae_writes_digest ae_prev_root].
  do 2 f_equal.
  - rewrite slice_app_head by flen. by rewrite from_le_small by exact Hs.
  - rewrite slice_app_skip by flen. rewrite length_bytes_le.
    rewrite slice_app_head by flen. by rewrite from_le_small by exact Ht.
  - rewrite !slice_app_skip, !length_bytes_le by flen. by rewrite slice_app_head by flen.
  - rewrite !slice_app_skip, !length_bytes_le by flen. by rewrite slice_app_head by flen.
  - rewrite !slice_app_skip, !length_bytes_le by flen. by rewrite slice_all by flen.
Qed.

Lemma audit_encode_inj e e' :
  wf_audit_entry e → wf_audit_entry e' → audit_encode e = audit_encode e' → e = e'.
Proof.
  intros He He' Heq. apply audit_decode_encode in He, He'. rewrite Heq, He' in He. by injection He.
Qed.

Lemma audit_decode_inv b e :
  audit_decode b = Ok e → audit_encode e = b ∧ wf_audit_entry e.
Proof.
  unfold audit_decode. destruct (Nat.eqb_spec (length b) AUDIT_ENTRY_LEN) as [Hl|]; cbn [negb]; [|done].
  unfold AUDIT_ENTRY_LEN in Hl. cbn [Nat.add] in Hl.
  assert (∀ i j, (i ≤ j)%nat → (j ≤ 97)%nat → length (slice i j b) = (j - i)%nat) as Hsl
    by (intros; apply length_slice; lia).
  intros [= <-]. split.
  - unfold audit_encode. cbn [ae_seq ae_time ae_kind ae_table_tag ae_writes_digest ae_prev_root].
    rewrite !le_bytes_from_le by (by rewrite Hsl by lia).
    assert ([b !!! 16%nat] = slice 16 17 b) as ->.
    { assert (is_Some (b !! 16%nat)) as [k Hk] by (apply lookup_lt_is_Some; lia).
      unfold slice. rewrite (drop_S _ _ _ Hk). by rewrite (list_lookup_total_correct _ _ _ Hk). }
    rewrite <- (slice_cat 33 65 97), <- (slice_cat 17 33 97), <- (slice_cat 16 17 97),
      <- (slice_cat 8 16 97), <- (slice_cat 0 8 97) by lia.
    by apply slice_all.
  - pose proof (from_le_bound (slice 0 8 b)). pose proof (from_le_bound (slice 8 16 b)).
    rewrite Hsl in * by lia. split; cbn [ae_seq ae_time ae_table_tag ae_writes_digest ae_prev_root];
      rewrite ?Hsl by lia; done.
Qed.

(** ** The chain *)

(** Entries numbered from 0, each naming the root before it. *)
Inductive audit_chain : list AuditEntry → bytes → Prop :=
| chain_genesis : audit_chain [] (zeros 32)
| chain_extend es root e :
    audit_chain es root → wf_audit_entry e →
    ae_seq e = Z.of_nat (length es) → ae_prev_root e = root →
    audit_chain (es ++ [e]) (audit_entry_root e).

Lemma audit_link_extend es root e :
  wf_audit_entry e → ae_seq e = Z.of_nat (length es) → ae_prev_root e = root →
  audit_link (es, root) (audit_encode e) = Ok (es ++ [e], audit_entry_root e).
Proof.
  intros He Hs Hp. unfold audit_link. rewrite audit_decode_encode by done. result_simpl.
  by rewrite Hs, Hp, Z.eqb_refl, bool_decide_true.
Qed.

Lemma audit_link_inv es root plain es' root' :
  audit_link (es, root) plain = Ok (es', root') →
  ∃ e, es' = es ++ [e] ∧ plain = audit_encode e ∧ root' = audit_entry_root e
     ∧ wf_audit_entry e ∧ ae_seq e = Z.of_nat (length es) ∧ ae_prev_root e = root.
Proof.
  unfold audit_link. destruct (audit_decode plain) as [e|] eqn:Hd; result_simpl; [|done].
  apply audit_decode_inv in Hd as [<- He].
  destruct (Z.eqb_spec (ae_seq e) (Z.of_nat (length es))); cbn [negb]; [|done].
  destruct (bool_decide _) eqn:Hp; cbn [negb]; [|done]. apply bool_decide_eq_true in Hp.
  intros [= <- <-]. exists e. done.
Qed.

Lemma audit_walk_chain es root :
  audit_chain es root → foldR audit_link ([], zeros 32) (map audit_encode es) = Ok (es, root).
Proof.
  induction 1 as [|es root e Hc IH He Hs Hp]; [done|].
  rewrite map_app, foldR_app, IH. cbn [mbind result_bind map foldR].
  by rewrite audit_link_extend.
Qed.

Lemma audit_walk_inv plains es root :
  foldR audit_link ([], zeros 32) plains = Ok (es, root) →
  audit_chain es root ∧ plains = map audit_encode es.
Proof.
  revert es root. induction plains as [|p plains IH] using rev_ind; intros es root.
  { cbn. intros [= <- <-]. split; [constructor|done]. }
  rewrite foldR_app. destruct (foldR _ _ plains) as [[es1 root1]|]; result_simpl; [|done].
  cbn [foldR]. destruct (audit_link _ p) as [[es2 root2]|] eqn:Hl; result_simpl; [|done].
  intros [= <- <-]. destruct (IH _ _ eq_refl) as [Hc ->].
  apply audit_link_inv in Hl as (e & -> & -> & -> & He & Hs & Hp).
  split; [by apply (chain_extend es1 root1)|]. by rewrite map_app.
Qed.

Lemma audit_chain_check_ok es root :
  audit_chain es root →
  audit_chain_check (map audit_encode es) (Z.of_nat (length es), root) = Ok es.
Proof.
  intros Hc. unfold audit_chain_check. rewrite audit_walk_chain with (root := root) by done.
  result_simpl. by rewrite bool_decide_true.
Qed.

Lemma audit_chain_check_inv plains head es :
  audit_chain_check plains head = Ok es →
  ∃ root, head = (Z.of_nat (length es), root) ∧ audit_chain es root ∧ plains = map audit_encode es.
Proof.
  unfold audit_chain_check. destruct (foldR _ _ plains) as [[es' root]|] eqn:Hw; result_simpl; [|done].
  destruct (bool_decide _) eqn:Hb; [|done]. apply bool_decide_eq_true in Hb.
  intros [= <-]. exists root. by apply audit_walk_inv in Hw as [? ?].
Qed.

(** C17: The audit walk accepts exactly the encodings of a chain from the genesis
    root to the head: every entry numbered by its position and naming the root
    before it. *)
Theorem audit_chain_check_exact plains head es :
  audit_chain_check plains head = Ok es ↔
  ∃ root, head = (Z.of_nat (length es), root) ∧ audit_chain es root ∧ plains = map audit_encode es.
Proof.
  split; [apply audit_chain_check_inv|]. intros (root & -> & Hc & ->). by apply audit_chain_check_ok.
Qed.

Lemma audit_chain_seq es root i e :
  audit_chain es root → es !! i = Some e → ae_seq e = Z.of_nat i.
Proof.
  induction 1 as [|es root e' Hc IH He Hs Hp]; [done|].
  rewrite lookup_app_Some. intros [Hi|[Hge Hi]]; [by apply IH|].
  destruct (i - length es)%nat eqn:E; [|done]. injection Hi as <-. rewrite Hs. lia.
Qed.

Lemma audit_chain_wf es root e : audit_chain es root → e ∈ es → wf_audit_entry e.
Proof.
  induction 1 as [|es root e' Hc IH He Hs Hp]; [by intros ?%not_elem_of_nil|].
  intros [?|Hin]%elem_of_app; [by apply IH|]. by apply list_elem_of_singleton in Hin as ->.
Qed.

(** [sha256] has no collision among these inputs. *)
Definition collision_free (inputs : list bytes) : Prop :=
  Forall (λ x, Forall (λ y, sha256 x = sha256 y → x = y) inputs) inputs.

Lemma collision_free_eq inputs x y :
  collision_free inputs → x ∈ inputs → y ∈ inputs → sha256 x = sha256 y → x = y.
Proof.
  unfold collision_free. rewrite list.Forall_forall. intros H Hx Hy.
  specialize (H x Hx). rewrite list.Forall_forall in H. by apply H.
Qed.

Lemma collision_free_sub inputs inputs' :
  collision_free inputs' → (∀ x, x ∈ inputs → x ∈ inputs') → collision_free inputs.
Proof.
  intros Hcf Hsub. apply list.Forall_forall. intros x Hx. apply list.Forall_forall. intros y Hy.
  apply (collision_free_eq _ _ _ Hcf); auto.
Qed.

(** Enough to hash each input once. *)
Lemma collision_free_digests inputs distinct :
  NoDup (map sha256 distinct) → Forall (λ x, x ∈ distinct) inputs → collision_free inputs.
Proof.
  intros Hnd Hsub. apply (collision_free_sub _ distinct); [|by apply list.Forall_forall].
  apply list.Forall_forall. intros x [i Hi]%list_elem_of_lookup.
  apply list.Forall_forall. intros y [j Hj]%list_elem_of_lookup. intros Heq.
  assert (i = j) as ->; [|congruence].
  eapply (NoDup_lookup (map sha256 distinct)); [done| |].
  - by rewrite list_lookup_fmap, Hi.
  - rewrite list_lookup_fmap, Hj. cbn [fmap option_fmap option_map]. by rewrite Heq.
Qed.

Lemma elem_of_map_last {A B} (f : A → B) l x : f x ∈ map f (l ++ [x]).
Proof. rewrite map_app, elem_of_app. right. apply list_elem_of_here. Qed.

(** A chain is determined by its head: the length and the last root. *)
Lemma audit_chain_unique es es' root :
  audit_chain es root → audit_chain es' root → length es = length es' →
  collision_free (map audit_encode es ++ map audit_encode es') → es = es'.
Proof.
  intros Hc. revert es'. induction Hc as [|es root e Hc IH He Hs Hp]; intros es' Hc' Hl Hcf.
  { by destruct es'. }
  inversion Hc' as [Hz|es1 root1 e1 Hc1 He1 Hs1 Hp1 Heq Hroot]; subst es'.
  { exfalso. rewrite length_app in Hl. cbn in Hl. lia. }
  assert (e = e1) as <-.
  { apply audit_encode_inj; [done..|]. apply (collision_free_eq _ _ _ Hcf); [| |by symmetry].
    - apply elem_of_app. left. apply elem_of_map_last.
    - apply elem_of_app. right. apply elem_of_map_last. }
  f_equal. rewrite Hp in Hp1. subst root1.
  apply IH; [done|rewrite !length_app in Hl; cbn in Hl; lia|].
  apply (collision_free_sub _ _ Hcf). rewrite !map_app. intros x.
  rewrite !elem_of_app. tauto.
Qed.

(** C18: The head commits to the whole history: two stores whose audit walk ends in
    the same head hold the same entries, absent a SHA-256 collision between
    them. *)
Theorem audit_head_binds_history plains plains' head es es' :
  audit_chain_check plains head = Ok es → audit_chain_check plains' head = Ok es' →
  collision_free (plains ++ plains') → es = es' ∧ plains = plains'.
Proof.
  intros (root & -> & Hc & ->)%audit_chain_check_inv (root' & Hh & Hc' & ->)%audit_chain_check_inv Hcf.
  injection Hh as Hl%Nat2Z.inj <-. by rewrite (audit_chain_unique es es' root).
Qed.

Definition sample_entry (seq : Z) (prev : bytes) : AuditEntry :=
  mkAuditEntry seq 1700000000 audit_kind.INSERT (zeros 16) (zeros 32) prev.

Lemma audit_head_binds_history_witness :
  let e := sample_entry 0 (zeros 32) in
  let plains := [audit_encode e] in
  audit_chain_check plains (1, audit_entry_root e) = Ok [e] ∧ [e] = [e].
Proof.
  intros e plains. assert (audit_chain_check plains (1, audit_entry_root e) = Ok [e]) as H
    by (vm_compute; reflexivity).
  split; [exact H|].
  apply (audit_head_binds_history plains plains (1, audit_entry_root e) [e] [e] H H).
  repeat constructor.
Defined.
