(* ===== verification/MerkleFacts.v ===== *)
(** * Merkle inclusion proofs: completeness and soundness

    A proof made by [inclusion_proof] verifies against the tree's root, for a
    tree of any shape; a proof that verifies against a tree's root is about
    one of the tree's entries, whatever its claimed total and siblings. *)

From S2P Require Import Prelude Storage Sha256 Values CodecFacts AuditChain AuditFacts.

(** ** One level *)

Lemma list_pair_ind {A} (P : list A → Prop) :
  P [] → (∀ x, P [x]) → (∀ x y l, P l → P (x :: y :: l)) → ∀ l, P l.
Proof.
  intros H0 H1 H2. fix IH 1. intros [|x [|y l]]; [done|apply H1|apply H2, IH].
Qed.

Lemma length_merkle_next cur : length (merkle_next cur) = ((length cur + 1) / 2)%nat.
Proof.
  induction cur as [|x|a b cur IH] using list_pair_ind; [done|done|].
  cbn [merkle_next length]. rewrite IH.
  replace (S (S (length cur)) + 1)%nat with (1 * 2 + (length cur + 1))%nat by lia.
  by rewrite Nat.div_add_l.
Qed.

Lemma merkle_next_pair cur i a b :
  cur !! (2 * i)%nat = Some a → cur !! (2 * i + 1)%nat = Some b →
  merkle_next cur !! i = Some (merkle_node a b).
Proof.
  revert i. induction cur as [|x|x y cur IH] using list_pair_ind; intros i Ha Hb.
  - done.
  - by destruct i.
  - destruct i as [|i]; cbn in Ha, Hb; [by simplify_eq|].
    cbn [merkle_next]. apply IH.
    + rewrite <- Ha. by replace (i + S (i + 0))%nat with (S (2 * i)) by lia.
    + rewrite <- Hb. by replace (i + S (i + 0) + 1)%nat with (S (2 * i + 1)) by lia.
Qed.

Lemma merkle_next_lone cur i a :
  cur !! (2 * i)%nat = Some a → length cur = (2 * i + 1)%nat → merkle_next cur !! i = Some a.
Proof.
  revert i. induction cur as [|x|x y cur IH] using list_pair_ind; intros i Ha Hl; cbn [length] in Hl.
  - lia.
  - by assert (i = 0%nat) as -> by lia.
  - destruct i as [|i]; [lia|]. cbn in Ha |- *. apply IH; [|lia].
    rewrite <- Ha. by replace (i + S (i + 0))%nat with (S (2 * i)) by lia.
Qed.

Lemma merkle_next_elem cur v :
  v ∈ merkle_next cur → v ∈ cur ∨ ∃ a b, v = merkle_node a b ∧ a ∈ cur ∧ b ∈ cur.
Proof.
  induction cur as [|x|x y cur IH] using list_pair_ind; cbn [merkle_next]; [by left|by left|].
  intros [->|Hv]%elem_of_cons.
  - right. exists x, y. rewrite !elem_of_cons. auto.
  - destruct (IH Hv) as [?|(a & b & -> & Ha & Hb)]; [left|right; exists a, b];
      rewrite !elem_of_cons; auto.
Qed.

(** ** Completeness *)

Lemma odd_mod (n : nat) : Nat.odd n = (Z.of_nat n mod 2 =? 1).
Proof.
  rewrite Zmod_odd. unfold Nat.odd. destruct (Nat.even n) eqn:E.
  - apply Nat.even_spec in E as [k ->]. rewrite Nat2Z.inj_mul, Z.odd_mul. done.
  - assert (Nat.odd n = true) as [k ->]%Nat.odd_spec by (unfold Nat.odd; by rewrite E).
    rewrite Nat2Z.inj_add, Nat2Z.inj_mul, Z.odd_add, Z.odd_mul. done.
Qed.

Lemma Z_half (n : nat) : Z.of_nat n / 2 = Z.of_nat (n / 2).
Proof. by rewrite Nat2Z.inj_div. Qed.

Lemma levels_from_top fuel cur :
  ∃ rest, merkle_levels_from fuel cur = cur :: rest.
Proof. destruct fuel; cbn; [by eexists|]. case_match; by eexists. Qed.

Lemma top_of_cons level levels : levels ≠ [] → top_of (level :: levels) = top_of levels.
Proof. unfold top_of. destruct levels; [done|]. by rewrite last_cons_cons. Qed.

Lemma merkle_siblings_cons level levels pos :
  levels ≠ [] →
  merkle_siblings (level :: levels) pos
  = (if Nat.odd pos then [level !!! (pos - 1)%nat]
     else if (pos + 1 <? length level)%nat then [level !!! (pos + 1)%nat] else [])
    ++ merkle_siblings levels (pos / 2).
Proof. by destruct levels. Qed.

(** Climbing with the siblings collected at [pos] ends at the top, and uses
    them all; [vf] rounds are enough for [2 ^ vf] leaves. *)
Lemma verify_climb vf lf cur pos h :
  cur !! pos = Some h → (length cur ≤ lf + 1)%nat → Z.of_nat (length cur) ≤ 2 ^ Z.of_nat vf →
  verify_loop vf h (Z.of_nat pos) (Z.of_nat (length cur))
    (merkle_siblings (merkle_levels_from lf cur) pos)
  = Some (top_of (merkle_levels_from lf cur), []).
Proof.
  revert lf cur pos h. induction vf as [|vf IH]; intros lf cur pos h Hh Hlf Hvf;
    pose proof (lookup_lt_Some _ _ _ Hh) as Hpos.
  { change (2 ^ Z.of_nat 0) with 1 in Hvf. assert (length cur = 1%nat) as Hone by lia.
    destruct cur as [|x [|]]; try (cbn in Hone; lia). assert (pos = 0%nat) as -> by (cbn in Hpos; lia).
    injection Hh as ->. by destruct lf. }
  cbn [verify_loop]. destruct (Z.leb_spec (Z.of_nat (length cur)) 1).
  { destruct cur as [|x [|]]; try (cbn in *; lia). assert (pos = 0%nat) as -> by (cbn in Hpos; lia).
    injection Hh as ->. by destruct lf. }
  destruct lf as [|lf]; [lia|]. cbn [merkle_levels_from].
  rewrite (proj2 (Nat.ltb_lt 1 (length cur))) by lia.
  destruct (levels_from_top lf (merkle_next cur)) as [rest Hrest].
  rewrite top_of_cons, merkle_siblings_cons by (by rewrite Hrest). clear rest Hrest.
  assert (Hlen : (Z.of_nat (length cur) + 1) / 2 = Z.of_nat (length (merkle_next cur))).
  { rewrite length_merkle_next, Nat2Z.inj_div, Nat2Z.inj_add. done. }
  rewrite Nat2Z.inj_succ, Z.pow_succ_r in Hvf by lia.
  assert (Hnext : ∀ h', merkle_next cur !! (pos / 2)%nat = Some h' →
    verify_loop vf h' (Z.of_nat pos / 2) ((Z.of_nat (length cur) + 1) / 2)
      (merkle_siblings (merkle_levels_from lf (merkle_next cur)) (pos / 2))
    = Some (top_of (merkle_levels_from lf (merkle_next cur)), [])).
  { intros h' Hh'. rewrite Hlen, Z_half. apply IH; [done| |].
    - rewrite length_merkle_next. assert ((length cur + 1) / 2 < length cur)%nat; [|lia].
      apply Nat.div_lt_upper_bound; lia.
    - rewrite <- Hlen. apply Z.lt_succ_r, Z.div_lt_upper_bound; lia. }
  rewrite <- odd_mod. destruct (Nat.odd pos) eqn:Hodd.
  - apply Nat.odd_spec in Hodd as [k ->].
    assert (is_Some (cur !! (2 * k)%nat)) as [sib Hsib] by (apply lookup_lt_is_Some; lia).
    replace (2 * k + 1 - 1)%nat with (2 * k)%nat by lia.
    rewrite (list_lookup_total_correct _ _ _ Hsib). cbn [app].
    apply Hnext. replace ((2 * k + 1) / 2)%nat with k; [by apply merkle_next_pair|].
    apply Nat.div_unique with 1%nat; lia.
  - assert (Nat.even pos = true) as [k ->]%Nat.even_spec by (unfold Nat.odd in Hodd; by destruct (Nat.even pos)).
    replace ((2 * k) / 2)%nat with k in * by (rewrite (Nat.mul_comm 2 k), Nat.div_mul; lia).
    destruct (Nat.ltb_spec (2 * k + 1) (length cur)).
    + rewrite (proj2 (Z.ltb_lt _ _)) by lia.
      assert (is_Some (cur !! (2 * k + 1)%nat)) as [sib Hsib] by (apply lookup_lt_is_Some; lia).
      rewrite (list_lookup_total_correct _ _ _ Hsib). cbn [app].
      apply Hnext. by apply merkle_next_pair.
    + rewrite (proj2 (Z.ltb_ge _ _)) by lia. cbn [app].
      apply Hnext. apply merkle_next_lone; [done|lia].
Qed.

Lemma inclusion_proof_verifies es root i e :
  audit_chain es root → es !! i = Some e → Z.of_nat (length es) < 2 ^ 64 →
  ∃ proof,
    inclusion_proof es (Z.of_nat i)
    = Ok (e, proof, merkle_root_of (map (λ e, merkle_leaf (audit_encode e)) es))
    ∧ verify_inclusion e proof (merkle_root_of (map (λ e, merkle_leaf (audit_encode e)) es)) = true.
Proof.
  intros Hc Hi Hlen. set (leaves := map _ es).
  assert (Hlv : length leaves = length es) by (unfold leaves; by rewrite length_map).
  pose proof (lookup_lt_Some _ _ _ Hi) as Hlt.
  assert (Hroot : merkle_root_of leaves = top_of (merkle_levels leaves)) by (by destruct leaves; [cbn in Hlv; lia|]).
  unfold inclusion_proof. rewrite Nat2Z.id, Hi. fold leaves. rewrite Hroot.
  eexists. split; [done|]. unfold verify_inclusion. cbn [mp_index mp_total mp_siblings].
  rewrite (audit_chain_seq es root) with (i := i) by done. rewrite Z.eqb_refl. cbn [negb orb].
  destruct (Z.leb_spec (Z.of_nat (length es)) (Z.of_nat i)); [lia|].
  unfold merkle_levels. rewrite <- Hlv at 1. rewrite verify_climb.
  - by rewrite bool_decide_true.
  - unfold leaves. by rewrite list_lookup_fmap, Hi.
  - lia.
  - rewrite Hlv. change (2 ^ Z.of_nat 64) with (2 ^ 64). lia.
Qed.

(** Every entry of a chain has an inclusion proof, and it verifies against the
    Merkle root of the chain: the one the proof is returned with and the one
    that is signed. *)
Theorem inclusion_complete es root i e :
  audit_chain es root → es !! i = Some e → Z.of_nat (length es) < 2 ^ 64 →
  ∃ proof,
    inclusion_proof es (Z.of_nat i)
    = Ok (e, proof, merkle_root_of (map (λ e, merkle_leaf (audit_encode e)) es))
    ∧ verify_inclusion e proof (merkle_root_of (map (λ e, merkle_leaf (audit_encode e)) es)) = true.
Proof. apply inclusion_proof_verifies. Qed.

Lemma inclusion_complete_witness :
  let e0 := sample_entry 0 (zeros 32) in
  let e1 := sample_entry 1 (audit_entry_root e0) in
  let e2 := sample_entry 2 (audit_entry_root e1) in
  let es := [e0; e1; e2] in
  ∃ proof,
    inclusion_proof es 2
    = Ok (e2, proof, merkle_root_of (map (λ e, merkle_leaf (audit_encode e)) es))
    ∧ verify_inclusion e2 proof (merkle_root_of (map (λ e, merkle_leaf (audit_encode e)) es)) = true.
Proof.
  intros e0 e1 e2 es.
  apply (inclusion_complete es (audit_entry_root e2) 2 e2); [|reflexivity|reflexivity].
  unfold es. apply (chain_extend [e0; e1] (audit_entry_root e1)).
  - apply (chain_extend [e0] (audit_entry_root e0)).
    + apply (chain_extend [] (zeros 32)); [constructor|split; done|reflexivity|reflexivity].
    + split; done.
    + reflexivity.
    + reflexivity.
  - split; done.
  - reflexivity.
  - reflexivity.
Defined.

(** ** Soundness *)

(** What is hashed to build a tree, level by level, and to climb a proof. *)
Fixpoint next_inputs (cur : list bytes) : list bytes :=
  match cur with
  | a :: b :: rest => node_input a b :: next_inputs rest
  | _ => []
  end.

Definition tree_inputs (levels : list (list bytes)) : list bytes := concat (map next_inputs levels).

Fixpoint verify_inputs (fuel : nat) (hash : bytes) (pos size : Z) (siblings : list bytes) : list bytes :=
  match fuel with
  | O => []
  | S fuel' =>
      if size <=? 1 then []
      else
        let up := λ input sibs,
          input :: verify_inputs fuel' (sha256 input) (pos / 2) ((size + 1) / 2) sibs in
        if pos mod 2 =? 1 then
          match siblings with [] => [] | sib :: rest => up (node_input sib hash) rest end
        else if pos + 1 <? size then
          match siblings with [] => [] | sib :: rest => up (node_input hash sib) rest end
        else verify_inputs fuel' hash (pos / 2) ((size + 1) / 2) siblings
  end.

(** The hashes of a tree. *)
Definition tree_value (levels : list (list bytes)) (v : bytes) : Prop :=
  ∃ level, level ∈ levels ∧ v ∈ level.

Lemma merkle_next_inputs cur v :
  v ∈ merkle_next cur →
  v ∈ cur ∨ ∃ a b, v = merkle_node a b ∧ node_input a b ∈ next_inputs cur ∧ a ∈ cur ∧ b ∈ cur.
Proof.
  induction cur as [|x|x y cur IH] using list_pair_ind; cbn [merkle_next next_inputs]; [by left|by left|].
  intros [->|Hv]%elem_of_cons.
  - right. exists x, y. rewrite !elem_of_cons. auto 8.
  - destruct (IH Hv) as [?|(a & b & -> & Hab & Ha & Hb)]; [left|right; exists a, b];
      rewrite !elem_of_cons; auto 8.
Qed.

Lemma tree_value_cons level levels v :
  tree_value (level :: levels) v ↔ v ∈ level ∨ tree_value levels v.
Proof.
  unfold tree_value. setoid_rewrite elem_of_cons. naive_solver.
Qed.

(** A hash of the tree is a leaf or the hash of two hashes of the tree. *)
Lemma tree_value_inv fuel cur v :
  tree_value (merkle_levels_from fuel cur) v →
  v ∈ cur ∨ ∃ a b, v = merkle_node a b
    ∧ node_input a b ∈ tree_inputs (merkle_levels_from fuel cur)
    ∧ tree_value (merkle_levels_from fuel cur) a ∧ tree_value (merkle_levels_from fuel cur) b.
Proof.
  revert cur. induction fuel as [|fuel IH]; intros cur; cbn [merkle_levels_from].
  { intros (l & ->%list_elem_of_singleton & Hv). by left. }
  case_match; [|intros (l & ->%list_elem_of_singleton & Hv); by left].
  rewrite tree_value_cons. unfold tree_inputs. cbn [map concat].
  intros [?|Hv]; [by left|]. destruct (IH _ Hv) as [Hn|(a & b & -> & Hab & Ha & Hb)].
  - apply merkle_next_inputs in Hn as [?|(a & b & -> & Hab & Ha & Hb)]; [by left|right].
    exists a, b. rewrite !tree_value_cons, elem_of_app. auto.
  - right. exists a, b. rewrite !tree_value_cons, elem_of_app. auto.
Qed.

Lemma tree_value_length fuel cur v :
  (∀ x, x ∈ cur → length x = 32%nat) →
  tree_value (merkle_levels_from fuel cur) v → length v = 32%nat.
Proof.
  intros Hcur [?|(a & b & -> & _)]%tree_value_inv; [by apply Hcur|apply length_sha256].
Qed.

Lemma node_input_inj a b c d :
  length a = 32%nat → length c = 32%nat → node_input a b = node_input c d → a = c ∧ b = d.
Proof. intros Ha Hc [= H]. apply app_inj_1 in H; [done|congruence]. Qed.

Section soundness.
Context (entries : list bytes) (inputs : list bytes).
Let leaves : list bytes := map merkle_leaf entries.
Let levels : list (list bytes) := merkle_levels leaves.
Context (Hcf : collision_free inputs).
Context (Hleaf : ∀ x, x ∈ map leaf_input entries → x ∈ inputs).
Context (Htree : ∀ x, x ∈ tree_inputs levels → x ∈ inputs).

Lemma leaves_length x : x ∈ leaves → length x = 32%nat.
Proof. intros (e & -> & _)%list_elem_of_fmap. apply length_sha256. Qed.

(** A node hash of the tree has its children in the tree. *)
Lemma node_in_tree a b :
  length a = 32%nat → node_input a b ∈ inputs →
  tree_value levels (merkle_node a b) → tree_value levels a ∧ tree_value levels b.
Proof.
  intros Ha Hin [Hl|(c & d & Heq & Hcd & Hc & Hd)]%tree_value_inv.
  - apply list_elem_of_fmap in Hl as (e & Heq & He). exfalso.
    assert (node_input a b = leaf_input e) as Hx; [|discriminate Hx].
    apply (collision_free_eq inputs); [done|done| |done]. apply Hleaf. by apply list_elem_of_fmap_2.
  - assert (node_input a b = node_input c d) as Hx.
    { apply (collision_free_eq inputs); [done|done| |done]. by apply Htree. }
    apply node_input_inj in Hx as [-> ->]; [done|done|].
    by apply (tree_value_length _ _ _ leaves_length) in Hc.
Qed.

(** If a climb ends at a hash of the tree, it started at one. *)
Lemma climb_from_tree fuel h pos size sibs top rest :
  (∀ x, x ∈ verify_inputs fuel h pos size sibs → x ∈ inputs) →
  length h = 32%nat → (∀ s, s ∈ sibs → length s = 32%nat) →
  verify_loop fuel h pos size sibs = Some (top, rest) →
  tree_value levels top → tree_value levels h.
Proof.
  revert h pos size sibs. induction fuel as [|fuel IH]; intros h pos size sibs; cbn [verify_loop verify_inputs].
  { by intros _ _ _ [= <- <-]. }
  destruct (size <=? 1); [by intros _ _ _ [= <- <-]|].
  destruct (pos mod 2 =? 1); [|destruct (pos + 1 <? size)].
  - destruct sibs as [|sib sibs]; [done|]. intros Hin Hh Hs Hv Ht.
    apply IH in Hv; [|intros x Hx; apply Hin; by apply list_elem_of_further|apply length_sha256|
      intros s Hs'; apply Hs; by apply list_elem_of_further|done].
    apply node_in_tree in Hv as [_ ?]; [done|apply Hs, list_elem_of_here|apply Hin, list_elem_of_here].
  - destruct sibs as [|sib sibs]; [done|]. intros Hin Hh Hs Hv Ht.
    apply IH in Hv; [|intros x Hx; apply Hin; by apply list_elem_of_further|apply length_sha256|
      intros s Hs'; apply Hs; by apply list_elem_of_further|done].
    apply node_in_tree in Hv as [? _]; [done|done|apply Hin, list_elem_of_here].
  - intros Hin Hh Hs Hv Ht. by eapply IH.
Qed.

(** A leaf hash of the tree is the leaf of one of the entries. *)
Lemma leaf_in_tree e : leaf_input e ∈ inputs → tree_value levels (merkle_leaf e) → e ∈ entries.
Proof.
  intros Hin [Hl|(c & d & Heq & Hcd & Hc & Hd)]%tree_value_inv.
  - apply list_elem_of_fmap in Hl as (e' & Heq & He').
    assert (leaf_input e = leaf_input e') as [= ->]; [|done].
    apply (collision_free_eq inputs); [done|done| |done]. apply Hleaf. by apply list_elem_of_fmap_2.
  - exfalso. assert (leaf_input e = node_input c d) as Hx; [|discriminate Hx].
    apply (collision_free_eq inputs); [done|done| |done]. by apply Htree.
Qed.
End soundness.

Lemma last_levels fuel cur :
  ∃ level, list.last (merkle_levels_from fuel cur) = Some level ∧ level ∈ merkle_levels_from fuel cur.
Proof.
  destruct (levels_from_top fuel cur) as [rest ->].
  destruct (list.last (cur :: rest)) as [level|] eqn:E; [|by apply last_None in E].
  exists level. split; [done|]. apply last_Some in E as [l ->]. set_solver.
Qed.

Lemma top_tree_value cur :
  cur ≠ [] → tree_value (merkle_levels cur) (top_of (merkle_levels cur)).
Proof.
  intros Hne. unfold merkle_levels.
  assert (∀ fuel cur, cur ≠ [] → tree_value (merkle_levels_from fuel cur) (top_of (merkle_levels_from fuel cur))) as H; [|by apply H].
  clear. induction fuel as [|fuel IH]; intros cur Hne; cbn [merkle_levels_from].
  - exists cur. split; [apply list_elem_of_here|]. destruct cur; [done|]. apply list_elem_of_here.
  - destruct (1 <? length cur)%nat eqn:E.
    + destruct (levels_from_top fuel (merkle_next cur)) as [rest Hrest].
      rewrite top_of_cons by (by rewrite Hrest). apply tree_value_cons. right. apply IH.
      destruct cur as [|a [|b cur]]; [done|done|]. done.
    + exists cur. split; [apply list_elem_of_here|]. destruct cur; [done|]. apply list_elem_of_here.
Qed.

Lemma map_not_nil {A B} (f : A → B) l : l ≠ [] → map f l ≠ [].
Proof. by destruct l. Qed.

Lemma merkle_root_top leaves : leaves ≠ [] → merkle_root_of leaves = top_of (merkle_levels leaves).
Proof. by destruct leaves. Qed.

(** Everything hashed when a tree over [es] is built and [proof] is checked. *)
Definition inclusion_inputs (es : list AuditEntry) (entry : AuditEntry) (proof : MerkleProof) : list bytes :=
  leaf_input (audit_encode entry)
  :: map leaf_input (map audit_encode es)
  ++ tree_inputs (merkle_levels (map merkle_leaf (map audit_encode es)))
  ++ verify_inputs 64 (merkle_leaf (audit_encode entry)) (mp_index proof) (mp_total proof) (mp_siblings proof).

Lemma verified_entry_recorded es root entry proof :
  audit_chain es root → es ≠ [] → wf_audit_entry entry →
  (∀ s, s ∈ mp_siblings proof → length s = 32%nat) →
  collision_free (inclusion_inputs es entry proof) →
  verify_inclusion entry proof (merkle_root_of (map (λ e, merkle_leaf (audit_encode e)) es)) = true →
  es !! Z.to_nat (mp_index proof) = Some entry.
Proof.
  intros Hc Hne Hwf Hsib. unfold verify_inclusion, inclusion_inputs. generalize 64%nat. intros fuel Hcf.
  destruct (Z.eqb_spec (mp_index proof) (ae_seq entry)) as [Hidx|]; cbn [negb orb]; [|done].
  destruct (mp_total proof <=? mp_index proof); [done|].
  destruct (verify_loop _ _ _ _ _) as [[hash [|]]|] eqn:Hv; [|done|done].
  intros Hh%bool_decide_eq_true.
  replace (map (λ e, merkle_leaf (audit_encode e)) es) with (map merkle_leaf (map audit_encode es)) in Hh
    by (by rewrite map_map).
  assert (map merkle_leaf (map audit_encode es) ≠ []) as Hlne by (do 2 apply map_not_nil; exact Hne).
  rewrite merkle_root_top in Hh by exact Hlne.
  set (inputs := _ :: _) in Hcf.
  assert (Hin : audit_encode entry ∈ map audit_encode es).
  { apply (leaf_in_tree (map audit_encode es) inputs Hcf).
    - intros x Hx. unfold inputs. rewrite elem_of_cons, !elem_of_app. auto.
    - intros x Hx. unfold inputs. rewrite elem_of_cons, !elem_of_app. auto.
    - apply list_elem_of_here.
    - apply (climb_from_tree (map audit_encode es) inputs Hcf) with (6 := Hv).
      + intros x Hx. unfold inputs. rewrite elem_of_cons, !elem_of_app. auto.
      + intros x Hx. unfold inputs. rewrite elem_of_cons, !elem_of_app. auto.
      + intros x Hx. unfold inputs. rewrite elem_of_cons, !elem_of_app. auto.
      + apply length_sha256.
      + done.
      + rewrite Hh. apply top_tree_value, Hlne. }
  apply list_elem_of_fmap in Hin as (e & Heq & He).
  apply audit_encode_inj in Heq as ->; [|done|by eapply audit_chain_wf].
  apply list_elem_of_lookup in He as [i Hi]. rewrite Hidx.
  by rewrite (audit_chain_seq es root i e Hc Hi), Nat2Z.id.
Qed.

(** C21: An inclusion proof that verifies against the Merkle root of a chain is
    about the chain's own entry at the proof's index, whatever total and
    siblings the proof claims: absent a SHA-256 collision, no other entry can
    be passed off as recorded. *)
Theorem inclusion_sound es root entry proof :
  audit_chain es root → es ≠ [] → wf_audit_entry entry →
  (∀ s, s ∈ mp_siblings proof → length s = 32%nat) →
  collision_free (inclusion_inputs es entry proof) →
  verify_inclusion entry proof (merkle_root_of (map (λ e, merkle_leaf (audit_encode e)) es)) = true →
  es !! Z.to_nat (mp_index proof) = Some entry.
Proof. apply verified_entry_recorded. Qed.

Lemma inclusion_sound_witness :
  let e0 := sample_entry 0 (zeros 32) in
  let e1 := sample_entry 1 (audit_entry_root e0) in
  let es := [e0; e1] in
  let proof := mkMerkleProof 1 2 [merkle_leaf (audit_encode e0)] in
  es !! Z.to_nat (mp_index proof) = Some e1.
Proof.
  intros e0 e1 es proof.
  apply (inclusion_sound es (audit_entry_root e1) e1 proof).
  - apply (chain_extend [e0] (audit_entry_root e0)).
    + apply (chain_extend [] (zeros 32)); [constructor|split; done|reflexivity|reflexivity].
    + split; done.
    + reflexivity.
    + reflexivity.
  - discriminate.
  - split; done.
  - intros s Hs. apply list_elem_of_singleton in Hs as ->. apply length_sha256.
  - apply (collision_free_digests _ [leaf_input (audit_encode e0); leaf_input (audit_encode e1);
      node_input (merkle_leaf (audit_encode e0)) (merkle_leaf (audit_encode e1))]);
      apply (bool_decide_unpack _); vm_compute; exact I.
  - vm_compute. reflexivity.
Defined.
