(* ===== verification/Aggregate.v ===== *)
(** * Aggregates, GROUP BY and HAVING

    ciphra-engine/src/lib.rs from [AggPlan] to [update_extreme]: plans are
    resolved against the schema, rows are folded into groups, groups are
    sorted by key, finalized and filtered by HAVING.  The pairs of plan and
    accumulator that the source marks [unreachable!] leave the accumulator as
    it is here; [AggregateFacts] shows that they never meet. *)

From S2P Require Import Prelude BTree Sort Float SqlAst Values Codec Exprs.

(** ** Plans and accumulators *)

Inductive AggPlan : Type :=
| PGroupCol (pos : nat)
| PCount (idx : option nat)
| PSumInt (idx : nat)
| PSumReal (idx : nat)
| PAvg (idx : nat)
| PMin (idx : nat)
| PMax (idx : nat).

(** The [i128] total of an integer sum is exact: it would take 2^64 rows to
    overflow it. *)
Inductive AggAcc : Type :=
| AGroupCol
| ACount (c : Z)
| ASumInt (total : Z) (any : bool)
| ASumReal (total : f64) (any : bool)
| AAvg (total : f64) (count : Z)
| AExtreme (v : option Value).

(** [QueryResult::Rows] *)
Record RowSet : Type := mkRowSet { rs_columns : list bytes; rs_rows : list (list Value) }.

Definition group_col_pos (group_by : list bytes) (name : bytes) : result EngineError nat :=
  ok_or (ESchema "column {name:?} must appear in GROUP BY or inside an aggregate" [name])
    (position (λ g, bool_decide (g = name)) group_by).

Definition aggregate_name (func : AggFunc) (arg : AggArg) : bytes :=
  AggFunc_name func ++ bs "(" ++
  match arg with AStar => bs "*" | AColumn col => col end ++ bs ")".

Definition resolve_aggregate (schema : TableSchema) (table : bytes) (func : AggFunc) (arg : AggArg)
  : result EngineError AggPlan :=
  match arg with
  | AStar => Ok (PCount None)
  | AColumn col =>
      idx ← ok_or (ESchema "unknown column {col:?} in table {table:?}" [col; table])
              (column_index schema col);
      let ty := match ts_columns schema !! idx with Some c => cd_ty c | None => TyInt end in
      match func with
      | Count => Ok (PCount (Some idx))
      | Sum =>
          match ty with
          | TyInt => Ok (PSumInt idx)
          | TyReal => Ok (PSumReal idx)
          | _ => Err (EType "SUM({col}) requires an INT or REAL column" [col])
          end
      | Avg =>
          match ty with
          | TyInt | TyReal => Ok (PAvg idx)
          | _ => Err (EType "AVG({col}) requires an INT or REAL column" [col])
          end
      | Min | Max =>
          match ty with
          | TyVector _ =>
              Err (EType "{}({col}) is not defined on a VECTOR column" [AggFunc_name func; col])
          | _ => Ok (match func with Min => PMin idx | _ => PMax idx end)
          end
      end
  end.

Definition init_acc (p : AggPlan) : AggAcc :=
  match p with
  | PGroupCol _ => AGroupCol
  | PCount _ => ACount 0
  | PSumInt _ => ASumInt 0 false
  | PSumReal _ => ASumReal 0 false
  | PAvg _ => AAvg 0 0
  | PMin _ | PMax _ => AExtreme None
  end.

Definition update_extreme (current : option Value) (value : Value) (want_min : bool) : option Value :=
  match value with
  | VNull => current
  | _ =>
      match current with
      | None => Some value
      | Some existing =>
          match compare_values value existing, want_min with
          | Lt, true | Gt, false => Some value
          | _, _ => current
          end
      end
  end.

(** The [match] of the fold over the rows, for one plan and its accumulator. *)
Definition step_acc (row : list Value) (plan : AggPlan) (acc : AggAcc) : result EngineError AggAcc :=
  match plan, acc with
  | PCount None, ACount c => Ok (ACount (c + 1))
  | PCount (Some idx), ACount c =>
      match row !!! idx with VNull => Ok acc | _ => Ok (ACount (c + 1)) end
  | PSumInt idx, ASumInt total any =>
      match row !!! idx with
      | VNull => Ok acc
      | VInt n => Ok (ASumInt (total + n) true)
      | other => Err (EType "SUM encountered a non-integer value: {other}" [show_value other])
      end
  | PSumReal idx, ASumReal total any =>
      match row !!! idx with
      | VNull => Ok acc
      | VReal x => Ok (ASumReal (f64_add total x) true)
      | VInt n => Ok (ASumReal (f64_add total (i64_as_f64 n)) true)
      | other => Err (EType "SUM encountered a non-numeric value: {other}" [show_value other])
      end
  | PAvg idx, AAvg total count =>
      match row !!! idx with
      | VNull => Ok acc
      | VReal x => Ok (AAvg (f64_add total x) (count + 1))
      | VInt n => Ok (AAvg (f64_add total (i64_as_f64 n)) (count + 1))
      | other => Err (EType "AVG encountered a non-numeric value: {other}" [show_value other])
      end
  | PMin idx, AExtreme cur => Ok (AExtreme (update_extreme cur (row !!! idx) true))
  | PMax idx, AExtreme cur => Ok (AExtreme (update_extreme cur (row !!! idx) false))
  | _, _ => Ok acc
  end.

(** [for (plan, acc) in plans.iter().zip(accs.iter_mut())] *)
Definition step_accs (plans : list AggPlan) (accs : list AggAcc) (row : list Value)
  : result EngineError (list AggAcc) :=
  mapR (λ '(plan, acc), step_acc row plan acc) (zip plans accs).

(** ** Groups *)

Abbreviation Group := (list Value * list AggAcc)%type.

Record Groups : Type := mkGroups { g_list : list Group; g_index : gmap bytes nat }.

(** [index.entry(key).or_insert_with(..)], then the fold into the group. *)
Definition group_row (plans : list AggPlan) (group_idx : list nat) (g : Groups) (row : list Value)
  : result EngineError Groups :=
  let keyvals := map (λ i, row !!! i) group_idx in
  let key := encode_row keyvals in
  let '(gi, groups, index) :=
    match g_index g !! key with
    | Some gi => (gi, g_list g, g_index g)
    | None =>
        let gi := length (g_list g) in
        (gi, g_list g ++ [(keyvals, map init_acc plans)], <[key := gi]> (g_index g))
    end in
  let '(kv, accs) := groups !!! gi in
  accs' ← step_accs plans accs row;
  Ok (mkGroups (<[gi := (kv, accs')]> groups) index).

(** The comparison of group keys: the first column that differs decides. *)
Fixpoint compare_keys (a b : list Value) : comparison :=
  match a, b with
  | x :: a', y :: b' => match compare_values x y with Eq => compare_keys a' b' | c => c end
  | _, _ => Eq
  end.

Definition finalize_plan (keyvals : list Value) (plan : AggPlan) (acc : AggAcc)
  : result EngineError Value :=
  match plan, acc with
  | PGroupCol pos, _ => Ok (keyvals !!! pos)
  | _, ACount c => Ok (VInt c)
  | _, ASumInt total any =>
      if any then
        if (- 2 ^ 63 <=? total) && (total <? 2 ^ 63) then Ok (VInt total)
        else Err (EType "SUM overflowed a 64-bit integer" [])
      else Ok VNull
  | _, ASumReal total any => Ok (if any then VReal total else VNull)
  | _, AAvg total count =>
      Ok (if 0 <? count then VReal (f64_div total (i64_as_f64 count)) else VNull)
  | _, AExtreme v => Ok (default VNull v)
  | _, AGroupCol => Ok VNull
  end.

(** ** HAVING *)

Inductive HavingRef : Type :=
| HGroupKey (pos : nat)
| HPlan (idx : nat).

Inductive CompiledHaving : Type :=
| CHCompare (operand : HavingRef) (op : CmpOp) (value : Value)
| CHNot (inner : CompiledHaving)
| CHAnd (a b : CompiledHaving)
| CHOr (a b : CompiledHaving).

(** Aggregates HAVING needs are appended to [plans]. *)
Fixpoint compile_having (expr : HavingExpr) (schema : TableSchema) (table : bytes)
    (group_by : list bytes) (plans : list AggPlan)
  : result EngineError (CompiledHaving * list AggPlan) :=
  match expr with
  | HCompare term op value =>
      '(operand, plans) ←
        match term with
        | HTColumn name => pos ← group_col_pos group_by name; Ok (HGroupKey pos, plans)
        | HTAggregate func arg =>
            plan ← resolve_aggregate schema table func arg;
            Ok (HPlan (length plans), plans ++ [plan])
        end;
      Ok (CHCompare operand op (literal_to_value value), plans)
  | HNot inner =>
      '(c, plans) ← compile_having inner schema table group_by plans; Ok (CHNot c, plans)
  | HAnd a b =>
      '(ca, plans) ← compile_having a schema table group_by plans;
      '(cb, plans) ← compile_having b schema table group_by plans;
      Ok (CHAnd ca cb, plans)
  | HOr a b =>
      '(ca, plans) ← compile_having a schema table group_by plans;
      '(cb, plans) ← compile_having b schema table group_by plans;
      Ok (CHOr ca cb, plans)
  end.

Fixpoint eval_having (e : CompiledHaving) (computed keyvals : list Value) : option bool :=
  match e with
  | CHCompare operand op value =>
      let lhs := match operand with HGroupKey pos => keyvals !!! pos | HPlan idx => computed !!! idx end in
      match lhs, value with
      | VNull, _ | _, VNull => None
      | _, _ => Some (op_holds op (compare_values lhs value))
      end
  | CHNot inner => option_map negb (eval_having inner computed keyvals)
  | CHAnd a b =>
      match eval_having a computed keyvals, eval_having b computed keyvals with
      | Some false, _ | _, Some false => Some false
      | Some true, Some true => Some true
      | _, _ => None
      end
  | CHOr a b =>
      match eval_having a computed keyvals, eval_having b computed keyvals with
      | Some true, _ | _, Some true => Some true
      | Some false, Some false => Some false
      | _, _ => None
      end
  end.

(** ** The query *)

(** [.skip(offset as usize).take(count as usize)] *)
Definition apply_limit {A} (limit : option Limit) (rows : list A) : list A :=
  match limit with
  | Some l => take (Z.to_nat (lim_count l)) (drop (Z.to_nat (lim_offset l)) rows)
  | None => rows
  end.

Definition resolve_item (schema : TableSchema) (table : bytes) (group_by : list bytes) (item : SelectItem)
  : result EngineError (AggPlan * bytes) :=
  match item with
  | SIColumn name => pos ← group_col_pos group_by name; Ok (PGroupCol pos, name)
  | SIAggregate func arg =>
      plan ← resolve_aggregate schema table func arg; Ok (plan, aggregate_name func arg)
  end.

(** With no GROUP BY the single group exists before any row. *)
Definition initial_groups (plans : list AggPlan) (group_by : list bytes) : Groups :=
  match group_by with
  | [] => mkGroups [([], map init_acc plans)] {[ encode_row [] := 0%nat ]}
  | _ => mkGroups [] ∅
  end.

(** One output row, or nothing when HAVING rejects the group. *)
Definition finish_group (plans : list AggPlan) (output_len : nat) (having : option CompiledHaving)
    (group : Group) : result EngineError (list (list Value)) :=
  let '(keyvals, accs) := group in
  computed ← mapR (λ '(plan, acc), finalize_plan keyvals plan acc) (zip plans accs);
  Ok match having with
     | Some h =>
         if bool_decide (eval_having h computed keyvals = Some true)
         then [take output_len computed] else []
     | None => [take output_len computed]
     end.

Definition aggregate (schema : TableSchema) (table : bytes) (items : list SelectItem)
    (group_by : list bytes) (having : option HavingExpr) (rows : list (list Value))
    (limit : option Limit) : result EngineError RowSet :=
  group_idx ← mapR (λ n,
    ok_or (ESchema "unknown column {n:?} in GROUP BY of table {table:?}" [n; table])
      (column_index schema n)) group_by;
  resolved ← mapR (resolve_item schema table group_by) items;
  let plans := map fst resolved in
  let names := map snd resolved in
  let output_len := length plans in
  '(having, plans) ←
    match having with
    | Some h => '(c, plans) ← compile_having h schema table group_by plans; Ok (Some c, plans)
    | None => Ok (None, plans)
    end;
  groups ← foldR (group_row plans group_idx) (initial_groups plans group_by) rows;
  let sorted := stable_sort (λ a b, compare_keys a.1 b.1) (g_list groups) in
  out_rows ← mapR (finish_group plans output_len having) sorted;
  Ok (mkRowSet names (apply_limit limit (concat out_rows))).
