(* ===== verification/AggregateFacts.v ===== *)
(** * Aggregates: what they compute

    Grouping partitions the rows by key and folds each group over its own
    rows in order; an integer SUM is exact or an overflow error; plans and
    accumulators stay in lockstep. *)

From S2P Require Import Prelude BTree Sort Float SqlAst Values Codec CodecFacts Exprs ExprFacts Aggregate.

(** ** Lockstep *)

Definition acc_matches (p : AggPlan) (a : AggAcc) : Prop :=
  match p, a with
  | PGroupCol _, AGroupCol | PCount _, ACount _ | PSumInt _, ASumInt _ _
  | PSumReal _, ASumReal _ _ | PAvg _, AAvg _ _ | (PMin _ | PMax _), AExtreme _ => True
  | _, _ => False
  end.

Lemma init_acc_matches p : acc_matches p (init_acc p).
Proof. by destruct p. Qed.

Lemma step_acc_matches row p a a' :
  acc_matches p a → step_acc row p a = Ok a' → acc_matches p a'.
Proof.
  destruct p as [pos|[idx|]|idx|idx|idx|idx|idx], a; cbn; try done; intros _;
    repeat case_match; intros ?; by simplify_eq.
Qed.

Lemma step_accs_matches plans accs accs' row :
  Forall2 acc_matches plans accs → step_accs plans accs row = Ok accs' →
  Forall2 acc_matches plans accs'.
Proof.
  unfold step_accs. intros Hm. revert accs'.
  induction Hm as [|p a plans accs Hpa Hm IH]; intros accs'; cbn [zip_with mapR].
  { intros [= <-]. constructor. }
  destruct (step_acc row p a) as [a'|] eqn:Ha; result_simpl; [|done].
  destruct (mapR _ _) as [rest|] eqn:Hr; result_simpl; [|done].
  intros [= <-]. constructor; [by eapply step_acc_matches|by apply IH].
Qed.

(** ** Grouping *)

Section grouping.
Context (plans : list AggPlan) (group_idx : list nat).

Definition keyvals_of (row : list Value) : list Value := map (λ i, row !!! i) group_idx.

(** The rows of a group, in their order. *)
Definition rows_of (rows : list (list Value)) (kv : list Value) : list (list Value) :=
  filter (λ row, keyvals_of row = kv) rows.

Definition fold_rows (rows : list (list Value)) : result EngineError (list AggAcc) :=
  foldR (step_accs plans) (map init_acc plans) rows.

Record grouped (rows : list (list Value)) (g : Groups) : Prop := {
  grouped_index key gi : g_index g !! key = Some gi →
    ∃ kv accs, g_list g !! gi = Some (kv, accs) ∧ key = encode_row kv;
  grouped_list gi kv accs : g_list g !! gi = Some (kv, accs) →
    g_index g !! encode_row kv = Some gi ∧ wf_row kv ∧ fold_rows (rows_of rows kv) = Ok accs;
  grouped_rows row : row ∈ rows → is_Some (g_index g !! encode_row (keyvals_of row));
}.

Lemma rows_of_app rows row kv :
  rows_of (rows ++ [row]) kv
  = rows_of rows kv ++ (if decide (keyvals_of row = kv) then [row] else []).
Proof. unfold rows_of. rewrite list.filter_app, list.filter_cons. by destruct (decide _). Qed.

Lemma fold_rows_snoc rows row :
  fold_rows (rows ++ [row]) = (accs ← fold_rows rows; step_accs plans accs row).
Proof.
  unfold fold_rows. rewrite foldR_app. destruct (foldR _ _ rows); result_simpl; [|done].
  cbn [foldR]. by destruct (step_accs _ _ _).
Qed.

Lemma group_row_grouped rows g row g' :
  grouped rows g → wf_row (keyvals_of row) →
  (∀ kv, rows_of rows kv ≠ [] → is_Some (g_index g !! encode_row kv)) →
  group_row plans group_idx g row = Ok g' → grouped (rows ++ [row]) g'.
Proof.
  intros [Hidx Hlist Hrows] Hwf Hsome. unfold group_row. fold (keyvals_of row).
  set (kv := keyvals_of row) in *.
  (* the group of the row, present or new, folded over the rows before it *)
  destruct (g_index g !! encode_row kv) as [gi|] eqn:Hk.
  - destruct (Hidx _ _ Hk) as (kv' & accs & Hgi & Henc).
    destruct (Hlist _ _ _ Hgi) as (_ & Hwf' & Hf).
    apply encode_row_inj in Henc as <-; [|done..].
    rewrite (list_lookup_total_correct _ _ _ Hgi).
    destruct (step_accs plans accs row) as [accs'|] eqn:Hs; result_simpl; [|done]. intros [= <-].
    pose proof (lookup_lt_Some _ _ _ Hgi) as Hlt. split; cbn [g_index g_list].
    + intros key j Hj. destruct (Hidx _ _ Hj) as (kv' & accs0 & Hj' & ->).
      destruct (decide (j = gi)) as [->|Hne].
      * simplify_eq. exists kv, accs'. by rewrite list_lookup_insert_eq.
      * exists kv', accs0. by rewrite list_lookup_insert_ne.
    + intros j kv' accs0 Hj. destruct (decide (j = gi)) as [->|Hne].
      * rewrite list_lookup_insert_eq in Hj by done. simplify_eq. split_and!; [done|done|].
        rewrite rows_of_app, decide_True, fold_rows_snoc, Hf by done. by result_simpl.
      * rewrite list_lookup_insert_ne in Hj by done.
        destruct (Hlist _ _ _ Hj) as (Hj' & Hwfj & Hfj). split_and!; [done|done|].
        rewrite rows_of_app, decide_False, app_nil_r; [done|]. fold kv. intros ->. congruence.
    + intros r [Hr| ->%list_elem_of_singleton]%elem_of_app; [by apply Hrows|by exists gi].
  - rewrite (list_lookup_total_correct _ _ (kv, map init_acc plans))
      by (by rewrite lookup_app_r, Nat.sub_diag by lia).
    destruct (step_accs plans _ row) as [accs'|] eqn:Hs; result_simpl; [|done]. intros [= <-].
    rewrite insert_app_r_alt, Nat.sub_diag by lia. cbn [insert list_insert].
    assert (Hnone : ∀ j kv' accs, g_list g !! j = Some (kv', accs) → kv' ≠ kv).
    { intros j kv' accs Hj ->. destruct (Hlist _ _ _ Hj) as [Hj' _]. congruence. }
    split; cbn [g_index g_list].
    + intros key j. destruct (decide (key = encode_row kv)) as [->|Hne].
      * rewrite lookup_insert_eq. intros [= <-]. exists kv, accs'.
        by rewrite lookup_app_r, Nat.sub_diag by lia.
      * rewrite lookup_insert_ne by done. intros Hj. destruct (Hidx _ _ Hj) as (kv' & accs0 & Hj' & ->).
        exists kv', accs0. split; [|done]. by apply lookup_app_l_Some.
    + intros j kv' accs0 [Hj|[Hge Hj]]%lookup_app_Some.
      * destruct (Hlist _ _ _ Hj) as (Hj' & Hwfj & Hfj). pose proof (Hnone _ _ _ Hj) as Hne.
        rewrite lookup_insert_ne by (intros Heq; apply Hne; symmetry; by apply encode_row_inj).
        split_and!; [done|done|]. rewrite rows_of_app, decide_False by (intros Heq; by apply Hne).
        by rewrite app_nil_r.
      * destruct (j - length (g_list g))%nat eqn:E; [|done]. cbn in Hj. injection Hj as <- <-.
        assert (j = length (g_list g)) as -> by lia. rewrite lookup_insert_eq.
        split_and!; [done|done|]. rewrite rows_of_app, decide_True by done.
        destruct (rows_of rows kv) as [|r rs] eqn:Hr.
        -- unfold fold_rows. cbn [app foldR]. rewrite Hs. by result_simpl.
        -- exfalso. destruct (Hsome kv) as [x Hx]; [by rewrite Hr|]. congruence.
    + intros r [Hr| ->%list_elem_of_singleton]%elem_of_app.
      * destruct (Hrows r Hr) as [j Hj]. destruct (decide (encode_row (keyvals_of r) = encode_row kv)) as [->|Hne].
        -- rewrite lookup_insert_eq. by eexists.
        -- rewrite lookup_insert_ne by done. by exists j.
      * fold kv. rewrite lookup_insert_eq. by eexists.
Qed.

Lemma grouped_some rows g kv :
  grouped rows g → rows_of rows kv ≠ [] → is_Some (g_index g !! encode_row kv).
Proof.
  intros Hg Hne. destruct (rows_of rows kv) as [|r rs] eqn:Hr; [done|].
  assert (r ∈ rows_of rows kv) as [Hk Hin]%list_elem_of_filter by (rewrite Hr; apply list_elem_of_here).
  rewrite <- Hk. by apply (grouped_rows _ _ Hg).
Qed.

Lemma fold_grouped rows0 rows g g' :
  grouped rows0 g → Forall (λ row, wf_row (keyvals_of row)) rows →
  foldR (group_row plans group_idx) g rows = Ok g' → grouped (rows0 ++ rows) g'.
Proof.
  intros Hg Hwf. revert rows0 g Hg. induction Hwf as [|row rows Hrow Hwf IH]; intros rows0 g Hg; cbn [foldR].
  { intros [= <-]. by rewrite app_nil_r. }
  destruct (group_row _ _ g row) as [g1|] eqn:H1; result_simpl; [|done].
  intros Hf. rewrite cons_app_one, app_assoc. eapply IH; [|done].
  eapply group_row_grouped; [done|done| |done]. intros kv. by apply grouped_some.
Qed.

Lemma initial_grouped group_by :
  grouped [] (initial_groups plans group_by).
Proof.
  destruct group_by as [|n ns]; split; cbn.
  - intros key gi [<- <-]%lookup_singleton_Some. by exists [], (map init_acc plans).
  - intros [|gi] kv accs; cbn; [|done]. intros [= <- <-]. by rewrite lookup_singleton_eq.
  - intros row Hr. by apply not_elem_of_nil in Hr.
  - intros key gi. by rewrite lookup_empty.
  - done.
  - intros row Hr. by apply not_elem_of_nil in Hr.
Qed.

(** C22: GROUP BY puts every row in the one group of its key values: no two groups
    share a key, each group's accumulators are the fold of the plans over
    exactly its own rows in their order, and no row is left out. *)
Theorem grouping_partitions_rows group_by rows g :
  Forall (λ row, wf_row (keyvals_of row)) rows →
  foldR (group_row plans group_idx) (initial_groups plans group_by) rows = Ok g →
  NoDup (g_list g).*1
  ∧ (∀ kv accs, (kv, accs) ∈ g_list g → fold_rows (rows_of rows kv) = Ok accs)
  ∧ (∀ row, row ∈ rows → keyvals_of row ∈ (g_list g).*1).
Proof.
  intros Hwf Hf. apply (fold_grouped []) in Hf as [Hidx Hlist Hrows]; [|apply initial_grouped|done].
  cbn [app] in *. split_and!.
  - apply NoDup_alt. intros i j kv.
    rewrite !list_lookup_fmap. intros Hi Hj.
    destruct (g_list g !! i) as [[kvi ai]|] eqn:Ei; [|done].
    destruct (g_list g !! j) as [[kvj aj]|] eqn:Ej; [|done]. cbn in Hi, Hj. simplify_eq.
    apply Hlist in Ei as [Hi _], Ej as [Hj _]. congruence.
  - intros kv accs [gi Hgi]%list_elem_of_lookup. by apply Hlist in Hgi as (_ & _ & ?).
  - intros row Hr. rewrite list.Forall_forall in Hwf.
    destruct (Hrows row Hr) as [gi (kv & accs & Hgi & Henc)%Hidx].
    destruct (Hlist _ _ _ Hgi) as (_ & Hwfkv & _).
    apply encode_row_inj in Henc as ->; [|by apply Hwf|done].
    apply list_elem_of_fmap. exists (kv, accs). split; [done|]. by apply list_elem_of_lookup_2 in Hgi.
Qed.
End grouping.

Lemma grouping_partitions_rows_witness :
  let rows := [[VText (bs "a"); VInt 1]; [VText (bs "b"); VInt 2]; [VText (bs "a"); VInt 4]] in
  let plans := [PGroupCol 0; PSumInt 1] in
  let g := foldR (group_row plans [0%nat]) (initial_groups plans [bs "k"]) rows in
  match g with
  | Ok g => g_list g = [([VText (bs "a")], [AGroupCol; ASumInt 5 true]);
                        ([VText (bs "b")], [AGroupCol; ASumInt 2 true])]
            ∧ NoDup (g_list g).*1
  | Err _ => False
  end.
Proof.
  intros rows plans g. destruct g as [g'|] eqn:Hg; [|by vm_compute in Hg].
  split.
  - vm_compute in Hg. by injection Hg as <-.
  - apply (grouping_partitions_rows plans [0%nat] [bs "k"] rows g'); [|exact Hg].
    repeat constructor.
Defined.

(** ** One plan over the rows of a group *)

Definition fold_plan (p : AggPlan) (rows : list (list Value)) : result EngineError AggAcc :=
  foldR (λ acc row, step_acc row p acc) (init_acc p) rows.

Lemma step_accs_lookup plans accs accs' row i p a :
  step_accs plans accs row = Ok accs' → plans !! i = Some p → accs !! i = Some a →
  ∃ a', accs' !! i = Some a' ∧ step_acc row p a = Ok a'.
Proof.
  unfold step_accs. intros Hs Hp Ha. apply mapR_ok_Forall2 in Hs.
  assert (zip plans accs !! i = Some (p, a)) as Hz by (by rewrite lookup_zip_with, Hp, Ha).
  destruct (Forall2_lookup_l _ _ _ _ _ Hs Hz) as (a' & Ha' & Hstep). by exists a'.
Qed.

(** The list of accumulators is the plans folded one by one. *)
Lemma fold_rows_plan plans rows accs i p :
  fold_rows plans rows = Ok accs → plans !! i = Some p →
  ∃ a, accs !! i = Some a ∧ fold_plan p rows = Ok a.
Proof.
  revert accs. induction rows as [|row rows IH] using rev_ind; intros accs.
  { unfold fold_rows. cbn [foldR]. intros [= <-] Hp. exists (init_acc p).
    by rewrite list_lookup_fmap, Hp. }
  rewrite fold_rows_snoc. destruct (fold_rows plans rows) as [accs0|] eqn:H0; result_simpl; [|done].
  intros Hs Hp. destruct (IH _ eq_refl Hp) as (a & Ha & Hf).
  destruct (step_accs_lookup _ _ _ _ _ _ _ Hs Hp Ha) as (a' & Ha' & Hstep).
  exists a'. split; [done|]. unfold fold_plan in *. rewrite foldR_app, Hf. result_simpl.
  cbn [foldR]. by rewrite Hstep.
Qed.

Lemma fold_plan_snoc p rows row a :
  fold_plan p (rows ++ [row]) = Ok a ↔ ∃ a0, fold_plan p rows = Ok a0 ∧ step_acc row p a0 = Ok a.
Proof.
  unfold fold_plan. rewrite foldR_app. destruct (foldR _ _ rows) as [a0|]; result_simpl.
  - cbn [foldR]. destruct (step_acc row p a0) eqn:E; result_simpl; split; try done.
    + intros [= <-]. by exists a0.
    + intros (? & [= <-] & Hs). congruence.
    + intros (? & [= <-] & Hs). congruence.
  - split; [done|]. by intros (? & ? & _).
Qed.

(** The cells of a column that are not NULL. *)
Definition cells (idx : nat) (rows : list (list Value)) : list Value :=
  filter (λ v, v ≠ VNull) (map (λ row, row !!! idx) rows).

Definition int_of (v : Value) : Z := match v with VInt n => n | _ => 0 end.
Definition is_int (v : Value) : Prop := match v with VInt _ => True | _ => False end.

Definition sum_of (l : list Z) : Z := foldr Z.add 0 l.

(** What SUM of a group is: NULL over no value, the exact sum if it is an
    [i64], an error otherwise. *)
Definition sum_spec (l : list Value) : result EngineError Value :=
  match l with
  | [] => Ok VNull
  | _ =>
      let total := sum_of (map int_of l) in
      if (- 2 ^ 63 <=? total) && (total <? 2 ^ 63) then Ok (VInt total)
      else Err (EType "SUM overflowed a 64-bit integer" [])
  end.

Lemma cells_snoc idx rows row :
  cells idx (rows ++ [row])
  = cells idx rows ++ match row !!! idx with VNull => [] | v => [v] end.
Proof.
  unfold cells. rewrite map_app, list.filter_app. cbn [map]. rewrite list.filter_cons.
  by destruct (row !!! idx).
Qed.

Lemma sum_of_snoc l x : sum_of (l ++ [x]) = sum_of l + x.
Proof. unfold sum_of. induction l as [|y l IH]; cbn; [lia|]. rewrite IH. lia. Qed.

Lemma fold_sum_int idx rows a :
  fold_plan (PSumInt idx) rows = Ok a →
  Forall is_int (cells idx rows)
  ∧ a = ASumInt (sum_of (map int_of (cells idx rows))) (bool_decide (cells idx rows ≠ [])).
Proof.
  revert a. induction rows as [|row rows IH] using rev_ind; intros a.
  { intros [= <-]. by split. }
  rewrite fold_plan_snoc. intros (a0 & (Hint & ->)%IH & Hstep). cbn in Hstep.
  rewrite cells_snoc. destruct (row !!! idx) as [|n| | |]; try done; injection Hstep as <-.
  - rewrite app_nil_r. done.
  - split; [apply list.Forall_app; split; [done|by repeat constructor]|].
    rewrite map_app. cbn [int_of map]. rewrite sum_of_snoc. f_equal.
    symmetry. apply bool_decide_eq_true. by destruct (cells idx rows).
Qed.

Lemma fold_count idx rows a :
  fold_plan (PCount idx) rows = Ok a →
  a = ACount match idx with
             | None => Z.of_nat (length rows)
             | Some i => Z.of_nat (length (cells i rows))
             end.
Proof.
  revert a. induction rows as [|row rows IH] using rev_ind; intros a.
  { intros [= <-]. by destruct idx. }
  rewrite fold_plan_snoc. intros (a0 & ->%IH & Hstep). cbn in Hstep.
  destruct idx as [i|].
  - rewrite cells_snoc, length_app.
    destruct (row !!! i); injection Hstep as <-; f_equal; cbn [length]; lia.
  - injection Hstep as <-. rewrite length_app. cbn [length]. f_equal. lia.
Qed.

(** C23: In every group COUNT counts the rows (or the non-NULL cells of its column)
    and SUM over an INT column is the exact sum of the non-NULL cells: NULL
    when there is none, a type error when it does not fit 64 bits, never a
    wrapped value. *)
Theorem count_and_sum_exact plans rows accs i p kv :
  fold_rows plans rows = Ok accs → plans !! i = Some p →
  ∃ a, accs !! i = Some a ∧
    match p with
    | PCount None => finalize_plan kv p a = Ok (VInt (Z.of_nat (length rows)))
    | PCount (Some idx) => finalize_plan kv p a = Ok (VInt (Z.of_nat (length (cells idx rows))))
    | PSumInt idx =>
        Forall is_int (cells idx rows) ∧ finalize_plan kv p a = sum_spec (cells idx rows)
    | _ => True
    end.
Proof.
  intros Hf Hp. destruct (fold_rows_plan _ _ _ _ _ Hf Hp) as (a & Ha & Hfp).
  exists a. split; [done|]. destruct p as [|[idx|]|idx| | | |]; try done.
  - by apply fold_count in Hfp as ->.
  - by apply fold_count in Hfp as ->.
  - apply fold_sum_int in Hfp as [Hint ->]. split; [done|]. cbn [finalize_plan]. unfold sum_spec.
    by destruct (cells idx rows).
Qed.

Lemma count_and_sum_exact_witness :
  let rows := [[VInt (2 ^ 63 - 1)]; [VNull]; [VInt 1]] in
  let plans := [PCount None; PSumInt 0] in
  ∃ a, [ACount 3; ASumInt (2 ^ 63) true] !! 1%nat = Some a
    ∧ Forall is_int (cells 0 rows)
    ∧ finalize_plan [] (PSumInt 0) a = Err (EType "SUM overflowed a 64-bit integer" []).
Proof.
  intros rows plans.
  destruct (count_and_sum_exact plans rows [ACount 3; ASumInt (2 ^ 63) true] 1 (PSumInt 0) [] eq_refl eq_refl)
    as (a & Ha & Hint & Hsum).
  exists a. split; [exact Ha|]. split; [exact Hint|exact Hsum].
Defined.

(** ** MIN and MAX *)

Definition extreme_le (want_min : bool) (a b : Value) : Prop :=
  if want_min then compare_values a b ≠ Gt else compare_values b a ≠ Gt.

Lemma update_extreme_spec ty want_min cur v (seen : list Value) :
  value_fits ty v → v ≠ VNull → Forall (value_fits ty) seen →
  match cur with
  | None => seen = []
  | Some m => m ∈ seen ∧ ∀ w, w ∈ seen → extreme_le want_min m w
  end →
  ∃ m, update_extreme cur v want_min = Some m ∧ m ∈ seen ++ [v]
    ∧ ∀ w, w ∈ seen ++ [v] → extreme_le want_min m w.
Proof.
  intros Hv Hnull Hseen Hcur. rewrite list.Forall_forall in Hseen.
  assert (Hrefl : extreme_le want_min v v).
  { pose proof (total_cmp_sym (cmp := compare_values) v v Hv Hv) as H.
    unfold extreme_le. destruct want_min, (compare_values v v); done. }
  destruct cur as [m|].
  - destruct Hcur as [Hm Hmin]. pose proof (Hseen m Hm) as Hmf.
    pose proof (total_cmp_sym (cmp := compare_values) v m Hv Hmf) as Hsym.
    assert (Hcase : update_extreme (Some m) v want_min = Some m ∧ extreme_le want_min m v
      ∨ update_extreme (Some m) v want_min = Some v ∧ extreme_le want_min v m).
    { unfold extreme_le. rewrite Hsym. unfold update_extreme.
      destruct v; try done; destruct (compare_values _ m) eqn:E, want_min; cbn; auto. }
    destruct Hcase as [[-> Hle]|[-> Hle]].
    + exists m. split; [done|]. rewrite elem_of_app. split; [by left|].
      intros w [Hw| ->%list_elem_of_singleton]%elem_of_app; [by apply Hmin|done].
    + exists v. split; [done|]. rewrite elem_of_app. split; [right; by apply list_elem_of_here|].
      intros w [Hw| ->%list_elem_of_singleton]%elem_of_app; [|done].
      specialize (Hmin w Hw). pose proof (Hseen w Hw) as Hwf. unfold extreme_le in *.
      destruct want_min.
      * by apply (total_cmp_trans (cmp := compare_values) v m w).
      * by apply (total_cmp_trans (cmp := compare_values) w m v).
  - subst seen. exists v. cbn [app]. split_and!; [by destruct v|apply list_elem_of_here|].
    by intros w ->%list_elem_of_singleton.
Qed.

Definition is_extreme_plan (p : AggPlan) : option (nat * bool) :=
  match p with PMin idx => Some (idx, true) | PMax idx => Some (idx, false) | _ => None end.

(** Over a column of one type MIN and MAX yield a cell of the group that no
    other cell of the group goes below (above), and NULL when every cell is
    NULL. *)
Theorem extremes_exact plans rows accs i p idx want_min ty kv :
  fold_rows plans rows = Ok accs → plans !! i = Some p → is_extreme_plan p = Some (idx, want_min) →
  Forall (λ row, value_fits ty (row !!! idx)) rows →
  ∃ a v, accs !! i = Some a ∧ finalize_plan kv p a = Ok v ∧
    if decide (cells idx rows = []) then v = VNull
    else v ∈ cells idx rows ∧ ∀ w, w ∈ cells idx rows → extreme_le want_min v w.
Proof.
  intros Hf Hp Hplan Hty. destruct (fold_rows_plan _ _ _ _ _ Hf Hp) as (a & Ha & Hfp).
  assert (∃ cur, a = AExtreme cur ∧ match cur with
    | None => cells idx rows = []
    | Some m => m ∈ cells idx rows ∧ ∀ w, w ∈ cells idx rows → extreme_le want_min m w
    end ∧ Forall (value_fits ty) (cells idx rows)) as (cur & -> & Hcur & _).
  { clear Ha Hf. revert a Hfp. induction rows as [|row rows IH] using rev_ind; intros a Hfp.
    - injection Hfp as <-. exists None. destruct p; try done.
    - apply list.Forall_app in Hty as [Hty [Hrow _]%list.Forall_cons].
      apply fold_plan_snoc in Hfp as (a0 & Ha0 & Hstep).
      destruct (IH Hty a0 Ha0) as (cur & -> & Hcur & Hfits).
      assert (Ok a = Ok (E := EngineError) (AExtreme (update_extreme cur (row !!! idx) want_min))) as [= ->].
      { rewrite <- Hstep. by destruct p; cbn in Hplan; simplify_eq. }
      rewrite cells_snoc. destruct (decide (row !!! idx = VNull)) as [->|Hne].
      + exists cur. rewrite app_nil_r. done.
      + assert (match row !!! idx with VNull => [] | v => [v] end = [row !!! idx]) as -> by (by destruct (row !!! idx)).
        destruct (update_extreme_spec ty want_min cur (row !!! idx) (cells idx rows)) as (m & -> & Hm & Hmin); [done..|].
        exists (Some m). split; [done|]. split; [done|]. apply list.Forall_app. auto. }
  exists (AExtreme cur), (default VNull cur). split; [done|].
  split; [by destruct p|]. destruct cur as [m|]; cbn [default from_option id].
  - destruct Hcur as [Hm Hmin]. rewrite decide_False; [done|]. intros He. rewrite He in Hm.
    by apply not_elem_of_nil in Hm.
  - by rewrite decide_True.
Qed.

Lemma extremes_exact_witness :
  let rows := [[VInt 3]; [VNull]; [VInt (-2)]] in
  ∃ a v, [AExtreme (Some (VInt (-2)))] !! 0%nat = Some a ∧ finalize_plan [] (PMin 0) a = Ok v
    ∧ if decide (cells 0 rows = []) then v = VNull
      else v ∈ cells 0 rows ∧ ∀ w, w ∈ cells 0 rows → extreme_le true v w.
Proof.
  intros rows.
  apply (extremes_exact [PMin 0] rows [AExtreme (Some (VInt (-2)))] 0 (PMin 0) 0 true TyInt []); try reflexivity.
  repeat constructor; cbn; unfold in_i64; lia.
Defined.
