(* ===== verification/KeyParams.v ===== *)
(** * The recorded key-derivation parameters

    ciphra-engine/src/lib.rs: [KdfParams], [encode_keyparams] and
    [read_keyparams] (both record versions). *)

From S2P Require Import Prelude Values Codec CodecFacts.

Definition SALT_LEN : nat := 16.
Definition KEYPARAMS_MAGIC_V1 : bytes := bs "CIPHRA" ++ [Byte.x00; Byte.x01].
Definition KEYPARAMS_MAGIC_V2 : bytes := bs "CIPHRA" ++ [Byte.x00; Byte.x02].
Definition KDF_PBKDF2 : byte := Byte.x01.
Definition KDF_ARGON2ID : byte := Byte.x02.

Inductive KdfParams : Type :=
| Pbkdf2 (iterations : Z)
| Argon2id (memory_kib passes lanes : Z).

#[export] Instance KdfParams_eq_dec : EqDecision KdfParams.
Proof. solve_decision. Defined.

(** The work factors used unless the caller picks others, and
    [KdfParams::recommended]. *)
Definition DEFAULT_KDF_ITERATIONS : Z := 600000.
Definition DEFAULT_ARGON2_MEMORY_KIB : Z := 19456.
Definition DEFAULT_ARGON2_PASSES : Z := 2.
Definition DEFAULT_ARGON2_LANES : Z := 1.
Definition recommended : KdfParams :=
  Argon2id DEFAULT_ARGON2_MEMORY_KIB DEFAULT_ARGON2_PASSES DEFAULT_ARGON2_LANES.

Definition encode_keyparams (kdf : KdfParams) (salt : bytes) : bytes :=
  KEYPARAMS_MAGIC_V2 ++
  match kdf with
  | Pbkdf2 iterations => [KDF_PBKDF2] ++ le_bytes 4 iterations
  | Argon2id memory_kib passes lanes =>
      [KDF_ARGON2ID] ++ le_bytes 4 memory_kib ++ le_bytes 4 passes ++ le_bytes 4 lanes
  end ++ salt.

Definition keyparams_corrupt : EngineError := ECorrupt "bad {KEYPARAMS_FILE} file" [bs "ciphra.keyparams"].

(** The body both PBKDF2 layouts share: iterations, then the salt. *)
Definition read_pbkdf2 (rest : bytes) : result EngineError (KdfParams * bytes) :=
  if (length rest <? 4 + SALT_LEN)%nat then Err keyparams_corrupt
  else
    let iterations := from_le (take 4 rest) in
    if iterations =? 0 then Err keyparams_corrupt
    else Ok (Pbkdf2 iterations, drop 4 rest).

Definition read_argon2id (rest : bytes) : result EngineError (KdfParams * bytes) :=
  if (length rest <? 12 + SALT_LEN)%nat then Err keyparams_corrupt
  else
    let memory_kib := from_le (slice 0 4 rest) in
    let passes := from_le (slice 4 8 rest) in
    let lanes := from_le (slice 8 12 rest) in
    if (passes =? 0) || (lanes =? 0) then Err keyparams_corrupt
    else Ok (Argon2id memory_kib passes lanes, drop 12 rest).

Definition read_keyparams (contents : bytes) : result EngineError (KdfParams * bytes) :=
  if (length contents <? 8)%nat then Err keyparams_corrupt
  else
    let magic := take 8 contents in
    let rest := drop 8 contents in
    if decide (magic = KEYPARAMS_MAGIC_V1) then read_pbkdf2 rest
    else if decide (magic = KEYPARAMS_MAGIC_V2) then
      match rest with
      | [] => Err keyparams_corrupt
      | kdf_id :: rest =>
          if decide (kdf_id = KDF_PBKDF2) then read_pbkdf2 rest
          else if decide (kdf_id = KDF_ARGON2ID) then read_argon2id rest
          else Err keyparams_corrupt
      end
    else Err keyparams_corrupt.

(** Parameters a derivation accepts. *)
Definition wf_kdf (kdf : KdfParams) : Prop :=
  match kdf with
  | Pbkdf2 iterations => in_u 32 iterations ∧ iterations ≠ 0
  | Argon2id memory_kib passes lanes =>
      in_u 32 memory_kib ∧ in_u 32 passes ∧ in_u 32 lanes ∧ passes ≠ 0 ∧ lanes ≠ 0
  end.

Lemma read_pbkdf2_encode iterations salt :
  wf_kdf (Pbkdf2 iterations) → (SALT_LEN ≤ length salt)%nat →
  read_pbkdf2 (le_bytes 4 iterations ++ salt) = Ok (Pbkdf2 iterations, salt).
Proof.
  intros [Hi Hne] Hs. unfold read_pbkdf2. rewrite length_app, length_bytes_le.
  destruct (Nat.ltb_spec (4 + length salt) (4 + SALT_LEN)); [lia|].
  rewrite take_app_length', drop_app_length' by done. rewrite from_le_small by exact Hi.
  by destruct (Z.eqb_spec iterations 0).
Qed.

Lemma read_argon2id_encode memory_kib passes lanes salt :
  wf_kdf (Argon2id memory_kib passes lanes) → (SALT_LEN ≤ length salt)%nat →
  read_argon2id (le_bytes 4 memory_kib ++ le_bytes 4 passes ++ le_bytes 4 lanes ++ salt)
  = Ok (Argon2id memory_kib passes lanes, salt).
Proof.
  intros (Hm & Hp & Hl & Hp0 & Hl0) Hs. unfold read_argon2id.
  rewrite !length_app, !length_bytes_le.
  destruct (Nat.ltb_spec (4 + (4 + (4 + length salt))) (12 + SALT_LEN)); [lia|].
  rewrite (slice_app_head 0 4) by (rewrite ?length_bytes_le; lia).
  rewrite (slice_app_skip 4 8), length_bytes_le, (slice_app_head (4 - 4) (8 - 4))
    by (rewrite ?length_bytes_le; lia).
  rewrite (slice_app_skip 8 12), length_bytes_le, (slice_app_skip (8 - 4) (12 - 4)), length_bytes_le,
    (slice_app_head (8 - 4 - 4) (12 - 4 - 4)) by (rewrite ?length_bytes_le; lia).
  rewrite !from_le_small by assumption.
  destruct (Z.eqb_spec passes 0), (Z.eqb_spec lanes 0); done.
Qed.

Lemma keyparams_read kdf salt :
  wf_kdf kdf → (SALT_LEN ≤ length salt)%nat →
  read_keyparams (encode_keyparams kdf salt) = Ok (kdf, salt).
Proof.
  intros Hk Hs. unfold read_keyparams, encode_keyparams. rewrite !length_app.
  change (length KEYPARAMS_MAGIC_V2) with 8%nat.
  destruct (Nat.ltb_spec (8 + (length match kdf with
    | Pbkdf2 iterations => [KDF_PBKDF2] ++ le_bytes 4 iterations
    | Argon2id memory_kib passes lanes =>
        [KDF_ARGON2ID] ++ le_bytes 4 memory_kib ++ le_bytes 4 passes ++ le_bytes 4 lanes
    end + length salt)) 8); [lia|].
  rewrite take_app_length', drop_app_length' by done.
  rewrite decide_False, decide_True by done.
  destruct kdf; cbn [app].
  - rewrite decide_True by done. by apply read_pbkdf2_encode.
  - rewrite decide_False, decide_True by done. rewrite <- !app_assoc. by apply read_argon2id_encode.
Qed.

(** A recorded parameter set is read back with its salt, for both derivation
    functions: a database always opens with the parameters it was created
    with. *)
Theorem keyparams_roundtrip kdf salt :
  wf_kdf kdf → (SALT_LEN ≤ length salt)%nat →
  read_keyparams (encode_keyparams kdf salt) = Ok (kdf, salt).
Proof. apply keyparams_read. Qed.

Lemma keyparams_roundtrip_witness :
  read_keyparams (encode_keyparams (Argon2id 65536 3 4) (replicate 16 Byte.x07))
  = Ok (Argon2id 65536 3 4, replicate 16 Byte.x07).
Proof. apply keyparams_roundtrip; [repeat split; discriminate|vm_compute; lia]. Defined.

(** What is read can always be derived with: work factors are never zero. *)
Lemma read_keyparams_wf contents kdf salt :
  read_keyparams contents = Ok (kdf, salt) → wf_kdf kdf ∧ (SALT_LEN ≤ length salt)%nat.
Proof.
  assert (Hp : ∀ rest, read_pbkdf2 rest = Ok (kdf, salt) → wf_kdf kdf ∧ (SALT_LEN ≤ length salt)%nat).
  { intros rest. unfold read_pbkdf2. destruct (Nat.ltb_spec (length rest) (4 + SALT_LEN)); [done|].
    destruct (Z.eqb_spec (from_le (take 4 rest)) 0) as [|Hne]; [done|]. intros [= <- <-].
    pose proof (from_le_bound (take 4 rest)) as Hb. rewrite length_take in Hb.
    replace (4 `min` length rest)%nat with 4%nat in Hb by lia.
    split; [by split|]. rewrite length_drop. lia. }
  unfold read_keyparams. destruct (length contents <? 8)%nat; [done|].
  case_decide; [apply Hp|]. case_decide; [|done].
  destruct (drop 8 contents) as [|kdf_id rest]; [done|].
  case_decide; [apply Hp|]. case_decide; [|done].
  unfold read_argon2id. destruct (Nat.ltb_spec (length rest) (12 + SALT_LEN)); [done|].
  destruct (Z.eqb_spec (from_le (slice 4 8 rest)) 0), (Z.eqb_spec (from_le (slice 8 12 rest)) 0); try done.
  cbn [orb]. intros [= <- <-].
  assert (∀ i, (i + 4 ≤ 12)%nat → in_u 32 (from_le (slice i (i + 4) rest))) as Hb.
  { intros i Hi. pose proof (from_le_bound (slice i (i + 4) rest)) as Hb.
    rewrite length_slice in Hb by lia. by replace (i + 4 - i)%nat with 4%nat in Hb by lia. }
  split; [|rewrite length_drop; lia].
  pose proof (Hb 0%nat ltac:(lia)). pose proof (Hb 4%nat ltac:(lia)). pose proof (Hb 8%nat ltac:(lia)). done.
Qed.
