(* ===== verification/Wire.v ===== *)
(** * The storage protocol: frames and messages

    ciphra-net/src/lib.rs, from [read_frame] to [decode_pairs], [record],
    [encode_batch] and [decode_batch].  Error strings are kept as byte
    sequences; [protocol_error] is how the client wraps them. *)

From S2P Require Import Prelude BTree Storage StorageFacts.

(** [Pair] *)
Abbreviation pair := (bytes * bytes)%type.

(** ** Opcodes *)

Definition OP_GET : byte := Byte.x01.
Definition OP_SCAN : byte := Byte.x02.
Definition OP_COMMIT : byte := Byte.x03.
Definition OP_DUMP : byte := Byte.x04.
Definition OP_PUT : byte := Byte.x05.
Definition OP_DELETE : byte := Byte.x06.
Definition OP_SUBSCRIBE : byte := Byte.x07.
Definition REC_SNAPSHOT : byte := Byte.x00.
Definition REC_BATCH : byte := Byte.x01.
Definition STATUS_OK : byte := Byte.x00.
Definition STATUS_ERR : byte := Byte.x01.
Definition MAX_FRAME : Z := 256 * 1024 * 1024.

(** ** Frames on the byte stream *)

(** [read_frame]: the payload and the rest of the stream, or the error; a
    stream that ends inside the frame is an I/O error of [read_exact]. *)
Inductive FrameError : Type := FrameIo | FrameTooLarge.

Definition read_frame (stream : bytes) : result FrameError (bytes * bytes) :=
  if (length stream <? 4)%nat then Err FrameIo
  else
    let len := from_le (take 4 stream) in
    if MAX_FRAME <? len then Err FrameTooLarge
    else if (Z.of_nat (length stream) <? 4 + len) then Err FrameIo
    else Ok (slice 4 (4 + Z.to_nat len) stream, drop (4 + Z.to_nat len) stream).

Definition write_frame (payload : bytes) : bytes :=
  le_bytes 4 (Z.of_nat (length payload)) ++ payload.

(** ** Fields *)

Definition put_bytes (b : bytes) : bytes := le_bytes 4 (Z.of_nat (length b)) ++ b.

Definition take_bytes (buf : bytes) : result bytes (bytes * bytes) :=
  if (length buf <? 4)%nat then Err (bs "truncated length")
  else
    let len := from_le (take 4 buf) in
    if (Z.of_nat (length buf) <? 4 + len) then Err (bs "truncated bytes")
    else Ok (slice 4 (4 + Z.to_nat len) buf, drop (4 + Z.to_nat len) buf).

Definition take_u32 (buf : bytes) : result bytes (Z * bytes) :=
  if (length buf <? 4)%nat then Err (bs "truncated u32")
  else Ok (from_le (take 4 buf), drop 4 buf).

Definition expect_empty (rest : bytes) : result bytes unit :=
  match rest with [] => Ok tt | _ => Err (bs "trailing bytes in message") end.

Definition protocol_error (message : bytes) : StorageError :=
  StorageCorrupt (bs "protocol error: " ++ message).

(** ** Pairs *)

Definition encode_pair (kv : pair) : bytes := put_bytes kv.1 ++ put_bytes kv.2.
Definition encode_pairs (pairs : list pair) : bytes :=
  le_bytes 4 (Z.of_nat (length pairs)) ++ concat (map encode_pair pairs).

Definition decode_pair (rest : bytes) : result bytes (pair * bytes) :=
  '(key, after) ← take_bytes rest;
  '(value, after) ← take_bytes after;
  Ok (key, value, after).

(** [for _ in 0..count]: the items and what follows them. *)
Fixpoint decode_items {A} (item : bytes → result bytes (A * bytes)) (count : nat) (rest : bytes)
  : result bytes (list A * bytes) :=
  match count with
  | O => Ok ([], rest)
  | S count' =>
      '(x, rest) ← item rest;
      '(xs, rest) ← decode_items item count' rest;
      Ok (x :: xs, rest)
  end.

Definition decode_all {A} (item : bytes → result bytes (A * bytes)) (body : bytes)
  : result bytes (list A) :=
  '(count, rest) ← take_u32 body;
  '(xs, rest) ← decode_items item (Z.to_nat count) rest;
  _ ← expect_empty rest;
  Ok xs.

Definition decode_pairs (body : bytes) : result StorageError (list pair) :=
  map_err protocol_error (decode_all decode_pair body).

(** ** Batches *)

Definition encode_batch_entry (e : bool * bytes * bytes) : bytes :=
  let '(is_delete, key, value) := e in
  [if is_delete : bool then Byte.x01 else Byte.x00] ++ put_bytes key ++ put_bytes value.

Definition encode_batch (batch : Batch) : bytes :=
  le_bytes 4 (Z.of_nat (batch_len batch)) ++ concat (map encode_batch_entry (batch_entries batch)).

Definition decode_batch_entry (rest : bytes) : result bytes (entry * bytes) :=
  match rest with
  | [] => Err (bs "truncated batch")
  | entry_op :: after =>
      '(key, after) ← take_bytes after;
      '(value, after) ← take_bytes after;
      if decide (entry_op = Byte.x00) then Ok (Storage.OP_PUT, key, value, after)
      else if decide (entry_op = Byte.x01) then Ok (Storage.OP_DELETE, key, [], after)
      else Err (bs "bad batch entry")
  end.

Definition decode_batch (body : bytes) : result bytes Batch :=
  es ← decode_all decode_batch_entry body; Ok (mkBatch es).

(** ** Replication records *)

Definition record (kind : byte) (seq : Z) (body : bytes) : bytes :=
  [kind] ++ le_bytes 8 seq ++ body.

(** * Reading back what was written *)

(** The casts to [u32] of the writer are exact. *)
Definition small (n : nat) : Prop := Z.of_nat n < 2 ^ 32.

Lemma from_le4_small n rest : small n → from_le (take 4 (le_bytes 4 (Z.of_nat n) ++ rest)) = Z.of_nat n.
Proof.
  intros Hn. rewrite take_app_length' by (by rewrite length_bytes_le).
  apply from_le_small. unfold small in Hn. lia.
Qed.

Lemma length_put_bytes b : length (put_bytes b) = (4 + length b)%nat.
Proof. unfold put_bytes. by rewrite length_app, length_bytes_le. Qed.

Lemma take_put_bytes b rest : small (length b) → take_bytes (put_bytes b ++ rest) = Ok (b, rest).
Proof.
  intros Hb. unfold take_bytes, put_bytes. rewrite <- app_assoc, from_le4_small by done.
  rewrite !length_app, length_bytes_le. rewrite (proj2 (Nat.ltb_ge _ _)) by lia.
  rewrite (proj2 (Z.ltb_ge _ _)) by lia. rewrite Nat2Z.id.
  rewrite slice_app_at by (rewrite length_bytes_le; lia).
  by rewrite app_assoc, drop_app_length' by (rewrite length_app, length_bytes_le; lia).
Qed.

Lemma wire_take_bytes_inv buf b rest :
  take_bytes buf = Ok (b, rest) → buf = put_bytes b ++ rest ∧ small (length b).
Proof.
  unfold take_bytes. destruct (Nat.ltb_spec (length buf) 4) as [|H4]; [done|].
  pose proof (from_le_bound (take 4 buf)) as Hb. rewrite length_take in Hb.
  replace (8 * Z.of_nat (4 `min` length buf)) with 32 in Hb by lia.
  destruct (Z.ltb_spec (Z.of_nat (length buf)) (4 + from_le (take 4 buf))) as [|Hl]; [done|].
  set (len := Z.to_nat (from_le (take 4 buf))). intros H.
  assert (b = take len (drop 4 buf) ∧ rest = drop len (drop 4 buf)) as [-> ->].
  { injection H as <- <-. rewrite drop_drop. split; [|done]. unfold slice. f_equal. lia. }
  assert (Hs : length (take len (drop 4 buf)) = len) by (rewrite length_take, length_drop; lia).
  unfold small, put_bytes. rewrite Hs. split; [|lia]. unfold len at 1. rewrite Z2Nat.id by lia.
  rewrite le_bytes_from_le by (rewrite length_take; lia). by rewrite <- app_assoc, !take_drop.
Qed.

Lemma take_u32_le n rest : small n → take_u32 (le_bytes 4 (Z.of_nat n) ++ rest) = Ok (Z.of_nat n, rest).
Proof.
  intros Hn. unfold take_u32. rewrite from_le4_small by done. rewrite length_app, length_bytes_le.
  rewrite (proj2 (Nat.ltb_ge _ _)) by lia. by rewrite drop_app_length' by (by rewrite length_bytes_le).
Qed.

(** A count and that many items, whatever the item format is. *)
Lemma decode_all_encode {A} (item : bytes → result bytes (A * bytes)) (enc : A → bytes) (P : A → Prop) l :
  (∀ x rest, P x → item (enc x ++ rest) = Ok (x, rest)) → Forall P l → small (length l) →
  decode_all item (le_bytes 4 (Z.of_nat (length l)) ++ concat (map enc l)) = Ok l.
Proof.
  intros Hitem Hl Hn. unfold decode_all. rewrite take_u32_le by done. result_simpl.
  assert (∀ rest, decode_items item (length l) (concat (map enc l) ++ rest) = Ok (l, rest)) as Hit.
  { clear Hn. induction Hl as [|x l Hx Hl IH]; intros rest; [done|].
    cbn [length decode_items map concat]. rewrite <- app_assoc, Hitem by done. result_simpl.
    by rewrite IH. }
  specialize (Hit []). rewrite app_nil_r in Hit. by rewrite Nat2Z.id, Hit.
Qed.

Definition pair_small (kv : pair) : Prop := small (length kv.1) ∧ small (length kv.2).

Lemma decode_pair_encode kv rest : pair_small kv → decode_pair (encode_pair kv ++ rest) = Ok (kv, rest).
Proof.
  destruct kv as [k v]. intros [Hk Hv]. unfold decode_pair, encode_pair. rewrite <- app_assoc.
  rewrite take_put_bytes by done. result_simpl. by rewrite take_put_bytes.
Qed.

Lemma decode_pairs_encode l : Forall pair_small l → small (length l) → decode_pairs (encode_pairs l) = Ok l.
Proof.
  intros Hl Hn. unfold decode_pairs, encode_pairs.
  by rewrite (decode_all_encode _ _ pair_small) by (done || apply decode_pair_encode).
Qed.

(** The entries of a batch on the wire: [batch_put] and [batch_delete] build
    no others. *)
Definition wire_entry (e : entry) : Prop :=
  pair_small (e.1.2, e.2) ∧ (e.1.1 = Storage.OP_PUT ∨ (e.1.1 = Storage.OP_DELETE ∧ e.2 = [])).
Definition wire_batch (b : Batch) : Prop := Forall wire_entry (entries b) ∧ small (length (entries b)).

Definition entry_bytes (e : entry) : bytes :=
  encode_batch_entry (bool_decide (e.1.1 = Storage.OP_DELETE), e.1.2, e.2).

Lemma encode_batch_bytes b :
  encode_batch b = le_bytes 4 (Z.of_nat (length (entries b))) ++ concat (map entry_bytes (entries b)).
Proof.
  unfold encode_batch, batch_entries, batch_len. rewrite map_map. do 2 f_equal. apply map_ext.
  by intros [[op k] v].
Qed.

Lemma decode_batch_entry_encode e rest :
  wire_entry e → decode_batch_entry (entry_bytes e ++ rest) = Ok (e, rest).
Proof.
  destruct e as [[op k] v]. intros [[Hk Hv] Hop]. cbn [fst snd] in *.
  unfold entry_bytes, encode_batch_entry. cbn [fst snd app]. rewrite <- app_assoc.
  unfold decode_batch_entry. rewrite take_put_bytes by done. result_simpl.
  rewrite take_put_bytes by done. result_simpl.
  by destruct Hop as [-> | [-> ->]].
Qed.

Lemma decode_batch_encode b : wire_batch b → decode_batch (encode_batch b) = Ok b.
Proof.
  intros [Hb Hn]. unfold decode_batch. rewrite encode_batch_bytes.
  rewrite (decode_all_encode _ _ wire_entry) by (done || apply decode_batch_entry_encode).
  by destruct b.
Qed.

(** A frame of any payload the reader admits comes back, with what follows it
    on the stream; one over the cap is refused; and nothing else is accepted. *)
Lemma read_write_frame payload rest :
  small (length payload) →
  read_frame (write_frame payload ++ rest)
  = if MAX_FRAME <? Z.of_nat (length payload) then Err FrameTooLarge else Ok (payload, rest).
Proof.
  intros Hp. unfold read_frame, write_frame. rewrite <- app_assoc, from_le4_small by done.
  rewrite !length_app, length_bytes_le. rewrite (proj2 (Nat.ltb_ge _ _)) by lia.
  destruct (MAX_FRAME <? _); [done|]. rewrite (proj2 (Z.ltb_ge _ _)) by lia. rewrite Nat2Z.id.
  rewrite slice_app_at by (rewrite length_bytes_le; lia).
  by rewrite app_assoc, drop_app_length' by (rewrite length_app, length_bytes_le; lia).
Qed.

Lemma read_frame_inv stream payload rest :
  read_frame stream = Ok (payload, rest) →
  stream = write_frame payload ++ rest ∧ Z.of_nat (length payload) ≤ MAX_FRAME.
Proof.
  unfold read_frame. destruct (Nat.ltb_spec (length stream) 4) as [|H4]; [done|].
  destruct (Z.ltb_spec MAX_FRAME (from_le (take 4 stream))) as [|Hm]; [done|].
  destruct (Z.ltb_spec (Z.of_nat (length stream)) (4 + from_le (take 4 stream))) as [|Hl]; [done|].
  intros [= <- <-]. pose proof (from_le_bound (take 4 stream)) as Hb.
  assert (take_bytes stream = Ok (slice 4 (4 + Z.to_nat (from_le (take 4 stream))) stream,
    drop (4 + Z.to_nat (from_le (take 4 stream))) stream)) as Ht.
  { unfold take_bytes. rewrite (proj2 (Nat.ltb_ge _ _)) by lia. by rewrite (proj2 (Z.ltb_ge _ _)) by lia. }
  split; [apply wire_take_bytes_inv in Ht as [Heq _]; exact Heq|].
  rewrite length_slice by lia. lia.
Qed.

(** What decodes was small, and of the formats the writers produce. *)
Lemma decode_items_Forall {A} (item : bytes → result bytes (A * bytes)) (P : A → Prop) n rest l rest' :
  (∀ buf x r, item buf = Ok (x, r) → P x) →
  decode_items item n rest = Ok (l, rest') → Forall P l ∧ length l = n.
Proof.
  intros Hitem. revert rest l. induction n as [|n IH]; intros rest l; cbn [decode_items].
  { by intros [= <- <-]. }
  destruct (item rest) as [[x r]|] eqn:Hx; result_simpl; [|done].
  destruct (decode_items item n r) as [[xs r']|] eqn:Hxs; result_simpl; [|done].
  intros [= <- <-]. destruct (IH _ _ Hxs). split; [|cbn; congruence]. constructor; [by eapply Hitem|done].
Qed.

Lemma decode_all_Forall {A} (item : bytes → result bytes (A * bytes)) (P : A → Prop) body l :
  (∀ buf x r, item buf = Ok (x, r) → P x) →
  decode_all item body = Ok l → Forall P l ∧ small (length l).
Proof.
  intros Hitem. unfold decode_all, take_u32. destruct (length body <? 4)%nat; result_simpl; [done|].
  destruct (decode_items _ _ _) as [[xs r]|] eqn:Hxs; result_simpl; [|done].
  destruct (expect_empty r); result_simpl; [|done]. intros [= <-].
  apply (decode_items_Forall _ P) in Hxs as [HP Hlen]; [|done]. split; [done|].
  unfold small. rewrite Hlen. pose proof (from_le_bound (take 4 body)) as Hb.
  assert (length (take 4 body) ≤ 4)%nat by (rewrite length_take; lia).
  assert (2 ^ (8 * Z.of_nat (length (take 4 body))) ≤ 2 ^ 32) by (apply Z.pow_le_mono_r; lia). lia.
Qed.

Lemma decode_batch_wire body b : decode_batch body = Ok b → wire_batch b.
Proof.
  unfold decode_batch. destruct (decode_all _ body) as [es|] eqn:He; result_simpl; [|done].
  intros [= <-]. apply (decode_all_Forall _ wire_entry) in He; [done|].
  intros [|op buf] e r; [done|]. unfold decode_batch_entry.
  destruct (take_bytes buf) as [[k r1]|] eqn:Hk; result_simpl; [|done].
  destruct (take_bytes r1) as [[v r2]|] eqn:Hv; result_simpl; [|done].
  apply wire_take_bytes_inv in Hk as [_ Hk], Hv as [_ Hv].
  repeat case_decide; intros [= <- <-]; split; cbn [fst snd]; auto; by split.
Qed.

Lemma wire_batch_wf b : wire_batch b → batch_wf b.
Proof.
  intros [Hb _]. eapply list.Forall_impl; [exact Hb|]. intros e [_ [->|[-> _]]]; [by left|by right].
Qed.
