(* ===== verification/Server.v ===== *)
(** * The storage server: requests, replication, the remote client

    ciphra-net/src/lib.rs.  The client is [RemoteStorage]: a TCP stream and its
    end of the sealed channel, nothing else.  Behind the stream are the
    network, whose behaviour is an argument, and the thread that serves the
    connection.  One [roundtrip] writes a request and reads the next frame
    that arrives.  [Handshake] sets up the keys. *)

From S2P Require Import Prelude BTree Storage StorageFacts Sha256 ChaCha20 Aead Float Values Store Wire.

(** ** The sealed channel *)

(** [channel_seal] and [channel_open] of ciphra-crypto/src/hybrid.rs *)
Definition TRANSPORT_AAD : bytes := bs "ciphra/transport/v1".
Definition counter_nonce (counter : Z) : bytes := le_bytes 8 counter ++ replicate 4 Byte.x00.
Definition channel_seal (key : bytes) (counter : Z) (plaintext : bytes) : bytes :=
  aead_seal key (counter_nonce counter) plaintext TRANSPORT_AAD.
Definition channel_open (key : bytes) (counter : Z) (sealed : bytes) : option bytes :=
  aead_open key (counter_nonce counter) sealed TRANSPORT_AAD.

Record Channel : Type := mkChannel {
  send_key : bytes;
  recv_key : bytes;
  send_ctr : Z;
  recv_ctr : Z;
}.

Definition derive (shared label : bytes) : bytes := sha256 (shared ++ label).

Definition channel_new (shared : bytes) (client : bool) : Channel :=
  let c2s := derive shared (bs "c2s") in
  let s2c := derive shared (bs "s2c") in
  if client then mkChannel c2s s2c 0 0 else mkChannel s2c c2s 0 0.

(** [Channel::send]: the bytes put on the stream. *)
Definition channel_send (c : Channel) (plaintext : bytes) : bytes * Channel :=
  (write_frame (channel_seal (send_key c) (send_ctr c) plaintext),
   mkChannel (send_key c) (recv_key c) (wadd 64 (send_ctr c) 1) (recv_ctr c)).

(** [Channel::recv]: the message, the rest of the stream and the channel. *)
Inductive RecvError : Type := RecvFrame (e : FrameError) | RecvAuth.

Definition channel_recv (c : Channel) (stream : bytes) : result RecvError (bytes * bytes * Channel) :=
  '(sealed, rest) ← map_err RecvFrame (read_frame stream);
  opened ← ok_or RecvAuth (channel_open (recv_key c) (recv_ctr c) sealed);
  Ok (opened, rest, mkChannel (send_key c) (recv_key c) (send_ctr c) (wadd 64 (recv_ctr c) 1)).

(** ** The server's state *)

(** The sending half of a follower's queue: what was sent and not yet taken,
    and whether the receiving half is still there. *)
Record Subscriber : Type := mkSubscriber { sb_alive : bool; sb_queue : list bytes }.

Record ServerState : Type := mkServer {
  sv_storage : LocalBackend;
  sv_read_only : bool;
  sv_seq : Z;
  sv_subscribers : list Subscriber;
}.

Definition server_new (storage : LocalBackend) (read_only : bool) : ServerState :=
  mkServer storage read_only 0 [].

(** [subscribers.retain(|tx| tx.send(msg).is_ok())] *)
Definition broadcast (msg : bytes) (subs : list Subscriber) : list Subscriber :=
  map (λ s, mkSubscriber (sb_alive s) (sb_queue s ++ [msg])) (filter (λ s, sb_alive s = true) subs).

Definition replicate_batch (st : ServerState) (entries : bytes) : ServerState :=
  let seq := wadd 64 (sv_seq st) 1 in
  mkServer (sv_storage st) (sv_read_only st) seq
    (broadcast (record REC_BATCH seq entries) (sv_subscribers st)).

Definition server_table (st : ServerState) : table := local_table (sv_storage st).

(** A write to the server's own storage; like [local_write], it consumes the
    next file-write outcome. *)
Definition server_write (b : LocalBackend) (op : IoOutcome → Storage → result StorageError unit * Storage)
  : result StorageError unit * LocalBackend :=
  let '(r, s) := op (default IoOk (head (lb_outcomes b))) (lb_storage b) in
  (r, mkLocal s (tail (lb_outcomes b))).

(** ** Requests *)

Section server.
(** The text of a storage error; the operating system words the I/O ones. *)
Context (error_text : StorageError → bytes).

Definition read_only_refused : bytes := bs "server is a read-only replica".

(** Write, then replicate: the common tail of PUT, DELETE and COMMIT. *)
Definition write_and_replicate (st : ServerState) (r : result StorageError unit * LocalBackend) (batch : Batch)
  : result bytes bytes * ServerState :=
  let st' := mkServer r.2 (sv_read_only st) (sv_seq st) (sv_subscribers st) in
  match r.1 with
  | Ok _ => (Ok [], replicate_batch st' (encode_batch batch))
  | Err e => (Err (error_text e), st')
  end.

Definition handle_get (body : bytes) (st : ServerState) : result bytes bytes :=
  '(key, rest) ← take_bytes body;
  _ ← expect_empty rest;
  Ok match storage_get (lb_storage (sv_storage st)) key with
     | None => [Byte.x00]
     | Some value => [Byte.x01] ++ put_bytes value
     end.

Definition handle_scan (body : bytes) (st : ServerState) : result bytes bytes :=
  '(prefix, rest) ← take_bytes body;
  _ ← expect_empty rest;
  Ok (encode_pairs (storage_scan_prefix (lb_storage (sv_storage st)) prefix)).

Definition handle_dump (body : bytes) (st : ServerState) : result bytes bytes :=
  _ ← expect_empty body;
  Ok (encode_pairs (storage_scan_prefix (lb_storage (sv_storage st)) [])).

Definition parse_put (body : bytes) : result bytes (bytes * bytes) :=
  '(key, rest) ← take_bytes body;
  '(value, rest) ← take_bytes rest;
  _ ← expect_empty rest;
  Ok (key, value).

Definition parse_delete (body : bytes) : result bytes bytes :=
  '(key, rest) ← take_bytes body;
  _ ← expect_empty rest;
  Ok key.

Definition handle_put (body : bytes) (st : ServerState) : result bytes bytes * ServerState :=
  match parse_put body with
  | Err e => (Err e, st)
  | Ok (key, value) =>
      if sv_read_only st then (Err read_only_refused, st)
      else write_and_replicate st (server_write (sv_storage st) (λ io s, storage_put io s key value))
             (batch_put batch_new key value)
  end.

Definition handle_delete (body : bytes) (st : ServerState) : result bytes bytes * ServerState :=
  match parse_delete body with
  | Err e => (Err e, st)
  | Ok key =>
      if sv_read_only st then (Err read_only_refused, st)
      else write_and_replicate st (server_write (sv_storage st) (λ io s, storage_delete io s key))
             (batch_delete batch_new key)
  end.

Definition handle_commit (body : bytes) (st : ServerState) : result bytes bytes * ServerState :=
  if sv_read_only st then (Err read_only_refused, st)
  else
    match decode_batch body with
    | Err e => (Err e, st)
    | Ok batch =>
        write_and_replicate st (server_write (sv_storage st) (λ io s, storage_commit io s batch)) batch
    end.

Definition handle_request (request : bytes) (st : ServerState) : result bytes bytes * ServerState :=
  match request with
  | [] => (Err (bs "empty request"), st)
  | op :: body =>
      if decide (op = OP_GET) then (handle_get body st, st)
      else if decide (op = OP_SCAN) then (handle_scan body st, st)
      else if decide (op = OP_DUMP) then (handle_dump body st, st)
      else if decide (op = Wire.OP_PUT) then handle_put body st
      else if decide (op = Wire.OP_DELETE) then handle_delete body st
      else if decide (op = OP_COMMIT) then handle_commit body st
      else (Err (bs "unknown opcode " ++ show_Z (byte.unsigned op)), st)
  end.

(** The loop body of [handle_connection]: status byte, then body or message. *)
Definition respond (request : bytes) (st : ServerState) : bytes * ServerState :=
  let '(r, st') := handle_request request st in
  (match r with
   | Ok ok => [STATUS_OK] ++ ok
   | Err message => [STATUS_ERR] ++ message
   end, st').

(** ** Replication *)

(** [stream_to_subscriber] up to its loop: the snapshot, and the new follower. *)
Definition subscribe (st : ServerState) : bytes * ServerState :=
  let pairs := storage_scan_prefix (lb_storage (sv_storage st)) [] in
  (record REC_SNAPSHOT (sv_seq st) (encode_pairs pairs),
   mkServer (sv_storage st) (sv_read_only st) (sv_seq st) (sv_subscribers st ++ [mkSubscriber true []])).

Inductive FollowEvent : Type :=
| Connected (server_public : bytes) (authenticated : bool)
| Snapshot (seq : Z) (rows : nat)
| Applied (seq : Z) (changes : nat).

Inductive FollowError : Type :=
| FollowOther (message : bytes)
| FollowStorage (e : StorageError).

(** The batch that turns the local table into the snapshot's. *)
Definition snapshot_batch (local : Storage) (pairs : list pair) : Batch :=
  let stale := filter (λ k, k ∉ map fst pairs) (map fst (storage_scan_prefix local [])) in
  let batch := fold_left batch_delete stale batch_new in
  fold_left (λ b kv, batch_put b kv.1 kv.2) pairs batch.

Definition apply_snapshot (seq : Z) (body : bytes) (st : ServerState)
  : result FollowError FollowEvent * ServerState :=
  match decode_pairs body with
  | Err e => (Err (FollowStorage e), st)
  | Ok pairs =>
      let batch := snapshot_batch (lb_storage (sv_storage st)) pairs in
      let '(r, b) := server_write (sv_storage st) (λ io s, storage_commit io s batch) in
      match r with
      | Err e => (Err (FollowStorage e), mkServer b (sv_read_only st) (sv_seq st) (sv_subscribers st))
      | Ok _ => (Ok (Snapshot seq (length pairs)), mkServer b (sv_read_only st) seq (sv_subscribers st))
      end
  end.

Definition apply_batch (seq : Z) (body : bytes) (st : ServerState)
  : result FollowError FollowEvent * ServerState :=
  match decode_batch body with
  | Err e => (Err (FollowOther e), st)
  | Ok batch =>
      let '(r, b) := server_write (sv_storage st) (λ io s, storage_commit io s batch) in
      match r with
      | Err e => (Err (FollowStorage e), mkServer b (sv_read_only st) (sv_seq st) (sv_subscribers st))
      | Ok _ => (Ok (Applied seq (batch_len batch)),
          mkServer b (sv_read_only st) seq
            (broadcast (record REC_BATCH seq body) (sv_subscribers st)))
      end
  end.

Definition apply_record (msg : bytes) (st : ServerState) : result FollowError FollowEvent * ServerState :=
  match msg with
  | [] => (Err (FollowOther (bs "empty replication record")), st)
  | kind :: rest =>
      if (length rest <? 8)%nat then (Err (FollowOther (bs "truncated replication record")), st)
      else
        let seq := from_le (take 8 rest) in
        let body := drop 8 rest in
        if decide (kind = REC_SNAPSHOT) then apply_snapshot seq body st
        else if decide (kind = REC_BATCH) then apply_batch seq body st
        else (Err (FollowOther (bs "unknown replication record kind " ++ show_Z (byte.unsigned kind))), st)
  end.

(** The loop of [follow] over the records received so far: the events, up to
    the first error. *)
Fixpoint follow (msgs : list bytes) (st : ServerState) : result FollowError (list FollowEvent) * ServerState :=
  match msgs with
  | [] => (Ok [], st)
  | msg :: msgs =>
      match apply_record msg st with
      | (Err e, st) => (Err e, st)
      | (Ok event, st) => let '(r, st) := follow msgs st in ((λ es, event :: es) <$> r, st)
      end
  end.

(** ** The thread that serves a connection *)

(** It reads requests (having read some bytes of the next one), it pushes a
    subscription, or it has returned and its socket is closed. *)
Inductive ServerEnd : Type :=
| Serving (chan : Channel) (pending : bytes)
| Pushing (chan : Channel)
| HungUp.

(** The loop of [handle_connection] over the bytes that are there, until it
    waits for more: what it writes, how it stands, and the server's state.
    A frame takes four bytes or more, so their number is fuel enough. *)
Fixpoint serve_ready (fuel : nat) (chan : Channel) (stream : bytes) (st : ServerState)
  : bytes * ServerEnd * ServerState :=
  match fuel with
  | O => ([], Serving chan stream, st)
  | S fuel =>
      match channel_recv chan stream with
      | Err (RecvFrame FrameIo) => ([], Serving chan stream, st)
      | Err _ => ([], HungUp, st)
      | Ok (request, rest, chan) =>
          if decide (head request = Some OP_SUBSCRIBE) then
            let '(snapshot, st) := subscribe st in
            let '(frame, chan) := channel_send chan snapshot in
            (frame, Pushing chan, st)
          else
            let '(response, st) := respond request st in
            let '(frame, chan) := channel_send chan response in
            let '(out, ending, st) := serve_ready fuel chan rest st in
            (frame ++ out, ending, st)
      end
  end.

(** ** The TCP stream *)

(** Connected; gone, where a write may still be taken by the local buffer; or
    gone and a write has failed, as all later ones do. *)
Inductive TcpState : Type := TcpUp | TcpLost | TcpWriteFailed.

(** The client's socket, with the bytes that arrived and are not read. *)
Record TcpStream : Type := mkTcp { tcp_state : TcpState; tcp_inbox : bytes }.

(** What the network does during the next exchange: it delivers everything, or
    the connection is lost after so many bytes of the request and of the
    response; [written] is whether the client's write still reports success. *)
Inductive NetOutcome : Type :=
| NetOk
| NetCut (written : bool) (request response : nat).

Definition net_written (o : NetOutcome) : bool := match o with NetOk => true | NetCut w _ _ => w end.
Definition net_request (o : NetOutcome) (b : bytes) : bytes := match o with NetOk => b | NetCut _ n _ => take n b end.
Definition net_response (o : NetOutcome) (b : bytes) : bytes := match o with NetOk => b | NetCut _ _ n => take n b end.

(** What is on the other side of the stream. *)
Record Peer : Type := mkPeer { pr_end : ServerEnd; pr_state : ServerState; pr_net : list NetOutcome }.

Definition serve_end (e : ServerEnd) (delivered : bytes) (st : ServerState) : bytes * ServerEnd * ServerState :=
  match e with
  | Serving chan pending => serve_ready (length (pending ++ delivered)) chan (pending ++ delivered) st
  | _ => ([], e, st)
  end.

(** How the client's socket stands after the exchange. *)
Definition tcp_after (o : NetOutcome) (e : ServerEnd) : TcpState :=
  match o with
  | NetOk => match e with HungUp => TcpLost | _ => TcpUp end
  | NetCut w _ _ => if w then TcpLost else TcpWriteFailed
  end.

(** A write to the stream: whether it reports success, the stream once what the
    server sends back has arrived, and the other side. *)
Definition tcp_write (frame : bytes) (stream : TcpStream) (peer : Peer) : bool * TcpStream * Peer :=
  let o := default NetOk (head (pr_net peer)) in
  let net := tail (pr_net peer) in
  match tcp_state stream with
  | TcpUp =>
      let '(reply, ending, st) := serve_end (pr_end peer) (net_request o frame) (pr_state peer) in
      (net_written o, mkTcp (tcp_after o ending) (tcp_inbox stream ++ net_response o reply), mkPeer ending st net)
  | TcpLost =>
      (net_written o, mkTcp (if net_written o then TcpLost else TcpWriteFailed) (tcp_inbox stream),
       mkPeer (pr_end peer) (pr_state peer) net)
  | TcpWriteFailed => (false, stream, mkPeer (pr_end peer) (pr_state peer) net)
  end.

(** [Channel::recv] on the client's stream: the message or the error, the
    channel, and the stream with the bytes that were read taken off. A read
    that waits for bytes that do not come ends when the connection does; one
    that refuses a length has read four bytes. *)
Definition stream_recv (c : Channel) (stream : TcpStream) : result RecvError bytes * Channel * TcpStream :=
  match channel_recv c (tcp_inbox stream) with
  | Ok (opened, rest, c) => (Ok opened, c, mkTcp (tcp_state stream) rest)
  | Err (RecvFrame FrameIo) =>
      (Err (RecvFrame FrameIo), c, mkTcp (match tcp_state stream with TcpUp => TcpLost | state => state end) [])
  | Err (RecvFrame FrameTooLarge) =>
      (Err (RecvFrame FrameTooLarge), c, mkTcp (tcp_state stream) (drop 4 (tcp_inbox stream)))
  | Err RecvAuth =>
      (Err RecvAuth, c, mkTcp (tcp_state stream)
         match read_frame (tcp_inbox stream) with Ok (_, rest) => rest | Err _ => [] end)
  end.

(** ** The remote client *)

(** [struct RemoteStorage] *)
Record RemoteStorage : Type := mkRemote {
  rs_stream : TcpStream;
  rs_channel : Channel;
  rs_server_public : bytes;
  rs_authenticated : bool;
}.

(** The client with what its stream leads to. *)
Record Connection : Type := mkConnection { cn_remote : RemoteStorage; cn_peer : Peer }.
Definition cn_state (cn : Connection) : ServerState := pr_state (cn_peer cn).

(** What the client makes of a response. *)
Definition interpret (response : bytes) : result StorageError bytes :=
  match response with
  | [] => Err (protocol_error (bs "empty response"))
  | status :: body =>
      if decide (status = STATUS_OK) then Ok body else Err (StorageCorrupt (bs "server error: " ++ body))
  end.

(** [RemoteStorage::roundtrip] *)
Definition roundtrip (cn : Connection) (request : bytes) : result StorageError bytes * Connection :=
  let rs := cn_remote cn in
  let '(frame, channel) := channel_send (rs_channel rs) request in
  let '(written, stream, peer) := tcp_write frame (rs_stream rs) (cn_peer cn) in
  let after channel stream := mkConnection (mkRemote stream channel (rs_server_public rs) (rs_authenticated rs)) peer in
  if negb written then (Err StorageIo, after channel stream)
  else
    match stream_recv channel stream with
    | (Err _, channel, stream) => (Err StorageIo, after channel stream)
    | (Ok response, channel, stream) => (interpret response, after channel stream)
    end.

Definition get_response (response : bytes) : result StorageError (option bytes) :=
  match response with
  | [] => Err (protocol_error (bs "short GET response"))
  | present :: rest =>
      if decide (present = Byte.x00) then Ok None
      else
        '(value, rest) ← map_err protocol_error (take_bytes rest);
        _ ← map_err protocol_error (expect_empty rest);
        Ok (Some value)
  end.

(** A call of the client: its request, and what it makes of the response. *)
Definition remote_call {A} (cn : Connection) (request : bytes) (k : bytes → result StorageError A)
  : result StorageError A * Connection :=
  let '(r, cn') := roundtrip cn request in (r ≫= k, cn').

Definition remote_get (cn : Connection) (key : bytes) :=
  remote_call cn ([OP_GET] ++ put_bytes key) get_response.
Definition remote_scan_prefix (cn : Connection) (prefix : bytes) :=
  remote_call cn ([OP_SCAN] ++ put_bytes prefix) decode_pairs.
Definition remote_dump (cn : Connection) := remote_call cn [OP_DUMP] decode_pairs.
Definition remote_put (cn : Connection) (key value : bytes) :=
  remote_call cn ([Wire.OP_PUT] ++ put_bytes key ++ put_bytes value) (λ _, Ok tt).
Definition remote_delete (cn : Connection) (key : bytes) :=
  remote_call cn ([Wire.OP_DELETE] ++ put_bytes key) (λ _, Ok tt).
Definition remote_commit (cn : Connection) (batch : Batch) :=
  remote_call cn ([OP_COMMIT] ++ encode_batch batch) (λ _, Ok tt).
End server.
