(* ===== verification/ReplicaFacts.v ===== *)
(** * Replication: a follower converges to its leader

    The effect of one request on the leader, of one record on a follower, and
    the theorem that the snapshot and the stream after it rebuild the leader's
    table and sequence number on the follower, whatever it held before. *)

From S2P Require Import Prelude BTree Storage StorageFacts Values Store Wire Server.

(** ** One request *)

(** A request either leaves data, sequence and followers alone, or applies one
    batch and replicates exactly it. *)
Definition request_effect (st st' : ServerState) : Prop :=
  (server_table st' = server_table st ∧ sv_seq st' = sv_seq st ∧ sv_subscribers st' = sv_subscribers st)
  ∨ ∃ batch, wire_batch batch
      ∧ server_table st' = apply_entries (server_table st) (entries batch)
      ∧ sv_seq st' = wadd 64 (sv_seq st) 1
      ∧ sv_subscribers st' = broadcast (record REC_BATCH (sv_seq st') (encode_batch batch)) (sv_subscribers st).

Lemma server_write_effect b op f r b' :
  (∀ io, ∃ rec, op io (lb_storage b) = then_apply (append_wal io (lb_storage b) rec) f) →
  server_write b op = (r, b') →
  match r with Ok _ => local_table b' = f (local_table b) | Err _ => local_table b' = local_table b end.
Proof.
  intros Hop. unfold server_write. destruct (Hop (default IoOk (head (lb_outcomes b)))) as [rec ->].
  destruct (default IoOk _); intros [= <- <-]; done.
Qed.

Lemma server_commit_effect b batch r b' :
  server_write b (λ io s, storage_commit io s batch) = (r, b') →
  match r with
  | Ok _ => local_table b' = apply_entries (local_table b) (entries batch)
  | Err _ => local_table b' = local_table b
  end.
Proof.
  destruct (entries batch) as [|e es] eqn:He.
  - unfold server_write. rewrite commit_unfold, He. by intros [= <- <-].
  - apply server_write_effect. intros io. exists (commit_bytes batch). rewrite commit_unfold, He. done.
Qed.

Section leader.
Context (error_text : StorageError → bytes).

Lemma write_and_replicate_effect st r b batch :
  wire_batch batch →
  match r with
  | Ok _ => local_table b = apply_entries (server_table st) (entries batch)
  | Err _ => local_table b = server_table st
  end →
  request_effect st (write_and_replicate error_text st (r, b) batch).2.
Proof.
  intros Hb Ht. unfold write_and_replicate. cbn [fst snd]. destruct r as [u|e].
  - right. exists batch. done.
  - by left.
Qed.

Lemma wire_put k v : small (length k) → small (length v) → wire_batch (batch_put batch_new k v).
Proof. intros. split; [|done]. constructor; [|constructor]. split; [done|by left]. Qed.

Lemma wire_delete k : small (length k) → wire_batch (batch_delete batch_new k).
Proof. intros. split; [|done]. constructor; [|constructor]. split; [done|by right]. Qed.

Lemma unchanged_effect st : request_effect st st.
Proof. by left. Qed.

Lemma handle_request_effect request st :
  request_effect st (handle_request error_text request st).2.
Proof.
  destruct request as [|op body]; [apply unchanged_effect|]. unfold handle_request.
  repeat case_decide; try apply unchanged_effect.
  - unfold handle_put. destruct (parse_put body) as [[k v]|] eqn:Hp; [|apply unchanged_effect].
    destruct (sv_read_only st); [apply unchanged_effect|]. destruct (server_write _ _) as [r b] eqn:Hw.
    apply write_and_replicate_effect.
    + unfold parse_put in Hp. destruct (take_bytes body) as [[k' r1]|] eqn:Hk; result_simpl; [|done].
      destruct (take_bytes r1) as [[v' r2]|] eqn:Hv; result_simpl; [|done].
      destruct (expect_empty r2); result_simpl; [|done]. injection Hp as <- <-.
      apply wire_take_bytes_inv in Hk as [_ Hk], Hv as [_ Hv]. by apply wire_put.
    + apply (server_write_effect _ _ (<[k := v]>)) in Hw; [by destruct r|]. intros io. by eexists.
  - unfold handle_delete. destruct (parse_delete body) as [k|] eqn:Hp; [|apply unchanged_effect].
    destruct (sv_read_only st); [apply unchanged_effect|]. destruct (server_write _ _) as [r b] eqn:Hw.
    apply write_and_replicate_effect.
    + unfold parse_delete in Hp. destruct (take_bytes body) as [[k' r1]|] eqn:Hk; result_simpl; [|done].
      destruct (expect_empty r1); result_simpl; [|done]. injection Hp as <-.
      apply wire_take_bytes_inv in Hk as [_ Hk]. by apply wire_delete.
    + apply (server_write_effect _ _ (base.delete k)) in Hw; [by destruct r|]. intros io. by eexists.
  - unfold handle_commit. destruct (sv_read_only st); [apply unchanged_effect|].
    destruct (decode_batch body) as [batch|] eqn:Hd; [|apply unchanged_effect].
    destruct (server_write _ _) as [r b] eqn:Hw.
    apply write_and_replicate_effect; [by apply decode_batch_wire in Hd|].
    apply server_commit_effect in Hw. by destruct r.
Qed.
End leader.

(** ** One record *)

(** A follower whose own writes succeed. *)
Definition healthy (st : ServerState) : Prop := lb_outcomes (sv_storage st) = [].

Lemma server_commit_healthy b batch :
  lb_outcomes b = [] → ∃ b', server_write b (λ io s, storage_commit io s batch) = (Ok tt, b')
    ∧ local_table b' = apply_entries (local_table b) (entries batch) ∧ lb_outcomes b' = [].
Proof.
  destruct b as [s ios]. cbn [lb_outcomes]. intros ->. unfold server_write. cbn [lb_outcomes lb_storage head tail default].
  rewrite commit_unfold. destruct (entries batch) as [|e es] eqn:He; cbn; eexists; split_and!; try done.
Qed.

Lemma record_fields kind seq body :
  in_u 64 seq → (length (le_bytes 8 seq ++ body) <? 8)%nat = false
  ∧ from_le (take 8 (le_bytes 8 seq ++ body)) = seq ∧ drop 8 (le_bytes 8 seq ++ body) = body
  ∧ record kind seq body = kind :: le_bytes 8 seq ++ body.
Proof.
  intros Hs. rewrite take_app_length', drop_app_length' by (by rewrite length_bytes_le).
  rewrite from_le_small by exact Hs. split_and!; try done.
Qed.

Lemma apply_batch_record seq batch f :
  in_u 64 seq → wire_batch batch → healthy f →
  ∃ f', apply_record (record REC_BATCH seq (encode_batch batch)) f = (Ok (Applied seq (batch_len batch)), f')
    ∧ server_table f' = apply_entries (server_table f) (entries batch) ∧ sv_seq f' = seq ∧ healthy f'.
Proof.
  intros Hs Hb Hf. destruct (record_fields REC_BATCH seq (encode_batch batch) Hs) as (Hlen & Hseq & Hbody & ->).
  unfold apply_record. rewrite Hlen, Hseq, Hbody. rewrite decide_False, decide_True by done.
  unfold apply_batch. rewrite decode_batch_encode by done.
  destruct (server_commit_healthy (sv_storage f) batch Hf) as (b' & -> & Ht & Ho). eexists. split; [done|]. done.
Qed.

(** ** The snapshot *)

Lemma fold_batch_delete ks b :
  entries (fold_left batch_delete ks b) = entries b ++ map (λ k, (Storage.OP_DELETE, k, [])) ks.
Proof.
  revert b. induction ks as [|k ks IH]; intros b; cbn [fold_left map]; [by rewrite app_nil_r|].
  rewrite IH. cbn [batch_delete entries]. by rewrite <- app_assoc.
Qed.

Lemma fold_batch_put kvs b :
  entries (fold_left (λ b kv, batch_put b kv.1 kv.2) kvs b)
  = entries b ++ map (λ kv, (Storage.OP_PUT, kv.1, kv.2)) kvs.
Proof.
  revert b. induction kvs as [|kv kvs IH]; intros b; cbn [fold_left map]; [by rewrite app_nil_r|].
  rewrite IH. cbn [batch_put entries]. by rewrite <- app_assoc.
Qed.

Lemma apply_deletes ks m k :
  apply_entries m (map (λ k, (Storage.OP_DELETE, k, [])) ks) !! k = if decide (k ∈ ks) then None else m !! k.
Proof.
  unfold apply_entries. revert m. induction ks as [|k' ks IH]; intros m; cbn [map fold_left].
  { rewrite decide_False; [done|apply not_elem_of_nil]. }
  rewrite IH. change (apply_entry m (Storage.OP_DELETE, k', [])) with (base.delete k' m).
  destruct (decide (k ∈ ks)) as [Hin|Hin].
  - rewrite decide_True; [done|by apply list_elem_of_further].
  - destruct (decide (k = k')) as [->|Hne].
    + rewrite decide_True, lookup_delete_eq; [done|apply list_elem_of_here].
    + rewrite decide_False, lookup_delete_ne; [done|congruence|]. rewrite not_elem_of_cons. done.
Qed.

Lemma scan_all m : scan_range [] (btree_iter m) = btree_iter (V := bytes) m.
Proof.
  rewrite scan_btree. f_equal. apply map_filter_id. by intros k v _.
Qed.

(** Deleting what the snapshot lacks and writing what it has replaces the
    table by the snapshot's, whatever it was. *)
Lemma snapshot_batch_apply (local : Storage) (m : table) :
  apply_entries (st_map local) (entries (snapshot_batch local (btree_iter m))) = m.
Proof.
  unfold snapshot_batch, storage_scan_prefix. rewrite scan_all, fold_batch_put, fold_batch_delete.
  cbn [batch_new entries app]. rewrite apply_entries_app, apply_puts, list_to_map_btree_iter by apply btree_iter_nodup.
  apply map_eq. intros k. rewrite lookup_union, apply_deletes. destruct (m !! k) as [v|] eqn:Hk.
  { destruct (decide _); [done|]. by destruct (st_map local !! k). }
  case_decide as Hin; [done|]. destruct (st_map local !! k) as [v|] eqn:Hl; [|done]. exfalso. apply Hin.
  apply list_elem_of_filter. split.
  - intros [[k' v'] [-> Hin']]%list_elem_of_fmap. cbn in Hk.
    apply elem_of_btree_iter in Hin'. congruence.
  - apply list_elem_of_fmap. exists (k, v). split; [done|]. by apply elem_of_btree_iter.
Qed.

(** The casts of the snapshot's encoding are exact. *)
Definition table_small (m : table) : Prop :=
  Forall pair_small (btree_iter m) ∧ small (length (btree_iter m)).

Lemma apply_snapshot_record seq m f :
  in_u 64 seq → table_small m → healthy f →
  ∃ f', apply_record (record REC_SNAPSHOT seq (encode_pairs (btree_iter m))) f
      = (Ok (Snapshot seq (length (btree_iter m))), f')
    ∧ server_table f' = m ∧ sv_seq f' = seq ∧ healthy f'.
Proof.
  intros Hs [Hm Hn] Hf.
  destruct (record_fields REC_SNAPSHOT seq (encode_pairs (btree_iter m)) Hs) as (Hlen & Hseq & Hbody & ->).
  unfold apply_record. rewrite Hlen, Hseq, Hbody. rewrite decide_True by done.
  unfold apply_snapshot. rewrite decode_pairs_encode by done.
  destruct (server_commit_healthy (sv_storage f) (snapshot_batch (lb_storage (sv_storage f)) (btree_iter m)) Hf)
    as (b' & -> & Ht & Ho).
  eexists. split; [done|]. split; [|done]. unfold server_table. cbn [sv_storage]. rewrite Ht.
  apply snapshot_batch_apply.
Qed.

(** ** Convergence *)

Lemma follow_app msgs msgs' f es f1 :
  follow msgs f = (Ok es, f1) →
  follow (msgs ++ msgs') f = (let '(r, f2) := follow msgs' f1 in ((λ es', es ++ es') <$> r, f2)).
Proof.
  revert f es. induction msgs as [|msg msgs IH]; intros f es; cbn [follow app].
  { intros [= <- <-]. by destruct (follow msgs' f) as [[]]. }
  destruct (apply_record msg f) as [[event|] f2]; [|done].
  destruct (follow msgs f2) as [[es2|] f3] eqn:Hf; [|done]. intros [= <- <-].
  rewrite (IH _ _ Hf). by destruct (follow msgs' f3) as [[]].
Qed.

Lemma broadcast_last msg subs q :
  list.last subs = Some (mkSubscriber true q) →
  list.last (broadcast msg subs) = Some (mkSubscriber true (q ++ [msg])).
Proof.
  intros Hl. apply last_Some in Hl as [subs' ->]. unfold broadcast.
  rewrite list.filter_app, (filter_cons_True _ _ []) by done. rewrite map_app. apply last_snoc.
Qed.

Section converge.
Context (error_text : StorageError → bytes).

(** The leader handling requests one after the other. *)
Definition lead (requests : list bytes) (st : ServerState) : ServerState :=
  fold_left (λ st request, (handle_request error_text request st).2) requests st.

Lemma lead_snoc requests request st :
  lead (requests ++ [request]) st = (handle_request error_text request (lead requests st)).2.
Proof. apply fold_left_app. Qed.

(** What a follower that has taken [stream] after the snapshot agrees on. *)
Definition agrees (f st : ServerState) : Prop :=
  server_table f = server_table st ∧ sv_seq f = sv_seq st.

Definition tracks (st1 f1 : ServerState) (requests : list bytes) : Prop :=
  ∃ stream events f2, list.last (sv_subscribers (lead requests st1)) = Some (mkSubscriber true stream)
    ∧ follow stream f1 = (Ok events, f2) ∧ agrees f2 (lead requests st1) ∧ healthy f2
    ∧ in_u 64 (sv_seq (lead requests st1))
    ∧ ∀ n, ∃ k, agrees (follow (take n stream) f1).2 (lead (take k requests) st1).

Lemma lead_tracks st1 f1 requests : tracks st1 f1 [] → tracks st1 f1 requests.
Proof.
  intros H0. induction requests as [|request requests IH] using rev_ind; [done|].
  destruct IH as (stream & events & f2 & Hlast & Hfol & Hagree & Hhealthy & Hseq & Hpre).
  assert (Hpre' : ∀ n, ∃ k, agrees (follow (take n stream) f1).2 (lead (take k (requests ++ [request])) st1)).
  { intros n. destruct (Hpre n) as [k Hk]. exists (k `min` length requests)%nat.
    rewrite take_app_le by lia. by rewrite <- take_take, (take_ge requests (length requests)). }
  unfold tracks. rewrite lead_snoc in *.
  destruct (handle_request_effect error_text request (lead requests st1))
    as [(Ht & Hs & Hsub)|(batch & Hb & Ht & Hs & Hsub)].
  { exists stream, events, f2. unfold agrees. rewrite Ht, Hs, Hsub. done. }
  destruct Hagree as [Hta Hsa].
  assert (Hseq' : in_u 64 (sv_seq (handle_request error_text request (lead requests st1)).2))
    by (rewrite Hs; apply in_u_wrap; lia).
  destruct (apply_batch_record _ batch f2 Hseq' Hb Hhealthy) as (f3 & Hap & Ht3 & Hs3 & Hh3).
  set (msg := record _ _ _) in *. set (event := Applied _ (batch_len batch)) in *.
  assert (Hfol' : follow (stream ++ [msg]) f1 = (Ok (events ++ [event]), f3)).
  { rewrite (follow_app _ _ _ _ _ Hfol). cbn [follow]. by rewrite Hap. }
  assert (Ha : agrees f3 (handle_request error_text request (lead requests st1)).2)
    by (split; [by rewrite Ht3, Hta, Ht|done]).
  exists (stream ++ [msg]), (events ++ [event]), f3.
  split_and!; [by rewrite Hsub; apply broadcast_last|exact Hfol'|done|done|done|].
  intros n. destruct (decide (n ≤ length stream)%nat) as [Hn|Hn].
  - rewrite take_app_le by done. apply Hpre'.
  - exists (S (length requests)). rewrite take_ge by (rewrite length_app; cbn; lia).
    rewrite Hfol', take_ge by (rewrite length_app; cbn; lia). by rewrite lead_snoc.
Qed.

(** The follower's state after any number of messages. *)
Lemma follower_tracks st requests f :
  table_small (server_table st) → in_u 64 (sv_seq st) → healthy f →
  let snapshot := (subscribe st).1 in
  let st1 := (subscribe st).2 in
  ∃ stream events f',
    list.last (sv_subscribers (lead requests st1)) = Some (mkSubscriber true stream)
    ∧ follow (snapshot :: stream) f = (Ok events, f')
    ∧ agrees f' (lead requests st1)
    ∧ ∀ n, ∃ k, agrees (follow (snapshot :: take n stream) f).2 (lead (take k requests) st1).
Proof.
  intros Hsmall Hseq Hf snapshot st1.
  destruct (apply_snapshot_record (sv_seq st) (server_table st) f Hseq Hsmall Hf) as (f1 & Hap & Ht & Hs & Hh).
  assert (snapshot = record REC_SNAPSHOT (sv_seq st) (encode_pairs (btree_iter (server_table st)))) as Hsnap.
  { unfold snapshot, subscribe. cbn [fst]. unfold storage_scan_prefix. by rewrite scan_all. }
  assert (Hstep : ∀ msgs, follow (snapshot :: msgs) f
    = (let '(r, f2) := follow msgs f1 in ((λ es, Snapshot (sv_seq st) (length (btree_iter (server_table st))) :: es) <$> r, f2))).
  { intros msgs. cbn [follow]. by rewrite Hsnap, Hap. }
  assert (tracks st1 f1 requests) as (stream & events & f2 & Hlast & Hfol & Ha & _ & _ & Hpre).
  { apply lead_tracks. exists [], [], f1. unfold st1, subscribe, lead. cbn [fold_left snd sv_subscribers].
    rewrite last_snoc. split_and!; try done. intros n. exists 0%nat. rewrite take_nil. done. }
  exists stream, (Snapshot (sv_seq st) (length (btree_iter (server_table st))) :: events), f2.
  split_and!; [done|by rewrite Hstep, Hfol|done|].
  intros n. destruct (Hpre n) as [k Hk]. exists k. rewrite Hstep. by destruct (follow (take n stream) f1) as [[]].
Qed.
(** A follower that subscribes and takes every record pushed to it ends with
    the leader's table and sequence number, whatever it held before, whatever
    requests the leader served meanwhile and however the leader's own writes
    failed; and after any prefix of the stream it holds a state the leader had. *)
Theorem replica_converges st requests f :
  table_small (server_table st) → in_u 64 (sv_seq st) → healthy f →
  let snapshot := (subscribe st).1 in
  let st1 := (subscribe st).2 in
  ∃ stream events f',
    list.last (sv_subscribers (lead requests st1)) = Some (mkSubscriber true stream)
    ∧ follow (snapshot :: stream) f = (Ok events, f')
    ∧ agrees f' (lead requests st1)
    ∧ ∀ n, ∃ k, agrees (follow (snapshot :: take n stream) f).2 (lead (take k requests) st1).
Proof. apply follower_tracks. Qed.
End converge.

Lemma replica_converges_witness :
  let st := server_new (mkLocal (mkStorage {[ bs "a" := bs "1" ]} []) []) false in
  let f := server_new (mkLocal (mkStorage {[ bs "z" := bs "9" ]} []) []) true in
  let requests := [[Wire.OP_PUT] ++ put_bytes (bs "b") ++ put_bytes (bs "2"); [Wire.OP_DELETE] ++ put_bytes (bs "a")] in
  ∃ stream events f',
    follow ((subscribe st).1 :: stream) f = (Ok events, f') ∧ agrees f' (lead (λ _, []) requests (subscribe st).2).
Proof.
  intros st f requests.
  destruct (replica_converges (λ _, []) st requests f) as (stream & events & f' & _ & Hf & Ha & _).
  - assert (btree_iter (server_table st) = [(bs "a", bs "1")]) as Hl by (vm_compute; reflexivity).
    unfold table_small. rewrite Hl. split; [|reflexivity]. repeat constructor.
  - split; reflexivity.
  - reflexivity.
  - exists stream, events, f'. exact (conj Hf Ha).
Defined.
