(* ===== verification/RemoteFacts.v ===== *)
(** * The remote client refines the server's table

    A connection in lockstep stays in lockstep until it is lost; every call of
    the client answers from the table the server holds, and a write that fails
    either happened or did not.  The requests must fit the protocol's 32-bit
    lengths and the responses one frame: a longer one puts the client out of
    step with its stream ([oversized_frame_left]). *)

From S2P Require Import Prelude BTree Storage StorageFacts ChaCha20 Aead Values Store Wire Server ReplicaFacts.

(** ** The channel *)

(** What one end sends the other opens: same key, same counter. *)
Definition one_way (sender receiver : Channel) : Prop :=
  send_key sender = recv_key receiver ∧ send_ctr sender = recv_ctr receiver
  ∧ length (send_key sender) = KEY_LEN.

(** A connection that is up, with nothing on its way and both directions in
    step. *)
Definition lockstep (cn : Connection) : Prop :=
  rs_stream (cn_remote cn) = mkTcp TcpUp []
  ∧ ∃ server, pr_end (cn_peer cn) = Serving server []
      ∧ one_way (rs_channel (cn_remote cn)) server ∧ one_way server (rs_channel (cn_remote cn)).

(** A connection that is lost: nothing the client may still read is left, or no
    write will succeed. *)
Definition lost (t : TcpStream) : Prop :=
  tcp_state t = TcpWriteFailed ∨ t = mkTcp TcpLost [].

Definition connected (cn : Connection) : Prop := lost (rs_stream (cn_remote cn)) ∨ lockstep cn.

Lemma channel_wf_key key ctr : length key = KEY_LEN → wf_key key (counter_nonce ctr).
Proof. intros Hk. split; [done|]. unfold counter_nonce. by rewrite length_app, length_bytes_le. Qed.

(** A message arrives as it was sent, unless its frame is over the cap. *)
Lemma channel_send_recv sender receiver msg frame sender' rest :
  one_way sender receiver → small (length msg + TAG_LEN) → channel_send sender msg = (frame, sender') →
  match channel_recv receiver (frame ++ rest) with
  | Ok (msg', rest', receiver') => msg' = msg ∧ rest' = rest ∧ one_way sender' receiver'
      ∧ send_key receiver' = send_key receiver ∧ send_ctr receiver' = send_ctr receiver
  | Err e => e = RecvFrame FrameTooLarge ∧ MAX_FRAME < Z.of_nat (length msg + TAG_LEN)
  end
  ∧ recv_key sender' = recv_key sender ∧ recv_ctr sender' = recv_ctr sender.
Proof.
  intros (Hk & Hc & Hlen) Hsmall [= <- <-]. split; [|done]. unfold channel_recv.
  pose proof (channel_wf_key _ (send_ctr sender) Hlen) as Hwf.
  assert (Hl : length (channel_seal (send_key sender) (send_ctr sender) msg) = (length msg + TAG_LEN)%nat).
  { unfold channel_seal, aead_seal. rewrite length_app, length_compute_tag, length_xor_stream by done. done. }
  rewrite read_write_frame by (by rewrite Hl). rewrite Hl.
  destruct (Z.ltb_spec MAX_FRAME (Z.of_nat (length msg + TAG_LEN))); result_simpl; [done|].
  unfold channel_open, channel_seal. rewrite <- Hk, <- Hc, aead_open_seal by done. result_simpl.
  by split_and!.
Qed.

(** A frame that does not arrive whole leaves its reader waiting, unless its
    length is refused. *)
Lemma read_cut_frame payload n :
  small (length payload) → (n < length (write_frame payload))%nat →
  read_frame (take n (write_frame payload)) = Err FrameIo
  ∨ read_frame (take n (write_frame payload)) = Err FrameTooLarge ∧ MAX_FRAME < Z.of_nat (length payload).
Proof.
  intros Hp Hn. unfold read_frame. rewrite length_take, Nat.min_l by lia.
  destruct (Nat.ltb_spec n 4) as [|H4]; [by left|]. rewrite take_take, Nat.min_l by done.
  unfold write_frame in *. rewrite length_app, length_bytes_le in Hn. rewrite from_le4_small by done.
  destruct (Z.ltb_spec MAX_FRAME (Z.of_nat (length payload))); [by right|]. left. by rewrite (proj2 (Z.ltb_lt _ _)) by lia.
Qed.

Lemma channel_send_frame sender msg :
  length (send_key sender) = KEY_LEN → small (length msg + TAG_LEN) →
  ∃ payload, (channel_send sender msg).1 = write_frame payload ∧ length payload = (length msg + TAG_LEN)%nat.
Proof.
  intros Hk Hs. eexists. split; [reflexivity|]. unfold channel_seal, aead_seal.
  pose proof (channel_wf_key _ (send_ctr sender) Hk) as Hwf.
  by rewrite length_app, length_compute_tag, length_xor_stream by done.
Qed.

(** A receiver of a frame, whole or cut. *)
Lemma recv_cut sender receiver msg n rest :
  one_way sender receiver → small (length msg + TAG_LEN) →
  let '(frame, sender') := channel_send sender msg in
  (∃ e, channel_recv receiver (take n (frame ++ rest)) = Err e
     ∧ ((n < length frame)%nat ∧ e = RecvFrame FrameIo
        ∨ e = RecvFrame FrameTooLarge ∧ MAX_FRAME < Z.of_nat (length msg + TAG_LEN)))
  ∨ (length frame ≤ n)%nat ∧ ∃ receiver', one_way sender' receiver'
     ∧ channel_recv receiver (take n (frame ++ rest)) = Ok (msg, take (n - length frame) rest, receiver').
Proof.
  intros Ho Hs. destruct (channel_send_frame sender msg) as (payload & Hf & Hl); [apply Ho|done|].
  destruct (channel_send sender msg) as [frame sender'] eqn:E. cbn [fst] in Hf. subst frame.
  destruct (decide (n < length (write_frame payload))%nat) as [Hn|Hn].
  - left. rewrite take_app_le by lia. unfold channel_recv.
    destruct (read_cut_frame payload n) as [->|[-> Hl']]; [by rewrite Hl|done| |]; eexists; (split; [reflexivity|]).
    + by left.
    + right. split; [done|]. by rewrite <- Hl.
  - rewrite take_app_ge by lia.
    pose proof (channel_send_recv sender receiver msg _ _ (take (n - length (write_frame payload)) rest) Ho Hs E) as [Hr _].
    destruct (channel_recv receiver _) as [[[msg' rest'] receiver']|e].
    + right. destruct Hr as (-> & -> & Ho' & _). split; [lia|]. by exists receiver'.
    + left. exists e. split; [done|by right].
Qed.

(** The ends of one direction, whatever the other direction does. *)
Lemma one_way_same sender receiver sender' receiver' : one_way sender receiver →
  send_key sender' = send_key sender → send_ctr sender' = send_ctr sender →
  recv_key receiver' = recv_key receiver → recv_ctr receiver' = recv_ctr receiver → one_way sender' receiver'.
Proof. intros (? & ? & ?) Hs Hc Hr Hn. unfold one_way. by rewrite Hs, Hc, Hr, Hn. Qed.

Lemma channel_recv_keeps c stream msg rest c' : channel_recv c stream = Ok (msg, rest, c') →
  send_key c' = send_key c ∧ send_ctr c' = send_ctr c.
Proof.
  unfold channel_recv. destruct (read_frame stream) as [[sealed rest']|]; [|discriminate]. result_simpl.
  destruct (channel_open _ _ _); [|discriminate]. result_simpl. intros Hx. apply ok_inj, pair_equal_spec in Hx as [_ <-]. by split.
Qed.

Lemma channel_send_keeps c msg frame c' : channel_send c msg = (frame, c') → recv_key c' = recv_key c ∧ recv_ctr c' = recv_ctr c.
Proof. unfold channel_send. intros Hx. apply pair_equal_spec in Hx as [_ <-]. by split. Qed.

(** The message and its tag fit one frame. *)
Definition fits_frame (n : nat) : Prop := Z.of_nat n ≤ MAX_FRAME.

Lemma fits_frame_small n : fits_frame n → small n.
Proof. unfold fits_frame, small, MAX_FRAME. lia. Qed.

(** A response, of which the network delivers all or a part. *)
Lemma delivered_response sender receiver msg o :
  one_way sender receiver → fits_frame (length msg + TAG_LEN) →
  let '(frame, sender') := channel_send sender msg in
  (channel_recv receiver (net_response o frame) = Err (RecvFrame FrameIo) ∧ o ≠ NetOk)
  ∨ ∃ receiver', channel_recv receiver (net_response o frame) = Ok (msg, [], receiver') ∧ one_way sender' receiver'.
Proof.
  intros Ho Hf. pose proof (λ n, recv_cut sender receiver msg n [] Ho (fits_frame_small _ Hf)) as Hr.
  destruct (channel_send sender msg) as [frame sender'].
  assert (∃ n, net_response o frame = take n (frame ++ []) ∧ (o = NetOk → n = length frame)) as (n & -> & Hok).
  { destruct o as [|w n m]; [exists (length frame)|exists m]; (split; [|done]); rewrite app_nil_r; [by rewrite firstn_all|done]. }
  destruct (Hr n) as [(e & -> & [[Hcut ->]|[_ Hbig]])|(Hlen & receiver' & Ho' & ->)].
  - left. split; [done|]. intros Hnet. rewrite (Hok Hnet) in Hcut. lia.
  - unfold fits_frame in Hf. lia.
  - right. exists receiver'. by rewrite take_nil.
Qed.

(** A frame over the limit: its length is read and refused, and the rest of it
    stays in front of the frames that follow. *)
Lemma oversized_frame_left c state payload rest : small (length payload) → MAX_FRAME < Z.of_nat (length payload) →
  stream_recv c (mkTcp state (write_frame payload ++ rest)) = (Err (RecvFrame FrameTooLarge), c, mkTcp state (payload ++ rest)).
Proof.
  intros Hs Hbig. unfold stream_recv, channel_recv. cbn [tcp_inbox tcp_state].
  rewrite read_write_frame by done. rewrite (proj2 (Z.ltb_lt _ _)) by done. result_simpl.
  unfold write_frame. rewrite <- app_assoc, drop_app_length' by (by rewrite length_bytes_le). done.
Qed.

(** ** One exchange *)

Section remote.
Context (error_text : StorageError → bytes).

(** The server reads a request of which [n] bytes arrive, and waits again. *)
Lemma serve_delivered client server request frame client' o st :
  one_way client server → small (length request + TAG_LEN) → head request ≠ Some OP_SUBSCRIBE →
  channel_send client request = (frame, client') →
  let '(reply, ending, st') := serve_end error_text (Serving server []) (net_request o frame) st in
  (reply = [] ∧ st' = st ∧ (o = NetOk → ending = HungUp))
  ∨ ∃ server' server'', one_way client' server'
      ∧ send_key server' = send_key server ∧ send_ctr server' = send_ctr server
      ∧ channel_send server' (respond error_text request st).1 = (reply, server'')
      ∧ st' = (respond error_text request st).2 ∧ ending = Serving server'' [].
Proof.
  intros Ho Hs Hne Hsend. unfold serve_end. cbn [app].
  assert (∃ n, net_request o frame = take n (frame ++ []) ∧ (o = NetOk → n = length frame)) as (n & Hn & Hok).
  { destruct o as [|w n m]; [exists (length frame)|exists n]; (split; [|done]); rewrite app_nil_r; [by rewrite firstn_all|done]. }
  pose proof (recv_cut client server request n [] Ho Hs) as Hr. rewrite Hsend in Hr. rewrite Hn.
  destruct Hr as [(e & Hr & Hwhy)|(Hlen & server' & Ho' & Hr)].
  - destruct (length (take n (frame ++ []))) as [|fuel] eqn:Hl; cbn [serve_ready].
    + left. split_and!; [done|done|]. intros Hnet. exfalso. rewrite app_nil_r, (Hok Hnet), firstn_all in Hl.
      destruct (channel_send_frame client request) as (payload & Hf & _); [apply Ho|done|]. rewrite Hsend in Hf. cbn [fst] in Hf.
      rewrite Hf in Hl. unfold write_frame in Hl. rewrite length_app, length_bytes_le in Hl. lia.
    + rewrite Hr. destruct Hwhy as [[Hcut ->]|[-> _]]; left; (split_and!; [done|done|]); [|done].
      intros Hnet. rewrite (Hok Hnet) in Hcut. lia.
  - rewrite app_nil_r in *. rewrite take_ge in * by done. rewrite take_nil in Hr.
    destruct (length frame) as [|fuel] eqn:Hl; [destruct frame; [discriminate Hr|discriminate Hl]|].
    cbn [serve_ready]. rewrite Hr, decide_False by done.
    destruct (respond error_text request st) as [response st'] eqn:Hresp. cbn [fst snd].
    destruct (channel_send server' response) as [reply server''] eqn:Hsend'.
    assert (serve_ready error_text fuel server'' [] st' = ([], Serving server'' [], st')) as -> by (by destruct fuel).
    rewrite app_nil_r. right. exists server', server''.
    destruct (channel_recv_keeps server frame request [] server' Hr) as [Hk Hc]. by split_and!.
Qed.

(** A lost connection stays lost. *)
Lemma lost_write frame stream peer written stream' peer' : lost stream →
  tcp_write error_text frame stream peer = (written, stream', peer') →
  lost stream' ∧ pr_state peer' = pr_state peer ∧ (written = true → stream' = mkTcp TcpLost []).
Proof.
  unfold tcp_write. intros [Hf| ->].
  - rewrite Hf. intros [= <- <- <-]. split_and!; [by left|done|done].
  - cbn [tcp_state tcp_inbox]. destruct (net_written _); intros [= <- <- <-]; (split_and!; [|done|done]); [by right|by left].
Qed.

(** The call ends with the server's answer to exactly this request, or with an
    I/O error and the request handled or not. *)
Lemma roundtrip_spec cn request r cn' :
  connected cn → small (length request + TAG_LEN) → head request ≠ Some OP_SUBSCRIBE →
  fits_frame (length (respond error_text request (cn_state cn)).1 + TAG_LEN) →
  roundtrip error_text cn request = (r, cn') →
  connected cn' ∧
  ((r = Err StorageIo ∧ cn_state cn' = cn_state cn)
   ∨ ((r = Err StorageIo ∨ r = interpret (respond error_text request (cn_state cn)).1)
      ∧ cn_state cn' = (respond error_text request (cn_state cn)).2)).
Proof.
  intros Hcn Hreq Hne Hresp. unfold roundtrip, cn_state in *. destruct cn as [rs peer]. cbn [cn_remote cn_peer] in *.
  destruct (channel_send (rs_channel rs) request) as [frame client] eqn:Hsend.
  destruct Hcn as [Hlost|(Hup & server & Hend & Hcs & Hsc)]; cbn [cn_remote cn_peer] in *.
  { destruct (tcp_write error_text frame (rs_stream rs) peer) as [[written stream] peer'] eqn:Hw.
    destruct (lost_write _ _ _ _ _ _ Hlost Hw) as (Hlost' & Hst & Hs). destruct written; cbn [negb].
    - rewrite (Hs eq_refl). intros [= <- <-]. split; [left; by right|]. by left.
    - intros [= <- <-]. split; [by left|]. by left. }
  unfold tcp_write. rewrite Hup, Hend. cbn [tcp_state tcp_inbox app]. set (o := default NetOk (head (pr_net peer))).
  pose proof (serve_delivered _ _ _ _ _ o (pr_state peer) Hcs Hreq Hne Hsend) as Hs.
  destruct (serve_end error_text (Serving server []) _ _) as [[reply ending] st'].
  destruct Hs as [(-> & -> & Hhung)|(server' & server'' & Ho & Hk & Hc & Hreply & -> & ->)].
  - assert (net_response o [] = []) as -> by (destruct o; [done|apply take_nil]).
    destruct o as [|[] n m]; cbn [net_written tcp_after negb]; [rewrite (Hhung eq_refl)| |]; intros [= <- <-];
      (split; [left|by left]); [by right|by right|by left].
  - destruct (channel_send_keeps _ _ _ _ Hsend) as [Hrk Hrc].
    pose proof (one_way_same _ _ server' client Hsc Hk Hc Hrk Hrc) as Hsc'.
    destruct (net_written o) eqn:Hwritten; cbn [negb].
    2: { destruct o as [|[] n m]; try discriminate Hwritten. intros [= <- <-]. split; [left; by left|]. right. by split; [left|]. }
    pose proof (delivered_response server' client _ o Hsc' Hresp) as Hd. rewrite Hreply in Hd. unfold stream_recv. cbn [tcp_inbox tcp_state].
    destruct Hd as [(-> & Hcut)|(client' & Hr & Ho')].
    + destruct o as [|[] n m]; [done| |discriminate Hwritten]. intros [= <- <-]. split; [left; by right|]. right. by split; [left|].
    + rewrite Hr. destruct (channel_recv_keeps _ _ _ _ _ Hr) as [Hck Hcc]. destruct (channel_send_keeps _ _ _ _ Hreply) as [Hsk Hsr].
      intros [= <- <-]. split; [|right; by split; [right|]].
      destruct o as [|[] n m]; [|left; by right|discriminate Hwritten]. right. split; [done|]. exists server''.
      split_and!; [done|exact (one_way_same _ _ client' server'' Ho Hck Hcc Hsk Hsr)|exact Ho'].
Qed.

(** ** Calls *)

Inductive RemoteCmd : Type :=
| RGet (key : bytes)
| RScan (prefix : bytes)
| RDump
| RPut (key value : bytes)
| RDelete (key : bytes)
| RCommit (batch : Batch).

Inductive RemoteReply : Type :=
| RpValue (value : option bytes)
| RpPairs (pairs : list pair)
| RpUnit.

Definition remote_run (cn : Connection) (c : RemoteCmd) : result StorageError RemoteReply * Connection :=
  match c with
  | RGet key => let '(r, cn) := remote_get error_text cn key in (RpValue <$> r, cn)
  | RScan prefix => let '(r, cn) := remote_scan_prefix error_text cn prefix in (RpPairs <$> r, cn)
  | RDump => let '(r, cn) := remote_dump error_text cn in (RpPairs <$> r, cn)
  | RPut key value => let '(r, cn) := remote_put error_text cn key value in ((λ _, RpUnit) <$> r, cn)
  | RDelete key => let '(r, cn) := remote_delete error_text cn key in ((λ _, RpUnit) <$> r, cn)
  | RCommit batch => let '(r, cn) := remote_commit error_text cn batch in ((λ _, RpUnit) <$> r, cn)
  end.

(** The specification: a table. *)
Definition cmd_next (m : table) (c : RemoteCmd) : table :=
  match c with
  | RPut key value => <[key := value]> m
  | RDelete key => base.delete key m
  | RCommit batch => apply_entries m (entries batch)
  | _ => m
  end.

Definition cmd_reply (m : table) (c : RemoteCmd) : RemoteReply :=
  match c with
  | RGet key => RpValue (m !! key)
  | RScan prefix => RpPairs (btree_iter (filter (λ kv, starts_with prefix kv.1 = true) m))
  | RDump => RpPairs (btree_iter m)
  | _ => RpUnit
  end.

Inductive remote_step (m : table) (c : RemoteCmd) : result StorageError RemoteReply → table → Prop :=
| remote_ok : remote_step m c (Ok (cmd_reply m c)) (cmd_next m c)
| remote_failed e : remote_step m c (Err e) m
| remote_unconfirmed e : remote_step m c (Err e) (cmd_next m c).

(** The request of a call and how its response is read. *)
Definition cmd_request (c : RemoteCmd) : bytes :=
  match c with
  | RGet key => [OP_GET] ++ put_bytes key
  | RScan prefix => [OP_SCAN] ++ put_bytes prefix
  | RDump => [OP_DUMP]
  | RPut key value => [Wire.OP_PUT] ++ put_bytes key ++ put_bytes value
  | RDelete key => [Wire.OP_DELETE] ++ put_bytes key
  | RCommit batch => [OP_COMMIT] ++ encode_batch batch
  end.

Definition cmd_result (c : RemoteCmd) (body : bytes) : result StorageError RemoteReply :=
  match c with
  | RGet _ => RpValue <$> get_response body
  | RScan _ | RDump => RpPairs <$> decode_pairs body
  | _ => Ok RpUnit
  end.

Lemma remote_run_roundtrip cn c :
  remote_run cn c
  = (let '(r, cn') := roundtrip error_text cn (cmd_request c) in (body ← r; cmd_result c body, cn')).
Proof.
  destruct c; unfold remote_run, remote_get, remote_scan_prefix, remote_dump, remote_put, remote_delete,
    remote_commit, remote_call; cbn [cmd_request]; destruct (roundtrip _ _ _) as [[body|] cn']; done.
Qed.

(** ** Sizes *)

(** The whole table fits one response, with room for the message around it. *)
Definition table_fits (m : table) : Prop :=
  fits_frame (length (encode_pairs (btree_iter m)) + 64).

Definition cmd_small (c : RemoteCmd) : Prop :=
  small (length (cmd_request c) + TAG_LEN)
  ∧ match c with RCommit batch => wire_batch batch | _ => True end.

Definition short_errors : Prop := ∀ e, fits_frame (length (error_text e) + 64).

Lemma length_encode_pair kv : length (encode_pair kv) = (8 + length kv.1 + length kv.2)%nat.
Proof. unfold encode_pair. rewrite length_app, !length_put_bytes. lia. Qed.

Lemma length_encode_pairs l : length (encode_pairs l) = (4 + length (concat (map encode_pair l)))%nat.
Proof. unfold encode_pairs. by rewrite length_app, length_bytes_le. Qed.

Lemma concat_pairs_bound l :
  Forall (λ kv, (8 + length kv.1 + length kv.2 ≤ length (concat (map encode_pair l)))%nat) l
  ∧ (length l ≤ length (concat (map encode_pair l)))%nat.
Proof.
  induction l as [|kv l [IH IHn]]; cbn [map concat length]; [by split|].
  rewrite length_app, length_encode_pair. split; [|lia].
  constructor; [lia|]. eapply list.Forall_impl; [exact IH|]. intros; cbn in *; lia.
Qed.

Lemma concat_pairs_filter (P : pair → Prop) `{∀ x, Decision (P x)} l :
  (length (concat (map encode_pair (filter P l))) ≤ length (concat (map encode_pair l)))%nat.
Proof.
  induction l as [|kv l IH]; [done|]. rewrite list.filter_cons.
  case_decide; cbn [map concat]; rewrite !length_app; lia.
Qed.

Lemma scan_pairs m p :
  storage_scan_prefix (mkStorage m []) p = filter (λ kv, starts_with p kv.1 = true) (btree_iter m).
Proof. unfold storage_scan_prefix. apply scan_range_filter, btree_iter_sorted. Qed.

(** ** The server's answer to a call *)

Lemma fits_pairs m : table_fits m → table_small m.
Proof.
  unfold table_fits, fits_frame, MAX_FRAME, table_small. rewrite length_encode_pairs. intros Hm.
  destruct (concat_pairs_bound (btree_iter m)) as [Hall Hlen]. split; [|unfold small; lia].
  eapply list.Forall_impl; [exact Hall|]. intros kv Hkv. unfold pair_small, small. cbn in Hkv. lia.
Qed.

Lemma fits_value m k v : table_fits m → m !! k = Some v → small (length v + 16).
Proof.
  unfold table_fits, fits_frame, MAX_FRAME. rewrite length_encode_pairs. intros Hm Hk%elem_of_btree_iter.
  destruct (concat_pairs_bound (btree_iter m)) as [Hall _]. rewrite list.Forall_forall in Hall.
  specialize (Hall _ Hk). cbn in Hall. unfold small. lia.
Qed.

Lemma fits_scan m p l :
  table_fits m → l = filter (λ kv, starts_with p kv.1 = true) (btree_iter m) →
  decode_pairs (encode_pairs l) = Ok l ∧ fits_frame (length (encode_pairs l) + 17).
Proof.
  intros Hm ->. pose proof (fits_pairs m Hm) as [Hall Hn]. split.
  - apply decode_pairs_encode; [|].
    { rewrite list.Forall_forall in *. intros kv [_ Hkv]%list_elem_of_filter. by apply Hall. }
    pose proof (length_filter (λ kv, starts_with p kv.1 = true) (btree_iter m)). unfold small in *. lia.
  - unfold table_fits, fits_frame in *. rewrite length_encode_pairs in *.
    pose proof (concat_pairs_filter (λ kv, starts_with p kv.1 = true) (btree_iter m)). lia.
Qed.

(** What a response does to the client, and what it says of the table. *)
Definition answers (c : RemoteCmd) (st st' : ServerState) (response : bytes) : Prop :=
  fits_frame (length response + TAG_LEN)
  ∧ remote_step (server_table st) c (body ← interpret response; cmd_result c body) (server_table st')
  ∧ ∀ e, remote_step (server_table st) c (Err e) (server_table st').

Lemma answers_ok c st st' body reply :
  fits_frame (length body + 17) → cmd_result c body = Ok reply → reply = cmd_reply (server_table st) c →
  server_table st' = cmd_next (server_table st) c → answers c st st' ([STATUS_OK] ++ body).
Proof.
  intros Hs Hr -> Ht. split; [cbn; unfold fits_frame in *; change TAG_LEN with 16%nat; lia|].
  cbn [app interpret]. rewrite decide_True by done. result_simpl. rewrite Hr, Ht. split; [constructor|]. by constructor.
Qed.

Lemma answers_err c st st' message :
  fits_frame (length message + 64) → server_table st' = server_table st → answers c st st' ([STATUS_ERR] ++ message).
Proof.
  intros Hs Ht. split; [cbn; unfold fits_frame in *; change TAG_LEN with 16%nat; lia|].
  cbn [app interpret]. rewrite decide_False by done. result_simpl. rewrite Ht. split; [|intros e]; by constructor.
Qed.

Lemma answers_write c st op f batch :
  short_errors → cmd_result c [] = Ok RpUnit → cmd_reply (server_table st) c = RpUnit →
  (∀ io, ∃ rec, op io (lb_storage (sv_storage st)) = then_apply (append_wal io (lb_storage (sv_storage st)) rec) f)
  ∨ op = (λ io s, storage_commit io s batch) ∧ f = (λ m, apply_entries m (entries batch)) →
  f (server_table st) = cmd_next (server_table st) c →
  let '(r, st') := write_and_replicate error_text st (server_write (sv_storage st) op) batch in
  answers c st st' match r with Ok ok => [STATUS_OK] ++ ok | Err message => [STATUS_ERR] ++ message end.
Proof.
  intros He Hr Hrep Hop Hf. destruct (server_write (sv_storage st) op) as [r b] eqn:Hw.
  assert (match r with Ok _ => local_table b = f (server_table st) | Err _ => local_table b = server_table st end) as Ht.
  { destruct Hop as [Hop|[-> ->]]; [by apply (server_write_effect _ _ f) in Hw|by apply server_commit_effect in Hw]. }
  unfold write_and_replicate. cbn [fst snd]. destruct r as [u|e].
  - apply (answers_ok _ _ _ [] RpUnit); [done|done|done|]. unfold server_table at 1. cbn. congruence.
  - apply answers_err; [apply He|exact Ht].
Qed.

Lemma cmd_not_subscribe c : head (cmd_request c) ≠ Some OP_SUBSCRIBE.
Proof. by destruct c. Qed.

Lemma answers_framed c st (p : result bytes bytes * ServerState) :
  (let '(r, st') := p in
   answers c st st' match r with Ok ok => [STATUS_OK] ++ ok | Err message => [STATUS_ERR] ++ message end) →
  let '(response, st') :=
    (let '(r, st') := p in
     (match r with Ok ok => [STATUS_OK] ++ ok | Err message => [STATUS_ERR] ++ message end, st')) in
  answers c st st' response.
Proof. by destruct p. Qed.

Lemma respond_cmd c st :
  short_errors → table_fits (server_table st) → cmd_small c →
  let '(response, st') := respond error_text (cmd_request c) st in answers c st st' response.
Proof.
  intros He Hm [Hsmall Hwire]. assert (Hreq : ∀ n, (n ≤ length (cmd_request c))%nat → small n).
  { intros n Hn. unfold small in *. lia. }
  assert (Hro : ∀ c, answers c st st ([STATUS_ERR] ++ read_only_refused)) by (intros; by apply answers_err).
  unfold respond. destruct c as [k|p| |k v|k|b]; cbn [cmd_request app handle_request] in *;
    repeat (first [rewrite decide_True by done|rewrite decide_False by done]).
  - unfold handle_get. rewrite <- (app_nil_r (put_bytes k)), take_put_bytes by (apply Hreq; cbn; rewrite length_put_bytes; lia).
    result_simpl. change (storage_get (lb_storage (sv_storage st)) k) with (server_table st !! k).
    apply (answers_ok _ _ _ _ (RpValue (server_table st !! k))); try done; destruct (server_table st !! k) as [v|] eqn:Hk.
    + pose proof (fits_value _ _ _ Hm Hk) as Hv. cbn. rewrite length_put_bytes. unfold small in *.
      unfold table_fits, fits_frame in *. rewrite length_encode_pairs in Hm. apply elem_of_btree_iter in Hk.
      destruct (concat_pairs_bound (btree_iter (server_table st))) as [Hall _]. rewrite list.Forall_forall in Hall.
      specialize (Hall _ Hk). cbn in Hall. lia.
    + done.
    + cbn [cmd_result get_response app]. rewrite decide_False by done.
      pose proof (fits_value _ _ _ Hm Hk) as Hv.
      rewrite <- (app_nil_r (put_bytes v)), take_put_bytes by (unfold small in *; lia). done.
    + done.
  - unfold handle_scan. rewrite <- (app_nil_r (put_bytes p)), take_put_bytes by (apply Hreq; cbn; rewrite length_put_bytes; lia).
    result_simpl. destruct (fits_scan (server_table st) p _ Hm eq_refl) as [Hd Hl].
    assert (storage_scan_prefix (lb_storage (sv_storage st)) p
      = filter (λ kv, starts_with p kv.1 = true) (btree_iter (server_table st))) as -> by apply scan_pairs.
    eapply (answers_ok _ _ _ _ (RpPairs _)); [done|cbn [cmd_result]; by rewrite Hd| |done].
    cbn [cmd_reply]. by rewrite <- scan_btree, <- scan_range_filter by apply btree_iter_sorted.
  - unfold handle_dump. result_simpl. destruct (fits_scan (server_table st) [] _ Hm eq_refl) as [Hd Hl].
    assert (storage_scan_prefix (lb_storage (sv_storage st)) [] = btree_iter (server_table st)) as -> by apply scan_all.
    assert (filter (λ kv : pair, starts_with [] kv.1 = true) (btree_iter (server_table st)) = btree_iter (server_table st)) as Heq.
    { rewrite <- scan_range_filter by apply btree_iter_sorted. apply scan_all. }
    rewrite Heq in *. eapply (answers_ok _ _ _ _ (RpPairs _)); [done|cbn [cmd_result]; by rewrite Hd|done|done].
  - unfold handle_put, parse_put. rewrite take_put_bytes by (apply Hreq; cbn; rewrite length_app, length_put_bytes; lia).
    result_simpl. rewrite <- (app_nil_r (put_bytes v)), take_put_bytes by (apply Hreq; cbn; rewrite length_app, !length_put_bytes; lia).
    result_simpl. destruct (sv_read_only st); [apply Hro|].
    apply answers_framed, (answers_write (RPut k v) _ _ (<[k := v]>)); try done. left. intros io. by eexists.
  - unfold handle_delete, parse_delete.
    rewrite <- (app_nil_r (put_bytes k)), take_put_bytes by (apply Hreq; cbn; rewrite length_put_bytes; lia).
    result_simpl. destruct (sv_read_only st); [apply Hro|].
    apply answers_framed, (answers_write (RDelete k) _ _ (base.delete k)); try done. left. intros io. by eexists.
  - unfold handle_commit. destruct (sv_read_only st); [apply Hro|]. rewrite decode_batch_encode by done.
    apply answers_framed, (answers_write (RCommit b) _ _ (λ m, apply_entries m (entries b))); try done. by right.
Qed.

(** ** Refinement *)

Lemma remote_run_step cn c r cn' :
  short_errors → connected cn → cmd_small c → table_fits (server_table (cn_state cn)) →
  remote_run cn c = (r, cn') →
  connected cn' ∧ remote_step (server_table (cn_state cn)) c r (server_table (cn_state cn')).
Proof.
  intros He Hcn Hc Hm. rewrite remote_run_roundtrip.
  destruct (roundtrip error_text cn (cmd_request c)) as [r0 cn0] eqn:Hr. intros [= <- <-].
  pose proof (respond_cmd c (cn_state cn) He Hm Hc) as Ha.
  destruct (respond error_text (cmd_request c) (cn_state cn)) as [response st'] eqn:Hresp.
  destruct Ha as (Hs & Hok & Herr). destruct Hc as [Hc _].
  apply roundtrip_spec in Hr as [Hcn' Hr]; [|done|done|apply cmd_not_subscribe|by rewrite Hresp].
  split; [done|]. rewrite Hresp in Hr. cbn [fst snd] in Hr.
  destruct Hr as [[-> ->]|[[-> | ->] ->]]; [constructor|apply Herr|exact Hok].
Qed.

Fixpoint remote_runs (cn : Connection) (cs : list RemoteCmd)
  : list (result StorageError RemoteReply) * Connection :=
  match cs with
  | [] => ([], cn)
  | c :: cs =>
      let '(r, cn) := remote_run cn c in
      let '(rs, cn) := remote_runs cn cs in (r :: rs, cn)
  end.

Inductive remote_steps (m : table) : list RemoteCmd → list (result StorageError RemoteReply) → table → Prop :=
| remote_done : remote_steps m [] [] m
| remote_more c r m1 cs rs m2 :
    remote_step m c r m1 → remote_steps m1 cs rs m2 → remote_steps m (c :: cs) (r :: rs) m2.

(** Every table the run passes through fits one response. *)
Fixpoint tables_fit (cn : Connection) (cs : list RemoteCmd) : Prop :=
  table_fits (server_table (cn_state cn)) ∧
  match cs with [] => True | c :: cs => tables_fit (remote_run cn c).2 cs end.

(** C11: Through frames, the sealed channel and the server, over a TCP
    connection that delivers everything until it is lost for good, at any
    byte of a request or a response, and whatever the server's disk does, the
    calls of a client that is the only one to write behave as calls on one
    table: an answer is the table's answer, a success is applied, a failure
    was applied in full or not at all. The requests fit the 32-bit lengths,
    and the table and the texts of the server's errors fit one frame (256
    MiB); a longer response would put the client out of step
    ([oversized_frame_left]). *)
Theorem remote_refines_table cn cs rs cn' :
  short_errors → connected cn → Forall cmd_small cs → tables_fit cn cs →
  remote_runs cn cs = (rs, cn') →
  remote_steps (server_table (cn_state cn)) cs rs (server_table (cn_state cn')) ∧ connected cn'.
Proof.
  intros He Hcn Hcs. revert cn Hcn rs. induction Hcs as [|c cs Hc Hcs IH]; intros cn Hcn rs; cbn [tables_fit remote_runs].
  { intros _ [= <- <-]. split; [constructor|done]. }
  intros [Hm Hfit]. destruct (remote_run cn c) as [r cn1] eqn:Hr.
  destruct (remote_runs cn1 cs) as [rs1 cn2] eqn:Hrs. intros [= <- <-].
  apply remote_run_step in Hr as [Hcn1 Hstep]; [|done..].
  destruct (IH cn1 Hcn1 rs1 Hfit Hrs) as [Hsteps Hcn2]. split; [|done]. by econstructor.
Qed.
End remote.

(** Two ends in step, on a network that delivers two exchanges and cuts the
    third request after nine bytes. *)
Definition sample_connection : Connection :=
  mkConnection
    (mkRemote (mkTcp TcpUp []) (mkChannel (replicate 32 Byte.x01) (replicate 32 Byte.x02) 0 0) [] false)
    (mkPeer (Serving (mkChannel (replicate 32 Byte.x02) (replicate 32 Byte.x01) 0 0) [])
       (server_new (mkLocal (storage_open []) []) false) [NetOk; NetOk; NetCut true 9 0]).
Definition sample_calls : list RemoteCmd := [RPut (bs "k") (bs "v"); RGet (bs "k"); RDelete (bs "k")].

Lemma remote_refines_table_witness :
  let run := remote_runs (λ _, []) sample_connection sample_calls in
  run.1 = [Ok RpUnit; Ok (RpValue (Some (bs "v"))); Err StorageIo]
  ∧ remote_steps ∅ sample_calls run.1 (server_table (cn_state run.2)) ∧ connected run.2.
Proof.
  cbv zeta. split; [vm_compute; reflexivity|].
  apply (remote_refines_table (λ _, []) sample_connection sample_calls).
  - intros e. unfold fits_frame. discriminate.
  - right. split; [done|]. eexists. by repeat split.
  - repeat constructor.
  - unfold sample_calls. cbn [tables_fit].
    do 4 (split; [vm_compute; discriminate|]). exact I.
  - apply surjective_pairing.
Defined.
