(* ===== verification/Handshake.v ===== *)
(** * Setting up a connection

    ciphra-net/src/lib.rs: [client_handshake], the handshake of
    [handle_connection], [RemoteStorage::connect]. The network carries one
    frame each way; random bytes are arguments. A result is [None] only when
    the rejection sampling of ML-KEM runs out of fuel. *)

From S2P Require Import Prelude BTree Storage StorageFacts Sha256 ChaCha20 Aead Values Store X25519 Keccak Mlkem MlkemKem MlkemCorrect Hybrid Wire Server ReplicaFacts RemoteFacts.

Inductive HandshakeError : Type :=
| HsFrame (e : FrameError)
| HsBadClientHello
| HsBadServerHello
| HsKeyMismatch.

Section Handshake.
Context `{KeyAgreement} `{KemHash}.

(** The first part of [handle_connection]: the reply frame, the channel and
    what is left of the stream. *)
Definition server_handshake (server_secret e_secret m stream : bytes) : option (result HandshakeError (bytes * Channel * bytes)) :=
  let identity := identity_from_secret server_secret in
  match read_frame stream with
  | Err e => Some (Err (HsFrame e))
  | Ok (client_hello_bytes, rest) =>
      match client_hello_from_bytes client_hello_bytes with
      | None => Some (Err HsBadClientHello)
      | Some client_hello =>
          '(server_hello, secret) ← server_respond identity e_secret m client_hello;
          let reply := si_public identity ++ server_hello_to_bytes server_hello in
          Some (Ok (write_frame reply, channel_new secret false, rest))
      end
  end.

(** [client_handshake] once its hello is written: the channel, the server's
    key, whether it was authenticated, and what is left of the stream. *)
Definition client_handshake (state : ClientState) (pinned : option bytes) (stream : bytes)
  : option (result HandshakeError (Channel * bytes * bool * bytes)) :=
  match read_frame stream with
  | Err e => Some (Err (HsFrame e))
  | Ok (reply, rest) =>
      if negb (length reply =? 32 + SERVER_HELLO_LEN)%nat then Some (Err HsBadServerHello)
      else
        let server_public := take 32 reply in
        if match pinned with Some expected => bool_decide (expected ≠ server_public) | None => false end then Some (Err HsKeyMismatch)
        else
          match server_hello_from_bytes (drop 32 reply) with
          | None => Some (Err HsBadServerHello)
          | Some server_hello =>
              shared ← client_finish state server_hello server_public;
              Some (Ok (channel_new shared true, server_public, bool_decide (pinned ≠ None), rest))
          end
  end.

(** [RemoteStorage::connect] with the server behind the stream. *)
Definition connect (e_secret d z : bytes) (pinned : option bytes) (server_secret e_secret' m : bytes)
    (st : ServerState) (net : list NetOutcome) : option (result HandshakeError Connection) :=
  '(state, hello) ← client_start e_secret d z;
  served ← server_handshake server_secret e_secret' m (write_frame (client_hello_to_bytes hello));
  match served with
  | Err e => Some (Err e)
  | Ok (reply, server, pending) =>
      finished ← client_handshake state pinned reply;
      Some ('(channel, server_public, authenticated, rest) ← finished;
            Ok (mkConnection (mkRemote (mkTcp TcpUp rest) channel server_public authenticated)
                  (mkPeer (Serving server pending) st net)))
  end.
End Handshake.

(** ** Frames of the handshake *)

Lemma read_hello payload : (length payload ≤ 4096)%nat → read_frame (write_frame payload) = Ok (payload, []).
Proof.
  intros Hl. rewrite <- (app_nil_r (write_frame payload)), read_write_frame by (unfold small; lia).
  rewrite (proj2 (Z.ltb_ge _ _)) by (unfold MAX_FRAME; lia). reflexivity.
Qed.

(** The two ends of one shared secret. *)
Lemma channel_pair shared : one_way (channel_new shared true) (channel_new shared false) ∧
  one_way (channel_new shared false) (channel_new shared true).
Proof. split; (split; [reflexivity|]; split; [reflexivity|]); apply length_sha256. Qed.

Section Facts.
Context `{KL : KeyAgreementLaws} `{HL : KemHashLaws}.

Lemma served_hello server_secret e_secret m hello : length (ch_e_c hello) = 32%nat → length (ch_ek hello) = EK_LEN →
  server_handshake server_secret e_secret m (write_frame (client_hello_to_bytes hello)) =
  ('(reply, key) ← server_respond (identity_from_secret server_secret) e_secret m hello;
   Some (Ok (write_frame (ka_public server_secret ++ server_hello_to_bytes reply), channel_new key false, []))).
Proof.
  intros Hc Hk. unfold server_handshake. rewrite read_hello.
  - by rewrite client_hello_roundtrip.
  - unfold client_hello_to_bytes. rewrite length_app, Hc, Hk. unfold EK_LEN. cbn. lia.
Qed.

Lemma received_reply state pinned server_public reply : length server_public = 32%nat →
  length (sh_e_s reply) = 32%nat → length (sh_ct reply) = CT_LEN →
  client_handshake state pinned (write_frame (server_public ++ server_hello_to_bytes reply)) =
  if match pinned with Some expected => bool_decide (expected ≠ server_public) | None => false end then Some (Err HsKeyMismatch)
  else
    shared ← client_finish state reply server_public;
    Some (Ok (channel_new shared true, server_public, bool_decide (pinned ≠ None), [])).
Proof.
  intros Hp Hs Hc. assert (Hl : length (server_public ++ server_hello_to_bytes reply) = (32 + SERVER_HELLO_LEN)%nat).
  { unfold server_hello_to_bytes. rewrite !length_app, Hp, Hs, Hc. reflexivity. }
  unfold client_handshake. rewrite read_hello by (rewrite Hl; apply Nat.leb_le; reflexivity).
  rewrite Hl, Nat.eqb_refl. cbn [negb]. rewrite take_app_length', drop_app_length' by lia.
  by rewrite server_hello_roundtrip.
Qed.

Definition pin_differs (pinned : option bytes) (server_public : bytes) : bool :=
  match pinned with Some expected => bool_decide (expected ≠ server_public) | None => false end.

(** Both ends of an undisturbed handshake. *)
Lemma undisturbed e_secret d z pinned server_secret e_secret' m state hello reply key key' :
  client_start e_secret d z = Some (state, hello) →
  server_respond (identity_from_secret server_secret) e_secret' m hello = Some (reply, key) →
  client_finish state reply (ka_public server_secret) = Some key' →
  let frame := write_frame (ka_public server_secret ++ server_hello_to_bytes reply) in
  server_handshake server_secret e_secret' m (write_frame (client_hello_to_bytes hello)) =
    Some (Ok (frame, channel_new key false, [])) ∧
  client_handshake state pinned frame =
    Some (if pin_differs pinned (ka_public server_secret) then Err HsKeyMismatch
          else Ok (channel_new key' true, ka_public server_secret, bool_decide (pinned ≠ None), [])).
Proof.
  intros Hc Hs Hfin frame.
  destruct (client_start_lengths _ _ _ _ _ Hc) as (Hes & Hep & Hec & Hek & Hlek & _).
  destruct (server_respond_lengths _ _ _ _ _ _ Hs) as (Hrs & Hct & _).
  split.
  - rewrite served_hello by (rewrite ?Hec, ?Hep, ?Hek; first [apply ka_public_length | exact Hlek]).
    rewrite Hs. reflexivity.
  - unfold frame. rewrite received_reply by (rewrite ?Hrs; first [apply ka_public_length | exact Hct]).
    unfold pin_differs. destruct (match pinned with Some _ => _ | None => _ end); [reflexivity|]. rewrite Hfin. reflexivity.
Qed.

Lemma handshake_outcome e_secret d z pinned server_secret e_secret' m st net state hello reply key key' :
  client_start e_secret d z = Some (state, hello) →
  server_respond (identity_from_secret server_secret) e_secret' m hello = Some (reply, key) →
  client_finish state reply (ka_public server_secret) = Some key' →
  connect e_secret d z pinned server_secret e_secret' m st net =
  Some (if pin_differs pinned (ka_public server_secret) then Err HsKeyMismatch
        else Ok (mkConnection
          (mkRemote (mkTcp TcpUp []) (channel_new key' true) (ka_public server_secret) (bool_decide (pinned ≠ None)))
          (mkPeer (Serving (channel_new key false) []) st net))).
Proof.
  intros Hc Hs Hf. destruct (undisturbed _ _ _ pinned _ _ _ _ _ _ _ _ Hc Hs Hf) as [Hsv Hcl].
  unfold connect. rewrite Hc. cbn [mbind option_bind]. rewrite Hsv. cbn [mbind option_bind]. rewrite Hcl. cbn [mbind option_bind].
  destruct (pin_differs _ _); reflexivity.
Qed.

Lemma served_inv server_secret e_secret m stream frame sch rest :
  server_handshake server_secret e_secret m stream = Some (Ok (frame, sch, rest)) →
  ∃ hello reply key, stream = write_frame (client_hello_to_bytes hello) ++ rest ∧
    length (ch_e_c hello) = 32%nat ∧ length (ch_ek hello) = EK_LEN ∧
    server_respond (identity_from_secret server_secret) e_secret m hello = Some (reply, key) ∧
    frame = write_frame (ka_public server_secret ++ server_hello_to_bytes reply) ∧ sch = channel_new key false.
Proof.
  unfold server_handshake. destruct (read_frame stream) as [[b r]|e] eqn:Hr; [|discriminate].
  destruct (client_hello_from_bytes b) as [hello|] eqn:Hh; [|discriminate].
  destruct (server_respond _ _ _ hello) as [[reply key]|] eqn:Hs; [|discriminate]. cbn [mbind option_bind].
  intros Hx. apply (inj Some), ok_inj, pair_equal_spec in Hx as [Hx <-]. apply pair_equal_spec in Hx as [<- <-].
  apply read_frame_inv in Hr as [-> _]. apply client_hello_from_inv in Hh as (-> & Hl1 & Hl2).
  exists hello, reply, key. split_and!; first [assumption | reflexivity].
Qed.

Lemma finished_inv state pinned stream cch server_public authenticated rest :
  client_handshake state pinned stream = Some (Ok (cch, server_public, authenticated, rest)) →
  ∃ reply key, stream = write_frame (server_public ++ server_hello_to_bytes reply) ++ rest ∧
    length (sh_e_s reply) = 32%nat ∧ length (sh_ct reply) = CT_LEN ∧
    client_finish state reply server_public = Some key ∧ cch = channel_new key true.
Proof.
  unfold client_handshake. destruct (read_frame stream) as [[b r]|e] eqn:Hr; [|discriminate].
  destruct (Nat.eqb_spec (length b) (32 + SERVER_HELLO_LEN)) as [Hl|]; [|discriminate]. cbn [negb].
  destruct (match pinned with Some _ => _ | None => _ end); [discriminate|].
  destruct (server_hello_from_bytes (drop 32 b)) as [reply|] eqn:Hh; [|discriminate].
  destruct (client_finish state reply (take 32 b)) as [key|] eqn:Hf; [|discriminate]. cbn [mbind option_bind].
  intros Hx. apply (inj Some), ok_inj, pair_equal_spec in Hx as [Hx <-].
  apply pair_equal_spec in Hx as [Hx _]. apply pair_equal_spec in Hx as [<- <-].
  apply read_frame_inv in Hr as [-> _]. apply server_hello_from_inv in Hh as (Hb & Hl1 & Hl2).
  exists reply, key. rewrite <- Hb, take_drop. split_and!; first [assumption | reflexivity].
Qed.

(** What an attacker who made the two channels meet over different messages
    would have found: two inputs with one digest, the inputs being what the
    two sides hashed. *)
Definition collides (a b : bytes) : Prop :=
  a ≠ b ∧ sha3_256 a = sha3_256 b ∨
  sha3_256 a ≠ sha3_256 b ∧ derive (sha3_256 a) (bs "c2s") = derive (sha3_256 b) (bs "c2s").

Lemma meeting_channels e_secret d z state hello server_secret e_secret' m stream frame sch rest pinned stream' cch server_public authenticated rest' :
  client_start e_secret d z = Some (state, hello) →
  server_handshake server_secret e_secret' m stream = Some (Ok (frame, sch, rest)) →
  client_handshake state pinned stream' = Some (Ok (cch, server_public, authenticated, rest')) →
  send_key cch = recv_key sch →
  ∃ hello' reply reply' key a b,
    stream = write_frame (client_hello_to_bytes hello') ++ rest ∧
    stream' = write_frame (server_public ++ server_hello_to_bytes reply') ++ rest' ∧
    server_respond (identity_from_secret server_secret) e_secret' m hello' = Some (reply, key) ∧
    client_transcript state reply' server_public = Some a ∧
    server_transcript (identity_from_secret server_secret) e_secret' m hello' = Some b ∧
    (collides a b ∨ hello' = hello ∧ reply' = reply ∧
       ka_agree e_secret server_public = ka_agree server_secret (ka_public e_secret)).
Proof.
  intros Hc Hs Hf Hk. destruct (client_start_lengths _ _ _ _ _ Hc) as (Hes & Hep & Hec & Hek & Hlek & _).
  destruct (served_inv _ _ _ _ _ _ _ Hs) as (hello' & reply & key & -> & L1 & L2 & Hr & _ & ->).
  destruct (finished_inv _ _ _ _ _ _ _ Hf) as (reply' & key' & -> & L3 & L4 & Hr' & ->).
  destruct (client_key _ _ _ _ Hr') as (a & Ha & ->). destruct (server_key _ _ _ _ _ _ Hr) as (b & Hb & Ekey).
  exists hello', reply, reply', key, a, b. do 5 (split; [first [reflexivity | assumption]|]). clear Hs Hf.
  destruct (decide (a = b)) as [<-|Hab]; [right|left].
  - assert (Lp : length (cs_e_public state) = 32%nat) by (rewrite Hep; apply ka_public_length).
    destruct (equal_transcripts _ _ _ _ _ _ _ _ _ _ Lp Hlek L1 L2 L3 L4 Hr Hb Ha) as (Eh & Er & Ed).
    destruct hello as [ec ek]. cbn in Hec, Hek. subst hello' ec ek. split; [reflexivity|]. split; [exact Er|].
    rewrite Hes in Ed. cbn [ch_e_c si_secret identity_from_secret] in Ed. rewrite Hep in Ed. exact Ed.
  - change (derive (sha3_256 a) (bs "c2s") = derive key (bs "c2s")) in Hk. rewrite Ekey in Hk.
    destruct (decide (sha3_256 a = sha3_256 b)) as [E|E]; [by left | by right].
Qed.
End Facts.

(** ** Interfaces of the witnesses *)

Definition pad32 (b : bytes) : bytes := take 32 (b ++ replicate 32 Byte.x00).
Lemma length_pad32 b : length (pad32 b) = 32%nat.
Proof. unfold pad32. rewrite length_take, length_app, length_replicate. lia. Qed.
Definition toy_agreement : KeyAgreement :=
  {| ka_public := pad32; ka_agree := λ s u, zip_with byte.xor (pad32 s) (pad32 u) |}.
#[export] Instance toy_agreement_laws : @KeyAgreementLaws toy_agreement.
Proof.
  split; [exact length_pad32|]. intros s u. change (length (zip_with byte.xor (pad32 s) (pad32 u)) = 32%nat).
  by rewrite length_zip_with, !length_pad32.
Qed.
Definition toy_server : LocalBackend := mkLocal (storage_open []) [].

(** What a connection is after an undisturbed handshake: the stream is up and
    empty, the server waits for requests, and each side's keys come from its
    own transcript; the two transcripts differ in the agreements at most. *)
Record set_up `{KeyAgreement} `{KemHash} (e_secret server_secret e_secret' m : bytes) (state : ClientState) (hello : ClientHello)
    (reply : ServerHello) (st : ServerState) (cn : Connection) : Prop := {
  su_stream : rs_stream (cn_remote cn) = mkTcp TcpUp [];
  su_state : cn_state cn = st;
  su_public : rs_server_public (cn_remote cn) = ka_public server_secret;
  su_keys : ∃ a b, client_transcript state reply (ka_public server_secret) = Some a ∧
    server_transcript (identity_from_secret server_secret) e_secret' m hello = Some b ∧
    rs_channel (cn_remote cn) = channel_new (sha3_256 a) true ∧
    pr_end (cn_peer cn) = Serving (channel_new (sha3_256 b) false) [] ∧
    (a = b ↔ ka_agree e_secret (ka_public e_secret') = ka_agree e_secret' (ka_public e_secret) ∧
             ka_agree e_secret (ka_public server_secret) = ka_agree server_secret (ka_public e_secret));
}.

Lemma set_up_lockstep `{KeyAgreementLaws} `{KemHashLaws} e_secret server_secret e_secret' m state hello reply st cn :
  set_up e_secret server_secret e_secret' m state hello reply st cn →
  ka_agree e_secret (ka_public e_secret') = ka_agree e_secret' (ka_public e_secret) →
  ka_agree e_secret (ka_public server_secret) = ka_agree server_secret (ka_public e_secret) → lockstep cn.
Proof.
  intros [Hs _ _ (a & b & _ & _ & Hc & He & Hab)] H1' H2'. split; [exact Hs|]. exists (channel_new (sha3_256 b) false).
  split; [exact He|]. rewrite Hc, (proj2 Hab (conj H1' H2')). apply channel_pair.
Qed.

(** C14: An undisturbed handshake connects: for every server identity and all
    random bytes of both sides with which the decryption noise of ML-KEM is
    within its bound, connecting succeeds, or refuses exactly a pin that
    differs from the server's key. The client then knows the server's static
    key and reports it as authenticated exactly when a pin was given; the
    stream is up and empty and the server waits for requests; and the keys of
    the two sides are derived, each by its own side, from transcripts that
    agree in the ML-KEM secret and in every message: they are the same
    exactly when each X25519 agreement gives both sides the same bytes, and
    then the connection starts in lockstep. (That X25519 commutes on the curve
    is not proved here.) *)
Theorem handshake_connects `{KeyAgreementLaws} `{KemHashLaws}
    e_secret d z pinned server_secret e_secret' m st net state hello reply key n :
  client_start e_secret d z = Some (state, hello) →
  server_respond (identity_from_secret server_secret) e_secret' m hello = Some (reply, key) →
  length m = 32%nat → kem_noise d m = Some n → Forall (λ x, noise_ok x = true) n →
  match connect e_secret d z pinned server_secret e_secret' m st net with
  | Some (Ok cn) =>
      (pinned = None ∧ rs_authenticated (cn_remote cn) = false
       ∨ pinned = Some (ka_public server_secret) ∧ rs_authenticated (cn_remote cn) = true) ∧
      set_up e_secret server_secret e_secret' m state hello reply st cn ∧
      (ka_agree e_secret (ka_public e_secret') = ka_agree e_secret' (ka_public e_secret) →
       ka_agree e_secret (ka_public server_secret) = ka_agree server_secret (ka_public e_secret) → lockstep cn)
  | Some (Err e) => e = HsKeyMismatch ∧ ∃ expected, pinned = Some expected ∧ expected ≠ ka_public server_secret
  | None => False
  end.
Proof.
  intros Hc Hs Hm Hn Hok.
  destruct (exchange_transcripts _ _ _ _ _ _ _ _ _ _ _ Hc Hs Hm Hn Hok) as (a & b & Ha & Hb & Hf & -> & Hab).
  rewrite (handshake_outcome e_secret d z pinned server_secret e_secret' m st net _ _ _ _ _ Hc Hs Hf).
  set (cn := mkConnection _ _).
  assert (Hset : set_up e_secret server_secret e_secret' m state hello reply st cn).
  { split; [reflexivity..|]. exists a, b. do 4 (split; [first [assumption | reflexivity]|]). exact Hab. }
  pose proof (set_up_lockstep _ _ _ _ _ _ _ _ _ Hset) as Hl. unfold pin_differs. destruct pinned as [expected|].
  - destruct (decide (expected = ka_public server_secret)) as [->|Hne].
    + rewrite bool_decide_false by (intros Hx; exact (Hx eq_refl)).
      split; [right; split; reflexivity|]. split; [exact Hset|exact Hl].
    + rewrite bool_decide_true by exact Hne. split; [reflexivity|]. exists expected. split; [reflexivity | exact Hne].
  - split; [left; split; reflexivity|]. split; [exact Hset|exact Hl].
Qed.

Definition toy_client_secret : bytes := [Byte.x11; Byte.x22].
Definition toy_server_secret : bytes := [Byte.x33].
Definition toy_reply_secret : bytes := [Byte.x44].

Lemma toy_encapsulation : ∃ kp ct ss, @keygen_internal toy_hash toy_seed toy_seed = Some kp ∧
  @encaps_internal toy_hash (kp_ek kp) toy_seed = Some (ct, ss).
Proof. do 3 eexists. split; reflexivity. Qed.

Lemma respond_encaps `{KeyAgreement} `{KemHash} identity e_secret m hello ct ss : encaps_internal (ch_ek hello) m = Some (ct, ss) →
  ∃ reply key, server_respond identity e_secret m hello = Some (reply, key).
Proof. intros He. unfold server_respond. rewrite He. do 2 eexists. reflexivity. Qed.

(** The agreements are X25519; the hashes of ML-KEM are simple ones. *)
#[local] Abbreviation x25519_public := (@ka_public x25519_agreement).
#[local] Abbreviation x25519_agree := (@ka_agree x25519_agreement).

Lemma handshake_connects_witness : ∃ (state : ClientState) (hello : ClientHello) (reply : ServerHello) (key : bytes),
  @client_start x25519_agreement toy_hash toy_client_secret toy_seed toy_seed = Some (state, hello) ∧
  @server_respond x25519_agreement toy_hash (@identity_from_secret x25519_agreement toy_server_secret) toy_reply_secret toy_seed hello
    = Some (reply, key) ∧
  match @connect x25519_agreement toy_hash toy_client_secret toy_seed toy_seed (Some (x25519_public toy_server_secret))
          toy_server_secret toy_reply_secret toy_seed (server_new toy_server false) [] return Prop with
  | Some (Ok cn) =>
      (Some (x25519_public toy_server_secret) = None ∧ rs_authenticated (cn_remote cn) = false
       ∨ Some (x25519_public toy_server_secret) = Some (x25519_public toy_server_secret) ∧ rs_authenticated (cn_remote cn) = true) ∧
      @set_up x25519_agreement toy_hash toy_client_secret toy_server_secret toy_reply_secret toy_seed state hello reply (server_new toy_server false) cn ∧
      (x25519_agree toy_client_secret (x25519_public toy_reply_secret) = x25519_agree toy_reply_secret (x25519_public toy_client_secret) →
       x25519_agree toy_client_secret (x25519_public toy_server_secret) = x25519_agree toy_server_secret (x25519_public toy_client_secret) → lockstep cn)
  | Some (Err e) => e = HsKeyMismatch ∧ ∃ expected, Some (x25519_public toy_server_secret) = Some expected ∧ expected ≠ x25519_public toy_server_secret
  | None => False
  end.
Proof.
  pose proof toy_noise_ok as Hn. destruct (@kem_noise toy_hash toy_seed toy_seed) as [n|] eqn:E; [|discriminate Hn].
  destruct toy_encapsulation as (kp & ct & ss & Hk & He).
  assert (Hc : @client_start x25519_agreement toy_hash toy_client_secret toy_seed toy_seed =
    Some (mkClientState toy_client_secret (x25519_public toy_client_secret) (kp_ek kp) (kp_dk kp), mkClientHello (x25519_public toy_client_secret) (kp_ek kp))).
  { unfold client_start. rewrite Hk. reflexivity. }
  destruct (@respond_encaps x25519_agreement toy_hash (@identity_from_secret x25519_agreement toy_server_secret) toy_reply_secret toy_seed
    (mkClientHello (x25519_public toy_client_secret) (kp_ek kp)) ct ss He) as (reply & key & Hs).
  eexists _, _, reply, key. split; [exact Hc|]. split; [exact Hs|].
  assert (Hok : Forall (λ x, noise_ok x = true) n) by (apply List.Forall_forall, forallb_forall; exact Hn).
  exact (handshake_connects (H1 := x25519_agreement_laws) (H3 := toy_hash_laws) toy_client_secret toy_seed toy_seed
    (Some (x25519_public toy_server_secret)) toy_server_secret toy_reply_secret toy_seed (server_new toy_server false) []
    _ _ reply key n Hc Hs eq_refl E Hok).
Defined.

(** C13: Nobody between the two can make the channels meet over messages of
    their own: whatever bytes reach the server and the client, when both
    handshakes end and the client's sending key is the server's receiving
    key, the server read exactly the client's hello, the client read exactly
    the server's reply, and the static key that the client took gives the
    agreement only the holder of the server's secret computes with the
    client's ephemeral key; or the two transcripts, named here, are a
    collision of SHA3-256, or their digests one of SHA-256. *)
Theorem handshake_binds_transcript `{KeyAgreementLaws} `{KemHashLaws}
    e_secret d z state hello server_secret e_secret' m stream frame sch rest pinned stream' cch server_public authenticated rest' :
  client_start e_secret d z = Some (state, hello) →
  server_handshake server_secret e_secret' m stream = Some (Ok (frame, sch, rest)) →
  client_handshake state pinned stream' = Some (Ok (cch, server_public, authenticated, rest')) →
  send_key cch = recv_key sch →
  ∃ hello' reply reply' key a b,
    stream = write_frame (client_hello_to_bytes hello') ++ rest ∧
    stream' = write_frame (server_public ++ server_hello_to_bytes reply') ++ rest' ∧
    server_respond (identity_from_secret server_secret) e_secret' m hello' = Some (reply, key) ∧
    client_transcript state reply' server_public = Some a ∧
    server_transcript (identity_from_secret server_secret) e_secret' m hello' = Some b ∧
    (collides a b ∨ hello' = hello ∧ reply' = reply ∧
       ka_agree e_secret server_public = ka_agree server_secret (ka_public e_secret)).
Proof. apply meeting_channels. Qed.

Lemma handshake_binds_transcript_witness :
  ∃ state hello stream frame sch cch server_public authenticated,
    @client_start toy_agreement toy_hash toy_client_secret toy_seed toy_seed = Some (state, hello) ∧
    @server_handshake toy_agreement toy_hash toy_server_secret toy_reply_secret toy_seed stream = Some (Ok (frame, sch, [])) ∧
    @client_handshake toy_agreement toy_hash state None frame = Some (Ok (cch, server_public, authenticated, [])) ∧
    ∃ hello' reply reply' key a b,
      stream = write_frame (client_hello_to_bytes hello') ++ [] ∧
      frame = write_frame (server_public ++ server_hello_to_bytes reply') ++ [] ∧
      @server_respond toy_agreement toy_hash (@identity_from_secret toy_agreement toy_server_secret) toy_reply_secret toy_seed hello' = Some (reply, key) ∧
      @client_transcript toy_agreement toy_hash state reply' server_public = Some a ∧
      @server_transcript toy_agreement toy_hash (@identity_from_secret toy_agreement toy_server_secret) toy_reply_secret toy_seed hello' = Some b ∧
      (collides a b ∨ hello' = hello ∧ reply' = reply ∧
         @ka_agree toy_agreement toy_client_secret server_public =
         @ka_agree toy_agreement toy_server_secret (@ka_public toy_agreement toy_client_secret)).
Proof.
  pose proof toy_noise_ok as Hn. destruct (@kem_noise toy_hash toy_seed toy_seed) as [n|] eqn:E; [|discriminate Hn].
  destruct (@client_start toy_agreement toy_hash toy_client_secret toy_seed toy_seed) as [[state hello]|] eqn:Ec; [|discriminate Ec].
  destruct (@server_respond toy_agreement toy_hash (@identity_from_secret toy_agreement toy_server_secret) toy_reply_secret toy_seed hello)
    as [[reply key]|] eqn:Es; [|discriminate Es].
  assert (Hok : Forall (λ x, noise_ok x = true) n) by (apply List.Forall_forall, forallb_forall; exact Hn).
  destruct (exchange_transcripts (KL := toy_agreement_laws) (HL := toy_hash_laws) _ _ _ _ _ _ _ _ _ _ n Ec Es eq_refl E Hok)
    as (ta & tb & _ & _ & Hfin & Ekey & Hab). rewrite (proj2 Hab (conj eq_refl eq_refl)) in Hfin. rewrite <- Ekey in Hfin.
  destruct (undisturbed (KL := toy_agreement_laws) (HL := toy_hash_laws) _ _ _ None _ _ _ _ _ _ _ _ Ec Es Hfin) as [Hsv Hcl].
  cbv iota in Hcl. do 8 eexists. split; [reflexivity|]. split; [exact Hsv|]. split; [exact Hcl|].
  exact (handshake_binds_transcript (H1 := toy_agreement_laws) (H3 := toy_hash_laws) _ _ _ _ _ _ _ _ _ _ _ _ None _ _ _ _ _ Ec Hsv Hcl eq_refl).
Defined.
