(* ===== verification/EngineState.v ===== *)
(** * The engine's state, its monad and its key space

    ciphra-engine/src/lib.rs, [Engine] and its helpers.  A method that takes
    [&self] and only reads is a function of the state; one that draws
    randomness, reads the clock, records telemetry or writes is a computation
    in [M], whose state survives an error as Rust's [&mut self] does.  [World]
    holds what the process draws from outside: the bytes of the random source
    and the readings of the clock, by the number of the draw. *)

From S2P Require Import Prelude BTree Storage Sha256 Hmac Aead Float SqlAst Values Codec Store Sort Exprs AuditChain.

(** ** Outside the process *)

Record World : Type := mkWorld {
  w_random : nat → bytes;
  w_draws : nat;
  w_clock : nat → Z;
  w_ticks : nat;
}.

(** ** State *)

(** Index-advisor telemetry: per (table, column). *)
Record ColStat : Type := mkColStat { cs_eq : Z; cs_range : Z; cs_scan_rows : Z }.
Record Advisor : Type := mkAdvisor { ad_queries : Z; ad_stats : gmap (bytes * bytes) ColStat }.
Definition advisor_default : Advisor := mkAdvisor 0 ∅.

(** [e_local] is [dir.is_some()]: a database file on this host. *)
Record Engine (B : Type) : Type := mkEngine {
  e_store : Store B;
  e_master : MasterKey;
  e_local : bool;
  e_audit_head : AuditHead;
  e_txn_audit_head : option AuditHead;
  e_advisor : Advisor;
  e_world : World;
}.
Arguments mkEngine {B}.
Arguments e_store {B}.
Arguments e_master {B}.
Arguments e_local {B}.
Arguments e_audit_head {B}.
Arguments e_txn_audit_head {B}.
Arguments e_advisor {B}.
Arguments e_world {B}.

Definition with_store {B} (e : Engine B) (s : Store B) : Engine B :=
  mkEngine s (e_master e) (e_local e) (e_audit_head e) (e_txn_audit_head e) (e_advisor e) (e_world e).
Definition with_audit_head {B} (e : Engine B) (h : AuditHead) : Engine B :=
  mkEngine (e_store e) (e_master e) (e_local e) h (e_txn_audit_head e) (e_advisor e) (e_world e).
Definition with_txn_audit_head {B} (e : Engine B) (h : option AuditHead) : Engine B :=
  mkEngine (e_store e) (e_master e) (e_local e) (e_audit_head e) h (e_advisor e) (e_world e).
Definition with_advisor {B} (e : Engine B) (a : Advisor) : Engine B :=
  mkEngine (e_store e) (e_master e) (e_local e) (e_audit_head e) (e_txn_audit_head e) a (e_world e).
Definition with_world {B} (e : Engine B) (w : World) : Engine B :=
  mkEngine (e_store e) (e_master e) (e_local e) (e_audit_head e) (e_txn_audit_head e) (e_advisor e) w.

(** ** The monad *)

Definition M (B A : Type) : Type := Engine B → result EngineError A * Engine B.

#[export] Instance m_ret {B} : MRet (M B) := λ A a e, (Ok a, e).
#[export] Instance m_bind {B} : MBind (M B) := λ A C f m e,
  match m e with
  | (Ok a, e') => f a e'
  | (Err err, e') => (Err err, e')
  end.

Definition fail {B A} (err : EngineError) : M B A := λ e, (Err err, e).
Definition lift {B A} (r : result EngineError A) : M B A := λ e, (r, e).
(** A [&self] call. *)
Definition reads {B A} (f : Engine B → result EngineError A) : M B A := λ e, (f e, e).
Definition gets {B A} (f : Engine B → A) : M B A := λ e, (Ok (f e), e).
Definition modify {B} (f : Engine B → Engine B) : M B unit := λ e, (Ok tt, f e).

(** [for x in l { ... }] threading a value and the state. *)
Fixpoint foldM {B A C} (f : C → A → M B C) (acc : C) (l : list A) : M B C :=
  match l with
  | [] => mret acc
  | x :: l' => acc' ← f acc x; foldM f acc' l'
  end.

(** [n] bytes of the random source, whatever it returns. *)
Definition random_bytes {B} (n : nat) : M B bytes := λ e,
  let w := e_world e in
  (Ok (resize n Byte.x00 (w_random w (w_draws w))),
   with_world e (mkWorld (w_random w) (S (w_draws w)) (w_clock w) (w_ticks w))).

(** [SystemTime::now()] in seconds since the epoch, a [u64]. *)
Definition now_secs {B} : M B Z := λ e,
  let w := e_world e in
  (Ok (wrap 64 (w_clock w (w_ticks w))),
   with_world e (mkWorld (w_random w) (w_draws w) (w_clock w) (S (w_ticks w)))).

(** [CipherKey::seal]. *)
Definition seal {B} (key : CipherKey) (plaintext aad : bytes) : M B bytes :=
  nonce ← random_bytes NONCE_LEN; mret (cipher_seal key nonce plaintext aad).

(** [key.open(..)?] *)
Definition open_sealed (key : CipherKey) (sealed aad : bytes) : result EngineError bytes :=
  map_err ECrypto (cipher_open key sealed aad).

(** ** Storage keys *)

Definition nul : bytes := [Byte.x00].
Definition KEYPARAMS_KEY : bytes := nul ++ bs "keyparams".
Definition RANGE_PREFIX : bytes := bs "z" ++ nul.
Definition AUDIT_PREFIX : bytes := bs "a" ++ nul.
Definition AUDIT_HEAD_KEY : bytes := nul ++ bs "audit".
Definition CANARY_KEY : bytes := nul ++ bs "canary".
Definition CANARY_PLAINTEXT : bytes := bs "ciphra-canary-v1".
Definition CATALOG_PREFIX : bytes := nul ++ bs "catalog" ++ nul.
Definition SEQ_PREFIX : bytes := nul ++ bs "seq" ++ nul.
Definition ROW_PREFIX : bytes := bs "r" ++ nul.
Definition INDEX_PREFIX : bytes := bs "x" ++ nul.
Definition TABLE_TAG_LEN : nat := 16.

Definition table_key (m : MasterKey) (table : bytes) : CipherKey :=
  derive_key m (bs "table:" ++ table).
Definition table_tag (m : MasterKey) (table : bytes) : bytes :=
  take TABLE_TAG_LEN (keyed_tag m (bs "table-name") table).
Definition catalog_key (m : MasterKey) (table : bytes) : bytes := CATALOG_PREFIX ++ table_tag m table.
Definition seq_key (m : MasterKey) (table : bytes) : bytes := SEQ_PREFIX ++ table_tag m table.
Definition row_prefix (m : MasterKey) (table : bytes) : bytes := ROW_PREFIX ++ table_tag m table.
Definition index_prefix (m : MasterKey) (table : bytes) : bytes := INDEX_PREFIX ++ table_tag m table.

(** [(col as u16).to_be_bytes()] *)
Definition col_bytes (col : nat) : bytes := be_bytes 2 (wrap 16 (Z.of_nat col)).

Definition index_column_prefix (m : MasterKey) (table : bytes) (col : nat) : bytes :=
  index_prefix m table ++ col_bytes col.
Definition index_value_tag (m : MasterKey) (table : bytes) (col : nat) (value : Value) : bytes :=
  take TABLE_TAG_LEN
    (keyed_tag m (bs "index:" ++ table ++ bs ":" ++ show_Z (Z.of_nat col)) (encode_row [value])).
Definition index_value_prefix (m : MasterKey) (table : bytes) (col : nat) (value : Value) : bytes :=
  index_column_prefix m table col ++ index_value_tag m table col value.
Definition index_entry_key (m : MasterKey) (table : bytes) (col : nat) (value : Value) (rowid : Z) : bytes :=
  index_value_prefix m table col value ++ be_bytes 8 rowid.
Definition range_prefix (m : MasterKey) (table : bytes) : bytes := RANGE_PREFIX ++ table_tag m table.
Definition range_index_key (m : MasterKey) (table : bytes) (col : nat) : bytes :=
  range_prefix m table ++ col_bytes col.
Definition row_key (m : MasterKey) (table : bytes) (id : Z) : bytes := row_prefix m table ++ be_bytes 8 id.
Definition audit_entry_key (seq : Z) : bytes := AUDIT_PREFIX ++ be_bytes 8 seq.

(** ** Reading *)

Section reading.
Context {B : Type} `{Backend B}.
Implicit Type e : Engine B.

Definition catalog_cipher (m : MasterKey) : CipherKey := derive_key m (bs "catalog").
Definition audit_cipher (m : MasterKey) : CipherKey := derive_key m (bs "audit").

(** [tables] *)
Definition engine_tables (e : Engine B) : result EngineError (list bytes) :=
  l ← store_scan_prefix (e_store e) CATALOG_PREFIX;
  names ← mapR (λ '(key, sealed),
    plain ← open_sealed (catalog_cipher (e_master e)) sealed key;
    schema ← decode_schema plain;
    Ok (ts_name schema)) l;
  Ok (stable_sort bytes_cmp names).

(** [schema] *)
Definition table_schema (e : Engine B) (table : bytes) : result EngineError (option TableSchema) :=
  let key := catalog_key (e_master e) table in
  found ← store_get (e_store e) key;
  match found with
  | None => Ok None
  | Some sealed =>
      plain ← open_sealed (catalog_cipher (e_master e)) sealed key;
      schema ← decode_schema plain;
      Ok (Some schema)
  end.

Definition expect_schema (e : Engine B) (table : bytes) : result EngineError TableSchema :=
  found ← table_schema e table;
  ok_or (ESchema "no such table: {table:?}" [table]) found.

(** Decrypting and decoding one stored row. *)
Definition open_row (key : CipherKey) (storage_key sealed : bytes) : result EngineError (list Value) :=
  plain ← open_sealed key sealed storage_key; decode_row plain.

(** [for (key, sealed) in self.store.scan_prefix(&self.row_prefix(table))?] *)
Definition scan_rows (e : Engine B) (table : bytes) : result EngineError (list (bytes * list Value)) :=
  l ← store_scan_prefix (e_store e) (row_prefix (e_master e) table);
  mapR (λ '(key, sealed),
    row ← open_row (table_key (e_master e) table) key sealed; Ok (key, row)) l.

Definition index_rowids (e : Engine B) (table : bytes) (col : nat) (value : Value)
  : result EngineError (list Z) :=
  l ← store_scan_prefix (e_store e) (index_value_prefix (e_master e) table col value);
  mapR (λ '(key, sealed),
    _ ← open_sealed (table_key (e_master e) table) sealed key; Ok (rowid_from_key key)) l.

Definition load_range_index (e : Engine B) (table : bytes) (col : nat)
  : result EngineError (list (Value * Z)) :=
  let key := range_index_key (e_master e) table col in
  found ← store_get (e_store e) key;
  match found with
  | None => Ok []
  | Some sealed =>
      plain ← open_sealed (table_key (e_master e) table) sealed key; decode_range_blob plain
  end.

Definition load_seq (e : Engine B) (table : bytes) : result EngineError Z :=
  let key := seq_key (e_master e) table in
  found ← store_get (e_store e) key;
  match found with
  | None => Ok 0
  | Some sealed =>
      plain ← open_sealed (table_key (e_master e) table) sealed key;
      if (length plain =? 8)%nat then Ok (from_le plain)
      else Err (ECorrupt "bad sequence for {table:?}" [table])
  end.

(** ** Sealing into a batch *)

Definition add_schema (batch : Batch) (schema : TableSchema) : M B Batch :=
  m ← gets e_master;
  let key := catalog_key m (ts_name schema) in
  sealed ← seal (catalog_cipher m) (encode_schema schema) key;
  mret (batch_put batch key sealed).

Definition add_seq (batch : Batch) (table : bytes) (next : Z) : M B Batch :=
  m ← gets e_master;
  let key := seq_key m table in
  sealed ← seal (table_key m table) (le_bytes 8 next) key;
  mret (batch_put batch key sealed).

Definition add_row (batch : Batch) (table : bytes) (key : bytes) (row : list Value) : M B Batch :=
  m ← gets e_master;
  sealed ← seal (table_key m table) (encode_row row) key;
  mret (batch_put batch key sealed).

Definition add_range_blob (batch : Batch) (table : bytes) (col : nat) (entries : list (Value * Z)) : M B Batch :=
  m ← gets e_master;
  let key := range_index_key m table col in
  sealed ← seal (table_key m table) (encode_range_blob entries) key;
  mret (batch_put batch key sealed).

Definition add_index_entry (batch : Batch) (table : bytes) (col : nat) (value : Value) (rowid : Z) : M B Batch :=
  m ← gets e_master;
  let key := index_entry_key m table col value rowid in
  sealed ← seal (table_key m table) [] key;
  mret (batch_put batch key sealed).

Definition remove_index_entry (batch : Batch) (table : bytes) (col : nat) (value : Value) (rowid : Z) : M B Batch :=
  m ← gets e_master;
  mret (batch_delete batch (index_entry_key m table col value rowid)).

(** ** Committing with an audit entry *)

Definition commit_with_audit (kind : byte) (tag writes_digest : bytes) (batch : Batch) : M B unit :=
  '(seq, prev_root) ← gets e_audit_head;
  time ← now_secs;
  let entry := mkAuditEntry seq time kind tag writes_digest prev_root in
  let root := audit_entry_root entry in
  m ← gets e_master;
  let entry_key := audit_entry_key seq in
  sealed ← seal (audit_cipher m) (audit_encode entry) entry_key;
  let batch := batch_put batch entry_key sealed in
  let head := le_bytes 8 (wadd 64 seq 1) ++ root in
  sealed_head ← seal (audit_cipher m) head AUDIT_HEAD_KEY;
  let batch := batch_put batch AUDIT_HEAD_KEY sealed_head in
  _ ← (λ e, let '(r, s) := store_commit (e_store e) batch in (r, with_store e s));
  modify (λ e, with_audit_head e (wadd 64 seq 1, root)).

Definition commit_audited (kind : byte) (tag : bytes) (batch : Batch) : M B unit :=
  if batch_is_empty batch then mret tt
  else commit_with_audit kind tag (digest_batch batch) batch.
End reading.
