(* ===== verification/Ddl.v ===== *)
(** * Data definition: CREATE and DROP of tables and indexes

    ciphra-engine/src/lib.rs, [create_table] to [drop_table].  Each handler
    reads, builds one batch, and commits it with its audit entry. *)

From S2P Require Import Prelude BTree Storage Aead Float SqlAst Values Codec Store Sort Exprs AuditChain EngineState.

(** [enum QueryResult] *)
Inductive QueryResult : Type :=
| QCreated (name : bytes)
| QDropped (name : bytes)
| QIndexCreated (table column : bytes) (range : bool)
| QIndexDropped (table column : bytes) (range : bool)
| QInserted (count : nat)
| QUpdated (count : nat)
| QDeleted (count : nat)
| QRows (columns : list bytes) (rows : list (list Value))
| QBegin
| QCommitted
| QRolledBack.

#[export] Instance ColumnDef_inhabited : Inhabited ColumnDef :=
  populate (mkColumnDef [] TyInt false false false false).

Definition is_null (v : Value) : bool := value_eqb v VNull.

Definition is_vector (ty : DataType) : bool := match ty with TyVector _ => true | _ => false end.

(** The first column whose name was seen before it. *)
Fixpoint first_duplicate (seen : gset bytes) (columns : list ColumnDef) : option ColumnDef :=
  match columns with
  | [] => None
  | c :: rest =>
      if decide (cd_name c ∈ seen) then Some c else first_duplicate ({[ cd_name c ]} ∪ seen) rest
  end.

Definition set_indexed (b : bool) (c : ColumnDef) : ColumnDef :=
  mkColumnDef (cd_name c) (cd_ty c) (cd_encrypted c) (cd_primary_key c) b (cd_range_indexed c).
Definition set_range_indexed (b : bool) (c : ColumnDef) : ColumnDef :=
  mkColumnDef (cd_name c) (cd_ty c) (cd_encrypted c) (cd_primary_key c) (cd_indexed c) b.

(** [schema.columns[col].indexed = ..] *)
Definition update_column (f : ColumnDef → ColumnDef) (col : nat) (schema : TableSchema) : TableSchema :=
  mkTableSchema (ts_name schema) (alter f col (ts_columns schema)).

Section ddl.
Context {B : Type} `{Backend B}.

(** The checks of [create_table] on the declared columns. *)
Definition check_columns (name : bytes) (columns : list ColumnDef) : result EngineError unit :=
  match first_duplicate ∅ columns with
  | Some col => Err (ESchema "duplicate column {:?} in table {name:?}" [cd_name col; name])
  | None =>
      if (1 <? length (filter (λ c, cd_primary_key c = true) columns))%nat then
        Err (ESchema "table {name:?} declares more than one PRIMARY KEY column" [name])
      else
        match List.find (λ c, cd_primary_key c && is_vector (cd_ty c)) columns with
        | Some col => Err (ESchema "vector column {:?} cannot be a PRIMARY KEY" [cd_name col])
        | None => Ok tt
        end
  end.

Definition create_table (name : bytes) (columns : list ColumnDef) : M B QueryResult :=
  found ← reads (λ e, table_schema e name);
  match found with
  | Some _ => fail (ESchema "table {name:?} already exists" [name])
  | None =>
      _ ← lift (check_columns name columns);
      let schema := mkTableSchema name columns in
      batch ← add_schema batch_new schema;
      m ← gets e_master;
      _ ← commit_audited audit_kind.CREATE_TABLE (table_tag m name) batch;
      mret (QCreated name)
  end.

(** [schema.column_index(column).ok_or_else(..)?] of the statement handlers. *)
Definition expect_column (schema : TableSchema) (table column : bytes) : result EngineError nat :=
  ok_or (ESchema "unknown column {column:?} in table {table:?}" [column; table])
    (column_index schema column).

Definition scan_store (prefix : bytes) : M B (list (bytes * bytes)) :=
  reads (λ e, store_scan_prefix (e_store e) prefix).

Definition create_index (table column : bytes) : M B QueryResult :=
  schema ← reads (λ e, expect_schema e table);
  col ← lift (expect_column schema table column);
  let c := ts_columns schema !!! col in
  if cd_primary_key c then
    fail (ESchema "column {column:?} is already indexed by PRIMARY KEY" [column])
  else if cd_indexed c then
    fail (ESchema "column {column:?} of table {table:?} is already indexed" [column; table])
  else if is_vector (cd_ty c) then
    fail (ESchema "vector column {column:?} cannot carry an equality index" [column])
  else
    m ← gets e_master;
    l ← scan_store (row_prefix m table);
    batch ← foldM (λ batch '(key, sealed),
      row ← lift (open_row (table_key m table) key sealed);
      if is_null (row !!! col) then mret batch
      else add_index_entry batch table col (row !!! col) (rowid_from_key key)) batch_new l;
    batch ← add_schema batch (update_column (set_indexed true) col schema);
    _ ← commit_audited audit_kind.CREATE_INDEX (table_tag m table) batch;
    mret (QIndexCreated table column false).

Definition drop_index (table column : bytes) : M B QueryResult :=
  schema ← reads (λ e, expect_schema e table);
  col ← lift (expect_column schema table column);
  if negb (cd_indexed (ts_columns schema !!! col)) then
    fail (ESchema "column {column:?} of table {table:?} is not indexed (a PRIMARY KEY index cannot be dropped)"
            [column; table])
  else
    m ← gets e_master;
    l ← scan_store (index_column_prefix m table col);
    let batch := fold_left (λ batch kv, batch_delete batch kv.1) l batch_new in
    batch ← add_schema batch (update_column (set_indexed false) col schema);
    _ ← commit_audited audit_kind.DROP_INDEX (table_tag m table) batch;
    mret (QIndexDropped table column false).

Definition create_range_index (table column : bytes) : M B QueryResult :=
  schema ← reads (λ e, expect_schema e table);
  col ← lift (expect_column schema table column);
  let c := ts_columns schema !!! col in
  if cd_range_indexed c then
    fail (ESchema "column {column:?} of table {table:?} already has a range index" [column; table])
  else if is_vector (cd_ty c) then
    fail (ESchema "vector column {column:?} has no order; a range index cannot serve it" [column])
  else
    m ← gets e_master;
    rows ← reads (λ e, scan_rows e table);
    let entries := map (λ '(key, row), (row !!! col, rowid_from_key key))
                     (filter (λ kr, is_null (kr.2 !!! col) = false) rows) in
    batch ← add_range_blob batch_new table col (sort_range_entries entries);
    batch ← add_schema batch (update_column (set_range_indexed true) col schema);
    _ ← commit_audited audit_kind.CREATE_INDEX (table_tag m table) batch;
    mret (QIndexCreated table column true).

Definition drop_range_index (table column : bytes) : M B QueryResult :=
  schema ← reads (λ e, expect_schema e table);
  col ← lift (expect_column schema table column);
  if negb (cd_range_indexed (ts_columns schema !!! col)) then
    fail (ESchema "column {column:?} of table {table:?} has no range index" [column; table])
  else
    m ← gets e_master;
    let batch := batch_delete batch_new (range_index_key m table col) in
    batch ← add_schema batch (update_column (set_range_indexed false) col schema);
    _ ← commit_audited audit_kind.DROP_INDEX (table_tag m table) batch;
    mret (QIndexDropped table column true).

Definition drop_table (name : bytes) : M B QueryResult :=
  _ ← reads (λ e, expect_schema e name);
  m ← gets e_master;
  batch ← foldM (λ batch prefix,
    l ← scan_store prefix;
    mret (fold_left (λ batch kv, batch_delete batch kv.1) l batch)) batch_new
    [row_prefix m name; index_prefix m name; range_prefix m name];
  let batch := batch_delete batch (seq_key m name) in
  let batch := batch_delete batch (catalog_key m name) in
  _ ← commit_audited audit_kind.DROP_TABLE (table_tag m name) batch;
  mret (QDropped name).
End ddl.
