(* ===== verification/Query.v ===== *)
(** * Reading rows: access paths, SELECT, EXPLAIN and the advisor

    ciphra-engine/src/lib.rs, [record_query] to [candidate_rows], [select],
    [explain] and [advise]. *)

From S2P Require Import Prelude BTree Storage Aead Float SqlAst Values Codec Store Sort Exprs Aggregate AuditChain EngineState Ddl.

(** ** The index advisor *)

Definition bump_stat (stats : gmap (bytes * bytes) ColStat) (table col : bytes)
    (f : ColStat → ColStat) : gmap (bytes * bytes) ColStat :=
  <[(table, col) := f (default (mkColStat 0 0 0) (stats !! (table, col)))]> stats.

Definition record_stats (a : Advisor) (table : bytes) (eq range : gset bytes) (scanned : Z) : Advisor :=
  let stats := fold_left (λ stats col, bump_stat stats table col (λ s,
      mkColStat (wadd 64 (cs_eq s) 1) (cs_range s) (wadd 64 (cs_scan_rows s) scanned)))
    (elements eq) (ad_stats a) in
  let stats := fold_left (λ stats col, bump_stat stats table col (λ s,
      mkColStat (cs_eq s) (wadd 64 (cs_range s) 1) (wadd 64 (cs_scan_rows s) scanned)))
    (elements range) stats in
  mkAdvisor (wadd 64 (ad_queries a) 1) stats.

Record IndexAdvice : Type := mkIndexAdvice {
  ia_table : bytes;
  ia_column : bytes;
  ia_range : bool;
  ia_predicates : Z;
  ia_scan_rows : Z;
  ia_statement : bytes;
}.

(** [BTreeMap<(String, String), ColStat>] in key order. *)
Definition pair_cmp (a b : bytes * bytes) : comparison :=
  cmp_then (bytes_cmp a.1 b.1) (bytes_cmp a.2 b.2).
Definition stats_iter (stats : gmap (bytes * bytes) ColStat) : list (bytes * bytes * ColStat) :=
  stable_sort (λ a b, pair_cmp a.1 b.1) (map_to_list stats).

(** What one column's statistics suggest. *)
Definition column_advice (table column : bytes) (col : ColumnDef) (stat : ColStat) : list IndexAdvice :=
  (if (0 <? cs_eq stat) && negb (cd_indexed col) && negb (cd_primary_key col) then
     [mkIndexAdvice table column false (cs_eq stat) (cs_scan_rows stat)
        (bs "CREATE INDEX ON " ++ table ++ bs " (" ++ column ++ bs ")")]
   else [])
  ++
  (if (0 <? cs_range stat) && negb (cd_range_indexed col) then
     [mkIndexAdvice table column true (cs_range stat) (cs_scan_rows stat)
        (bs "CREATE RANGE INDEX ON " ++ table ++ bs " (" ++ column ++ bs ")")]
   else []).

Definition advice_cmp (a b : IndexAdvice) : comparison :=
  cmp_then (ia_scan_rows b ?= ia_scan_rows a)
    (cmp_then (ia_predicates b ?= ia_predicates a)
      (cmp_then (bytes_cmp (ia_table a) (ia_table b)) (bytes_cmp (ia_column a) (ia_column b)))).

(** ** EXPLAIN's plan lines *)

Definition explain_target (inner : Statement)
  : option (bytes * bytes * option Expr * option OrderBy * option Limit) :=
  match inner with
  | Select _ table predicate _ _ order_by limit => Some (bs "SELECT", table, predicate, order_by, limit)
  | Update table _ predicate => Some (bs "UPDATE", table, predicate, None, None)
  | Delete table predicate => Some (bs "DELETE", table, predicate, None, None)
  | _ => None
  end.

Definition access_step (action : bytes) (schema : TableSchema) (compiled : option CompiledExpr) : bytes :=
  let column col := ts_name schema ++ bs "." ++ cd_name (ts_columns schema !!! col) in
  let full := action ++ bs ": full scan of " ++ ts_name schema in
  match compiled with
  | None => full
  | Some f =>
      match indexed_eq_value f schema with
      | Some (col, _) =>
          action ++ bs ": " ++
          (if cd_primary_key (ts_columns schema !!! col) then bs "primary key" else bs "secondary index")
          ++ bs " lookup on " ++ column col
      | None =>
          match range_indexed_pred f schema with
          | Some (col, op, _) =>
              action ++ bs ": sealed range-index scan on " ++ column col
              ++ bs " (" ++ show_op op ++ bs ")"
          | None => full
          end
      end
  end.

Definition sort_step (ob : OrderBy) : bytes :=
  match ob_nearest_to ob with
  | Some _ => bs "brute-force cosine scan: nearest to query vector on " ++ ob_column ob
  | None => bs "sort by " ++ ob_column ob ++ (if ob_descending ob then bs " DESC" else [])
  end.

(** ** Sorting and projecting rows *)

Definition F32_INFINITY : f32 := 0x7F800000.

Definition nearest_distance (index : nat) (query : list f32) (row : list Value) : f32 :=
  match row !!! index with
  | VVector v => cosine_distance v query
  | _ => F32_INFINITY
  end.

Definition order_rows (schema : TableSchema) (index : nat) (ob : OrderBy) (rows : list (list Value))
  : result EngineError (list (list Value)) :=
  let vector := is_vector (cd_ty (ts_columns schema !!! index)) in
  match ob_nearest_to ob with
  | Some query =>
      if negb vector then
        Err (EType "NEAREST TO requires a VECTOR column; {:?} is not one" [ob_column ob])
      else
        let keyed := map (λ row, (nearest_distance index query row, row)) rows in
        Ok (map snd (stable_sort (λ a b, f32_total_cmp a.1 b.1) keyed))
  | None =>
      if vector then
        Err (EType "vector column {:?} has no order; use ORDER BY {} NEAREST TO [..]"
               [ob_column ob; ob_column ob])
      else
        Ok (stable_sort (λ a b,
              let ord := compare_values (a !!! index) (b !!! index) in
              if ob_descending ob then CompOpp ord else ord) rows)
  end.

Definition project (output : list nat) (row : list Value) : list Value := map (λ i, row !!! i) output.

Section query.
Context {B : Type} `{Backend B}.

Definition record_query (table : bytes) (filter : CompiledExpr) (scanned : Z) : M B unit :=
  let '(eq, range) := collect_predicates filter (∅, ∅) in
  if bool_decide (eq = ∅) && bool_decide (range = ∅) then mret tt
  else modify (λ e, with_advisor e (record_stats (e_advisor e) table eq range scanned)).

Definition advise (e : Engine B) : result EngineError (list IndexAdvice) :=
  out ← mapR (λ '((table, column), stat),
    found ← table_schema e table;
    Ok match found with
       | None => []
       | Some schema =>
           match column_index schema column with
           | None => []
           | Some ci => column_advice table column (ts_columns schema !!! ci) stat
           end
       end) (stats_iter (ad_stats (e_advisor e)));
  Ok (stable_sort advice_cmp (concat out)).

(** ** Access paths *)

(** Fetching the rows an index points at; a dangling entry reads as absent. *)
Definition fetch_rows (e : Engine B) (table : bytes) (rowids : list Z)
  : result EngineError (list (bytes * list Value)) :=
  rows ← mapR (λ rowid,
    let key := row_key (e_master e) table rowid in
    found ← store_get (e_store e) key;
    match found with
    | None => Ok []
    | Some sealed =>
        row ← open_row (table_key (e_master e) table) key sealed; Ok [(key, row)]
    end) rowids;
  Ok (concat rows).

Definition candidate_rows (table : bytes) (schema : TableSchema) (filter : option CompiledExpr)
  : M B (list (bytes * list Value)) :=
  let full_scan :=
    rows ← reads (λ e, scan_rows e table);
    _ ← match filter with
        | Some f => record_query table f (Z.of_nat (length rows))
        | None => mret tt
        end;
    mret rows in
  match filter with
  | None => full_scan
  | Some f =>
      match indexed_eq_value f schema with
      | Some (col, value) =>
          rows ← reads (λ e,
            rowids ← index_rowids e table col value; fetch_rows e table rowids);
          _ ← record_query table f 0;
          mret rows
      | None =>
          match range_indexed_pred f schema with
          | Some (col, op, value) =>
              rows ← reads (λ e,
                entries ← load_range_index e table col;
                let hits := base.filter (λ en : Value * Z, op_holds op (compare_values en.1 value) = true) entries in
                fetch_rows e table (map snd hits));
              _ ← record_query table f 0;
              mret rows
          | None => full_scan
          end
      end
  end.

(** The rows among the candidates that satisfy the whole predicate. *)
Definition filter_rows (filter : option CompiledExpr) (rows : list (bytes * list Value))
  : result EngineError (list (bytes * list Value)) :=
  kept ← mapR (λ kr : bytes * list Value,
    match filter with
    | None => Ok [kr]
    | Some f => hit ← matches f kr.2; Ok (if hit : bool then [kr] else [])
    end) rows;
  Ok (concat kept).

Definition compile_filter (schema : TableSchema) (predicate : option Expr)
  : result EngineError (option CompiledExpr) :=
  match predicate with
  | None => Ok None
  | Some p => c ← compile_expr schema p; Ok (Some c)
  end.

(** ** SELECT *)

Definition select (table : bytes) (projection : Projection) (predicate : option Expr)
    (group_by : list bytes) (having : option HavingExpr) (order_by : option OrderBy)
    (limit : option Limit) : M B QueryResult :=
  schema ← reads (λ e, expect_schema e table);
  filter ← lift (compile_filter schema predicate);
  let plain (names : option (list bytes)) :=
    output ← lift match names with
                  | None => Ok (seq 0 (length (ts_columns schema)))
                  | Some names => mapR (expect_column schema table) names
                  end;
    let column_names := map (λ i, cd_name (ts_columns schema !!! i)) output in
    sort_index ← lift match order_by with
                      | None => Ok None
                      | Some ob => i ← expect_column schema table (ob_column ob); Ok (Some i)
                      end;
    candidates ← candidate_rows table schema filter;
    kept ← lift (filter_rows filter candidates);
    rows ← lift match sort_index, order_by with
                | Some index, Some ob => order_rows schema index ob (map snd kept)
                | _, _ => Ok (map snd kept)
                end;
    mret (QRows column_names (map (project output) (apply_limit limit rows))) in
  match projection with
  | PItems items =>
      match order_by with
      | Some _ => fail (ESchema "ORDER BY is not yet supported with aggregates or GROUP BY" [])
      | None =>
          candidates ← candidate_rows table schema filter;
          kept ← lift (filter_rows filter candidates);
          out ← lift (aggregate schema table items group_by having (map snd kept) limit);
          mret (QRows (rs_columns out) (rs_rows out))
      end
  | PAll => plain None
  | PColumns names => plain (Some names)
  end.

(** ** EXPLAIN *)

Definition explain (e : Engine B) (inner : Statement) : result EngineError QueryResult :=
  match explain_target inner with
  | None => Err (ESchema "EXPLAIN supports SELECT, UPDATE and DELETE" [])
  | Some (action, table, predicate, order_by, limit) =>
      schema ← expect_schema e table;
      compiled ← compile_filter schema predicate;
      let steps :=
        [access_step action schema compiled]
        ++ match predicate with Some p => [bs "filter: " ++ show_expr p] | None => [] end
        ++ match order_by with Some ob => [sort_step ob] | None => [] end
        ++ match limit with
           | Some l => [bs "limit " ++ show_Z (lim_count l) ++ bs " offset " ++ show_Z (lim_offset l)]
           | None => []
           end in
      Ok (QRows [bs "plan"] (map (λ s, [VText s]) steps))
  end.
End query.
