(* ===== verification/Dml.v ===== *)
(** * INSERT, UPDATE and DELETE

    ciphra-engine/src/lib.rs, [insert], [update] and [delete]: each validates
    the whole statement first, then builds one batch of rows, index entries
    and range blobs, committed with its audit entry. *)

From S2P Require Import Prelude BTree Storage Aead Float SqlAst Values Codec Store Sort Exprs AuditChain EngineState Ddl Query.

(** [entries.retain(|(v, id)| !( *id == rowid && *v == value))] *)
Definition retain_entry (rowid : Z) (value : Value) (entries : list (Value * Z)) : list (Value * Z) :=
  filter (λ en, ((en.2 =? rowid) && value_eqb en.1 value) = false) entries.

Section dml.
Context {B : Type} `{Backend B}.

(** ** INSERT *)

(** One row of literals, in the statement's column order, as a typed row. *)
Definition build_row (schema : TableSchema) (positions : list nat) (literals : list Literal)
  : result EngineError (list Value) :=
  if negb (length literals =? length positions)%nat then
    Err (EType "expected {} values, got {}"
           [show_Z (Z.of_nat (length positions)); show_Z (Z.of_nat (length literals))])
  else
    foldR (λ (row : list Value) '(pos, literal),
      v ← coerce literal (ts_columns schema !!! pos); Ok (<[pos := v]> row))
      (replicate (length (ts_columns schema)) VNull) (zip positions literals).

(** The primary key check of one row: the value prefixes of the rows before it
    in the statement, and the index. *)
Definition check_pk (e : Engine B) (table : bytes) (schema : TableSchema) (pk : option nat)
    (seen : gset bytes) (row : list Value) : result EngineError (gset bytes) :=
  match pk with
  | None => Ok seen
  | Some pk_idx =>
      let value := row !!! pk_idx in
      let name := cd_name (ts_columns schema !!! pk_idx) in
      if is_null value then Err (EConstraint "primary key {:?} cannot be NULL" [name])
      else
        let prefix := index_value_prefix (e_master e) table pk_idx value in
        let duplicate := Err (EConstraint "duplicate value for primary key {:?}" [name]) in
        if decide (prefix ∈ seen) then duplicate
        else
          holders ← index_rowids e table pk_idx value;
          match holders with [] => Ok ({[ prefix ]} ∪ seen) | _ => duplicate end
  end.

Definition validate_rows (e : Engine B) (table : bytes) (schema : TableSchema) (positions : list nat)
    (rows : list (list Literal)) : result EngineError (list (list Value)) :=
  '(built, _) ← foldR (λ '(built, seen) literals,
    row ← build_row schema positions literals;
    seen' ← check_pk e table schema (pk_column schema) seen row;
    Ok (built ++ [row], seen')) ([], ∅) rows;
  Ok built.

(** Index entries of a row for every maintained column that is not NULL. *)
Definition add_row_entries (batch : Batch) (table : bytes) (maintained : list nat) (row : list Value)
    (rowid : Z) : M B Batch :=
  foldM (λ batch col,
    if is_null (row !!! col) then mret batch
    else add_index_entry batch table col (row !!! col) rowid) batch maintained.

(** The rows get consecutive ids; the next free id comes back. *)
Definition insert_rows (table : bytes) (maintained : list nat) (next_id : Z) (rows : list (list Value))
  : M B (Batch * Z) :=
  foldM (λ '(batch, id) row,
    m ← gets e_master;
    batch ← add_row batch table (row_key m table id) row;
    batch ← add_row_entries batch table maintained row id;
    mret (batch, wadd 64 id 1)) (batch_new, next_id) rows.

(** [(row[col], first_id + offset)] for the rows with a value. *)
Definition new_range_entries (col : nat) (first_id : Z) (rows : list (list Value)) : list (Value * Z) :=
  concat (imap (λ offset row,
    if is_null (row !!! col) then []
    else [(row !!! col, wadd 64 first_id (Z.of_nat offset))]) rows).

Definition insert (table : bytes) (columns : option (list bytes)) (rows : list (list Literal))
  : M B QueryResult :=
  schema ← reads (λ e, expect_schema e table);
  positions ← lift match columns with
                   | None => Ok (seq 0 (length (ts_columns schema)))
                   | Some names => mapR (expect_column schema table) names
                   end;
  inserted ← reads (λ e, validate_rows e table schema positions rows);
  next_id ← reads (λ e, load_seq e table);
  '(writes, next_id) ← insert_rows table (maintained_columns schema) next_id inserted;
  writes ← add_seq writes table next_id;
  let count := length inserted in
  let first_id := wsub 64 next_id (Z.of_nat count) in
  writes ← foldM (λ writes col,
    entries ← reads (λ e, load_range_index e table col);
    add_range_blob writes table col (sort_range_entries (entries ++ new_range_entries col first_id inserted)))
    writes (range_indexed_columns schema);
  m ← gets e_master;
  _ ← commit_audited audit_kind.INSERT (table_tag m table) writes;
  mret (QInserted count).

(** ** UPDATE *)

(** [SET] targets resolved to (index, typed value). *)
Definition resolve_assignments (schema : TableSchema) (table : bytes) (assignments : list Assignment)
  : result EngineError (list (nat * Value)) :=
  '(resolved, _) ← foldR (λ '(resolved, seen) (a : Assignment),
    index ← expect_column schema table (as_column a);
    if decide (index ∈ (seen : gset nat)) then
      Err (ESchema "column {:?} assigned twice" [as_column a])
    else
      v ← coerce (as_value a) (ts_columns schema !!! index);
      Ok (resolved ++ [(index, v)], {[ index ]} ∪ seen)) ([], ∅) assignments;
  Ok resolved.

Definition assign_row (resolved : list (nat * Value)) (row : list Value) : list Value :=
  fold_left (λ row '(index, value), <[index := value]> row) resolved row.

(** (storage key, row before, row after) *)
Abbreviation Change := (bytes * list Value * list Value)%type.

(** A primary key reassignment is validated before anything is written. *)
Definition check_new_pk (e : Engine B) (table : bytes) (schema : TableSchema)
    (resolved : list (nat * Value)) (changed : list Change) : result EngineError unit :=
  match pk_column schema with
  | None => Ok tt
  | Some pk_idx =>
      match List.find (λ iv, (iv.1 =? pk_idx)%nat) resolved with
      | None => Ok tt
      | Some (_, new_pk) =>
          let name := cd_name (ts_columns schema !!! pk_idx) in
          if is_null new_pk then Err (EConstraint "primary key {:?} cannot be NULL" [name])
          else if (1 <? length changed)%nat then
            Err (EConstraint "UPDATE would assign the same primary key to {} rows"
                   [show_Z (Z.of_nat (length changed))])
          else
            match changed with
            | [] => Ok tt
            | (key, _, _) :: _ =>
                holders ← index_rowids e table pk_idx new_pk;
                if existsb (λ id, negb (id =? rowid_from_key key)) holders
                then Err (EConstraint "duplicate value for primary key {:?}" [name])
                else Ok tt
            end
      end
  end.

(** The writes of one changed row. *)
Definition update_row (table : bytes) (maintained : list nat) (writes : Batch) (change : Change)
  : M B Batch :=
  let '(key, old_row, new_row) := change in
  let rowid := rowid_from_key key in
  writes ← foldM (λ writes col,
    if value_eqb (old_row !!! col) (new_row !!! col) then mret writes
    else
      writes ← (if is_null (old_row !!! col) then mret writes
                else remove_index_entry writes table col (old_row !!! col) rowid);
      if is_null (new_row !!! col) then mret writes
      else add_index_entry writes table col (new_row !!! col) rowid) writes maintained;
  add_row writes table key new_row.

(** The entries of a range column after the changes. *)
Definition update_range_entries (col : nat) (changed : list Change) (entries : list (Value * Z))
  : list (Value * Z) :=
  fold_left (λ entries '(key, old_row, new_row),
    if value_eqb (old_row !!! col) (new_row !!! col) then entries
    else
      let rowid := rowid_from_key key in
      let entries := retain_entry rowid (old_row !!! col) entries in
      if is_null (new_row !!! col) then entries else entries ++ [(new_row !!! col, rowid)])
    changed entries.

Definition update (table : bytes) (assignments : list Assignment) (predicate : option Expr)
  : M B QueryResult :=
  schema ← reads (λ e, expect_schema e table);
  filter ← lift (compile_filter schema predicate);
  resolved ← lift (resolve_assignments schema table assignments);
  candidates ← candidate_rows table schema filter;
  kept ← lift (filter_rows filter candidates);
  let changed := map (λ '(key, row), (key, row, assign_row resolved row)) kept in
  _ ← reads (λ e, check_new_pk e table schema resolved changed);
  writes ← foldM (update_row table (maintained_columns schema)) batch_new changed;
  writes ← foldM (λ writes col,
    if forallb (λ '(_, o, n), value_eqb (o !!! col) (n !!! col)) changed then mret writes
    else
      entries ← reads (λ e, load_range_index e table col);
      add_range_blob writes table col (sort_range_entries (update_range_entries col changed entries)))
    writes (range_indexed_columns schema);
  m ← gets e_master;
  _ ← commit_audited audit_kind.UPDATE (table_tag m table) writes;
  mret (QUpdated (length changed)).

(** ** DELETE *)

Definition delete_row (table : bytes) (maintained : list nat) (writes : Batch) (doomed : bytes * list Value)
  : M B Batch :=
  let '(key, row) := doomed in
  writes ← foldM (λ writes col,
    if is_null (row !!! col) then mret writes
    else remove_index_entry writes table col (row !!! col) (rowid_from_key key)) writes maintained;
  mret (batch_delete writes key).

Definition delete_range_entries (col : nat) (doomed : list (bytes * list Value)) (entries : list (Value * Z))
  : list (Value * Z) :=
  fold_left (λ entries '(key, row), retain_entry (rowid_from_key key) (row !!! col) entries) doomed entries.

Definition delete (table : bytes) (predicate : option Expr) : M B QueryResult :=
  schema ← reads (λ e, expect_schema e table);
  filter ← lift (compile_filter schema predicate);
  candidates ← candidate_rows table schema filter;
  doomed ← lift (filter_rows filter candidates);
  writes ← foldM (delete_row table (maintained_columns schema)) batch_new doomed;
  writes ← foldM (λ writes col,
    if forallb (λ kr : bytes * list Value, is_null (kr.2 !!! col)) doomed then mret writes
    else
      entries ← reads (λ e, load_range_index e table col);
      add_range_blob writes table col (delete_range_entries col doomed entries))
    writes (range_indexed_columns schema);
  m ← gets e_master;
  _ ← commit_audited audit_kind.DELETE (table_tag m table) writes;
  mret (QDeleted (length doomed)).
End dml.
