(* ===== verification/Exec.v ===== *)
(** * Statements, transactions, opening and the audit interface

    ciphra-engine/src/lib.rs: [execute], [execute_statement], the transaction
    handlers, [open_store], [backup_to], [audit_verify] and the Merkle
    entry points. *)

From S2P Require Import Prelude BTree Storage Aead Argon2 Float SqlAst SqlLexer SqlParser Values Codec Store Sort Exprs Aggregate AuditChain KeyParams EngineState Ddl Query Dml.

(** [KdfParams::derive] *)
Definition derive_master (kdf : KdfParams) (passphrase salt : bytes) : MasterKey :=
  match kdf with
  | Pbkdf2 iterations =>
      default (mkMasterKey []) (derive_from_passphrase passphrase salt iterations)
  | Argon2id memory_kib passes lanes => derive_argon2id passphrase salt memory_kib passes lanes
  end.

Section exec.
Context {B : Type} `{Backend B}.

(** ** Transactions *)

Definition begin_transaction : M B QueryResult :=
  e ← gets id;
  if store_in_transaction (e_store e) then fail (ESchema "a transaction is already open" [])
  else
    _ ← modify (λ e, with_txn_audit_head e (Some (e_audit_head e)));
    _ ← modify (λ e, with_store e (store_begin (e_store e)));
    mret QBegin.

Definition commit_transaction : M B QueryResult :=
  e ← gets id;
  if negb (store_in_transaction (e_store e)) then fail (ESchema "no transaction is open" [])
  else
    _ ← (λ e : Engine B, let '(r, s) := store_commit_transaction (e_store e) in (r, with_store e s));
    _ ← modify (λ e, with_txn_audit_head e None);
    mret QCommitted.

Definition rollback_transaction : M B QueryResult :=
  e ← gets id;
  if negb (store_in_transaction (e_store e)) then fail (ESchema "no transaction is open" [])
  else
    _ ← modify (λ e, with_store e (store_rollback_transaction (e_store e)));
    _ ← modify (λ e,
      match e_txn_audit_head e with
      | Some head => with_audit_head (with_txn_audit_head e None) head
      | None => e
      end);
    mret QRolledBack.

(** ** Statements *)

Definition execute_statement (statement : Statement) : M B QueryResult :=
  match statement with
  | CreateTable name columns => create_table name columns
  | DropTable name => drop_table name
  | CreateIndex table column false => create_index table column
  | CreateIndex table column true => create_range_index table column
  | DropIndex table column false => drop_index table column
  | DropIndex table column true => drop_range_index table column
  | Insert table columns rows => insert table columns rows
  | Select columns table predicate group_by having order_by limit =>
      select table columns predicate group_by having order_by limit
  | Update table assignments predicate => update table assignments predicate
  | Delete table predicate => delete table predicate
  | Explain inner => reads (λ e, explain e inner)
  | Begin => begin_transaction
  | Commit => commit_transaction
  | Rollback => rollback_transaction
  end.

(** The statements run one after the other; the first error ends the list. *)
Definition execute_statements (statements : list Statement) : M B (list QueryResult) :=
  foldM (λ results statement, r ← execute_statement statement; mret (results ++ [r])) [] statements.

Definition execute (sql : bytes) : M B (list QueryResult) :=
  statements ← lift (map_err EParse (parse_statements sql));
  execute_statements statements.

(** ** The audit interface *)

(** One step of the scan: open the entry, then link it. *)
Definition audit_scan_step (m : MasterKey) (acc : list AuditEntry * bytes) (kv : bytes * bytes)
  : result EngineError (list AuditEntry * bytes) :=
  plain ← map_err (λ _, EAudit "audit entry failed authentication" [])
            (cipher_open (audit_cipher m) kv.2 kv.1);
  audit_link acc plain.

Definition audit_verify (e : Engine B) : result EngineError (list AuditEntry) :=
  l ← store_scan_prefix (e_store e) AUDIT_PREFIX;
  '(es, root) ← foldR (audit_scan_step (e_master e)) ([], zeros 32) l;
  if bool_decide ((Z.of_nat (length es), root) = e_audit_head e) then Ok es
  else Err (EAudit "audit head does not match the recomputed chain" []).

Definition audit_leaves (e : Engine B) : result EngineError (list bytes) :=
  es ← audit_verify e; Ok (map (λ en, merkle_leaf (audit_encode en)) es).

Definition audit_merkle_root (e : Engine B) : result EngineError bytes :=
  leaves ← audit_leaves e; Ok (merkle_root_of leaves).

Definition audit_inclusion_proof (e : Engine B) (index : Z)
  : result EngineError (AuditEntry * MerkleProof * bytes) :=
  es ← audit_verify e; inclusion_proof es index.

(** ** Opening and backing up *)

Definition open_put (s : Store B) (key value : bytes) : result EngineError (Store B) :=
  match store_put s key value with (Ok _, s') => Ok s' | (Err err, _) => Err err end.

(** [open_store]; the salt and the canary's nonce come from the world. *)
Definition open_store (w : World) (s : Store B) (local : bool) (passphrase : bytes) (kdf : KdfParams)
  : result EngineError (Engine B) :=
  let salt := resize SALT_LEN Byte.x00 (w_random w (w_draws w)) in
  recorded ← store_get s KEYPARAMS_KEY;
  '(kdf, salt, s, w) ←
    match recorded with
    | Some record => '(kdf, salt) ← read_keyparams record; Ok (kdf, salt, s, w)
    | None =>
        s ← open_put s KEYPARAMS_KEY (encode_keyparams kdf salt);
        Ok (kdf, salt, s, mkWorld (w_random w) (S (w_draws w)) (w_clock w) (w_ticks w))
    end;
  let master := derive_master kdf passphrase salt in
  let canary_key := derive_key master (bs "canary") in
  canary ← store_get s CANARY_KEY;
  '(s, w) ←
    match canary with
    | Some sealed =>
        _ ← map_err (λ _, EBadPassphrase) (cipher_open canary_key sealed CANARY_KEY);
        Ok (s, w)
    | None =>
        let nonce := resize NONCE_LEN Byte.x00 (w_random w (w_draws w)) in
        s ← open_put s CANARY_KEY (cipher_seal canary_key nonce CANARY_PLAINTEXT CANARY_KEY);
        Ok (s, mkWorld (w_random w) (S (w_draws w)) (w_clock w) (w_ticks w))
    end;
  recorded_head ← store_get s AUDIT_HEAD_KEY;
  head ←
    match recorded_head with
    | None => Ok audit_genesis
    | Some sealed =>
        plain ← open_sealed (audit_cipher master) sealed AUDIT_HEAD_KEY;
        if negb (length plain =? 8 + 32)%nat then Err (ECorrupt "bad audit head" [])
        else Ok (from_le (take 8 plain), drop 8 plain)
    end;
  Ok (mkEngine s master local head None advisor_default w).

(** [backup_to]: the bytes of the snapshot file. *)
Definition backup_to (e : Engine B) : result EngineError bytes :=
  pairs ← store_dump (e_store e); Ok (write_snapshot pairs).
End exec.
