(* ===== verification/EngineFacts.v ===== *)
(** * Engine computations: what they may change

    [quietly m Q]: the computation leaves the database (store, keys, audit
    head, transaction) as it was, whatever it returns, and what it returns
    satisfies [Q].  Everything a statement does before its commit is quiet;
    [audited] is the shape of a whole statement: quiet work, then at most one
    audited commit.  The tactic [quiet] walks a computation. *)

From S2P Require Import Prelude BTree Storage StorageFacts Aead Float SqlAst Values Codec Store Sort Exprs Aggregate AuditChain EngineState Ddl Query Dml Exec.

(** The same database: telemetry, randomness and clock may differ. *)
Record same_db {B} (e e' : Engine B) : Prop := {
  same_store : e_store e' = e_store e;
  same_master : e_master e' = e_master e;
  same_local : e_local e' = e_local e;
  same_head : e_audit_head e' = e_audit_head e;
  same_txn : e_txn_audit_head e' = e_txn_audit_head e;
}.

#[export] Instance same_db_equiv {B} : Equivalence (@same_db B).
Proof.
  split.
  - intros e. by split.
  - intros e e' []. by split.
  - intros e1 e2 e3 [] []. split; congruence.
Qed.

(** ** Keys of user data *)

(** A key that is neither the audit chain's nor one of the two records that
    opening a database reads. *)
Definition data_key (k : bytes) : Prop :=
  (starts_with AUDIT_PREFIX k = false ∧ k ≠ AUDIT_HEAD_KEY) ∧ k ≠ KEYPARAMS_KEY ∧ k ≠ CANARY_KEY.

(** What a statement puts into its batch: writes of user data. *)
Definition data_batch (b : Batch) : Prop :=
  Forall (λ e : entry, batch_op e.1.1 ∧ data_key e.1.2) (entries b).

Lemma data_batch_wf b : data_batch b → batch_wf b.
Proof. intros Hb. eapply list.Forall_impl; [exact Hb|]. by intros e [? _]. Qed.

Lemma data_batch_new : data_batch batch_new.
Proof. constructor. Qed.

Lemma data_batch_put b k v : data_batch b → data_key k → data_batch (batch_put b k v).
Proof.
  intros Hb Hk. apply list.Forall_app. split; [done|]. constructor; [|constructor].
  split; [by left|done].
Qed.

Lemma data_batch_delete b k : data_batch b → data_key k → data_batch (batch_delete b k).
Proof.
  intros Hb Hk. apply list.Forall_app. split; [done|]. constructor; [|constructor].
  split; [by right|done].
Qed.

(** Each kind of key starts with bytes of its own. *)
Lemma data_key_catalog m t : data_key (catalog_key m t).
Proof. by repeat split. Qed.
Lemma data_key_seq m t : data_key (seq_key m t).
Proof. by repeat split. Qed.
Lemma data_key_row m t k : data_key (row_prefix m t ++ k).
Proof. by repeat split. Qed.
Lemma data_key_row_id m t id : data_key (row_key m t id).
Proof. by repeat split. Qed.
Lemma data_key_index m t k : data_key (index_prefix m t ++ k).
Proof. by repeat split. Qed.
Lemma data_key_index_entry m t c v id : data_key (index_entry_key m t c v id).
Proof. by repeat split. Qed.
Lemma data_key_range m t k : data_key (range_prefix m t ++ k).
Proof. by repeat split. Qed.
Lemma data_key_range_index m t c : data_key (range_index_key m t c).
Proof. by repeat split. Qed.

Create HintDb data_keys discriminated.
#[export] Hint Resolve data_key_catalog data_key_seq data_key_row data_key_row_id data_key_index
  data_key_index_entry data_key_range data_key_range_index
  data_batch_new data_batch_put data_batch_delete : data_keys.

(** ** Quiet computations *)

Definition quietly {B A} (m : M B A) (Q : A → Prop) : Prop :=
  ∀ e r e', m e = (r, e') → same_db e e' ∧ ∀ a, r = Ok a → Q a.

(** With the state it starts from known to satisfy [P]. *)
Section quiet.
Context {B : Type} `{Backend B}.

Lemma quietly_ret {A} (a : A) (Q : A → Prop) : Q a → quietly (B := B) (mret a) Q.
Proof. intros Hq e r e' [= <- <-]. split; [done|]. by intros ? [= <-]. Qed.

Lemma quietly_fail {A} err (Q : A → Prop) : quietly (B := B) (fail err) Q.
Proof. intros e r e' [= <- <-]. by split. Qed.

Lemma quietly_lift {A} (r : result EngineError A) (Q : A → Prop) :
  (∀ a, r = Ok a → Q a) → quietly (B := B) (lift r) Q.
Proof. intros Hr e r' e' [= <- <-]. by split. Qed.

Lemma quietly_reads {A} (f : Engine B → result EngineError A) (Q : A → Prop) :
  (∀ e a, f e = Ok a → Q a) → quietly (reads f) Q.
Proof. intros Hf e r' e' [= <- <-]. split; [done|]. intros a Ha. by eapply Hf. Qed.

Lemma quietly_gets {A} (f : Engine B → A) (Q : A → Prop) :
  (∀ e, Q (f e)) → quietly (gets f) Q.
Proof. intros Hf e r' e' [= <- <-]. split; [done|]. by intros a [= <-]. Qed.

Lemma quietly_bind {A C} (m : M B A) (f : A → M B C) (P : A → Prop) (Q : C → Prop) :
  quietly m P → (∀ a, P a → quietly (f a) Q) → quietly (a ← m; f a) Q.
Proof.
  intros Hm Hf e r e'. unfold mbind, m_bind.
  destruct (m e) as [[a|err] e1] eqn:Em; apply Hm in Em as [Hs Ha].
  - intros Hfa. apply Hf in Hfa as [Hs' HQ]; [|by apply Ha]. split; [by trans e1|done].
  - intros [= <- <-]. by split.
Qed.

Lemma quietly_mono {A} (m : M B A) (P Q : A → Prop) :
  quietly m P → (∀ a, P a → Q a) → quietly m Q.
Proof. intros Hm HPQ e r e' Hr. apply Hm in Hr as [? ?]. split; auto. Qed.

Lemma quietly_foldM {A C} (f : C → A → M B C) (I : C → Prop) acc l :
  I acc → (∀ acc x, x ∈ l → I acc → quietly (f acc x) I) → quietly (foldM f acc l) I.
Proof.
  revert acc. induction l as [|x l IH]; intros acc Hacc Hf; cbn [foldM]; [by apply quietly_ret|].
  eapply quietly_bind; [by apply Hf; [apply list_elem_of_here|]|].
  intros a Ha. apply IH; [done|]. intros acc' y Hy. apply Hf. by apply list_elem_of_further.
Qed.

Lemma quietly_random n : quietly (B := B) (random_bytes n) (λ b, length b = n).
Proof.
  intros e r e' [= <- <-]. split; [by split|]. intros a [= <-]. apply length_resize.
Qed.

Lemma quietly_now : quietly (B := B) now_secs (in_u 64).
Proof. intros e r e' [= <- <-]. split; [by split|]. intros a [= <-]. by apply in_u_wrap. Qed.

Lemma quietly_seal key plain aad :
  quietly (B := B) (seal key plain aad)
    (λ s, ∃ nonce, length nonce = NONCE_LEN ∧ s = cipher_seal key nonce plain aad).
Proof.
  eapply quietly_bind; [apply quietly_random|]. intros n Hn. apply quietly_ret. by exists n.
Qed.

(** A helper that seals something and puts it under a data key. *)
Lemma quietly_put_sealed (key : MasterKey → CipherKey) plain (aad : MasterKey → bytes) batch :
  data_batch batch → (∀ m, data_key (aad m)) →
  quietly (B := B) (m ← gets e_master; sealed ← seal (key m) plain (aad m);
                    mret (batch_put batch (aad m) sealed)) data_batch.
Proof.
  intros Hb Ha. eapply quietly_bind; [by apply (quietly_gets _ (λ _, True))|]. intros m _.
  eapply quietly_bind; [apply quietly_seal|]. intros s _. apply quietly_ret. auto with data_keys.
Qed.

Lemma quietly_add_schema batch schema :
  data_batch batch → quietly (B := B) (add_schema batch schema) data_batch.
Proof.
  intros Hb. apply (quietly_put_sealed catalog_cipher (encode_schema schema) (λ m, catalog_key m (ts_name schema)));
    auto with data_keys.
Qed.

Lemma quietly_add_seq batch table next :
  data_batch batch → quietly (B := B) (add_seq batch table next) data_batch.
Proof.
  intros Hb. apply (quietly_put_sealed (λ m, table_key m table) _ (λ m, seq_key m table)); auto with data_keys.
Qed.

Lemma quietly_add_row batch table key row :
  data_batch batch → data_key key → quietly (B := B) (add_row batch table key row) data_batch.
Proof. intros Hb Hk. by apply (quietly_put_sealed (λ m, table_key m table) _ (λ m, key)). Qed.

Lemma quietly_add_range_blob batch table col es :
  data_batch batch → quietly (B := B) (add_range_blob batch table col es) data_batch.
Proof.
  intros Hb. apply (quietly_put_sealed (λ m, table_key m table) _ (λ m, range_index_key m table col));
    auto with data_keys.
Qed.

Lemma quietly_add_index_entry batch table col v id :
  data_batch batch → quietly (B := B) (add_index_entry batch table col v id) data_batch.
Proof.
  intros Hb. apply (quietly_put_sealed (λ m, table_key m table) _ (λ m, index_entry_key m table col v id));
    auto with data_keys.
Qed.

Lemma quietly_remove_index_entry batch table col v id :
  data_batch batch → quietly (B := B) (remove_index_entry batch table col v id) data_batch.
Proof.
  intros Hb. eapply quietly_bind; [by apply (quietly_gets _ (λ _, True))|]. intros m _.
  apply quietly_ret. auto with data_keys.
Qed.

Lemma quietly_record_query table f n : quietly (B := B) (record_query table f n) (λ _, True).
Proof.
  unfold record_query. destruct (collect_predicates f _) as [eq range].
  destruct (_ && _); [by apply quietly_ret|]. intros e r e' [= <- <-]. by split.
Qed.
End quiet.

(** ** Rows and their keys *)

Section statements.
Context {B : Type} `{BL : BackendLaws B btable}.

Lemma store_scan_starts_with (s : Store B) p l :
  store_scan_prefix s p = Ok l → Forall (λ kv, starts_with p kv.1 = true) l.
Proof.
  intros ->%store_scan_abs. apply list.Forall_forall. intros [k v] Hkv%elem_of_btree_iter.
  by apply map_lookup_filter_Some in Hkv as [_ ?].
Qed.

Lemma starts_with_data_key p k :
  (∀ r, data_key (p ++ r)) → starts_with p k = true → data_key k.
Proof. by intros Hp [r ->]%starts_with_app. Qed.

Definition row_keys (rows : list (bytes * list Value)) : Prop := Forall (λ kr, data_key kr.1) rows.

Lemma scan_rows_keys (e : Engine B) table rows : scan_rows e table = Ok rows → row_keys rows.
Proof.
  unfold scan_rows. destruct (store_scan_prefix _ _) as [l|] eqn:Hl; result_simpl; [|done].
  apply store_scan_starts_with in Hl. intros Hm%mapR_ok_Forall2. unfold row_keys.
  induction Hm as [|[k s] kr l rows Hkr Hm IH]; [constructor|].
  apply list.Forall_cons in Hl as [Hk Hl]. constructor; [|by apply IH].
  destruct (open_row _ k s); result_simpl; [|done]. injection Hkr as <-.
  eapply starts_with_data_key; [|exact Hk]. intros r. apply data_key_row.
Qed.

Lemma row_keys_concat rss : Forall row_keys rss → row_keys (concat rss).
Proof. induction 1; cbn; [constructor|]. by apply list.Forall_app. Qed.

Lemma mapR_Forall {A C} (f : A → result EngineError C) (P : C → Prop) l k :
  (∀ x y, x ∈ l → f x = Ok y → P y) → mapR f l = Ok k → Forall P k.
Proof.
  intros Hf Hm%mapR_ok_Forall2. induction Hm as [|x y l k Hxy Hm IH]; [constructor|].
  constructor; [eapply Hf; [apply list_elem_of_here|done]|].
  apply IH. intros x' y' Hx'. apply Hf. by apply list_elem_of_further.
Qed.

Lemma fetch_rows_keys (e : Engine B) table ids rows : fetch_rows e table ids = Ok rows → row_keys rows.
Proof.
  unfold fetch_rows. destruct (mapR _ ids) as [rss|] eqn:Hm; result_simpl; [|done].
  intros [= <-]. apply row_keys_concat. eapply mapR_Forall; [|exact Hm].
  intros id rs _. cbn beta zeta. destruct (store_get _ _) as [[s|]|]; result_simpl; [|by intros [= <-]; constructor|done].
  destruct (open_row _ _ s); result_simpl; [|done]. intros [= <-].
  constructor; [apply data_key_row_id|constructor].
Qed.

Lemma filter_rows_keys f rows kept : row_keys rows → filter_rows f rows = Ok kept → row_keys kept.
Proof.
  intros Hr. unfold filter_rows. destruct (mapR _ rows) as [ks|] eqn:Hm; result_simpl; [|done].
  intros [= <-]. apply row_keys_concat. eapply mapR_Forall; [|exact Hm].
  intros kr ks' Hin. unfold row_keys in Hr. rewrite list.Forall_forall in Hr.
  destruct f as [f|]; [|intros [= <-]; constructor; [by apply Hr|constructor]].
  destruct (matches f kr.2) as [[]|]; result_simpl; [| |done]; intros [= <-].
  - constructor; [by apply Hr|constructor].
  - constructor.
Qed.

Lemma quietly_candidate_rows table schema f : quietly (B := B) (candidate_rows table schema f) row_keys.
Proof.
  assert (Hscan : quietly (B := B) (rows ← reads (λ e, scan_rows e table);
    _ ← match f with Some f => record_query table f (Z.of_nat (length rows)) | None => mret tt end;
    mret rows) row_keys).
  { eapply quietly_bind; [apply quietly_reads; intros e0 rows; apply scan_rows_keys|]. intros rows Hrows.
    eapply quietly_bind with (P := λ _, True); [|intros _ _; by apply quietly_ret].
    destruct f; [apply quietly_record_query|by apply quietly_ret]. }
  assert (Hfetch : ∀ (g : Engine B → result EngineError (list (bytes * list Value))) fe,
    (∀ e rows, g e = Ok rows → row_keys rows) →
    quietly (rows ← reads g; _ ← record_query table fe 0; mret rows) row_keys).
  { intros g fe Hg. eapply quietly_bind; [apply quietly_reads; exact Hg|]. intros rows Hrows.
    eapply quietly_bind; [apply quietly_record_query|]. intros _ _. by apply quietly_ret. }
  unfold candidate_rows. cbv zeta. destruct f as [fe|]; [|exact Hscan].
  destruct (indexed_eq_value fe schema) as [[col v]|].
  { apply Hfetch. intros e rows. destruct (index_rowids _ _ _ _); result_simpl; [|done]. apply fetch_rows_keys. }
  destruct (range_indexed_pred fe schema) as [[[col op] v]|]; [|exact Hscan].
  apply Hfetch. intros e rows. destruct (load_range_index _ _ _); result_simpl; [|done]. apply fetch_rows_keys.
Qed.

(** ** Whole statements *)

(** Quiet work, then at most one audited commit of user data; the result is an
    error exactly when the commit's is. *)
Definition audited {A} (m : M B A) : Prop :=
  ∀ e r e', m e = (r, e') →
    same_db e e'
    ∨ ∃ e1 kind tag batch rc,
        same_db e e1 ∧ data_batch batch ∧ length tag = TABLE_TAG_LEN
        ∧ commit_audited kind tag batch e1 = (rc, e')
        ∧ match rc with Ok _ => is_ok r = true | Err err => r = Err err end.

Lemma audited_quiet {A} (m : M B A) (Q : A → Prop) : quietly m Q → audited m.
Proof. intros Hm e r e' Hr. left. by apply Hm in Hr as [? _]. Qed.

Lemma audited_bind {A C} (m : M B A) (f : A → M B C) (P : A → Prop) :
  quietly m P → (∀ a, P a → audited (f a)) → audited (a ← m; f a).
Proof.
  intros Hm Hf e r e'. unfold mbind, m_bind.
  destruct (m e) as [[a|err] e1] eqn:Em; apply Hm in Em as [Hs Ha].
  - intros Hfa. apply Hf in Hfa as [Hs'|(e2 & kind & tag & batch & rc & Hs' & Hrest)]; [left; by trans e1| |by apply Ha].
    right. exists e2, kind, tag, batch, rc. split; [by trans e1|done].
  - intros [= <- <-]. by left.
Qed.

Lemma length_table_tag m t : length (table_tag m t) = TABLE_TAG_LEN.
Proof. unfold table_tag. rewrite length_take, length_keyed_tag. done. Qed.

Lemma audited_commit {A} kind tag batch (a : A) :
  data_batch batch → length tag = TABLE_TAG_LEN →
  audited (_ ← commit_audited kind tag batch; mret a).
Proof.
  intros Hb Ht e r e' Hr. right. exists e, kind, tag, batch.
  unfold mbind, m_bind in Hr. destruct (commit_audited kind tag batch e) as [rc e1] eqn:Hc.
  destruct rc as [[]|err].
  - injection Hr as <- <-. by exists (Ok tt).
  - injection Hr as <- <-. by exists (Err err).
Qed.

(** Committing under the table's own tag. *)
Lemma audited_commit_table {A} kind table batch (a : A) :
  data_batch batch →
  audited (m ← gets e_master; _ ← commit_audited kind (table_tag m table) batch; mret a).
Proof.
  intros Hb. eapply audited_bind; [by apply (quietly_gets _ (λ _, True))|]. intros m _.
  apply audited_commit; [done|apply length_table_tag].
Qed.
End statements.

(** Walks the quiet part of a statement whose results are not constrained. *)
Ltac audit_step :=
  first
    [ eapply audited_bind; [apply (quietly_reads _ (λ _, True)); intros; exact I|intros ? _]
    | eapply audited_bind; [apply (quietly_lift _ (λ _, True)); intros; exact I|intros ? _]
    | eapply audited_bind; [apply (quietly_gets _ (λ _, True)); intros; exact I|intros ? _]
    | apply (audited_quiet _ (λ _, True)); apply quietly_fail
    | apply audited_commit; [|apply length_table_tag]
    | apply audited_commit_table
    | case_match ].

Section handlers.
Context {B : Type} `{BL : BackendLaws B btable}.

Lemma data_batch_deletes l batch :
  data_batch batch → Forall (λ kv : bytes * bytes, data_key kv.1) l →
  data_batch (fold_left (λ batch kv, batch_delete batch kv.1) l batch).
Proof.
  intros Hb Hl. revert batch Hb. induction Hl as [|kv l Hkv Hl IH]; intros batch Hb; [done|].
  apply IH. by apply data_batch_delete.
Qed.

Lemma quietly_scan_store p :
  (∀ r, data_key (p ++ r)) → quietly (B := B) (scan_store p) (Forall (λ kv : bytes * bytes, data_key kv.1)).
Proof.
  intros Hp. apply quietly_reads. intros e l Hl%store_scan_starts_with.
  eapply list.Forall_impl; [exact Hl|]. intros kv. by apply starts_with_data_key.
Qed.

Lemma audited_create_table name columns : audited (B := B) (create_table name columns).
Proof.
  unfold create_table. audit_step. case_match; [audit_step|]. audit_step.
  eapply audited_bind; [apply quietly_add_schema; auto with data_keys|]. intros batch Hb.
  by apply audited_commit_table.
Qed.

Lemma audited_create_index table column : audited (B := B) (create_index table column).
Proof.
  unfold create_index. do 2 audit_step. cbv zeta. do 3 (audit_step; [audit_step|]).
  eapply audited_bind; [by apply (quietly_gets _ (λ _, True))|]. intros m _.
  eapply audited_bind; [apply quietly_scan_store; intros; apply data_key_row|]. intros l Hl.
  eapply audited_bind.
  { apply quietly_foldM with (I := data_batch); [auto with data_keys|]. intros batch [k s] _ Hb.
    eapply quietly_bind; [by apply (quietly_lift _ (λ _, True))|]. intros row _.
    case_match; [by apply quietly_ret|by apply quietly_add_index_entry]. }
  intros batch Hb. eapply audited_bind; [by apply quietly_add_schema|]. intros batch' Hb'.
  by apply audited_commit; [|apply length_table_tag].
Qed.

Lemma audited_drop_index table column : audited (B := B) (drop_index table column).
Proof.
  unfold drop_index. do 2 audit_step. audit_step; [audit_step|].
  eapply audited_bind; [by apply (quietly_gets _ (λ _, True))|]. intros m _.
  eapply audited_bind.
  { apply quietly_scan_store. intros r. unfold index_column_prefix. rewrite <- app_assoc. apply data_key_index. }
  intros l Hl. eapply audited_bind.
  { apply quietly_add_schema, data_batch_deletes; [auto with data_keys|exact Hl]. }
  intros batch Hb. by apply audited_commit; [|apply length_table_tag].
Qed.

Lemma audited_create_range_index table column : audited (B := B) (create_range_index table column).
Proof.
  unfold create_range_index. do 2 audit_step. cbv zeta. do 2 (audit_step; [audit_step|]).
  eapply audited_bind; [by apply (quietly_gets _ (λ _, True))|]. intros m _. audit_step.
  eapply audited_bind; [apply quietly_add_range_blob; auto with data_keys|]. intros batch Hb.
  eapply audited_bind; [by apply quietly_add_schema|]. intros batch' Hb'.
  by apply audited_commit; [|apply length_table_tag].
Qed.

Lemma audited_drop_range_index table column : audited (B := B) (drop_range_index table column).
Proof.
  unfold drop_range_index. do 2 audit_step. audit_step; [audit_step|].
  eapply audited_bind; [by apply (quietly_gets _ (λ _, True))|]. intros m _. cbv zeta.
  eapply audited_bind; [apply quietly_add_schema; auto with data_keys|]. intros batch Hb.
  by apply audited_commit; [|apply length_table_tag].
Qed.

Lemma audited_drop_table name : audited (B := B) (drop_table name).
Proof.
  unfold drop_table. audit_step.
  eapply audited_bind; [by apply (quietly_gets _ (λ _, True))|]. intros m _.
  eapply audited_bind.
  { apply quietly_foldM with (I := data_batch); [auto with data_keys|]. intros batch p Hp Hb.
    eapply quietly_bind; [apply quietly_scan_store|].
    - intros r. rewrite !elem_of_cons in Hp.
      destruct Hp as [-> | [-> | [-> | Hp]]]; [auto with data_keys..|by apply not_elem_of_nil in Hp].
    - intros l Hl. by apply quietly_ret, data_batch_deletes. }
  intros batch Hb. cbv zeta. apply audited_commit; [auto with data_keys|apply length_table_tag].
Qed.

Lemma quietly_row_entries batch table maintained row id :
  data_batch batch → quietly (B := B) (add_row_entries batch table maintained row id) data_batch.
Proof.
  intros Hb. apply quietly_foldM; [done|]. intros b col _ Hb'.
  case_match; [by apply quietly_ret|by apply quietly_add_index_entry].
Qed.

Lemma quietly_insert_rows table maintained id rows :
  quietly (B := B) (insert_rows table maintained id rows) (λ bi, data_batch bi.1).
Proof.
  apply quietly_foldM; [apply data_batch_new|]. intros [b i] row _ Hb.
  eapply quietly_bind; [by apply (quietly_gets _ (λ _, True))|]. intros m _.
  eapply quietly_bind; [apply quietly_add_row; [exact Hb|auto with data_keys]|]. intros b1 Hb1.
  eapply quietly_bind; [by apply quietly_row_entries|]. intros b2 Hb2. by apply quietly_ret.
Qed.

Lemma audited_insert table columns rows : audited (B := B) (insert table columns rows).
Proof.
  unfold insert. do 4 audit_step.
  eapply audited_bind; [apply quietly_insert_rows|]. intros [b id] Hb.
  eapply audited_bind; [by apply quietly_add_seq|]. intros b1 Hb1. cbv zeta.
  eapply audited_bind.
  { apply quietly_foldM with (I := data_batch); [exact Hb1|]. intros b2 col _ Hb2.
    eapply quietly_bind; [by apply (quietly_reads _ (λ _, True))|]. intros es _.
    by apply quietly_add_range_blob. }
  intros b2 Hb2. by apply audited_commit_table.
Qed.

Lemma quietly_update_row table maintained writes change :
  data_batch writes → data_key change.1.1 →
  quietly (B := B) (update_row table maintained writes change) data_batch.
Proof.
  destruct change as [[key old] new]. intros Hw Hk. unfold update_row.
  eapply quietly_bind; [|intros b Hb; by apply quietly_add_row].
  apply quietly_foldM; [done|]. intros b col _ Hb.
  case_match; [by apply quietly_ret|].
  eapply quietly_bind with (P := data_batch).
  - case_match; [by apply quietly_ret|by apply quietly_remove_index_entry].
  - intros b1 Hb1. case_match; [by apply quietly_ret|by apply quietly_add_index_entry].
Qed.

(** The candidates of a statement that satisfy its predicate. *)
Lemma audited_matching {A} table schema f (k : list (bytes * list Value) → M B A) :
  (∀ kept, row_keys kept → audited (k kept)) →
  audited (candidates ← candidate_rows table schema f;
           kept ← lift (filter_rows f candidates); k kept).
Proof.
  intros Hk. eapply audited_bind; [apply (quietly_candidate_rows (btable := btable))|]. intros rows Hrows.
  eapply audited_bind; [apply quietly_lift; intros kept; by apply filter_rows_keys|]. exact Hk.
Qed.

Lemma audited_update table assignments predicate : audited (B := B) (update table assignments predicate).
Proof.
  unfold update. do 3 audit_step. apply audited_matching. intros kept Hkept. cbv zeta. audit_step.
  eapply audited_bind.
  { apply quietly_foldM with (I := data_batch); [auto with data_keys|]. intros w c Hc Hw.
    apply quietly_update_row; [done|]. apply list_elem_of_fmap in Hc as ([key row] & -> & Hin).
    unfold row_keys in Hkept. rewrite list.Forall_forall in Hkept. exact (Hkept _ Hin). }
  intros w Hw. eapply audited_bind.
  { apply quietly_foldM with (I := data_batch); [exact Hw|]. intros w1 col _ Hw1.
    case_match; [by apply quietly_ret|].
    eapply quietly_bind; [by apply (quietly_reads _ (λ _, True))|]. intros es _.
    by apply quietly_add_range_blob. }
  intros w1 Hw1. by apply audited_commit_table.
Qed.

Lemma quietly_delete_row table maintained writes doomed :
  data_batch writes → data_key doomed.1 →
  quietly (B := B) (delete_row table maintained writes doomed) data_batch.
Proof.
  destruct doomed as [key row]. intros Hw Hk. unfold delete_row.
  eapply quietly_bind with (P := data_batch); [|intros b Hb; by apply quietly_ret, data_batch_delete].
  apply quietly_foldM; [done|]. intros b col _ Hb.
  case_match; [by apply quietly_ret|by apply quietly_remove_index_entry].
Qed.

Lemma audited_delete table predicate : audited (B := B) (delete table predicate).
Proof.
  unfold delete. do 2 audit_step. apply audited_matching. intros doomed Hdoomed.
  eapply audited_bind.
  { apply quietly_foldM with (I := data_batch); [auto with data_keys|]. intros w d Hd Hw.
    apply quietly_delete_row; [done|]. unfold row_keys in Hdoomed.
    rewrite list.Forall_forall in Hdoomed. by apply Hdoomed. }
  intros w Hw. eapply audited_bind.
  { apply quietly_foldM with (I := data_batch); [exact Hw|]. intros w1 col _ Hw1.
    case_match; [by apply quietly_ret|].
    eapply quietly_bind; [by apply (quietly_reads _ (λ _, True))|]. intros es _.
    by apply quietly_add_range_blob. }
  intros w1 Hw1. by apply audited_commit_table.
Qed.

Lemma quietly_select table projection predicate group_by having order_by limit :
  quietly (B := B) (select table projection predicate group_by having order_by limit) (λ _, True).
Proof.
  unfold select. eapply quietly_bind; [by apply (quietly_reads _ (λ _, True))|]. intros schema _.
  eapply quietly_bind; [by apply (quietly_lift _ (λ _, True))|]. intros f _. cbv zeta.
  assert (Hc : quietly (B := B) (candidate_rows table schema f) (λ _, True))
    by (eapply quietly_mono; [apply (quietly_candidate_rows (btable := btable))|done]).
  destruct projection as [|names|items].
  3: { destruct order_by; [apply quietly_fail|]. eapply quietly_bind; [exact Hc|]. intros rows _.
       do 2 (eapply quietly_bind; [by apply (quietly_lift _ (λ _, True))|]; intros ? _).
       by apply quietly_ret. }
  all: do 2 (eapply quietly_bind; [by apply (quietly_lift _ (λ _, True))|]; intros ? _);
    (eapply quietly_bind; [exact Hc|]; intros rows _);
    do 2 (eapply quietly_bind; [by apply (quietly_lift _ (λ _, True))|]; intros ? _);
    by apply quietly_ret.
Qed.

(** A statement that is not transaction control. *)
Definition is_txn_control (st : Statement) : bool :=
  match st with Begin | Commit | Rollback => true | _ => false end.

Lemma audited_statement st : is_txn_control st = false → audited (B := B) (execute_statement st).
Proof.
  destruct st as [name cols|name|t c []|t c []|t c rows|p t pr g h o l|t a p|t p|inner| | |];
    intros Htx; try done; cbn [execute_statement].
  - apply audited_create_table.
  - apply audited_drop_table.
  - apply audited_create_range_index.
  - apply audited_create_index.
  - apply audited_drop_range_index.
  - apply audited_drop_index.
  - apply audited_insert.
  - eapply audited_quiet, quietly_select.
  - apply audited_update.
  - apply audited_delete.
  - apply (audited_quiet _ (λ _, True)). by apply quietly_reads.
Qed.
End handlers.
