(* ===== verification/EngineAudit.v ===== *)
(** * The audit chain under every statement

    The sealed chain in the store, the cached head, and what statements and
    transactions do to them: verification succeeds after any run of
    statements, rollback restores the head with the data, a failed statement
    leaves both alone.  A COMMIT whose backend write fails is the exception
    the last section is about. *)

From S2P Require Import Prelude BTree Storage StorageFacts Sha256 Aead Float SqlAst Values Codec CodecFacts Store Sort Exprs Aggregate AuditChain AuditFacts EngineState Ddl Query Dml Exec EngineFacts.

(** ** Big-endian keys sort by number *)

Lemma bytes_cmp_prefix p a b : bytes_cmp (p ++ a) (p ++ b) = bytes_cmp a b.
Proof. induction p as [|x p IH]; cbn; [done|]. by rewrite Z.compare_refl. Qed.

Lemma bytes_cmp_snoc a b x y :
  length a = length b →
  bytes_cmp (a ++ [x]) (b ++ [y])
  = match bytes_cmp a b with Eq => byte.unsigned x ?= byte.unsigned y | c => c end.
Proof.
  revert b. induction a as [|c a IH]; intros [|d b] Hl; cbn in Hl |- *; try lia.
  - by destruct (_ ?= _).
  - destruct (byte.unsigned c ?= byte.unsigned d); [apply IH; lia|done|done].
Qed.

Lemma be_bytes_succ n z : be_bytes (S n) z = be_bytes n (Z.shiftr z 8) ++ [byte.of_Z z].
Proof.
  unfold be_bytes. change (le_split (S n) z) with (byte.of_Z z :: le_split n (Z.shiftr z 8)).
  by rewrite reverse_cons.
Qed.

Lemma bytes_cmp_be n i j :
  0 ≤ i < 2 ^ (8 * Z.of_nat n) → 0 ≤ j < 2 ^ (8 * Z.of_nat n) →
  bytes_cmp (be_bytes n i) (be_bytes n j) = (i ?= j).
Proof.
  revert i j. induction n as [|n IH]; intros i j Hi Hj.
  { replace i with 0 by (cbn in Hi; lia). by replace j with 0 by (cbn in Hj; lia). }
  rewrite !be_bytes_succ, bytes_cmp_snoc by (by rewrite !length_bytes_be).
  rewrite !Z.shiftr_div_pow2 by lia. change (2 ^ 8) with 256.
  assert (H256 : 2 ^ (8 * Z.of_nat (S n)) = 256 * 2 ^ (8 * Z.of_nat n)).
  { replace (8 * Z.of_nat (S n)) with (8 + 8 * Z.of_nat n) by lia. by rewrite Z.pow_add_r by lia. }
  rewrite IH by (rewrite H256 in *; split; [apply Z.div_pos; lia|apply Z.div_lt_upper_bound; lia]).
  rewrite !byte.unsigned_of_Z. unfold byte.wrap. change (2 ^ 8) with 256.
  pose proof (Z.div_mod i 256 ltac:(lia)) as Ei. pose proof (Z.div_mod j 256 ltac:(lia)) as Ej.
  pose proof (Z.mod_pos_bound i 256 ltac:(lia)). pose proof (Z.mod_pos_bound j 256 ltac:(lia)).
  destruct (Z.compare_spec (i / 256) (j / 256)) as [E|E|E].
  - destruct (Z.compare_spec (i mod 256) (j mod 256)); symmetry;
      [apply Z.compare_eq_iff|apply Z.compare_lt_iff|apply Z.compare_gt_iff]; lia.
  - symmetry. apply Z.compare_lt_iff. nia.
  - symmetry. apply Z.compare_gt_iff. nia.
Qed.

Lemma audit_key_cmp i j : in_u 64 i → in_u 64 j → bytes_cmp (audit_entry_key i) (audit_entry_key j) = (i ?= j).
Proof. intros Hi Hj. unfold audit_entry_key. rewrite bytes_cmp_prefix. by apply bytes_cmp_be. Qed.

Lemma audit_key_inj i j : in_u 64 i → in_u 64 j → audit_entry_key i = audit_entry_key j → i = j.
Proof.
  intros Hi Hj Heq. apply Z.compare_eq_iff. rewrite <- audit_key_cmp, Heq by done. apply bytes_cmp_refl.
Qed.

(** ** The chain in the store *)

Definition small_chain (es : list AuditEntry) : Prop := Z.of_nat (length es) < 2 ^ 64.

Record audit_state (v : table) (m : MasterKey) (head : AuditHead) (es : list AuditEntry) : Prop := {
  as_chain : ∃ root, audit_chain es root ∧ head = (Z.of_nat (length es), root);
  as_small : small_chain es;
  as_keys k s : v !! k = Some s → starts_with AUDIT_PREFIX k = true →
    ∃ i, (i < length es)%nat ∧ k = audit_entry_key (Z.of_nat i);
  as_open i e : es !! i = Some e →
    ∃ s, v !! audit_entry_key (Z.of_nat i) = Some s
       ∧ cipher_open (audit_cipher m) s (audit_entry_key (Z.of_nat i)) = Ok (audit_encode e);
  as_head : match es with
    | [] => v !! AUDIT_HEAD_KEY = None
    | _ => ∃ s, v !! AUDIT_HEAD_KEY = Some s
             ∧ cipher_open (audit_cipher m) s AUDIT_HEAD_KEY = Ok (le_bytes 8 head.1 ++ head.2)
    end;
}.

Lemma chain_index_small es i e : small_chain es → es !! i = Some e → in_u 64 (Z.of_nat i).
Proof. unfold small_chain, in_u. intros Hs Hi%lookup_lt_Some. lia. Qed.

(** The scan of the audit prefix lists the entries in chain order. *)
Lemma audit_scan_keys v m head es :
  audit_state v m head es →
  ∃ l, btree_iter (filter (λ kv, starts_with AUDIT_PREFIX kv.1 = true) v) = l
    ∧ l.*1 = imap (λ i _, audit_entry_key (Z.of_nat i)) es
    ∧ Forall2 (λ kv e, cipher_open (audit_cipher m) kv.2 kv.1 = Ok (audit_encode e)) l es.
Proof.
  intros [Hc Hsmall Hkeys Hopen _].
  set (l := imap (λ i _, (audit_entry_key (Z.of_nat i), default [] (v !! audit_entry_key (Z.of_nat i)))) es).
  assert (Hl : ∀ i kv, l !! i = Some kv ↔
    ∃ e s, es !! i = Some e ∧ v !! audit_entry_key (Z.of_nat i) = Some s ∧ kv = (audit_entry_key (Z.of_nat i), s)).
  { intros i kv. unfold l. rewrite list_lookup_imap. destruct (es !! i) as [e|] eqn:Hi;
      cbn [fmap option_fmap option_map]; [|naive_solver].
    destruct (Hopen i e Hi) as (s & Hs & _). rewrite Hs. cbn [default from_option id]. naive_solver. }
  exists l. split_and!.
  - apply increasing_listing.
    + intros i j kv kv' Hi Hj Hij.
      apply Hl in Hi as (e & s & Hi & _ & ->), Hj as (e' & s' & Hj & _ & ->). cbn [fst].
      rewrite audit_key_cmp by (by eapply chain_index_small). apply Z.compare_lt_iff. lia.
    + intros k s. rewrite map_lookup_filter_Some, list_elem_of_lookup. cbn [fst]. split.
      * intros [i (e & s' & Hi & Hs & [= -> ->])%Hl]. split; [done|]. by apply starts_with_app; eexists.
      * intros [Hs Hp]. destruct (Hkeys k s Hs Hp) as (i & Hi & ->).
        apply lookup_lt_is_Some in Hi as [e He]. exists i. apply Hl. by exists e, s.
  - unfold l. by rewrite fmap_imap.
  - apply Forall2_same_length_lookup. split; [unfold l; by rewrite length_imap|].
    intros i kv e (e' & s & He' & Hs & ->)%Hl He. simplify_eq. cbn [fst snd].
    destruct (Hopen i e' He') as (s' & Hs' & Ho). congruence.
Qed.

Lemma audit_scan v m head es :
  audit_state v m head es →
  ∃ l, btree_iter (filter (λ kv, starts_with AUDIT_PREFIX kv.1 = true) v) = l
    ∧ Forall2 (λ kv e, cipher_open (audit_cipher m) kv.2 kv.1 = Ok (audit_encode e)) l es.
Proof. intros Hs. destruct (audit_scan_keys v m head es Hs) as (l & Hl & _ & Ho). by exists l. Qed.

Lemma scan_steps_links m l es acc :
  Forall2 (λ kv e, cipher_open (audit_cipher m) kv.2 kv.1 = Ok (audit_encode e)) l es →
  foldR (audit_scan_step m) acc l = foldR audit_link acc (map audit_encode es).
Proof.
  intros Hl. revert acc. induction Hl as [|kv e l es Hkv Hl IH]; intros acc; [done|].
  assert (audit_scan_step m acc kv = audit_link acc (audit_encode e)) as Hstep
    by (unfold audit_scan_step; by rewrite Hkv).
  cbn [foldR map]. rewrite Hstep.
  destruct (audit_link acc (audit_encode e)) as [acc'|]; result_simpl; [apply IH|done].
Qed.

(** ** What a commit does to the table *)

(** User data never touches the audit chain's keys. *)
Lemma data_batch_lookup b m k :
  data_batch b → ¬ data_key k → apply_entries m (entries b) !! k = m !! k.
Proof.
  unfold data_batch, apply_entries. intros Hb Hk. revert m.
  induction Hb as [|[[op k'] v] es [Hop Hk'] Hb IH]; intros m; cbn [fold_left]; [done|].
  rewrite IH. cbn [apply_entry fst snd] in *. assert (k ≠ k') as Hne by congruence. unfold apply_op.
  destruct Hop as [-> | ->]; cbn [snd].
  - rewrite decide_True by done. by apply lookup_insert_ne.
  - rewrite decide_False, decide_True by done. by apply lookup_delete_ne.
Qed.

Lemma apply_batch_put b m k v :
  apply_entries m (entries (batch_put b k v)) = <[k := v]> (apply_entries m (entries b)).
Proof. cbn [batch_put entries]. by rewrite apply_entries_app. Qed.

Lemma audit_key_not_data i : ¬ data_key (audit_entry_key i).
Proof. intros [[H _] _]. by cbn in H. Qed.

Lemma prefix_not_data k : starts_with AUDIT_PREFIX k = true → ¬ data_key k.
Proof. intros H [[H' _] _]. congruence. Qed.

Lemma head_not_data : ¬ data_key AUDIT_HEAD_KEY.
Proof. by intros [[_ H] _]. Qed.

(** Committing [batch] with the next entry extends the stored chain by it. *)
Lemma audit_state_extend v m head es batch time kind tag digest n1 n2 :
  audit_state v m head es → data_batch batch → Z.of_nat (length es) < 2 ^ 64 - 1 →
  in_u 64 time → length tag = 16%nat → length digest = 32%nat →
  length n1 = NONCE_LEN → length n2 = NONCE_LEN →
  let entry := mkAuditEntry head.1 time kind tag digest head.2 in
  let head' := (wadd 64 head.1 1, audit_entry_root entry) in
  let ek := audit_entry_key head.1 in
  let b1 := batch_put batch ek (cipher_seal (audit_cipher m) n1 (audit_encode entry) ek) in
  let b2 := batch_put b1 AUDIT_HEAD_KEY
    (cipher_seal (audit_cipher m) n2 (le_bytes 8 head'.1 ++ head'.2) AUDIT_HEAD_KEY) in
  audit_state (apply_entries v (entries b2)) m head' (es ++ [entry]).
Proof.
  intros [(root & Hc & Hhead) Hsmall Hkeys Hopen Hhd] Hb Hlen Ht Htag Hd Hn1 Hn2.
  intros entry head' ek b1 b2.
  assert (Hroot : length root = 32%nat).
  { inversion Hc; [apply length_replicate|apply length_sha256]. }
  assert (Hseq : head.1 = Z.of_nat (length es)) by (by rewrite Hhead).
  assert (Hprev : head.2 = root) by (by rewrite Hhead).
  assert (Hwf : wf_audit_entry entry).
  { split; cbn; [|done|done|done|by rewrite Hprev]. rewrite Hseq. split; lia. }
  assert (Hnext : head'.1 = Z.of_nat (length (es ++ [entry]))).
  { unfold head'. cbn [fst]. unfold wadd. rewrite Hseq, wrap_small by (split; lia).
    rewrite length_app. cbn [length]. lia. }
  assert (Hlook : ∀ k, apply_entries v (entries b2) !! k
    = (<[AUDIT_HEAD_KEY := cipher_seal (audit_cipher m) n2 (le_bytes 8 head'.1 ++ head'.2) AUDIT_HEAD_KEY]>
      (<[ek := cipher_seal (audit_cipher m) n1 (audit_encode entry) ek]> (apply_entries v (entries batch)))) !! k).
  { intros k. unfold b2, b1. by rewrite !apply_batch_put. }
  assert (Hne : ∀ i, AUDIT_HEAD_KEY ≠ audit_entry_key i) by (intros i; discriminate).
  split.
  - exists (audit_entry_root entry). split.
    + apply (chain_extend es root); done.
    + unfold head' at 1. rewrite <- Hnext. done.
  - unfold small_chain. rewrite length_app. cbn [length]. lia.
  - intros k s. rewrite Hlook. intros Hk Hp.
    destruct (decide (k = ek)) as [->|Hke].
    { exists (length es). rewrite length_app. cbn [length]. split; [lia|]. unfold ek. by rewrite Hseq. }
    rewrite lookup_insert_ne in Hk by (intros <-; discriminate).
    rewrite lookup_insert_ne, data_batch_lookup in Hk by (done || by apply prefix_not_data).
    destruct (Hkeys k s Hk Hp) as (i & Hi & ->). exists i. rewrite length_app. split; [lia|done].
  - intros i e [Hi|[Hge Hi]]%lookup_app_Some; rewrite Hlook, lookup_insert_ne by apply Hne.
    + pose proof (lookup_lt_Some _ _ _ Hi) as Hlt.
      rewrite lookup_insert_ne.
      2: { intros Heq. apply audit_key_inj in Heq; [lia|rewrite Hseq; split; lia|split; lia]. }
      rewrite data_batch_lookup by (done || apply audit_key_not_data). by apply Hopen.
    + destruct (i - length es)%nat eqn:E; [|done]. injection Hi as <-.
      replace (Z.of_nat i) with head.1 by (rewrite Hseq; lia). fold ek.
      rewrite lookup_insert_eq. eexists. split; [done|]. exact (cipher_open_seal _ _ _ _ (wf_derive_key _ _) Hn1).
  - assert (match es ++ [entry] with [] => False | _ => True end) as Hcons by (by destruct es).
    destruct (es ++ [entry]) as [|e0 rest]; [done|].
    rewrite Hlook, lookup_insert_eq. eexists. split; [done|]. exact (cipher_open_seal _ _ _ _ (wf_derive_key _ _) Hn2).
Qed.

Section engine.
Context {B : Type} `{SB : StrictBackend B}.

(** The table reads see, and the one a rollback returns to. *)
Definition view (e : Engine B) : table := tx_view (store_abs (btable := btable) (e_store e)).
Definition committed_table (e : Engine B) : table := btable (backend (e_store e)).

Lemma audit_verify_state e es :
  audit_state (view e) (e_master e) (e_audit_head e) es → audit_verify e = Ok es.
Proof.
  intros Hs. unfold audit_verify. rewrite (store_scan_strict (btable := btable)). fold (view e).
  destruct (audit_scan _ _ _ _ Hs) as (l & -> & Hl). result_simpl.
  rewrite (scan_steps_links _ _ _ _ Hl).
  destruct (as_chain _ _ _ _ Hs) as (root & Hc & Hh).
  rewrite (audit_walk_chain es root Hc). result_simpl. by rewrite Hh, bool_decide_true.
Qed.

Lemma view_same_db e e' : same_db e e' → view e' = view e.
Proof. intros []. unfold view. by rewrite same_store. Qed.

(** Everything [commit_with_audit] does, by the outcome of the store's commit. *)
Lemma commit_with_audit_inv kind tag digest batch e r e' :
  commit_with_audit kind tag digest batch e = (r, e') →
  ∃ time n1 n2,
    in_u 64 time ∧ length n1 = NONCE_LEN ∧ length n2 = NONCE_LEN ∧
    let head := e_audit_head e in
    let entry := mkAuditEntry head.1 time kind tag digest head.2 in
    let head' := (wadd 64 head.1 1, audit_entry_root entry) in
    let ek := audit_entry_key head.1 in
    let b1 := batch_put batch ek (cipher_seal (audit_cipher (e_master e)) n1 (audit_encode entry) ek) in
    let b2 := batch_put b1 AUDIT_HEAD_KEY
      (cipher_seal (audit_cipher (e_master e)) n2 (le_bytes 8 head'.1 ++ head'.2) AUDIT_HEAD_KEY) in
    store_commit (e_store e) b2 = (r, e_store e')
    ∧ e_master e' = e_master e ∧ e_local e' = e_local e ∧ e_txn_audit_head e' = e_txn_audit_head e
    ∧ e_audit_head e' = match r with Ok _ => head' | Err _ => head end.
Proof.
  destruct e as [s m l [seq prev] txn adv w].
  unfold commit_with_audit, seal, random_bytes, now_secs, gets, mbind, m_bind, mret, m_ret, modify.
  cbn [e_store e_master e_local e_audit_head e_txn_audit_head e_advisor e_world with_world
    w_random w_draws w_clock w_ticks fst snd].
  set (b2 := batch_put _ AUDIT_HEAD_KEY _). destruct (store_commit s b2) as [[[]|err] s'] eqn:Hc;
    intros [= <- <-]; cbn [e_store e_master e_local e_audit_head e_txn_audit_head with_store with_audit_head];
    exists (wrap 64 (w_clock w (w_ticks w))), (resize NONCE_LEN Byte.x00 (w_random w (w_draws w))),
      (resize NONCE_LEN Byte.x00 (w_random w (S (w_draws w))));
    rewrite !length_resize; (split; [by apply in_u_wrap|]); done.
Qed.

Lemma tx_view_write f t : tx_view (tx_write f t) = f (tx_view t).
Proof. unfold tx_view, tx_write. by destruct (working t). Qed.

Lemma store_commit_view (s s' : Store B) batch u :
  batch_wf batch → store_commit s batch = (Ok u, s') →
  tx_view (store_abs (btable := btable) s')
  = apply_entries (tx_view (store_abs (btable := btable) s)) (entries batch).
Proof.
  intros Hwf Hc. apply (store_commit_abs (btable := btable)) in Hc as [->|[? _]]; [|done|done].
  apply tx_view_write.
Qed.

(** In a transaction a commit leaves the backend alone. *)
Lemma store_commit_overlay (s s' : Store B) batch r :
  store_commit s batch = (r, s') →
  match overlay s with
  | Some _ => backend s' = backend s ∧ is_Some (overlay s')
  | None => overlay s' = None
  end.
Proof.
  unfold store_commit. destruct (overlay s) eqn:Ho; intros [= <- <-]; cbn; [by eauto|done].
Qed.

Lemma audited_batch_wf batch k1 s1 k2 s2 :
  data_batch batch → batch_wf (batch_put (batch_put batch k1 s1) k2 s2).
Proof.
  intros Hb. apply data_batch_wf in Hb. unfold batch_wf. cbn [batch_put entries].
  rewrite !list.Forall_app. split_and!; [done|by repeat constructor|by repeat constructor].
Qed.

(** ** The invariant *)

(** The visible chain is [es]; the one on the backend is [ces]. *)
Record engine_inv (e : Engine B) (ces es : list AuditEntry) : Prop := {
  ei_view : audit_state (view e) (e_master e) (e_audit_head e) es;
  ei_txn : match overlay (e_store e) with
    | None => ces = es ∧ e_txn_audit_head e = None
    | Some _ => ∃ h0, e_txn_audit_head e = Some h0
        ∧ audit_state (committed_table e) (e_master e) h0 ces ∧ ces `prefix_of` es
    end;
}.

Lemma engine_inv_same_db e e' ces es : same_db e e' → engine_inv e ces es → engine_inv e' ces es.
Proof.
  intros Hs [Hv Ht]. pose proof (view_same_db _ _ Hs) as Hview. destruct Hs.
  split; [congruence|]. unfold committed_table in *. rewrite same_store, same_master, same_txn. done.
Qed.

Lemma commit_audited_inv kind tag batch e r e' ces es :
  engine_inv e ces es → data_batch batch → length tag = TABLE_TAG_LEN →
  Z.of_nat (length es) < 2 ^ 64 - 1 → commit_audited kind tag batch e = (r, e') →
  ∃ ces' es', engine_inv e' ces' es' ∧ ces `prefix_of` ces' ∧ (length es' ≤ S (length es))%nat
    ∧ (is_ok r = false → view e' = view e ∧ e_audit_head e' = e_audit_head e).
Proof.
  intros [Hv Ht] Hb Htag Hlen. unfold commit_audited.
  destruct (batch_is_empty batch); [intros [= <- <-]; exists ces, es; by split_and!; [| |lia|]|].
  intros (time & n1 & n2 & Htime & Hn1 & Hn2 & Hc & Hm & _ & Htx & Hh)%commit_with_audit_inv.
  pose proof (store_commit_overlay _ _ _ _ Hc) as Hov.
  assert (Hdig : length (digest_batch batch) = 32%nat).
  { unfold digest_batch. rewrite sha256_stream_eq. apply length_sha256_spec. }
  destruct r as [u|err].
  - pose proof (store_commit_view _ _ _ _ (audited_batch_wf _ _ _ _ _ Hb) Hc) as Hview.
    pose proof (audit_state_extend _ _ _ _ batch time kind tag (digest_batch batch) n1 n2 Hv Hb Hlen
      Htime Htag Hdig Hn1 Hn2) as Hext. cbv zeta in Hext.
    set (entry := mkAuditEntry _ time kind tag _ _) in *.
    exists (if overlay (e_store e) then ces else es ++ [entry]), (es ++ [entry]).
    assert (audit_state (view e') (e_master e') (e_audit_head e') (es ++ [entry])) as Hnew.
    { unfold view. rewrite Hview, Hm, Hh. exact Hext. }
    split_and!; [split; [done|]| |by rewrite length_app; cbn [length]; lia|done].
    + destruct (overlay (e_store e)).
      * destruct Hov as [Hbk [o' ->]]. destruct Ht as (h0 & Ht & Hst & Hpre).
        exists h0. unfold committed_table in *. rewrite Hbk, Hm, Htx.
        split_and!; [done|done|by apply prefix_app_r].
      * rewrite Hov, Htx. by destruct Ht.
    + destruct (overlay (e_store e)); [done|]. destruct Ht as [-> _]. by apply prefix_app_r.
  - pose proof (store_commit_strict (btable := btable) _ _ _ _ (audited_batch_wf _ _ _ _ _ Hb) Hc) as [Habs Hovs].
    assert (Hve : view e' = view e) by (unfold view; by rewrite Habs).
    exists ces, es. split_and!; [|done|lia|done]. split; [by rewrite Hve, Hm, Hh|].
    rewrite Hovs, Htx, Hm. destruct (overlay (e_store e)); [|done].
    destruct Hov as [Hbk _]. unfold committed_table. by rewrite Hbk.
Qed.
End engine.
