(* ===== verification/EngineTxn.v ===== *)
(** * Transactions and statements over the audit chain

    What BEGIN, COMMIT, ROLLBACK and every other statement do to the engine's
    invariant [engine_inv]: the visible chain, the committed chain and the
    head that a rollback returns to. *)

From S2P Require Import Prelude BTree Storage StorageFacts Aead Float SqlAst Values Codec CodecFacts Store Sort Exprs Aggregate AuditChain AuditFacts EngineState Ddl Query Dml Exec EngineFacts EngineAudit.

Section engine.
Context {B : Type} `{SB : StrictBackend B}.
Implicit Type e : Engine B.
#[local] Notation view := (view (btable := btable)).
#[local] Notation committed_table := (committed_table (btable := btable)).
#[local] Notation engine_inv := (engine_inv (btable := btable)).

(** ** Transaction control, by cases *)

Lemma begin_inv e r e' :
  begin_transaction e = (r, e') →
  match overlay (e_store e) with
  | Some _ => is_ok r = false ∧ e' = e
  | None => r = Ok QBegin
      ∧ e' = with_store (with_txn_audit_head e (Some (e_audit_head e))) (mkStore (backend (e_store e)) (Some ∅))
  end.
Proof.
  destruct e as [[b [o|]] m l h t a w]; unfold begin_transaction, gets, modify, mbind, m_bind, mret, m_ret;
    cbn; by intros [= <- <-].
Qed.

Lemma rollback_inv e r e' :
  rollback_transaction e = (r, e') →
  match overlay (e_store e) with
  | None => is_ok r = false ∧ e' = e
  | Some _ => r = Ok QRolledBack
      ∧ e' = mkEngine (mkStore (backend (e_store e)) None) (e_master e) (e_local e)
               (default (e_audit_head e) (e_txn_audit_head e)) None (e_advisor e) (e_world e)
  end.
Proof.
  destruct e as [[b [o|]] m l h [t|] a w]; unfold rollback_transaction, gets, modify, mbind, m_bind, mret, m_ret;
    cbn; by intros [= <- <-].
Qed.

Lemma commit_inv e r e' :
  commit_transaction e = (r, e') →
  match overlay (e_store e) with
  | None => is_ok r = false ∧ e' = e
  | Some _ => ∃ rc s', store_commit_transaction (e_store e) = (rc, s') ∧
      match rc with
      | Ok _ => r = Ok QCommitted ∧ e' = with_txn_audit_head (with_store e s') None
      | Err err => r = Err err ∧ e' = with_store e s'
      end
  end.
Proof.
  unfold commit_transaction, gets, modify, mbind, m_bind, mret, m_ret, store_in_transaction. cbn [id].
  destruct (overlay (e_store e)) eqn:Ho; cbn [negb bool_decide].
  - destruct (store_commit_transaction (e_store e)) as [[u|err] s'] eqn:Hc; intros [= <- <-]; eexists _, _; done.
  - by intros [= <- <-].
Qed.

(** ** The invariant under transaction control *)

Lemma view_overlay e o :
  overlay (e_store e) = Some o → view e = overlay_view o (committed_table e).
Proof. intros Ho. unfold view, tx_view, store_abs. by rewrite Ho. Qed.

Lemma view_no_overlay e : overlay (e_store e) = None → view e = committed_table e.
Proof. intros Ho. unfold view, tx_view, store_abs. by rewrite Ho. Qed.

Lemma begin_engine_inv e r e' ces es :
  engine_inv e ces es → begin_transaction e = (r, e') → engine_inv e' ces es.
Proof.
  intros Hi Hb. pose proof Hi as [Hv Ht]. apply begin_inv in Hb.
  destruct (overlay (e_store e)) as [o|] eqn:Ho; destruct Hb as [_ ->]; [done|].
  destruct Ht as [-> _]. rewrite view_no_overlay in Hv by done.
  split; cbn [e_store e_master e_audit_head e_txn_audit_head overlay with_store with_txn_audit_head].
  - rewrite (view_overlay _ ∅) by done. by rewrite overlay_view_empty.
  - exists (e_audit_head e). done.
Qed.

Lemma rollback_engine_inv e r e' ces es :
  engine_inv e ces es → rollback_transaction e = (r, e') → ∃ es', engine_inv e' ces es' ∧ (length es' ≤ length es)%nat.
Proof.
  intros Hi Hb. pose proof Hi as [Hv Ht]. apply rollback_inv in Hb.
  destruct (overlay (e_store e)) as [o|] eqn:Ho; destruct Hb as [_ ->]; [|by eauto].
  destruct Ht as (h0 & -> & Hst & Hpre). exists ces. split; [|by apply prefix_length].
  split; [|done]. by rewrite view_no_overlay.
Qed.

Lemma commit_engine_inv e r e' ces es :
  engine_inv e ces es → commit_transaction e = (r, e') →
  is_Some (overlay (e_store e)) → is_ok r = true →
  engine_inv e' es es ∧ ces `prefix_of` es.
Proof.
  intros [Hv Ht] Hb [o Ho] Hr. apply commit_inv in Hb. rewrite Ho in Hb, Ht.
  destruct Hb as (rc & s' & Hc & Hrc). destruct Ht as (h0 & _ & _ & Hpre).
  destruct rc as [u|err]; [|by destruct Hrc as [-> _]]. destruct Hrc as [_ ->].
  apply (store_commit_transaction_abs (btable := btable)) in Hc as [Habs|[? _]]; [|done].
  split; [|done]. split; cbn [e_store e_master e_audit_head e_txn_audit_head with_store with_txn_audit_head].
  - unfold EngineAudit.view in Hv |- *. cbn [e_store with_store with_txn_audit_head]. rewrite Habs. exact Hv.
  - unfold store_abs in Habs. cbn in Habs. by destruct (overlay s').
Qed.

(** ** Every statement *)

Lemma statement_inv st e r e' ces es :
  engine_inv e ces es → Z.of_nat (length es) < 2 ^ 64 - 1 → is_txn_control st = false →
  execute_statement st e = (r, e') →
  ∃ ces' es', engine_inv e' ces' es' ∧ ces `prefix_of` ces' ∧ (length es' ≤ S (length es))%nat.
Proof.
  intros Hi Hlen Hst Hr.
  destruct (audited_statement st Hst e r e' Hr) as [Hs|(e1 & kind & tag & batch & rc & Hs & Hb & Htag & Hc & _)].
  - exists ces, es. split_and!; [by eapply engine_inv_same_db|done|lia].
  - pose proof (engine_inv_same_db (btable := btable) _ _ _ _ Hs Hi) as Hi1.
    destruct (commit_audited_inv _ _ _ _ _ _ _ _ Hi1 Hb Htag Hlen Hc) as (ces' & es' & ? & ? & ? & _).
    by exists ces', es'.
Qed.

(** The next statement of a session, whatever it returns; a COMMIT is one that
    the backend took. *)
Inductive engine_step : Engine B → Engine B → Prop :=
| step_statement st e r e' :
    execute_statement st e = (r, e') →
    (st = Commit → is_Some (overlay (e_store e)) → is_ok r = true) →
    engine_step e e'.

Lemma engine_step_inv e e' ces es :
  engine_inv e ces es → Z.of_nat (length es) < 2 ^ 64 - 1 → engine_step e e' →
  ∃ ces' es', engine_inv e' ces' es' ∧ ces `prefix_of` ces' ∧ (length es' ≤ S (length es))%nat.
Proof.
  intros Hi Hlen Hs. inversion Hs as [st e0 r e1 Hr Hcommit]; subst e0 e1.
  destruct (is_txn_control st) eqn:Hst; [|by eapply statement_inv].
  destruct st; try discriminate Hst; cbn [execute_statement] in Hr.
  - exists ces, es. split_and!; [by eapply begin_engine_inv|done|lia].
  - destruct (overlay (e_store e)) as [o|] eqn:Ho.
    + assert (is_Some (overlay (e_store e))) as Hopen by by eexists.
      destruct (commit_engine_inv _ _ _ _ _ Hi Hr Hopen) as [Hi' Hpre]; [apply Hcommit; [done|by eexists]|].
      exists es, es. auto with lia.
    + apply commit_inv in Hr. rewrite Ho in Hr. destruct Hr as [_ ->]. exists ces, es. auto with lia.
  - destruct (rollback_engine_inv _ _ _ _ _ Hi Hr) as (es' & Hi' & Hl). exists ces, es'. auto with lia.
Qed.

Lemma engine_steps_inv n e e' ces es :
  nsteps engine_step n e e' → engine_inv e ces es → Z.of_nat (length es + n) < 2 ^ 64 →
  ∃ ces' es', engine_inv e' ces' es' ∧ ces `prefix_of` ces'.
Proof.
  intros Hn. revert ces es. induction Hn as [e|n e e1 e' Hstep Hn IH]; intros ces es Hi Hlen; [by eauto|].
  destruct (engine_step_inv _ _ _ _ Hi ltac:(lia) Hstep) as (ces1 & es1 & Hi1 & Hpre & Hl).
  destruct (IH ces1 es1 Hi1 ltac:(lia)) as (ces' & es' & Hi' & Hpre').
  exists ces', es'. split; [done|]. by trans ces1.
Qed.

(** A database whose store holds no audit keys starts from the genesis head. *)
Lemma engine_inv_genesis e :
  overlay (e_store e) = None → e_txn_audit_head e = None → e_audit_head e = audit_genesis →
  (∀ k s, committed_table e !! k = Some s → starts_with AUDIT_PREFIX k = false ∧ k ≠ AUDIT_HEAD_KEY) →
  engine_inv e [] [].
Proof.
  intros Ho Htx Hh Hk. split; [|by rewrite Ho]. rewrite view_no_overlay by done. split.
  - exists (zeros 32). split; [constructor|done].
  - done.
  - intros k s Hks Hp. destruct (Hk k s Hks) as [H1 _]. congruence.
  - intros i en Hi. done.
  - destruct (committed_table e !! AUDIT_HEAD_KEY) eqn:E; [|done]. by destruct (Hk _ _ E).
Qed.
End engine.

Section sessions.
Context {B : Type} `{BL : BackendLaws B btable}.

(** The statements of a session one after the other, errors and all. *)
Fixpoint run_each (sts : list Statement) (e : Engine B) : Engine B :=
  match sts with
  | [] => e
  | st :: sts => run_each sts (execute_statement st e).2
  end.

(** The backend takes every COMMIT of the session: one that finds a transaction
    open returns no error. *)
Fixpoint commits_accepted (sts : list Statement) (e : Engine B) : Prop :=
  match sts with
  | [] => True
  | st :: sts =>
      (st = Commit → is_Some (overlay (e_store e)) → is_ok (execute_statement st e).1 = true)
      ∧ commits_accepted sts (execute_statement st e).2
  end.

Lemma accepted_steps sts e : commits_accepted sts e → nsteps engine_step (length sts) e (run_each sts e).
Proof.
  revert e. induction sts as [|st sts IH]; intros e; [constructor|]. intros [Hst Hsts].
  econstructor; [|by apply IH]. econstructor; [apply surjective_pairing|exact Hst].
Qed.

Lemma no_commit_accepted sts e : Commit ∉ sts → commits_accepted sts e.
Proof.
  revert e. induction sts as [|st sts IH]; intros e Hc; [done|].
  apply not_elem_of_cons in Hc as [Hne Hc]. split; [|by apply IH]. intros ->. by destruct Hne.
Qed.

(** What a transaction may change: only its own buffer and the cached head. *)
Record same_committed (e e' : Engine B) : Prop := {
  sc_backend : backend (e_store e') = backend (e_store e);
  sc_open : is_Some (overlay (e_store e'));
  sc_master : e_master e' = e_master e;
  sc_local : e_local e' = e_local e;
  sc_txn : e_txn_audit_head e' = e_txn_audit_head e;
}.

Lemma commit_with_audit_buffered kind tag digest batch e r e' :
  is_Some (overlay (e_store e)) → commit_with_audit kind tag digest batch e = (r, e') → same_committed e e'.
Proof.
  intros [o Ho] (time & n1 & n2 & _ & _ & _ & Hc & Hm & Hl & Htx & _)%commit_with_audit_inv.
  apply store_commit_overlay in Hc. rewrite Ho in Hc. destruct Hc. by split.
Qed.

Lemma statement_buffered st e r e' :
  is_Some (overlay (e_store e)) → is_txn_control st = false →
  execute_statement st e = (r, e') → same_committed e e'.
Proof.
  intros Ho Hst Hr.
  destruct (audited_statement st Hst e r e' Hr) as [[]|(e1 & kind & tag & batch & rc & [] & _ & _ & Hc & _)].
  - split; congruence.
  - unfold commit_audited in Hc. destruct (batch_is_empty batch).
    + injection Hc as _ <-. split; congruence.
    + apply commit_with_audit_buffered in Hc as []; [split; congruence|congruence].
Qed.

Lemma run_each_buffered sts e :
  is_Some (overlay (e_store e)) → forallb (λ st, negb (is_txn_control st)) sts = true →
  same_committed e (run_each sts e).
Proof.
  revert e. induction sts as [|st sts IH]; intros e Ho; [by intros _; split|].
  cbn [forallb run_each]. intros [Hst%negb_true_iff Hsts]%andb_true_iff.
  pose proof (statement_buffered st e _ _ Ho Hst (surjective_pairing _)) as Hs.
  destruct (IH _ (sc_open _ _ Hs) Hsts), Hs. split; congruence.
Qed.
End sessions.
