(* ===== verification/EngineGuarantees.v ===== *)
(** * What the engine promises about its history and its transactions

    The theorems over whole sessions: the audit chain stays verifiable and is
    append-only on the backend, ROLLBACK undoes a transaction exactly, a
    statement that fails changes nothing; and the one case outside them, a
    COMMIT that the backend refuses. *)

From S2P Require Import Prelude BTree Storage StorageFacts Aead Float SqlAst Values Codec CodecFacts Store Sort Exprs Aggregate AuditChain AuditFacts EngineState Ddl Query Dml Exec EngineFacts EngineAudit EngineTxn.

(** An empty database under an arbitrary master key. *)
Definition fresh_engine (ios : list IoOutcome) : Engine LocalBackend :=
  mkEngine (store_local (mkLocal (storage_open []) ios)) (mkMasterKey []) true audit_genesis None
    advisor_default (mkWorld (λ _, []) 0 (λ _, 0) 0).

Lemma fresh_engine_inv ios : engine_inv (btable := local_table) (fresh_engine ios) [] [].
Proof. by apply engine_inv_genesis. Qed.

(** ** A disk that takes every write *)

(** One statement on it: a COMMIT is not refused, and the log holds either what
    it held or one more commit. *)
Lemma statement_on_disk st (e e' : Engine LocalBackend) r :
  lb_outcomes (backend (e_store e)) = [] → execute_statement st e = (r, e') →
  (st = Commit → is_Some (overlay (e_store e)) → is_ok r = true)
  ∧ lb_outcomes (backend (e_store e')) = []
  ∧ (backend (e_store e') = backend (e_store e)
     ∨ ∃ b, batch_wf b ∧ backend_commit (backend (e_store e)) b = (Ok tt, backend (e_store e'))).
Proof.
  intros Hh Hr. destruct (is_txn_control st) eqn:Hst.
  - destruct st; try discriminate Hst; cbn [execute_statement] in Hr.
    + apply begin_inv in Hr. destruct (overlay _); destruct Hr as [_ ->]; (split; [discriminate|by auto]).
    + apply commit_inv in Hr. destruct (overlay (e_store e)) as [o|] eqn:Ho.
      * destruct Hr as (rc & s' & Hc & Hrc).
        destruct (store_commit_transaction_on_disk (e_store e) rc s' Hh Hc) as (-> & Hh' & Hb).
        destruct Hrc as [-> ->]. by split.
      * destruct Hr as [_ ->]. split; [by intros _ [? ?]|by auto].
    + apply rollback_inv in Hr. destruct (overlay _); destruct Hr as [_ ->]; (split; [discriminate|by auto]).
  - split; [intros ->; discriminate Hst|].
    destruct (audited_statement st Hst e r e' Hr) as [Hs|(e1 & kind & tag & batch & rc & Hs & Hb & _ & Hc & _)].
    + rewrite (same_store _ _ Hs). by auto.
    + rewrite <- (same_store _ _ Hs) in Hh |- *. unfold commit_audited in Hc.
      destruct (batch_is_empty batch); [injection Hc as _ <-; by auto|].
      apply commit_with_audit_inv in Hc as (time & n1 & n2 & _ & _ & _ & Hc & _).
      by apply (store_commit_on_disk _ _ _ _ Hh (audited_batch_wf batch _ _ _ _ Hb) Hc).
Qed.

Lemma disk_commits_accepted sts (e : Engine LocalBackend) :
  lb_outcomes (backend (e_store e)) = [] → commits_accepted sts e.
Proof.
  revert e. induction sts as [|st sts IH]; intros e Hh; [done|].
  destruct (statement_on_disk st e _ _ Hh (surjective_pairing _)) as (Hc & Hh' & _). split; [exact Hc|by apply IH].
Qed.

(** ** History *)

(** C1: Whatever statements a session runs, and whether they succeed or fail,
    as long as the backend refuses none of its COMMITs: [audit_verify] accepts
    the visible chain afterwards, and the chain on the backend has only grown:
    entries recorded there stay, in place. The backend is one whose failed
    writes change nothing that reads see. On a local database whose log takes
    every write no COMMIT is refused ([disk_commits_accepted]); after a refused
    one the chain does not verify ([failed_commit_strands_audit_head]). *)
Theorem audit_chain_survives {B} `{StrictBackend B} sts (e : Engine B) ces es :
  engine_inv (btable := btable) e ces es → commits_accepted sts e →
  Z.of_nat (length es + length sts) < 2 ^ 64 →
  ∃ ces' es', engine_inv (btable := btable) (run_each sts e) ces' es' ∧ ces `prefix_of` ces'
    ∧ audit_verify (run_each sts e) = Ok es'.
Proof.
  intros Hi Ha%accepted_steps Hlen.
  destruct (engine_steps_inv _ e _ ces es Ha Hi Hlen) as (ces' & es' & Hi' & Hpre).
  exists ces', es'. split_and!; [done|done|]. by apply audit_verify_state, Hi'.
Qed.

Definition sample_column : ColumnDef := mkColumnDef (bs "id") TyInt false true false false.

Definition sample_session : list Statement :=
  [Begin; CreateTable (bs "t") [sample_column]; Rollback; Begin; CreateTable (bs "u") [sample_column]; Commit].

Lemma audit_chain_survives_witness :
  ∃ ces' es', engine_inv (btable := local_table) (run_each sample_session (fresh_engine [])) ces' es'
    ∧ [] `prefix_of` ces' ∧ audit_verify (run_each sample_session (fresh_engine [])) = Ok es'.
Proof.
  apply (audit_chain_survives sample_session (fresh_engine []) [] []).
  - apply fresh_engine_inv.
  - apply disk_commits_accepted. reflexivity.
  - reflexivity.
Defined.

(** ** Transactions *)

Lemma run_each_snoc {B} `{Backend B} sts st (e : Engine B) :
  run_each (sts ++ [st]) e = (execute_statement st (run_each sts e)).2.
Proof. revert e. induction sts as [|st' sts IH]; intros e; [done|apply IH]. Qed.

(** C8: BEGIN, any statements but COMMIT and ROLLBACK, then ROLLBACK: the store,
    the audit head and the transaction state are exactly what they were. *)
Theorem rollback_restores {B} `{BackendLaws B btable} sts (e : Engine B) :
  overlay (e_store e) = None → e_txn_audit_head e = None →
  forallb (λ st, negb (is_txn_control st)) sts = true →
  same_db e (run_each (Begin :: sts ++ [Rollback]) e).
Proof.
  intros Ho Htx Hsts. cbn [run_each]. set (e1 := (execute_statement Begin e).2).
  assert (He1 : e1 = with_store (with_txn_audit_head e (Some (e_audit_head e))) (mkStore (backend (e_store e)) (Some ∅))).
  { pose proof (begin_inv e _ _ (surjective_pairing (begin_transaction e))) as Hb.
    rewrite Ho in Hb. apply Hb. }
  assert (Ho1 : is_Some (overlay (e_store e1))) by (rewrite He1; by eexists).
  rewrite run_each_snoc. cbn [execute_statement].
  destruct (run_each_buffered sts e1 Ho1 Hsts) as [Hbk [o Ho2] Hm Hl Ht].
  pose proof (rollback_inv _ _ _ (surjective_pairing (rollback_transaction (run_each sts e1)))) as Hr.
  rewrite Ho2 in Hr. destruct Hr as [_ ->].
  assert (backend (e_store e1) = backend (e_store e) ∧ e_master e1 = e_master e ∧ e_local e1 = e_local e
    ∧ e_txn_audit_head e1 = Some (e_audit_head e)) as (Hbk1 & Hm1 & Hl1 & Ht1) by (by rewrite He1).
  split; cbn [e_store e_master e_local e_audit_head e_txn_audit_head]; [|congruence|congruence| |by rewrite Htx].
  - rewrite Hbk, Hbk1. destruct (e_store e). cbn in Ho |- *. by rewrite Ho.
  - by rewrite Ht, Ht1.
Qed.

Lemma rollback_restores_witness :
  same_db (fresh_engine []) (run_each (Begin :: [CreateTable (bs "t") [sample_column]] ++ [Rollback]) (fresh_engine [])).
Proof.
  apply (rollback_restores (btable := local_table) [CreateTable (bs "t") [sample_column]] (fresh_engine []));
    reflexivity.
Defined.

(** C9: A statement other than COMMIT that returns an error leaves the visible
    data, the keys, the audit head and the transaction as they were, also when
    the error came from the backend's write. *)
Theorem failed_statement_changes_nothing {B} `{StrictBackend B} st (e e' : Engine B) err :
  st ≠ Commit → execute_statement st e = (Err err, e') →
  view (btable := btable) e' = view (btable := btable) e
  ∧ e_audit_head e' = e_audit_head e ∧ e_master e' = e_master e
  ∧ e_txn_audit_head e' = e_txn_audit_head e
  ∧ store_in_transaction (e_store e') = store_in_transaction (e_store e).
Proof.
  intros Hne Hr. destruct (is_txn_control st) eqn:Hst.
  - destruct st; try discriminate Hst; cbn [execute_statement] in Hr; [|done|].
    + apply begin_inv in Hr. by destruct (overlay (e_store e)); destruct Hr as [? ->].
    + apply rollback_inv in Hr. by destruct (overlay (e_store e)); destruct Hr as [? ->].
  - destruct (audited_statement st Hst e _ e' Hr) as [[Hs]|(e1 & kind & tag & batch & rc & [Hs] & Hb & _ & Hc & Hrc)].
    { unfold view. by rewrite Hs. }
    destruct rc as [u|err']; [by destruct u|]. unfold commit_audited in Hc.
    destruct (batch_is_empty batch); [done|].
    apply commit_with_audit_inv in Hc as (time & n1 & n2 & _ & _ & _ & Hc & Hm & _ & Htx & Hh).
    apply (store_commit_strict (btable := btable)) in Hc as [Habs Hov]; [|by apply audited_batch_wf].
    unfold view, store_in_transaction. rewrite Habs, Hov, Hm, Htx, Hh, Hs. by split_and!.
Qed.

Lemma failed_statement_changes_nothing_witness :
  let r := execute_statement Rollback (fresh_engine []) in
  r.1 = Err (ESchema "no transaction is open" []) ∧ e_audit_head r.2 = audit_genesis.
Proof.
  intros r. split; [reflexivity|].
  apply (failed_statement_changes_nothing (btable := local_table) Rollback (fresh_engine []) r.2
    (ESchema "no transaction is open" [])); [discriminate|reflexivity].
Defined.

(** C30: A COMMIT that the backend refuses, of a transaction that recorded
    changes, drops the buffered writes but keeps the audit head that counted
    their entries: in the state it leaves, the engine's own verification
    fails and ROLLBACK is refused. (Opening the database again reloads the
    head that was committed.) *)
Theorem failed_commit_strands_audit_head {B} `{StrictBackend B} (e e' : Engine B) ces es err :
  engine_inv (btable := btable) e ces es → ces ≠ es → is_Some (overlay (e_store e)) →
  commit_transaction e = (Err err, e') →
  view (btable := btable) e' = committed_table (btable := btable) e
  ∧ audit_verify e' = Err (EAudit "audit head does not match the recomputed chain" [])
  ∧ rollback_transaction e' = (Err (ESchema "no transaction is open" []), e').
Proof.
  intros Hi Hne [o Ho] Hc. destruct (ei_view _ _ _ Hi) as [(root & Hch & Hhead) _ _ _ _].
  destruct Hi as [_ Ht]. rewrite Ho in Ht. destruct Ht as (h0 & _ & Hst & Hpre).
  apply commit_inv in Hc. rewrite Ho in Hc. destruct Hc as (rc & s' & Hc & Hrc).
  destruct rc as [u|err']; destruct Hrc as [Hr ->]; [done|].
  unfold store_commit_transaction, store_backend_write in Hc. rewrite Ho in Hc.
  destruct (batch_is_empty (overlay_batch o)); [done|].
  destruct (backend_commit _ _) as [rb b'] eqn:Hbc. cbn in Hc. injection Hc as -> <-.
  assert (Hve : view (btable := btable) (with_store e (mkStore b' None)) = committed_table (btable := btable) e).
  { unfold view, committed_table, tx_view, store_abs. cbn. eapply strict_commit; [apply overlay_batch_wf|exact Hbc]. }
  split_and!; [done| |].
  - destruct (audit_scan _ _ _ _ Hst) as (l & Hl & Hopen). unfold audit_verify.
    rewrite (store_scan_strict (btable := btable)).
    change (tx_view (store_abs _)) with (view (btable := btable) (with_store e (mkStore b' None))).
    rewrite Hve, Hl. result_simpl. cbn [with_store e_master e_audit_head].
    rewrite (scan_steps_links _ _ _ _ Hopen).
    destruct (as_chain _ _ _ _ Hst) as (croot & Hcc & _).
    rewrite (audit_walk_chain ces croot Hcc). result_simpl.
    rewrite bool_decide_false; [done|]. rewrite Hhead. intros [= Hlen%Nat2Z.inj _].
    apply Hne. destruct Hpre as [k ->]. rewrite length_app in Hlen.
    destruct k; [by rewrite app_nil_r|]. cbn in Hlen. lia.
  - done.
Qed.

(** A session that has created a table in a transaction, on a disk that is full. *)
Definition buffered_session : list Statement := [Begin; CreateTable (bs "t") [sample_column]].
Definition buffered_engine : Engine LocalBackend := run_each buffered_session (fresh_engine [IoShortWrite 0]).

Lemma failed_commit_strands_audit_head_witness :
  ∃ err e', commit_transaction buffered_engine = (Err err, e')
    ∧ audit_verify e' = Err (EAudit "audit head does not match the recomputed chain" []).
Proof.
  assert (Hn : nsteps engine_step 2 (fresh_engine [IoShortWrite 0]) buffered_engine).
  { apply (accepted_steps buffered_session), no_commit_accepted. unfold buffered_session. rewrite !not_elem_of_cons.
    split_and!; try discriminate. apply not_elem_of_nil. }
  pose proof (engine_steps_inv (btable := local_table) 2 (fresh_engine [IoShortWrite 0]) buffered_engine [] []
    Hn (fresh_engine_inv _) eq_refl) as (ces & es & Hi & _).
  assert (Hhead : (e_audit_head buffered_engine).1 = 1) by (vm_compute; reflexivity).
  assert (Htx : store_in_transaction (e_store buffered_engine) = true) by (vm_compute; reflexivity).
  assert (Ho : is_Some (overlay (e_store buffered_engine))).
  { unfold store_in_transaction in Htx. destruct (overlay _); [by eexists|discriminate Htx]. }
  destruct (commit_transaction buffered_engine) as [r e'] eqn:Hc.
  assert (Hr : r = Err (EStorage StorageIo)).
  { change r with (r, e').1. rewrite <- Hc. vm_compute. reflexivity. }
  subst r. exists (EStorage StorageIo), e'. split; [exact eq_refl|].
  apply (failed_commit_strands_audit_head (btable := local_table) buffered_engine e' ces es (EStorage StorageIo) Hi); [|done|done].
  intros ->. destruct (as_chain _ _ _ _ (ei_view _ _ _ Hi)) as (root & _ & Hh).
  rewrite Hh in Hhead. cbn in Hhead. destruct es as [|en es]; [done|].
  pose proof (ei_txn _ _ _ Hi) as Ht. destruct Ho as [o Ho]. rewrite Ho in Ht.
  destruct Ht as (h0 & _ & Hst & _). destruct (as_open _ _ _ _ Hst 0 en eq_refl) as (s & Hs & _).
  assert (committed_table (btable := local_table) buffered_engine = ∅) as Hempty by (vm_compute; reflexivity).
  by rewrite Hempty, lookup_empty in Hs.
Defined.
