(* ===== verification/EngineOpen.v ===== *)
(** * Opening a database again

    [open_store] recovers the master key and the audit head from the records
    in the store, and the statements of a session never touch those records.
    The restart itself, from the log, is in Restart.v. *)

From S2P Require Import Prelude BTree Storage StorageFacts Sha256 Aead Argon2 Float SqlAst Values Codec CodecFacts Store Sort Exprs Aggregate AuditChain AuditFacts KeyParams EngineState Ddl Query Dml Exec EngineFacts EngineAudit EngineTxn EngineGuarantees.

(** The records an opened database rests on. *)
Record credentials (v : table) (kdf : KdfParams) (salt pass : bytes) : Prop := {
  cr_kdf : wf_kdf kdf;
  cr_salt : (SALT_LEN ≤ length salt)%nat;
  cr_params : v !! KEYPARAMS_KEY = Some (encode_keyparams kdf salt);
  cr_canary : ∃ s, v !! CANARY_KEY = Some s
    ∧ cipher_open (derive_key (derive_master kdf pass salt) (bs "canary")) s CANARY_KEY = Ok CANARY_PLAINTEXT;
}.

Lemma credentials_same v v' kdf salt pass :
  credentials v kdf salt pass → v' !! KEYPARAMS_KEY = v !! KEYPARAMS_KEY → v' !! CANARY_KEY = v !! CANARY_KEY →
  credentials v' kdf salt pass.
Proof. intros [Hk Hs Hp Hc] Hp' Hc'. split; [done|done|by rewrite Hp'|by rewrite Hc']. Qed.

(** What a commit of user data does to them: nothing. *)
Lemma audited_writes_keep v batch k1 s1 k2 s2 k :
  data_batch batch → ¬ data_key k → k ≠ k1 → k ≠ k2 →
  apply_entries v (entries (batch_put (batch_put batch k1 s1) k2 s2)) !! k = v !! k.
Proof.
  intros Hb Hk H1 H2. rewrite !apply_batch_put, !lookup_insert_ne by congruence. by apply data_batch_lookup.
Qed.

Lemma keyparams_not_data : ¬ data_key KEYPARAMS_KEY.
Proof. by intros [_ [H _]]. Qed.

Lemma canary_not_data : ¬ data_key CANARY_KEY.
Proof. by intros [_ [_ H]]. Qed.

Lemma chain_root_length es root : audit_chain es root → length root = 32%nat.
Proof. intros Hc. inversion Hc; [apply length_replicate|apply length_sha256]. Qed.

Lemma chain_nil_root root : audit_chain [] root → root = zeros 32.
Proof. remember [] as es eqn:He. destruct 1; [done|]. by destruct es. Qed.

(** The salt a new database draws. *)
Definition new_salt (w : World) : bytes := resize SALT_LEN Byte.x00 (w_random w (w_draws w)).

Section engine.
Context {B : Type} `{SB : StrictBackend B}.
Implicit Type e : Engine B.
#[local] Notation view := (view (btable := btable)).
#[local] Notation committed_table := (committed_table (btable := btable)).
#[local] Notation engine_inv := (engine_inv (btable := btable)).

(** The records are there for readers in the transaction and on the backend. *)
Record credentialed (kdf : KdfParams) (salt pass : bytes) e : Prop := {
  cd_view : credentials (view e) kdf salt pass;
  cd_committed : credentials (committed_table e) kdf salt pass;
}.

Lemma commit_audited_credentialed kind tag batch e r e' kdf salt pass :
  credentialed kdf salt pass e → data_batch batch → commit_audited kind tag batch e = (r, e') →
  credentialed kdf salt pass e'.
Proof.
  intros [Hv Hc] Hb. unfold commit_audited. destruct (batch_is_empty batch); [by intros [= _ <-]|].
  intros (time & n1 & n2 & _ & _ & _ & Hcom & _)%commit_with_audit_inv.
  pose proof (audited_batch_wf batch) as Hwf.
  pose proof (store_commit_overlay _ _ _ _ Hcom) as Hov.
  assert (Hne : ∀ i, KEYPARAMS_KEY ≠ audit_entry_key i ∧ CANARY_KEY ≠ audit_entry_key i) by (intros i; by split).
  destruct r as [u|err].
  - pose proof (store_commit_view (btable := btable) _ _ _ _ (Hwf _ _ _ _ Hb) Hcom) as Hview.
    assert (Hv' : credentials (view e') kdf salt pass).
    { apply (credentials_same (view e)); [done| |]; unfold EngineAudit.view; rewrite Hview;
        apply audited_writes_keep; try done; first [apply keyparams_not_data|apply canary_not_data|apply Hne]. }
    split; [done|]. destruct (overlay (e_store e)) as [o|] eqn:Ho.
    + destruct Hov as [Hbk _]. unfold EngineAudit.committed_table. by rewrite Hbk.
    + by rewrite <- view_no_overlay.
  - pose proof (store_commit_strict (btable := btable) _ _ _ _ (Hwf _ _ _ _ Hb) Hcom) as [Habs _].
    assert (Hbk : committed_table e' = committed_table e) by (unfold store_abs in Habs; by injection Habs).
    split; [unfold EngineAudit.view; by rewrite Habs|by rewrite Hbk].
Qed.

Lemma credentialed_same_db e e' kdf salt pass :
  same_db e e' → credentialed kdf salt pass e → credentialed kdf salt pass e'.
Proof.
  intros Hs [Hv Hc]. split; [by rewrite (view_same_db _ _ Hs)|].
  unfold EngineAudit.committed_table. by rewrite (same_store _ _ Hs).
Qed.

Lemma engine_step_credentialed e e' kdf salt pass :
  credentialed kdf salt pass e → engine_step e e' → credentialed kdf salt pass e'.
Proof.
  intros Hcr Hs. inversion Hs as [st e0 r e1 Hr Hcommit]; subst e0 e1.
  destruct (is_txn_control st) eqn:Hst.
  - destruct Hcr as [Hv Hc]. destruct st; try discriminate Hst; cbn [execute_statement] in Hr.
    + apply begin_inv in Hr. destruct (overlay (e_store e)) as [o|] eqn:Ho; destruct Hr as [_ ->]; [by split|].
      split; [|done]. rewrite (view_overlay _ ∅) by done. by rewrite overlay_view_empty.
    + destruct (overlay (e_store e)) as [o|] eqn:Ho; apply commit_inv in Hr; rewrite Ho in Hr;
        [|destruct Hr as [_ ->]; by split].
      destruct Hr as (rc & s' & Hcom & Hrc). specialize (Hcommit eq_refl ltac:(by eexists)).
      destruct rc as [u|err]; [|by destruct Hrc as [-> _]]. destruct Hrc as [_ ->].
      apply (store_commit_transaction_abs (btable := btable)) in Hcom as [Habs|[? _]]; [|done].
      assert (committed_table (with_txn_audit_head (with_store e s') None) = view e) as Hct
        by (unfold store_abs in Habs; by injection Habs).
      split; [unfold EngineAudit.view; cbn [e_store with_store with_txn_audit_head]; rewrite Habs; exact Hv|].
      by rewrite Hct.
    + apply rollback_inv in Hr. destruct (overlay (e_store e)) as [o|] eqn:Ho; destruct Hr as [_ ->]; [|by split].
      split; [|done]. by rewrite view_no_overlay.
  - destruct (audited_statement st Hst e r e' Hr) as [Hsame|(e1 & kind & tag & batch & rc & Hsame & Hb & _ & Hcom & _)].
    + by eapply credentialed_same_db.
    + eapply commit_audited_credentialed; [|exact Hb|exact Hcom]. by eapply credentialed_same_db.
Qed.

Lemma engine_steps_credentialed n e e' kdf salt pass :
  credentialed kdf salt pass e → nsteps engine_step n e e' → credentialed kdf salt pass e'.
Proof.
  intros Hc Hn. revert Hc. induction Hn as [e|n e e1 e' Hs Hn IH]; intros Hc; [done|].
  apply IH. by eapply engine_step_credentialed.
Qed.

(** The master key never changes under a statement. *)
Lemma engine_step_master e e' : engine_step e e' → e_master e' = e_master e.
Proof.
  intros Hs. inversion Hs as [st e0 r e1 Hr Hcommit]; subst e0 e1.
  destruct (is_txn_control st) eqn:Hst.
  - destruct st; try discriminate Hst; cbn [execute_statement] in Hr.
    + apply begin_inv in Hr. by destruct (overlay (e_store e)); destruct Hr as [_ ->].
    + apply commit_inv in Hr. destruct (overlay (e_store e)); [|by destruct Hr as [_ ->]].
      destruct Hr as (rc & s' & _ & Hrc). by destruct rc; destruct Hrc as [_ ->].
    + apply rollback_inv in Hr. by destruct (overlay (e_store e)); destruct Hr as [_ ->].
  - destruct (audited_statement st Hst e r e' Hr) as [[]|(e1 & kind & tag & batch & rc & [] & _ & _ & Hcom & _)]; [done|].
    unfold commit_audited in Hcom. destruct (batch_is_empty batch); [injection Hcom as _ <-; congruence|].
    apply commit_with_audit_inv in Hcom as (? & ? & ? & _ & _ & _ & _ & Hm & _). congruence.
Qed.

Lemma engine_steps_master n e e' : nsteps engine_step n e e' → e_master e' = e_master e.
Proof. induction 1 as [e|n e e1 e' Hs Hn IH]; [done|]. rewrite IH. by apply engine_step_master. Qed.

(** The chain on the backend, with the head stored beside it. *)
Lemma committed_state e ces es :
  engine_inv e ces es → ∃ h, audit_state (committed_table e) (e_master e) h ces.
Proof.
  intros [Hv Ht]. destruct (overlay (e_store e)) as [o|] eqn:Ho.
  - destruct Ht as (h0 & _ & Hst & _). by exists h0.
  - destruct Ht as [-> _]. rewrite view_no_overlay in Hv by done. by exists (e_audit_head e).
Qed.

(** Opening what a database left on its backend. *)
Lemma open_store_recorded (b : B) w pass kdf0 kdf salt h ces local :
  credentials (btable b) kdf salt pass →
  audit_state (btable b) (derive_master kdf pass salt) h ces →
  open_store w (store_local b) local pass kdf0
  = Ok (mkEngine (store_local b) (derive_master kdf pass salt) local h None advisor_default w).
Proof.
  intros [Hk Hs Hp (sc & Hc & Hopen)] Ha. unfold open_store.
  rewrite !(store_get_strict (btable := btable)).
  change (tx_view (store_abs (store_local b))) with (btable b).
  rewrite Hp. result_simpl. rewrite keyparams_read by done. result_simpl.
  rewrite !(store_get_strict (btable := btable)). change (tx_view (store_abs (store_local b))) with (btable b).
  rewrite Hc. result_simpl. rewrite Hopen. result_simpl.
  rewrite !(store_get_strict (btable := btable)). change (tx_view (store_abs (store_local b))) with (btable b).
  destruct (as_chain _ _ _ _ Ha) as (root & Hch & ->). pose proof (as_head _ _ _ _ Ha) as Hh.
  destruct ces as [|en ces].
  - rewrite Hh. result_simpl. by rewrite (chain_nil_root _ Hch).
  - destruct Hh as (s & -> & Ho). result_simpl. unfold open_sealed. cbn [fst snd] in Ho.
    rewrite Ho. result_simpl.
    rewrite length_app, length_bytes_le, (chain_root_length _ _ Hch). cbn [Nat.eqb Nat.add negb].
    rewrite take_app_length', drop_app_length' by (by rewrite length_bytes_le).
    rewrite from_le_small by (pose proof (as_small _ _ _ _ Ha); unfold small_chain in *; unfold in_u; lia).
    done.
Qed.

(** ** Creating a database *)

Lemma open_put_view (s s' : Store B) k v :
  overlay s = None → open_put s k v = Ok s' →
  overlay s' = None ∧ btable (backend s') = <[k := v]> (btable (backend s)).
Proof.
  unfold open_put. intros Ho. destruct (store_put s k v) as [[u|err] s1] eqn:Hp; [|done]. intros [= <-].
  apply (store_put_abs (btable := btable)) in Hp as [Habs|[? _]]; [|done].
  unfold store_abs, tx_next, tx_write in Habs. rewrite Ho in Habs. cbn in Habs.
  destruct (overlay s1); [done|]. by injection Habs.
Qed.

Lemma open_store_creates (b : B) w local pass kdf e :
  btable b = ∅ → open_store w (store_local b) local pass kdf = Ok e →
  let master := derive_master kdf pass (new_salt w) in
  ∃ s1 nonce w', length nonce = NONCE_LEN
    ∧ open_put (store_local b) KEYPARAMS_KEY (encode_keyparams kdf (new_salt w)) = Ok s1
    ∧ open_put s1 CANARY_KEY (cipher_seal (derive_key master (bs "canary")) nonce CANARY_PLAINTEXT CANARY_KEY) = Ok (e_store e)
    ∧ e = mkEngine (e_store e) master local audit_genesis None advisor_default w'
    ∧ overlay (e_store e) = None
    ∧ btable (backend (e_store e)) = <[CANARY_KEY := cipher_seal (derive_key master (bs "canary")) nonce CANARY_PLAINTEXT CANARY_KEY]>
        (<[KEYPARAMS_KEY := encode_keyparams kdf (new_salt w)]> ∅).
Proof.
  intros Hb. unfold open_store. fold (new_salt w). set (salt := new_salt w).
  rewrite !(store_get_strict (btable := btable)). change (tx_view (store_abs (store_local b))) with (btable b).
  rewrite Hb, lookup_empty. result_simpl.
  destruct (open_put _ _ _) as [s1|] eqn:H1; [|done]. result_simpl.
  apply open_put_view in H1 as Ho; [|done]. destruct Ho as [Ho1 Ht1]. cbn [backend store_local] in Ht1. rewrite Hb in Ht1.
  assert (Hv1 : tx_view (store_abs (btable := btable) s1) = btable (backend s1)) by (unfold store_abs; by rewrite Ho1).
  rewrite !(store_get_strict (btable := btable)), Hv1, Ht1, lookup_insert_ne, lookup_empty by done. result_simpl.
  destruct (open_put s1 _ _) as [s2|] eqn:H2; [|done]. result_simpl.
  apply open_put_view in H2 as Ho; [|done]. destruct Ho as [Ho2 Ht2]. rewrite Ht1 in Ht2.
  assert (Hv2 : tx_view (store_abs (btable := btable) s2) = btable (backend s2)) by (unfold store_abs; by rewrite Ho2).
  rewrite !(store_get_strict (btable := btable)), Hv2, Ht2, !lookup_insert_ne, lookup_empty by done. result_simpl.
  intros Heq. apply ok_inj in Heq as <-. cbn [e_store]. exists s1. eexists. eexists.
  split; [|split; [reflexivity|split; [exact H2|split; [reflexivity|split; [exact Ho2 | exact Ht2]]]]]. apply length_resize.
Qed.

Lemma created_credentials kdf pass w nonce : wf_kdf kdf → length nonce = NONCE_LEN →
  credentials (<[CANARY_KEY := cipher_seal (derive_key (derive_master kdf pass (new_salt w)) (bs "canary")) nonce CANARY_PLAINTEXT CANARY_KEY]>
    (<[KEYPARAMS_KEY := encode_keyparams kdf (new_salt w)]> ∅)) kdf (new_salt w) pass.
Proof.
  intros Hk Hn. split; [exact Hk|unfold new_salt; by rewrite length_resize| |].
  - by rewrite lookup_insert_ne, lookup_insert_eq by done.
  - rewrite lookup_insert_eq. eexists. split; [exact eq_refl|].
    apply cipher_open_seal; [apply wf_derive_key|exact Hn].
Qed.

Lemma open_store_fresh (b : B) w local pass kdf e :
  btable b = ∅ → wf_kdf kdf → open_store w (store_local b) local pass kdf = Ok e →
  ∃ salt, engine_inv e [] [] ∧ credentialed kdf salt pass e ∧ e_master e = derive_master kdf pass salt.
Proof.
  intros Hb Hk Ho. destruct (open_store_creates b w local pass kdf e Hb Ho) as (s1 & nonce & w' & Hn & _ & _ & He & Hov & Ht).
  exists (new_salt w). pose proof (created_credentials kdf pass w nonce Hk Hn) as Hcr. rewrite <- Ht in Hcr.
  assert (Hve : view e = btable (backend (e_store e))) by (by rewrite view_no_overlay).
  split_and!.
  - apply engine_inv_genesis; [exact Hov| | |].
    + rewrite He. exact eq_refl.
    + rewrite He. exact eq_refl.
    + unfold EngineAudit.committed_table. rewrite Ht. intros k sv Hks.
      apply lookup_insert_Some in Hks as [[<- _]|[_ Hks]]; [done|].
      apply lookup_insert_Some in Hks as [[<- _]|[_ Hks]]; [done|]. by rewrite lookup_empty in Hks.
  - split; [by rewrite Hve|exact Hcr].
  - rewrite He. exact eq_refl.
Qed.

(** A passphrase whose derived key does not open the canary is refused. *)
Lemma open_store_refused (b : B) w pass kdf0 kdf salt s local :
  wf_kdf kdf → (SALT_LEN ≤ length salt)%nat →
  btable b !! KEYPARAMS_KEY = Some (encode_keyparams kdf salt) → btable b !! CANARY_KEY = Some s →
  is_ok (cipher_open (derive_key (derive_master kdf pass salt) (bs "canary")) s CANARY_KEY) = false →
  open_store w (store_local b) local pass kdf0 = Err EBadPassphrase.
Proof.
  intros Hk Hs Hp Hc Hopen. unfold open_store.
  rewrite !(store_get_strict (btable := btable)). change (tx_view (store_abs (store_local b))) with (btable b).
  rewrite Hp. result_simpl. rewrite keyparams_read by done. result_simpl.
  rewrite !(store_get_strict (btable := btable)). change (tx_view (store_abs (store_local b))) with (btable b).
  rewrite Hc. result_simpl. destruct (cipher_open _ _ _); [discriminate Hopen|]. exact eq_refl.
Qed.
End engine.
