(* ===== verification/Rotate.v ===== *)
(** * Directories: opening, restoring and rotating the key

    ciphra-engine/src/lib.rs: [open_with_kdf], [restore_from] and [rotate_to]
    for a database on this host. A directory is what its files hold; whether
    each file-system call works is an argument, as are the outcomes of the
    log's writes. [*self = Engine::open(..)?] keeps the old engine when it
    fails. *)

From S2P Require Import Prelude BTree Storage Aead Argon2 Float SqlAst Values Codec Store Sort Exprs AuditChain KeyParams EngineState Ddl Query Dml Exec.

(** ** The data directory *)

(** The log, the legacy parameters file, and whether a scratch directory of
    a rotation is there. *)
Record Directory : Type := mkDirectory {
  d_wal : option bytes;
  d_sidecar : option bytes;
  d_scratch : bool;
}.
Definition empty_directory : Directory := mkDirectory None None false.

Inductive FsCall : Type :=
| CreateDir       (** [create_dir_all] *)
| OpenWal         (** the calls of [Storage::open] *)
| ReadSidecar     (** [read(&params_path)] *)
| CopySnapshot    (** [copy(snapshot, &wal)] *)
| ClearScratch    (** [remove_dir_all(&tmp)] before the rebuild *)
| SwapWal         (** [rename(..)] *)
| DropScratch     (** [remove_dir_all(&tmp)] after it *)
| DropSidecar.    (** [remove_file(..)] *)
#[export] Instance FsCall_eq_dec : EqDecision FsCall.
Proof. solve_decision. Defined.

(** What the log file of an open database holds. *)
Definition engine_wal (e : Engine LocalBackend) : bytes := st_wal (lb_storage (backend (e_store e))).

(** [open_with_kdf]; [io] are the outcomes of the writes to come. *)
Definition open_with_kdf (fs : FsCall → bool) (w : World) (io : list IoOutcome) (d : Directory) (passphrase : bytes) (kdf : KdfParams)
  : result EngineError (Engine LocalBackend) :=
  if negb (fs CreateDir) then Err EIo
  else if negb (fs OpenWal) then Err (EStorage StorageIo)
  else
    let store := store_local (mkLocal (storage_open (default [] (d_wal d))) io) in
    recorded ← store_get store KEYPARAMS_KEY;
    store ←
      match recorded, d_sidecar d with
      | None, Some file =>
          if negb (fs ReadSidecar) then Err EIo
          else '(kdf, salt) ← read_keyparams file; open_put store KEYPARAMS_KEY (encode_keyparams kdf salt)
      | _, _ => Ok store
      end;
    open_store w store true passphrase kdf.
Definition open_dir fs w io d passphrase := open_with_kdf fs w io d passphrase recommended.

(** [restore_from]; [snapshot] is the file's content. *)
Definition restore_from (fs : FsCall → bool) (w : World) (io : list IoOutcome) (snapshot : bytes) (d : Directory) (passphrase : bytes)
  : result EngineError (Engine LocalBackend) :=
  if negb (fs CreateDir) then Err EIo
  else
    match d_wal d with
    | Some _ => Err EIo
    | None =>
        if negb (fs CopySnapshot) then Err EIo
        else
          engine ← open_dir fs w io (mkDirectory (Some snapshot) (d_sidecar d) (d_scratch d)) passphrase;
          _ ← audit_verify engine;
          Ok engine
    end.

(** ** The rebuild *)

(** A table read through the current key. *)
Abbreviation TableDump := (TableSchema * Z * list (Z * list Value))%type.

Section Rebuild.
Context {B : Type} `{Backend B}.

Definition dump_table (e : Engine B) (name : bytes) : result EngineError TableDump :=
  schema ← expect_schema e name;
  seq ← load_seq e name;
  rows ← scan_rows e name;
  Ok (schema, seq, map (λ '(key, row), (rowid_from_key key, row)) rows).
Definition dump_tables (e : Engine B) : result EngineError (list TableDump) :=
  names ← engine_tables e; mapR (dump_table e) names.

Definition rebuild_row (schema : TableSchema) (writes : Batch) (rowid : Z) (row : list Value) : M B Batch :=
  m ← gets e_master;
  writes ← add_row writes (ts_name schema) (row_key m (ts_name schema) rowid) row;
  add_row_entries writes (ts_name schema) (maintained_columns schema) row rowid.

Definition range_entries (col : nat) (rows : list (Z * list Value)) : list (Value * Z) :=
  map (λ '(rowid, row), (row !!! col, rowid)) (filter (λ r, is_null (r.2 !!! col) = false) rows).

(** One batch per table. *)
Definition commit_batch (batch : Batch) : M B unit := λ e,
  let '(r, s) := store_commit (e_store e) batch in (r, with_store e s).
Definition rebuild_table (dump : TableDump) : M B unit :=
  let '(schema, seq, rows) := dump in
  writes ← add_schema batch_new schema;
  writes ← add_seq writes (ts_name schema) seq;
  writes ← foldM (λ writes '(rowid, row), rebuild_row schema writes rowid row) writes rows;
  writes ← foldM (λ writes col, add_range_blob writes (ts_name schema) col (sort_range_entries (range_entries col rows)))
    writes (range_indexed_columns schema);
  commit_batch writes.

(** The audit entries, sealed again under the new audit key. *)
Definition reseal_audit (old_audit : CipherKey) (entries : list (bytes * bytes)) : M B Batch :=
  m ← gets e_master;
  foldM (λ writes '(key, sealed),
    plain ← lift (open_sealed old_audit sealed key);
    sealed ← seal (audit_cipher m) plain key;
    mret (batch_put writes key sealed)) batch_new entries.
End Rebuild.

(** The rebuild of [old] in the scratch engine, from the dump on. *)
Definition rebuild {B C} `{Backend B, Backend C} (old : Engine B) (snapshot : list TableDump) : M C unit :=
  _ ← foldM (λ _ dump, rebuild_table dump) tt snapshot;
  entries ← lift (store_scan_prefix (e_store old) AUDIT_PREFIX);
  audit_writes ← reseal_audit (audit_cipher (e_master old)) entries;
  _ ← commit_batch audit_writes;
  _ ← modify (λ fresh, with_audit_head fresh (e_audit_head old));
  commit_with_audit audit_kind.ROTATE (zeros 16) (zeros 32) batch_new.

(** [rotate_to]: [fs], [fs_tmp] and [fs_dir] are the file system for its own
    calls, for opening the scratch directory and for opening the database
    again; [w] is what the process draws meanwhile. *)
Definition rotate_to (fs fs_tmp fs_dir : FsCall → bool) (w : World) (io_tmp io_dir : list IoOutcome)
    (new_passphrase : bytes) (kdf : KdfParams) (e : Engine LocalBackend) (d : Directory)
  : result EngineError unit * Engine LocalBackend * Directory :=
  let failed err scratch := (Err err, e, mkDirectory (d_wal d) (d_sidecar d) scratch) in
  if negb (e_local e) then
    failed (ESchema "key rotation runs on the host that owns the database file; open the data directory locally to rotate" []) (d_scratch d)
  else
    match dump_tables e with
    | Err err => failed err (d_scratch d)
    | Ok snapshot =>
        if d_scratch d && negb (fs ClearScratch) then failed EIo true
        else
          match open_with_kdf fs_tmp w io_tmp empty_directory new_passphrase kdf with
          | Err err => failed err true
          | Ok fresh =>
              match rebuild e snapshot fresh with
              | (Err err, _) => failed err true
              | (Ok _, fresh) =>
                  if negb (fs SwapWal) then failed EIo true
                  else
                    let d' := mkDirectory (Some (engine_wal fresh)) (if fs DropSidecar then None else d_sidecar d)
                                (negb (fs DropScratch)) in
                    match open_dir fs_dir (e_world fresh) io_dir d' new_passphrase with
                    | Err err => (Err err, e, d')
                    | Ok e' => (Ok tt, e', d')
                    end
              end
          end
    end.
