(* ===== verification/RotateFacts.v ===== *)
(** * Restoring and rotating keep the database

    A rebuild puts sealed items into a fresh log; reading them back with the
    code's own readers gives the tables that were dumped, and the audit chain
    with one entry more. So a directory holds, at any time and whatever its
    file system does, either the old database or the whole new one. *)

From S2P Require Import Prelude BTree Storage StorageFacts Sha256 ChaCha20 Poly1305 Aead Argon2 Float SqlAst Values Codec CodecFacts Store Sort Exprs ExprFacts AuditChain AuditFacts KeyParams EngineState Ddl Query Dml Exec EngineFacts EngineAudit EngineTxn EngineGuarantees EngineOpen Rotate.

(** ** Sealed items *)

Record Item : Type := mkItem { it_cipher : CipherKey; it_key : bytes; it_plain : bytes }.
Definition opens (it : Item) (sealed : bytes) : Prop := cipher_open (it_cipher it) sealed (it_key it) = Ok (it_plain it).
Definition sealed_as (it : Item) (en : entry) : Prop :=
  ∃ sealed, en = (OP_PUT, it_key it, sealed) ∧ opens it sealed ∧ length sealed = (28 + length (it_plain it))%nat.

Lemma length_cipher_seal k nonce plain aad : wf_cipher_key k → length nonce = NONCE_LEN →
  length (cipher_seal k nonce plain aad) = (28 + length plain)%nat.
Proof.
  intros Hk Hn. unfold cipher_seal, aead_seal, compute_tag. rewrite !length_app, Hn, length_xor_stream by done.
  rewrite length_poly1305 by (rewrite length_take, length_chacha_block by done; done). unfold NONCE_LEN. lia.
Qed.

Lemma sealed_put cipher nonce key plain : wf_cipher_key cipher → length nonce = NONCE_LEN →
  sealed_as (mkItem cipher key plain) (OP_PUT, key, cipher_seal cipher nonce plain key).
Proof.
  intros Hc Hn. exists (cipher_seal cipher nonce plain key). split; [done|].
  split; [by apply cipher_open_seal | by apply length_cipher_seal].
Qed.

(** A batch computation that adds the sealed [items]. *)
Definition emits {B} (m : MasterKey) (items : list Item) (f : Batch → M B Batch) : Prop :=
  ∀ b e, e_master e = m → ∃ es w, f b e = (Ok (mkBatch (entries b ++ es)), with_world e w) ∧ Forall2 sealed_as items es.

Section Emits.
Context {B : Type} (m : MasterKey).

Lemma emits_ret : emits (B := B) m [] (λ b, mret b).
Proof. intros b e _. exists [], (e_world e). rewrite app_nil_r. destruct b, e. by repeat constructor. Qed.

Lemma emits_bind items items' (f g : Batch → M B Batch) :
  emits m items f → emits m items' g → emits m (items ++ items') (λ b, b' ← f b; g b').
Proof.
  intros Hf Hg b e He. destruct (Hf b e He) as (es & w & Hr & Hes).
  destruct (Hg (mkBatch (entries b ++ es)) (with_world e w) He) as (es' & w' & Hr' & Hes').
  exists (es ++ es'), w'. unfold mbind, m_bind. rewrite Hr, Hr'. cbn [entries]. rewrite app_assoc.
  split; [done|]. by apply Forall2_app.
Qed.

Lemma emits_fold {A} (f : Batch → A → M B Batch) (items : A → list Item) l :
  (∀ x, emits m (items x) (λ b, f b x)) → emits m (concat (map items l)) (λ b, foldM f b l).
Proof.
  intros Hf. induction l as [|x l IH]; [exact emits_ret|]. cbn [foldM map concat]. exact (emits_bind _ _ _ _ (Hf x) IH).
Qed.

Lemma emits_seal cipher key plain : wf_cipher_key cipher →
  emits m [mkItem cipher key plain] (λ b, sealed ← seal (B := B) cipher plain key; mret (batch_put b key sealed)).
Proof.
  intros Hc b e _. unfold seal, random_bytes, mbind, m_bind, mret, m_ret. set (nonce := resize NONCE_LEN _ _).
  assert (Hn : length nonce = NONCE_LEN) by apply length_resize.
  exists [(OP_PUT, key, cipher_seal cipher nonce plain key)]. eexists. split; [done|].
  constructor; [by apply sealed_put | constructor].
Qed.

(** The helpers read the master key first. *)
Lemma emits_master (f : MasterKey → Batch → M B Batch) items :
  emits m items (f m) → emits m items (λ b, k ← gets e_master; f k b).
Proof. intros Hf b e He. unfold mbind, m_bind, gets. rewrite He. by apply Hf. Qed.
Lemma emits_put (cipher : MasterKey → CipherKey) (key : MasterKey → bytes) plain : wf_cipher_key (cipher m) →
  emits (B := B) m [mkItem (cipher m) (key m) plain]
    (λ b, k ← gets e_master; sealed ← seal (cipher k) plain (key k); mret (batch_put b (key k) sealed)).
Proof. intros Hc. apply (emits_master (λ k b, sealed ← seal (cipher k) plain (key k); mret (batch_put b (key k) sealed))), emits_seal, Hc. Qed.
End Emits.

(** ** What a rebuild writes *)

Section Items.
Variable m : MasterKey.

Definition index_items (schema : TableSchema) (rowid : Z) (row : list Value) : list Item :=
  concat (map (λ col,
    if is_null (row !!! col) then []
    else [mkItem (table_key m (ts_name schema)) (index_entry_key m (ts_name schema) col (row !!! col) rowid) []])
    (maintained_columns schema)).
Definition row_items (schema : TableSchema) (r : Z * list Value) : list Item :=
  [mkItem (table_key m (ts_name schema)) (row_key m (ts_name schema) r.1) (encode_row r.2)] ++ index_items schema r.1 r.2.
Definition range_item (schema : TableSchema) (rows : list (Z * list Value)) (col : nat) : Item :=
  mkItem (table_key m (ts_name schema)) (range_index_key m (ts_name schema) col)
    (encode_range_blob (sort_range_entries (range_entries col rows))).
Definition table_items (dump : TableDump) : list Item :=
  let '(schema, seq, rows) := dump in
  [mkItem (catalog_cipher m) (catalog_key m (ts_name schema)) (encode_schema schema)] ++
  [mkItem (table_key m (ts_name schema)) (seq_key m (ts_name schema)) (le_bytes 8 seq)] ++
  concat (map (row_items schema) rows) ++ concat (map (λ col, [range_item schema rows col]) (range_indexed_columns schema)).
Definition audit_item (ie : nat * AuditEntry) : Item :=
  mkItem (audit_cipher m) (audit_entry_key (Z.of_nat ie.1)) (audit_encode ie.2).
End Items.

Section Writes.
Context {B : Type} `{Backend B} (m : MasterKey).

Lemma emits_row_entries table maintained row rowid :
  emits (B := B) m (concat (map (λ col, if is_null (row !!! col) then []
      else [mkItem (table_key m table) (index_entry_key m table col (row !!! col) rowid) []]) maintained))
    (λ b, add_row_entries b table maintained row rowid).
Proof.
  apply emits_fold. intros col. destruct (is_null (row !!! col)); [apply emits_ret|].
  exact (emits_put m (λ k, table_key k table) (λ k, index_entry_key k table col (row !!! col) rowid) [] (wf_derive_key _ _)).
Qed.

Lemma emits_rebuild_row schema r : emits (B := B) m (row_items m schema r) (λ b, rebuild_row schema b r.1 r.2).
Proof.
  unfold rebuild_row, row_items.
  apply (emits_master m (λ k b, b' ← add_row b (ts_name schema) (row_key k (ts_name schema) r.1) r.2;
    add_row_entries b' (ts_name schema) (maintained_columns schema) r.2 r.1)).
  apply (emits_bind m _ _ (λ b, add_row b (ts_name schema) (row_key m (ts_name schema) r.1) r.2)); [|apply emits_row_entries].
  intros b e He. unfold add_row. unfold mbind at 1, m_bind at 1, gets. rewrite He.
  exact (emits_seal m _ _ _ (wf_derive_key _ _) b e He).
Qed.

Lemma emits_table schema seq rows : emits (B := B) m (table_items m (schema, seq, rows)) (λ b,
  writes ← add_schema b schema;
  writes ← add_seq writes (ts_name schema) seq;
  writes ← foldM (λ writes '(rowid, row), rebuild_row schema writes rowid row) writes rows;
  foldM (λ writes col, add_range_blob writes (ts_name schema) col (sort_range_entries (range_entries col rows))) writes (range_indexed_columns schema)).
Proof.
  unfold table_items. apply (emits_bind m _ _ (λ b, add_schema b schema)); [|apply (emits_bind m _ _ (λ b, add_seq b (ts_name schema) seq));
    [|apply (emits_bind m _ _ (λ b, foldM (λ writes '(rowid, row), rebuild_row schema writes rowid row) b rows))]].
  - exact (emits_put m catalog_cipher (λ k, catalog_key k (ts_name schema)) (encode_schema schema) (wf_derive_key _ _)).
  - exact (emits_put m (λ k, table_key k (ts_name schema)) (λ k, seq_key k (ts_name schema)) (le_bytes 8 seq) (wf_derive_key _ _)).
  - apply (emits_fold m (λ writes '(rowid, row), rebuild_row schema writes rowid row)). intros [rowid row]. apply (emits_rebuild_row schema (rowid, row)).
  - apply (emits_fold m (λ writes col, add_range_blob writes (ts_name schema) col (sort_range_entries (range_entries col rows)))). intros col.
    exact (emits_put m (λ k, table_key k (ts_name schema)) (λ k, range_index_key k (ts_name schema) col)
      (encode_range_blob (sort_range_entries (range_entries col rows))) (wf_derive_key _ _)).
Qed.

(** A table's rebuild is one commit of its items. *)
Lemma rebuild_table_run dump e : e_master e = m →
  ∃ es w, Forall2 sealed_as (table_items m dump) es ∧ rebuild_table (B := B) dump e = commit_batch (mkBatch es) (with_world e w).
Proof.
  destruct dump as [[schema seq] rows]. intros He. destruct (emits_table schema seq rows batch_new e He) as (es & w & Hr & Hes).
  exists es, w. split; [exact Hes|]. revert Hr. unfold rebuild_table, mbind, m_bind.
  destruct (add_schema batch_new schema e) as [[b1|] e1]; [|done].
  destruct (add_seq b1 (ts_name schema) seq e1) as [[b2|] e2]; [|done].
  destruct (foldM (λ writes '(rowid, row), rebuild_row schema writes rowid row) b2 rows e2) as [[b3|] e3]; [|done].
  intros ->. done.
Qed.

Lemma reseal_run old_audit (l : list (bytes * bytes)) (es : list AuditEntry) e : e_master e = m →
  Forall2 (λ kv en, cipher_open old_audit kv.2 kv.1 = Ok (audit_encode en)) l es →
  l.*1 = imap (λ i _, audit_entry_key (Z.of_nat i)) es →
  ∃ ents w, Forall2 sealed_as (imap (λ i en, audit_item m (i, en)) es) ents ∧
    reseal_audit (B := B) old_audit l e = (Ok (mkBatch ents), with_world e w).
Proof.
  intros He Hl Hk.
  assert (Hf : emits (B := B) m (imap (λ i en, audit_item m (i, en)) es) (λ b, foldM (λ writes '(key, sealed),
      plain ← lift (open_sealed old_audit sealed key); sealed ← seal (audit_cipher m) plain key; mret (batch_put writes key sealed)) b l)).
  { revert Hk. change (λ (i : nat) (_ : AuditEntry), audit_entry_key (Z.of_nat i)) with (λ (i : nat) (_ : AuditEntry), audit_entry_key (Z.of_nat (0 + i))).
    change (λ (i : nat) en, audit_item m (i, en)) with (λ (i : nat) en, audit_item m ((0 + i)%nat, en)). generalize 0%nat.
    induction Hl as [|[key sealed] en l es Hkv Hl IH]; intros n Hk; [apply emits_ret|].
    rewrite list.imap_cons in Hk. rewrite list.imap_cons. cbn [fmap list_fmap fst] in Hk. injection Hk as Hkey Hk. cbn [fst snd] in Hkv.
    rewrite (list.imap_ext _ (λ i en, audit_item m ((S n + i)%nat, en)) es) by (intros i x _; cbn; do 2 f_equal; lia).
    apply (emits_bind m [audit_item m ((n + 0)%nat, en)] _ (λ b, plain ← lift (open_sealed old_audit sealed key);
      sealed ← seal (audit_cipher m) plain key; mret (batch_put b key sealed))).
    - intros b e1 He1. unfold mbind at 1, m_bind at 1, lift, open_sealed. rewrite Hkv. result_simpl.
      unfold audit_item. cbn [fst snd]. rewrite <- Hkey. exact (emits_seal m _ _ _ (wf_derive_key _ _) b e1 He1).
    - apply (IH (S n)). rewrite Hk. apply list.imap_ext. intros i x _. unfold compose. f_equal. lia. }
  destruct (Hf batch_new e He) as (ents & w & Hr & Hes). exists ents, w. split; [exact Hes|].
  unfold reseal_audit, mbind at 1, m_bind at 1, gets. rewrite He. exact Hr.
Qed.
End Writes.

(** ** Committing to the local log *)

Definition items_size (items : list Item) : nat :=
  foldr (λ it n, 37 + length (it_key it) + length (it_plain it) + n)%nat 5%nat items.
(** A batch of these items is a record whose length field does not wrap. *)
Definition items_fit (items : list Item) : Prop := fits_u32 (items_size items).

Lemma items_encoded items es : Forall2 sealed_as items es →
  (5 + length (concat (map encode_entry es)))%nat = items_size items.
Proof.
  unfold items_size. induction 1 as [|it en items es (s & -> & _ & Hl) _ IH]; [done|]. cbn [map concat foldr].
  rewrite length_app, length_encode_entry. cbn [fst snd]. lia.
Qed.

Lemma items_commit_fits items es : Forall2 sealed_as items es → items_fit items → commit_fits (mkBatch es).
Proof.
  intros Hes Hf. pose proof (items_encoded items es Hes) as Hl. unfold items_fit in Hf. rewrite <- Hl in Hf.
  unfold commit_fits. cbn [entries]. destruct es as [|e [|e' es]]; [exact Hf | | exact Hf].
  cbn [map concat] in Hf. rewrite app_nil_r, length_encode_entry in Hf. unfold record_fits, fits_u32 in *. lia.
Qed.

Lemma items_batch_wf items es : Forall2 sealed_as items es → batch_wf (mkBatch es).
Proof.
  unfold batch_wf. cbn [entries]. induction 1 as [|it en items es (s & -> & _) _ IH]; constructor; [by left | done].
Qed.

(** An engine outside a transaction whose log replays to its table. *)
Record ready (e : Engine LocalBackend) : Prop := {
  rd_overlay : overlay (e_store e) = None;
  rd_durable : durable (lb_storage (backend (e_store e)));
}.
Definition held (e : Engine LocalBackend) : table := local_table (backend (e_store e)).

Lemma local_commit s ios batch r b' : backend_commit (mkLocal s ios) batch = (r, b') → durable s → batch_wf batch → commit_fits batch →
  r = Ok tt → durable (lb_storage b') ∧ local_table b' = apply_entries (st_map s) (entries batch).
Proof.
  cbn [backend_commit local_backend]. unfold local_write. cbn [lb_storage lb_outcomes].
  destruct (storage_commit _ s batch) as [r0 s'] eqn:Hc. intros [= <- <-] Hd Hwf Hf Hr.
  destruct r0 as [[]|]; [|discriminate Hr]. unfold local_table. cbn [lb_storage].
  assert (Hok : storage_commit IoOk s batch = (Ok tt, s')).
  { rewrite commit_unfold in Hc |- *. destruct (entries batch); [done|].
    destruct (default IoOk (head ios)); cbn in Hc; [done | discriminate Hc..]. }
  split; [|by apply commit_ok in Hok as [-> _]].
  apply (storage_step_durable s); [done|]. by eapply step_commit.
Qed.

(** What the steps of a rebuild leave alone. *)
Record kept (e e' : Engine LocalBackend) : Prop := {
  kp_master : e_master e' = e_master e;
  kp_local : e_local e' = e_local e;
  kp_head : e_audit_head e' = e_audit_head e;
  kp_txn : e_txn_audit_head e' = e_txn_audit_head e;
}.
Lemma kept_trans e1 e2 e3 : kept e1 e2 → kept e2 e3 → kept e1 e3.
Proof. intros [] []. split; congruence. Qed.

(** No file write is going to fail. *)
Definition healthy (e : Engine LocalBackend) : Prop := lb_outcomes (backend (e_store e)) = [].

Lemma ready_commit e items es r s' : ready e → Forall2 sealed_as items es → items_fit items →
  store_commit (e_store e) (mkBatch es) = (r, s') → r = Ok tt →
  overlay s' = None ∧ durable (lb_storage (backend s')) ∧ local_table (backend s') = apply_entries (held e) es.
Proof.
  intros [Ho Hd] Hes Hf Hc ->. unfold store_commit in Hc. rewrite Ho in Hc. unfold store_backend_write in Hc.
  destruct (backend_commit _ _) as [r0 b'] eqn:Hb. injection Hc as -> <-. cbn [overlay backend]. split; [done|].
  unfold held, local_table. destruct (backend (e_store e)) as [s ios]. exact (local_commit s ios _ _ _ Hb Hd (items_batch_wf _ _ Hes) (items_commit_fits _ _ Hes Hf) eq_refl).
Qed.

Lemma commit_run e w items es u e' : ready e → Forall2 sealed_as items es → items_fit items →
  commit_batch (mkBatch es) (with_world e w) = (Ok u, e') →
  ready e' ∧ kept e e' ∧ held e' = apply_entries (held e) es.
Proof.
  intros Hr Hes Hf. unfold commit_batch. cbn [e_store with_world].
  destruct (store_commit (e_store e) (mkBatch es)) as [r s'] eqn:Hc. intros Heq. apply pair_equal_spec in Heq as [-> <-]. destruct u.
  destruct (ready_commit e items es _ s' Hr Hes Hf Hc eq_refl) as (Ho & Hd & Ht). by split; [|split].
Qed.

Lemma commit_healthy e batch : overlay (e_store e) = None → healthy e →
  ∃ e', commit_batch batch e = (Ok tt, e') ∧ overlay (e_store e') = None ∧ healthy e'.
Proof.
  unfold healthy, commit_batch. intros Ho Hh. destruct (store_commit_healthy (e_store e) batch Hh) as [Hr Hh'].
  destruct (store_commit (e_store e) batch) as [r s'] eqn:Hc. cbn [fst snd] in Hr, Hh'. subst r. eexists. split; [done|].
  apply store_commit_overlay in Hc. rewrite Ho in Hc. by split.
Qed.

Lemma rebuild_tables_run snap e u e' : ready e → Forall (λ d, items_fit (table_items (e_master e) d)) snap →
  foldM (λ _ dump, rebuild_table dump) tt snap e = (Ok u, e') →
  ready e' ∧ kept e e' ∧ ∃ es, Forall2 sealed_as (concat (map (table_items (e_master e)) snap)) es ∧ held e' = apply_entries (held e) es.
Proof.
  revert e. induction snap as [|d snap IH]; intros e Hr Hf.
  - cbn [foldM]. intros Heq. apply pair_equal_spec in Heq as [_ <-]. split; [done|]. split; [done|]. exists []. by split; [constructor|].
  - apply list.Forall_cons in Hf as [Hd Hf]. cbn [foldM]. unfold mbind at 1, m_bind at 1.
    destruct (rebuild_table_run (e_master e) d e eq_refl) as (es & w & Hes & ->).
    destruct (commit_batch (mkBatch es) (with_world e w)) as [[u1|] e1] eqn:Hc; [|done].
    destruct (commit_run e w _ es u1 e1 Hr Hes Hd Hc) as (Hr1 & Hk1 & Ht1). destruct u1.
    rewrite <- (kp_master _ _ Hk1) in Hf. intros Hrun. destruct (IH e1 Hr1 Hf Hrun) as (Hr' & Hk' & es' & Hes' & Ht').
    split; [done|]. split; [by eapply kept_trans|]. exists (es ++ es'). rewrite (kp_master _ _ Hk1) in Hes'. cbn [map concat].
    split; [by apply Forall2_app|]. by rewrite Ht', Ht1, apply_entries_app.
Qed.

Lemma rebuild_tables_healthy snap e : overlay (e_store e) = None → healthy e →
  ∃ e', foldM (λ _ dump, rebuild_table dump) tt snap e = (Ok tt, e') ∧ overlay (e_store e') = None ∧ healthy e'.
Proof.
  revert e. induction snap as [|d snap IH]; intros e Ho Hh; [by exists e|]. cbn [foldM]. unfold mbind at 1, m_bind at 1.
  destruct (rebuild_table_run (e_master e) d e eq_refl) as (es & w & _ & ->).
  destruct (commit_healthy (with_world e w) (mkBatch es) Ho Hh) as (e1 & -> & Ho1 & Hh1). by apply IH.
Qed.

(** ** The whole rebuild *)

Definition head_item (m : MasterKey) (head : AuditHead) : Item :=
  mkItem (audit_cipher m) AUDIT_HEAD_KEY (le_bytes 8 head.1 ++ head.2).
Definition history_items (m : MasterKey) (es : list AuditEntry) : list Item := imap (λ i en, audit_item m (i, en)) es.
Definition rotate_entry (time : Z) (head : AuditHead) : AuditEntry :=
  mkAuditEntry head.1 time audit_kind.ROTATE (zeros 16) (zeros 32) head.2.
Definition rebuilt_items (m : MasterKey) (snap : list TableDump) (es : list AuditEntry) (head : AuditHead) : list Item :=
  concat (map (table_items m) snap) ++ history_items m es ++ [head_item m head].

(** What the rebuild leaves: the sealed items over what was there before. *)
Record rebuilt (snap : list TableDump) (es : list AuditEntry) (head : AuditHead) (base : table) (e : Engine LocalBackend) : Prop := {
  rb_ready : ready e;
  rb_items : ∃ ents, Forall2 sealed_as (rebuilt_items (e_master e) snap es head) ents ∧ held e = apply_entries base ents;
  rb_head : e_audit_head e = head;
}.

Lemma imap_snoc {A C} (f : nat → A → C) l x : imap f (l ++ [x]) = imap f l ++ [f (length l) x].
Proof. rewrite list.imap_app. cbn. by rewrite Nat.add_0_r. Qed.

Lemma last_items_fit m i en head : wf_audit_entry en → length head.2 = 32%nat → items_fit [audit_item m (i, en); head_item m head].
Proof.
  intros Hw Hh. unfold items_fit, items_size, fits_u32. cbn [foldr audit_item head_item it_key it_plain fst snd].
  rewrite (length_audit_encode en Hw), length_app, length_bytes_le, Hh. unfold audit_entry_key.
  rewrite length_app, length_bytes_be. unfold AUDIT_ENTRY_LEN. cbn. lia.
Qed.

Section Rebuilding.
Context {B : Type} `{StrictBackend B}.

Lemma rebuild_run (old : Engine B) es snap fresh u e' :
  audit_state (view (btable := btable) old) (e_master old) (e_audit_head old) es → Z.of_nat (length es) < 2 ^ 64 - 1 → ready fresh →
  Forall (λ d, items_fit (table_items (e_master fresh) d)) snap → items_fit (history_items (e_master fresh) es) →
  rebuild old snap fresh = (Ok u, e') →
  ∃ time, let entry := rotate_entry time (e_audit_head old) in
    in_u 64 time ∧ e_master e' = e_master fresh ∧ e_local e' = e_local fresh ∧ e_txn_audit_head e' = e_txn_audit_head fresh ∧
    rebuilt snap (es ++ [entry]) (wadd 64 (e_audit_head old).1 1, audit_entry_root entry) (held fresh) e'.
Proof.
  intros Hst Hlen Hr Hf Hfa. unfold rebuild. unfold mbind at 1, m_bind at 1.
  destruct (foldM _ tt snap fresh) as [[u1|] e1] eqn:Ht; [|done].
  destruct (rebuild_tables_run snap fresh u1 e1 Hr Hf Ht) as (Hr1 & Hk1 & ents1 & Hes1 & Ht1).
  unfold mbind at 1, m_bind at 1, lift. rewrite (store_scan_strict (btable := btable)).
  destruct (audit_scan_keys _ _ _ _ Hst) as (l & Hl & Hkeys & Hopen). unfold view in Hl. rewrite Hl.
  unfold mbind at 1, m_bind at 1.
  destruct (reseal_run (B := LocalBackend) (e_master e1) (audit_cipher (e_master old)) l es e1 eq_refl Hopen Hkeys) as (ents2 & w & Hes2 & ->).
  unfold mbind at 1, m_bind at 1. destruct (commit_batch (mkBatch ents2) (with_world e1 w)) as [[u2|] e2] eqn:Hc; [|done].
  rewrite <- (kp_master _ _ Hk1) in Hfa. destruct (commit_run e1 w _ ents2 u2 e2 Hr1 Hes2 Hfa Hc) as (Hr2 & Hk2 & Ht2).
  unfold mbind at 1, m_bind at 1, modify. set (e3 := with_audit_head e2 (e_audit_head old)). intros Hlast.
  apply commit_with_audit_inv in Hlast as (time & n1 & n2 & Htime & Hn1 & Hn2 & Hlast). cbv zeta in Hlast.
  destruct Hlast as (Hcom & Hm & Hlo & Htx & Hh). exists time. cbv zeta.
  destruct (as_chain _ _ _ _ Hst) as (root & Hch & Hhd). pose proof (chain_root_length _ _ Hch) as Hroot.
  assert (Hseq : (e_audit_head old).1 = Z.of_nat (length es)) by (by rewrite Hhd).
  assert (Hprev : length (e_audit_head old).2 = 32%nat) by (by rewrite Hhd).
  change (e_audit_head e3) with (e_audit_head old) in *. change (e_master e3) with (e_master e2) in *.
  change (mkAuditEntry (e_audit_head old).1 time audit_kind.ROTATE (zeros 16) (zeros 32) (e_audit_head old).2)
    with (rotate_entry time (e_audit_head old)) in *.
  set (entry := rotate_entry time (e_audit_head old)) in *. set (head' := (wadd 64 (e_audit_head old).1 1, audit_entry_root entry)) in *.
  assert (Hwf : wf_audit_entry entry) by (split; cbn; [rewrite Hseq; split; lia | done | done | done | done]).
  assert (Hlen2 : length head'.2 = 32%nat) by apply length_sha256.
  set (s1 := cipher_seal (audit_cipher (e_master e2)) n1 _ _) in Hcom. set (s2 := cipher_seal (audit_cipher (e_master e2)) n2 _ _) in Hcom.
  assert (Hes3 : Forall2 sealed_as [audit_item (e_master e2) (length es, entry); head_item (e_master e2) head']
    [(OP_PUT, audit_entry_key (e_audit_head old).1, s1); (OP_PUT, AUDIT_HEAD_KEY, s2)]).
  { unfold audit_item, head_item. cbn [fst snd]. rewrite <- Hseq. constructor; [|constructor; [|constructor]].
    - exact (sealed_put _ n1 _ _ (wf_derive_key _ _) Hn1).
    - exact (sealed_put _ n2 _ _ (wf_derive_key _ _) Hn2). }
  assert (Hr3 : ready e3) by (by destruct Hr2).
  destruct (ready_commit e3 _ _ _ _ Hr3 Hes3 (last_items_fit _ _ _ _ Hwf Hlen2) Hcom ltac:(by destruct u)) as (Ho & Hd & Htab).
  pose proof (kept_trans _ _ _ Hk1 Hk2) as [Hkm Hkl _ Hkt]. rewrite Hkm in *.
  split; [done|]. split; [done|]. split; [by rewrite Hlo|]. split; [by rewrite Htx|].
  split; [by split | | by rewrite Hh; destruct u].
  exists (ents1 ++ ents2 ++ [(OP_PUT, audit_entry_key (e_audit_head old).1, s1); (OP_PUT, AUDIT_HEAD_KEY, s2)]). split.
  - unfold rebuilt_items, history_items. rewrite imap_snoc, <- app_assoc. rewrite Hm.
    apply Forall2_app; [exact Hes1|]. apply Forall2_app; [by rewrite (kp_master _ _ Hk1) in Hes2 | exact Hes3].
  - change (held e3) with (held e2) in Htab. unfold held at 1. by rewrite Htab, Ht2, Ht1, !apply_entries_app.
Qed.
End Rebuilding.

(** ** Reading the items back *)

Lemma items_lookup base items es k : Forall2 sealed_as items es →
  (∃ it s, it ∈ items ∧ it_key it = k ∧ opens it s ∧ apply_entries base es !! k = Some s) ∨
  ((∀ it, it ∈ items → it_key it ≠ k) ∧ apply_entries base es !! k = base !! k).
Proof.
  intros Hes. revert base. induction Hes as [|it en items es (s & -> & Ho & _) _ IH]; intros base.
  { right. split; [|done]. intros it Hit. by apply elem_of_nil in Hit. }
  cbn [apply_entries fold_left]. change (apply_entry base (OP_PUT, it_key it, s)) with (<[it_key it := s]> base).
  fold (apply_entries (<[it_key it := s]> base) es).
  destruct (IH (<[it_key it := s]> base)) as [(it' & s' & Hin & Hk & Ho' & Hl)|[Hno Hl]].
  { left. exists it', s'. split; [by apply list_elem_of_further|]. done. }
  destruct (decide (it_key it = k)) as [<-|Hne].
  - left. exists it, s. split; [apply list_elem_of_here|]. split; [done|]. split; [done|]. by rewrite Hl, lookup_insert_eq.
  - right. split; [|by rewrite Hl, lookup_insert_ne]. intros it' [->|Hin]%elem_of_cons; [done | by apply Hno].
Qed.

(** The kinds of items in a rebuild. *)
Inductive from_rebuild (m : MasterKey) (snap : list TableDump) (es : list AuditEntry) (head : AuditHead) : Item → Prop :=
| from_catalog schema seq rows : (schema, seq, rows) ∈ snap →
    from_rebuild m snap es head (mkItem (catalog_cipher m) (catalog_key m (ts_name schema)) (encode_schema schema))
| from_seq schema seq rows : (schema, seq, rows) ∈ snap →
    from_rebuild m snap es head (mkItem (table_key m (ts_name schema)) (seq_key m (ts_name schema)) (le_bytes 8 seq))
| from_row schema seq rows id row : (schema, seq, rows) ∈ snap → (id, row) ∈ rows →
    from_rebuild m snap es head (mkItem (table_key m (ts_name schema)) (row_key m (ts_name schema) id) (encode_row row))
| from_index table col value id plain :
    from_rebuild m snap es head (mkItem (table_key m table) (index_entry_key m table col value id) plain)
| from_range table col plain :
    from_rebuild m snap es head (mkItem (table_key m table) (range_index_key m table col) plain)
| from_audit i en : es !! i = Some en → from_rebuild m snap es head (audit_item m (i, en))
| from_head : from_rebuild m snap es head (head_item m head).

Lemma rebuilt_items_from m snap es head it : it ∈ rebuilt_items m snap es head → from_rebuild m snap es head it.
Proof.
  unfold rebuilt_items. rewrite !elem_of_app. intros [Ht|[Ha|Hh]].
  - apply list_elem_of_In, in_concat in Ht as (its & Hits & Hit). apply in_map_iff in Hits as ([[schema seq] rows] & <- & Hd).
    apply list_elem_of_In in Hd, Hit. unfold table_items in Hit.
    rewrite !elem_of_app, !list_elem_of_singleton in Hit. destruct Hit as [->|[->|[Hr|Hc]]].
    + by eapply from_catalog.
    + by eapply from_seq.
    + apply list_elem_of_In, in_concat in Hr as (its & Hits & Hit). apply in_map_iff in Hits as ([id row] & <- & Hr).
      apply list_elem_of_In in Hr. destruct Hit as [<-|Hit]; [by eapply from_row|].
      apply in_concat in Hit as (its & Hits & Hit). apply in_map_iff in Hits as (col & <- & _).
      cbn [fst snd] in Hit. destruct (is_null (row !!! col)); [destruct Hit | destruct Hit as [<-|[]]; apply from_index].
    + apply list_elem_of_In, in_concat in Hc as (its & Hits & Hit). apply in_map_iff in Hits as (col & <- & _).
      destruct Hit as [<-|[]]. apply from_range.
  - apply elem_of_lookup_imap in Ha as (i & en & -> & Hi). by apply from_audit.
  - apply list_elem_of_singleton in Hh as ->. apply from_head.
Qed.

Lemma in_table_items m snap es head dump it : dump ∈ snap → it ∈ table_items m dump → it ∈ rebuilt_items m snap es head.
Proof.
  intros Hd Hit. unfold rebuilt_items. apply elem_of_app. left. apply list_elem_of_In, in_concat.
  exists (table_items m dump). split; [apply in_map|]; by apply list_elem_of_In.
Qed.

(** What the tables of a dump satisfy. *)
Record wf_dump (dump : TableDump) : Prop := {
  wd_schema : wf_schema dump.1.1;
  wd_seq : in_u 64 dump.1.2;
  wd_rows : Forall (λ r, in_u 64 r.1 ∧ wf_row r.2) dump.2;
  wd_ids : StronglySorted (λ r r' : Z * list Value, r.1 < r'.1) dump.2;
}.
Definition dump_name (dump : TableDump) : bytes := ts_name dump.1.1.
(** The tags of the tables under a key differ; names are listed once, in order. *)
Record coherent (m : MasterKey) (snap : list TableDump) : Prop := {
  ch_dumps : Forall wf_dump snap;
  ch_nodup : NoDup (map dump_name snap);
  ch_sorted : StronglySorted bytes_le (map dump_name snap);
  ch_tags : ∀ d d', d ∈ snap → d' ∈ snap → table_tag m (dump_name d) = table_tag m (dump_name d') → dump_name d = dump_name d';
}.

Lemma unique_dump snap d d' : NoDup (map dump_name snap) → d ∈ snap → d' ∈ snap → dump_name d = dump_name d' → d = d'.
Proof.
  intros Hnd [i Hi]%list_elem_of_lookup [j Hj]%list_elem_of_lookup Hn.
  assert (i = j) as ->; [|congruence]. eapply (NoDup_lookup (map dump_name snap)); [done| |].
  - transitivity (dump_name <$> snap !! i); [apply (list_lookup_fmap dump_name) | by rewrite Hi].
  - transitivity (dump_name <$> snap !! j); [apply (list_lookup_fmap dump_name) | rewrite Hj, Hn; reflexivity].
Qed.

Lemma unique_row (rows : list (Z * list Value)) r r' : StronglySorted (λ a b : Z * list Value, a.1 < b.1) rows → r ∈ rows → r' ∈ rows → r.1 = r'.1 → r = r'.
Proof.
  induction 1 as [|x rows _ IH Hx]; intros Hr Hr' Heq; [by apply elem_of_nil in Hr|]. rewrite list.Forall_forall in Hx.
  apply elem_of_cons in Hr as [->|Hr], Hr' as [->|Hr']; [done | | | by apply IH].
  - pose proof (Hx _ Hr'). lia.
  - pose proof (Hx _ Hr). lia.
Qed.

Lemma row_key_inj m n id n' id' : in_u 64 id → in_u 64 id' → row_key m n id = row_key m n' id' →
  table_tag m n = table_tag m n' ∧ id = id'.
Proof.
  intros Hi Hi' H. unfold row_key, row_prefix in H. rewrite <- !app_assoc in H. apply app_inv_head in H.
  apply app_inj_1 in H as [Ht Hb]; [|by rewrite !length_table_tag]. split; [done|]. by apply (be_bytes_inj 8).
Qed.

Lemma rowid_row_key m n id : in_u 64 id → rowid_from_key (row_key m n id) = id.
Proof.
  intros Hi. unfold rowid_from_key, row_key. rewrite length_app, length_bytes_be.
  rewrite drop_app_length' by lia. by apply (from_be_small 8).
Qed.

Lemma sorted_at {A} (R : A → A → Prop) l i j x y : StronglySorted R l → l !! i = Some x → l !! j = Some y → (i < j)%nat → R x y.
Proof.
  intros Hs. revert i j. induction Hs as [|a l _ IH Ha]; intros [|i] [|j] Hi Hj Hij; try done; [lia| |lia|].
  - injection Hi as <-. rewrite list.Forall_forall in Ha. apply Ha. by eapply list_elem_of_lookup_2.
  - eapply IH; [done..|]. lia.
Qed.

Section Reading.
Context (snap : list TableDump) (es : list AuditEntry) (head : AuditHead) (base : table) (e : Engine LocalBackend).
Hypothesis Hrb : rebuilt snap es head base e.
Hypothesis Hbase : ∀ k, k ≠ KEYPARAMS_KEY → k ≠ CANARY_KEY → base !! k = None.
Hypothesis Hsnap : coherent (e_master e) snap.
#[local] Abbreviation m := (e_master e).

Lemma held_get k : store_get (e_store e) k = Ok (held e !! k).
Proof.
  rewrite (store_get_strict (btable := local_table)). unfold held. unfold store_abs, tx_view.
  by rewrite (rd_overlay _ (rb_ready _ _ _ _ _ Hrb)).
Qed.
Lemma held_scan p : store_scan_prefix (e_store e) p = Ok (btree_iter (filter (λ kv, starts_with p kv.1 = true) (held e))).
Proof.
  rewrite (store_scan_strict (btable := local_table)). unfold held. unfold store_abs, tx_view.
  by rewrite (rd_overlay _ (rb_ready _ _ _ _ _ Hrb)).
Qed.

(** The only item under a key is what the key opens to. *)
Lemma item_found it : it ∈ rebuilt_items m snap es head →
  (∀ it', from_rebuild m snap es head it' → it_key it' = it_key it → it' = it) →
  ∃ s, held e !! it_key it = Some s ∧ opens it s.
Proof.
  intros Hin Hu. destruct (rb_items _ _ _ _ _ Hrb) as (ents & Hes & Hheld).
  destruct (items_lookup base _ ents (it_key it) Hes) as [(it' & s & Hin' & Hk & Ho & Hl)|[Hno _]].
  - apply rebuilt_items_from in Hin'. rewrite (Hu it' Hin' Hk) in Ho. exists s. by rewrite Hheld.
  - by destruct (Hno it Hin).
Qed.
Lemma held_inv k s : held e !! k = Some s → k ≠ KEYPARAMS_KEY → k ≠ CANARY_KEY →
  ∃ it, from_rebuild m snap es head it ∧ it_key it = k ∧ opens it s.
Proof.
  intros Hk H1 H2. destruct (rb_items _ _ _ _ _ Hrb) as (ents & Hes & Hheld). rewrite Hheld in Hk.
  destruct (items_lookup base _ ents k Hes) as [(it & s' & Hin & Hik & Ho & Hl)|[_ Hl]].
  - exists it. split; [by apply rebuilt_items_from|]. split; [done|]. congruence.
  - rewrite Hl, (Hbase k H1 H2) in Hk. discriminate Hk.
Qed.

Lemma same_dump d d' : d ∈ snap → d' ∈ snap → table_tag m (dump_name d) = table_tag m (dump_name d') → d = d'.
Proof. intros Hd Hd' Ht. apply (unique_dump snap); [apply Hsnap | done | done |]. by apply (ch_tags _ _ Hsnap). Qed.

Lemma catalog_found schema seq rows : (schema, seq, rows) ∈ snap →
  ∃ s, held e !! catalog_key m (ts_name schema) = Some s ∧
    opens (mkItem (catalog_cipher m) (catalog_key m (ts_name schema)) (encode_schema schema)) s.
Proof.
  intros Hd. apply (item_found (mkItem (catalog_cipher m) (catalog_key m (ts_name schema)) (encode_schema schema))).
  - eapply in_table_items; [exact Hd|]. apply list_elem_of_here.
  - intros it' Hit' Hk. destruct Hit' as [schema' seq' rows' Hd'| | | | | |]; cbn [it_key audit_item head_item] in Hk; [| discriminate Hk..].
    unfold catalog_key in Hk. apply app_inv_head in Hk. by injection (same_dump _ _ Hd' Hd Hk) as -> _ _.
Qed.

Lemma seq_found schema seq rows : (schema, seq, rows) ∈ snap →
  ∃ s, held e !! seq_key m (ts_name schema) = Some s ∧
    opens (mkItem (table_key m (ts_name schema)) (seq_key m (ts_name schema)) (le_bytes 8 seq)) s.
Proof.
  intros Hd. apply (item_found (mkItem (table_key m (ts_name schema)) (seq_key m (ts_name schema)) (le_bytes 8 seq))).
  - eapply in_table_items; [exact Hd|]. apply list_elem_of_further, list_elem_of_here.
  - intros it' Hit' Hk. destruct Hit' as [ |schema' seq' rows' Hd'| | | | |]; cbn [it_key audit_item head_item] in Hk; [discriminate Hk | | discriminate Hk..].
    unfold seq_key in Hk. apply app_inv_head in Hk. by injection (same_dump _ _ Hd' Hd Hk) as -> -> _.
Qed.

Lemma row_found schema seq rows id row : (schema, seq, rows) ∈ snap → (id, row) ∈ rows →
  ∃ s, held e !! row_key m (ts_name schema) id = Some s ∧
    opens (mkItem (table_key m (ts_name schema)) (row_key m (ts_name schema) id) (encode_row row)) s.
Proof.
  intros Hd Hr. apply (item_found (mkItem (table_key m (ts_name schema)) (row_key m (ts_name schema) id) (encode_row row))).
  - eapply in_table_items; [exact Hd|]. unfold table_items. rewrite !elem_of_app. right; right; left.
    apply list_elem_of_In, in_concat. exists (row_items m schema (id, row)).
    split; [by apply in_map, list_elem_of_In | by left].
  - intros it' Hit' Hk. destruct Hit' as [ | |schema' seq' rows' id' row' Hd' Hr'| | | |]; cbn [it_key audit_item head_item] in Hk; [discriminate Hk | discriminate Hk | | discriminate Hk..].
    pose proof (ch_dumps _ _ Hsnap) as Hwd. rewrite list.Forall_forall in Hwd.
    pose proof (wd_rows _ (Hwd _ Hd)) as Hw. pose proof (wd_rows _ (Hwd _ Hd')) as Hw'. rewrite list.Forall_forall in Hw, Hw'.
    destruct (Hw _ Hr) as [Hi _], (Hw' _ Hr') as [Hi' _].
    apply row_key_inj in Hk as [Ht ->]; [|done|done]. injection (same_dump _ _ Hd' Hd Ht) as -> -> ->.
    by injection (unique_row rows _ _ (wd_ids _ (Hwd _ Hd)) Hr' Hr eq_refl) as ->.
Qed.

Lemma read_schema schema seq rows : (schema, seq, rows) ∈ snap → expect_schema e (ts_name schema) = Ok schema.
Proof.
  intros Hd. destruct (catalog_found schema seq rows Hd) as (s & Hs & Ho). unfold opens in Ho. cbn [it_cipher it_key it_plain] in Ho.
  pose proof (ch_dumps _ _ Hsnap) as Hw. rewrite list.Forall_forall in Hw.
  unfold expect_schema, table_schema. rewrite held_get. result_simpl. rewrite Hs. unfold open_sealed. rewrite Ho. result_simpl.
  by rewrite (decode_schema_encode schema (wd_schema _ (Hw _ Hd))).
Qed.

Lemma read_seq schema seq rows : (schema, seq, rows) ∈ snap → load_seq e (ts_name schema) = Ok seq.
Proof.
  intros Hd. destruct (seq_found schema seq rows Hd) as (s & Hs & Ho). unfold opens in Ho. cbn [it_cipher it_key it_plain] in Ho.
  pose proof (ch_dumps _ _ Hsnap) as Hw. rewrite list.Forall_forall in Hw.
  unfold load_seq. rewrite held_get. result_simpl. rewrite Hs. unfold open_sealed. rewrite Ho. result_simpl.
  rewrite length_bytes_le, Nat.eqb_refl. by rewrite (from_le_small 8 seq (wd_seq _ (Hw _ Hd))).
Qed.

Lemma rows_listed schema seq rows : (schema, seq, rows) ∈ snap →
  ∃ l, btree_iter (filter (λ kv, starts_with (row_prefix m (ts_name schema)) kv.1 = true) (held e)) = l ∧
    Forall2 (λ kv r, kv.1 = row_key m (ts_name schema) r.1 ∧ cipher_open (table_key m (ts_name schema)) kv.2 kv.1 = Ok (encode_row r.2)) l rows.
Proof.
  intros Hd. set (n := ts_name schema). pose proof (ch_dumps _ _ Hsnap) as Hwd. rewrite list.Forall_forall in Hwd.
  pose proof (wd_rows _ (Hwd _ Hd)) as Hw. pose proof (wd_ids _ (Hwd _ Hd)) as Hids. cbn [fst snd] in Hw, Hids. rewrite list.Forall_forall in Hw.
  set (entry := λ r : Z * list Value, (row_key m n r.1, default [] (held e !! row_key m n r.1))).
  exists (entry <$> rows). split.
  - apply increasing_listing.
    + intros i j x y Hi Hj Hij. apply list_lookup_fmap_Some in Hi as (r & -> & Hr), Hj as (r' & -> & Hr'). unfold entry. cbn [fst].
      unfold row_key. rewrite bytes_cmp_prefix.
      destruct (Hw r) as [Hi1 _]; [by eapply list_elem_of_lookup_2|]. destruct (Hw r') as [Hi2 _]; [by eapply list_elem_of_lookup_2|].
      rewrite bytes_cmp_be by done. apply Z.compare_lt_iff. exact (sorted_at _ _ _ _ _ _ Hids Hr Hr' Hij).
    + intros k s. rewrite map_lookup_filter_Some. cbn [fst]. split.
      * intros Hin. apply list_elem_of_fmap in Hin as ([id row] & Heq & Hr). unfold entry in Heq. cbn [fst] in Heq. injection Heq as -> ->.
        destruct (row_found schema seq rows id row Hd Hr) as (s & Hs & _). fold n in Hs. rewrite Hs. split; [done|].
        apply starts_with_app. by eexists.
      * intros [Hs Hp]. destruct (held_inv k s Hs) as (it & Hit & <- & Ho); [by intros -> | by intros ->|].
        destruct Hit as [| |schema' seq' rows' id row Hd' Hr| | | |]; cbn [it_key audit_item head_item] in Hp, Hs;
          [discriminate Hp | discriminate Hp | | discriminate Hp..].
        apply starts_with_app in Hp as [rest Hp]. unfold row_key, row_prefix in Hp. rewrite <- !app_assoc in Hp. apply app_inv_head in Hp.
        apply app_inj_1 in Hp as [Ht _]; [|by rewrite !length_table_tag].
        injection (same_dump _ _ Hd' Hd Ht) as -> -> ->. cbn [it_key]. apply list_elem_of_fmap. exists (id, row).
        split; [|done]. unfold entry. cbn [fst]. fold n in Hs |- *. rewrite Hs. reflexivity.
  - apply Forall2_fmap_l. apply Forall_Forall2_diag. apply list.Forall_forall. intros [id row] Hr. unfold entry, compose. cbn [fst snd].
    destruct (row_found schema seq rows id row Hd Hr) as (s & Hs & Ho). fold n in Hs, Ho. rewrite Hs. by split.
Qed.

Lemma read_rows schema seq rows : (schema, seq, rows) ∈ snap →
  scan_rows e (ts_name schema) = Ok (map (λ r, (row_key m (ts_name schema) r.1, r.2)) rows).
Proof.
  intros Hd. destruct (rows_listed schema seq rows Hd) as (l & Hl & Hrows).
  pose proof (ch_dumps _ _ Hsnap) as Hwd. rewrite list.Forall_forall in Hwd. pose proof (wd_rows _ (Hwd _ Hd)) as Hw. cbn [snd] in Hw.
  unfold scan_rows. rewrite held_scan, Hl. result_simpl. clear Hl Hd.
  induction Hrows as [|[k s] [id row] l rows [Hk Ho] _ IH]; [done|]. apply list.Forall_cons in Hw as [[_ Hr] Hw]. cbn [fst snd] in Hk, Ho, Hr.
  cbn [mapR map fst snd].
  assert (open_row (table_key m (ts_name schema)) k s = Ok row) as -> by (unfold open_row, open_sealed; rewrite Ho; exact (decode_row_encode _ Hr)).
  result_simpl. rewrite (IH Hw). result_simpl. by rewrite Hk.
Qed.

Lemma read_dump d : d ∈ snap → dump_table e (dump_name d) = Ok d.
Proof.
  destruct d as [[schema seq] rows]. unfold dump_name. cbn [fst]. intros Hd. unfold dump_table.
  rewrite (read_schema _ _ _ Hd). result_simpl. rewrite (read_seq _ _ _ Hd). result_simpl. rewrite (read_rows _ _ _ Hd). result_simpl.
  pose proof (ch_dumps _ _ Hsnap) as Hwd. rewrite list.Forall_forall in Hwd. pose proof (wd_rows _ (Hwd _ Hd)) as Hw. cbn [snd] in Hw.
  rewrite map_map. do 2 f_equal. clear Hd. induction Hw as [|[id row] rows [Hi _] _ IH]; [done|]. cbn [map fst snd].
  by rewrite IH, rowid_row_key.
Qed.

Lemma read_names : engine_tables e = Ok (map dump_name snap).
Proof.
  unfold engine_tables. rewrite held_scan. result_simpl. set (l := btree_iter _).
  assert (Hl : ∀ kv, kv ∈ l → ∃ n, (plain ← open_sealed (catalog_cipher m) kv.2 kv.1; schema ← decode_schema plain; Ok (ts_name schema)) = Ok n ∧
    n ∈ map dump_name snap ∧ kv.1 = catalog_key m n).
  { intros [k s] Hkv. apply elem_of_btree_iter, map_lookup_filter_Some in Hkv as [Hs Hp]. cbn [fst snd] in Hp |- *.
    destruct (held_inv k s Hs) as (it & Hit & <- & Ho); [by intros -> | by intros ->|].
    destruct Hit as [schema seq rows Hd| | | | | |]; cbn [it_key audit_item head_item] in Hp; [| discriminate Hp..].
    unfold opens in Ho. cbn [it_cipher it_key it_plain] in Ho |- *. exists (ts_name schema).
    pose proof (ch_dumps _ _ Hsnap) as Hw. rewrite list.Forall_forall in Hw.
    unfold open_sealed. rewrite Ho. result_simpl. rewrite (decode_schema_encode schema (wd_schema _ (Hw _ Hd))). split; [done|].
    split; [|done]. apply list_elem_of_fmap. by exists (schema, seq, rows). }
  assert (Hnd : NoDup l.*1) by apply btree_iter_nodup.
  assert (Hnames : ∃ names, mapR (λ '(key, sealed), plain ← open_sealed (catalog_cipher m) sealed key; schema ← decode_schema plain; Ok (ts_name schema)) l
    = Ok names ∧ Forall (λ n, n ∈ map dump_name snap) names ∧ l.*1 = map (catalog_key m) names).
  { clear Hnd. clearbody l. induction l as [|[k s] l IH]; [by exists []|].
    destruct (Hl (k, s)) as (n & Hn & Hin & Hk); [apply list_elem_of_here|]. cbn [fst snd] in Hn, Hk.
    destruct IH as (names & Hm & Hall & Hkeys); [intros kv Hkv; apply Hl; by apply list_elem_of_further|].
    exists (n :: names). cbn [mapR]. rewrite Hn. result_simpl. rewrite Hm. result_simpl. split; [done|].
    split; [by constructor|]. rewrite fmap_cons, Hkeys. cbn [fst map]. by rewrite Hk. }
  destruct Hnames as (names & -> & Hall & Hkeys). result_simpl. f_equal. rewrite list.Forall_forall in Hall.
  assert (Hperm : names ≡ₚ map dump_name snap).
  { apply NoDup_Permutation; [rewrite Hkeys in Hnd; by apply NoDup_fmap_1 in Hnd | apply Hsnap|].
    intros n. split; [apply Hall|]. intros Hn. apply list_elem_of_fmap in Hn as ([[schema seq] rows] & -> & Hd).
    destruct (catalog_found schema seq rows Hd) as (s & Hs & _). unfold dump_name. cbn [fst].
    assert (Hin : catalog_key m (ts_name schema) ∈ l.*1).
    { apply list_elem_of_fmap. exists (catalog_key m (ts_name schema), s). split; [done|].
      apply elem_of_btree_iter, map_lookup_filter_Some. split; [done|]. apply starts_with_app. by eexists. }
    rewrite Hkeys in Hin. apply list_elem_of_fmap in Hin as (n & Hk & Hin). apply app_inv_head in Hk.
    apply Hall in Hin as Hn. apply list_elem_of_fmap in Hn as (d & -> & Hd').
    pose proof (same_dump _ _ Hd Hd' Hk) as <-. exact Hin. }
  apply (StronglySorted_unique bytes_le); [|apply Hsnap | by rewrite stable_sort_perm].
  pose proof bytes_cmp_total. apply (stable_sort_sorted bytes_cmp (P := λ _, True)), list.Forall_true. done.
Qed.

Lemma read_dumps : dump_tables e = Ok snap.
Proof.
  unfold dump_tables. rewrite read_names. result_simpl.
  assert (Hall : Forall (λ d, dump_table e (dump_name d) = Ok d) snap) by (apply list.Forall_forall, read_dump).
  clear -Hall. induction Hall as [|d snap Hd _ IH]; [done|]. cbn [map mapR]. rewrite Hd. result_simpl. by rewrite IH.
Qed.

Lemma audit_found i en : small_chain es → es !! i = Some en → ∃ s, held e !! audit_entry_key (Z.of_nat i) = Some s ∧ opens (audit_item m (i, en)) s.
Proof.
  intros Hsm Hi. apply (item_found (audit_item m (i, en))).
  - unfold rebuilt_items. rewrite !elem_of_app. right; left. apply elem_of_lookup_imap. by exists i, en.
  - intros it' Hit' Hk. destruct Hit' as [| | | | |j en' Hj|]; cbn [it_key audit_item head_item fst] in Hk; try discriminate Hk.
    apply audit_key_inj in Hk; [|by eapply chain_index_small..]. assert (i = j) as -> by lia. by rewrite Hi in Hj; injection Hj as ->.
Qed.

Lemma rebuilt_audit root : audit_chain es root → es ≠ [] → head = (Z.of_nat (length es), root) → small_chain es → audit_state (held e) m head es.
Proof.
  intros Hc Hne Hh Hsm. split; [by exists root | done | | |].
  - intros k s Hs Hp. destruct (held_inv k s Hs) as (it & Hit & <- & _); [by intros -> | by intros ->|].
    destruct Hit as [| | | | |i en Hi|]; cbn [it_key audit_item head_item fst] in Hp |- *; try discriminate Hp.
    exists i. split; [by eapply lookup_lt_Some | done].
  - intros i en Hi. destruct (audit_found i en Hsm Hi) as (s & Hs & Ho). by exists s.
  - destruct (item_found (head_item m head)) as (s & Hs & Ho).
    + unfold rebuilt_items. rewrite !elem_of_app. right; right. apply list_elem_of_here.
    + intros it' Hit' Hk. destruct Hit'; cbn [it_key audit_item head_item] in Hk; [discriminate Hk.. | done].
    + assert (Hcons : ∀ l : list AuditEntry, l ≠ [] → match l with [] => held e !! AUDIT_HEAD_KEY = None | _ =>
        ∃ s, held e !! AUDIT_HEAD_KEY = Some s ∧ cipher_open (audit_cipher m) s AUDIT_HEAD_KEY = Ok (le_bytes 8 head.1 ++ head.2) end).
      { intros [|en l] Hl; [done|]. exists s. by split. }
      exact (Hcons es Hne).
Qed.

(** The records that opening rests on are what they were. *)
Lemma rebuilt_credentials kdf salt pass : credentials base kdf salt pass → credentials (held e) kdf salt pass.
Proof.
  intros Hcr. destruct (rb_items _ _ _ _ _ Hrb) as (ents & Hes & Hheld).
  assert (Hkeep : ∀ k, k = KEYPARAMS_KEY ∨ k = CANARY_KEY → held e !! k = base !! k).
  { intros k Hk. rewrite Hheld. destruct (items_lookup base _ ents k Hes) as [(it & s & Hin & Hik & _)|[_ Hl]]; [|exact Hl].
    apply rebuilt_items_from in Hin. destruct Hin; cbn [it_key audit_item head_item] in Hik; destruct Hk as [-> | ->]; discriminate Hik. }
  apply (credentials_same base); [done | apply Hkeep; by left | apply Hkeep; by right].
Qed.
End Reading.

(** ** Creating and opening directories *)

Lemma open_put_durable (s s' : Store LocalBackend) k v : overlay s = None → durable (lb_storage (backend s)) → kv_fits k v →
  open_put s k v = Ok s' → durable (lb_storage (backend s')).
Proof.
  intros Ho Hd Hf. unfold open_put, store_put. rewrite Ho. unfold store_backend_write. cbn [backend_put local_backend]. unfold local_write.
  destruct (default IoOk _); cbn; intros Heq; [|discriminate Heq..]. apply ok_inj in Heq as <-. cbn [backend lb_storage].
  by apply (storage_step_durable (lb_storage (backend s))); [|eapply step_put].
Qed.

Lemma open_put_healthy (s : Store LocalBackend) k v : overlay s = None → lb_outcomes (backend s) = [] →
  ∃ s', open_put s k v = Ok s' ∧ overlay s' = None ∧ lb_outcomes (backend s') = [].
Proof.
  intros Ho Hh. unfold open_put, store_put. rewrite Ho. unfold store_backend_write. cbn [backend_put local_backend]. unfold local_write.
  rewrite Hh. cbn. by eexists.
Qed.

Lemma length_keyparams kdf salt : (length (encode_keyparams kdf salt) ≤ 24 + length salt)%nat.
Proof. unfold encode_keyparams. destruct kdf; rewrite !length_app, !length_bytes_le; cbn; lia. Qed.

Lemma keyparams_fit kdf w : kv_fits KEYPARAMS_KEY (encode_keyparams kdf (new_salt w)).
Proof.
  pose proof (length_keyparams kdf (new_salt w)) as Hl. unfold new_salt in *. rewrite length_resize in Hl.
  unfold kv_fits, record_fits, fits_u32. cbn [fst snd]. change (length KEYPARAMS_KEY) with 10%nat. unfold SALT_LEN in *. lia.
Qed.
Lemma canary_fits cipher nonce : wf_cipher_key cipher → length nonce = NONCE_LEN →
  kv_fits CANARY_KEY (cipher_seal cipher nonce CANARY_PLAINTEXT CANARY_KEY).
Proof. intros Hc Hn. unfold kv_fits, record_fits, fits_u32. cbn [fst snd]. rewrite length_cipher_seal by done. cbn. lia. Qed.

Lemma open_with_kdf_works (fs : FsCall → bool) w io d pass kdf e : open_with_kdf fs w io d pass kdf = Ok e → fs CreateDir = true ∧ fs OpenWal = true.
Proof. unfold open_with_kdf. by destruct (fs CreateDir), (fs OpenWal). Qed.

Lemma open_empty (fs : FsCall → bool) w io pass kdf : fs CreateDir = true → fs OpenWal = true →
  open_with_kdf fs w io empty_directory pass kdf = open_store w (store_local (mkLocal (storage_open []) io)) true pass kdf.
Proof. intros H1 H2. unfold open_with_kdf. by rewrite H1, H2. Qed.

Lemma open_empty_ready fs w io pass kdf fresh : wf_kdf kdf → open_with_kdf fs w io empty_directory pass kdf = Ok fresh →
  ready fresh ∧ e_master fresh = derive_master kdf pass (new_salt w) ∧ e_local fresh = true ∧ e_txn_audit_head fresh = None ∧
  credentials (held fresh) kdf (new_salt w) pass ∧ (∀ k, k ≠ KEYPARAMS_KEY → k ≠ CANARY_KEY → held fresh !! k = None).
Proof.
  intros Hk Hopen. destruct (open_with_kdf_works _ _ _ _ _ _ _ Hopen) as [H1 H2]. rewrite (open_empty fs w io pass kdf H1 H2) in Hopen.
  destruct (open_store_creates (btable := local_table) (mkLocal (storage_open []) io) w true pass kdf fresh eq_refl Hopen)
    as (s1 & nonce & w' & Hn & Hp1 & Hp2 & He & Ho & Ht).
  set (s0 := store_local (mkLocal (storage_open []) io)) in *.
  destruct (open_put_view (btable := local_table) s0 s1 _ _ eq_refl Hp1) as [Ho1 _].
  pose proof (open_put_durable s0 s1 _ _ eq_refl (open_durable []) (keyparams_fit kdf w) Hp1) as Hd1.
  pose proof (open_put_durable _ _ _ _ Ho1 Hd1 (canary_fits _ nonce (wf_derive_key _ _) Hn) Hp2) as Hd2.
  split; [by split|]. unfold held. rewrite Ht. split; [by rewrite He|]. split; [by rewrite He|]. split; [by rewrite He|].
  split; [by apply created_credentials|]. intros k Hk1 Hk2. by rewrite !lookup_insert_ne, lookup_empty by done.
Qed.

Lemma open_empty_healthy (fs : FsCall → bool) w pass kdf : fs CreateDir = true → fs OpenWal = true →
  ∃ fresh, open_with_kdf fs w [] empty_directory pass kdf = Ok fresh ∧ healthy fresh ∧ overlay (e_store fresh) = None.
Proof.
  intros H1 H2. rewrite (open_empty fs w [] pass kdf H1 H2). unfold open_store. fold (new_salt w).
  rewrite !(store_get_strict (btable := local_table)). change (tx_view (store_abs (btable := local_table) (store_local (mkLocal (storage_open []) [])))) with (∅ : table).
  rewrite lookup_empty. result_simpl.
  destruct (open_put_healthy (store_local (mkLocal (storage_open []) [])) KEYPARAMS_KEY (encode_keyparams kdf (new_salt w)) eq_refl eq_refl) as (s1 & Hp1 & Ho1 & Hh1).
  rewrite Hp1. result_simpl. destruct (open_put_view (btable := local_table) (store_local (mkLocal (storage_open []) [])) s1 _ _ eq_refl Hp1) as [_ Ht1].
  change (local_table (backend (store_local (mkLocal (storage_open []) [])))) with (∅ : table) in Ht1.
  assert (Hv1 : tx_view (store_abs (btable := local_table) s1) = <[KEYPARAMS_KEY := encode_keyparams kdf (new_salt w)]> ∅) by (unfold store_abs; by rewrite Ho1).
  rewrite !(store_get_strict (btable := local_table)), Hv1, lookup_insert_ne, lookup_empty by done. result_simpl.
  set (c := cipher_seal _ _ _ _).
  destruct (open_put_healthy s1 CANARY_KEY c Ho1 Hh1) as (s2 & Hp2 & Ho2 & Hh2). rewrite Hp2. result_simpl.
  destruct (open_put_view (btable := local_table) _ _ _ _ Ho1 Hp2) as [_ Ht2].
  assert (Hv2 : tx_view (store_abs (btable := local_table) s2) = <[CANARY_KEY := c]> (local_table (backend s1))) by (unfold store_abs; by rewrite Ho2).
  rewrite !(store_get_strict (btable := local_table)), Hv2, Ht1, !lookup_insert_ne, lookup_empty by done. result_simpl.
  eexists. split; [reflexivity|]. by split.
Qed.

(** Opening the log that an engine left. *)
Lemma reopen (fs : FsCall → bool) w io d pass kdf0 kdf salt e h es : fs CreateDir = true → fs OpenWal = true →
  d_wal d = Some (engine_wal e) → durable (lb_storage (backend (e_store e))) →
  credentials (held e) kdf salt pass → audit_state (held e) (derive_master kdf pass salt) h es →
  open_with_kdf fs w io d pass kdf0 =
    Ok (mkEngine (store_local (mkLocal (lb_storage (backend (e_store e))) io)) (derive_master kdf pass salt) true h None advisor_default w).
Proof.
  intros H1 H2 Hw Hd Hcr Ha. unfold open_with_kdf. rewrite H1, H2, Hw. cbn [negb]. unfold engine_wal. cbn [default from_option id]. rewrite (durable_open _ Hd).
  rewrite (store_get_strict (btable := local_table)). result_simpl.
  change (tx_view (store_abs (btable := local_table) (store_local (mkLocal (lb_storage (backend (e_store e))) io)))) with (held e).
  rewrite (cr_params _ _ _ _ Hcr). result_simpl.
  apply (open_store_recorded (btable := local_table) (mkLocal (lb_storage (backend (e_store e))) io) w pass kdf0 kdf salt h es true); [exact Hcr | exact Ha].
Qed.

(** ** A rotation that nothing disturbs *)

Lemma reseal_healthy old_audit l es (e : Engine LocalBackend) :
  Forall2 (λ kv en, cipher_open old_audit kv.2 kv.1 = Ok (audit_encode en)) l es →
  l.*1 = imap (λ i _, audit_entry_key (Z.of_nat i)) es →
  ∃ batch w, reseal_audit old_audit l e = (Ok batch, with_world e w).
Proof.
  intros Hl Hk. destruct (reseal_run (e_master e) old_audit l es e eq_refl Hl Hk) as (ents & w & _ & Hr). by eexists _, _.
Qed.

Lemma rebuild_healthy {B} `{StrictBackend B} (old : Engine B) es snap fresh :
  audit_state (view (btable := btable) old) (e_master old) (e_audit_head old) es →
  overlay (e_store fresh) = None → healthy fresh → ∃ e', rebuild old snap fresh = (Ok tt, e').
Proof.
  intros Hst Ho Hh. unfold rebuild. unfold mbind at 1, m_bind at 1.
  destruct (rebuild_tables_healthy snap fresh Ho Hh) as (e1 & -> & Ho1 & Hh1).
  unfold mbind at 1, m_bind at 1, lift. rewrite (store_scan_strict (btable := btable)).
  destruct (audit_scan_keys _ _ _ _ Hst) as (l & Hl & Hkeys & Hopen). unfold view in Hl. rewrite Hl.
  unfold mbind at 1, m_bind at 1. destruct (reseal_healthy _ l es e1 Hopen Hkeys) as (batch & w & ->).
  unfold mbind at 1, m_bind at 1. destruct (commit_healthy (with_world e1 w) batch Ho1 Hh1) as (e2 & -> & Ho2 & Hh2).
  unfold mbind at 1, m_bind at 1, modify. set (e3 := with_audit_head e2 (e_audit_head old)).
  destruct (commit_with_audit _ _ _ _ e3) as [r e'] eqn:Hc. exists e'.
  apply commit_with_audit_inv in Hc as (time & n1 & n2 & _ & _ & _ & Hcom & _). cbv zeta in Hcom.
  set (b2 := batch_put _ _ _) in Hcom. destruct (store_commit_healthy (e_store e3) b2 Hh2) as [Hr _].
  rewrite Hcom in Hr. cbn [fst] in Hr. by rewrite Hr.
Qed.

(** What an opened database must hold after the rotation. *)
Record carried (snap : list TableDump) (chain : list AuditEntry) (master : MasterKey) (e : Engine LocalBackend) : Prop := {
  ca_tables : dump_tables e = Ok snap;
  ca_audit : audit_verify e = Ok chain;
  ca_master : e_master e = master;
  ca_idle : store_in_transaction (e_store e) = false;
}.
(** Whoever opens the directory with the passphrase gets such a database. *)
Definition opens_to (d : Directory) (pass : bytes) (P : Engine LocalBackend → Prop) : Prop :=
  ∀ (fs : FsCall → bool) w io kdf, fs CreateDir = true → fs OpenWal = true → ∃ e, open_with_kdf fs w io d pass kdf = Ok e ∧ P e.

Section Rotation.
Context (e : Engine LocalBackend) (es : list AuditEntry) (snap : list TableDump) (w : World) (pass : bytes) (kdf : KdfParams).
#[local] Abbreviation master := (derive_master kdf pass (new_salt w)).
Hypothesis Hst : audit_state (view (btable := local_table) e) (e_master e) (e_audit_head e) es.
Hypothesis Hlen : Z.of_nat (length es) < 2 ^ 64 - 1.
Hypothesis Hkdf : wf_kdf kdf.
Hypothesis Hcoh : coherent master snap.
Hypothesis Hfit : Forall (λ d, items_fit (table_items master d)) snap.
Hypothesis Hfits : items_fit (history_items master es).

(** The scratch engine after the rebuild, and whoever opens its log. *)
Lemma rebuild_carries fs io fresh u e1 : open_with_kdf fs w io empty_directory pass kdf = Ok fresh →
  rebuild e snap fresh = (Ok u, e1) →
  ∃ time, let chain := es ++ [rotate_entry time (e_audit_head e)] in
    ready e1 ∧ carried snap chain master e1 ∧ audit_state (held e1) (e_master e1) (e_audit_head e1) chain ∧
    ∀ d, d_wal d = Some (engine_wal e1) → opens_to d pass (carried snap chain master).
Proof.
  intros Hopen Hrun. destruct (open_empty_ready fs w io pass kdf fresh Hkdf Hopen) as (Hr & Hm & _ & _ & Hcr & Hbase).
  rewrite <- Hm in Hfit, Hfits.
  destruct (rebuild_run (btable := local_table) e es snap fresh u e1 Hst Hlen Hr Hfit Hfits Hrun) as (time & Htime & Hm1 & _ & _ & Hrb).
  cbv zeta in Hrb. exists time. cbv zeta. set (entry := rotate_entry time (e_audit_head e)) in *.
  set (head := (wadd 64 (e_audit_head e).1 1, audit_entry_root entry)) in *.
  rewrite Hm in Hm1. pose proof Hcoh as Hc1. rewrite <- Hm1 in Hc1.
  destruct (as_chain _ _ _ _ Hst) as (root & Hch & Hhd). pose proof (chain_root_length _ _ Hch) as Hroot.
  assert (Hwf : wf_audit_entry entry).
  { unfold entry, rotate_entry. rewrite Hhd. split; cbn; [split; lia | done | done | done | done]. }
  assert (Hchain : audit_chain (es ++ [entry]) (audit_entry_root entry)).
  { apply (chain_extend es root); [done | done | |]; unfold entry, rotate_entry; by rewrite Hhd. }
  assert (Hhead : head = (Z.of_nat (length (es ++ [entry])), audit_entry_root entry)).
  { unfold head. rewrite Hhd, length_app. cbn [fst length]. unfold wadd. rewrite wrap_small by (split; lia). f_equal. lia. }
  assert (Hsm : small_chain (es ++ [entry])) by (unfold small_chain; rewrite length_app; cbn [length]; lia).
  assert (Hne : es ++ [entry] ≠ []) by (by destruct es).
  pose proof (rebuilt_audit _ _ _ _ e1 Hrb Hbase (audit_entry_root entry) Hchain Hne Hhead Hsm) as Haudit.
  pose proof (rebuilt_credentials _ _ _ _ e1 Hrb kdf (new_salt w) pass Hcr) as Hcr1.
  assert (Hcarry : ∀ x, rebuilt snap (es ++ [entry]) head (held fresh) x → e_master x = master → carried snap (es ++ [entry]) master x).
  { intros x Hx Hmx. pose proof Hcoh as Hcx. rewrite <- Hmx in Hcx. split.
    - exact (read_dumps snap (es ++ [entry]) head (held fresh) x Hx Hbase Hcx).
    - apply (audit_verify_state (btable := local_table)). rewrite (view_no_overlay (btable := local_table)) by apply Hx.
      rewrite (rb_head _ _ _ _ _ Hx). exact (rebuilt_audit _ _ _ _ x Hx Hbase (audit_entry_root entry) Hchain Hne Hhead Hsm).
    - exact Hmx.
    - unfold store_in_transaction. by rewrite (rd_overlay _ (rb_ready _ _ _ _ _ Hx)). }
  split; [apply Hrb|]. split; [by apply Hcarry|]. split; [by rewrite (rb_head _ _ _ _ _ Hrb)|].
  intros d Hd fs' w' io' kdf' H1 H2. rewrite Hm1 in Haudit.
  pose proof (reopen fs' w' io' d pass kdf' kdf (new_salt w) e1 _ _ H1 H2 Hd (rd_durable _ (rb_ready _ _ _ _ _ Hrb)) Hcr1 Haudit) as Hre.
  eexists. split; [exact Hre|]. apply Hcarry; [|done]. destruct Hrb as [[Ho1 Hd1] Hit Hh]. split; [by split | | done].
  rewrite Hm1 in Hit. exact Hit.
Qed.

Lemma rotation_cases fs fs_tmp fs_dir io_tmp io_dir d r e' d' :
  e_local e = true → dump_tables e = Ok snap →
  rotate_to fs fs_tmp fs_dir w io_tmp io_dir pass kdf e d = (r, e', d') →
  (is_ok r = false ∧ e' = e ∧ d_wal d' = d_wal d ∨
   ∃ time, let chain := es ++ [rotate_entry time (e_audit_head e)] in
     opens_to d' pass (carried snap chain master) ∧ (is_ok r = true → carried snap chain master e')) ∧
  ((∀ c, fs c = true ∧ fs_tmp c = true ∧ fs_dir c = true) → io_tmp = [] → r = Ok tt).
Proof.
  intros Hlo Hdump. unfold rotate_to. rewrite Hlo, Hdump. cbn [negb].
  destruct (d_scratch d && negb (fs ClearScratch)) eqn:Hclear.
  { intros [= <- <- <-]. split; [by left|]. intros Hall _. destruct (Hall ClearScratch) as [Hc _]. by rewrite Hc, andb_false_r in Hclear. }
  destruct (open_with_kdf fs_tmp w io_tmp empty_directory pass kdf) as [fresh|err] eqn:Hopen.
  2: { intros [= <- <- <-]. split; [by left|]. intros Hall ->.
       destruct (open_empty_healthy fs_tmp w pass kdf) as (fresh & Hf & _); [apply Hall..|]. congruence. }
  destruct (rebuild e snap fresh) as [[u|err] e1] eqn:Hrun.
  2: { intros [= <- <- <-]. split; [by left|]. intros Hall ->.
       destruct (open_empty_healthy fs_tmp w pass kdf) as (f & Hf & Hh & Ho); [apply Hall..|]. assert (f = fresh) as -> by congruence.
       destruct (rebuild_healthy (btable := local_table) e es snap fresh Hst Ho Hh) as (e2 & He2). congruence. }
  destruct (fs SwapWal) eqn:Hswap; cbn [negb].
  2: { intros [= <- <- <-]. split; [by left|]. intros Hall _. destruct (Hall SwapWal) as [Hc _]. congruence. }
  destruct (rebuild_carries fs_tmp io_tmp fresh u e1 Hopen Hrun) as (time & _ & _ & _ & Hto). cbv zeta in Hto.
  set (dnew := mkDirectory _ _ _). specialize (Hto dnew eq_refl).
  unfold open_dir. destruct (open_with_kdf fs_dir _ io_dir dnew pass recommended) as [e2|err] eqn:Hre; intros [= <- <- <-].
  - split; [|done]. right. exists time. cbv zeta. split; [exact Hto|]. intros _.
    destruct (open_with_kdf_works _ _ _ _ _ _ _ Hre) as [H1 H2]. destruct (Hto fs_dir (e_world e1) io_dir recommended H1 H2) as (e3 & He3 & Hc3). congruence.
  - split; [right; exists time; cbv zeta; by split|]. intros Hall _.
    destruct (Hto fs_dir (e_world e1) io_dir recommended) as (e3 & He3 & _); [apply Hall..|]. congruence.
Qed.
End Rotation.


Definition sample_dump : TableDump :=
  (mkTableSchema (bs "t") [mkColumnDef (bs "id") TyInt true false false false], 3, [(1, [VInt 7]); (2, [VNull])]).
Definition sample_world (n : nat) : World := mkWorld (λ _, []) n (λ _, 0) n.
Definition works (c : FsCall) : bool := true.

Lemma sample_coherent m : coherent m [sample_dump].
Proof.
  split.
  - constructor; [|constructor]. split; cbn.
    + split; [done|]. split; [|done]. repeat constructor; done.
    + done.
    + repeat constructor; done.
    + repeat constructor; done.
  - repeat constructor. apply not_elem_of_nil.
  - repeat constructor.
  - intros d d' ->%list_elem_of_singleton ->%list_elem_of_singleton _. done.
Qed.
Lemma sample_fits m : Forall (λ d, items_fit (table_items m d)) [sample_dump].
Proof.
  constructor; [|constructor]. unfold items_fit, fits_u32.
  assert (Hits : table_items m sample_dump = let t := bs "t" in
    [mkItem (catalog_cipher m) (catalog_key m t) (encode_schema sample_dump.1.1); mkItem (table_key m t) (seq_key m t) (le_bytes 8 3);
     mkItem (table_key m t) (row_key m t 1) (encode_row [VInt 7]); mkItem (table_key m t) (row_key m t 2) (encode_row [VNull])]) by reflexivity.
  rewrite Hits. unfold items_size. cbn [foldr it_key it_plain].
  unfold catalog_key, seq_key, row_key, row_prefix. rewrite !length_app, !length_table_tag, !length_bytes_be, !length_bytes_le.
  vm_compute. reflexivity.
Qed.
Lemma lone_history_fits m en : wf_audit_entry en → items_fit (history_items m [en]).
Proof.
  intros Hw. unfold items_fit, items_size, history_items, audit_item, fits_u32. cbn [imap foldr it_key it_plain fst snd].
  rewrite (length_audit_encode en Hw). unfold audit_entry_key. rewrite length_app, length_bytes_be. vm_compute. reflexivity.
Qed.

(** A database with a table and a history. *)
Lemma sample_database (pass : bytes) kdf (w : World) : wf_kdf kdf → ∃ e en,
  engine_inv (btable := local_table) e [en] [en] ∧ e_local e = true ∧ dump_tables e = Ok [sample_dump] ∧ wf_audit_entry en.
Proof.
  intros Hk. pose proof (ei_view _ _ _ (fresh_engine_inv [])) as Hst.
  destruct (open_empty_healthy works w pass kdf eq_refl eq_refl) as (fresh & Hopen & Hh & Ho).
  destruct (rebuild_healthy (btable := local_table) (fresh_engine []) [] [sample_dump] fresh Hst Ho Hh) as (e & Hrun). exists e.
  destruct (open_empty_ready works w [] pass kdf fresh Hk Hopen) as (Hr & Hm & Hlo & Htx & _).
  set (master := derive_master kdf pass (new_salt w)) in *.
  destruct (rebuild_carries (fresh_engine []) [] [sample_dump] w pass kdf Hst eq_refl Hk (sample_coherent _) (sample_fits _) eq_refl
    works [] fresh tt e Hopen Hrun) as (time & Hre & Hca & Ha & _). cbv zeta in *. cbn [app] in *.
  set (en := rotate_entry time _) in *. exists en.
  assert (Hrun' : e_local e = e_local fresh ∧ e_txn_audit_head e = e_txn_audit_head fresh).
  { destruct (rebuild_run (btable := local_table) (fresh_engine []) [] [sample_dump] fresh tt e Hst eq_refl Hr
      (sample_fits _) eq_refl Hrun) as (time' & _ & _ & Hl & Ht & _). by split. }
  destruct Hrun' as [Hl Ht]. split; [|split; [by rewrite Hl|split; [apply Hca|]]].
  - split; [by rewrite (view_no_overlay (btable := local_table)) by apply Hre|]. rewrite (rd_overlay _ Hre). by rewrite Ht.
  - destruct (as_chain _ _ _ _ Ha) as (root & Hc & _). eapply audit_chain_wf; [exact Hc|]. apply list_elem_of_here.
Qed.


(** ** Backups *)

Lemma snapshot_open (m : table) : map_Forall kv_fits m → storage_open (write_snapshot (btree_iter m)) = mkStorage m (write_snapshot (btree_iter m)).
Proof.
  intros Hf. apply (durable_open (mkStorage m (write_snapshot (btree_iter m)))), snapshot_durable.
  apply list.Forall_forall. intros [k v] Hkv. apply elem_of_btree_iter in Hkv. exact (Hf k v Hkv).
Qed.

(** C4: A backup restores the database: create a database and run any session
    in which the backend refuses no COMMIT; the backup is the snapshot of what
    the session sees. When the file-system calls of the restore succeed and
    every record is below the format's 4 GiB limit, restoring that file into a
    directory without a database, with the same passphrase, gives the same
    master key, the same records, the same audit head and an audit log that
    verifies as the same history. Over an existing database nothing is
    restored. *)
Theorem backup_restores {B} `{StrictBackend B} sts w (b : B) local pass kdf e0 w' io fs d :
  btable b = ∅ → wf_kdf kdf → open_store w (store_local b) local pass kdf = Ok e0 →
  commits_accepted sts e0 → Z.of_nat (length sts) < 2 ^ 64 →
  map_Forall kv_fits (view (btable := btable) (run_each sts e0)) → (∀ c, fs c = true) →
  let e := run_each sts e0 in
  ∃ file, backup_to e = Ok file ∧
    (∀ wal, d_wal d = Some wal → restore_from fs w' io file d pass = Err EIo) ∧
    (d_wal d = None → ∃ es e', restore_from fs w' io file d pass = Ok e' ∧ e_master e' = e_master e ∧
       view (btable := local_table) e' = view (btable := btable) e ∧ e_audit_head e' = e_audit_head e ∧
       audit_verify e = Ok es ∧ audit_verify e' = Ok es).
Proof.
  intros Hb Hk Hopen Hn%accepted_steps Hlen Hf Hfs. cbv zeta. set (e := run_each sts e0) in *.
  set (n := length sts) in *.
  destruct (open_store_fresh b w local pass kdf e0 Hb Hk Hopen) as (salt & Hi & Hcr & Hm).
  destruct (engine_steps_inv n e0 e [] [] Hn Hi Hlen) as (ces & es & Hi' & _).
  destruct (engine_steps_credentialed n e0 e kdf salt pass Hcr Hn) as [Hcv _].
  pose proof (ei_view _ _ _ Hi') as Hst. rewrite (engine_steps_master n e0 e Hn), Hm in Hst.
  exists (write_snapshot (btree_iter (view (btable := btable) e))). split.
  { unfold backup_to. rewrite (store_dump_strict (btable := btable)). reflexivity. }
  unfold restore_from. rewrite !Hfs. cbn [negb]. split; [by intros wal ->|]. intros ->. cbn [negb].
  set (file := write_snapshot _).
  assert (Hs : storage_open file = mkStorage (view (btable := btable) e) file) by (by apply snapshot_open).
  set (left := mkLocal (storage_open file) io).
  assert (Ht : local_table left = view (btable := btable) e) by (unfold left, local_table; by rewrite Hs).
  rewrite <- Ht in Hcv, Hst.
  pose proof (open_store_recorded (btable := local_table) left w' pass recommended kdf salt _ es true Hcv Hst) as Ho.
  assert (Hd : open_dir fs w' io (mkDirectory (Some file) (d_sidecar d) (d_scratch d)) pass =
    Ok (mkEngine (store_local left) (derive_master kdf pass salt) true (e_audit_head e) None advisor_default w')).
  { unfold open_dir, open_with_kdf. rewrite !Hfs. cbn [negb d_wal default from_option id].
    rewrite (store_get_strict (btable := local_table)). result_simpl.
    change (tx_view (store_abs (btable := local_table) (store_local (mkLocal (storage_open file) io)))) with (local_table left).
    rewrite (cr_params _ _ _ _ Hcv). result_simpl. exact Ho. }
  rewrite Hd. result_simpl. set (e' := mkEngine _ _ _ _ _ _ _).
  assert (Hv : audit_verify e' = Ok es) by (apply (audit_verify_state (btable := local_table)); exact Hst).
  rewrite Hv. result_simpl. exists es, e'. split; [done|]. split; [by rewrite (engine_steps_master n e0 e Hn), Hm|].
  split; [exact Ht|]. split; [done|]. split; [|exact Hv]. apply (audit_verify_state (btable := btable)), Hi'.
Qed.

Lemma backup_restores_witness : ∃ e0, open_store (sample_world 0) (store_local (mkLocal (storage_open []) [])) true (bs "secret") (Pbkdf2 1) = Ok e0 ∧
  ∃ file, backup_to (run_each [Begin] e0) = Ok file ∧
    (∀ wal : bytes, None = Some wal → restore_from works (sample_world 5) [] file empty_directory (bs "secret") = Err EIo) ∧
    (@None bytes = None → ∃ es e', restore_from works (sample_world 5) [] file empty_directory (bs "secret") = Ok e' ∧ e_master e' = e_master (run_each [Begin] e0) ∧
       view (btable := local_table) e' = view (btable := local_table) (run_each [Begin] e0) ∧ e_audit_head e' = e_audit_head (run_each [Begin] e0) ∧
       audit_verify (run_each [Begin] e0) = Ok es ∧ audit_verify e' = Ok es).
Proof.
  assert (Hk : wf_kdf (Pbkdf2 1)) by (split; [split; [discriminate | reflexivity] | discriminate]).
  destruct (open_empty_healthy works (sample_world 0) (bs "secret") (Pbkdf2 1) eq_refl eq_refl) as (e0 & Hopen & _ & Ho).
  rewrite (open_empty works (sample_world 0) [] (bs "secret") (Pbkdf2 1) eq_refl eq_refl) in Hopen. exists e0. split; [exact Hopen|].
  refine (backup_restores (btable := local_table) [Begin] (sample_world 0) (mkLocal (storage_open []) []) true (bs "secret") (Pbkdf2 1) e0
    (sample_world 5) [] works empty_directory eq_refl Hk Hopen _ eq_refl _ (λ _, eq_refl)).
  - apply no_commit_accepted. apply not_elem_of_cons. split; [discriminate | apply not_elem_of_nil].
  - destruct (open_store_creates (btable := local_table) (mkLocal (storage_open []) []) (sample_world 0) true (bs "secret") (Pbkdf2 1) e0 eq_refl Hopen)
      as (s1 & nonce & w' & Hn & _ & _ & _ & _ & Ht).
    pose proof (begin_inv e0 _ _ (surjective_pairing (begin_transaction e0))) as Hbeg. rewrite Ho in Hbeg. destruct Hbeg as [_ Hbeg].
    change (run_each [Begin] e0) with ((begin_transaction e0).2). rewrite Hbeg.
    rewrite (view_overlay (btable := local_table) _ ∅) by reflexivity. rewrite overlay_view_empty.
    unfold committed_table. cbn [e_store with_store with_txn_audit_head backend]. rewrite Ht.
    apply map_Forall_insert_2; [by apply canary_fits; [apply wf_derive_key|]|]. apply map_Forall_insert_2; [apply keyparams_fit | apply map_Forall_empty].
Defined.
