(* ===== verification/Restart.v ===== *)
(** * A session and a restart

    On a disk that takes every write, each statement of a session either
    leaves the log alone or appends one commit to it; the log stays one that
    replays to the table in memory; so opening the directory again, which
    replays it, gives the committed database back. *)

From S2P Require Import Prelude BTree Storage StorageFacts Sha256 Aead Argon2 Float SqlAst Values Codec CodecFacts Store Sort Exprs Aggregate AuditChain AuditFacts KeyParams EngineState Ddl Query Dml Exec EngineFacts EngineAudit EngineTxn EngineGuarantees EngineOpen Rotate RotateFacts.

(** ** The log of a session *)

(** The lengths in a record are below that of the record. *)
Lemma commit_bytes_fit b : fits_u32 (length (commit_bytes b)) → commit_fits b.
Proof.
  unfold commit_bytes, commit_fits, fits_u32, record_fits, batch_fits, fits_u32, batch_payload_len, encode_record, encode_batch_record, frame, encode_entry.
  destruct (entries b) as [|[[op k] v] [|e es]]; cbn [fst snd]; [done| |]; rewrite ?length_app, ?length_bytes_le; cbn [length]; lia.
Qed.

Lemma commit_on_disk (b b' : LocalBackend) batch : lb_outcomes b = [] → backend_commit b batch = (Ok tt, b') →
  storage_commit IoOk (lb_storage b) batch = (Ok tt, lb_storage b')
  ∧ st_wal (lb_storage b') = st_wal (lb_storage b) ++ commit_bytes batch.
Proof.
  intros Hh. cbn [backend_commit local_backend]. unfold local_write. rewrite Hh. cbn [head default tail].
  destruct (storage_commit IoOk (lb_storage b) batch) as [r s] eqn:Hc. intros Heq. apply pair_equal_spec in Heq as [Hr <-]. cbn [lb_storage].
  destruct r as [[]|]; [|discriminate Hr]. split; [done|]. rewrite commit_unfold in Hc. unfold commit_bytes in *.
  destruct (entries batch) as [|x es]; [injection Hc as <-; by rewrite app_nil_r|]. cbn in Hc. by injection Hc as <-.
Qed.

(** What a run of statements does to the log: it grows, and as long as the file
    is below 4 GiB it keeps replaying to the table in memory. *)
Record logged (e e' : Engine LocalBackend) : Prop := {
  lg_disk : lb_outcomes (backend (e_store e')) = [];
  lg_grows : engine_wal e `prefix_of` engine_wal e';
  lg_durable : fits_u32 (length (engine_wal e')) → durable (lb_storage (backend (e_store e))) → durable (lb_storage (backend (e_store e')));
}.

Lemma logged_refl e : lb_outcomes (backend (e_store e)) = [] → logged e e.
Proof. by split. Qed.

Lemma logged_trans e1 e2 e3 : logged e1 e2 → logged e2 e3 → logged e1 e3.
Proof.
  intros [_ G1 D1] [H2 G2 D2]. split; [done|by trans (engine_wal e2)|]. intros Hf Hd. apply D2, D1; [done| |done].
  apply prefix_length in G2. unfold fits_u32 in *. lia.
Qed.

Lemma statement_logged st e r e' : lb_outcomes (backend (e_store e)) = [] → execute_statement st e = (r, e') → logged e e'.
Proof.
  intros Hh Hr. destruct (statement_on_disk st e e' r Hh Hr) as (_ & Hh' & [Hb|(b & Hwf & Hb)]); unfold engine_wal.
  - split; unfold engine_wal; rewrite Hb; [done|done|by intros _].
  - destruct (commit_on_disk _ _ b Hh Hb) as [Hc Hw]. split; unfold engine_wal; [done|rewrite Hw; by apply prefix_app_r|].
    intros Hf Hd. eapply storage_step_durable; [exact Hd|]. eapply step_commit; [exact Hwf| |exact Hc].
    apply commit_bytes_fit. rewrite Hw, length_app in Hf. unfold fits_u32 in *. lia.
Qed.

Lemma session_logged sts e : lb_outcomes (backend (e_store e)) = [] → logged e (run_each sts e).
Proof.
  revert e. induction sts as [|st sts IH]; intros e Hh; [by apply logged_refl|]. cbn [run_each].
  pose proof (statement_logged st e _ _ Hh (surjective_pairing _)) as Hl. eapply logged_trans; [exact Hl|]. apply IH, Hl.
Qed.

(** ** Opening the directory again *)

(** A passphrase whose key does not open the recorded canary. *)
Lemma reopen_refused (fs : FsCall → bool) w io d pass kdf0 kdf salt e s : fs CreateDir = true → fs OpenWal = true →
  d_wal d = Some (engine_wal e) → durable (lb_storage (backend (e_store e))) →
  wf_kdf kdf → (SALT_LEN ≤ length salt)%nat →
  held e !! KEYPARAMS_KEY = Some (encode_keyparams kdf salt) → held e !! CANARY_KEY = Some s →
  is_ok (cipher_open (derive_key (derive_master kdf pass salt) (bs "canary")) s CANARY_KEY) = false →
  open_with_kdf fs w io d pass kdf0 = Err EBadPassphrase.
Proof.
  intros H1 H2 Hw Hd Hk Hs Hp Hc Hopen. unfold open_with_kdf. rewrite H1, H2, Hw. cbn [negb]. unfold engine_wal.
  cbn [default from_option id]. rewrite (durable_open _ Hd). rewrite (store_get_strict (btable := local_table)). result_simpl.
  change (tx_view (store_abs (btable := local_table) (store_local (mkLocal (lb_storage (backend (e_store e))) io)))) with (held e).
  rewrite Hp. result_simpl.
  exact (open_store_refused (btable := local_table) (mkLocal (lb_storage (backend (e_store e))) io) w pass kdf0 kdf salt s true Hk Hs Hp Hc Hopen).
Qed.

(** The two histories of a state: the visible one continues the recorded one. *)
Lemma two_histories (e : Engine LocalBackend) ces es : engine_inv (btable := local_table) e ces es →
  audit_verify e = Ok es ∧ ces `prefix_of` es ∧ (overlay (e_store e) = None → ces = es).
Proof.
  intros [Hv Ht]. split; [by apply audit_verify_state|]. destruct (overlay (e_store e)).
  - destruct Ht as (h0 & _ & _ & Hp). by split.
  - destruct Ht as [-> _]. by split.
Qed.

(** A session on a new database: its invariant, the records it opens with, and
    a log that replays. *)
Lemma open_session (fs : FsCall → bool) w sts pass kdf e : wf_kdf kdf →
  open_with_kdf fs w [] empty_directory pass kdf = Ok e →
  Z.of_nat (length sts) < 2 ^ 64 → Z.of_nat (length (engine_wal (run_each sts e))) < 2 ^ 32 →
  ∃ ces es, engine_inv (btable := local_table) (run_each sts e) ces es
    ∧ credentials (held (run_each sts e)) kdf (new_salt w) pass
    ∧ e_master (run_each sts e) = derive_master kdf pass (new_salt w)
    ∧ durable (lb_storage (backend (e_store (run_each sts e)))).
Proof.
  intros Hk Hopen Hlen Hsize. destruct (open_with_kdf_works _ _ _ _ _ _ _ Hopen) as [H1 H2].
  destruct (open_empty_healthy fs w pass kdf H1 H2) as (e0 & Hopen0 & Hh & Ho).
  rewrite Hopen in Hopen0. apply ok_inj in Hopen0 as <-.
  destruct (open_empty_ready fs w [] pass kdf e Hk Hopen) as ([_ Hd] & Hm & _ & _ & Hcr & _).
  pose proof (accepted_steps sts e (disk_commits_accepted sts e Hh)) as Hn.
  rewrite (open_empty fs w [] pass kdf H1 H2) in Hopen.
  destruct (open_store_fresh (btable := local_table) (mkLocal (storage_open []) []) w true pass kdf e eq_refl Hk Hopen) as (_ & Hi & _ & _).
  destruct (engine_steps_inv (btable := local_table) _ _ _ [] [] Hn Hi Hlen) as (ces & es & Hi' & _).
  assert (Hcd : credentialed (btable := local_table) kdf (new_salt w) pass e).
  { split; [rewrite view_no_overlay by done|]; exact Hcr. }
  destruct (engine_steps_credentialed (btable := local_table) _ _ _ _ _ _ Hcd Hn) as [_ Hcr'].
  exists ces, es. split_and!; [exact Hi'|exact Hcr'| |].
  - rewrite (engine_steps_master (btable := local_table) _ _ _ Hn). exact Hm.
  - exact (lg_durable _ _ (session_logged sts e Hh) Hsize Hd).
Qed.

(** C2: Create a database in an empty directory, run any session, and open the
    directory again with the same passphrase, whatever parameters the caller
    passes; every write to the log works (so that no COMMIT is refused) and
    the log ends below 4 GiB. Opening replays the log: it gives the same
    master key and exactly the committed records, an open transaction is
    gone, and the audit log verifies as the history recorded when the session
    ended, which is the one its own verification showed, less the entries of
    an open transaction. A passphrase whose key does not open the recorded
    canary is refused. *)
Theorem history_survives_restart (fs fs' : FsCall → bool) w w' io sts d pass kdf kdf' e :
  wf_kdf kdf → open_with_kdf fs w [] empty_directory pass kdf = Ok e →
  Z.of_nat (length sts) < 2 ^ 64 → Z.of_nat (length (engine_wal (run_each sts e))) < 2 ^ 32 →
  fs' CreateDir = true → fs' OpenWal = true → d_wal d = Some (engine_wal (run_each sts e)) →
  let e' := run_each sts e in
  ∃ ces es e'' sealed,
    audit_verify e' = Ok es ∧ ces `prefix_of` es ∧ (overlay (e_store e') = None → ces = es)
    ∧ open_with_kdf fs' w' io d pass kdf' = Ok e''
    ∧ e_master e'' = e_master e ∧ overlay (e_store e'') = None ∧ engine_wal e'' = engine_wal e'
    ∧ view (btable := local_table) e'' = local_table (backend (e_store e')) ∧ audit_verify e'' = Ok ces
    ∧ local_table (backend (e_store e')) !! CANARY_KEY = Some sealed
    ∧ ∀ pass', is_ok (cipher_open (derive_key (derive_master kdf pass' (new_salt w)) (bs "canary")) sealed CANARY_KEY) = false →
        open_with_kdf fs' w' io d pass' kdf' = Err EBadPassphrase.
Proof.
  intros Hk Hopen Hlen Hsize H1 H2 Hw. cbv zeta.
  destruct (open_session fs w sts pass kdf e Hk Hopen Hlen Hsize) as (ces & es & Hi & Hcr & Hm & Hd).
  destruct (two_histories _ _ _ Hi) as (Hv & Hp & Ho). destruct (committed_state _ _ _ Hi) as (h & Hst).
  assert (Hme : e_master (run_each sts e) = e_master e) by (rewrite Hm; symmetry; by apply open_empty_ready in Hopen as (_ & -> & _)).
  rewrite Hm in Hst.
  pose proof (reopen fs' w' io d pass kdf' kdf (new_salt w) (run_each sts e) h ces H1 H2 Hw Hd Hcr Hst) as Hre.
  destruct (cr_canary _ _ _ _ Hcr) as (sealed & Hc & _).
  exists ces, es. eexists. exists sealed. split_and!; [exact Hv|exact Hp|exact Ho|exact Hre| | | | | |exact Hc|].
  - rewrite <- Hme, Hm. exact eq_refl.
  - exact eq_refl.
  - exact eq_refl.
  - exact eq_refl.
  - apply (audit_verify_state (btable := local_table)). exact Hst.
  - intros pass' Hf. exact (reopen_refused fs' w' io d pass' kdf' kdf (new_salt w) (run_each sts e) sealed H1 H2 Hw Hd
      (cr_kdf _ _ _ _ Hcr) (cr_salt _ _ _ _ Hcr) (cr_params _ _ _ _ Hcr) Hc Hf).
Qed.

(** ** A restart with a transaction open *)

Lemma open_put_log (s s' : Store LocalBackend) k v : overlay s = None → lb_outcomes (backend s) = [] → open_put s k v = Ok s' →
  lb_outcomes (backend s') = [] ∧ st_wal (lb_storage (backend s')) = st_wal (lb_storage (backend s)) ++ encode_record OP_PUT k v.
Proof.
  intros Ho Hh. unfold open_put, store_put. rewrite Ho. unfold store_backend_write. cbn [backend_put local_backend]. unfold local_write.
  rewrite Hh. cbn. intros Heq. apply ok_inj in Heq as <-. by split.
Qed.

Lemma length_encode_record op k v : length (encode_record op k v) = (17 + length k + length v)%nat.
Proof. unfold encode_record, frame, encode_entry. rewrite !length_app, !length_bytes_le. cbn. lia. Qed.

(** The log of a new database: two short records. *)
Lemma created_log_length fs w pass kdf e : open_with_kdf fs w [] empty_directory pass kdf = Ok e →
  (length (engine_wal e) ≤ 200)%nat.
Proof.
  intros Hopen. destruct (open_with_kdf_works _ _ _ _ _ _ _ Hopen) as [H1 H2]. rewrite (open_empty fs w [] pass kdf H1 H2) in Hopen.
  destruct (open_store_creates (btable := local_table) (mkLocal (storage_open []) []) w true pass kdf e eq_refl Hopen)
    as (s1 & nonce & w' & Hn & Hp1 & Hp2 & _).
  destruct (open_put_log (store_local (mkLocal (storage_open []) [])) s1 _ _ eq_refl eq_refl Hp1) as [Hh1 Hw1].
  destruct (open_put_view (btable := local_table) (store_local (mkLocal (storage_open []) [])) s1 _ _ eq_refl Hp1) as [Ho1 _].
  destruct (open_put_log _ _ _ _ Ho1 Hh1 Hp2) as [_ Hw2]. unfold engine_wal. rewrite Hw2, Hw1.
  change (st_wal (lb_storage (backend (store_local (mkLocal (storage_open []) []))))) with (@nil byte).
  rewrite !length_app, !length_encode_record, length_cipher_seal by (done || apply wf_derive_key).
  pose proof (length_keyparams kdf (new_salt w)) as Hl. unfold new_salt in *. rewrite length_resize in Hl. unfold SALT_LEN in *.
  change (length KEYPARAMS_KEY) with 10%nat. change (length CANARY_KEY) with 7%nat.
  change (length CANARY_PLAINTEXT) with 16%nat. cbn [length]. lia.
Qed.

Definition restart_session : list Statement := [Begin; CreateTable (bs "t") [sample_column]; CreateTable (bs "u") [sample_column]].

Lemma history_survives_restart_witness : ∃ e, open_with_kdf works (sample_world 0) [] empty_directory (bs "secret") (Pbkdf2 1) = Ok e ∧
  let e' := run_each restart_session e in
  ∃ ces es e'' sealed,
    audit_verify e' = Ok es ∧ ces `prefix_of` es ∧ (overlay (e_store e') = None → ces = es)
    ∧ open_with_kdf works (sample_world 7) [] (mkDirectory (Some (engine_wal e')) None false) (bs "secret") recommended = Ok e''
    ∧ e_master e'' = e_master e ∧ overlay (e_store e'') = None ∧ engine_wal e'' = engine_wal e'
    ∧ view (btable := local_table) e'' = local_table (backend (e_store e')) ∧ audit_verify e'' = Ok ces
    ∧ local_table (backend (e_store e')) !! CANARY_KEY = Some sealed
    ∧ ∀ pass', is_ok (cipher_open (derive_key (derive_master (Pbkdf2 1) pass' (new_salt (sample_world 0))) (bs "canary")) sealed CANARY_KEY) = false →
        open_with_kdf works (sample_world 7) [] (mkDirectory (Some (engine_wal e')) None false) pass' recommended = Err EBadPassphrase.
Proof.
  assert (Hk : wf_kdf (Pbkdf2 1)) by (split; [split; [discriminate | reflexivity] | discriminate]).
  destruct (open_empty_healthy works (sample_world 0) (bs "secret") (Pbkdf2 1) eq_refl eq_refl) as (e & Hopen & _ & Ho).
  exists e. split; [exact Hopen|].
  apply (history_survives_restart works works (sample_world 0) (sample_world 7) [] restart_session
    (mkDirectory (Some (engine_wal (run_each restart_session e))) None false) (bs "secret") (Pbkdf2 1) recommended e Hk Hopen eq_refl);
    [|reflexivity..].
  pose proof (begin_inv e _ _ (surjective_pairing (begin_transaction e))) as Hb. rewrite Ho in Hb. destruct Hb as [_ Hb].
  assert (Hs : same_committed (begin_transaction e).2 (run_each restart_session e)).
  { apply (run_each_buffered [CreateTable (bs "t") [sample_column]; CreateTable (bs "u") [sample_column]] (begin_transaction e).2); [rewrite Hb; by eexists|reflexivity]. }
  pose proof (created_log_length _ _ _ _ _ Hopen) as Hl.
  unfold engine_wal in *. rewrite (sc_backend _ _ Hs), Hb. cbn [e_store with_store with_txn_audit_head backend]. lia.
Defined.
