(* ===== verification/Signing.v ===== *)
(** * Signing the audit root

    ciphra-engine/src/lib.rs: the ML-DSA key of a database, [sign_audit_root]
    and [verify_audit_root]. The fuel of key generation, signing and
    verification is an argument, with [None] when it runs out; so are the
    number of signing attempts. *)

From S2P Require Import Prelude Mldsa MldsaCorrect BTree Storage Aead Float Sha256 SqlAst Values Codec Store AuditChain AuditFacts MerkleFacts EngineState Exec EngineFacts EngineAudit EngineTxn EngineGuarantees.

(** HKDF context for the deterministic ML-DSA audit-signing seed. *)
Definition AUDIT_SIGNING_CONTEXT : bytes := bs "audit-signing".

Record SignedAuditRoot : Type := mkSigned {
  sa_seq : Z;
  sa_root : bytes;
  sa_merkle_root : bytes;
  sa_public_key : bytes;
  sa_signature : bytes;
}.

Section Signing.
Context `{Xof} {B : Type} `{Backend B}.

Definition audit_signing_public_key (fuel : nat) (e : Engine B) : option bytes :=
  let seed := derive_seed (e_master e) AUDIT_SIGNING_CONTEXT in
  fst <$> keypair_from_seed fuel seed.

Definition sign_audit_root (tries fuel : nat) (e : Engine B) : option (result EngineError SignedAuditRoot) :=
  let '(seq, root) := e_audit_head e in
  match audit_merkle_root e with
  | Err err => Some (Err err)
  | Ok merkle_root =>
      let seed := derive_seed (e_master e) AUDIT_SIGNING_CONTEXT in
      '(public_key, secret_key) ← keypair_from_seed fuel seed;
      signature ← sign tries fuel secret_key (audit_root_message seq root merkle_root);
      Some (Ok (mkSigned seq root merkle_root public_key signature))
  end.
End Signing.

Definition verify_audit_root `{Xof} (fuel : nat) (signed : SignedAuditRoot) (public_key : bytes) : option bool :=
  verify fuel public_key (audit_root_message (sa_seq signed) (sa_root signed) (sa_merkle_root signed)) (sa_signature signed).

(** ** The signed message has one reading *)

Lemma audit_root_message_inj seq root mroot seq' root' mroot' :
  in_u 64 seq → in_u 64 seq' → length root = length root' →
  audit_root_message seq root mroot = audit_root_message seq' root' mroot' →
  seq = seq' ∧ root = root' ∧ mroot = mroot'.
Proof.
  unfold audit_root_message. intros Hs Hs' Hl Heq. apply app_inv_head in Heq.
  apply app_inj_1 in Heq as [Hseq Heq]; [|by rewrite !length_bytes_le].
  apply app_inj_1 in Heq as [-> ->]; [|exact Hl].
  split; [|done]. by apply (le_bytes_inj 8) in Hseq.
Qed.

(** ** Signed roots and receipts *)

Lemma signed_root_inv `{Xof} {B} `{Backend B} tries fuel (e : Engine B) signed :
  sign_audit_root tries fuel e = Some (Ok signed) →
  ∃ secret_key,
    e_audit_head e = (sa_seq signed, sa_root signed) ∧ audit_merkle_root e = Ok (sa_merkle_root signed) ∧
    keypair_from_seed fuel (derive_seed (e_master e) AUDIT_SIGNING_CONTEXT) = Some (sa_public_key signed, secret_key) ∧
    sign tries fuel secret_key (audit_root_message (sa_seq signed) (sa_root signed) (sa_merkle_root signed)) = Some (sa_signature signed).
Proof.
  unfold sign_audit_root. destruct (e_audit_head e) as [seq root]. destruct (audit_merkle_root e) as [mroot|]; [|discriminate].
  destruct (keypair_from_seed _ _) as [[pk sk]|]; [|discriminate]. cbn [mbind option_bind].
  destruct (sign _ _ _ _) as [sig|] eqn:Hs; [|discriminate]. cbn [mbind option_bind].
  intros Heq. apply (inj Some), ok_inj in Heq as <-. exists sk. cbn [sa_seq sa_root sa_merkle_root sa_public_key sa_signature].
  split_and!; [reflexivity | reflexivity | reflexivity | exact Hs].
Qed.

Section Roots.
Context {B : Type} `{StrictBackend B}.

Definition history_root (es : list AuditEntry) : bytes := merkle_root_of (map (λ e, merkle_leaf (audit_encode e)) es).

Lemma merkle_root_state (e : Engine B) es :
  audit_state (view (btable := btable) e) (e_master e) (e_audit_head e) es → audit_merkle_root e = Ok (history_root es).
Proof.
  intros Hs. unfold audit_merkle_root, audit_leaves. by rewrite (audit_verify_state e es Hs).
Qed.
End Roots.

Section Receipts.
Context `{XofLaws} {B : Type} `{StrictBackend B}.

Lemma signing_sound tries fuel (e : Engine B) es :
  audit_state (view (btable := btable) e) (e_master e) (e_audit_head e) es →
  match sign_audit_root tries fuel e with
  | Some (Ok signed) =>
      sa_seq signed = Z.of_nat (length es) ∧ audit_chain es (sa_root signed) ∧ sa_merkle_root signed = history_root es ∧
      audit_signing_public_key fuel e = Some (sa_public_key signed) ∧
      verify_audit_root fuel signed (sa_public_key signed) = Some true
  | Some (Err _) => False
  | None => True
  end.
Proof.
  intros Hs. destruct (sign_audit_root tries fuel e) as [[signed|err]|] eqn:Hsign; [| |done].
  - apply signed_root_inv in Hsign as (sk & Hh & Hm & Hk & Hsg). rewrite (merkle_root_state e es Hs) in Hm.
    apply ok_inj in Hm. destruct (as_chain _ _ _ _ Hs) as (root & Hc & Hhd). rewrite Hh in Hhd.
    apply pair_equal_spec in Hhd as [-> ->].
    split_and!; [done | done | done | unfold audit_signing_public_key; by rewrite Hk |].
    destruct (keypair_rows _ _ _ _ Hk) as (rho & k_seed & s1 & rows & Hkey & Epk & ->).
    unfold verify_audit_root. rewrite Epk. exact (signature_verifies tries fuel rho k_seed s1 rows _ _ Hkey Hsg).
  - revert Hsign. unfold sign_audit_root. rewrite (merkle_root_state e es Hs). destruct (e_audit_head e).
    destruct (keypair_from_seed _ _) as [[pk sk]|]; [|discriminate]. cbn [mbind option_bind].
    destruct (sign _ _ _ _); discriminate.
Qed.

Lemma inclusion_state (e : Engine B) es i entry :
  audit_state (view (btable := btable) e) (e_master e) (e_audit_head e) es → es !! i = Some entry →
  ∃ proof, audit_inclusion_proof e (Z.of_nat i) = Ok (entry, proof, history_root es) ∧
    verify_inclusion entry proof (history_root es) = true.
Proof.
  intros Hs Hi. destruct (as_chain _ _ _ _ Hs) as (root & Hc & _).
  destruct (inclusion_proof_verifies es root i entry Hc Hi (as_small _ _ _ _ Hs)) as (proof & Hp & Hv).
  exists proof. split; [|exact Hv]. unfold audit_inclusion_proof. by rewrite (audit_verify_state e es Hs).
Qed.
End Receipts.

(** C19: What a database signs, anyone with its public key can check. After any
    session in which the backend refuses no COMMIT, signing the audit root
    returns no error, and what it returns names the length, the chain root and
    the Merkle root of the history that [audit_verify] accepts, carries the
    key that the database publishes and verifies under it; and for every
    recorded entry the engine gives out an inclusion proof that leads to the
    signed Merkle root. (After a refused COMMIT the audit log does not verify,
    [failed_commit_strands_audit_head], and nothing can be signed.) *)
Theorem signed_history_checks `{XofLaws} {B} `{StrictBackend B} sts tries fuel (e : Engine B) ces es signed :
  engine_inv (btable := btable) e ces es → commits_accepted sts e → Z.of_nat (length es + length sts) < 2 ^ 64 →
  let e' := run_each sts e in
  (sign_audit_root tries fuel e' = Some (Ok signed) →
   ∃ es', audit_verify e' = Ok es' ∧ sa_seq signed = Z.of_nat (length es') ∧ audit_chain es' (sa_root signed) ∧
     audit_signing_public_key fuel e' = Some (sa_public_key signed) ∧
     verify_audit_root fuel signed (sa_public_key signed) = Some true ∧
     ∀ i entry, es' !! i = Some entry →
       ∃ proof, audit_inclusion_proof e' (Z.of_nat i) = Ok (entry, proof, sa_merkle_root signed) ∧
         verify_inclusion entry proof (sa_merkle_root signed) = true) ∧
  (∀ err, sign_audit_root tries fuel e' ≠ Some (Err err)).
Proof.
  intros Hi Hn%accepted_steps Hlen. cbv zeta. set (e' := run_each sts e) in *.
  destruct (engine_steps_inv _ e e' ces es Hn Hi Hlen) as (ces' & es' & Hi' & _).
  pose proof (ei_view _ _ _ Hi') as Hs. pose proof (signing_sound tries fuel e' es' Hs) as Hsign. split.
  - intros E. rewrite E in Hsign. destruct Hsign as (Hq & Hc & Hm & Hk & Hv). exists es'.
    split_and!; [by apply audit_verify_state | done..|]. rewrite Hm. intros i entry Hl. by apply inclusion_state.
  - intros err E. by rewrite E in Hsign.
Qed.

(** C20: A receipt is about the history that the database still has. Take a root
    that a database with a non-empty history signed while no transaction was
    open, a receipt over the same signed message, and a well-formed entry
    whose inclusion proof (with sibling hashes of 32 bytes) verifies against
    the receipt's Merkle root. Then after any further statements, as long as
    the backend refuses none of their COMMITs, the database's own verification
    accepts a history with that entry at the proof's index; unless the hashes
    of that tree and proof contain a SHA-256 collision. *)
Theorem receipt_is_history `{XofLaws} {B} `{StrictBackend B} sts tries fuel (e : Engine B) ces es signed receipt entry proof :
  engine_inv (btable := btable) e ces es → overlay (e_store e) = None → es ≠ [] →
  commits_accepted sts e → Z.of_nat (length es + length sts) < 2 ^ 64 →
  sign_audit_root tries fuel e = Some (Ok signed) →
  in_u 64 (sa_seq receipt) → length (sa_root receipt) = 32%nat →
  audit_root_message (sa_seq receipt) (sa_root receipt) (sa_merkle_root receipt) =
    audit_root_message (sa_seq signed) (sa_root signed) (sa_merkle_root signed) →
  verify_inclusion entry proof (sa_merkle_root receipt) = true →
  wf_audit_entry entry → (∀ s, s ∈ mp_siblings proof → length s = 32%nat) →
  collision_free (inclusion_inputs es entry proof) →
  ∃ es', audit_verify (run_each sts e) = Ok es' ∧ es' !! Z.to_nat (mp_index proof) = Some entry.
Proof.
  intros Hi Ho Hne Hn%accepted_steps Hlen Hsign Hu Hl Hmsg Hv Hwf Hsib Hcf. pose proof (ei_view _ _ _ Hi) as Hs.
  pose proof (signing_sound tries fuel e es Hs) as Hsg. rewrite Hsign in Hsg. destruct Hsg as (Hq & Hc & Hm & _).
  apply audit_root_message_inj in Hmsg as (_ & _ & Hmr);
    [| done | rewrite Hq; split; [lia | apply (as_small _ _ _ _ Hs)] | rewrite Hl; symmetry; inversion Hc; [apply length_replicate | apply length_sha256]].
  rewrite Hmr, Hm in Hv. pose proof (verified_entry_recorded es _ entry proof Hc Hne Hwf Hsib Hcf Hv) as Hrec.
  destruct (engine_steps_inv _ e (run_each sts e) ces es Hn Hi Hlen) as (ces' & es' & Hi' & Hpre).
  pose proof (ei_txn _ _ _ Hi) as Htx. rewrite Ho in Htx. destruct Htx as [-> _].
  exists es'. split; [by apply audit_verify_state, Hi'|]. eapply prefix_lookup_Some; [exact Hrec|].
  pose proof (ei_txn _ _ _ Hi') as Htx. destruct (overlay (e_store (run_each sts e))).
  - destruct Htx as (h0 & _ & _ & Hp). by transitivity ces'.
  - destruct Htx as [-> _]. exact Hpre.
Qed.

(** ** A signing database *)

Definition one_write : Batch := batch_put batch_new [Byte.x05] [].
Definition signing_engine : Engine LocalBackend :=
  (commit_audited audit_kind.INSERT (zeros 16) one_write (fresh_engine [])).2.

Lemma one_write_data : data_batch one_write.
Proof. constructor; [|constructor]. split; [by left | by split_and!]. Qed.

Lemma signing_engine_history : ∃ entry,
  engine_inv (btable := local_table) signing_engine [entry] [entry] ∧ overlay (e_store signing_engine) = None ∧
  lb_outcomes (backend (e_store signing_engine)) = [].
Proof.
  unfold signing_engine. destruct (commit_audited _ _ _ (fresh_engine [])) as [r e'] eqn:Hc.
  destruct (commit_audited_inv (btable := local_table) _ (zeros 16) one_write (fresh_engine []) _ _ [] [] (fresh_engine_inv []) one_write_data eq_refl eq_refl Hc)
    as (ces & es & Hi & _ & Hle & _). cbn [snd].
  apply commit_with_audit_inv in Hc as (time & n1 & n2 & _ & _ & _ & Hst & _ & _ & _ & Hh).
  pose proof (eq_trans (eq_sym (f_equal fst Hst)) (proj1 (store_commit_healthy (e_store (fresh_engine [])) _ eq_refl))) as Hr. cbn [fst] in Hr. subst r.
  pose proof (proj1 (store_commit_on_disk (e_store (fresh_engine [])) _ _ _ eq_refl (audited_batch_wf one_write _ _ _ _ one_write_data) Hst)) as Hdisk.
  destruct (as_chain _ _ _ _ (ei_view _ _ _ Hi)) as (root & Hch & Hhd). rewrite Hh in Hhd.
  apply (f_equal fst) in Hhd. change (1 = Z.of_nat (length es)) in Hhd.
  assert (Hov : overlay (e_store e') = None) by (exact (store_commit_overlay _ _ _ _ Hst)).
  pose proof (ei_txn _ _ _ Hi) as Htx. rewrite Hov in Htx. destruct Htx as [-> _].
  destruct es as [|entry [|]]; cbn [length] in *; [lia| |lia]. exists entry. split_and!; [exact Hi | exact Hov | exact Hdisk].
Qed.

(** [toy_xof] does not look at its input. *)
Lemma toy_hash_const parts parts' n : @hash toy_xof parts n = @hash toy_xof parts' n.
Proof. reflexivity. Qed.
Lemma toy_keypair fuel seed seed' : @keypair_from_seed toy_xof fuel seed = @keypair_from_seed toy_xof fuel seed'.
Proof.
  unfold keypair_from_seed. set (ex := hash [seed; _; _] 128). set (ex' := hash [seed'; _; _] 128).
  assert (ex = ex') as -> by apply toy_hash_const. reflexivity.
Qed.
Lemma toy_sign tries fuel sk message message' : @sign toy_xof tries fuel sk message = @sign toy_xof tries fuel sk message'.
Proof. reflexivity. Qed.

Lemma toy_signs_any seed message : ∃ pk sk sig,
  @keypair_from_seed toy_xof 400 seed = Some (pk, sk) ∧ @sign toy_xof 1 400 sk message = Some sig.
Proof.
  pose proof toy_signs as Ht. destruct (@keypair_from_seed toy_xof 400 toy_signing_seed) as [[pk sk]|] eqn:Ek; [|discriminate Ht].
  destruct (@sign toy_xof 1 400 sk toy_signing_seed) as [sig|] eqn:Es; [|discriminate Ht]. exists pk, sk, sig.
  split; [exact (eq_trans (toy_keypair 400 seed toy_signing_seed) Ek) | exact (eq_trans (toy_sign 1 400 sk message toy_signing_seed) Es)].
Qed.
Lemma signed_root `{Xof} {B} `{Backend B} tries fuel (e : Engine B) mroot pk sk sig :
  audit_merkle_root e = Ok mroot → keypair_from_seed fuel (derive_seed (e_master e) AUDIT_SIGNING_CONTEXT) = Some (pk, sk) →
  sign tries fuel sk (audit_root_message (e_audit_head e).1 (e_audit_head e).2 mroot) = Some sig →
  sign_audit_root tries fuel e = Some (Ok (mkSigned (e_audit_head e).1 (e_audit_head e).2 mroot pk sig)).
Proof.
  intros Hm Hk Hs. unfold sign_audit_root. destruct (e_audit_head e) as [seq root]. cbn [fst snd] in Hs |- *.
  rewrite Hm, Hk. cbn [mbind option_bind]. rewrite Hs. reflexivity.
Qed.
Lemma toy_signs_root {B} `{StrictBackend B} (e : Engine B) es :
  audit_state (view (btable := btable) e) (e_master e) (e_audit_head e) es →
  ∃ signed, @sign_audit_root toy_xof B _ 1 400 e = Some (Ok signed).
Proof.
  intros Hs.
  destruct (toy_signs_any (derive_seed (e_master e) AUDIT_SIGNING_CONTEXT)
    (audit_root_message (e_audit_head e).1 (e_audit_head e).2 (history_root es))) as (pk & sk & sig & Ek & Es).
  exact (ex_intro _ _ (@signed_root toy_xof B _ 1 400 e _ pk sk sig (merkle_root_state e es Hs) Ek Es)).
Qed.

(** The rest of the session: a table created in a transaction that commits. *)
Definition later_session : list Statement := [Begin; CreateTable (bs "t") [sample_column]; Commit].

Lemma signed_history_checks_witness :
  ∃ signed es', @sign_audit_root toy_xof LocalBackend _ 1 400 (run_each later_session signing_engine) = Some (Ok signed) ∧
    audit_verify (run_each later_session signing_engine) = Ok es' ∧ sa_seq signed = Z.of_nat (length es') ∧
    @verify_audit_root toy_xof 400 signed (sa_public_key signed) = Some true.
Proof.
  destruct signing_engine_history as (entry & Hi & _ & Hdisk).
  pose proof (disk_commits_accepted later_session signing_engine Hdisk) as Ha.
  destruct (engine_steps_inv (btable := local_table) _ _ _ _ _ (accepted_steps _ _ Ha) Hi eq_refl) as (ces' & es'' & Hi' & _).
  destruct (toy_signs_root (run_each later_session signing_engine) _ (ei_view _ _ _ Hi')) as [signed Hs]. exists signed.
  destruct (signed_history_checks (H1 := toy_xof_laws) later_session 1 400 signing_engine [entry] [entry] signed Hi Ha eq_refl)
    as [Hc _].
  destruct (Hc Hs) as (es' & Hv & Hq & _ & _ & Hsig & _). exists es'. split_and!; assumption.
Defined.

Lemma lone_entry_proof entry root : audit_chain [entry] root →
  verify_inclusion entry (mkMerkleProof 0 1 []) (history_root [entry]) = true.
Proof.
  intros Hc. destruct (inclusion_proof_verifies [entry] root 0 entry Hc eq_refl eq_refl) as (proof & Hp & Hv).
  assert (Epr : mkMerkleProof 0 1 [] = proof).
  { apply ok_inj, pair_equal_spec in Hp as [Hp _]. apply pair_equal_spec in Hp as [_ Hp]. exact Hp. }
  rewrite Epr. exact Hv.
Qed.

Lemma receipt_is_history_witness :
  ∃ signed entry, @sign_audit_root toy_xof LocalBackend _ 1 400 signing_engine = Some (Ok signed) ∧
    ∃ es', audit_verify (run_each later_session signing_engine) = Ok es' ∧ es' !! 0%nat = Some entry.
Proof.
  destruct signing_engine_history as (entry & Hi & Ho & Hdisk). pose proof (ei_view _ _ _ Hi) as Hst.
  destruct (toy_signs_root signing_engine _ Hst) as [signed Hs]. exists signed, entry. split; [exact Hs|].
  pose proof (signing_sound (H1 := toy_xof_laws) 1 400 signing_engine [entry] Hst) as Hsg. rewrite Hs in Hsg.
  destruct Hsg as (Hq & Hc & Hm & _).
  refine (receipt_is_history (H1 := toy_xof_laws) later_session 1 400 signing_engine [entry] [entry] signed signed entry
    (mkMerkleProof 0 1 []) Hi Ho _ (disk_commits_accepted _ _ Hdisk) eq_refl Hs _ _ eq_refl _ _ _ _).
  - discriminate.
  - rewrite Hq. split; [done | reflexivity].
  - inversion Hc. apply length_sha256.
  - rewrite Hm. exact (lone_entry_proof entry _ Hc).
  - eapply audit_chain_wf; [exact Hc|]. apply list_elem_of_here.
  - intros s Hin. exfalso. exact (proj1 (elem_of_nil s) Hin).
  - apply List.Forall_forall. intros x Hx. apply List.Forall_forall. intros y Hy _.
    cut (∀ z, In z (inclusion_inputs [entry] entry (mkMerkleProof 0 1 [])) → z = leaf_input (audit_encode entry)).
    { intros Hall. by rewrite (Hall x Hx), (Hall y Hy). }
    intros z [<-|[<-|[]]]; reflexivity.
Defined.
