(* ===== verification/Errors.v ===== *)
(** * The texts of errors

    [Display] of [ParseError] (ciphra-sql/src/lib.rs, with the messages of
    lexer.rs and parser.rs), of [StorageError], [CryptoError] and
    [EngineError]. The [Debug] form of strings and characters, and the text
    of an operating-system error, are the standard library's: a parameter. *)

From S2P Require Import Prelude Storage Aead Float SqlAst SqlLexer SqlParser Migrate Values.

(** What the standard library prints. *)
Class StdText : Type := {
  debug_str : bytes → bytes;   (** [{:?}] of a [str] *)
  debug_char : bytes → bytes;  (** [{:?}] of a [char] *)
  io_text : bytes;             (** [{}] of an [io::Error] *)
}.

Section Text.
Context `{StdText}.

Definition parse_message (e : ParseError) : bytes :=
  match e with
  | ExpectedEqAfterBang => bs "expected '=' after '!'"
  | BadFloat text => bs "bad float literal: " ++ text
  | IntOutOfRange text => bs "integer literal out of range: " ++ text
  | UnexpectedChar rest => bs "unexpected character: " ++ debug_char (take (first_char rest).2 rest)
  | UnterminatedString => bs "unterminated string literal"
  | ExpectedFound expected found =>
      bs "expected " ++ expected ++ bs ", found "
        ++ match found with Some token => show_token token | None => bs "end of input" end
  | ExpectedKeyword kw found => bs "expected keyword " ++ kw ++ bs ", found " ++ debug_str found
  | ExpectedUnsigned expected found =>
      bs "expected a non-negative integer (" ++ expected ++ bs "), found " ++ show_token found
  | UnknownStatement kw => bs "unknown statement: " ++ debug_str kw
  | ExplainUnsupported => bs "EXPLAIN supports SELECT, UPDATE and DELETE"
  | VectorDimension dim => bs "vector dimension must be 1..=4096, got " ++ show_Z dim
  | UnknownColumnType ty => bs "unknown column type: " ++ debug_str ty
  | StarWithGroupBy => bs "SELECT * cannot be combined with GROUP BY; list the grouping columns"
  | NearestNotVector found => bs "NEAREST TO takes a vector literal, found " ++ show_literal found
  | StarNotAllowed func =>
      AggFunc_name func ++ bs "(*) is not allowed; " ++ AggFunc_name func ++ bs " needs a column"
  | OutOfFuel => []
  end.
Definition show_parse_error (e : ParseError) : bytes := bs "parse error: " ++ parse_message e.

Definition show_storage_error (e : StorageError) : bytes :=
  match e with
  | StorageIo => bs "storage io error: " ++ io_text
  | StorageCorrupt message => bs "storage corruption: " ++ message
  end.

Definition show_crypto_error (e : CryptoError) : bytes :=
  match e with CryptoOpen => bs "decryption failed: wrong key or tampered data" end.

(** [format!]: the arguments fill the holes in order. [:?] quotes a string;
    the one hole for a type has its [Debug] text as the argument. *)
Definition fill_hole (name arg : bytes) : bytes :=
  if bool_decide (drop (length name - 2) name = bs ":?") && negb (bool_decide (name = bs "want:?"))
  then debug_str arg else arg.
Fixpoint fill_message (hole : option bytes) (args : list bytes) (fmt : bytes) : bytes :=
  match fmt with
  | [] => []
  | b :: fmt' =>
      match hole with
      | None =>
          if bool_decide (b = Byte.x7b) then fill_message (Some []) args fmt'
          else b :: fill_message None args fmt'
      | Some name =>
          if bool_decide (b = Byte.x7d) then fill_hole name (default [] (head args)) ++ fill_message None (tail args) fmt'
          else fill_message (Some (name ++ [b])) args fmt'
      end
  end.
Definition format_message (fmt : string) (args : list bytes) : bytes := fill_message None args (bs fmt).

Definition show_engine_error (e : EngineError) : bytes :=
  match e with
  | EParse e => show_parse_error e
  | EStorage e => show_storage_error e
  | ECrypto e => bs "crypto error: " ++ show_crypto_error e
  | EBadPassphrase => bs "wrong passphrase for this database"
  | ESchema fmt args => bs "schema error: " ++ format_message fmt args
  | EConstraint fmt args => bs "constraint violation: " ++ format_message fmt args
  | EAudit fmt args => bs "audit chain violation: " ++ format_message fmt args
  | EType fmt args => bs "type error: " ++ format_message fmt args
  | ECorrupt fmt args => bs "corrupt data: " ++ format_message fmt args
  | EIo => bs "io error: " ++ io_text
  end.
End Text.

(** A standard library that quotes without escaping, for the examples. *)
Definition plain_text : StdText :=
  {| debug_str s := bs "'" ++ s ++ bs "'"; debug_char c := bs "'" ++ c ++ bs "'"; io_text := bs "no space" |}.

Example unknown_column_text :
  show_engine_error (H := plain_text) (ESchema "unknown column {column:?} in table {table:?}" [bs "age"; bs "users"])
  = bs "schema error: unknown column 'age' in table 'users'".
Proof. vm_compute. reflexivity. Qed.
Example type_text :
  show_engine_error (H := plain_text) (EType "column {:?} is {want:?}, got {got}" [bs "age"; bs "Int"; bs "NULL"])
  = bs "type error: column 'age' is Int, got NULL".
Proof. vm_compute. reflexivity. Qed.
