(* ===== verification/Json.v ===== *)
(** * JSON texts

    The reference against which the hand-written encoder of the C interface
    is proved: JSON trees and a reader of a subset of RFC 8259 (no white
    space between tokens, no exponents, [\u] escapes below U+0080 only).
    What this reader accepts, every JSON parser accepts. *)

From S2P Require Import Prelude Float SqlLexer Migrate MigrateFacts.

(** A number is kept as its text. *)
Inductive Json : Type :=
| JNull
| JBool (b : bool)
| JNum (text : bytes)
| JStr (s : bytes)
| JArr (items : list Json)
| JObj (members : list (bytes * Json)).

(** ** Strings *)

Definition hex_digit (b : byte) : option Z :=
  let c := byte.unsigned b in
  if is_ascii_digit b then Some (c - 48)
  else if (97 <=? c) && (c <=? 102) then Some (c - 87)
  else if (65 <=? c) && (c <=? 70) then Some (c - 55)
  else None.

Definition unescape_char (b : byte) : option byte :=
  match b with
  | Byte.x22 => Some Byte.x22 | Byte.x5c => Some Byte.x5c | Byte.x2f => Some Byte.x2f
  | Byte.x62 => Some Byte.x08 | Byte.x66 => Some Byte.x0c | Byte.x6e => Some Byte.x0a
  | Byte.x72 => Some Byte.x0d | Byte.x74 => Some Byte.x09
  | _ => None
  end.

Definition unescape_hex (a b c d : byte) : option byte :=
  a ← hex_digit a; b ← hex_digit b; c ← hex_digit c; d ← hex_digit d;
  let u := ((a * 16 + b) * 16 + c) * 16 + d in
  if u <? 0x80 then Some (byte.of_Z u) else None.

(** The characters up to the closing quote, and what follows it. *)
Fixpoint json_chars (s : bytes) : option (bytes * bytes) :=
  match s with
  | Byte.x22 :: s1 => Some ([], s1)
  | Byte.x5c :: Byte.x75 :: a :: b :: c :: d :: s1 =>
      x ← unescape_hex a b c d; '(t, r) ← json_chars s1; Some (x :: t, r)
  | Byte.x5c :: e :: s1 => x ← unescape_char e; '(t, r) ← json_chars s1; Some (x :: t, r)
  | b :: s1 =>
      if byte.unsigned b <? 0x20 then None else '(t, r) ← json_chars s1; Some (b :: t, r)
  | [] => None
  end.

(** ** Numbers *)

(** Digits up to the first other character. *)
Fixpoint span_digits (s : bytes) : bytes * bytes :=
  match s with
  | b :: s1 => if is_ascii_digit b then let '(ds, r) := span_digits s1 in (b :: ds, r) else ([], s)
  | [] => ([], [])
  end.

(** [int]: a zero, or digits that do not begin with one. *)
Definition json_int (s : bytes) : option (bytes * bytes) :=
  match span_digits s with
  | ([], _) => None
  | (ds, r) => if bool_decide (head ds = Some Byte.x30) && negb (length ds =? 1)%nat then None else Some (ds, r)
  end.
(** [frac]: a point and digits, or nothing. *)
Definition json_frac (s : bytes) : option (bytes * bytes) :=
  match s with
  | Byte.x2e :: s1 =>
      match span_digits s1 with ([], _) => None | (ds, r) => Some (Byte.x2e :: ds, r) end
  | _ => Some ([], s)
  end.
Definition json_number (s : bytes) : option (bytes * bytes) :=
  let '(sign, s) := match s with Byte.x2d :: s1 => ([Byte.x2d], s1) | _ => ([], s) end in
  '(ip, s) ← json_int s; '(fp, s) ← json_frac s; Some (sign ++ ip ++ fp, s).

(** ** Values *)

Definition after (token : bytes) (s : bytes) : option bytes :=
  if bool_decide (take (length token) s = token) then Some (drop (length token) s) else None.

Fixpoint json_value (fuel : nat) (s : bytes) : option (Json * bytes) :=
  match fuel with
  | O => None
  | S fuel =>
      match s with
      | Byte.x22 :: s1 => '(t, r) ← json_chars s1; Some (JStr t, r)
      | Byte.x5b :: Byte.x5d :: r => Some (JArr [], r)
      | Byte.x5b :: s1 => '(items, r) ← json_items fuel s1; Some (JArr items, r)
      | Byte.x7b :: Byte.x7d :: r => Some (JObj [], r)
      | Byte.x7b :: s1 => '(members, r) ← json_members fuel s1; Some (JObj members, r)
      | Byte.x6e :: _ => r ← after (bs "null") s; Some (JNull, r)
      | Byte.x74 :: _ => r ← after (bs "true") s; Some (JBool true, r)
      | Byte.x66 :: _ => r ← after (bs "false") s; Some (JBool false, r)
      | _ => '(text, r) ← json_number s; Some (JNum text, r)
      end
  end
with json_items (fuel : nat) (s : bytes) : option (list Json * bytes) :=
  match fuel with
  | O => None
  | S fuel =>
      '(v, s) ← json_value fuel s;
      match s with
      | Byte.x5d :: r => Some ([v], r)
      | Byte.x2c :: s1 => '(vs, r) ← json_items fuel s1; Some (v :: vs, r)
      | _ => None
      end
  end
with json_members (fuel : nat) (s : bytes) : option (list (bytes * Json) * bytes) :=
  match fuel with
  | O => None
  | S fuel =>
      s ← after [Byte.x22] s; '(k, s) ← json_chars s; s ← after [Byte.x3a] s;
      '(v, s) ← json_value fuel s;
      match s with
      | Byte.x7d :: r => Some ([(k, v)], r)
      | Byte.x2c :: s1 => '(kvs, r) ← json_members fuel s1; Some ((k, v) :: kvs, r)
      | _ => None
      end
  end.

(** A whole text is one value and nothing after it. *)
Definition read_json (s : bytes) : option Json :=
  match json_value (length s) s with Some (j, []) => Some j | _ => None end.

(** ** Texts that the reader reads

    [prints s j]: [s], before the end or a closing or separating character,
    is read as [j] with fuel its length. The lemmas below are what an encoder
    needs: one for each form of value. *)

Definition closes (rest : bytes) : Prop :=
  match head rest with Some b => b ∈ [Byte.x2c; Byte.x5d; Byte.x7d] | None => True end.

Definition prints (s : bytes) (j : Json) : Prop :=
  ∀ rest fuel, closes rest → (length s ≤ fuel)%nat → json_value fuel (s ++ rest) = Some (j, rest).

(** The inside of a string literal. *)
Definition prints_chars (s t : bytes) : Prop :=
  ∀ rest, json_chars (s ++ Byte.x22 :: rest) = Some (t, rest).

(** Elements separated by commas. *)
Definition commas (l : list bytes) : bytes :=
  match l with [] => [] | x :: l' => x ++ concat (map (λ y, bs "," ++ y) l') end.

Lemma commas_cons x y l : commas (x :: y :: l) = x ++ Byte.x2c :: commas (y :: l).
Proof. done. Qed.

Lemma prints_fuel s j : prints s j → s ≠ [].
Proof. intros H ->. by specialize (H [] 0%nat I (le_n 0)). Qed.

(** No value begins with a closing character. *)
Lemma prints_open s j c r : prints s j → s = c :: r → c ∉ [Byte.x5d; Byte.x7d].
Proof.
  intros H -> Hc. specialize (H [] (S (length r)) I (le_n _)). rewrite !elem_of_cons in Hc.
  destruct Hc as [->|[->|Hc]]; [done|done|by apply elem_of_nil in Hc].
Qed.

Lemma prints_null : prints (bs "null") JNull.
Proof. intros rest [|fuel] Hc Hf; [cbn in Hf; lia|reflexivity]. Qed.
Lemma prints_bool (b : bool) : prints (if b then bs "true" else bs "false") (JBool b).
Proof. intros rest [|fuel] Hc Hf; destruct b; cbn in Hf; try lia; reflexivity. Qed.

Lemma prints_string s t : prints_chars s t → prints (Byte.x22 :: s ++ [Byte.x22]) (JStr t).
Proof.
  intros H rest [|fuel] Hc Hf; [cbn in Hf; lia|]. cbn [app json_value].
  rewrite <- app_assoc. cbn [app]. by rewrite H.
Qed.

(** *** Numbers *)

(** The grammar of numbers without exponents. *)
Definition strict_number (b : bytes) : Prop :=
  ∃ (neg : bool) ip fp, b = (if neg then [Byte.x2d] else []) ++ ip ++ match fp with [] => [] | _ => Byte.x2e :: fp end
    ∧ ip ≠ [] ∧ (head ip = Some Byte.x30 → ip = [Byte.x30])
    ∧ Forall (λ c, is_ascii_digit c = true) ip ∧ Forall (λ c, is_ascii_digit c = true) fp.

Lemma span_digits_app ds r :
  Forall (λ c, is_ascii_digit c = true) ds → (∀ c, head r = Some c → is_ascii_digit c = false) →
  span_digits (ds ++ r) = (ds, r).
Proof.
  intros Hd Hr. induction Hd as [|c ds Hc Hd IH]; cbn.
  - destruct r as [|c r]; [done|]. cbn. by rewrite Hr.
  - by rewrite Hc, IH.
Qed.

Lemma closes_not_digit rest c : closes rest → head rest = Some c → is_ascii_digit c = false.
Proof.
  unfold closes. intros H E. rewrite E, !elem_of_cons in H.
  destruct H as [->|[->|[->|H]]]; [done|done|done|by apply elem_of_nil in H].
Qed.

Lemma json_frac_reads fp rest :
  closes rest → Forall (λ c, is_ascii_digit c = true) fp →
  json_frac (match fp with [] => [] | _ => Byte.x2e :: fp end ++ rest)
  = Some (match fp with [] => [] | _ => Byte.x2e :: fp end, rest).
Proof.
  intros Hc Hf. destruct fp as [|d fp].
  - cbn [app]. destruct rest as [|c rest]; [done|]. unfold closes in Hc. cbn in Hc.
    rewrite !elem_of_cons in Hc. destruct Hc as [->|[->|[->|Hc]]]; try done. by apply elem_of_nil in Hc.
  - cbn [app json_frac]. rewrite app_comm_cons, span_digits_app; [done..|].
    intros c. by apply closes_not_digit.
Qed.

Lemma json_int_reads ip rest :
  ip ≠ [] → (head ip = Some Byte.x30 → ip = [Byte.x30]) → Forall (λ c, is_ascii_digit c = true) ip →
  (∀ c, head rest = Some c → is_ascii_digit c = false) → json_int (ip ++ rest) = Some (ip, rest).
Proof.
  intros Hne Hz Hd Hr. unfold json_int. rewrite span_digits_app by done. destruct ip as [|d ip]; [done|].
  case_bool_decide as E; [|done]. specialize (Hz E). by simplify_eq/=.
Qed.

Lemma strict_number_reads b rest : strict_number b → closes rest → json_number (b ++ rest) = Some (b, rest).
Proof.
  intros (neg & ip & fp & -> & Hne & Hz & Hip & Hfp) Hc. unfold json_number.
  set (f := match fp with [] => [] | _ => Byte.x2e :: fp end).
  assert (Hint : json_int (ip ++ f ++ rest) = Some (ip, f ++ rest)).
  { apply json_int_reads; try done. intros c. unfold f. destruct fp; [by apply closes_not_digit|]. by intros [= <-]. }
  assert (Hfrac : json_frac (f ++ rest) = Some (f, rest)) by by apply json_frac_reads.
  assert (Hs : (let '(sign, s) := match ((if neg then [Byte.x2d] else []) ++ ip ++ f) ++ rest with
                | Byte.x2d :: s1 => ([Byte.x2d], s1) | _ => ([], ((if neg then [Byte.x2d] else []) ++ ip ++ f) ++ rest) end in
                (sign, s)) = (if neg then [Byte.x2d] else [], ip ++ f ++ rest)).
  { destruct neg; cbn [app]; rewrite <- ?app_assoc; [done|]. destruct ip as [|d ip]; [done|].
    apply list.Forall_cons in Hip as [Hd _]. cbn [app]. by destruct d. }
  destruct (match _ with Byte.x2d :: s1 => _ | _ => _ end) as [sign s]. injection Hs as -> ->.
  rewrite Hint. cbn. by rewrite Hfrac.
Qed.

Lemma prints_number b : strict_number b → prints b (JNum b).
Proof.
  intros Hb rest [|fuel] Hc Hf; pose proof Hb as (neg & ip & fp & E & Hne & _ & Hip & _).
  { destruct b; [|cbn in Hf; lia]. by destruct neg, ip. }
  pose proof (strict_number_reads b rest Hb Hc) as Hr.
  assert (Hh : ∃ c r, b = c :: r ∧ (c = Byte.x2d ∨ is_ascii_digit c = true)).
  { rewrite E. destruct neg; [by eexists _, _; split; [|left]|]. destruct ip as [|d ip]; [done|].
    apply list.Forall_cons in Hip as [Hd _]. eexists _, _; split; [done|by right]. }
  destruct Hh as (c & r & -> & Hc'). cbn [app] in *.
  assert (json_value (S fuel) (c :: r ++ rest) = '(text, r) ← json_number (c :: r ++ rest); Some (JNum text, r)) as ->.
  { clear -Hc'. destruct c; try reflexivity; exfalso; destruct Hc' as [?|?]; done. }
  by rewrite Hr.
Qed.

(** *** Arrays and objects *)

Lemma json_items_more f s :
  json_items (S f) s =
  '(v, s) ← json_value f s;
  match s with
  | Byte.x5d :: r => Some ([v], r)
  | Byte.x2c :: s1 => '(vs, r) ← json_items f s1; Some (v :: vs, r)
  | _ => None
  end.
Proof. reflexivity. Qed.

Lemma prints_items ss js rest fuel :
  Forall2 prints ss js → ss ≠ [] → (S (length (commas ss)) ≤ fuel)%nat →
  json_items fuel (commas ss ++ Byte.x5d :: rest) = Some (js, rest).
Proof.
  intros H. revert fuel. induction H as [|s j ss js Hs H IH]; intros fuel Hne Hf; [done|].
  destruct fuel as [|fuel]; [lia|]. rewrite json_items_more. inversion H as [|s' j' ss' js' Hs' H' E1 E2]; subst.
  - cbn [commas map concat] in *. rewrite app_nil_r in *. rewrite Hs; [done| |lia].
    unfold closes. cbn. rewrite !elem_of_cons. auto.
  - rewrite commas_cons in *. rewrite length_app in Hf. cbn [length] in Hf.
    rewrite <- app_assoc. cbn [app]. rewrite Hs; [| |lia].
    + cbn [mbind option_bind]. rewrite IH; [done|done|lia].
    + unfold closes. cbn. rewrite !elem_of_cons. auto.
Qed.

Lemma json_value_array fuel s :
  head s ≠ Some Byte.x5d →
  json_value (S fuel) (Byte.x5b :: s) = '(items, r) ← json_items fuel s; Some (JArr items, r).
Proof. destruct s as [|b s]; [done|]. intros H. destruct b; try reflexivity. done. Qed.

Lemma prints_array ss js : Forall2 prints ss js → prints (bs "[" ++ commas ss ++ bs "]") (JArr js).
Proof.
  change (bs "[") with [Byte.x5b]. change (bs "]") with [Byte.x5d].
  intros H rest [|fuel] Hc Hf; [cbn in Hf; lia|]. rewrite !length_app in Hf. cbn [length] in Hf.
  inversion H as [|s j ss' js' Hs H' E1 E2]; subst; [reflexivity|]. rewrite <- !app_assoc. cbn [app].
  rewrite json_value_array.
  - rewrite (prints_items (s :: ss') (j :: js')); [done|done|done|lia].
  - pose proof (prints_fuel _ _ Hs) as Hne. destruct s as [|c s]; [done|]. cbn [commas app head].
    intros [= ->]. apply (prints_open _ _ _ _ Hs eq_refl). rewrite !elem_of_cons. auto.
Qed.

(** The text of a member: its quoted name, a colon, its value. *)
Definition member (name value : bytes) : bytes := Byte.x22 :: name ++ Byte.x22 :: Byte.x3a :: value.

Definition prints_member (s : bytes) (kv : bytes * Json) : Prop :=
  ∃ name value, s = member name value ∧ prints_chars name kv.1 ∧ prints value kv.2.

Lemma after_cons b s : after [b] (b :: s) = Some s.
Proof. unfold after. by rewrite bool_decide_true. Qed.

Lemma json_members_more f s :
  json_members (S f) s =
  s ← after [Byte.x22] s; '(k, s) ← json_chars s; s ← after [Byte.x3a] s;
  '(v, s) ← json_value f s;
  match s with
  | Byte.x7d :: r => Some ([(k, v)], r)
  | Byte.x2c :: s1 => '(kvs, r) ← json_members f s1; Some ((k, v) :: kvs, r)
  | _ => None
  end.
Proof. reflexivity. Qed.

Lemma json_member_reads fuel s k v rest :
  prints_member s (k, v) → closes rest → (length s ≤ fuel)%nat →
  json_members (S fuel) (s ++ rest) =
  match rest with
  | Byte.x7d :: r => Some ([(k, v)], r)
  | Byte.x2c :: s1 => '(kvs, r) ← json_members fuel s1; Some ((k, v) :: kvs, r)
  | _ => None
  end.
Proof.
  intros (name & value & -> & Hn & Hv) Hc Hf. unfold member in *. cbn [app length] in *.
  rewrite json_members_more, after_cons. cbn [mbind option_bind].
  rewrite <- app_assoc. cbn [app]. rewrite Hn. cbn [mbind option_bind]. rewrite after_cons. cbn [mbind option_bind].
  rewrite Hv; [done|done|]. rewrite length_app in Hf. cbn [length] in Hf. lia.
Qed.

Lemma prints_members ss kvs rest fuel :
  Forall2 prints_member ss kvs → ss ≠ [] → (S (length (commas ss)) ≤ fuel)%nat →
  json_members fuel (commas ss ++ Byte.x7d :: rest) = Some (kvs, rest).
Proof.
  intros H. revert fuel. induction H as [|s [k v] ss kvs Hs H IH]; intros fuel Hne Hf; [done|].
  destruct fuel as [|fuel]; [lia|]. inversion H as [|s' kv' ss' kvs' Hs' H' E1 E2]; subst.
  - cbn [commas map concat] in *. rewrite app_nil_r in *. rewrite (json_member_reads _ _ k v); [done|done| |lia].
    unfold closes. cbn. rewrite !elem_of_cons. auto.
  - rewrite commas_cons in *. rewrite length_app in Hf. cbn [length] in Hf.
    rewrite <- app_assoc. cbn [app]. rewrite (json_member_reads _ _ k v); [|done| |lia].
    + rewrite IH; [done|done|lia].
    + unfold closes. cbn. rewrite !elem_of_cons. auto.
Qed.

Lemma prints_object s ss kvs :
  ss ≠ [] → Forall2 prints_member ss kvs → s = bs "{" ++ commas ss ++ bs "}" → prints s (JObj kvs).
Proof.
  change (bs "{") with [Byte.x7b]. change (bs "}") with [Byte.x7d].
  intros Hne H -> rest [|fuel] Hc Hf; [cbn in Hf; lia|]. rewrite !length_app in Hf. cbn [length] in Hf.
  rewrite <- !app_assoc. cbn [app].
  assert (∃ t, commas ss = Byte.x22 :: t) as [t Ht].
  { inversion H as [|m kv ss' kvs' (name & value & -> & _) H' E1 E2]; subst; [done|].
    eexists. cbn [commas]. unfold member. cbn [app]. reflexivity. }
  pose proof (prints_members ss kvs rest fuel H Hne ltac:(lia)) as Hm. rewrite Ht in *. cbn [app] in *.
  change (json_value (S fuel) (Byte.x7b :: Byte.x22 :: t ++ Byte.x7d :: rest))
    with ('(members, r) ← json_members fuel (Byte.x22 :: t ++ Byte.x7d :: rest); Some (JObj members, r)).
  by rewrite Hm.
Qed.

Lemma prints_read s j : prints s j → read_json s = Some j.
Proof.
  intros H. unfold read_json. specialize (H [] (length s) I (le_n _)). rewrite app_nil_r in H. by rewrite H.
Qed.
