(* ===== verification/FloatFacts.v ===== *)
(** * The text of numbers

    What the printer of [Float] writes has no leading zeros: integers, and
    finite floats whatever their exponent. Every other reader of numbers
    (JSON's here) depends on it. *)

From S2P Require Import Prelude Float SqlLexer Migrate MigrateFacts Json.
From Stdlib Require Import Floats.SpecFloat.

(** ** Integers *)

Lemma digit_byte_zero d : 1 ≤ d ≤ 9 → byte.of_Z (48 + d) ≠ Byte.x30.
Proof.
  intros Hd E. apply (f_equal byte.unsigned) in E. rewrite byte.unsigned_of_Z in E.
  unfold byte.wrap in E. rewrite Z.mod_small in E by lia. change (byte.unsigned Byte.x30) with 48 in E. lia.
Qed.

Lemma dec_digits_head fuel n acc :
  1 ≤ n < 10 ^ Z.of_nat fuel → ∃ d ds, dec_digits_fuel fuel n acc = byte.of_Z (48 + d) :: ds ∧ 1 ≤ d ≤ 9.
Proof.
  revert n acc. induction fuel as [|fuel IH]; intros n acc Hn; [cbn in Hn; lia|].
  cbn [dec_digits_fuel]. destruct (Z.ltb_spec n 10) as [H|H].
  - exists n, acc. rewrite Z.mod_small by lia. split; [done|lia].
  - apply IH. rewrite Nat2Z.inj_succ, Z.pow_succ_r in Hn by lia.
    split; [apply Z.div_le_lower_bound; lia|apply Z.div_lt_upper_bound; lia].
Qed.

Lemma show_nat_head n : 1 ≤ n → ∃ b ds, show_nat n = b :: ds ∧ b ≠ Byte.x30.
Proof.
  intros Hn. destruct (dec_digits_head (S (Z.to_nat (Z.log2 n))) n []) as (d & ds & E & Hd).
  - split; [done|]. rewrite Nat2Z.inj_succ, Z2Nat.id by apply Z.log2_nonneg.
    apply Z.lt_le_trans with (2 ^ Z.succ (Z.log2 n)); [apply Z.log2_spec; lia|].
    apply Z.pow_le_mono_l. lia.
  - exists (byte.of_Z (48 + d)), ds. split; [done|]. by apply digit_byte_zero.
Qed.

Lemma show_nat_strict n : 0 ≤ n → head (show_nat n) = Some Byte.x30 → show_nat n = [Byte.x30].
Proof.
  intros Hn. destruct (decide (n = 0)) as [->|Hz]; [done|].
  destruct (show_nat_head n) as (b & ds & -> & Hb); [lia|]. intros [= ->]. done.
Qed.

Lemma show_Z_strict n : strict_number (show_Z n).
Proof.
  unfold show_Z. destruct (Z.ltb_spec n 0) as [H|H].
  - exists true, (show_nat (- n)), []. rewrite app_nil_r. destruct (show_nat_shape (- n)) as [Hd Hne].
    split_and!; try done. apply show_nat_strict. lia.
  - exists false, (show_nat n), []. rewrite app_nil_r. destruct (show_nat_shape n) as [Hd Hne].
    split_and!; try done. by apply show_nat_strict.
Qed.

(** ** Decimals *)

Lemma show_decimal_strict (neg : bool) d k p :
  1 ≤ d → strict_number ((if neg then bs "-" else []) ++ show_decimal d k p).
Proof.
  intros Hd. destruct (show_nat_head d Hd) as (b & r & E & Hb).
  unfold show_decimal. destruct (show_nat_shape d) as [Hds Hne]. rewrite E in *.
  set (ds := b :: r) in *. set (n := Z.of_nat (length ds)). set (q := p + (n - k)).
  destruct (Z.leb_spec n q).
  - exists neg, (ds ++ replicate (Z.to_nat (q - n)) (byte.of_Z 48)), []. rewrite app_nil_r.
    split_and!; [by destruct neg|done|by intros [= ->]| |done].
    apply Forall_app; split; [done|apply zeros_digits].
  - destruct (Z.ltb_spec 0 q) as [Hq|Hq].
    + exists neg, (take (Z.to_nat q) ds), (drop (Z.to_nat q) ds).
      assert (take (Z.to_nat q) ds = b :: take (pred (Z.to_nat q)) r) as Et.
      { unfold ds. by replace (Z.to_nat q) with (S (pred (Z.to_nat q))) by lia. }
      assert (drop (Z.to_nat q) ds ≠ []) as Hdr.
      { intros En. apply (f_equal length) in En. rewrite length_drop in En. cbn [length] in En. unfold n in *. lia. }
      split_and!; [|by rewrite Et|by rewrite Et; intros [= ->]|by apply Forall_take|by apply Forall_drop].
      destruct (drop (Z.to_nat q) ds) eqn:En; [done|]. by destruct neg.
    + exists neg, [Byte.x30], (replicate (Z.to_nat (- q)) (byte.of_Z 48) ++ ds).
      split_and!; [|done|done|by constructor|apply Forall_app; split; [apply zeros_digits|done]].
      destruct (_ ++ ds) eqn:En; [by destruct (replicate _ _)|]. rewrite <- En. by destruct neg.
Qed.

(** ** Floats *)

(** [10^p <= num/den], without fractions. *)
Definition pow10_le (num den p : Z) : Prop :=
  if 0 <=? p then den * 10 ^ p ≤ num else den ≤ num * 10 ^ (- p).

Lemma pow10_le_mono num den p q : 0 < num → 0 < den → p ≤ q → pow10_le num den q → pow10_le num den p.
Proof.
  unfold pow10_le. intros Hn Hd Hpq. destruct (Z.leb_spec 0 q), (Z.leb_spec 0 p); try lia.
  - intros H1. pose proof (Z.pow_le_mono_r 10 p q). nia.
  - intros H1. pose proof (Z.pow_pos_nonneg 10 q). pose proof (Z.pow_pos_nonneg 10 (- p)). nia.
  - intros H1. pose proof (Z.pow_le_mono_r 10 (- q) (- p)). nia.
Qed.

Lemma dec_exponent_below fuel num den p :
  0 < num → 0 < den → pow10_le num den (p - 1) → pow10_le num den (dec_exponent fuel num den p - 1).
Proof.
  revert p. induction fuel as [|fuel IH]; intros p Hn Hd H; [done|]. cbn [dec_exponent].
  destruct (if 0 <=? p then _ else _) eqn:E; [done|]. apply IH; [done..|].
  replace (p + 1 - 1) with p by lia. unfold pow10_le. destruct (0 <=? p); lia.
Qed.

Lemma shortest_positive fuel f x num den p k :
  0 < num → 0 < den → 1 ≤ k → pow10_le num den (p - 1) → 1 ≤ (shortest fuel f x num den p k).1.
Proof.
  revert k. induction fuel as [|fuel IH]; intros k Hn Hd Hk H; cbn [shortest];
    set (n' := if k <=? p then num else num * 10 ^ (k - p));
    set (d' := if k <=? p then den * 10 ^ (p - k) else den);
    (assert (Hlo : 1 ≤ n' / d');
     [apply Z.div_le_lower_bound;
      [unfold d'; destruct (k <=? p) eqn:?; [pose proof (Z.pow_pos_nonneg 10 (p - k)); nia|lia]|];
      rewrite Z.mul_1_r; pose proof (pow10_le_mono num den (p - k) (p - 1) Hn Hd ltac:(lia) H) as H';
      unfold pow10_le in H'; unfold n', d';
      destruct (Z.leb_spec k p), (Z.leb_spec 0 (p - k)); try lia; by replace (k - p) with (- (p - k)) by lia|]).
  - cbn [fst]. destruct (_ <? d'); lia.
  - destruct (read_back f _ p k =? x); [cbn [fst]; destruct (_ <? d'); lia|].
    destruct (read_back f _ p k =? x); [|apply IH; [done..|lia|done]].
    cbn [fst]. destruct (_ =? _); lia.
Qed.

(** The first exponent tried is not too large, at every scale of a double. *)
Definition start_ok (L : Z) : bool :=
  let q := (L - 1) * 30103 / 100000 - 2 in
  if 0 <=? q then (1 <=? L) && (10 ^ q <=? 2 ^ (L - 1))
  else if 1 <=? L then true else 2 ^ (1 - L) <=? 10 ^ (- q).
Lemma start_ok_all : forallb start_ok (seqZ (-1100) 2200) = true.
Proof. vm_compute. reflexivity. Qed.

Lemma start_below num den :
  0 < num → 0 < den → -1100 ≤ Z.log2 num - Z.log2 den < 1100 →
  pow10_le num den ((Z.log2 num - Z.log2 den - 1) * 30103 / 100000 - 1 - 1).
Proof.
  intros Hn Hd HL. set (L := Z.log2 num - Z.log2 den) in *.
  assert (Hok : start_ok L = true).
  { pose proof start_ok_all as H. rewrite forallb_forall in H. apply H, list_elem_of_In, elem_of_seqZ. lia. }
  pose proof (Z.log2_spec num Hn) as [Hn1 _]. pose proof (Z.log2_spec den Hd) as [_ Hd2].
  pose proof (Z.log2_nonneg num). pose proof (Z.log2_nonneg den).
  unfold start_ok in Hok. unfold pow10_le.
  replace ((L - 1) * 30103 / 100000 - 1 - 1) with ((L - 1) * 30103 / 100000 - 2) by lia.
  set (q := (L - 1) * 30103 / 100000 - 2) in *. destruct (Z.leb_spec 0 q) as [Hq|Hq].
  - apply andb_true_iff in Hok as [H1 H2]. apply Z.leb_le in H1, H2.
    assert (2 ^ Z.log2 num = 2 ^ Z.succ (Z.log2 den) * 2 ^ (L - 1)) as E.
    { rewrite <- Z.pow_add_r by lia. f_equal. lia. }
    pose proof (Z.pow_pos_nonneg 10 q). nia.
  - pose proof (Z.pow_pos_nonneg 10 (- q)). destruct (Z.leb_spec 1 L) as [HL1|HL1].
    + pose proof (Z.pow_le_mono_r 2 (Z.succ (Z.log2 den)) (Z.log2 num)). nia.
    + apply Z.leb_le in Hok.
      assert (2 ^ Z.succ (Z.log2 den) = 2 ^ Z.log2 num * 2 ^ (1 - L)) as E.
      { rewrite <- Z.pow_add_r by lia. f_equal. lia. }
      pose proof (Z.pow_pos_nonneg 2 (1 - L)). nia.
Qed.

(** The significand and exponent of a finite value, in either format. *)
Lemma sf_of_bits_finite f x s m e :
  f = binary64 ∨ f = binary32 → sf_of_bits f x = S754_finite s m e → Z.log2 (Zpos m) ≤ 53 ∧ -1080 ≤ e ≤ 1000.
Proof.
  intros Hf. unfold sf_of_bits. set (ex := Z.land (Z.shiftr x (f_mbits f)) _). set (man := Z.land x _).
  assert (Hex : 0 ≤ ex < 2 ^ f_ebits f). { unfold ex. rewrite Z.land_ones by (by destruct Hf as [->| ->]). apply Z.mod_pos_bound. by destruct Hf as [->| ->]. }
  assert (Hman : 0 ≤ man < 2 ^ f_mbits f). { unfold man. rewrite Z.land_ones by (by destruct Hf as [->| ->]). apply Z.mod_pos_bound. by destruct Hf as [->| ->]. }
  assert (Hl : ∀ p, Zpos p < 2 ^ (f_mbits f + 1) → Z.log2 (Zpos p) ≤ 53).
  { intros p Hp. apply Z.log2_lt_pow2 in Hp; [|done]. destruct Hf as [->| ->]; [change (f_mbits binary64) with 52 in Hp|change (f_mbits binary32) with 23 in Hp]; lia. }
  assert (H2 : 2 ^ (f_mbits f + 1) = 2 * 2 ^ f_mbits f). { by destruct Hf as [->| ->]. }
  destruct (Z.eqb_spec ex 0).
  - destruct man as [|p|p] eqn:E; try done. intros [= <- <- <-]. split; [apply Hl; lia|].
    by destruct Hf as [->| ->].
  - destruct (Z.eqb_spec ex (Z.ones (f_ebits f))) as [|Hne]; [by destruct (man =? 0)|].
    destruct (man + 2 ^ f_mbits f) as [|p|p] eqn:E; try done. intros [= <- <- <-]. split; [apply Hl; lia|].
    destruct Hf as [->| ->]; [change (2 ^ f_ebits binary64) with 2048 in Hex|change (2 ^ f_ebits binary32) with 256 in Hex];
      cbn [f_prec f_emax binary64 binary32]; lia.
Qed.

Definition f_is_finite (f : format) (x : Z) : bool :=
  match sf_of_bits f x with S754_nan | S754_infinity _ => false | _ => true end.

Lemma f_show_strict f x : f = binary64 ∨ f = binary32 → f_is_finite f x = true → strict_number (f_show f x).
Proof.
  intros Hf. unfold f_is_finite, f_show. destruct (sf_of_bits f x) as [s|s| |s m e] eqn:E; try done; intros _.
  - exists s, [Byte.x30], []. split_and!; [by destruct s|done|done|by constructor|done].
  - destruct (sf_of_bits_finite f x s m e Hf E) as [Hm He].
    pose proof (Z.log2_nonneg (Zpos m)).
    assert (Hn : 0 < sf_num m e). { unfold sf_num. destruct (Z.ltb_spec e 0); [lia|]. pose proof (Z.pow_pos_nonneg 2 e). lia. }
    assert (Hd : 0 < sf_den e). { unfold sf_den. destruct (Z.ltb_spec e 0); [|lia]. pose proof (Z.pow_pos_nonneg 2 (- e)). lia. }
    assert (HL : Z.log2 (sf_num m e) - Z.log2 (sf_den e) = Z.log2 (Zpos m) + e).
    { unfold sf_num, sf_den. destruct (Z.ltb_spec e 0).
      - rewrite Z.log2_pow2 by lia. lia.
      - change (Z.log2 1) with 0. rewrite Z.log2_mul_pow2 by lia. lia. }
    pose proof (start_below _ _ Hn Hd ltac:(lia)) as Hs.
    pose proof (dec_exponent_below 4 _ _ _ Hn Hd Hs) as Hp.
    pose proof (shortest_positive 17 f (Z.land x (Z.ones (f_width f - 1))) _ _ _ 1 Hn Hd ltac:(lia) Hp) as Hk.
    destruct (shortest _ _ _ _ _ _ _) as [d k]. by apply show_decimal_strict.
Qed.
