(* ===== verification/Ffi.v ===== *)
(** * The C interface

    ciphra-ffi/src/lib.rs: the JSON encoding of results, and the calls a
    language driver makes, over a memory of handles, strings and the caller's
    own buffers. A call that breaks the documented contract (a pointer that
    is not what it should be) is [None]: undefined behaviour. *)

From S2P Require Import Prelude Storage Aead Float SqlAst SqlLexer SqlParser Migrate MigrateFacts Values Store EngineState Ddl Exec Errors Json FloatFacts.

(** ** JSON encoding *)

(** [format!("{:04x}", c)] for a control character. *)
Definition lower_hex (d : Z) : byte := byte.of_Z (if d <? 10 then 48 + d else 87 + d).
Definition hex4 (c : Z) : bytes :=
  [lower_hex (c / 4096 mod 16); lower_hex (c / 256 mod 16); lower_hex (c / 16 mod 16); lower_hex (c mod 16)].

(** One character of a string; the bytes of a character above U+007F are
    copied, each as itself. *)
Definition encode_char (c : byte) : bytes :=
  match c with
  | Byte.x22 => [Byte.x5c; Byte.x22]
  | Byte.x5c => [Byte.x5c; Byte.x5c]
  | Byte.x0a => [Byte.x5c; Byte.x6e]
  | Byte.x0d => [Byte.x5c; Byte.x72]
  | Byte.x09 => [Byte.x5c; Byte.x74]
  | Byte.x08 => [Byte.x5c; Byte.x62]
  | Byte.x0c => [Byte.x5c; Byte.x66]
  | c => if byte.unsigned c <? 0x20 then [Byte.x5c; Byte.x75] ++ hex4 (byte.unsigned c) else [c]
  end.
Definition encode_str (s : bytes) : bytes := [Byte.x22] ++ concat (map encode_char s) ++ [Byte.x22].

(** [for (i, x) in l.iter().enumerate() { if i > 0 { out.push(',') } ... }] *)
Definition encode_list {A} (encode : A → bytes) (l : list A) : bytes := commas (map encode l).

Definition encode_real (finite : bool) (text : bytes) : bytes := if finite then text else bs "null".
Definition encode_value (value : Value) : bytes :=
  match value with
  | VNull => bs "null"
  | VInt n => show_Z n
  | VReal x => encode_real (f_is_finite binary64 x) (f64_show x)
  | VText s => encode_str s
  | VVector v => bs "[" ++ encode_list (λ x, encode_real (f_is_finite binary32 x) (f32_show x)) v ++ bs "]"
  end.

Definition q (s : string) : bytes := [Byte.x22] ++ bs s ++ [Byte.x22].

Definition encode_index (kind : string) (table column : bytes) (range : bool) : bytes :=
  bs "{" ++ q "kind" ++ bs ":" ++ q kind ++ bs "," ++ q "table" ++ bs ":" ++ encode_str table
    ++ bs "," ++ q "column" ++ bs ":" ++ encode_str column
    ++ bs "," ++ q "range" ++ bs ":" ++ (if range then bs "true" else bs "false") ++ bs "}".
Definition encode_count (kind : string) (n : nat) : bytes :=
  bs "{" ++ q "kind" ++ bs ":" ++ q kind ++ bs "," ++ q "count" ++ bs ":" ++ show_Z (Z.of_nat n) ++ bs "}".

Definition encode_result (result : QueryResult) : bytes :=
  match result with
  | QCreated name =>
      bs "{" ++ q "kind" ++ bs ":" ++ q "created" ++ bs "," ++ q "name" ++ bs ":" ++ encode_str name ++ bs "}"
  | QDropped name =>
      bs "{" ++ q "kind" ++ bs ":" ++ q "dropped" ++ bs "," ++ q "name" ++ bs ":" ++ encode_str name ++ bs "}"
  | QIndexCreated table column range => encode_index "index_created" table column range
  | QIndexDropped table column range => encode_index "index_dropped" table column range
  | QInserted n => encode_count "inserted" n
  | QUpdated n => encode_count "updated" n
  | QDeleted n => encode_count "deleted" n
  | QRows columns rows =>
      bs "{" ++ q "kind" ++ bs ":" ++ q "rows" ++ bs "," ++ q "columns" ++ bs ":"
        ++ (bs "[" ++ encode_list encode_str columns ++ bs "]") ++ bs "," ++ q "rows" ++ bs ":"
        ++ (bs "[" ++ encode_list (λ row, bs "[" ++ encode_list encode_value row ++ bs "]") rows ++ bs "]") ++ bs "}"
  | QBegin => bs "{" ++ q "kind" ++ bs ":" ++ q "begin" ++ bs "}"
  | QCommitted => bs "{" ++ q "kind" ++ bs ":" ++ q "committed" ++ bs "}"
  | QRolledBack => bs "{" ++ q "kind" ++ bs ":" ++ q "rolled_back" ++ bs "}"
  end.

Definition results_to_json (results : list QueryResult) : bytes :=
  bs "[" ++ encode_list encode_result results ++ bs "]".

(** ** What the text means *)

Definition real_json (finite : bool) (text : bytes) : Json := if finite then JNum text else JNull.
Definition value_json (value : Value) : Json :=
  match value with
  | VNull => JNull
  | VInt n => JNum (show_Z n)
  | VReal x => real_json (f_is_finite binary64 x) (f64_show x)
  | VText s => JStr s
  | VVector v => JArr (map (λ x, real_json (f_is_finite binary32 x) (f32_show x)) v)
  end.

Definition tagged (kind : string) (fields : list (bytes * Json)) : Json :=
  JObj ((bs "kind", JStr (bs kind)) :: fields).
Definition index_json (kind : string) (table column : bytes) (range : bool) : Json :=
  tagged kind [(bs "table", JStr table); (bs "column", JStr column); (bs "range", JBool range)].
Definition count_json (kind : string) (n : nat) : Json :=
  tagged kind [(bs "count", JNum (show_Z (Z.of_nat n)))].

Definition result_json (result : QueryResult) : Json :=
  match result with
  | QCreated name => tagged "created" [(bs "name", JStr name)]
  | QDropped name => tagged "dropped" [(bs "name", JStr name)]
  | QIndexCreated table column range => index_json "index_created" table column range
  | QIndexDropped table column range => index_json "index_dropped" table column range
  | QInserted n => count_json "inserted" n
  | QUpdated n => count_json "updated" n
  | QDeleted n => count_json "deleted" n
  | QRows columns rows =>
      tagged "rows" [(bs "columns", JArr (map JStr columns)); (bs "rows", JArr (map (λ row, JArr (map value_json row)) rows))]
  | QBegin => tagged "begin" []
  | QCommitted => tagged "committed" []
  | QRolledBack => tagged "rolled_back" []
  end.

(** ** Keys in hexadecimal *)

(** [u8::from_str_radix(s, 16)]: a leading plus is allowed. *)
Fixpoint radix16 (acc : Z) (s : bytes) : option Z :=
  match s with
  | [] => Some acc
  | c :: s' => d ← hex_digit c; if acc * 16 + d <? 256 then radix16 (acc * 16 + d) s' else None
  end.
Definition u8_from_hex (s : bytes) : option byte :=
  v ← match s with
      | [] | [Byte.x2b] | [Byte.x2d] => None
      | Byte.x2b :: digits => radix16 0 digits
      | digits => radix16 0 digits
      end;
  Some (byte.of_Z v).

(** [is_char_boundary]: not before a continuation byte. *)
Definition char_boundary (s : bytes) (i : nat) : bool :=
  match s !! i with
  | Some b => negb (in_range 0x80 0xBF b)
  | None => (i =? length s)%nat
  end.

(** The loop over the 32 bytes; [None] is the panic of a slice that cuts a
    character. *)
Fixpoint parse_key_bytes (invalid : bytes) (hex : bytes) (i n : nat) : option (result bytes bytes) :=
  match n with
  | O => Some (Ok [])
  | S n' =>
      if char_boundary hex (i * 2) && char_boundary hex (i * 2 + 2) then
        match u8_from_hex (take 2 (drop (i * 2) hex)) with
        | Some b => r ← parse_key_bytes invalid hex (S i) n'; Some (key ← r; Ok (b :: key))
        | None => Some (Err invalid)
        end
      else None
  end.
Definition parse_key (hex : bytes) : option (result bytes bytes) :=
  if negb (length hex =? 64)%nat then Some (Err (bs "server key must be 64 hex characters (32 bytes)"))
  else parse_key_bytes (bs "server key must be valid hex") hex 0 32.

(** ** Memory *)

(** [NULL] is address 0. A string the library gave out, and a buffer of the
    caller, are their bytes, terminator included. *)
Record Memory (D : Type) : Type := mkMemory {
  m_handles : gmap Z D;       (** boxed databases *)
  m_strings : gmap Z bytes;   (** strings allocated by the library *)
  m_buffers : gmap Z bytes;   (** strings of the caller *)
  m_cells : gmap Z Z;         (** the caller's [char *] variables *)
}.
Arguments mkMemory {D}.
Arguments m_handles {D}.
Arguments m_strings {D}.
Arguments m_buffers {D}.
Arguments m_cells {D}.

Definition used {D} (m : Memory D) : gset Z :=
  {[0]} ∪ dom (m_handles m) ∪ dom (m_strings m) ∪ dom (m_buffers m) ∪ dom (m_cells m).

(** The allocator of the process. *)
Class Allocator : Type := {
  alloc : gset Z → Z;
  alloc_fresh X : alloc X ∉ X;
}.

Definition with_strings {D} (m : Memory D) s := mkMemory (m_handles m) s (m_buffers m) (m_cells m).
Definition with_handles {D} (m : Memory D) (h : gmap Z D) := mkMemory h (m_strings m) (m_buffers m) (m_cells m).
Definition with_cells {D} (m : Memory D) c := mkMemory (m_handles m) (m_strings m) (m_buffers m) c.

(** [CStr::from_ptr]: up to the terminator. *)
Fixpoint c_str (buffer : bytes) : option bytes :=
  match buffer with
  | [] => None
  | b :: buffer' => if bool_decide (b = Byte.x00) then Some [] else s ← c_str buffer'; Some (b :: s)
  end.

Section Calls.
Context {D : Type} `{Allocator}.

(** [s.replace('\0', "\u{fffd}")] *)
Definition replace_nul (s : bytes) : bytes :=
  concat (map (λ b, if bool_decide (b = Byte.x00) then [Byte.xef; Byte.xbf; Byte.xbd] else [b]) s).

Definition into_c_string (s : bytes) (m : Memory D) : Z * Memory D :=
  let cleaned := replace_nul s in
  let s := if bool_decide (Byte.x00 ∈ cleaned) then bs "error message contained a NUL" else cleaned in
  let p := alloc (used m) in
  (p, with_strings m (<[p := s ++ [Byte.x00]]> (m_strings m))).

Definition clear_err (out_err : Z) (m : Memory D) : option (Memory D) :=
  if out_err =? 0 then Some m
  else _ ← m_cells m !! out_err; Some (with_cells m (<[out_err := 0]> (m_cells m))).

Definition set_err (out_err : Z) (message : bytes) (m : Memory D) : option (Memory D) :=
  if out_err =? 0 then Some m
  else
    _ ← m_cells m !! out_err;
    let '(p, m) := into_c_string message m in
    Some (with_cells m (<[out_err := p]> (m_cells m))).

Definition to_str (ptr : Z) (what : string) (m : Memory D) : option (result bytes bytes) :=
  if ptr =? 0 then Some (Err (bs what ++ bs " must not be null"))
  else
    buffer ← match m_buffers m !! ptr with Some b => Some b | None => m_strings m !! ptr end;
    s ← c_str buffer;
    Some (if utf8_valid s then Ok s else Err (bs what ++ bs " is not valid UTF-8")).

(** [catch_unwind] gives [None] when the closure panicked. *)
Definition flatten {A} (r : option (result bytes A)) : result bytes A :=
  match r with Some inner => inner | None => Err (bs "internal error: operation panicked") end.

Definition finish_open (r : option (result bytes D)) (out_err : Z) (m : Memory D) : option (Z * Memory D) :=
  match flatten r with
  | Ok engine =>
      let p := alloc (used m) in Some (p, with_handles m (<[p := engine]> (m_handles m)))
  | Err message => m ← set_err out_err message m; Some (0, m)
  end.

(** [Engine::open] and [Engine::open_remote] depend on what is outside the
    process: arguments, [None] when they panic. *)
Definition ciphra_open `{StdText} (open : bytes → bytes → option (result EngineError D))
    (data_dir passphrase out_err : Z) (m : Memory D) : option (Z * Memory D) :=
  m ← clear_err out_err m;
  dir ← to_str data_dir "data_dir" m;
  match dir with
  | Err e => finish_open (Some (Err e)) out_err m
  | Ok dir =>
      pass ← to_str passphrase "passphrase" m;
      match pass with
      | Err e => finish_open (Some (Err e)) out_err m
      | Ok pass => finish_open (map_err show_engine_error <$> open dir pass) out_err m
      end
  end.

Definition ciphra_open_remote `{StdText} (open_remote : bytes → bytes → option bytes → option (result EngineError D))
    (addr passphrase server_key_hex out_err : Z) (m : Memory D) : option (Z * Memory D) :=
  m ← clear_err out_err m;
  addr ← to_str addr "addr" m;
  match addr with
  | Err e => finish_open (Some (Err e)) out_err m
  | Ok addr =>
      pass ← to_str passphrase "passphrase" m;
      match pass with
      | Err e => finish_open (Some (Err e)) out_err m
      | Ok pass =>
          pinned ←
            (if server_key_hex =? 0 then Some (Some (Ok None))
             else
               hex ← to_str server_key_hex "server_key_hex" m;
               Some match hex with
                    | Err e => Some (Err e)
                    | Ok hex => r ← parse_key hex; Some (key ← r; Ok (Some key))
                    end);
          match pinned with
          | None => finish_open None out_err m
          | Some (Err e) => finish_open (Some (Err e)) out_err m
          | Some (Ok pinned) => finish_open (map_err show_engine_error <$> open_remote addr pass pinned) out_err m
          end
      end
  end.

Definition ciphra_close (db : Z) (m : Memory D) : option (Memory D) :=
  if db =? 0 then Some m
  else _ ← m_handles m !! db; Some (with_handles m (delete db (m_handles m))).

Definition ciphra_string_free (s : Z) (m : Memory D) : option (Memory D) :=
  if s =? 0 then Some m
  else _ ← m_strings m !! s; Some (with_strings m (delete s (m_strings m))).
End Calls.

Section Execute.
Context {B : Type} `{Backend B} `{Allocator} `{StdText}.

Definition ciphra_execute (db sql out_err : Z) (m : Memory (Engine B)) : option (Z * Memory (Engine B)) :=
  m ← clear_err out_err m;
  let fail message m := m ← set_err out_err message m; Some (0, m) in
  if db =? 0 then fail (bs "null database handle") m
  else
    engine ← m_handles m !! db;
    sql ← to_str sql "sql" m;
    match sql with
    | Err e => fail e m
    | Ok sql =>
        let '(r, engine) := execute sql engine in
        let m := with_handles m (<[db := engine]> (m_handles m)) in
        match flatten (Some (map_err show_engine_error r)) with
        | Ok results => Some (into_c_string (results_to_json results) m)
        | Err message => fail message m
        end
    end.
End Execute.
