(* ===== verification/FfiFacts.v ===== *)
(** * The C interface: what a driver reads is what the engine returned

    The JSON text parses, with a reader of a subset of RFC 8259, to the tree
    of the results, and it holds no terminator; a call of [ciphra_execute] is
    one call of the engine on the handle's database and changes nothing else
    the caller can see. *)

From S2P Require Import Prelude Storage Aead Float SqlAst SqlLexer SqlParser Migrate MigrateFacts Values AuditChain Store EngineState Ddl Exec Errors Json FloatFacts Ffi.

(** ** The encoder prints the tree *)

Lemma encode_char_reads c s : json_chars (encode_char c ++ s) = '(t, r) ← json_chars s; Some (c :: t, r).
Proof. destruct c; reflexivity. Qed.

Lemma encode_chars s : prints_chars (concat (map encode_char s)) s.
Proof.
  induction s as [|c s IH]; intros rest; cbn [map concat]; [reflexivity|].
  rewrite <- app_assoc, encode_char_reads, IH. reflexivity.
Qed.

Lemma encode_str_prints s : prints (encode_str s) (JStr s).
Proof. apply prints_string, encode_chars. Qed.

Lemma encode_list_prints {A} (encode : A → bytes) (tree : A → Json) l :
  (∀ x, prints (encode x) (tree x)) → prints (bs "[" ++ encode_list encode l ++ bs "]") (JArr (map tree l)).
Proof.
  intros H. apply prints_array. induction l as [|x l IH]; cbn [map]; constructor; [apply H|exact IH].
Qed.

Lemma encode_real_prints f x :
  f = binary64 ∨ f = binary32 →
  prints (encode_real (f_is_finite f x) (f_show f x)) (real_json (f_is_finite f x) (f_show f x)).
Proof.
  intros Hf. unfold encode_real, real_json. destruct (f_is_finite f x) eqn:E; [|apply prints_null].
  by apply prints_number, f_show_strict.
Qed.

Lemma encode_value_prints v : prints (encode_value v) (value_json v).
Proof.
  destruct v as [|n|x|s|l]; cbn [encode_value value_json].
  - apply prints_null.
  - apply prints_number, show_Z_strict.
  - apply encode_real_prints. by left.
  - apply encode_str_prints.
  - apply (encode_list_prints _ (λ x, real_json (f_is_finite binary32 x) (f32_show x))).
    intros x. apply encode_real_prints. by right.
Qed.

(** A member of an object whose name needs no escape. *)
Lemma named_member name value j :
  concat (map encode_char (bs name)) = bs name → prints value j →
  prints_member (member (bs name) value) (bs name, j).
Proof.
  intros He Hv. exists (bs name), value. split_and!; [done| |done].
  rewrite <- He at 1. apply encode_chars.
Qed.

Lemma kind_member kind :
  concat (map encode_char (bs kind)) = bs kind →
  prints_member (member (bs "kind") (q kind)) (bs "kind", JStr (bs kind)).
Proof.
  intros He. apply named_member; [done|]. unfold q. rewrite <- He at 1. apply encode_str_prints.
Qed.

Lemma member_text name value : member (bs name) value = q name ++ bs ":" ++ value.
Proof. unfold member, q. by rewrite <- !app_assoc. Qed.
Lemma commas_text x y l : commas (x :: y :: l) = x ++ bs "," ++ commas (y :: l).
Proof. done. Qed.
Lemma commas_one x : commas [x] = x.
Proof. unfold commas. cbn [map concat]. apply app_nil_r. Qed.

(** Two ways to bracket the same concatenation. *)
Ltac same_text :=
  rewrite ?commas_text, ?commas_one, ?member_text, <- ?app_assoc; reflexivity.

(** The members in the order of the text, each with its value's lemma. *)
Ltac members :=
  repeat match goal with |- Forall2 _ _ _ => constructor end;
  match goal with
  | |- prints_member (member _ (q ?kind)) _ => apply (kind_member kind); first [assumption | reflexivity]
  | |- prints_member (member (bs ?name) _) _ => apply (named_member name); [reflexivity|]
  end.

Lemma encode_index_prints kind table column range :
  concat (map encode_char (bs kind)) = bs kind →
  prints (encode_index kind table column range) (index_json kind table column range).
Proof.
  intros Hk.
  apply (prints_object _ [member (bs "kind") (q kind); member (bs "table") (encode_str table);
    member (bs "column") (encode_str column); member (bs "range") (if range then bs "true" else bs "false")]);
    [done|members|unfold encode_index; same_text].
  - apply encode_str_prints.
  - apply encode_str_prints.
  - apply prints_bool.
Qed.

Lemma encode_count_prints kind n :
  concat (map encode_char (bs kind)) = bs kind → prints (encode_count kind n) (count_json kind n).
Proof.
  intros Hk.
  apply (prints_object _ [member (bs "kind") (q kind); member (bs "count") (show_Z (Z.of_nat n))]);
    [done|members|unfold encode_count; same_text]. apply prints_number, show_Z_strict.
Qed.

Lemma encode_result_prints r : prints (encode_result r) (result_json r).
Proof.
  destruct r as [name|name|table column range|table column range|n|n|n|columns rows| | |]; cbn [encode_result result_json].
  - apply (prints_object _ [member (bs "kind") (q "created"); member (bs "name") (encode_str name)]);
      [done|members|same_text]. apply encode_str_prints.
  - apply (prints_object _ [member (bs "kind") (q "dropped"); member (bs "name") (encode_str name)]);
      [done|members|same_text]. apply encode_str_prints.
  - by apply encode_index_prints.
  - by apply encode_index_prints.
  - by apply encode_count_prints.
  - by apply encode_count_prints.
  - by apply encode_count_prints.
  - apply (prints_object _ [member (bs "kind") (q "rows");
      member (bs "columns") (bs "[" ++ encode_list encode_str columns ++ bs "]");
      member (bs "rows") (bs "[" ++ encode_list (λ row, bs "[" ++ encode_list encode_value row ++ bs "]") rows ++ bs "]")]);
      [done|members|same_text].
    + apply encode_list_prints, encode_str_prints.
    + apply (encode_list_prints _ (λ row, JArr (map value_json row))). intros row.
      apply encode_list_prints, encode_value_prints.
  - apply (prints_object _ [member (bs "kind") (q "begin")]); [done|members|same_text].
  - apply (prints_object _ [member (bs "kind") (q "committed")]); [done|members|same_text].
  - apply (prints_object _ [member (bs "kind") (q "rolled_back")]); [done|members|same_text].
Qed.

Lemma results_print results : prints (results_to_json results) (JArr (map result_json results)).
Proof. apply encode_list_prints, encode_result_prints. Qed.

(** ** The text holds no terminator *)

Abbreviation no_nul s := (Forall (λ c, c ≠ Byte.x00) s).

Lemma no_nul_text s : forallb (λ c, negb (bool_decide (c = Byte.x00))) s = true → no_nul s.
Proof.
  intros H. rewrite forallb_forall in H. apply list.Forall_forall. intros c Hc%list_elem_of_In%H.
  by case_bool_decide.
Qed.
Ltac literal := apply no_nul_text; reflexivity.

Lemma no_nul_number b : strict_number b → no_nul b.
Proof.
  intros (neg & ip & fp & -> & _ & _ & Hi & Hf).
  assert (Hd : ∀ l, Forall (λ c, is_ascii_digit c = true) l → no_nul l).
  { intros l Hl. eapply list.Forall_impl; [exact Hl|]. by intros c Hc ->. }
  apply Forall_app; split; [by destruct neg; repeat constructor|]. apply Forall_app; split; [by apply Hd|].
  destruct fp; [constructor|]. constructor; [done|by apply Hd].
Qed.

Lemma no_nul_encode_str s : no_nul (encode_str s).
Proof.
  apply Forall_app; split; [literal|]. apply Forall_app; split; [|literal].
  induction s as [|c s IH]; [constructor|]. cbn [map concat]. apply Forall_app; split; [|done].
  destruct c; literal.
Qed.

Lemma no_nul_list {A} (encode : A → bytes) l :
  (∀ x, no_nul (encode x)) → no_nul (bs "[" ++ encode_list encode l ++ bs "]").
Proof.
  intros H. apply Forall_app; split; [literal|]. apply Forall_app; split; [|literal].
  unfold encode_list, commas. destruct l as [|x l]; [constructor|]. cbn [map]. apply Forall_app; split; [done|].
  induction l as [|y l IH]; [constructor|]. cbn [map concat]. apply Forall_app; split; [|done].
  apply Forall_app; split; [literal|done].
Qed.

Lemma no_nul_real f x : f = binary64 ∨ f = binary32 → no_nul (encode_real (f_is_finite f x) (f_show f x)).
Proof.
  intros Hf. unfold encode_real. destruct (f_is_finite f x) eqn:E; [|literal]. by apply no_nul_number, f_show_strict.
Qed.

Lemma no_nul_value v : no_nul (encode_value v).
Proof.
  destruct v as [|n|x|s|l]; cbn [encode_value].
  - literal.
  - apply no_nul_number, show_Z_strict.
  - apply no_nul_real. by left.
  - apply no_nul_encode_str.
  - apply no_nul_list. intros x. apply no_nul_real. by right.
Qed.

Ltac pieces :=
  repeat match goal with
  | |- Forall _ (bs "[" ++ encode_list _ _ ++ bs "]") => apply no_nul_list; intros ?
  | |- Forall _ (_ ++ _) => apply Forall_app; split
  | |- Forall _ (encode_str _) => apply no_nul_encode_str
  | |- Forall _ (encode_value _) => apply no_nul_value
  | |- Forall _ (show_Z _) => apply no_nul_number, show_Z_strict
  | |- Forall _ (if ?b then _ else _) => destruct b
  | |- Forall _ (bs _) => literal
  | |- Forall _ (q _) => literal
  end.

Lemma no_nul_result r : no_nul (encode_result r).
Proof. destruct r; cbn [encode_result]; unfold encode_index, encode_count; pieces. Qed.

Lemma no_nul_results results : no_nul (results_to_json results).
Proof. apply no_nul_list, no_nul_result. Qed.

Lemma replace_nul_id s : no_nul s → replace_nul s = s.
Proof.
  unfold replace_nul. induction 1 as [|c s Hc Hs IH]; [done|]. cbn [map concat]. rewrite IH, bool_decide_false by done. done.
Qed.

Lemma replace_nul_clean s : no_nul (replace_nul s).
Proof.
  unfold replace_nul. induction s as [|c s IH]; [constructor|]. cbn [map concat]. apply Forall_app; split; [|done].
  case_bool_decide; [literal|by constructor].
Qed.

Lemma c_str_terminated s : no_nul s → c_str (s ++ [Byte.x00]) = Some s.
Proof. induction 1 as [|c s Hc Hs IH]; [done|]. cbn [app c_str]. by rewrite bool_decide_false, IH. Qed.

(** ** Memory *)

Section Memory.
Context {D : Type} `{Allocator}.

Lemma into_c_string_text s (m : Memory D) :
  into_c_string s m =
  (alloc (used m), with_strings m (<[alloc (used m) := replace_nul s ++ [Byte.x00]]> (m_strings m))).
Proof.
  unfold into_c_string. rewrite bool_decide_false; [done|]. intros Hin.
  by apply (proj1 (list.Forall_forall _ _) (replace_nul_clean s) _ Hin).
Qed.

(** A fresh address is none of the live ones, nor [NULL]. *)
Lemma alloc_live (m : Memory D) :
  let p := alloc (used m) in p ≠ 0 ∧ m_handles m !! p = None ∧ m_strings m !! p = None.
Proof.
  cbn. pose proof (alloc_fresh (used m)) as Hf. unfold used in Hf. rewrite !not_elem_of_union, elem_of_singleton in Hf.
  destruct Hf as ((((H1 & H2) & H3) & _) & _). by rewrite <- !not_elem_of_dom.
Qed.

(** What a string the library gave out is freed to. *)
Lemma free_fresh p s (m : Memory D) :
  p ≠ 0 → m_strings m !! p = None →
  ciphra_string_free p (with_strings m (<[p := s]> (m_strings m))) = Some m.
Proof.
  intros Hp Hn. unfold ciphra_string_free. destruct (Z.eqb_spec p 0) as [|_]; [done|]. cbn.
  rewrite lookup_insert_eq. cbn. rewrite delete_insert_id by done. by destruct m.
Qed.
End Memory.

(** The caller's error variable: [NULL], or one that exists. *)
Definition valid_out {D} (out_err : Z) (m : Memory D) : Prop := out_err = 0 ∨ is_Some (m_cells m !! out_err).

(** [*out_err = p], when there is an [out_err]. *)
Definition write_out {D} (out_err p : Z) (m : Memory D) : Memory D :=
  if out_err =? 0 then m else with_cells m (<[out_err := p]> (m_cells m)).

Lemma clear_err_writes {D} out_err (m : Memory D) :
  valid_out out_err m → clear_err out_err m = Some (write_out out_err 0 m).
Proof.
  unfold clear_err, write_out. intros [->|[c Hc]]; [done|]. destruct (out_err =? 0); [done|]. by rewrite Hc.
Qed.
Lemma valid_out_write {D} out_err p (m : Memory D) : valid_out out_err m → valid_out out_err (write_out out_err p m).
Proof.
  unfold write_out. intros Hv. destruct (Z.eqb_spec out_err 0) as [->|Hne]; [by left|]. right. cbn.
  rewrite lookup_insert_eq. eauto.
Qed.

(** ** One call *)

(** What a driver does with a call: it takes a copy of the text it gets, an
    error from its error variable, and frees it. *)
Section Driver.
Context {B : Type} `{Backend B} `{Allocator} `{StdText}.

Definition take_string (p : Z) (m : Memory (Engine B)) : option (bytes * Memory (Engine B)) :=
  buffer ← m_strings m !! p; s ← c_str buffer; m ← ciphra_string_free p m; Some (s, m).

Definition driver_execute (db out_err sql : Z) (m : Memory (Engine B)) : option (result bytes bytes * Memory (Engine B)) :=
  '(p, m) ← ciphra_execute db sql out_err m;
  if p =? 0 then c ← m_cells m !! out_err; '(message, m) ← take_string c m; Some (Err message, m)
  else '(json, m) ← take_string p m; Some (Ok json, m).

Fixpoint driver_session (db out_err : Z) (sqls : list Z) (m : Memory (Engine B))
  : option (list (result bytes bytes) * Memory (Engine B)) :=
  match sqls with
  | [] => Some ([], m)
  | sql :: sqls =>
      '(r, m) ← driver_execute db out_err sql m; '(rs, m) ← driver_session db out_err sqls m; Some (r :: rs, m)
  end.

(** The same queries on the engine itself. *)
Fixpoint engine_session (sqls : list bytes) (e : Engine B) : list (result EngineError (list QueryResult)) * Engine B :=
  match sqls with
  | [] => ([], e)
  | sql :: sqls =>
      let '(r, e) := execute sql e in let '(rs, e) := engine_session sqls e in (r :: rs, e)
  end.

(** An answer in text is that of the engine. *)
Definition answers (r : result EngineError (list QueryResult)) (text : result bytes bytes) : Prop :=
  match r, text with
  | Ok results, Ok json => read_json json = Some (JArr (map result_json results))
  | Err e, Err message => message = replace_nul (show_engine_error e)
  | _, _ => False
  end.

(** A pointer to a text of the caller. *)
Definition points_to (m : Memory (Engine B)) (sql : Z) (text : bytes) : Prop :=
  sql ≠ 0 ∧ utf8_valid text = true ∧ ∃ buffer, m_buffers m !! sql = Some buffer ∧ c_str buffer = Some text.

(** The database of [db] is [e] now, and the error variable is [c]. *)
Definition after_calls (db out_err : Z) (e : Engine B) (c : Z) (m : Memory (Engine B)) : Memory (Engine B) :=
  with_cells (with_handles m (<[db := e]> (m_handles m))) (<[out_err := c]> (m_cells m)).

Lemma after_calls_again db out_err e e' c c' m :
  after_calls db out_err e' c' (after_calls db out_err e c m) = after_calls db out_err e' c' m.
Proof. unfold after_calls, with_cells, with_handles. cbn. by rewrite !insert_insert_eq. Qed.

Lemma take_fresh s m cells :
  let '(p, m') := into_c_string s m in
  p ≠ 0 ∧ m_cells m' = m_cells m ∧ take_string p (with_cells m' cells) = Some (replace_nul s, with_cells m cells).
Proof.
  rewrite into_c_string_text. destruct (alloc_live m) as (Hp & _ & Hs). split_and!; [done|done|].
  unfold take_string. cbn [m_strings with_strings with_cells]. rewrite lookup_insert_eq.
  cbn [mbind option_bind]. rewrite c_str_terminated by apply replace_nul_clean. cbn [mbind option_bind].
  pose proof (free_fresh (alloc (used m)) (replace_nul s ++ [Byte.x00]) (with_cells m cells) Hp Hs) as Hfree.
  unfold with_strings, with_cells in *. cbn in *. by rewrite Hfree.
Qed.

Lemma driver_execute_answers db out_err sql text e m :
  db ≠ 0 → out_err ≠ 0 → m_handles m !! db = Some e → is_Some (m_cells m !! out_err) → points_to m sql text →
  ∃ r c, driver_execute db out_err sql m = Some (r, after_calls db out_err (execute text e).2 c m)
    ∧ answers (execute text e).1 r.
Proof.
  intros Hdb Hout Hh [c0 Hc] (Hsql & Hutf & buffer & Hb & Ht).
  apply Z.eqb_neq in Hdb, Hout, Hsql. unfold driver_execute, ciphra_execute, clear_err, to_str.
  rewrite Hout, Hc, Hdb, Hsql. cbn [mbind option_bind with_cells m_handles m_buffers m_strings].
  rewrite Hh. cbn [mbind option_bind]. rewrite Hb. cbn [mbind option_bind]. rewrite Ht. cbn [mbind option_bind].
  rewrite Hutf. destruct (execute text e) as [[results|err] e']; cbn [flatten map_err fst snd].
  - set (m1 := with_handles _ _). pose proof (take_fresh (results_to_json results) m1 (m_cells m1)) as Hf.
    destruct (into_c_string (results_to_json results) m1) as [p m2]. destruct Hf as (Hp & Hcells & Ht').
    cbn [mbind option_bind]. apply Z.eqb_neq in Hp. rewrite Hp.
    replace m2 with (with_cells m2 (m_cells m1)) by (rewrite <- Hcells; by destruct m2). rewrite Ht'.
    eexists (Ok _), 0. split; [reflexivity|]. cbn [answers].
    rewrite replace_nul_id by apply no_nul_results. apply prints_read, results_print.
  - set (m1 := with_handles _ _). unfold set_err. rewrite Hout.
    replace (m_cells m1 !! out_err) with (Some 0) by (cbn; by rewrite lookup_insert_eq). cbn [mbind option_bind].
    pose proof (λ cells, take_fresh (show_engine_error err) m1 cells) as Hf.
    destruct (into_c_string (show_engine_error err) m1) as [p m2].
    cbn [mbind option_bind]. change (0 =? 0) with true. cbv iota. cbn [with_cells m_cells]. rewrite lookup_insert_eq.
    cbn [mbind option_bind]. destruct (Hf (<[out_err:=p]> (m_cells m2))) as (_ & Hcells & Ht'). rewrite Ht'.
    eexists (Err _), p. split; [|reflexivity]. rewrite Hcells. unfold after_calls, m1, with_cells, with_handles. cbn.
    by rewrite insert_insert_eq.
Qed.

Lemma driver_session_answers db out_err sqls m e c :
  db ≠ 0 → out_err ≠ 0 → Forall (λ '(sql, text), points_to m sql text) sqls →
  let '(rs, e') := engine_session sqls.*2 e in
  ∃ texts c', driver_session db out_err sqls.*1 (after_calls db out_err e c m)
      = Some (texts, after_calls db out_err e' c' m) ∧ Forall2 answers rs texts.
Proof.
  intros Hdb Hout. revert e c. induction sqls as [|[sql text] sqls IH]; intros e c Hp; [by exists [], c|].
  apply list.Forall_cons in Hp as [Hp Hps]. cbn [fmap list_fmap fst snd engine_session driver_session].
  destruct (driver_execute_answers db out_err sql text e (after_calls db out_err e c m)) as (r & c1 & Hd & Ha);
    [done|done|cbn; apply lookup_insert_eq|cbn; rewrite lookup_insert_eq; eauto|done|].
  rewrite Hd, after_calls_again. cbn [mbind option_bind]. destruct (execute text e) as [r0 e1]. cbn [fst snd] in *.
  specialize (IH e1 c1 Hps). destruct (engine_session sqls.*2 e1) as [rs e2].
  destruct IH as (texts & c2 & Hs & Hall). rewrite Hs. cbn [mbind option_bind].
  exists (r :: texts), c2. split; [done|]. by constructor.
Qed.
End Driver.

(** C31: A driver that opens no second database, passes valid texts and frees
    what it is given meets no undefined behaviour; its answers are those of
    the same queries on the engine, results as JSON that reads back to them
    and errors as their text; the handle holds the engine they leave, and no
    string stays allocated. *)
Theorem driver_session_refines {B} `{Backend B} `{Allocator} `{StdText} db out_err sqls (m : Memory (Engine B)) e c :
  db ≠ 0 → out_err ≠ 0 → Forall (λ '(sql, text), points_to m sql text) sqls →
  let '(rs, e') := engine_session sqls.*2 e in
  ∃ texts c', driver_session db out_err sqls.*1 (after_calls db out_err e c m)
      = Some (texts, after_calls db out_err e' c' m) ∧ Forall2 answers rs texts.
Proof. apply driver_session_answers. Qed.

(** C32: The text that [ciphra_execute] returns is JSON whose tree is that of
    the results, whatever bytes the names and values hold, and the C string
    ends where the text ends. *)
Theorem results_json_reads_back results :
  read_json (results_to_json results) = Some (JArr (map result_json results))
  ∧ c_str (results_to_json results ++ [Byte.x00]) = Some (results_to_json results).
Proof. split; [apply prints_read, results_print|apply c_str_terminated, no_nul_results]. Qed.

(** ** Opening and closing *)

Section OpenClose.
Context {D : Type} `{Allocator} `{StdText}.

(** A database that opens gets a handle of its own, and closing it gives
    back the memory; one that does not leaves only the error. *)
Lemma finish_open_closes e out_err (m : Memory D) :
  ∃ p m', finish_open (Some (Ok e)) out_err m = Some (p, m') ∧ m_handles m !! p = None
    ∧ m_handles m' !! p = Some e ∧ ciphra_close p m' = Some m.
Proof.
  destruct (alloc_live m) as (Hp & Hh & _). eexists _, _. split; [reflexivity|]. split_and!; [done| |].
  - cbn. apply lookup_insert_eq.
  - unfold ciphra_close. apply Z.eqb_neq in Hp. rewrite Hp. cbn. rewrite lookup_insert_eq. cbn.
    rewrite delete_insert_id by done. by destruct m.
Qed.

Lemma finish_open_fails message (m : Memory D) : finish_open (Some (Err message)) 0 m = Some (0, m).
Proof. done. Qed.

(** A panic in [Engine::open] is an error like any other. *)
Lemma finish_open_panics out_err (m : Memory D) :
  finish_open None out_err m = finish_open (Some (Err (bs "internal error: operation panicked"))) out_err m.
Proof. done. Qed.
End OpenClose.

(** ** Examples *)

Definition stdpp_allocator : Allocator := {| alloc := fresh; alloc_fresh := is_fresh |}.

Definition sample_sql : bytes := bs "CREATE TABLE t (id INT PRIMARY KEY); INSERT INTO t VALUES (1); SELECT * FROM t".
Definition sample_memory : Memory (Engine LocalBackend) :=
  mkMemory ∅ ∅ {[3 := sample_sql ++ [Byte.x00]]} ∅.
Definition sample_engine : Engine LocalBackend :=
  mkEngine (store_local (mkLocal (storage_open []) [])) (mkMasterKey []) true audit_genesis None
    advisor_default (mkWorld (λ _, []) 0 (λ _, 0) 0).

Lemma driver_session_refines_witness :
  let '(rs, e') := engine_session [sample_sql; sample_sql] sample_engine in
  ∃ texts c', driver_session (H0 := stdpp_allocator) (H1 := plain_text) 1 2 [3; 3]
      (after_calls 1 2 sample_engine 0 sample_memory)
      = Some (texts, after_calls 1 2 e' c' sample_memory) ∧ Forall2 (answers (H1 := plain_text)) rs texts.
Proof.
  apply (driver_session_refines (H0 := stdpp_allocator) (H1 := plain_text) 1 2 [(3, sample_sql); (3, sample_sql)]
    sample_memory sample_engine 0); [lia|lia|].
  assert (points_to sample_memory 3 sample_sql) as Hp.
  { split_and!; [lia|reflexivity|]. exists (sample_sql ++ [Byte.x00]). split; reflexivity. }
  apply list.Forall_cons; split; [exact Hp|]. apply list.Forall_cons; split; [exact Hp|constructor].
Defined.

(** The crate's own examples. *)
Example rows_and_scalars :
  results_to_json
    [QCreated (bs "t"); QInserted 2;
     QRows [bs "id"; bs "emb"] [[VInt 1; VVector [f64_as_f32 (f64_of_decimal 5 1); f_neg binary32 (f64_as_f32 (i64_as_f64 1))]];
                                [VNull; VVector []]]]
  = concat [bs "[{"; q "kind"; bs ":"; q "created"; bs ","; q "name"; bs ":"; q "t"; bs "},{"; q "kind"; bs ":"; q "inserted";
      bs ","; q "count"; bs ":2},{"; q "kind"; bs ":"; q "rows"; bs ","; q "columns"; bs ":["; q "id"; bs ","; q "emb";
      bs "],"; q "rows"; bs ":[[1,[0.5,-1]],[null,[]]]}]"].
Proof. vm_compute. reflexivity. Qed.
Example control_characters :
  encode_str (bs "tab" ++ [Byte.x09] ++ bs "nul" ++ [Byte.x00] ++ bs "end") = q "tab\tnul\u0000end".
Proof. vm_compute. reflexivity. Qed.
Example key_of_pluses : parse_key (concat (replicate 32 (bs "+a"))) = Some (Ok (replicate 32 Byte.x0a)).
Proof. vm_compute. reflexivity. Qed.
Example key_cut_character : parse_key ([Byte.x61; Byte.xc3; Byte.xa9] ++ replicate 61 Byte.x61) = None.
Proof. vm_compute. reflexivity. Qed.
