(* ===== verification/Cli.v ===== *)
(** * The command line

    ciphra/src/main.rs: arguments, the statements of [-e], the import of a
    MySQL dump, the REPL with its [.commands], and how results are printed;
    the keys of ciphra-server/src/main.rs are read and written the same way.
    Command-line texts are lists of characters, what is printed is lines of
    bytes. Opening, backup, restore and rotation work on files and sockets:
    an interface ([Host]), modelled for local databases in [Rotate]. *)

From S2P Require Import Prelude Storage Aead Float SqlAst SqlLexer SqlParser Migrate Values Codec AuditChain Store EngineState Ddl Query Exec Errors Json FloatFacts Ffi Signing.

(** A line of standard output or standard error. *)
Inductive Out : Type := Stdout (line : bytes) | Stderr (line : bytes).

Definition DEFAULT_DATA_DIR : Text := tx "./ciphra-data".
Definition PASSPHRASE_ENV : bytes := bs "CIPHRA_PASSPHRASE".
Definition NEW_PASSPHRASE_ENV : bytes := bs "CIPHRA_NEW_PASSPHRASE".
Definition DEV_PASSPHRASE : Text := tx "ciphra-dev-only".
Definition VERSION : bytes := bs "0.0.1".

(** ** Keys *)

(** [format!("{b:02x}")] for each byte. *)
Definition hex (b : bytes) : bytes :=
  concat (map (λ c, [lower_hex (byte.unsigned c / 16); lower_hex (byte.unsigned c mod 16)]) b).

Definition cli_parse_key (hex_key : Text) : option (result bytes bytes) :=
  let hex_key := utf8 (trim hex_key) in
  if negb (length hex_key =? 64)%nat then Some (Err (bs "--server-key must be 64 hex characters (32 bytes)"))
  else parse_key_bytes (bs "--server-key is not valid hex") hex_key 0 32.

(** ** Printing *)

Definition plural (n : nat) : bytes := if (n =? 1)%nat then [] else bs "s".
Definition show_count (n : nat) : bytes := show_Z (Z.of_nat n).

(** [chars().count()]: the bytes that are not continuations. *)
Definition char_count (s : bytes) : nat := length (filter (λ b, in_range 0x80 0xBF b = false) s).

(** [{cell:<width$}] *)
Definition pad (width : nat) (cell : bytes) : bytes := cell ++ replicate (width - char_count cell) Byte.x20.

Definition print_row (cells : list bytes) (widths : list nat) : bytes :=
  concat (zip_with (λ cell width, bs "| " ++ pad width cell ++ bs " ") cells widths) ++ bs "|".

(** [for (width, cell) in widths.iter_mut().zip(row) { ... }] *)
Fixpoint widen (widths : list nat) (row : list bytes) : list nat :=
  match widths, row with
  | width :: widths, cell :: row => (width `max` length cell)%nat :: widen widths row
  | _, _ => widths
  end.

Definition separator (widths : list nat) : bytes :=
  concat (map (λ w, bs "+" ++ replicate (w + 2) Byte.x2d) widths) ++ bs "+".

Definition print_table (columns : list bytes) (rows : list (list Value)) : list bytes :=
  let cells := map (map show_value) rows in
  let widths := fold_left widen cells (map length columns) in
  [separator widths; print_row columns widths; separator widths]
    ++ map (λ row, print_row row widths) cells
    ++ [separator widths; show_count (length rows) ++ bs " row" ++ plural (length rows)].

Definition index_kind (range : bool) : bytes := if range then bs "range index" else bs "index".

Definition print_result (result : QueryResult) : list Out :=
  map Stdout match result with
  | QCreated name => [bs "created table " ++ name]
  | QDropped name => [bs "dropped table " ++ name]
  | QIndexCreated table column range =>
      [bs "created " ++ index_kind range ++ bs " on " ++ table ++ bs " (" ++ column ++ bs ")"]
  | QIndexDropped table column range =>
      [bs "dropped " ++ index_kind range ++ bs " on " ++ table ++ bs " (" ++ column ++ bs ")"]
  | QInserted n => [bs "inserted " ++ show_count n ++ bs " row" ++ plural n]
  | QUpdated n => [bs "updated " ++ show_count n ++ bs " row" ++ plural n]
  | QDeleted n => [bs "deleted " ++ show_count n ++ bs " row" ++ plural n]
  | QRows columns rows => print_table columns rows
  | QBegin => [bs "BEGIN"]
  | QCommitted => [bs "COMMIT"]
  | QRolledBack => [bs "ROLLBACK"]
  end.

(** ** Arguments *)

Record Options : Type := mkOptions {
  o_data : Text;
  o_execute : list Text;
  o_rotate : bool;
  o_backup : option Text;
  o_restore : option Text;
  o_remote : option Text;
  o_server_key : option Text;
  o_import : option Text;
}.
Definition default_options : Options := mkOptions DEFAULT_DATA_DIR [] false None None None None None.

Inductive Parsed : Type := Run (o : Options) | ShowHelp | ShowVersion | BadArgs (message : bytes).

(** One flag with a value: what to do with it, and the error without one. *)
Definition valued_flag (arg : Text) (o : Options) : option ((Text → Options) * string) :=
  if one_of arg ["--data"; "-d"]%string then
    Some (λ v, mkOptions v (o_execute o) (o_rotate o) (o_backup o) (o_restore o) (o_remote o) (o_server_key o) (o_import o),
          "--data requires a directory argument"%string)
  else if one_of arg ["--execute"; "-e"]%string then
    Some (λ v, mkOptions (o_data o) (o_execute o ++ [v]) (o_rotate o) (o_backup o) (o_restore o) (o_remote o) (o_server_key o) (o_import o),
          "-e requires a SQL argument"%string)
  else if one_of arg ["--backup"]%string then
    Some (λ v, mkOptions (o_data o) (o_execute o) (o_rotate o) (Some v) (o_restore o) (o_remote o) (o_server_key o) (o_import o),
          "--backup requires a file argument"%string)
  else if one_of arg ["--restore"]%string then
    Some (λ v, mkOptions (o_data o) (o_execute o) (o_rotate o) (o_backup o) (Some v) (o_remote o) (o_server_key o) (o_import o),
          "--restore requires a file argument"%string)
  else if one_of arg ["--remote"]%string then
    Some (λ v, mkOptions (o_data o) (o_execute o) (o_rotate o) (o_backup o) (o_restore o) (Some v) (o_server_key o) (o_import o),
          "--remote requires host:port"%string)
  else if one_of arg ["--server-key"]%string then
    Some (λ v, mkOptions (o_data o) (o_execute o) (o_rotate o) (o_backup o) (o_restore o) (o_remote o) (Some v) (o_import o),
          "--server-key requires a hex key"%string)
  else if one_of arg ["--import-mysql"]%string then
    Some (λ v, mkOptions (o_data o) (o_execute o) (o_rotate o) (o_backup o) (o_restore o) (o_remote o) (o_server_key o) (Some v),
          "--import-mysql requires a dump file path"%string)
  else None.

Fixpoint parse_args (args : list Text) (o : Options) : Parsed :=
  match args with
  | [] => Run o
  | arg :: rest =>
      match valued_flag arg o with
      | Some (set_value, missing) =>
          match rest with v :: rest' => parse_args rest' (set_value v) | [] => BadArgs (bs missing) end
      | None =>
          if one_of arg ["--rotate-passphrase"]%string then
            parse_args rest (mkOptions (o_data o) (o_execute o) true (o_backup o) (o_restore o) (o_remote o) (o_server_key o) (o_import o))
          else if one_of arg ["--help"; "-h"]%string then ShowHelp
          else if one_of arg ["--version"; "-V"]%string then ShowVersion
          else BadArgs (bs "unknown argument: " ++ utf8 arg ++ bs " (try --help)")
      end
  end.

(** ** Statements *)

Section Commands.
Context {B : Type} `{Backend B} `{StdText}.

Definition run_sql (sql : bytes) (e : Engine B) : result bytes (list Out) * Engine B :=
  let '(r, e) := execute sql e in
  (match r with
   | Ok results => Ok (concat (map print_result results))
   | Err err => Err (show_engine_error err)
   end, e).

(** [for sql in &execute { run_sql(&mut engine, sql)?; }] *)
Fixpoint run_all (sqls : list Text) (e : Engine B) : result bytes unit * list Out * Engine B :=
  match sqls with
  | [] => (Ok tt, [], e)
  | sql :: sqls =>
      match run_sql (utf8 sql) e with
      | (Ok out, e) => let '(r, out', e) := run_all sqls e in (r, out ++ out', e)
      | (Err message, e) => (Err message, [], e)
      end
  end.

(** ** Import *)

Record Import : Type := mkImport { im_applied : nat; im_failed : nat; im_rows : nat; im_out : list Out }.

Definition inserted_rows (results : list QueryResult) : nat :=
  fold_left (λ rows r, match r with QInserted n => (rows + n)%nat | _ => rows end) results 0%nat.

Definition import_step (acc : Import * Engine B) (stmt : Text) : Import * Engine B :=
  let '(im, e) := acc in
  match execute (utf8 stmt) e with
  | (Ok results, e) =>
      (mkImport (S (im_applied im)) (im_failed im) (im_rows im + inserted_rows results) (im_out im), e)
  | (Err err, e) =>
      (mkImport (im_applied im) (S (im_failed im)) (im_rows im)
         (im_out im ++ [Stderr (bs "import: statement failed (" ++ show_engine_error err ++ bs "):");
                        Stderr (bs "  " ++ utf8 (take 70 stmt) ++ utf8 [0x2026])]), e)
  end.

Definition import_statements (statements : list Text) (e : Engine B) : Import * Engine B :=
  fold_left import_step statements (mkImport 0 0 0 [], e).

(** The texts of ciphra-migrate's notes. *)
Definition debug_text (s : Text) : bytes := debug_str (utf8 s).
Definition show_note (n : Note) : bytes :=
  match n with
  | NSkippedStatement kind => bs "skipped unsupported statement: " ++ utf8 kind ++ bs " " ++ utf8 [0x2026]
  | NNoColumnList => bs "skipped a CREATE TABLE with no column list"
  | NUnbalanced => bs "skipped a malformed CREATE TABLE (unbalanced parentheses)"
  | NUnsafeTable name => bs "skipped CREATE TABLE with an unsafe/unsupported table name: " ++ debug_text name
  | NForeignKey => bs "skipped a FOREIGN KEY (not enforced by Ciphra)"
  | NMultiColumnIndex => bs "skipped a multi-column index (single-column only)"
  | NUnsupportedConstraint => bs "skipped an unsupported table constraint"
  | NUnsafeColumn table column =>
      bs "skipped table " ++ debug_text table ++ bs ": unsafe/unsupported column name " ++ debug_text column
  | NNoColumns table => bs "skipped table " ++ debug_text table ++ bs ": no translatable columns"
  | NCompositeKey table =>
      bs "table " ++ debug_text table ++ bs ": composite PRIMARY KEY dropped (Ciphra supports one column)"
  | NDecimal => bs "DECIMAL/NUMERIC mapped to REAL (f64) " ++ utf8 [0x2014] ++ bs " exact decimal precision is not kept"
  | NBinaryType word =>
      bs "binary type " ++ debug_text word ++ bs " mapped to TEXT " ++ utf8 [0x2014] ++ bs " binary data may not round-trip"
  | NUnknownType word => bs "unknown type " ++ debug_text word ++ bs " mapped to TEXT"
  | NNoInto => bs "skipped an INSERT without INTO"
  | NNoTableName => bs "skipped an INSERT with no table name"
  | NUnsafeInsertTable name => bs "skipped INSERT with an unsafe/unsupported table name: " ++ debug_text name
  | NNoValues name => bs "skipped INSERT into " ++ debug_text name ++ bs ": no VALUES"
  | NUnsafeInsertColumn name column =>
      bs "skipped INSERT into " ++ debug_text name ++ bs ": unsafe/unsupported column name " ++ debug_text column
  | NKeptAsText value => bs "value " ++ debug_text value ++ bs " kept as text (not a recognized number, string or NULL)"
  end.

(** [import_mysql_dump] on the text of the file; [None] where the
    translation panics. *)
Definition import_mysql_dump (file dump : bytes) (e : Engine B)
  : option (bool * list Out * Engine B) :=
  match translate dump with
  | Err _ => None
  | Ok migration =>
      let '(im, e) := import_statements (mg_statements migration) e in
      Some ((im_failed im =? 0)%nat,
            im_out im ++ map (λ n, Stderr (bs "note: " ++ show_note n)) (mg_notes migration)
              ++ [Stdout (bs "imported from " ++ file ++ bs ": " ++ show_count (im_applied im)
                    ++ bs " statement(s) applied (" ++ show_count (im_rows im) ++ bs " row(s)), "
                    ++ show_count (im_failed im) ++ bs " failed, " ++ show_count (length (mg_notes migration)) ++ bs " note(s)")],
            e)
  end.

(** ** The commands of the REPL *)

(** [n.parse::<u64>()] *)
Definition parse_u64 (s : Text) : option Z :=
  let ds := match s with c :: rest => if c =? 43 then rest else s | [] => s end in
  if bool_decide (ds = []) || negb (forallb is_digit ds) then None
  else if digits ds <? 2 ^ 64 then Some (digits ds) else None.

Definition column_type (ty : DataType) : bytes :=
  match ty with
  | TyInt => bs "INT"
  | TyReal => bs "REAL"
  | TyText => bs "TEXT"
  | TyVector dim => bs "VECTOR(" ++ show_Z dim ++ bs ")"
  end.
Definition schema_line (col : ColumnDef) : bytes :=
  cd_name col ++ bs " " ++ column_type (cd_ty col)
    ++ (if cd_primary_key col then bs " PRIMARY KEY" else [])
    ++ (if cd_encrypted col then bs " ENCRYPTED" else [])
    ++ (if cd_indexed col then bs " INDEXED" else [])
    ++ (if cd_range_indexed col then bs " RANGE-INDEXED" else []).

Definition advice_line (a : IndexAdvice) : bytes :=
  bs "  " ++ ia_statement a ++ bs "   -- " ++ show_Z (ia_predicates a)
    ++ (if ia_range a then bs " range-scans" else bs " eq-scans")
    ++ bs ", ~" ++ show_Z (ia_scan_rows a) ++ bs " rows scanned".

Definition error_out (err : EngineError) : list Out := [Stderr (show_engine_error err)].

Definition root_lines (e : Engine B) (prefix : bytes) : bytes :=
  let '(seq, root) := e_audit_head e in prefix ++ bs "seq " ++ show_Z seq ++ bs ", root " ++ hex root.

(** [sign_audit_root] and the public key, which in [Signing] take fuel. *)
Variable sign : Engine B → result EngineError SignedAuditRoot.
Variable public_key : Engine B → bytes.

Definition audit_command (args : list Text) (e : Engine B) : list Out :=
  let unknown other :=
    [Stderr (bs "unknown subcommand: .audit " ++ utf8 other ++ bs " (root|verify|sign|pubkey|prove)")] in
  let root :=
    [Stdout (root_lines e (bs "audit head: "));
     Stdout (bs "(record these externally; compare later to detect rollback)")] in
  match args with
  | [] => root
  | sub :: rest =>
      if bool_decide (sub = tx "root") then root
      else if bool_decide (sub = tx "verify") then
        match audit_verify e with
        | Ok entries =>
            [Stdout (bs "audit chain OK: " ++ show_count (length entries) ++ bs " entries verified, root " ++ hex (e_audit_head e).2)]
        | Err err => error_out err
        end
      else if bool_decide (sub = tx "pubkey") then
        [Stdout (bs "audit signing public key (ML-DSA-65, publish once):"); Stdout (hex (public_key e))]
      else if bool_decide (sub = tx "sign") then
        match sign e with
        | Ok signed =>
            map Stdout
              [bs "audit root signature (ML-DSA-65, post-quantum):";
               bs "  seq:       " ++ show_Z (sa_seq signed);
               bs "  root:      " ++ hex (sa_root signed);
               bs "  merkleroot:" ++ hex (sa_merkle_root signed);
               bs "  publickey: " ++ hex (sa_public_key signed);
               bs "  signature: " ++ hex (sa_signature signed);
               bs "(anyone with the public key can verify these offline " ++ utf8 [0x2014] ++ bs " no passphrase needed)"]
        | Err err => error_out err
        end
      else if bool_decide (sub = tx "prove") then
        match head rest ≫= parse_u64 with
        | Some index =>
            match audit_inclusion_proof e index with
            | Ok (entry, proof, root) =>
                map Stdout
                  ([bs "inclusion proof for audit entry " ++ show_Z index ++ bs ":";
                    bs "  kind:      " ++ show_Z (byte.unsigned (ae_kind entry));
                    bs "  total:     " ++ show_Z (mp_total proof);
                    bs "  merkleroot:" ++ hex root;
                    bs "  path (" ++ show_count (length (mp_siblings proof)) ++ bs " siblings):"]
                   ++ map (λ sib, bs "    " ++ hex sib) (mp_siblings proof)
                   ++ [bs "(verifies against the signed merkle root " ++ utf8 [0x2014] ++ bs " proves this statement is in history)"])
            | Err err => error_out err
            end
        | None => [Stderr (bs "usage: .audit prove <entry-index>")]
        end
      else unknown sub
  end.

Definition advise_command (args : list Text) (e : Engine B) : list Out * Engine B :=
  match args with
  | sub :: _ =>
      if bool_decide (sub = tx "reset") then
        ([Stdout (bs "index advisor telemetry cleared")], with_advisor e advisor_default)
      else ([Stderr (bs "unknown subcommand: .advise " ++ utf8 sub ++ bs " (reset)")], e)
  | [] =>
      (match advise e with
       | Ok advice =>
           let seen := ad_queries (e_advisor e) in
           if bool_decide (advice = []) then
             [Stdout (bs "no index suggestions (from " ++ show_Z seen ++ bs " predicate quer"
                        ++ (if seen =? 1 then bs "y" else bs "ies") ++ bs " this session)")]
           else
             Stdout (bs "suggested indexes (from " ++ show_Z seen ++ bs " queries this session):")
               :: map (λ a, Stdout (advice_line a)) advice
       | Err err => error_out err
       end, e)
  end.

Definition tables_command (e : Engine B) : list Out :=
  match engine_tables e with
  | Ok [] => [Stdout (bs "(no tables)")]
  | Ok tables => map Stdout tables
  | Err err => error_out err
  end.

Definition schema_command (args : list Text) (e : Engine B) : list Out :=
  match args with
  | [] => [Stderr (bs "usage: .schema <table>")]
  | name :: _ =>
      match table_schema e (utf8 name) with
      | Ok None => [Stderr (bs "no such table: " ++ debug_text name)]
      | Ok (Some schema) => map (λ col, Stdout (schema_line col)) (ts_columns schema)
      | Err err => error_out err
      end
  end.

(** [meta_command]: false to leave. The help text is an argument. *)
Definition meta_command (help : list bytes) (command : Text) (e : Engine B) : bool * list Out * Engine B :=
  let '(word, args) := match split_whitespace command with w :: ws => (w, ws) | [] => ([], []) end in
  if one_of word [".exit"; ".quit"]%string then (false, [], e)
  else if bool_decide (word = tx ".help") then (true, map Stdout help, e)
  else if bool_decide (word = tx ".audit") then (true, audit_command args e, e)
  else if bool_decide (word = tx ".advise") then let '(out, e) := advise_command args e in (true, out, e)
  else if bool_decide (word = tx ".tables") then (true, tables_command e, e)
  else if bool_decide (word = tx ".schema") then (true, schema_command args e, e)
  else (true, [Stderr (bs "unknown command: " ++ utf8 word ++ bs " (try .help)")], e).

(** ** The REPL *)

(** What [read_line] gives, up to the end of the input. *)
Inductive Input : Type := Line (text : Text) | ReadError (message : bytes).

Definition ends_with (c : Z) (s : Text) : bool := bool_decide (head (reverse s) = Some c).
Definition SEMICOLON : Z := 59.

(** The loop without its prompts, which are printed when [interactive]. *)
Fixpoint repl_loop (help : list bytes) (interactive : bool) (input : list Input) (buffer : Text) (e : Engine B)
  : list Out * Engine B :=
  match input with
  | [] => ([], e)
  | ReadError message :: _ => ([Stderr (bs "error reading input: " ++ message)], e)
  | Line line :: input =>
      let trimmed := trim line in
      if bool_decide (buffer = []) && text_starts_with (tx ".") trimmed then
        let '(go_on, out, e) := meta_command help trimmed e in
        if go_on then let '(out', e) := repl_loop help interactive input buffer e in (out ++ out', e) else (out, e)
      else
        let buffer := buffer ++ line in
        if ends_with SEMICOLON trimmed || (interactive && bool_decide (trimmed = [])) then
          if bool_decide (trim buffer = []) then repl_loop help interactive input [] e
          else
            let '(r, e) := run_sql (utf8 buffer) e in
            let out := match r with Ok out => out | Err message => [Stderr message] end in
            let '(out', e) := repl_loop help interactive input [] e in (out ++ out', e)
        else repl_loop help interactive input buffer e
  end.

Definition repl (help : list bytes) (interactive : bool) (data_dir : Text) (input : list Input) (e : Engine B)
  : list Out * Engine B :=
  let banner :=
    if interactive then
      map Stdout
        [bs "ciphra " ++ VERSION ++ bs " " ++ utf8 [0x2014] ++ bs " encrypted at rest, queryable at will";
         bs "data directory: " ++ utf8 data_dir;
         bs "type .help for help, .exit to quit"]
    else [] in
  let '(out, e) := repl_loop help interactive input [] e in (banner ++ out, e).
End Commands.

(** ** The program *)

(** What a run does outside the process. *)
Class Host (B : Type) : Type := {
  host_open : Text → Text → result EngineError (Engine B);
  host_open_remote : Text → Text → option bytes → result EngineError (Engine B);
  host_restore : Text → Text → Text → result EngineError (Engine B);
  host_backup : Engine B → Text → result EngineError unit;
  host_rotate : Text → M B unit;
  host_read : Text → result bytes bytes;
}.

Section Program.
Context {B : Type} `{Backend B} `{StdText} `{!Host B}.
Variable sign : Engine B → result EngineError SignedAuditRoot.
Variable public_key : Engine B → bytes.
Variables help usage : list bytes.

(** [Ok] is the exit status, true for success. The environment's variables
    count only when they are not empty; [None] is a panic. *)
Definition passphrase_of (env : option Text) : Text * list Out :=
  match env with
  | Some (_ :: _ as p) => (p, [])
  | _ => (DEV_PASSPHRASE, [Stderr (bs "warning: " ++ PASSPHRASE_ENV ++ bs " is not set; using an INSECURE development passphrase")])
  end.

(** The engine is open: what the options ask of it. *)
Definition run_engine (o : Options) (new_passphrase : option Text) (interactive : bool) (input : list Input) (e : Engine B)
  : option (result bytes bool * list Out * Engine B) :=
  match o_backup o with
  | Some path =>
      match host_backup e path with
      | Ok _ =>
          Some (Ok true,
            map Stdout [bs "backup written to " ++ utf8 path; root_lines e (bs "audit head: ");
                        bs "(record these with the backup; verify them after any restore)"], e)
      | Err err => Some (Err (show_engine_error err), [], e)
      end
  | None =>
      if o_rotate o then
        match new_passphrase with
        | Some (_ :: _ as p) =>
            Some match host_rotate p e with
                 | (Ok _, e) => (Ok true, [Stdout (bs "passphrase rotated; the database is re-encrypted under the new key")], e)
                 | (Err err, e) => (Err (show_engine_error err), [], e)
                 end
        | _ => Some (Err (bs "--rotate-passphrase requires " ++ NEW_PASSPHRASE_ENV ++ bs " to be set"), [], e)
        end
      else
        match o_import o with
        | Some file =>
            match host_read file with
            | Ok dump => '(ok, out, e) ← import_mysql_dump (utf8 file) dump e; Some (Ok ok, out, e)
            | Err message => Some (Err (bs "cannot read " ++ utf8 file ++ bs ": " ++ message), [], e)
            end
        | None =>
            if negb (bool_decide (o_execute o = [])) then
              let '(r, out, e) := run_all (o_execute o) e in
              Some (match r with Ok _ => Ok true | Err message => Err message end, out, e)
            else
              let '(out, e) := repl sign public_key help interactive (o_data o) input e in Some (Ok true, out, e)
        end
  end.

Definition unauthenticated : list Out :=
  [Stderr (bs "warning: connected without --server-key; the channel is encrypted and post-quantum but the server is UNAUTHENTICATED (MITM-exposed)")].

Definition run (args : list Text) (passphrase new_passphrase : option Text) (interactive : bool) (input : list Input)
  : option (result bytes bool * list Out) :=
  match parse_args args default_options with
  | ShowHelp => Some (Ok true, map Stdout usage)
  | ShowVersion => Some (Ok true, [Stdout (bs "ciphra " ++ VERSION)])
  | BadArgs message => Some (Err message, [])
  | Run o =>
      let '(pass, warned) := passphrase_of passphrase in
      if bool_decide (is_Some (o_remote o)) && (bool_decide (is_Some (o_restore o)) || o_rotate o) then
        Some (Err (bs "--restore and --rotate-passphrase operate on the database file; run them on the host that owns it"), warned)
      else
        match o_restore o with
        | Some snapshot =>
            Some match host_restore snapshot (o_data o) pass with
                 | Ok e =>
                     (Ok true, warned ++ map Stdout
                        [bs "restored " ++ utf8 snapshot ++ bs " into " ++ utf8 (o_data o);
                         root_lines e (bs "audit head: ") ++ bs " (chain verified)"])
                 | Err err => (Err (show_engine_error err), warned)
                 end
        | None =>
            pinned ← match o_server_key o with
                     | Some hex_key => r ← cli_parse_key hex_key; Some (key ← r; Ok (Some key))
                     | None => Some (Ok None)
                     end;
            match pinned with
            | Err message => Some (Err message, warned)
            | Ok pinned =>
                let '(opened, remote_warning) :=
                  match o_remote o with
                  | Some addr => (host_open_remote addr pass pinned, match pinned with None => unauthenticated | Some _ => [] end)
                  | None => (host_open (o_data o) pass, [])
                  end in
                match opened with
                | Ok e =>
                    '(r, out, _) ← run_engine o new_passphrase interactive input e;
                    Some (r, warned ++ remote_warning ++ out)
                | Err err => Some (Err (show_engine_error err), warned)
                end
            end
        end
  end.

(** [main]: the exit status and everything printed. *)
Definition main (args : list Text) (passphrase new_passphrase : option Text) (interactive : bool) (input : list Input)
  : option (bool * list Out) :=
  '(r, out) ← run args passphrase new_passphrase interactive input;
  Some match r with
       | Ok ok => (ok, out)
       | Err message => (false, out ++ [Stderr (bs "error: " ++ message)])
       end.
End Program.
