(* ===== verification/CliFacts.v ===== *)
(** * What the command line promises

    The import of a dump is a session of the engine like any other; the REPL
    runs its input text by text, in order; result tables are aligned; keys
    are read back as printed. *)

From S2P Require Import Prelude Storage StorageFacts Aead Float SqlAst SqlLexer SqlParser Values Codec CodecFacts AuditChain AuditFacts Store EngineState Ddl Query Dml Exec EngineFacts EngineAudit EngineTxn EngineGuarantees Errors Json FloatFacts Ffi FfiFacts Migrate MigrateFacts Signing Cli.

(** ** Tables *)

Lemma char_count_app s t : char_count (s ++ t) = (char_count s + char_count t)%nat.
Proof. unfold char_count. by rewrite list.filter_app, length_app. Qed.
Lemma char_count_length s : (char_count s ≤ length s)%nat.
Proof. unfold char_count. apply length_filter. Qed.
Lemma char_count_replicate n b : in_range 0x80 0xBF b = false → char_count (replicate n b) = n.
Proof.
  intros Hb. unfold char_count. induction n as [|n IH]; [done|]. cbn [replicate].
  rewrite filter_cons_True by done. cbn [length]. by rewrite IH.
Qed.

Lemma char_count_pad width cell : (length cell ≤ width)%nat → char_count (pad width cell) = width.
Proof.
  intros H. unfold pad. rewrite char_count_app, char_count_replicate by done.
  pose proof (char_count_length cell). lia.
Qed.

(** What each cell takes with its borders. *)
Definition line_width (widths : list nat) : nat := sum_list_with (λ w, w + 3)%nat widths + 1.

Lemma separator_width widths : char_count (separator widths) = line_width widths.
Proof.
  unfold separator, line_width. induction widths as [|w widths IH]; [done|].
  cbn [map concat sum_list_with]. rewrite <- app_assoc, !char_count_app, char_count_replicate by done.
  rewrite char_count_app in IH. change (char_count (bs "+")) with 1%nat in *. lia.
Qed.

Lemma row_width cells widths :
  Forall2 (λ c w, length c ≤ w)%nat cells widths → char_count (print_row cells widths) = line_width widths.
Proof.
  unfold print_row, line_width. induction 1 as [|c w cells widths Hc H IH]; [done|].
  cbn [zip_with concat sum_list_with]. rewrite <- !app_assoc, !char_count_app, char_count_pad by done.
  rewrite char_count_app in IH. change (char_count (bs "| ")) with 2%nat. change (char_count (bs " ")) with 1%nat. lia.
Qed.

Lemma widen_covers widths row :
  length row = length widths →
  Forall2 (λ c w, length c ≤ w)%nat row (widen widths row) ∧ Forall2 le widths (widen widths row).
Proof.
  revert row. induction widths as [|w widths IH]; intros [|c row] Hl; try done; cbn [widen].
  injection Hl as Hl. destruct (IH row Hl). split; constructor; try done; lia.
Qed.

Lemma covers_mono (row : list bytes) widths widths' :
  Forall2 (λ c w, length c ≤ w)%nat row widths → Forall2 le widths widths' →
  Forall2 (λ c w, length c ≤ w)%nat row widths'.
Proof.
  intros H. revert widths'. induction H as [|c w row widths Hc H IH]; intros widths' H'; inversion H'; subst; constructor.
  - lia.
  - by apply IH.
Qed.

Lemma widths_cover rows widths :
  Forall (λ row : list bytes, length row = length widths) rows →
  Forall2 le widths (fold_left widen rows widths)
  ∧ Forall (λ row, Forall2 (λ c w, length c ≤ w)%nat row (fold_left widen rows widths)) rows.
Proof.
  revert widths. induction rows as [|row rows IH]; intros widths H; cbn [fold_left].
  - split; [|constructor]. by induction widths; constructor.
  - apply list.Forall_cons in H as [Hr H]. destruct (widen_covers widths row Hr) as [Hc Hm].
    pose proof (Forall2_length Hm) as Hlen.
    destruct (IH (widen widths row)) as [Hm' Hcs].
    { eapply list.Forall_impl; [exact H|]. cbn. intros r ->. by rewrite Hlen. }
    split; [|constructor; [by eapply covers_mono|done]].
    clear -Hm Hm'. revert Hm'. generalize (fold_left widen rows (widen widths row)).
    induction Hm as [|w w' ws ws' Hw Hm IHm]; intros l H; inversion H; subst; constructor; [lia|by apply IHm].
Qed.

Lemma header_covers columns widths :
  Forall2 le (map length columns) widths → Forall2 (λ (c : bytes) w, length c ≤ w)%nat columns widths.
Proof.
  revert widths. induction columns as [|c columns IH]; intros widths H; inversion H; subst; constructor; [done|by apply IH].
Qed.

(** The lines of a table, before the count of its rows, are equally wide in
    characters. *)
Theorem table_is_aligned columns rows :
  Forall (λ row : list Value, length row = length columns) rows →
  ∃ width, Forall (λ line, char_count line = width) (take (4 + length rows) (print_table columns rows)).
Proof.
  intros H. unfold print_table. set (cells := map (map show_value) rows).
  destruct (widths_cover cells (map length columns)) as [Hm Hc].
  { unfold cells. apply List.Forall_map. eapply list.Forall_impl; [exact H|]. cbn. intros row Hr. by rewrite !length_map. }
  set (widths := fold_left widen cells (map length columns)) in *.
  exists (line_width widths). cbn [app take Nat.add].
  repeat (constructor; [first [apply separator_width|by apply row_width, header_covers]|]).
  rewrite (app_assoc _ [_] [_] : _ ++ [_; _] = _), take_app_length'
    by (unfold cells; rewrite length_app, !length_map; cbn; lia).
  apply Forall_app; split; [|by constructor; [apply separator_width|]].
  apply List.Forall_map. eapply list.Forall_impl; [exact Hc|]. cbn. intros row. apply row_width.
Qed.

(** ** Keys *)

Lemma u8_hex c : u8_from_hex [lower_hex (byte.unsigned c / 16); lower_hex (byte.unsigned c mod 16)] = Some c.
Proof. destruct c; reflexivity. Qed.

Lemma hex_ascii key b : b ∈ hex key → in_range 0x80 0xBF b = false.
Proof.
  unfold hex. rewrite list_elem_of_In, in_concat. intros (l & Hl & Hb). apply in_map_iff in Hl as (c & <- & _).
  destruct Hb as [<-|[<-|[]]]; destruct c; reflexivity.
Qed.

Lemma length_hex key : length (hex key) = (2 * length key)%nat.
Proof. induction key as [|c key IH]; [done|]. unfold hex in *. cbn [map concat]. rewrite length_app, IH. cbn. lia. Qed.

Lemma hex_app key key' : hex (key ++ key') = hex key ++ hex key'.
Proof. unfold hex. by rewrite map_app, concat_app. Qed.

Lemma hex_boundary key i : (i ≤ length (hex key))%nat → char_boundary (hex key) i = true.
Proof.
  intros Hi. unfold char_boundary. destruct (hex key !! i) as [b|] eqn:E.
  - rewrite (hex_ascii key); [done|]. by eapply list_elem_of_lookup_2.
  - apply lookup_ge_None in E. apply Nat.eqb_eq. lia.
Qed.

Lemma parse_hex_bytes invalid done_ key :
  parse_key_bytes invalid (hex (done_ ++ key)) (length done_) (length key) = Some (Ok key).
Proof.
  revert done_. induction key as [|c key IH]; intros done_; [done|]. cbn [length parse_key_bytes].
  assert (Hlen : length (hex (done_ ++ c :: key)) = (2 * length done_ + 2 + 2 * length key)%nat).
  { rewrite length_hex, length_app. cbn [length]. lia. }
  rewrite !hex_boundary by lia. cbn [andb].
  rewrite hex_app, (drop_app_length' (hex done_)) by (rewrite length_hex; lia).
  change (take 2 (hex (c :: key))) with [lower_hex (byte.unsigned c / 16); lower_hex (byte.unsigned c mod 16)].
  rewrite u8_hex. rewrite <- hex_app. specialize (IH (done_ ++ [c])).
  rewrite <- app_assoc, length_app in IH. cbn [app length] in IH. rewrite Nat.add_1_r in IH. by rewrite IH.
Qed.

(** A key is read back from the text that the server prints, by the C
    interface and by the command line. *)
Lemma parse_printed_key key : length key = 32%nat → parse_key (hex key) = Some (Ok key).
Proof.
  intros Hk. unfold parse_key. rewrite length_hex, Hk. change (negb (2 * 32 =? 64)%nat) with false. cbv iota.
  pose proof (parse_hex_bytes (bs "server key must be valid hex") [] key) as H. cbn [app length] in H. by rewrite Hk in H.
Qed.

(** ** Import *)

Section ImportLoop.
Context {B : Type} {btable : B → table} `{StrictBackend B btable} `{StdText}.

(** A translated statement is at most one step of a session. *)
Lemma execute_emitted s (e : Engine B) r e' : emitted s → execute (utf8 s) e = (r, e') → e' = e ∨ engine_step e e'.
Proof.
  intros (st & [Hp|[ds Hp]] & Hi) Hx; unfold execute, lift, mbind, m_bind in Hx; rewrite Hp in Hx; cbn [map_err] in Hx.
  - right. unfold execute_statements in Hx. cbn [foldM] in Hx. unfold mbind, m_bind, mret, m_ret in Hx.
    destruct (execute_statement st e) as [r1 e1] eqn:Hst. apply (step_statement st e r1).
    + rewrite Hst. by destruct r1; injection Hx as _ <-.
    + intros ->. by destruct Hi.
  - left. by injection Hx as _ <-.
Qed.

(** Every statement in order, each on the database the one before it left, with
    what each returned. *)
Fixpoint outcomes (sts : list Text) (e : Engine B) : list (result EngineError (list QueryResult)) * Engine B :=
  match sts with
  | [] => ([], e)
  | s :: sts =>
      let '(r, e1) := execute (utf8 s) e in
      let '(rs, e') := outcomes sts e1 in (r :: rs, e')
  end.

Lemma outcomes_length sts e : length (outcomes sts e).1 = length sts.
Proof.
  revert e. induction sts as [|s sts IH]; intros e; [done|]. cbn [outcomes]. destruct (execute (utf8 s) e) as [r e1].
  specialize (IH e1). destruct (outcomes sts e1) as [rs e']. cbn [fst length] in *. by rewrite IH.
Qed.

Lemma outcomes_history sts (e : Engine B) ces es :
  Forall emitted sts → engine_inv (btable := btable) e ces es → Z.of_nat (length es + length sts) < 2 ^ 64 →
  ∃ ces' es', engine_inv (btable := btable) (outcomes sts e).2 ces' es' ∧ ces `prefix_of` ces'.
Proof.
  intros Hs. revert e ces es. induction Hs as [|s sts Hst Hs IH]; intros e ces es Hi Hlen; cbn [outcomes]; [by exists ces, es|].
  cbn [length] in Hlen. destruct (execute (utf8 s) e) as [r e1] eqn:Hx.
  assert (Hnext : ∃ ces1 es1, engine_inv (btable := btable) e1 ces1 es1 ∧ ces `prefix_of` ces1 ∧ (length es1 ≤ S (length es))%nat).
  { destruct (execute_emitted s e r e1 Hst Hx) as [->|Hstep].
    - exists ces, es. split_and!; [done|done|lia].
    - apply (engine_step_inv e e1 ces es Hi); [lia|done]. }
  destruct Hnext as (ces1 & es1 & Hi1 & Hpre & Hl). destruct (IH e1 ces1 es1 Hi1 ltac:(lia)) as (ces' & es' & Hi' & Hpre').
  destruct (outcomes sts e1) as [rs e']. exists ces', es'. split; [done|]. by trans ces1.
Qed.

(** The rows that one outcome inserted. *)
Definition rows_of (r : result EngineError (list QueryResult)) : nat :=
  match r with
  | Ok results => sum_list (map (λ q, match q with QInserted n => n | _ => 0%nat end) results)
  | Err _ => 0%nat
  end.

Lemma inserted_rows_sum results : inserted_rows results = rows_of (Ok results).
Proof.
  assert (∀ n, fold_left (λ rows r, match r with QInserted n => (rows + n)%nat | _ => rows end) results n = (n + rows_of (Ok results))%nat) as Hsum;
    [|apply Hsum].
  unfold rows_of. induction results as [|q results IH]; intros n; cbn [fold_left map]; [cbn; lia|]. rewrite IH.
  change (sum_list (?x :: ?l)) with (x + sum_list l)%nat. destruct q; lia.
Qed.

(** The counters are those of the outcomes. *)
Definition succeeded (r : result EngineError (list QueryResult)) : bool := is_ok r.
Definition refused (r : result EngineError (list QueryResult)) : bool := negb (is_ok r).
Definition count (f : result EngineError (list QueryResult) → bool) (rs : list (result EngineError (list QueryResult))) : nat :=
  length (List.filter f rs).

Lemma import_loop_outcomes sts im (e : Engine B) :
  let '(im', e') := fold_left import_step sts (im, e) in
  e' = (outcomes sts e).2
  ∧ im_applied im' = (im_applied im + count succeeded (outcomes sts e).1)%nat
  ∧ im_failed im' = (im_failed im + count refused (outcomes sts e).1)%nat
  ∧ im_rows im' = (im_rows im + sum_list (map rows_of (outcomes sts e).1))%nat.
Proof.
  revert im e. induction sts as [|s sts IH]; intros im e; [cbn; repeat split; lia|].
  cbn [fold_left outcomes]. unfold import_step at 2. destruct (execute (utf8 s) e) as [r e1].
  destruct r as [results|err].
  - specialize (IH (mkImport (S (im_applied im)) (im_failed im) (im_rows im + inserted_rows results) (im_out im)) e1).
    destruct (fold_left import_step sts _) as [im' e']. destruct (outcomes sts e1) as [rs e2].
    cbn [fst snd im_applied im_failed im_rows] in *. destruct IH as (-> & -> & -> & ->). rewrite inserted_rows_sum.
    unfold count. cbn [List.filter succeeded refused is_ok negb length map].
    change (sum_list (?x :: ?l)) with (x + sum_list l)%nat. repeat split; lia.
  - set (out := _ ++ _). specialize (IH (mkImport (im_applied im) (S (im_failed im)) (im_rows im) out) e1).
    destruct (fold_left import_step sts _) as [im' e']. destruct (outcomes sts e1) as [rs e2].
    cbn [fst snd im_applied im_failed im_rows] in *. destruct IH as (-> & -> & -> & ->).
    unfold count. cbn [List.filter succeeded refused is_ok negb length map].
    change (sum_list (?x :: ?l)) with (x + sum_list l)%nat. cbn [rows_of]. repeat split; lia.
Qed.

Lemma none_refused rs : (count refused rs =? 0)%nat = forallb succeeded rs.
Proof. induction rs as [|[r|err] rs IH]; [done|exact IH|done]. Qed.
End ImportLoop.

(** C33: Importing a dump whose translation does not panic ends, and runs the
    translated statements in order, each on the database the one before it
    left, errors and all ([outcomes]). The applied and failed counters it
    prints are the numbers of statements that returned Ok and of those that
    returned an error, the row counter is the number of rows the successful
    ones inserted, and it reports success exactly when no statement returned
    an error. On a backend whose failed writes change nothing that reads see,
    starting from a verifiable history, the audit log verifies afterwards and
    the chain on the backend has only grown. *)
Theorem import_is_session {B} `{StrictBackend B} `{StdText} file dump migration (e : Engine B) ces es :
  translate dump = Ok migration → engine_inv (btable := btable) e ces es →
  Z.of_nat (length es + length (mg_statements migration)) < 2 ^ 64 →
  ∃ rs im out e', outcomes (mg_statements migration) e = (rs, e') ∧ length rs = length (mg_statements migration)
    ∧ import_statements (mg_statements migration) e = (im, e')
    ∧ im_applied im = count succeeded rs ∧ im_failed im = count refused rs ∧ im_rows im = sum_list (map rows_of rs)
    ∧ import_mysql_dump file dump e = Some (forallb succeeded rs, out, e')
    ∧ Stdout (bs "imported from " ++ file ++ bs ": " ++ show_count (count succeeded rs)
         ++ bs " statement(s) applied (" ++ show_count (sum_list (map rows_of rs)) ++ bs " row(s)), "
         ++ show_count (count refused rs) ++ bs " failed, " ++ show_count (length (mg_notes migration)) ++ bs " note(s)") ∈ out
    ∧ ∃ ces' es', engine_inv (btable := btable) e' ces' es' ∧ ces `prefix_of` ces' ∧ audit_verify e' = Ok es'.
Proof.
  intros Ht Hi Hlen. pose proof (translate_ok dump migration Ht) as Hs.
  destruct (outcomes_history (btable := btable) _ e ces es Hs Hi Hlen) as (ces' & es' & Hi' & Hpre).
  pose proof (outcomes_length (mg_statements migration) e) as Hl.
  pose proof (import_loop_outcomes (mg_statements migration) (mkImport 0 0 0 []) e) as Hc.
  unfold import_mysql_dump. rewrite Ht. fold (import_statements (mg_statements migration) e) in Hc.
  destruct (import_statements (mg_statements migration) e) as [im e'].
  destruct (outcomes (mg_statements migration) e) as [rs e2]. cbn [fst snd im_applied im_failed im_rows] in *.
  destruct Hc as (-> & Ha & Hf & Hr). rewrite !Nat.add_0_l in *. eexists rs, im, _, e2. split_and!; [done..| | |].
  - rewrite Hf, none_refused. reflexivity.
  - rewrite Ha, Hr. apply elem_of_app. right. apply elem_of_app. right. apply list_elem_of_here.
  - exists ces', es'. split_and!; [done|done|]. by apply audit_verify_state, Hi'.
Qed.

(** ** The REPL *)

Lemma drop_while_suffix {A} (f : A → bool) l : drop_while f l `suffix_of` l.
Proof.
  induction l as [|x l IH]; [done|]. cbn [drop_while]. destruct (f x); [|done]. by apply suffix_cons_r.
Qed.
Lemma drop_while_nil {A} (f : A → bool) l x : drop_while f l = [] → x ∈ l → f x = true.
Proof.
  induction l as [|y l IH]; cbn [drop_while]; [by intros _ ?%elem_of_nil|].
  destruct (f y) eqn:E; [|done]. intros Hd [->|Hx]%elem_of_cons; [done|by apply IH].
Qed.

Lemma trim_nil s c : trim s = [] → c ∈ s → is_whitespace c = true.
Proof.
  unfold trim, trim_start. intros Ht Hc.
  destruct (is_whitespace c) eqn:E; [done|]. exfalso.
  apply (f_equal reverse) in Ht. rewrite reverse_involutive in Ht. change (reverse []) with (@nil Z) in Ht.
  assert (Hin : c ∈ drop_while is_whitespace s).
  { clear Ht. induction s as [|d s IH]; [by apply elem_of_nil in Hc|]. cbn [drop_while].
    destruct (is_whitespace d) eqn:Ed; [|done]. apply elem_of_cons in Hc as [->|Hc]; [congruence|by apply IH]. }
  rewrite <- elem_of_reverse in Hin. apply (drop_while_nil _ _ c) in Ht; [congruence|done].
Qed.

Lemma trim_ends c s : ends_with c (trim s) = true → c ∈ s.
Proof.
  unfold ends_with. rewrite bool_decide_eq_true. intros H.
  assert (Hin : c ∈ trim s). { rewrite <- elem_of_reverse. destruct (reverse (trim s)); [done|]. injection H as ->. apply list_elem_of_here. }
  unfold trim, trim_start in Hin. rewrite elem_of_reverse in Hin.
  destruct (drop_while_suffix is_whitespace (reverse (drop_while is_whitespace s))) as [k Hk].
  destruct (drop_while_suffix is_whitespace s) as [k' Hk'].
  rewrite Hk', elem_of_app. right. rewrite <- elem_of_reverse, Hk, elem_of_app. by right.
Qed.

(** A batch: lines up to the first that ends in a semicolon. *)
Definition is_batch (ls : list Text) : Prop :=
  ∃ front l, ls = front ++ [l] ∧ ends_with SEMICOLON (trim l) = true
    ∧ Forall (λ l, ends_with SEMICOLON (trim l) = false) front.

Lemma batch_text front l : ends_with SEMICOLON (trim l) = true → trim (front ++ l) ≠ [].
Proof.
  intros Hl Ht. apply (trim_nil _ SEMICOLON) in Ht; [done|]. rewrite elem_of_app. right. by apply trim_ends.
Qed.

Section Repl.
Context {B : Type} `{Backend B} `{StdText}.
Variable sign : Engine B → result EngineError SignedAuditRoot.
Variable public_key : Engine B → bytes.

Definition run_batch (e : Engine B) (ls : list Text) : Engine B := (execute (utf8 (concat ls)) e).2.

Lemma run_sql_engine sql (e : Engine B) : (run_sql sql e).2 = (execute sql e).2.
Proof. unfold run_sql. by destruct (execute sql e). Qed.

Lemma repl_loop_batches help lines front (e : Engine B) :
  Forall (λ l, text_starts_with (tx ".") (trim l) = false) lines →
  Forall (λ l, ends_with SEMICOLON (trim l) = false) front →
  ∃ batches rest, front ++ lines = concat batches ++ rest
    ∧ Forall is_batch batches ∧ Forall (λ l, ends_with SEMICOLON (trim l) = false) rest
    ∧ (repl_loop sign public_key help false (map Line lines) (concat front) e).2 = fold_left run_batch batches e.
Proof.
  intros Hd. revert front e. induction Hd as [|l lines Hl Hd IH]; intros front e Hf.
  { exists [], front. cbn [concat app map]. rewrite app_nil_r. by split_and!. }
  cbn [map repl_loop]. rewrite Hl, andb_false_r, andb_false_l, orb_false_r.
  destruct (ends_with SEMICOLON (trim l)) eqn:Hend.
  - rewrite bool_decide_false by (by apply batch_text).
    pose proof (run_sql_engine (utf8 (concat front ++ l)) e) as Hrun.
    destruct (run_sql (utf8 (concat front ++ l)) e) as [r e1]. cbn [snd] in Hrun.
    destruct (IH [] e1) as (batches & rest & Heq & Hb & Hr & Hloop); [constructor|].
    exists ((front ++ [l]) :: batches), rest. cbn [concat app fold_left] in *.
    change (concat []) with (@nil Z) in Hloop.
    destruct (repl_loop sign public_key help false (map Line lines) [] e1) as [out' e'].
    split_and!; [by rewrite Heq, <- !app_assoc|by constructor; [exists front, l|]|done|].
    cbn [snd] in *. rewrite Hloop, Hrun. unfold run_batch. rewrite concat_app. cbn [concat]. by rewrite app_nil_r.
  - destruct (IH (front ++ [l]) e) as (batches & rest & Heq & Hb & Hr & Hloop).
    { apply Forall_app; split; [done|by constructor]. }
    exists batches, rest. rewrite <- app_assoc in Heq. split_and!; [done..|].
    rewrite concat_app in Hloop. cbn [concat] in Hloop. by rewrite app_nil_r in Hloop.
Qed.
End Repl.

(** A script given to the REPL, none of whose lines begins with a dot, is
    run batch by batch, in order and whole: the batches are the lines up to
    each line that ends in a semicolon; the lines after the last one are not
    run. *)
Theorem repl_runs_batches {B} `{Backend B} `{StdText} sign public_key help data_dir lines (e : Engine B) :
  Forall (λ l, text_starts_with (tx ".") (trim l) = false) lines →
  ∃ batches rest, lines = concat batches ++ rest
    ∧ Forall is_batch batches ∧ Forall (λ l, ends_with SEMICOLON (trim l) = false) rest
    ∧ (repl sign public_key help false data_dir (map Line lines) e).2 = fold_left run_batch batches e.
Proof.
  intros Hl. destruct (repl_loop_batches sign public_key help lines [] e Hl) as (batches & rest & Heq & Hb & Hr & Hloop).
  { constructor. }
  exists batches, rest. split_and!; [done..|]. rewrite <- Hloop. unfold repl.
  by destruct (repl_loop _ _ _ _ _ _ _).
Qed.

(** ** Examples *)

Definition sample_dump : bytes := bs "CREATE TABLE `t` (`id` int, PRIMARY KEY (`id`)); INSERT INTO `t` VALUES (1),(2);".
Definition sample_migration : Migration :=
  mkMigration [tx "CREATE TABLE t (id INT PRIMARY KEY)"; tx "INSERT INTO t VALUES (1), (2)"] [].
Lemma sample_translated : translate sample_dump = Ok sample_migration.
Proof. vm_compute. reflexivity. Qed.

Lemma import_is_session_witness : ∃ rs im out e',
  outcomes (mg_statements sample_migration) (fresh_engine []) = (rs, e')
  ∧ length rs = length (mg_statements sample_migration)
  ∧ import_statements (H0 := plain_text) (mg_statements sample_migration) (fresh_engine []) = (im, e')
  ∧ im_applied im = count succeeded rs ∧ im_failed im = count refused rs ∧ im_rows im = sum_list (map rows_of rs)
  ∧ import_mysql_dump (H0 := plain_text) (bs "dump.sql") sample_dump (fresh_engine []) = Some (forallb succeeded rs, out, e')
  ∧ Stdout (bs "imported from " ++ bs "dump.sql" ++ bs ": " ++ show_count (count succeeded rs)
       ++ bs " statement(s) applied (" ++ show_count (sum_list (map rows_of rs)) ++ bs " row(s)), "
       ++ show_count (count refused rs) ++ bs " failed, " ++ show_count (length (mg_notes sample_migration)) ++ bs " note(s)") ∈ out
  ∧ ∃ ces' es', engine_inv (btable := local_table) e' ces' es' ∧ [] `prefix_of` ces' ∧ audit_verify e' = Ok es'.
Proof.
  apply (import_is_session (H1 := plain_text) (bs "dump.sql") sample_dump sample_migration (fresh_engine []) [] []).
  - apply sample_translated.
  - apply fresh_engine_inv.
  - reflexivity.
Defined.

Definition sample_script : list Text := [tx "SELECT 1" ++ [10]; tx "FROM t;" ++ [10]; tx "SELECT 2" ++ [10]].

Lemma repl_runs_batches_witness :
  ∃ batches rest, sample_script = concat batches ++ rest
    ∧ Forall is_batch batches ∧ Forall (λ l, ends_with SEMICOLON (trim l) = false) rest
    ∧ (repl (H0 := plain_text) (λ _, Err EIo) (λ _, []) [] false (tx "data") (map Line sample_script) sample_engine).2
      = fold_left run_batch batches sample_engine.
Proof.
  apply (repl_runs_batches (H0 := plain_text) (λ _, Err EIo) (λ _, []) [] (tx "data") sample_script sample_engine).
  by repeat (apply list.Forall_cons; split).
Defined.

Example printed_table :
  print_table [bs "id"; bs "name"] [[VInt 1; VText (bs "alice")]; [VInt 10; VNull]]
  = [bs "+----+-------+"; bs "| id | name  |"; bs "+----+-------+"; bs "| 1  | alice |"; bs "| 10 | NULL  |";
     bs "+----+-------+"; bs "2 rows"].
Proof. vm_compute. reflexivity. Qed.
Example arguments : parse_args [tx "-e"; tx "SELECT 1"; tx "--rotate-passphrase"; tx "-d"; tx "x"] default_options
  = Run (mkOptions (tx "x") [tx "SELECT 1"] true None None None None None).
Proof. vm_compute. reflexivity. Qed.
Example missing_value : parse_args [tx "--data"] default_options = BadArgs (bs "--data requires a directory argument").
Proof. vm_compute. reflexivity. Qed.

(** A statement without its semicolon at the end of a script is not run: no
    output, no error. *)
Lemma unterminated_script_dropped {B} `{Backend B} `{StdText} sign public_key help data_dir (e : Engine B) :
  repl sign public_key help false data_dir [Line (tx "DELETE FROM t WHERE id = 1")] e = ([], e).
Proof. reflexivity. Qed.
