(* ===== verification/Serve.v ===== *)
(** * Whole connections

    ciphra-net/src/lib.rs: the loop of [handle_connection], the push loop of
    [stream_to_subscriber] and the loop of [follow], over the bytes that the
    network delivers; and the loop that a replica runs (ciphra-server,
    [run_replica]). Whether each write to the stream works is an argument. *)

From S2P Require Import Prelude BTree Storage StorageFacts Sha256 ChaCha20 Aead Values Store Keccak Mlkem MlkemKem MlkemCorrect Hybrid Wire Server ReplicaFacts RemoteFacts Handshake.

(** ** The server's side *)

(** How a connection ends: the peer left or a frame was not its own, a write
    failed, or a subscription took it over. *)
Inductive Ending : Type := PeerLeft | WriteFailed | Subscribed.

Section Serve.
Context (error_text : StorageError → bytes).

(** The loop of [handle_connection]: what is written, and what is left. The
    fuel is the length of the stream: each request takes four bytes or more. *)
Fixpoint serve_requests (fuel : nat) (writes : list bool) (chan : Channel) (stream : bytes) (st : ServerState)
  : bytes * Ending * Channel * ServerState :=
  match fuel with
  | O => ([], PeerLeft, chan, st)
  | S fuel =>
      match channel_recv chan stream with
      | Err _ => ([], PeerLeft, chan, st)
      | Ok (request, rest, chan) =>
          if decide (head request = Some OP_SUBSCRIBE) then
            let '(snapshot, st) := subscribe st in
            let '(frame, chan) := channel_send chan snapshot in
            if default true (head writes) then (frame, Subscribed, chan, st) else ([], WriteFailed, chan, st)
          else
            let '(response, st) := respond error_text request st in
            let '(frame, chan) := channel_send chan response in
            if default true (head writes) then
              let '(out, ending, chan, st) := serve_requests fuel (tail writes) chan rest st in
              (frame ++ out, ending, chan, st)
            else ([], WriteFailed, chan, st)
      end
  end.

(** The push loop: messages as they come, until a write fails. *)
Fixpoint push_messages (writes : list bool) (chan : Channel) (msgs : list bytes) : bytes * Channel :=
  match msgs with
  | [] => ([], chan)
  | msg :: msgs =>
      let '(frame, chan) := channel_send chan msg in
      if default true (head writes) then
        let '(out, chan) := push_messages (tail writes) chan msgs in (frame ++ out, chan)
      else ([], chan)
  end.

Context `{KeyAgreement} `{KemHash}.

(** [handle_connection] for the bytes a client sends; [None] only when the
    sampling of ML-KEM runs out of fuel. *)
Definition handle_connection (server_secret e_secret m : bytes) (writes : list bool) (stream : bytes) (st : ServerState)
  : option (result HandshakeError (bytes * Ending * Channel) * ServerState) :=
  served ← server_handshake server_secret e_secret m stream;
  match served with
  | Err e => Some (Err e, st)
  | Ok (reply, chan, rest) =>
      if default true (head writes) then
        let '(out, ending, chan, st) := serve_requests (length rest) (tail writes) chan rest st in
        Some (Ok (reply ++ out, ending, chan), st)
      else Some (Ok ([], WriteFailed, chan), st)
  end.
End Serve.

(** ** The follower's side *)

Inductive FollowEnd : Type :=
| FollowHandshake (e : HandshakeError)
| FollowWrite
| FollowRecv (e : RecvError)
| FollowApply (e : FollowError).

(** The loop of [follow]: the events, why it ended, and the state. *)
Fixpoint follow_stream (fuel : nat) (chan : Channel) (stream : bytes) (st : ServerState)
  : list FollowEvent * FollowEnd * ServerState :=
  match fuel with
  | O => ([], FollowRecv (RecvFrame FrameIo), st)
  | S fuel =>
      match channel_recv chan stream with
      | Err e => ([], FollowRecv e, st)
      | Ok (msg, rest, chan) =>
          match apply_record msg st with
          | (Err e, st) => ([], FollowApply e, st)
          | (Ok event, st) =>
              let '(events, ending, st) := follow_stream fuel chan rest st in (event :: events, ending, st)
          end
      end
  end.

(** [follow] on what the leader sends; [writes] are the two writes of the
    follower, its hello and its subscription. *)
Definition follow_leader `{KeyAgreement} `{KemHash} (e_secret d z : bytes) (pinned : option bytes) (writes : bool * bool)
    (stream : bytes) (st : ServerState) : option (bytes * list FollowEvent * FollowEnd * ServerState) :=
  '(state, hello) ← client_start e_secret d z;
  let sent := write_frame (client_hello_to_bytes hello) in
  if negb writes.1 then Some ([], [], FollowWrite, st)
  else
    finished ← client_handshake state pinned stream;
    match finished with
    | Err e => Some (sent, [], FollowHandshake e, st)
    | Ok (chan, server_public, authenticated, rest) =>
        let connected := Connected server_public authenticated in
        let '(frame, chan) := channel_send chan [OP_SUBSCRIBE] in
        if negb writes.2 then Some (sent, [connected], FollowWrite, st)
        else
          let '(events, ending, st) := follow_stream (length rest) chan rest st in
          Some (sent ++ frame, connected :: events, ending, st)
    end.

(** The thread of [run_replica]: follow again after every end, over the
    streams that the leader gives one after the other. *)
Fixpoint run_replica `{KeyAgreement} `{KemHash} (pinned : option bytes)
    (attempts : list (bytes * bytes * bytes * (bool * bool) * bytes)) (st : ServerState) : option ServerState :=
  match attempts with
  | [] => Some st
  | (e_secret, d, z, writes, stream) :: attempts =>
      '(_, _, _, st) ← follow_leader e_secret d z pinned writes stream st;
      run_replica pinned attempts st
  end.

(** ** What a channel sends *)

Lemma channel_send_length sender receiver msg :
  one_way sender receiver → small (length msg + TAG_LEN) → (4 ≤ length (channel_send sender msg).1)%nat.
Proof.
  intros Ho Hs. destruct (channel_send_frame sender msg) as (payload & -> & _); [apply Ho|done|].
  unfold write_frame. rewrite length_app, length_bytes_le. lia.
Qed.

(** What a channel sends, frame after frame. *)
Definition pushed (chan : Channel) (msgs : list bytes) : bytes := (push_messages [] chan msgs).1.

Lemma pushed_cons chan msg msgs :
  pushed chan (msg :: msgs) = (channel_send chan msg).1 ++ pushed (channel_send chan msg).2 msgs.
Proof.
  unfold pushed. cbn [push_messages head tail default]. destruct (channel_send chan msg) as [frame chan'].
  cbn [fst snd]. by destruct (push_messages [] chan' msgs).
Qed.

(** ** Replication over the wire *)

(** Whatever part of the leader's bytes arrives, the follower ends as if it had
    applied the messages of a prefix; all of them, when all arrive. *)
Lemma follow_pushed msgs fuel n sender receiver st :
  one_way sender receiver → Forall (λ msg, small (length msg + TAG_LEN)) msgs →
  (length (take n (pushed sender msgs)) ≤ fuel)%nat →
  ∃ k, (follow_stream fuel receiver (take n (pushed sender msgs)) st).2 = (follow (take k msgs) st).2
    ∧ (Forall (λ msg, Z.of_nat (length msg + TAG_LEN) ≤ MAX_FRAME) msgs → (length (pushed sender msgs) ≤ n)%nat → take k msgs = msgs).
Proof.
  revert fuel n sender receiver st. induction msgs as [|msg msgs IH]; intros fuel n sender receiver st Ho Hs Hf.
  { exists 0%nat. split; [|done]. change (pushed sender []) with (@nil byte). rewrite take_nil.
    destruct fuel; reflexivity. }
  apply list.Forall_cons in Hs as [Hmsg Hs]. rewrite pushed_cons in *.
  pose proof (channel_send_length sender receiver msg Ho Hmsg) as Hpos.
  pose proof (recv_cut sender receiver msg n (pushed (channel_send sender msg).2 msgs) Ho Hmsg) as Hr.
  destruct (channel_send sender msg) as [frame sender'] eqn:E. cbn [fst snd] in *.
  destruct Hr as [(e & Hr & Hwhy)|(Hn & receiver' & Ho' & Hr)].
  - exists 0%nat. split.
    + destruct fuel as [|fuel]; [done|]. cbn [follow_stream]. by rewrite Hr.
    + intros Hfit Hall. apply list.Forall_cons in Hfit as [Hfit _]. rewrite length_app in Hall. exfalso. lia.
  - destruct fuel as [|fuel]; [rewrite length_take, length_app in Hf; lia|].
    cbn [follow_stream]. rewrite Hr. destruct (apply_record msg st) as [[event|e] st1] eqn:Ha.
    + destruct (IH fuel (n - length frame)%nat sender' receiver' st1 Ho' Hs) as (k & Hk & Hall).
      { rewrite length_take in *. rewrite length_app in Hf. lia. }
      exists (S k). cbn [take follow]. rewrite Ha. split.
      * destruct (follow_stream fuel receiver' _ st1) as [[events ending] st2]. cbn [snd] in *. rewrite Hk.
        by destruct (follow (take k msgs) st1) as [[]].
      * intros Hfit Hlen. apply list.Forall_cons in Hfit as [_ Hfit]. rewrite length_app in Hlen.
        rewrite Hall; [done|done|lia].
    + exists (length (msg :: msgs)). rewrite take_ge by done. split; [|done]. cbn [follow]. by rewrite Ha.
Qed.


(** ** Requests one after the other *)

(** The responses to a client that does not wait. *)
Fixpoint responses (error_text : StorageError → bytes) (requests : list bytes) (st : ServerState) : list bytes :=
  match requests with
  | [] => []
  | request :: requests =>
      let '(response, st) := respond error_text request st in response :: responses error_text requests st
  end.

(** Sending looks only at the sender's half of a channel. *)
Lemma pushed_half chan chan' msgs :
  send_key chan = send_key chan' → send_ctr chan = send_ctr chan' → pushed chan msgs = pushed chan' msgs.
Proof.
  revert chan chan'. induction msgs as [|msg msgs IH]; intros chan chan' Hk Hc; [done|].
  rewrite !pushed_cons. unfold channel_send. cbn [fst snd]. rewrite Hk, Hc. f_equal. by apply IH.
Qed.

Lemma respond_state error_text request st : (respond error_text request st).2 = (handle_request error_text request st).2.
Proof. unfold respond. by destruct (handle_request error_text request st) as [[]]. Qed.

(** A connection answers every request it can read, in order, and ends with
    the state they lead to. *)
Lemma requests_answered error_text requests fuel client server st :
  one_way client server → Forall (λ r, Z.of_nat (length r + TAG_LEN) ≤ MAX_FRAME ∧ head r ≠ Some OP_SUBSCRIBE) requests →
  (length (pushed client requests) ≤ fuel)%nat →
  ∃ chan, serve_requests error_text fuel [] server (pushed client requests) st
    = (pushed server (responses error_text requests st), PeerLeft, chan, lead error_text requests st).
Proof.
  revert fuel client server st. induction requests as [|r requests IH]; intros fuel client server st Ho Hr Hf.
  { exists server. by destruct fuel. }
  apply list.Forall_cons in Hr as [[Hfit Hne] Hr]. rewrite pushed_cons in *.
  assert (Hs : small (length r + TAG_LEN)) by (unfold small, MAX_FRAME in *; lia).
  pose proof (channel_send_length client server r Ho Hs) as Hpos. rewrite length_app in Hf.
  destruct (channel_send client r) as [frame client'] eqn:E. cbn [fst snd] in *.
  pose proof (channel_send_recv client server r frame client' (pushed client' requests) Ho Hs E) as [Hrecv _].
  destruct fuel as [|fuel]; [lia|]. cbn [serve_requests].
  destruct (channel_recv server _) as [[[r' rest] server']|e]; [|lia].
  destruct Hrecv as (-> & -> & Ho' & Hsk & Hsc). rewrite decide_False by done. cbn [responses lead fold_left].
  pose proof (respond_state error_text r st) as Hst. destruct (respond error_text r st) as [response st1]. cbn [snd] in Hst.
  rewrite pushed_cons. unfold channel_send. cbn [fst snd head tail default]. rewrite Hsk, Hsc.
  set (server1 := mkChannel _ (recv_key server') _ _).
  destruct (IH fuel client' server1 st1) as (chan & Hserve).
  - destruct Ho' as (? & ? & ?). by split_and!.
  - done.
  - lia.
  - rewrite Hserve. exists chan. rewrite Hst. f_equal. f_equal. f_equal. f_equal. by apply pushed_half.
Qed.

(** ** Examples *)

Definition sample_leader : ServerState := server_new (mkLocal (mkStorage {[ bs "a" := bs "1" ]} []) []) false.
Definition sample_follower : ServerState := server_new (mkLocal (mkStorage {[ bs "z" := bs "9" ]} []) []) true.
Definition sample_requests : list bytes :=
  [[Wire.OP_PUT] ++ put_bytes (bs "b") ++ put_bytes (bs "2"); [Wire.OP_DELETE] ++ put_bytes (bs "a")].
Definition sample_queue : list bytes :=
  [record REC_BATCH 1 (encode_batch (batch_put batch_new (bs "b") (bs "2")));
   record REC_BATCH 2 (encode_batch (batch_delete batch_new (bs "a")))].
Definition zero_channel : Channel := mkChannel (replicate 32 Byte.x00) (replicate 32 Byte.x00) 0 0.

