(* ===== verification/ServerMain.v ===== *)
(** * The server's command line and its identity

    ciphra-server/src/main.rs: the arguments, the static transport key kept in
    a file beside the data, and the text in which it is printed for clients to
    pin. What the file system does is an argument. *)

From S2P Require Import Prelude Storage Aead Float SqlAst SqlLexer SqlParser Migrate Values AuditChain Store EngineState Ddl Exec Errors Json FloatFacts Ffi FfiFacts Cli CliFacts Hybrid.

Definition DEFAULT_LISTEN : Text := tx "127.0.0.1:5077".
Definition IDENTITY_FILE : bytes := bs "ciphra.serverkey".

(** ** Arguments *)

Record ServerOptions : Type := mkServerOptions {
  so_data : Text;
  so_listen : Text;
  so_follow : option Text;
  so_server_key : option bytes;
}.
Definition default_server_options : ServerOptions := mkServerOptions DEFAULT_DATA_DIR DEFAULT_LISTEN None None.

Inductive ServerParsed : Type := Serve (o : ServerOptions) | ServerHelp | ServerBadArgs (message : bytes).

(** [None] is the panic of [parse_key]. *)
Fixpoint parse_server_args (args : list Text) (o : ServerOptions) : option ServerParsed :=
  match args with
  | [] => Some (Serve o)
  | arg :: rest =>
      if one_of arg ["--data"; "-d"]%string then
        match rest with
        | v :: rest => parse_server_args rest (mkServerOptions v (so_listen o) (so_follow o) (so_server_key o))
        | [] => Some (ServerBadArgs (bs "--data requires a directory argument"))
        end
      else if one_of arg ["--listen"; "-l"]%string then
        match rest with
        | v :: rest => parse_server_args rest (mkServerOptions (so_data o) v (so_follow o) (so_server_key o))
        | [] => Some (ServerBadArgs (bs "--listen requires an address argument"))
        end
      else if one_of arg ["--follow"; "-f"]%string then
        match rest with
        | v :: rest => parse_server_args rest (mkServerOptions (so_data o) (so_listen o) (Some v) (so_server_key o))
        | [] => Some (ServerBadArgs (bs "--follow requires a leader address"))
        end
      else if one_of arg ["--server-key"; "-k"]%string then
        match rest with
        | v :: rest =>
            parsed ← parse_key (utf8 v);
            match parsed with
            | Err message => Some (ServerBadArgs message)
            | Ok key => parse_server_args rest (mkServerOptions (so_data o) (so_listen o) (so_follow o) (Some key))
            end
        | [] => Some (ServerBadArgs (bs "--server-key requires a 64-hex-char key"))
        end
      else if one_of arg ["--help"; "-h"]%string then Some ServerHelp
      else Some (ServerBadArgs (bs "unknown argument: " ++ utf8 arg ++ bs " (try --help)"))
  end.

(** ** The identity *)

Section Identity.
Context `{KeyAgreement} `{StdText}.

(** The file's content; what [read] and [write] return; the bytes the random
    source gives to [ServerIdentity::generate]. The result is the pair of
    keys and the file afterwards. *)
Definition load_or_create_identity (readable writable : bool) (random : bytes) (file : option bytes)
  : result bytes (bytes * bytes) * option bytes :=
  match file with
  | Some content =>
      if negb readable then (Err io_text, file)
      else if negb (length content =? 32)%nat then (Err (IDENTITY_FILE ++ bs " is not a 32-byte key"), file)
      else (Ok (content, si_public (identity_from_secret content)), file)
  | None =>
      let secret := si_secret (identity_from_secret (resize 32 Byte.x00 random)) in
      if negb writable then (Err io_text, file)
      else (Ok (secret, si_public (identity_from_secret secret)), Some secret)
  end.

(** The lines that name the key, when it serves. *)
Definition key_lines (data_dir listen : Text) (public : bytes) : list bytes :=
  [bs "ciphra-server: serving sealed storage from " ++ utf8 data_dir ++ bs " on " ++ utf8 listen;
   bs "(this process has no data keys and cannot decrypt what it stores)";
   bs "transport handshake: hybrid X25519 + ML-KEM-768";
   bs "server key (pin this on clients with --server-key):"; bs "  " ++ hex public].
End Identity.

(** Once created, the identity is the same at every start, and the client that
    is given the printed text pins exactly that key. *)
Theorem identity_is_stable `{KeyAgreementLaws} `{StdText} writable random file secret public file' :
  load_or_create_identity true writable random file = (Ok (secret, public), file') →
  (∀ writable' random', load_or_create_identity true writable' random' file' = (Ok (secret, public), file'))
  ∧ public = ka_public secret ∧ parse_key (hex public) = Some (Ok public).
Proof.
  intros Hload.
  assert (file' = Some secret ∧ length secret = 32%nat ∧ public = ka_public secret) as (-> & Hl & ->).
  { unfold load_or_create_identity in Hload. destruct file as [content|]; cbn [negb] in Hload.
    - destruct (Nat.eqb_spec (length content) 32); cbn [negb] in Hload; [|done].
      apply pair_equal_spec in Hload as [Hload <-]. apply ok_inj, pair_equal_spec in Hload as [<- <-]. done.
    - destruct writable; cbn [negb] in Hload; [|done].
      apply pair_equal_spec in Hload as [Hload <-]. apply ok_inj, pair_equal_spec in Hload as [<- <-].
      split_and!; [done|apply length_resize|done]. }
  split_and!; [|done|apply parse_printed_key, ka_public_length].
  intros writable' random'. unfold load_or_create_identity. rewrite Hl. reflexivity.
Qed.

Example server_arguments :
  parse_server_args [tx "-l"; tx "0.0.0.0:1"; tx "--follow"; tx "leader:5077"] default_server_options
  = Some (Serve (mkServerOptions DEFAULT_DATA_DIR (tx "0.0.0.0:1") (Some (tx "leader:5077")) None)).
Proof. vm_compute. reflexivity. Qed.
